(* ===== verification/_CoqProject ===== *)
-Q . S2P
Prelude.v
Bytes.v
F64.v
NodeAddr.v
Bloom.v
BloomState.v
Coordinate.v
TreeState.v
GreedyRouting.v
CoordCache.v
RecentRequests.v
RateLimit.v
Index.v
LookupPlan.v
LookupLimits.v
LearnedRoutes.v
LinkWire.v
SessionWire.v
Replay.v
GatewayPool.v
PathMtu.v
Mmp.v
MmpMetrics.v
StateErr.v
Noise.v
NoiseTransport.v
PacketBuffer.v
Upper.v
ErrorBudget.v
NodeTables.v
OwnerReplay.v
OwnerEpochs.v
AdmissionQueue.v
Ledger.v
LedgerBooks.v
LedgerSales.v
LedgerClosing.v
LedgerCredit.v
LedgerRecovery.v
LedgerWindows.v
DurableRelay.v
DurableSafety.v
HandshakeWire.v
Peers.v
PeerRegistry.v
LinkRekey.v
LinkIndexes.v
LinkReach.v
RekeyExchange.v
