(* ===== verification/Prelude.v ===== *)
(** * FIPS mesh node: a verification development

    FIPS is a self-organising encrypted mesh. A node has an address derived
    from its public key, keeps links to direct peers, agrees with them on a
    spanning tree, announces to each peer a Bloom filter of what it reaches,
    finds the tree coordinates of a destination by a lookup that travels along
    those filters, and forwards session datagrams greedily by tree distance or
    along routes learned from return traffic. Sessions are end-to-end Noise
    sessions inside those datagrams. This library models the protocol core of
    the node, under [crates/fips-core/src] and [crates/fips-identity/src]: the
    pure state machines and the codecs that the asynchronous handlers drive, the
    Noise handshakes and sessions, the receive side of the dataplane, and what the
    IPv6 adapter and the gateway do with packets and addresses. Relays may sell
    their forwarding; the accounts of a selling relay and the journal that carries
    them over a crash ([crates/fips-relay/src]) are modelled too.

    ** Files and the code they model

    - [Prelude]: machine integers, fallible code, iteration orders of hash
      maps, shared lemmas and tactics. [Bytes]: slices and little- and
      big-endian integers. [F64]: IEEE doubles.
    - [NodeAddr]: [fips-identity/src/node_addr.rs], [address.rs].
    - [Bloom]: [proto/bloom/filter.rs]. [BloomState]: [proto/bloom/state.rs],
      the announcement state and the aggregation of outgoing filters.
    - [Coordinate]: [proto/stp/coordinate.rs]. [TreeState]:
      [proto/stp/declaration.rs], [proto/stp/state.rs], the semantic validation
      of [proto/protocol/tree.rs] and, as the step relation [tree_step], the
      tree-state effect of [node/tree.rs]. [GreedyRouting]: no code of its own,
      a network of nodes that all run [find_next_hop].
    - [CoordCache]: [cache/entry.rs], [cache/coord_cache.rs].
    - [RecentRequests]: [proto/lookup_state.rs]. [LookupLimits]:
      [proto/lookup_limits.rs]. [LookupPlan]: [proto/lookup.rs]. Together they
      are the state of discovery: which lookups were seen, which may be sent or
      forwarded, and to whom.
    - [RateLimit]: [proto/rate_limit.rs], and the spacing argument the interval
      limiters share. [Index]: [utils/index.rs].
    - [LearnedRoutes]: [proto/routing.rs].
    - [LinkWire]: [proto/protocol/{error,link,tree,filter}.rs],
      [proto/mmp/report.rs]; it declares the codec interface, the classes
      [WireMessage] and [LawfulMessage]. [SessionWire]:
      [proto/protocol/{session,discovery,handshake}.rs],
      [session/control_messages.rs], [proto/fsp_wire.rs], against that interface.
    - [Replay]: [noise/replay.rs]. [StateErr]: the state and error monad of the
      cryptographic code. [Noise]: [noise/mod.rs], [noise/handshake.rs].
      [NoiseTransport]: [noise/session.rs], and what the two ends of a handshake
      and of a session see.
    - [OwnerReplay], [OwnerEpochs]: [dataplane/owner_replay.rs], and the receive
      side of [owner_state.rs], [owner_io.rs] and [owner_retire.rs].
      [AdmissionQueue]: [dataplane/admission.rs]. A shard admits packets to the
      queues, serves them in turns, reserves each with its owner and retires it
      when it was decrypted.
    - [Mmp], [PathMtu], [MmpMetrics]: [proto/mmp/{algorithms,receiver,sender,mod,metrics}.rs].
      [Module LossTrace] of [MmpMetrics] says what the evidence of loss should be.
    - [PacketBuffer]: [transport/packet_channel.rs]. [Upper]:
      [upper/{ipv6_shim,tcp_mss,icmp,icmp_rate_limit,tun,tun_runtime}.rs].
    - [GatewayPool]: [gateway/pool.rs].
    - [ErrorBudget]: [node/peer_error_budget.rs], [node/rate_limit.rs],
      [admit_error_emission] of [node/handlers/forwarding.rs]. [NodeTables]:
      [node/{identity_cache,path_mtu,link_registry,session_registry,support_state}.rs].
    - [Ledger]: [fips-relay/src/ledger.rs], [ledger/{admission,channel_history,
      history,retirement}.rs], the definitions. [LedgerBooks], [LedgerSales],
      [LedgerClosing]: the invariant [books] and that each operation keeps it.
      [LedgerCredit]: runs of the ledger and what a buyer may owe.
      [LedgerRecovery]: [ledger/recovery.rs], snapshots and their restoration.
      [LedgerWindows]: [recover_windows] of [ledger/admission.rs].
      [DurableRelay]: [durable.rs], [durable/channel_history.rs], and the module
      [System], the steps of a relay between which it may crash.
      [DurableSafety]: its invariant.
    - [HandshakeWire]: [node/wire.rs]. [Peers]: [peer/{active,connection,mod}.rs],
      [peer/active/rekey.rs]. [PeerRegistry]: [node/peer_lifecycle.rs],
      [node/peer_runtime.rs] and its methods in [node/handlers/rekey.rs].
      [LinkRekey]: the handlers that open, promote, rekey, cut over, drain,
      replace and remove link sessions ([node/handlers/{rekey,handshake,timeout,
      dispatch,encrypted}.rs] with their submodules,
      [node/lifecycle/candidate_connect.rs], [node/dataplane_pending.rs]).
      [LinkIndexes]: the account of session indexes and that each handler keeps it.
      [LinkReach]: the handlers as a transition system. [RekeyExchange]: a rekey
      through the handlers of both ends.

    A struct is a [Record] with the source's fields, an enum an [Inductive], a
    method a definition of the same name in the [Module] of its type, with
    [&mut self] as an extra component of the result. A [HashMap] is a [gmap]; where the
    source iterates over one, the order is the argument [ord], quantified
    in the theorems. A [u64] is a [Z] with saturation or wrap-around written
    out. The clock is an argument. An index or slice out of range is the
    outcome [Panic].

    ** What the theorems show

    - Replay: both ring bitmaps implement the sliding-window set on every
      trace; no counter is delivered twice; a fresh counter in the window is
      accepted.
    - Noise: both handshakes succeed and leave sessions that agree on keys,
      hashes, identities and epochs; messages are accepted only in order; a
      rejected message leaves no trace; nonces are never reused; a session
      delivers each message once whatever the network does. In IK the
      responder's own key is enough to impersonate an initiator to it.
    - Dataplane: no packet is delivered twice under one key through any rekey,
      and a cutover that drains loses none in flight; the packets in flight are
      bounded; the queues keep order, strand nothing and starve nobody.
    - Link sessions: over any sequence of handlers the session indexes in use are
      those held by connections and peers, each held once; promotion over a
      restarted peer loses the indexes of its unfinished sessions for good. A rekey,
      also one begun on both sides, ends with one session on both.
    - Measurement: reports are exact; the evidence of loss a sender draws from them is
      that of the newer reports, late packets credited; the estimates stay within their samples;
      a path MTU grows only on evidence, and may get stuck below it.
    - Packets: buffers never leave their allocation; header compression is
      undone end to end; clamping changes exactly the segment size and the
      checksum, and clamped segments fit; the loops over packets end.
    - Gateway: free and lent addresses partition the pool; mappings are
      reclaimed when idle and only then.
    - Node tables: the two halves of the path-MTU records are one record; the
      identity cache binds an address only to a key that hashes to it; the link
      index agrees with the links; one peer induces a bounded number of errors.
    - Bloom: no false negatives under inserts and merges; merge is the exact
      union, and loses items when hash counts differ; the
      aggregate-once computation of outgoing filters equals the direct merge; a
      peer is marked exactly when its filter changed; the cached deadline is
      exact in every reachable state.
    - Tree: distance is a metric through the lowest common ancestor;
      [find_next_hop] is the closest strictly closer peer; parent choice is
      loop free, independent of scan order and optimal; a router's own announcement is
      valid in every reachable state; dampening engages at most once. In a
      network, greedy forwarding visits no node twice and, when peers know each other's
      paths, delivers within the tree distance.
    - Discovery: responses are returned once, to the peer that asked; the
      indexes agree; admission is fair; backoff has its closed form; forwards
      are spaced and bursts bounded; plans name only eligible peers.
    - Caches and limiters: capacity and provenance of the coordinate cache;
      spacing of error signals; freshness of session indexes.
    - Learned routes: quarantine keeps a failed hop from being chosen;
      selection succeeds exactly when a usable route exists; tables stay
      bounded.
    - Relay accounts: no operation panics and the books balance after any history;
      one buyer is granted unpaid credit once, whatever it closes, renews or lets
      retire; a snapshot restores. At any crash the journal on disk loads and covers
      all that was reserved, and the relay can always write its next journal.
    - Codecs: every decoder inverts its encoder and never aborts on any
      bytes; a payload is classified as a handshake exactly when it is
      canonical.

    ** Parameters and bounds

    Code outside the repository is an argument of the definitions that use it:
    SHA-256, HKDF, ChaCha20-Poly1305, secp256k1 keys and their products, Schnorr
    verification and signing, [Signature::from_slice], the npub encoding, [powf] and [powi], the
    JSON codec of the journal, the
    allocator of a packet buffer and the random generator (the stream of values it
    yields). Hypotheses about them state their documented behaviour only, such as
    the length of a digest or that decryption inverts encryption, and each has a
    concrete instance in a witness.

    What a handler learns from the dataplane or a transport, such as whether a send
    succeeded, is an argument too, quantified in the theorems.

    Recursion is structural, on the bytes, list or map order the source loops over.
    The index allocator recurses on the source's own attempt limit, the pop loops
    of the queues on the line and on the run limit. The walk over TCP options and the
    checksum fold take fuel, and a theorem gives the fuel that is enough. The route of a packet through a
    network takes the number of hops as fuel, and the delivery theorem gives
    the fuel that is enough, the tree distance.

    ** Not modelled

    Sockets, transports, the TUN device, peer discovery over Nostr and mDNS,
    the control socket and the command-line tools are input and output. The
    decryption workers of the dataplane are threads; the model has what they
    are given and what they return, in any order. Its send side, and the activity
    and measurement fields of an owner, are left out, as are the retry and
    access-control state of the node, the rekeying of end-to-end sessions and, of
    [fips-relay], all that negotiates, quotes and pays: it drives an external wallet.
    Of link sessions the model leaves out the heartbeat a connection may send before
    it is promoted, which of two live paths wins (an argument), and the routing state
    a restart resets. The node's other handlers, which are asynchronous, are represented
    by the calls they make on the modelled state; each handler that is modelled holds
    the node exclusively and is one step. Erasing secrets from memory,
    logging and debug output are left out everywhere. *)

From Stdlib Require Export ZArith Lia.
From stdpp Require Export base tactics numbers option list gmap sorting.

#[export] Set Default Goal Selector "!".

(** ** Machine integers

    A [w]-bit unsigned integer is a [Z]; what the source does at the edge of
    the width (saturate, wrap, checked) is written out. *)

Definition U8_MAX : Z := 255.
Definition U16_MAX : Z := 65535.
Definition U32_MAX : Z := 4294967295.
Definition U64_MAX : Z := 18446744073709551615.

Definition is_u8 (z : Z) : Prop := (0 ≤ z ≤ U8_MAX)%Z.
Definition is_u16 (z : Z) : Prop := (0 ≤ z ≤ U16_MAX)%Z.
Definition is_u32 (z : Z) : Prop := (0 ≤ z ≤ U32_MAX)%Z.
Definition is_u64 (z : Z) : Prop := (0 ≤ z ≤ U64_MAX)%Z.

(** [u64::saturating_add], [saturating_sub], [saturating_mul], and the
    wrapping [+] of a release build. *)
Definition sat_add_u64 (a b : Z) : Z := Z.min (a + b) U64_MAX.
Definition sat_sub (a b : Z) : Z := Z.max 0 (a - b).
Definition sat_mul_u64 (a b : Z) : Z := Z.min (a * b) U64_MAX.
Definition wrap_u64 (a : Z) : Z := (a mod 2 ^ 64)%Z.
Definition wrap_u32 (a : Z) : Z := (a mod 2 ^ 32)%Z.
Definition sat_add_u32 (a b : Z) : Z := Z.min (a + b) U32_MAX.
Definition sat_add_u16 (a b : Z) : Z := Z.min (a + b) U16_MAX.

Declare Scope fips_scope.
Delimit Scope fips_scope with fips.
Notation "a +s b" := (sat_add_u64 a b) (at level 50, left associativity) : fips_scope.
Notation "a -s b" := (sat_sub a b) (at level 50, left associativity) : fips_scope.
Notation "a *s b" := (sat_mul_u64 a b) (at level 40, left associativity) : fips_scope.

(** [lia] with the widths and the saturating operations unfolded. *)
Ltac mlia :=
  unfold is_u8, is_u16, is_u32, is_u64, sat_add_u64, sat_sub, sat_mul_u64,
    sat_add_u32, sat_add_u16, U8_MAX, U16_MAX, U32_MAX, U64_MAX in *; lia.

(** ** Fallible code

    [Ok]/[Err] are Rust's; [Panic] is an out-of-range slice or index, which the
    source would abort on. *)
Inductive outcome (E A : Type) : Type :=
| Ok (a : A)
| Err (e : E)
| Panic.
Arguments Ok {E A} a.
Arguments Err {E A} e.
Arguments Panic {E A}.

#[export] Instance outcome_ret {E} : MRet (outcome E) := λ A, Ok.
#[export] Instance outcome_bind {E} : MBind (outcome E) := λ A B f m,
  match m with Ok a => f a | Err e => Err e | Panic => Panic end.
#[export] Instance outcome_eq_dec {E A} `{EqDecision E, EqDecision A} :
  EqDecision (outcome E A).
Proof. solve_decision. Defined.

Definition is_ok {E A} (m : outcome E A) : bool :=
  match m with Ok _ => true | _ => false end.

(** [Result::expect]: an error aborts. *)
Definition expect {E F A} (m : outcome E A) : outcome F A :=
  match m with Ok a => Ok a | _ => Panic end.

(** ** Iterating a [HashMap]

    Rust fixes no iteration order. An operation that iterates takes the order
    as an argument: any function that lists the map's bindings. The theorems
    hold for every such order. *)
Record MapOrder (K V : Type) `{Countable K} := {
  map_iter : gmap K V → list (K * V);
  map_iter_perm : ∀ m, map_iter m ≡ₚ map_to_list m
}.
Arguments map_iter {K V _ _} _ _.
Arguments map_iter_perm {K V _ _} _ _.

Definition canonical_order {K V : Type} `{Countable K} : MapOrder K V :=
  {| map_iter := map_to_list; map_iter_perm := λ m, Permutation_refl _ |}.

(** The same for a [HashSet]. *)
Record SetOrder (K : Type) `{Countable K} := {
  set_iter : gset K → list K;
  set_iter_perm : ∀ s, set_iter s ≡ₚ elements s
}.
Arguments set_iter {K _ _} _ _.
Arguments set_iter_perm {K _ _} _ _.

Definition canonical_set_order {K : Type} `{Countable K} : SetOrder K :=
  {| set_iter := elements; set_iter_perm := λ s, Permutation_refl _ |}.

Section map_order.
Context {K V : Type} `{Countable K} (ord : MapOrder K V).

Lemma elem_of_map_iter (m : gmap K V) k v : (k, v) ∈ map_iter ord m ↔ m !! k = Some v.
Proof. rewrite (map_iter_perm ord m). apply elem_of_map_to_list. Qed.

Lemma NoDup_map_iter_fst (m : gmap K V) : NoDup (map_iter ord m).*1.
Proof. rewrite (map_iter_perm ord m). apply NoDup_fst_map_to_list. Qed.

Lemma length_map_iter (m : gmap K V) : length (map_iter ord m) = size m.
Proof. rewrite (map_iter_perm ord m). apply length_map_to_list. Qed.

Lemma map_iter_nil (m : gmap K V) : map_iter ord m = [] ↔ m = ∅.
Proof.
  split.
  - intros Hnil. apply map_to_list_empty_iff, Permutation_nil.
    by rewrite <- Hnil, (map_iter_perm ord m).
  - intros ->. apply Permutation_nil.
    by rewrite (map_iter_perm ord ∅), map_to_list_empty.
Qed.
End map_order.

(** ** Sums over a map *)
Section map_sum.
Context {K A : Type} `{Countable K} (f : K → A → Z).

Definition map_sum (m : gmap K A) : Z := map_fold (λ k a n, (f k a + n)%Z) 0%Z m.

Lemma map_sum_insert_new m k a : m !! k = None → map_sum (<[k := a]> m) = (f k a + map_sum m)%Z.
Proof. intros Hk. unfold map_sum. rewrite map_fold_insert_L; [done| |done]. intros. lia. Qed.

Lemma map_sum_delete m k a : m !! k = Some a → map_sum m = (f k a + map_sum (delete k m))%Z.
Proof.
  intros Hk. rewrite <- (insert_delete_id m k a Hk) at 1. apply map_sum_insert_new, lookup_delete_eq.
Qed.

Lemma map_sum_insert m k a b : m !! k = Some a → map_sum (<[k := b]> m) = (map_sum m - f k a + f k b)%Z.
Proof.
  intros Hk. rewrite (map_sum_delete (<[k := b]> m) k b), delete_insert_eq, (map_sum_delete m k a Hk)
    by apply lookup_insert_eq. lia.
Qed.

Lemma map_sum_nonneg m : (∀ k a, m !! k = Some a → 0 ≤ f k a)%Z → (0 ≤ map_sum m)%Z.
Proof.
  induction m as [|k a m Hk IH] using map_ind; intros Hf; [done|]. rewrite map_sum_insert_new by done.
  assert (0 ≤ map_sum m)%Z by (apply IH; intros k' a' Hk'; apply Hf; rewrite lookup_insert_ne; [done|congruence]).
  assert (0 ≤ f k a)%Z by apply Hf, lookup_insert_eq. lia.
Qed.

Lemma map_sum_elem m k a : (∀ k a, m !! k = Some a → 0 ≤ f k a)%Z → m !! k = Some a → (f k a ≤ map_sum m)%Z.
Proof.
  intros Hf Hk. rewrite (map_sum_delete m k a Hk).
  enough (0 ≤ map_sum (delete k m))%Z by lia. apply map_sum_nonneg. intros k' a' [_ Hk']%lookup_delete_Some. eauto.
Qed.

Lemma map_sum_iter (ord : MapOrder K A) m :
  map_sum m = foldr (λ ka n, (f ka.1 ka.2 + n)%Z) 0%Z (map_iter ord m).
Proof.
  assert (map_sum m = foldr (λ ka n, (f ka.1 ka.2 + n)%Z) 0%Z (map_to_list m)) as ->.
  { unfold map_sum. rewrite map_fold_foldr. induction (map_to_list m) as [|[k a] l IH]; [done|]. cbn. by rewrite IH. }
  pose proof (map_iter_perm ord m) as Hp. induction Hp as [|x l1 l2 _ IH|x y l|l1 l2 l3 _ IH1 _ IH2]; cbn; [done|lia|lia|lia].
Qed.
End map_sum.

Lemma map_sum_ext {K A} `{Countable K} (f g : K → A → Z) (m : gmap K A) :
  (∀ k a, m !! k = Some a → f k a = g k a) → map_sum f m = map_sum g m.
Proof.
  induction m as [|k a m Hk IH] using map_ind; intros Hf; [done|]. rewrite !map_sum_insert_new by done.
  rewrite IH; [by rewrite (Hf k a) by apply lookup_insert_eq|].
  intros k' a' Hk'. apply Hf. rewrite lookup_insert_ne; [done|congruence].
Qed.

Lemma map_sum_le {K A} `{Countable K} (f g : K → A → Z) (m : gmap K A) :
  (∀ k a, m !! k = Some a → f k a ≤ g k a)%Z → (map_sum f m ≤ map_sum g m)%Z.
Proof.
  induction m as [|k a m Hk IH] using map_ind; intros Hf; [done|]. rewrite !map_sum_insert_new by done.
  assert (map_sum f m ≤ map_sum g m)%Z by (apply IH; intros k' a' Hk'; apply Hf; rewrite lookup_insert_ne; [done|congruence]).
  assert (f k a ≤ g k a)%Z by apply Hf, lookup_insert_eq. lia.
Qed.

Lemma map_sum_zero {K A} `{Countable K} (f : K → A → Z) (m : gmap K A) :
  (∀ k a, m !! k = Some a → f k a = 0%Z) → map_sum f m = 0%Z.
Proof.
  induction m as [|k a m Hk IH] using map_ind; intros Hf; [done|]. rewrite map_sum_insert_new by done.
  rewrite IH, (Hf k a); [done|apply lookup_insert_eq|]. intros k' a' Hk'. apply (Hf k'). rewrite lookup_insert_ne; [done|congruence].
Qed.

(** An entrywise change of the map. *)
Lemma map_sum_fmap {K A B} `{Countable K} (f : K → B → Z) (g : A → B) (m : gmap K A) :
  map_sum f (g <$> m) = map_sum (λ k a, f k (g a)) m.
Proof.
  induction m as [|k a m Hk IH] using map_ind; [by rewrite fmap_empty|].
  rewrite fmap_insert, !map_sum_insert_new; [by rewrite IH|done|by rewrite lookup_fmap, Hk].
Qed.

Lemma map_sum_add {K A} `{Countable K} (f g : K → A → Z) (m : gmap K A) :
  map_sum (λ k a, f k a + g k a)%Z m = (map_sum f m + map_sum g m)%Z.
Proof. induction m as [|k a m Hk IH] using map_ind; [done|]. rewrite !map_sum_insert_new, IH by done. lia. Qed.

(** Leaving entries out. *)
Lemma map_sum_filter {K A} `{Countable K} (f : K → A → Z) (P : K * A → Prop) `{!∀ x, Decision (P x)} (m : gmap K A) :
  map_sum f (filter P m) = map_sum (λ k a, if decide (P (k, a)) then f k a else 0%Z) m.
Proof.
  induction m as [|k a m Hk IH] using map_ind; [by rewrite map_filter_empty|].
  rewrite (map_sum_insert_new (λ k a, if decide (P (k, a)) then f k a else 0%Z)) by done. destruct (decide (P (k, a))) as [Hp|Hp].
  - rewrite map_filter_insert_True, map_sum_insert_new, IH by (done || by apply map_lookup_filter_None_2; left). done.
  - rewrite map_filter_insert_not' by (done || (intros y Hy; congruence)). by rewrite IH.
Qed.

(** A map whose entries are each below an entry of the other. *)
Lemma map_sum_dominated {K A B} `{Countable K} (f : K → A → Z) (g : K → B → Z) (m : gmap K A) (m' : gmap K B) :
  (∀ k a, m !! k = Some a → ∃ b, m' !! k = Some b ∧ (f k a ≤ g k b)%Z) → (∀ k b, m' !! k = Some b → (0 ≤ g k b)%Z) →
  (map_sum f m ≤ map_sum g m')%Z.
Proof.
  revert m'. induction m as [|k a m Hk IH] using map_ind; intros m' Hle Hpos; [by apply map_sum_nonneg|].
  destruct (Hle k a) as (b & Hb & Hab); [apply lookup_insert_eq|].
  rewrite map_sum_insert_new, (map_sum_delete g m' k b Hb) by done. apply Z.add_le_mono; [done|]. apply IH.
  - intros k1 a1 Hk1. assert (k1 ≠ k) by congruence. rewrite lookup_delete_ne by done. apply Hle. by rewrite lookup_insert_ne.
  - intros k1 b1 [_ Hk1]%lookup_delete_Some. eauto.
Qed.

(** The entries in any order make up the map. *)
Lemma list_to_map_iter {K A} `{Countable K} (ord : MapOrder K A) (m : gmap K A) : list_to_map (map_iter ord m) = m.
Proof.
  apply map_eq. intros k. apply option_eq. intros a. rewrite <- elem_of_list_to_map by apply NoDup_map_iter_fst.
  by rewrite elem_of_map_iter.
Qed.

(** A loop over the entries of [M]: [m] are those done, [l] those to come. *)
Definition map_splits {K A} `{Countable K} (M m : gmap K A) (l : list (K * A)) : Prop :=
  NoDup l.*1 ∧ (∀ k a, (k, a) ∈ l → m !! k = None) ∧ ∀ k a, M !! k = Some a ↔ m !! k = Some a ∨ (k, a) ∈ l.

Lemma map_splits_nil {K A} `{Countable K} (M m : gmap K A) : map_splits M m [] → m = M.
Proof.
  intros (_ & _ & Hall). apply map_eq. intros k. apply option_eq. intros a. rewrite Hall, elem_of_nil. naive_solver.
Qed.

Lemma map_splits_cons {K A} `{Countable K} (M m : gmap K A) k a l : map_splits M m ((k, a) :: l) →
  m !! k = None ∧ M !! k = Some a ∧ m ⊆ M ∧ map_splits M (<[k := a]> m) l.
Proof.
  intros (Hnd & Hnew & Hall). cbn in Hnd. apply NoDup_cons in Hnd as [Hni Hnd].
  assert (m !! k = None) as Hk by (apply (Hnew k a); left).
  assert (∀ k' a', (k', a') ∈ l → k' ≠ k) as Hne.
  { intros k' a' Hin ->. apply Hni, list_elem_of_fmap. by exists (k, a'). }
  split_and!; [done|apply Hall; right; left|apply map_subseteq_spec; intros; apply Hall; by left|]. split_and!; [done| |].
  - intros k' a' Hin. rewrite lookup_insert_ne by (symmetry; by eapply Hne). apply (Hnew k' a'). by right.
  - intros k' a'. rewrite Hall, elem_of_cons. destruct (decide (k' = k)) as [->|Hk'].
    + rewrite lookup_insert_eq. split; [intros [?|[?|Hin]]; [congruence|left; congruence|by right]|].
      intros [?|Hin]; [right; left; congruence|by right; right].
    + rewrite lookup_insert_ne by done. naive_solver.
Qed.

Lemma map_splits_iter {K A} `{Countable K} (ord : MapOrder K A) (M : gmap K A) : map_splits M ∅ (map_iter ord M).
Proof.
  split_and!; [apply NoDup_map_iter_fst|intros; apply lookup_empty|]. intros k a. rewrite elem_of_map_iter, lookup_empty. naive_solver.
Qed.

(** ** Lists *)

Lemma filter_all {A} (P : A → Prop) `{!∀ x, Decision (P x)} l : Forall P l → filter P l = l.
Proof. induction 1 as [|x l Hx _ IH]; [done|]. by rewrite filter_cons_True, IH. Qed.

Lemma ne_nil_elem_of {A} (l : list A) : l ≠ [] → ∃ x, x ∈ l.
Proof. destruct l as [|x l]; [done|]. exists x. left. Qed.

Lemma not_elem_of_nil_ne {A} (x : A) l : x ∈ l → l ≠ [].
Proof. by destruct 1. Qed.

(** ** Best-candidate loops

    The source's selection loops scan a map and keep the best candidate so far.
    With a transitive, irreflexive comparison the result is undominated; when
    undominated candidates are unique it does not depend on the scan order. *)

Section best.
Context {A : Type} (better : A → A → bool).

Definition keep_best (best : option A) (x : A) : option A :=
  match best with
  | None => Some x
  | Some b => if better x b then Some x else best
  end.

Context (l : list A).
Context (Hirr : ∀ x, x ∈ l → better x x = false).
Context (Htrans : ∀ x y z, x ∈ l → y ∈ l → z ∈ l →
  better x y = true → better y z = true → better x z = true).

Lemma keep_best_from l' m : m ∈ l → l' ⊆ l →
  ∃ m', foldl keep_best (Some m) l' = Some m' ∧ m' ∈ m :: l'
    ∧ ∀ x, x ∈ l → better x m = false ∨ x ∈ m :: l' → better x m' = false.
Proof.
  revert m. induction l' as [|y l' IH]; intros m Hm Hl'; cbn [foldl].
  { exists m. split; [done|]. split; [left|]. intros x Hx [?| ->%list_elem_of_singleton]; auto. }
  assert (y ∈ l) as Hy by (apply Hl'; left).
  assert (l' ⊆ l) as Hsub by (intros z Hz; apply Hl'; by right).
  unfold keep_best at 2. destruct (better y m) eqn:Hb.
  - destruct (IH y Hy Hsub) as (m' & Hf & Hin & Hmin). exists m'. split; [done|].
    split; [by right|]. intros x Hx Hor. apply Hmin; [done|].
    destruct Hor as [Hxm|Hin'].
    + left. apply not_true_is_false. intros Hxy. rewrite (Htrans x y m) in Hxm; done.
    + apply elem_of_cons in Hin' as [->|Hin']; [|by right].
      left. apply not_true_is_false. intros Hmy.
      pose proof (Htrans m y m Hm Hy Hm Hmy Hb) as Hmm. rewrite Hirr in Hmm; done.
  - destruct (IH m Hm Hsub) as (m' & Hf & Hin & Hmin). exists m'. split; [done|].
    split; [apply elem_of_cons in Hin as [->|]; [left|by do 2 right]|].
    intros x Hx [Hxm|Hin']; [auto|].
    apply elem_of_cons in Hin' as [->|[->|Hin']%elem_of_cons];
      (apply Hmin; [done|]); [right; left|by left|right; by right].
Qed.

End best.

Lemma keep_best_spec {A} (better : A → A → bool) l :
  (∀ x, x ∈ l → better x x = false) →
  (∀ x y z, x ∈ l → y ∈ l → z ∈ l →
     better x y = true → better y z = true → better x z = true) →
  match foldl (keep_best better) None l with
  | None => l = []
  | Some m => m ∈ l ∧ ∀ x, x ∈ l → better x m = false
  end.
Proof.
  intros Hirr Htrans. destruct l as [|a l]; [done|].
  destruct (keep_best_from better (a :: l) Hirr Htrans l a) as (m & Hf & Hm & Hmin).
  - left.
  - intros z Hz. by right.
  - simpl. rewrite Hf. auto.
Qed.

(** A scan that skips some bindings is a scan of the bindings it keeps. *)
Lemma foldl_omap {A B C} (f : A → C → A) (g : B → option C) a l :
  foldl (λ a x, match g x with Some y => f a y | None => a end) a l = foldl f a (omap g l).
Proof. revert a. induction l as [|x l IH]; intros a; simpl; [done|]. destruct (g x); apply IH. Qed.

(** [Iterator::max_by_key] and [min_by_key]: the last of the greatest, the first
    of the least. *)
Section by_key.
Context {A : Type} (key : A → Z).

Definition max_by_key (l : list A) : option A :=
  foldl (λ best x, match best with
                   | None => Some x
                   | Some b => if (key b <=? key x)%Z then Some x else best
                   end) None l.

Definition min_by_key (l : list A) : option A :=
  foldl (λ best x, match best with
                   | None => Some x
                   | Some b => if (key x <? key b)%Z then Some x else best
                   end) None l.

Lemma max_by_key_spec l :
  match max_by_key l with
  | None => l = []
  | Some m => m ∈ l ∧ ∀ x, x ∈ l → (key x ≤ key m)%Z
  end.
Proof.
  unfold max_by_key. induction l as [|y l IH] using rev_ind; [done|]. rewrite foldl_app. cbn [foldl].
  destruct (foldl _ None l) as [m|].
  - destruct IH as [Hm Hmax]. destruct (Z.leb_spec (key m) (key y)).
    + split; [set_solver|]. intros x [Hx| ->%list_elem_of_singleton]%elem_of_app; [|done].
      specialize (Hmax x Hx). lia.
    + split; [set_solver|]. intros x [Hx| ->%list_elem_of_singleton]%elem_of_app; [auto|lia].
  - subst l. split; [set_solver|]. by intros x ->%list_elem_of_singleton.
Qed.

Lemma min_by_key_spec l :
  match min_by_key l with
  | None => l = []
  | Some m => m ∈ l ∧ ∀ x, x ∈ l → (key m ≤ key x)%Z
  end.
Proof.
  unfold min_by_key. induction l as [|y l IH] using rev_ind; [done|]. rewrite foldl_app. cbn [foldl].
  destruct (foldl _ None l) as [m|].
  - destruct IH as [Hm Hmin]. destruct (Z.ltb_spec (key y) (key m)).
    + split; [set_solver|]. intros x [Hx| ->%list_elem_of_singleton]%elem_of_app; [|done].
      specialize (Hmin x Hx). lia.
    + split; [set_solver|]. intros x [Hx| ->%list_elem_of_singleton]%elem_of_app; [auto|lia].
  - subst l. split; [set_solver|]. by intros x ->%list_elem_of_singleton.
Qed.
End by_key.

(** Removing one position of a list without duplicates removes that element. *)
Lemma NoDup_delete_at {A} (l : list A) i x : NoDup l → l !! i = Some x →
  NoDup (delete i l) ∧ ∀ y, y ∈ delete i l ↔ y ∈ l ∧ y ≠ x.
Proof.
  intros Hnd Hi. pose proof (delete_Permutation _ _ _ Hi) as Hp. rewrite Hp in Hnd.
  apply NoDup_cons in Hnd as [Hx Hnd]. split; [done|]. intros y.
  assert (y ∈ l ↔ y ∈ x :: delete i l) as -> by (by rewrite <- Hp). rewrite elem_of_cons. set_solver.
Qed.
