(* ===== verification/Bytes.v ===== *)
(** * Bytes, slices and little-endian integers

    What the wire codecs use of Rust's standard library: [to_le_bytes],
    [from_le_bytes], [to_be_bytes], indexing and slicing of [&[u8]] (which
    panic out of range), and the lexicographic order of byte arrays. A byte is
    a [Z] in [0, 255]. *)

From S2P Require Import Prelude.

Local Open Scope Z_scope.

(** ** Integers as bytes *)

Fixpoint to_le_bytes (n : nat) (z : Z) : list Z :=
  match n with
  | O => []
  | S n => z mod 256 :: to_le_bytes n (z / 256)
  end.

Fixpoint from_le_bytes (bs : list Z) : Z :=
  match bs with
  | [] => 0
  | b :: bs => b + 256 * from_le_bytes bs
  end.

Definition to_be_bytes (n : nat) (z : Z) : list Z := reverse (to_le_bytes n z).
Definition from_be_bytes (bs : list Z) : Z := from_le_bytes (reverse bs).

(** ** Slices *)

(** [l[i]] *)
Definition index {E} (l : list Z) (i : nat) : outcome E Z :=
  match l !! i with Some b => Ok b | None => Panic end.

(** [l[i..j]] *)
Definition slice {E} (l : list Z) (i j : nat) : outcome E (list Z) :=
  if (i <=? j)%nat && (j <=? length l)%nat then Ok (take (j - i) (drop i l)) else Panic.

(** [l[i..]] *)
Definition slice_from {E} (l : list Z) (i : nat) : outcome E (list Z) :=
  if (i <=? length l)%nat then Ok (drop i l) else Panic.

(** [l[off..off + bs.len()].copy_from_slice(bs)], in range. *)
Definition splice (l : list Z) (off : nat) (bs : list Z) : list Z :=
  take off l ++ bs ++ drop (off + length bs) l.

(** ** Zipped in-place update

    [for (a, b) in xs.iter_mut().zip(ys)] assigning [f a b] to [a]: the elements of
    [xs] past the end of [ys] keep their value. *)
Fixpoint zip_mut {A B} (f : A → B → A) (xs : list A) (ys : list B) : list A :=
  match xs, ys with
  | x :: xs, y :: ys => f x y :: zip_mut f xs ys
  | xs, _ => xs
  end.

(** [PartialOrd] of [[u8]]: lexicographic. *)
Fixpoint lex_ltb (a b : list Z) : bool :=
  match a, b with
  | [], [] => false
  | [], _ :: _ => true
  | _ :: _, [] => false
  | x :: a, y :: b => (x <? y) || ((x =? y) && lex_ltb a b)
  end.

(** ** Facts *)

Lemma splice_app x y z bs : length y = length bs → splice (x ++ y ++ z) (length x) bs = x ++ bs ++ z.
Proof.
  intros Hy. unfold splice. rewrite take_app_length, <-Hy. f_equal. f_equal.
  by rewrite app_assoc, drop_app_length' by (by rewrite length_app).
Qed.

Lemma length_splice l off bs : (off + length bs ≤ length l)%nat → length (splice l off bs) = length l.
Proof. intros Hl. unfold splice. rewrite !length_app, length_take, length_drop. lia. Qed.


Lemma length_to_le_bytes n z : length (to_le_bytes n z) = n.
Proof. revert z. induction n as [|n IH]; intros z; simpl; [done|]. by rewrite IH. Qed.

Lemma length_to_be_bytes n z : length (to_be_bytes n z) = n.
Proof. unfold to_be_bytes. by rewrite length_reverse, length_to_le_bytes. Qed.

Lemma to_le_bytes_u8 n z : Forall is_u8 (to_le_bytes n z).
Proof.
  revert z. induction n as [|n IH]; intros z; simpl; constructor; [|done].
  pose proof (Z.mod_pos_bound z 256). mlia.
Qed.

Lemma to_be_bytes_u8 n z : Forall is_u8 (to_be_bytes n z).
Proof. unfold to_be_bytes. apply Forall_reverse, to_le_bytes_u8. Qed.

Lemma from_to_le_bytes n z : from_le_bytes (to_le_bytes n z) = z mod 2 ^ (8 * Z.of_nat n).
Proof.
  revert z. induction n as [|n IH]; intros z; simpl from_le_bytes.
  { by rewrite Z.mod_1_r. }
  rewrite IH. replace (8 * Z.of_nat (S n)) with (8 + 8 * Z.of_nat n) by lia.
  rewrite Z.pow_add_r by lia. change (2 ^ 8) with 256.
  rewrite Z.rem_mul_r by (try apply Z.pow_nonzero; lia). done.
Qed.

Lemma from_to_le_small n z : 0 ≤ z < 2 ^ (8 * Z.of_nat n) → from_le_bytes (to_le_bytes n z) = z.
Proof. intros. rewrite from_to_le_bytes. by apply Z.mod_small. Qed.

Lemma from_to_be_small n z : 0 ≤ z < 2 ^ (8 * Z.of_nat n) → from_be_bytes (to_be_bytes n z) = z.
Proof. intros. unfold from_be_bytes, to_be_bytes. rewrite reverse_involutive. by apply from_to_le_small. Qed.

Lemma from_le_bytes_bound bs : Forall is_u8 bs → 0 ≤ from_le_bytes bs < 2 ^ (8 * Z.of_nat (length bs)).
Proof.
  induction 1 as [|b bs Hb _ IH]; simpl length; simpl from_le_bytes; [done|].
  replace (8 * Z.of_nat (S (length bs))) with (8 + 8 * Z.of_nat (length bs)) by lia.
  rewrite Z.pow_add_r by lia. change (2 ^ 8) with 256. mlia.
Qed.

Lemma to_from_le_bytes bs : Forall is_u8 bs → to_le_bytes (length bs) (from_le_bytes bs) = bs.
Proof.
  induction 1 as [|b bs Hb _ IH]; simpl; [done|].
  rewrite (Z.mul_comm 256), Z.mod_add, Z.div_add by lia.
  rewrite Z.mod_small, Z.div_small by mlia. by rewrite Z.add_0_l, IH.
Qed.

Lemma to_from_be_bytes bs : Forall is_u8 bs → to_be_bytes (length bs) (from_be_bytes bs) = bs.
Proof.
  intros Hbs. unfold from_be_bytes, to_be_bytes.
  rewrite <- (length_reverse bs), to_from_le_bytes by (by apply Forall_reverse).
  by rewrite reverse_involutive.
Qed.

Lemma from_be_bytes_bound bs : Forall is_u8 bs → 0 ≤ from_be_bytes bs < 2 ^ (8 * Z.of_nat (length bs)).
Proof.
  intros Hbs. unfold from_be_bytes. rewrite <- (length_reverse bs).
  by apply from_le_bytes_bound, Forall_reverse.
Qed.

Lemma to_be_bytes_S n z : to_be_bytes (S n) z = to_be_bytes n (z / 256) ++ [z mod 256].
Proof. unfold to_be_bytes. simpl. by rewrite reverse_cons. Qed.

Lemma lex_ltb_snoc a b x y : length a = length b →
  lex_ltb (a ++ [x]) (b ++ [y]) = lex_ltb a b || (bool_decide (a = b) && (x <? y)).
Proof.
  revert b. induction a as [|u a IH]; intros [|v b] Hlen; try done.
  { rewrite bool_decide_true by done. simpl. by rewrite andb_false_r, orb_false_r. }
  cbn [app lex_ltb]. rewrite IH by (simpl in Hlen; congruence).
  assert (bool_decide (u :: a = v :: b) = (u =? v) && bool_decide (a = b)) as ->.
  { destruct (Z.eqb_spec u v); cbn [andb]; [apply bool_decide_ext|apply bool_decide_false]; naive_solver. }
  by destruct (u <? v), (u =? v), (lex_ltb a b), (bool_decide (a = b)), (x <? y).
Qed.

(** Big-endian bytes sort as the number does. *)
Lemma lex_ltb_be n : ∀ a b, 0 ≤ a < 2 ^ (8 * Z.of_nat n) → 0 ≤ b < 2 ^ (8 * Z.of_nat n) →
  lex_ltb (to_be_bytes n a) (to_be_bytes n b) = (a <? b).
Proof.
  induction n as [|n IH]; intros a b Ha Hb.
  { simpl in *. replace a with 0 by lia. replace b with 0 by lia. done. }
  replace (8 * Z.of_nat (S n)) with (8 + 8 * Z.of_nat n) in * by lia.
  rewrite Z.pow_add_r in * by lia. change (2 ^ 8) with 256 in *.
  assert (Hq : ∀ z, 0 ≤ z < 256 * 2 ^ (8 * Z.of_nat n) → 0 ≤ z / 256 < 2 ^ (8 * Z.of_nat n)).
  { intros z Hz. split; [apply Z.div_pos; lia|apply Z.div_lt_upper_bound; lia]. }
  rewrite !to_be_bytes_S, lex_ltb_snoc by (by rewrite !length_to_be_bytes).
  rewrite IH by auto.
  assert (Heq : to_be_bytes n (a / 256) = to_be_bytes n (b / 256) ↔ a / 256 = b / 256).
  { split; [|by intros ->]. intros He%(f_equal from_be_bytes).
    by rewrite !from_to_be_small in He by auto. }
  rewrite (bool_decide_ext _ _ Heq).
  pose proof (Z.div_mod a 256). pose proof (Z.div_mod b 256).
  pose proof (Z.mod_pos_bound a 256). pose proof (Z.mod_pos_bound b 256).
  case_bool_decide; simpl; lia.
Qed.

Lemma length_zip_mut {A B} (f : A → B → A) xs ys : length (zip_mut f xs ys) = length xs.
Proof. revert ys. induction xs as [|x xs IH]; intros [|y ys]; simpl; congruence. Qed.

Lemma zip_mut_lookup {A B} (f : A → B → A) xs ys i x y :
  xs !! i = Some x → ys !! i = Some y → zip_mut f xs ys !! i = Some (f x y).
Proof.
  revert ys i. induction xs as [|x' xs IH]; intros [|y' ys] [|i] Hx Hy; simpl in *; try done; [congruence|].
  by apply IH.
Qed.

(** ** Reading back what was written

    [slice] and [index] over an append, for positions known to the codec. *)
Create HintDb wire.
Create Rewrite HintDb wire.

Section reading.
Context {E : Type}.
Implicit Types a b l : list Z.

Lemma slice_app_here a l n : length a = n → @slice E (a ++ l) 0 n = Ok a.
Proof.
  intros <-. unfold slice. rewrite length_app. simpl.
  rewrite (proj2 (Nat.leb_le _ _)) by lia.
  rewrite Nat.sub_0_r, drop_0, take_app_length. done.
Qed.

Lemma slice_all a n : length a = n → @slice E a 0 n = Ok a.
Proof. intros Hn. rewrite <- (app_nil_r a) at 1. by apply slice_app_here. Qed.

Lemma slice_app_skip a l i j : (length a ≤ i ≤ j)%nat →
  @slice E (a ++ l) i j = slice l (i - length a) (j - length a).
Proof.
  intros Hi. unfold slice. rewrite length_app, drop_app_ge by lia.
  rewrite (proj2 (Nat.leb_le i j)), (proj2 (Nat.leb_le (i - _) (j - _))) by lia. simpl.
  destruct (Nat.leb_spec j (length a + length l)).
  - rewrite (proj2 (Nat.leb_le _ _)) by lia. do 2 f_equal. lia.
  - by rewrite (proj2 (Nat.leb_gt _ _)) by lia.
Qed.

Lemma slice_cons x l i j : @slice E (x :: l) (S i) (S j) = slice l i j.
Proof. unfold slice. simpl. by destruct (i <=? j)%nat, (j <=? length l)%nat. Qed.

Lemma index_app_skip a l i : (length a ≤ i)%nat → @index E (a ++ l) i = index l (i - length a).
Proof. intros. unfold index. by rewrite lookup_app_r. Qed.

Lemma index_cons x l i : @index E (x :: l) (S i) = index l i.
Proof. done. Qed.

Lemma slice_from_app a l n : length a = n → @slice_from E (a ++ l) n = Ok l.
Proof.
  intros <-. unfold slice_from. rewrite length_app, (proj2 (Nat.leb_le _ _)) by lia.
  by rewrite drop_app_length.
Qed.

(** In range, neither operation panics. *)
Lemma slice_ok l i j : (i ≤ j ≤ length l)%nat →
  @slice E l i j = Ok (take (j - i) (drop i l)) ∧ length (take (j - i) (drop i l)) = (j - i)%nat.
Proof.
  intros. unfold slice. rewrite !(proj2 (Nat.leb_le _ _)) by lia. split; [done|].
  rewrite length_take, length_drop. lia.
Qed.

Lemma index_ok l i : (i < length l)%nat → ∃ x : Z, @index E l i = Ok x.
Proof. intros [x Hx]%lookup_lt_is_Some. exists x. unfold index. by rewrite Hx. Qed.
End reading.
