(* ===== verification/F64.v ===== *)
(** * Double-precision floats

    Rust's [f64] as the Standard Library's executable specification of IEEE
    754 binary64 ([SpecFloat] with precision 53 and maximal exponent 1024),
    and the order facts the components use: on floats that are not NaN,
    [<] and [==] are a total preorder. *)

From S2P Require Import Prelude.
From Stdlib Require Export SpecFloat.

Local Open Scope Z_scope.

Abbreviation f64 := spec_float (only parsing).

#[export] Instance f64_eq_dec : EqDecision f64.
Proof. solve_decision. Defined.

(** [n as f64] of an integer. *)
Definition f64_of_Z (n : Z) : f64 := binary_normalize 53 1024 n 0 false.

Definition f64_zero : f64 := S754_zero false.
Definition f64_one : f64 := f64_of_Z 1.
Definition f64_infinity : f64 := S754_infinity false.
Definition f64_add (x y : f64) : f64 := SFadd 53 1024 x y.
Definition f64_sub (x y : f64) : f64 := SFsub 53 1024 x y.
Definition f64_mul (x y : f64) : f64 := SFmul 53 1024 x y.
Definition f64_div (x y : f64) : f64 := SFdiv 53 1024 x y.
Definition f64_ltb (x y : f64) : bool := SFltb x y.
Definition f64_eqb (x y : f64) : bool := SFeqb x y.
Definition f64_leb (x y : f64) : bool := SFleb x y.
Definition is_nan (x : f64) : bool := match x with S754_nan => true | _ => false end.

(** [f64::min]: the other operand when one is NaN. *)
Definition f64_min (x y : f64) : f64 :=
  if is_nan x then y else if is_nan y then x else if f64_ltb y x then y else x.

(** [f64::max]: the other operand when one is NaN. *)
Definition f64_max (x y : f64) : f64 :=
  if is_nan x then y else if is_nan y then x else if f64_ltb x y then y else x.

(** [Iterator::sum] of floats starts from [-0.0]. *)
Definition f64_sum (l : list f64) : f64 := foldl f64_add (S754_zero true) l.

(** [Duration::as_secs_f64] of a duration in nanoseconds. *)
Definition as_secs_f64 (d : Z) : f64 :=
  f64_add (f64_of_Z (d / 1000000000)) (f64_div (f64_of_Z (d mod 1000000000)) (f64_of_Z 1000000000)).

(** [f64::clamp]: a NaN stays NaN. *)
Definition f64_clamp (x lo hi : f64) : f64 :=
  if f64_ltb x lo then lo else if f64_ltb hi x then hi else x.

(** [x as i]: truncation towards zero, saturating at the bounds of the integer
    type; NaN gives zero. *)
Definition f64_to_int (lo hi : Z) (x : f64) : Z :=
  match x with
  | S754_nan | S754_zero _ => 0
  | S754_infinity s => if s then lo else hi
  | S754_finite s m e =>
      let t := if 0 <=? e then Z.pos m * 2 ^ e else Z.pos m / 2 ^ (- e) in
      Z.max lo (Z.min hi (if s then - t else t))
  end.

(** ** The order *)

(** The position of a float that is not NaN: class, then exponent and mantissa. *)
Definition key (x : f64) : Z * Z * Z :=
  match x with
  | S754_infinity true => (-2, 0, 0)
  | S754_finite true m e => (-1, - e, - Z.pos m)
  | S754_zero _ => (0, 0, 0)
  | S754_finite false m e => (1, e, Z.pos m)
  | S754_infinity false => (2, 0, 0)
  | S754_nan => (3, 0, 0)
  end.

Definition key_lt (a b : Z * Z * Z) : Prop :=
  a.1.1 < b.1.1 ∨ (a.1.1 = b.1.1 ∧ (a.1.2 < b.1.2 ∨ (a.1.2 = b.1.2 ∧ a.2 < b.2))).

Lemma SFcompare_key x y : is_nan x = false → is_nan y = false →
  match SFcompare x y with
  | Some Lt => key_lt (key x) (key y)
  | Some Gt => key_lt (key y) (key x)
  | Some Eq => key x = key y
  | None => False
  end.
Proof.
  intros Hx Hy. destruct x as [[]|[]| |[] m e], y as [[]|[]| |[] m' e']; try done;
    unfold key_lt; simpl; try lia.
  - destruct (Z.compare_spec e e'); [subst|simpl; lia|simpl; lia].
    fold (Pos.compare m m'). destruct (Pos.compare_spec m m'); simpl; [congruence|lia|lia].
  - destruct (Z.compare_spec e e'); [subst|simpl; lia|simpl; lia].
    fold (Pos.compare m m'). destruct (Pos.compare_spec m m'); simpl; [congruence|lia|lia].
Qed.

Lemma f64_ltb_key x y : is_nan x = false → is_nan y = false →
  f64_ltb x y = true ↔ key_lt (key x) (key y).
Proof.
  intros Hx Hy. pose proof (SFcompare_key x y Hx Hy) as Hc. unfold f64_ltb, SFltb.
  destruct (SFcompare x y) as [[]|]; [|done| |done].
  - rewrite Hc. unfold key_lt. split; [done|lia].
  - unfold key_lt in *. split; [done|lia].
Qed.

Lemma f64_eqb_key x y : is_nan x = false → is_nan y = false →
  f64_eqb x y = true ↔ key x = key y.
Proof.
  intros Hx Hy. pose proof (SFcompare_key x y Hx Hy) as Hc. unfold f64_eqb, SFeqb.
  destruct (SFcompare x y) as [[]|]; [done| | |done]; (split; [done|]);
    intros Hk; rewrite Hk in Hc; unfold key_lt in Hc; lia.
Qed.

(** [f64::total_cmp]: as [key], with [-0.0] before [+0.0] and a (positive) NaN last. *)
Definition total_key (x : f64) : Z * Z * Z :=
  match x with S754_zero true => (0, -1, 0) | _ => key x end.

Definition compare_key (a b : Z * Z * Z) : comparison :=
  match a.1.1 ?= b.1.1 with
  | Eq => match a.1.2 ?= b.1.2 with Eq => a.2 ?= b.2 | c => c end
  | c => c
  end.

Definition total_cmp (x y : f64) : comparison := compare_key (total_key x) (total_key y).

(** The address breaks ties: strictly better by the float, or equal with the smaller address. *)
Definition f64_better (x y : Z * f64) : bool :=
  f64_ltb x.2 y.2 || (f64_eqb x.2 y.2 && (x.1 <? y.1)).

Definition better_key (x y : Z * f64) : Prop :=
  key_lt (key x.2) (key y.2) ∨ (key x.2 = key y.2 ∧ x.1 < y.1).

Lemma f64_better_key x y : is_nan x.2 = false → is_nan y.2 = false →
  f64_better x y = true ↔ better_key x y.
Proof.
  intros Hx Hy. unfold f64_better, better_key.
  by rewrite orb_true_iff, andb_true_iff, f64_ltb_key, f64_eqb_key, Z.ltb_lt.
Qed.

Lemma key_total x y : key_lt (key x) (key y) ∨ key x = key y ∨ key_lt (key y) (key x).
Proof. unfold key_lt. destruct (key x) as [[a b] c], (key y) as [[a' b'] c']. simpl. 
  destruct (decide (a = a')); [|lia]. destruct (decide (b = b')); [|lia].
  destruct (decide (c = c')); [|lia]. subst. auto.
Qed.

Lemma f64_better_irrefl x : is_nan x.2 = false → f64_better x x = false.
Proof.
  intros Hx. apply not_true_is_false. rewrite f64_better_key by done. unfold better_key, key_lt. lia.
Qed.

Lemma f64_better_trans x y z :
  is_nan x.2 = false → is_nan y.2 = false → is_nan z.2 = false →
  f64_better x y = true → f64_better y z = true → f64_better x z = true.
Proof.
  intros Hx Hy Hz. rewrite !f64_better_key by done. unfold better_key.
  intros [H1|[H1 ?]] [H2|[H2 ?]].
  - left. unfold key_lt in *. lia.
  - left. by rewrite <- H2.
  - left. by rewrite H1.
  - right. split; [congruence|lia].
Qed.

Lemma f64_better_total x y : is_nan x.2 = false → is_nan y.2 = false →
  f64_better x y = false → f64_better y x = false → x.1 = y.1.
Proof.
  intros Hx Hy. rewrite <- !not_true_iff_false, !f64_better_key by done. unfold better_key.
  destruct (key_total x.2 y.2) as [?|[Heq|?]]; [naive_solver| |naive_solver].
  rewrite Heq. intros H1 H2. destruct (Z.lt_total x.1 y.1) as [?|[?|?]]; naive_solver.
Qed.
