(* ===== verification/NodeAddr.v ===== *)
(** * Node addresses ([crates/fips-identity/src/node_addr.rs], [address.rs])

    A node address is 16 bytes, the head of SHA-256 of the node's public key.
    The model is the 128-bit number those bytes spell in big-endian order, so
    that the derived (lexicographic) [Ord] of the source is [<] on [Z];
    [node_addr_order] is the proof of that. The IPv6-shaped [FipsAddress] is
    [0xfd] followed by the first 15 bytes. SHA-256 is a parameter. *)

From S2P Require Import Prelude Bytes.

Local Open Scope Z_scope.

Abbreviation NodeAddr := Z (only parsing).

Definition is_addr (a : NodeAddr) : Prop := 0 ≤ a < 2 ^ 128.

Inductive IdentityError :=
| InvalidNodeAddrLength (n : nat)
| InvalidAddressLength (n : nat)
| InvalidAddressPrefix (b : Z).

Module NodeAddrOps.

(** [NodeAddr::from_bytes] on a 16-byte array. *)
Definition from_bytes (bytes : list Z) : NodeAddr := from_be_bytes bytes.

Definition as_bytes (a : NodeAddr) : list Z := to_be_bytes 16 a.

Definition from_slice (s : list Z) : outcome IdentityError NodeAddr :=
  if negb (length s =? 16)%nat then Err (InvalidNodeAddrLength (length s))
  else Ok (from_bytes s).

(** [NodeAddr::from_pubkey]: the first 16 bytes of the hash of the serialized
    x-only key. *)
Definition from_pubkey (sha256 : list Z → list Z) (pubkey : list Z) : NodeAddr :=
  from_bytes (take 16 (sha256 pubkey)).

(** Derived [PartialOrd]: the lexicographic order of the bytes. *)
Definition lt_bytes (a b : NodeAddr) : bool := lex_ltb (as_bytes a) (as_bytes b).

End NodeAddrOps.

Module FipsAddress.

Definition FIPS_ADDRESS_PREFIX : Z := 253.

(** The newtype over [[u8; 16]] holds its bytes. *)
Record FipsAddress := mkFipsAddress { bytes : list Z }.

Definition from_bytes (bs : list Z) : outcome IdentityError FipsAddress :=
  if negb (bs !!! 0%nat =? FIPS_ADDRESS_PREFIX) then Err (InvalidAddressPrefix (bs !!! 0%nat))
  else Ok (mkFipsAddress bs).

Definition from_slice (s : list Z) : outcome IdentityError FipsAddress :=
  if negb (length s =? 16)%nat then Err (InvalidAddressLength (length s))
  else from_bytes s.

Definition from_node_addr (a : NodeAddr) : FipsAddress :=
  mkFipsAddress (FIPS_ADDRESS_PREFIX :: take 15 (NodeAddrOps.as_bytes a)).

End FipsAddress.

(** ** Facts *)

Lemma length_as_bytes a : length (NodeAddrOps.as_bytes a) = 16%nat.
Proof. apply length_to_be_bytes. Qed.

Lemma as_bytes_u8 a : Forall is_u8 (NodeAddrOps.as_bytes a).
Proof. apply Forall_reverse, to_le_bytes_u8. Qed.

Lemma from_as_bytes a : is_addr a → NodeAddrOps.from_bytes (NodeAddrOps.as_bytes a) = a.
Proof. intros. by apply from_to_be_small. Qed.

Lemma as_from_bytes bs : length bs = 16%nat → Forall is_u8 bs →
  NodeAddrOps.as_bytes (NodeAddrOps.from_bytes bs) = bs.
Proof. intros Hlen Hbs. unfold NodeAddrOps.as_bytes. rewrite <- Hlen. by apply to_from_be_bytes. Qed.

Lemma from_bytes_is_addr bs : length bs = 16%nat → Forall is_u8 bs →
  is_addr (NodeAddrOps.from_bytes bs).
Proof. intros Hlen Hbs%from_be_bytes_bound. by rewrite Hlen in Hbs. Qed.

Lemma as_bytes_inj a b : is_addr a → is_addr b →
  NodeAddrOps.as_bytes a = NodeAddrOps.as_bytes b → a = b.
Proof. intros Ha Hb He. by rewrite <- (from_as_bytes a), <- (from_as_bytes b), He. Qed.

#[export] Hint Rewrite length_as_bytes length_to_le_bytes length_to_be_bytes : wire.
#[export] Hint Resolve from_bytes_is_addr as_bytes_u8 to_le_bytes_u8 : wire.

(** The order of the model is the order of the code. *)
Lemma node_addr_order a b : is_addr a → is_addr b →
  NodeAddrOps.lt_bytes a b = (a <? b).
Proof. intros. unfold NodeAddrOps.lt_bytes. by apply lex_ltb_be. Qed.

Lemma take_as_bytes a : take 15 (NodeAddrOps.as_bytes a) = to_be_bytes 15 (a / 256).
Proof.
  unfold NodeAddrOps.as_bytes. rewrite to_be_bytes_S.
  by rewrite take_app_length' by (by rewrite length_to_be_bytes).
Qed.

(** The IPv6-shaped address of a node always validates, and two nodes share
    one exactly when their node addresses agree on the first 120 bits. *)
Theorem fips_address_faithful a b : is_addr a → is_addr b →
  FipsAddress.from_slice (FipsAddress.bytes (FipsAddress.from_node_addr a)) =
    Ok (FipsAddress.from_node_addr a) ∧
  (FipsAddress.from_node_addr a = FipsAddress.from_node_addr b ↔ a / 256 = b / 256).
Proof.
  intros Ha Hb. unfold FipsAddress.from_node_addr. rewrite !take_as_bytes. split.
  - unfold FipsAddress.from_slice. cbn [FipsAddress.bytes length]. by rewrite length_to_be_bytes.
  - split; [|by intros ->].
    intros He%(f_equal (λ f, from_be_bytes (tail (FipsAddress.bytes f)))). cbn [FipsAddress.bytes tail] in He.
    unfold is_addr in *.
    rewrite !from_to_be_small in He; [done|..];
      (split; [apply Z.div_pos; lia|apply Z.div_lt_upper_bound; lia]).
Qed.

Lemma fips_address_faithful_witness :
  FipsAddress.from_node_addr (7 * 256 + 1) = FipsAddress.from_node_addr (7 * 256 + 2).
Proof. apply (fips_address_faithful (7 * 256 + 1) (7 * 256 + 2)); done. Defined.
