(* ===== verification/Bloom.v ===== *)
(** * Bloom filters ([crates/fips-core/src/proto/bloom/filter.rs])

    The reachability filters nodes exchange. The source packs the bits into
    bytes and derives the [k] bit positions of an item from two halves of a
    SHA-256 hash by double hashing modulo the filter size, with 64-bit
    wrap-around. [Module BloomFilter] translates it; SHA-256 is the parameter
    [sha256]. The facts read a filter through [get_bit], its bit at a position. *)

From S2P Require Import Prelude Bytes NodeAddr.

Local Open Scope Z_scope.

Module BloomFilter.

Definition DEFAULT_FILTER_SIZE_BITS : Z := 8192.
Definition DEFAULT_HASH_COUNT : Z := 5.
Definition V1_SIZE_CLASS : Z := 1.

Inductive BloomError :=
| InvalidSize (expected got : Z)
| SizeNotByteAligned (n : Z)
| ZeroHashCount.

Record BloomFilter := mkBloomFilter {
  bits : list Z;
  num_bits : Z;
  hash_count : Z
}.

#[export] Instance BloomFilter_eq_dec : EqDecision BloomFilter.
Proof. solve_decision. Defined.

Definition with_params (num_bits hash_count : Z) : outcome BloomError BloomFilter :=
  if (num_bits =? 0) || negb (num_bits mod 8 =? 0) then Err (SizeNotByteAligned num_bits)
  else if hash_count =? 0 then Err ZeroHashCount
  else
    let num_bytes := num_bits / 8 in
    Ok {| bits := replicate (Z.to_nat num_bytes) 0; num_bits := num_bits; hash_count := hash_count |}.

(** [Self::with_params(..).expect(..)]; [new_params_ok] shows the [expect] holds. *)
Definition new : BloomFilter :=
  match with_params DEFAULT_FILTER_SIZE_BITS DEFAULT_HASH_COUNT with
  | Ok f => f
  | _ => mkBloomFilter [] 0 0
  end.

Definition num_bytes (self : BloomFilter) : Z := Z.of_nat (length (bits self)).

Definition from_bytes (bytes : list Z) (hash_count : Z) : outcome BloomError BloomFilter :=
  if hash_count =? 0 then Err ZeroHashCount
  else if (length bytes =? 0)%nat then Err (SizeNotByteAligned 0)
  else Ok {| bits := bytes; num_bits := Z.of_nat (length bytes) * 8; hash_count := hash_count |}.

Definition from_slice (bytes : list Z) (hash_count : Z) : outcome BloomError BloomFilter :=
  from_bytes bytes hash_count.

(** [self.bits[byte_index]] panics out of range; [byte_index_lt] with
    [hash_from_pair_range] shows that no operation indexes out of range, so the
    total lookup is exact. *)
Definition set_bit (self : BloomFilter) (index : Z) : BloomFilter :=
  let byte_index := Z.to_nat (index / 8) in
  let bit_offset := index mod 8 in
  {| bits := <[byte_index := Z.lor (bits self !!! byte_index) (Z.shiftl 1 bit_offset)]> (bits self);
     num_bits := num_bits self;
     hash_count := hash_count self |}.

Definition get_bit (self : BloomFilter) (index : Z) : bool :=
  let byte_index := Z.to_nat (index / 8) in
  let bit_offset := index mod 8 in
  Z.land (Z.shiftr (bits self !!! byte_index) bit_offset) 1 =? 1.

Definition hash_from_pair (self : BloomFilter) (h1 h2 k : Z) : Z :=
  let combined := wrap_u64 (h1 + wrap_u64 (k * h2)) in
  combined mod num_bits self.

(** [for i in 0..self.hash_count] of [insert] and [insert_bytes]. *)
Definition insert_hash_pair (self : BloomFilter) (h : Z * Z) : BloomFilter :=
  foldl (λ f i, set_bit f (hash_from_pair f h.1 h.2 i)) self (seqZ 0 (hash_count self)).

Definition contains_hash_pair (self : BloomFilter) (h : Z * Z) : bool :=
  forallb (λ i, get_bit self (hash_from_pair self h.1 h.2 i)) (seqZ 0 (hash_count self)).

Definition merge (self other : BloomFilter) : outcome BloomError BloomFilter :=
  if negb (num_bits self =? num_bits other)
  then Err (InvalidSize (num_bits self) (num_bits other))
  else Ok {| bits := zip_mut Z.lor (bits self) (bits other);
             num_bits := num_bits self;
             hash_count := hash_count self |}.

Definition union (self other : BloomFilter) : outcome BloomError BloomFilter :=
  result ← merge self other;
  Ok result.

Definition clear (self : BloomFilter) : BloomFilter :=
  {| bits := replicate (length (bits self)) 0;
     num_bits := num_bits self;
     hash_count := hash_count self |}.

(** [u8::count_ones]. *)
Definition byte_ones (b : Z) : Z :=
  foldr Z.add 0 ((λ i, Z.b2z (Z.testbit b i)) <$> seqZ 0 8).

Definition count_ones (self : BloomFilter) : Z := foldr Z.add 0 (byte_ones <$> bits self).

Definition is_empty (self : BloomFilter) : bool := forallb (λ b, b =? 0) (bits self).

(** [PartialEq]. *)
Definition eqb (self other : BloomFilter) : bool :=
  (num_bits self =? num_bits other) && (hash_count self =? hash_count other)
  && bool_decide (bits self = bits other).

Section hashing.
Context (sha256 : list Z → list Z).

Definition hash_pair (data : list Z) : Z * Z :=
  let hash := sha256 data in
  (from_le_bytes (take 8 hash), from_le_bytes (take 8 (drop 8 hash))).

Definition insert (self : BloomFilter) (node_addr : NodeAddr) : BloomFilter :=
  insert_hash_pair self (hash_pair (NodeAddrOps.as_bytes node_addr)).

Definition insert_bytes (self : BloomFilter) (data : list Z) : BloomFilter :=
  insert_hash_pair self (hash_pair data).

Definition contains_bytes (self : BloomFilter) (data : list Z) : bool :=
  contains_hash_pair self (hash_pair data).

Definition contains (self : BloomFilter) (node_addr : NodeAddr) : bool :=
  contains_bytes self (NodeAddrOps.as_bytes node_addr).
End hashing.

End BloomFilter.

(** ** Histories of one filter

    Any sequence of insertions and merges; a merge that fails (a filter of
    another size) leaves the filter as it was. *)
Module BloomHistory.
Import BloomFilter.

Inductive op :=
| Insert (data : list Z)
| Merge (other : BloomFilter).

Section run.
Context (sha256 : list Z → list Z).

Definition step (f : BloomFilter) (o : op) : BloomFilter :=
  match o with
  | Insert data => insert_bytes sha256 f data
  | Merge other => match merge f other with Ok f' => f' | _ => f end
  end.

Definition run (f : BloomFilter) (os : list op) : BloomFilter := foldl step f os.
End run.
End BloomHistory.

(** ** Bytes as bits *)

Lemma is_u8_bits z : is_u8 z ↔ 0 ≤ z ∧ ∀ i, 8 ≤ i → Z.testbit z i = false.
Proof.
  split.
  - intros Hz. split; [mlia|]. intros i Hi.
    apply Z.bits_above_log2; [mlia|]. destruct (decide (z = 0)) as [->|]; [simpl; lia|].
    apply (Z.lt_le_trans _ 8); [|done]. apply Z.log2_lt_pow2; mlia.
  - intros [Hz Hbits]. assert (z < 2 ^ 8); [|mlia].
    destruct (decide (z = 0)) as [->|]; [done|]. apply Z.log2_lt_pow2; [lia|].
    apply Z.nle_gt. intros Hlog. pose proof (Z.bit_log2 z) as Hb.
    rewrite Hbits in Hb by done. specialize (Hb ltac:(lia)). done.
Qed.

Lemma is_u8_lor a b : is_u8 a → is_u8 b → is_u8 (Z.lor a b).
Proof.
  rewrite !is_u8_bits. intros [? Ha] [? Hb]. split; [by apply Z.lor_nonneg|].
  intros i Hi. by rewrite Z.lor_spec, Ha, Hb.
Qed.

Lemma is_u8_land_l a b : is_u8 a → is_u8 (Z.land a b).
Proof.
  rewrite !is_u8_bits. intros [? Ha]. split; [apply Z.land_nonneg; auto|].
  intros i Hi. by rewrite Z.land_spec, Ha.
Qed.

Lemma is_u8_shiftl_1 i : 0 ≤ i < 8 → is_u8 (Z.shiftl 1 i).
Proof.
  intros Hi. rewrite Z.shiftl_1_l. assert (2 ^ i ≤ 2 ^ 7) by (apply Z.pow_le_mono_r; lia).
  pose proof (Z.pow_nonneg 2 i). mlia.
Qed.

Lemma byte_ext a b : is_u8 a → is_u8 b →
  (∀ i, 0 ≤ i < 8 → Z.testbit a i = Z.testbit b i) → a = b.
Proof.
  rewrite !is_u8_bits. intros [? Ha] [? Hb] Heq. apply Z.bits_inj'. intros i Hi.
  destruct (decide (i < 8)); [by apply Heq|]. by rewrite Ha, Hb by lia.
Qed.

(** ** Well-formed filters *)

Section filters.
Import BloomFilter.

Record wf (f : BloomFilter) : Prop := {
  wf_size : num_bits f = 8 * Z.of_nat (length (bits f));
  wf_nonempty : 0 < num_bits f;
  wf_bytes : Forall is_u8 (bits f);
  wf_hash_count : 1 ≤ hash_count f ≤ U8_MAX
}.

(** Same parameters, whatever the contents. *)
Definition same_shape (f g : BloomFilter) : Prop :=
  num_bits f = num_bits g ∧ hash_count f = hash_count g ∧ length (bits f) = length (bits g).

Lemma new_params_ok : with_params DEFAULT_FILTER_SIZE_BITS DEFAULT_HASH_COUNT = Ok new.
Proof. done. Qed.

Lemma wf_with_params n k f : is_u64 n → is_u8 k → with_params n k = Ok f →
  wf f ∧ num_bits f = n ∧ hash_count f = k ∧ bits f = replicate (Z.to_nat (n / 8)) 0.
Proof.
  intros Hn Hk. unfold with_params.
  destruct (Z.eqb_spec n 0) as [|Hn0]; simpl; [done|].
  destruct (Z.eqb_spec (n mod 8) 0) as [Hn8|]; simpl; [|done].
  destruct (Z.eqb_spec k 0) as [|]; [done|]. intros [= <-]. simpl.
  split; [|done]. split; simpl.
  - rewrite length_replicate. Z.div_mod_to_equations. mlia.
  - mlia.
  - apply Forall_replicate. mlia.
  - mlia.
Qed.

Lemma wf_new : wf new.
Proof. apply (wf_with_params 8192 5); [mlia|mlia|done]. Qed.

Lemma wf_from_bytes bs k f : Forall is_u8 bs → is_u8 k → from_bytes bs k = Ok f →
  wf f ∧ bits f = bs ∧ hash_count f = k.
Proof.
  intros Hbs Hk. unfold from_bytes.
  destruct (Z.eqb_spec k 0); [done|]. destruct (Nat.eqb_spec (length bs) 0); [done|].
  intros [= <-]. split; [|done]. split; simpl; [lia|lia|done|mlia].
Qed.

Lemma testbit_byte f i : get_bit f i = Z.testbit (bits f !!! Z.to_nat (i / 8)) (i mod 8).
Proof.
  unfold get_bit. rewrite (Z.land_ones _ 1), <- Z.bit0_mod by lia.
  rewrite Z.shiftr_spec by lia. rewrite Z.add_0_l. by destruct (Z.testbit _ _).
Qed.

Lemma byte_index_lt f i : wf f → 0 ≤ i < num_bits f → (Z.to_nat (i / 8) < length (bits f))%nat.
Proof. intros [Hs _ _ _] Hi. rewrite Hs in Hi. Z.div_mod_to_equations. lia. Qed.

Lemma filter_ext f g : wf f → wf g → num_bits f = num_bits g → hash_count f = hash_count g →
  (∀ i, 0 ≤ i < num_bits f → get_bit f i = get_bit g i) → f = g.
Proof.
  intros Hf Hg Hn Hk Hbits.
  assert (Hlen : length (bits f) = length (bits g)).
  { pose proof (wf_size f Hf). pose proof (wf_size g Hg). lia. }
  cut (bits f = bits g).
  { destruct f, g; simpl in *; congruence. }
  apply list_eq_same_length with (length (bits f)); [done|done|].
  intros j a b Hj Ha Hb. apply byte_ext.
  - eapply Forall_lookup_1; [apply Hf|done].
  - eapply Forall_lookup_1; [apply Hg|done].
  - intros i Hi. specialize (Hbits (8 * Z.of_nat j + i)).
    rewrite !testbit_byte in Hbits.
    replace ((8 * Z.of_nat j + i) / 8) with (Z.of_nat j) in Hbits by (Z.div_mod_to_equations; lia).
    replace ((8 * Z.of_nat j + i) mod 8) with i in Hbits by (Z.div_mod_to_equations; lia).
    rewrite Nat2Z.id in Hbits. rewrite (list_lookup_total_correct _ _ _ Ha) in Hbits.
    rewrite (list_lookup_total_correct _ _ _ Hb) in Hbits.
    apply Hbits. rewrite (wf_size f Hf). lia.
Qed.

Lemma wf_set_bit f i : wf f → 0 ≤ i < num_bits f → wf (set_bit f i).
Proof.
  intros Hf Hi. pose proof (byte_index_lt f i Hf Hi). pose proof Hf as [Hs Hne Hb Hk].
  split; simpl; [by rewrite length_insert|done| |done].
  apply Forall_insert; [done|]. apply is_u8_lor.
  - eapply Forall_lookup_total_1; done.
  - apply is_u8_shiftl_1, Z.mod_pos_bound. lia.
Qed.

Lemma get_set_bit f i j : wf f → 0 ≤ i < num_bits f → 0 ≤ j < num_bits f →
  get_bit (set_bit f j) i = get_bit f i || bool_decide (i = j).
Proof.
  intros Hf Hi Hj. pose proof (byte_index_lt f j Hf Hj). rewrite !testbit_byte. simpl.
  pose proof (Z.mod_pos_bound i 8). pose proof (Z.mod_pos_bound j 8).
  destruct (decide (Z.to_nat (j / 8) = Z.to_nat (i / 8))) as [Heq|Hne].
  - rewrite Heq, list_lookup_total_insert_eq by lia. rewrite Z.lor_spec, Z.shiftl_1_l. f_equal.
    rewrite Z.pow2_bits_eqb by lia.
    case_bool_decide; [apply Z.eqb_eq|apply Z.eqb_neq]; Z.div_mod_to_equations; lia.
  - rewrite list_lookup_total_insert_ne by done.
    rewrite bool_decide_false by congruence. by rewrite orb_false_r.
Qed.

Lemma hash_from_pair_range f h1 h2 k : wf f → 0 ≤ hash_from_pair f h1 h2 k < num_bits f.
Proof. intros [_ Hne _ _]. unfold hash_from_pair. by apply Z.mod_pos_bound. Qed.

Lemma hash_from_pair_shape f g h1 h2 k : num_bits f = num_bits g →
  hash_from_pair f h1 h2 k = hash_from_pair g h1 h2 k.
Proof. intros Hn. unfold hash_from_pair. by rewrite Hn. Qed.

(** The bit positions of an item, in a filter of [n] bits and [k] hashes. *)
Definition positions (f : BloomFilter) (h : Z * Z) : list Z :=
  hash_from_pair f h.1 h.2 <$> seqZ 0 (hash_count f).

Lemma foldl_set_bits h ks f : wf f →
  let f' := foldl (λ f i, set_bit f (hash_from_pair f h.1 h.2 i)) f ks in
  wf f' ∧ same_shape f' f ∧
  ∀ i, 0 ≤ i < num_bits f →
    get_bit f' i = get_bit f i || bool_decide (i ∈ (hash_from_pair f h.1 h.2 <$> ks)).
Proof.
  revert f. induction ks as [|k ks IH]; intros f Hf; simpl.
  { split; [done|]. split; [done|]. intros i Hi. by rewrite orb_false_r. }
  pose proof (hash_from_pair_range f h.1 h.2 k Hf) as Hr.
  destruct (IH _ (wf_set_bit f _ Hf Hr)) as (Hwf & (Hn & Hk & Hl) & Hget). simpl in *.
  rewrite length_insert in Hl. split; [done|]. split; [done|]. intros i Hi.
  rewrite Hget, get_set_bit by done.
  assert (hash_from_pair (set_bit f (hash_from_pair f h.1 h.2 k)) h.1 h.2 <$> ks =
    hash_from_pair f h.1 h.2 <$> ks) as -> by done.
  rewrite <- orb_assoc. f_equal. rewrite <- bool_decide_or.
  apply bool_decide_ext. by rewrite elem_of_cons.
Qed.

Lemma insert_spec f h : wf f →
  wf (insert_hash_pair f h) ∧ same_shape (insert_hash_pair f h) f ∧
  ∀ i, 0 ≤ i < num_bits f →
    get_bit (insert_hash_pair f h) i = get_bit f i || bool_decide (i ∈ positions f h).
Proof. apply foldl_set_bits. Qed.

Lemma contains_positions f h : contains_hash_pair f h = true ↔ ∀ i, i ∈ positions f h → get_bit f i = true.
Proof.
  unfold contains_hash_pair, positions. rewrite forallb_forall.
  setoid_rewrite list_elem_of_fmap. setoid_rewrite <- list_elem_of_In. naive_solver.
Qed.

Lemma positions_shape f g h : same_shape f g → positions f h = positions g h.
Proof.
  intros (Hn & Hk & _). unfold positions. rewrite Hk. apply list_fmap_ext.
  intros. by apply hash_from_pair_shape.
Qed.

Lemma positions_range f h i : wf f → i ∈ positions f h → 0 ≤ i < num_bits f.
Proof. intros Hf (k & -> & _)%list_elem_of_fmap. by apply hash_from_pair_range. Qed.

Lemma merge_spec f g : wf f → wf g → num_bits f = num_bits g →
  ∃ m, merge f g = Ok m ∧ wf m ∧ same_shape m f ∧
    ∀ i, 0 ≤ i < num_bits f → get_bit m i = get_bit f i || get_bit g i.
Proof.
  intros Hf Hg Hn. unfold merge. rewrite Hn, Z.eqb_refl. simpl.
  assert (Hlen : length (bits f) = length (bits g)).
  { pose proof (wf_size f Hf). pose proof (wf_size g Hg). lia. }
  eexists. split; [done|]. pose proof Hf as [Hs Hne Hb Hk]. repeat split; simpl.
  - rewrite length_zip_mut. lia.
  - lia.
  - clear Hs Hne Hk Hn. pose proof (wf_bytes g Hg) as Hb'. revert Hlen Hb'.
    generalize (bits g). induction Hb as [|x xs Hx _ IH]; intros [|y ys] ? Hys; simpl; try done.
    apply Forall_cons in Hys as [Hy Hys]. constructor; [by apply is_u8_lor|]. apply IH; simpl in *; auto.
  - lia.
  - lia.
  - done.
  - apply length_zip_mut.
  - intros i Hi. rewrite !testbit_byte. simpl.
    pose proof (byte_index_lt f i Hf ltac:(lia)) as [x Hx]%lookup_lt_is_Some.
    pose proof (byte_index_lt g i Hg ltac:(lia)) as [y Hy]%lookup_lt_is_Some.
    rewrite (list_lookup_total_correct _ _ _ Hx), (list_lookup_total_correct _ _ _ Hy).
    rewrite (list_lookup_total_correct _ _ _ (zip_mut_lookup _ _ _ _ _ _ Hx Hy)).
    apply Z.lor_spec.
Qed.

(** Adding bits never removes an item. *)
Lemma contains_mono f g h : wf f → same_shape g f →
  (∀ i, 0 ≤ i < num_bits f → get_bit f i = true → get_bit g i = true) →
  contains_hash_pair f h = true → contains_hash_pair g h = true.
Proof.
  intros Hf Hshape Hmono. rewrite !contains_positions. rewrite (positions_shape g f h Hshape).
  intros Hc i Hi. apply Hmono; [by eapply positions_range|]. auto.
Qed.

Lemma insert_contains f h : wf f → contains_hash_pair (insert_hash_pair f h) h = true.
Proof.
  intros Hf. destruct (insert_spec f h Hf) as (Hwf & Hshape & Hget).
  apply contains_positions. rewrite (positions_shape _ f h Hshape). intros i Hi.
  rewrite Hget by (by eapply positions_range). rewrite bool_decide_true by done. by rewrite orb_true_r.
Qed.

Definition op_wf (o : BloomHistory.op) : Prop :=
  match o with BloomHistory.Insert _ => True | BloomHistory.Merge g => wf g end.

Lemma same_shape_trans f g h : same_shape f g → same_shape g h → same_shape f h.
Proof. unfold same_shape. intuition congruence. Qed.

(** A filter with as many or more hashes has the positions of one with fewer. *)
Lemma positions_incl f g h : num_bits f = num_bits g → hash_count f ≤ hash_count g →
  positions f h ⊆ positions g h.
Proof.
  intros Hn Hk i. unfold positions. rewrite !list_elem_of_fmap.
  intros (k & -> & Hin%elem_of_seqZ). exists k. split; [by apply hash_from_pair_shape|].
  apply elem_of_seqZ. lia.
Qed.

Lemma merge_size_error f g : num_bits f ≠ num_bits g →
  merge f g = Err (InvalidSize (num_bits f) (num_bits g)).
Proof. intros Hne. unfold merge. by rewrite (proj2 (Z.eqb_neq _ _) Hne). Qed.

(** One step of a history keeps the shape and every bit. *)
Lemma history_step sha256 f o : wf f → op_wf o →
  let f' := BloomHistory.step sha256 f o in
  wf f' ∧ same_shape f' f ∧
  ∀ i, 0 ≤ i < num_bits f → get_bit f i = true → get_bit f' i = true.
Proof.
  intros Hf Ho. destruct o as [data|g]; simpl.
  - destruct (insert_spec f (hash_pair sha256 data) Hf) as (Hwf & Hs & Hget).
    split; [done|]. split; [done|]. intros i Hi Hb. unfold insert_bytes. by rewrite Hget, Hb.
  - destruct (decide (num_bits f = num_bits g)) as [Hn|Hn].
    + destruct (merge_spec f g Hf Ho Hn) as (m & -> & Hwf & Hs & Hget).
      split; [done|]. split; [done|]. intros i Hi Hb. by rewrite Hget, Hb.
    + by rewrite merge_size_error.
Qed.

Lemma history_run sha256 os f : wf f → Forall op_wf os →
  let f' := BloomHistory.run sha256 f os in
  wf f' ∧ same_shape f' f ∧
  ∀ i, 0 ≤ i < num_bits f → get_bit f i = true → get_bit f' i = true.
Proof.
  intros Hf Hos. revert f Hf. induction Hos as [|o os Ho _ IH]; intros f Hf; [done|]. simpl.
  destruct (history_step sha256 f o Hf Ho) as (Hwf1 & Hs1 & Hm1).
  destruct (IH _ Hwf1) as (Hwf2 & Hs2 & Hm2).
  split; [done|]. split; [by eapply same_shape_trans|].
  intros i Hi Hb. apply Hm2; [|auto]. destruct Hs1 as [-> _]. done.
Qed.

Lemma merge_contains f g m h : wf f → wf g → merge f g = Ok m →
  hash_count f ≤ hash_count g → contains_hash_pair g h = true → contains_hash_pair m h = true.
Proof.
  intros Hf Hg Hm Hk Hc. destruct (decide (num_bits f = num_bits g)) as [Hn|Hn];
    [|by rewrite merge_size_error in Hm].
  destruct (merge_spec f g Hf Hg Hn) as (m' & Hm' & Hwf & Hs & Hget).
  rewrite Hm in Hm'. injection Hm' as <-.
  apply contains_positions. rewrite (positions_shape _ _ h Hs). intros i Hi.
  rewrite Hget by (by eapply positions_range). rewrite contains_positions in Hc.
  rewrite (Hc i) by (by apply (positions_incl f g h Hn Hk)). apply orb_true_r.
Qed.

(** *** The population count *)

Lemma seqZ_8 n : seqZ 0 (8 * Z.of_nat (S n)) = seqZ 0 8 ++ (Z.add 8 <$> seqZ 0 (8 * Z.of_nat n)).
Proof.
  replace (8 * Z.of_nat (S n)) with (8 + 8 * Z.of_nat n) by lia.
  rewrite seqZ_app by lia. f_equal. by rewrite fmap_add_seqZ.
Qed.

Definition sumZ : list Z → Z := foldr Z.add 0.

Lemma sumZ_cons x l : sumZ (x :: l) = x + sumZ l.
Proof. done. Qed.

Lemma sumZ_app l k : sumZ (l ++ k) = sumZ l + sumZ k.
Proof. unfold sumZ. induction l as [|x l IH]; simpl; [done|]. rewrite IH. lia. Qed.

Lemma byte_ones_positions bs :
  sumZ (byte_ones <$> bs) =
  sumZ ((λ i, Z.b2z (Z.testbit (bs !!! Z.to_nat (i / 8)) (i mod 8)))
          <$> seqZ 0 (8 * Z.of_nat (length bs))).
Proof.
  induction bs as [|b bs IH]; [done|].
  change (length (b :: bs)) with (S (length bs)).
  rewrite seqZ_8, fmap_app, sumZ_app, fmap_cons. rewrite <- list_fmap_compose.
  rewrite sumZ_cons. f_equal.
  rewrite IH. f_equal. apply list_fmap_ext. intros _ i Hi%list_elem_of_lookup_2%elem_of_seqZ.
  unfold compose. replace ((8 + i) / 8) with (Z.succ (i / 8)) by (Z.div_mod_to_equations; lia).
  rewrite Z2Nat.inj_succ by (apply Z.div_pos; lia).
  by replace ((8 + i) mod 8) with (i mod 8) by (Z.div_mod_to_equations; lia).
Qed.

Lemma sumZ_b2z {A} (p : A → bool) l : 0 ≤ sumZ ((λ x, Z.b2z (p x)) <$> l) ≤ Z.of_nat (length l).
Proof. 
  induction l as [|x l IH]; [done|]. rewrite fmap_cons, sumZ_cons, length_cons.
  destruct (p x); simpl Z.b2z; lia.
Qed.

Lemma sumZ_b2z_zero {A} (p : A → bool) l :
  sumZ ((λ x, Z.b2z (p x)) <$> l) = 0 ↔ ∀ x, x ∈ l → p x = false.
Proof.
  induction l as [|x l IH]; [set_solver|]. pose proof (sumZ_b2z p l).
  rewrite fmap_cons, sumZ_cons. setoid_rewrite elem_of_cons.
  destruct (p x) eqn:Hp; simpl Z.b2z.
  - split; [lia|]. intros Hall. specialize (Hall x). rewrite Hp in Hall. naive_solver.
  - rewrite Z.add_0_l, IH. naive_solver.
Qed.

End filters.

(** A two-byte filter with three hash functions, for the examples. *)
Definition sample_filter : BloomFilter.BloomFilter := BloomFilter.mkBloomFilter [130; 32] 16 3.

Lemma wf_sample : wf sample_filter.
Proof. split; simpl; [done|done|repeat constructor; mlia|mlia]. Qed.

(** ** Properties *)

(** No false negatives. After any sequence of insertions and merges, a filter
    contains what it contained at the start, everything inserted along the way,
    and everything contained in a merged filter of its size and at least as many
    hash functions. *)
Theorem bloom_no_false_negatives sha256 f os x :
  wf f → Forall op_wf os →
  BloomFilter.contains_bytes sha256 f x = true
  ∨ BloomHistory.Insert x ∈ os
  ∨ (∃ g, BloomHistory.Merge g ∈ os ∧ BloomFilter.num_bits g = BloomFilter.num_bits f
       ∧ BloomFilter.hash_count f ≤ BloomFilter.hash_count g
       ∧ BloomFilter.contains_bytes sha256 g x = true) →
  BloomFilter.contains_bytes sha256 (BloomHistory.run sha256 f os) x = true.
Proof.
  intros Hf Hos Hin. unfold BloomFilter.contains_bytes in *.
  set (h := BloomFilter.hash_pair sha256 x) in *.
  assert (Hrun : ∀ g os, wf g → Forall op_wf os → BloomFilter.contains_hash_pair g h = true →
    BloomFilter.contains_hash_pair (BloomHistory.run sha256 g os) h = true).
  { intros g os' Hg Hos'. destruct (history_run sha256 os' g Hg Hos') as (Hw & Hs & Hm).
    by apply contains_mono. }
  assert (Hat : ∀ o, o ∈ os → (∀ g, wf g → same_shape g f →
    BloomFilter.contains_hash_pair (BloomHistory.step sha256 g o) h = true) →
    BloomFilter.contains_hash_pair (BloomHistory.run sha256 f os) h = true).
  { intros o (l1 & l2 & ->)%list_elem_of_split Ho.
    apply Forall_app in Hos as [H1 [Ho' H2]%Forall_cons].
    destruct (history_run sha256 l1 f Hf H1) as (Hw & Hs & _).
    unfold BloomHistory.run. rewrite foldl_app. simpl. apply Hrun; [|done|by apply Ho].
    by apply (history_step sha256 _ o). }
  destruct Hin as [Hc|[Hc|(g & Hg & Hn & Hk & Hc)]].
  - by apply Hrun.
  - apply (Hat _ Hc). intros g Hg _. by apply insert_contains.
  - apply (Hat _ Hg). intros g' Hg' (Hn' & Hk' & _). simpl.
    rewrite Forall_forall in Hos. specialize (Hos _ Hg). simpl in Hos.
    destruct (merge_spec g' g Hg' Hos ltac:(lia)) as (m & Hm & _). rewrite Hm.
    eapply (merge_contains g' g); eauto. lia.
Qed.

Lemma bloom_no_false_negatives_witness :
  let sha256 := λ d : list Z, d in
  let f := BloomFilter.mkBloomFilter [0; 0] 16 2 in
  BloomFilter.contains_bytes sha256
    (BloomHistory.run sha256 f [BloomHistory.Insert [3]; BloomHistory.Merge sample_filter])
    [1; 0; 0; 0; 0; 0; 0; 0; 6] = true.
Proof.
  intros sha256 f. apply bloom_no_false_negatives.
  - split; simpl; [done|done|repeat constructor; mlia|mlia].
  - constructor; [done|]. constructor; [apply wf_sample|constructor].
  - right. right. exists sample_filter. split; [right; left|]. vm_compute. repeat split; done.
Defined.

(** [merge] is the bitwise union. Filters of different sizes are refused with
    both sizes; filters of one size give a well-formed filter with the
    receiver's parameters in which a bit is set exactly when one of the two had it. *)
Theorem bloom_merge_exact f g :
  wf f → wf g →
  (BloomFilter.num_bits f ≠ BloomFilter.num_bits g →
     BloomFilter.merge f g =
       Err (BloomFilter.InvalidSize (BloomFilter.num_bits f) (BloomFilter.num_bits g)))
  ∧ (BloomFilter.num_bits f = BloomFilter.num_bits g →
     ∃ m, BloomFilter.merge f g = Ok m ∧ wf m ∧ same_shape m f ∧
       ∀ i, 0 ≤ i < BloomFilter.num_bits f →
         BloomFilter.get_bit m i = BloomFilter.get_bit f i || BloomFilter.get_bit g i).
Proof. intros Hf Hg. split; [apply merge_size_error|by apply merge_spec]. Qed.

Lemma bloom_merge_exact_witness :
  ∃ m, BloomFilter.merge sample_filter sample_filter = Ok m ∧ wf m.
Proof.
  destruct (bloom_merge_exact sample_filter sample_filter wf_sample wf_sample) as [_ H].
  destruct (H eq_refl) as (m & Hm & Hw & _). by exists m.
Defined.

(** [count_ones] is the number of set bits of the filter, hence between 0 and
    the filter's size, and 0 exactly when every bit is clear. *)
Theorem bloom_count_ones_exact f :
  wf f →
  BloomFilter.count_ones f =
    sumZ ((λ i, Z.b2z (BloomFilter.get_bit f i)) <$> seqZ 0 (BloomFilter.num_bits f))
  ∧ 0 ≤ BloomFilter.count_ones f ≤ BloomFilter.num_bits f
  ∧ (BloomFilter.count_ones f = 0 ↔
     ∀ i, 0 ≤ i < BloomFilter.num_bits f → BloomFilter.get_bit f i = false).
Proof.
  intros Hf.
  assert (Heq : BloomFilter.count_ones f =
    sumZ ((λ i, Z.b2z (BloomFilter.get_bit f i)) <$> seqZ 0 (BloomFilter.num_bits f))).
  { unfold BloomFilter.count_ones. change (foldr Z.add 0) with sumZ.
    rewrite byte_ones_positions, (wf_size f Hf). f_equal. apply list_fmap_ext.
    intros. by rewrite testbit_byte. }
  split; [done|]. rewrite Heq. split.
  - pose proof (sumZ_b2z (BloomFilter.get_bit f) (seqZ 0 (BloomFilter.num_bits f))) as Hb.
    rewrite length_seqZ in Hb. pose proof (wf_nonempty f Hf). lia.
  - rewrite sumZ_b2z_zero. setoid_rewrite elem_of_seqZ. naive_solver lia.
Qed.

Lemma bloom_count_ones_exact_witness :
  0 ≤ BloomFilter.count_ones sample_filter ≤ BloomFilter.num_bits sample_filter.
Proof. destruct (bloom_count_ones_exact sample_filter wf_sample) as (_ & H & _). exact H. Defined.

(** [merge] compares sizes but not hash counts: an item of a merged filter with
    fewer hash functions can be missing from the result. *)
Lemma merge_loses_items_of_smaller_hash_count :
  let sha256 := λ d : list Z, d in
  let x := [1; 0; 0; 0; 0; 0; 0; 0; 1; 0; 0; 0; 0; 0; 0; 0] in
  let f := BloomFilter.mkBloomFilter [0] 8 2 in
  let g := BloomFilter.insert_bytes sha256 (BloomFilter.mkBloomFilter [0] 8 1) x in
  BloomFilter.contains_bytes sha256 g x = true
  ∧ ∃ m, BloomFilter.merge f g = Ok m ∧ BloomFilter.contains_bytes sha256 m x = false.
Proof.
  split; [by vm_compute|]. eexists. split; [vm_compute; reflexivity|]. by vm_compute.
Qed.
