(* ===== verification/BloomState.v ===== *)
(** * Filter announcements ([crates/fips-core/src/proto/bloom/state.rs])

    Each node announces to every peer the filter of what it reaches without
    that peer. [compute_outgoing_filter] is the direct definition: merge every
    other peer's filter. [prepare_outgoing_filters] aggregates the inputs once,
    keeping the bits contributed at least twice, and [for_peer]/[matches]
    answer for each recipient. [Module BloomState] also keeps which peers are
    owed an update and when: a map of retry floors, an ordered index of
    effective deadlines and its cached minimum. *)

From S2P Require Import Prelude Bytes NodeAddr Bloom.
Import BloomFilter (BloomFilter, bits, num_bits, hash_count).

Local Open Scope Z_scope.

Module OutgoingBloomFilters.

Record OutgoingBloomFilters := mkOutgoing {
  peers : option (gmap NodeAddr BloomFilter);
  combined : list Z;
  shared : list Z;
  out_hash_count : Z
}.

(** [!x] of a byte. *)
Definition u8_not (x : Z) : Z := Z.land (Z.lnot x) 255.

Definition excluded (self : OutgoingBloomFilters) (peer : NodeAddr) : option BloomFilter :=
  ps ← peers self;
  f ← ps !! peer;
  if (length (bits f) =? length (combined self))%nat then Some f else None.

Definition for_peer (self : OutgoingBloomFilters) (peer : NodeAddr) : outcome unit BloomFilter :=
  let bytes := combined self in
  let bytes :=
    match excluded self peer with
    | Some ex =>
        zip_mut (λ byte se, Z.land byte (Z.lor (u8_not se.2) se.1)) bytes
          (zip (shared self) (bits ex))
    | None => bytes
    end in
  expect (BloomFilter.from_bytes bytes (out_hash_count self)).

Definition matches (self : OutgoingBloomFilters) (peer : NodeAddr) (last : BloomFilter) : bool :=
  if negb (length (bits last) =? length (combined self))%nat
     || negb (hash_count last =? out_hash_count self)
  then false
  else match excluded self peer with
       | Some ex =>
           forallb (λ q, q.1.1.1 =? Z.land q.1.1.2 (Z.lor (u8_not q.2) q.1.2))
             (zip (zip (zip (bits last) (combined self)) (shared self)) (bits ex))
       | None => bool_decide (bits last = combined self)
       end.

(** The inner loop of [prepare_outgoing_filters] over one peer's bytes. *)
Fixpoint absorb (all shared incoming : list Z) : list Z * list Z :=
  match all, shared, incoming with
  | a :: all', s :: shared', i :: incoming' =>
      let (all'', shared'') := absorb all' shared' incoming' in
      (Z.lor a i :: all'', Z.lor s (Z.land a i) :: shared'')
  | _, _, _ => (all, shared)
  end.

End OutgoingBloomFilters.

Module BloomState.
Import OutgoingBloomFilters.

Record BloomState := mkBloomState {
  own_node_addr : NodeAddr;
  leaf_dependents : gset NodeAddr;
  is_leaf_only : bool;
  update_debounce_ms : Z;
  last_update_sent : gmap NodeAddr Z;
  pending_updates : gmap NodeAddr Z;
  pending_update_deadlines : gset (Z * NodeAddr);
  pending_update_deadline_ms : option Z;
  sequence : Z;
  last_sent_filters : gmap NodeAddr BloomFilter
}.

Definition new (own_node_addr : NodeAddr) : BloomState :=
  mkBloomState own_node_addr ∅ false 500 ∅ ∅ ∅ None 0 ∅.

Definition set_leaf_only (self : BloomState) (leaf_only : bool) : BloomState :=
  mkBloomState (own_node_addr self) (leaf_dependents self) leaf_only (update_debounce_ms self)
    (last_update_sent self) (pending_updates self) (pending_update_deadlines self)
    (pending_update_deadline_ms self) (sequence self) (last_sent_filters self).

Definition leaf_only (own_node_addr : NodeAddr) : BloomState :=
  set_leaf_only (new own_node_addr) true.

Definition next_sequence (self : BloomState) : BloomState * Z :=
  let sequence' := wrap_u64 (sequence self + 1) in
  (mkBloomState (own_node_addr self) (leaf_dependents self) (is_leaf_only self)
     (update_debounce_ms self) (last_update_sent self) (pending_updates self)
     (pending_update_deadlines self) (pending_update_deadline_ms self) sequence'
     (last_sent_filters self), sequence').

Definition set_leaf_dependents (self : BloomState) (deps : gset NodeAddr) : BloomState :=
  mkBloomState (own_node_addr self) deps (is_leaf_only self) (update_debounce_ms self)
    (last_update_sent self) (pending_updates self) (pending_update_deadlines self)
    (pending_update_deadline_ms self) (sequence self) (last_sent_filters self).

Definition add_leaf_dependent (self : BloomState) (a : NodeAddr) : BloomState :=
  set_leaf_dependents self ({[a]} ∪ leaf_dependents self).

Definition remove_leaf_dependent (self : BloomState) (a : NodeAddr) : BloomState * bool :=
  (set_leaf_dependents self (leaf_dependents self ∖ {[a]}), bool_decide (a ∈ leaf_dependents self)).

Definition needs_update (self : BloomState) (peer : NodeAddr) : bool :=
  bool_decide (is_Some (pending_updates self !! peer)).

Definition should_send_update (self : BloomState) (peer : NodeAddr) (current_time_ms : Z) : bool :=
  if negb (needs_update self peer) then false
  else match last_update_sent self !! peer with
       | Some last_time => sat_add_u64 last_time (update_debounce_ms self) <=? current_time_ms
       | None => true
       end.

Definition pending_peer_deadline_ms (self : BloomState) (peer : NodeAddr) : option Z :=
  retry ← pending_updates self !! peer;
  let debounce :=
    match last_update_sent self !! peer with
    | Some last => sat_add_u64 last (update_debounce_ms self)
    | None => 0
    end in
  Some (Z.max retry debounce).

(** [BTreeSet::first] of the deadline index: least deadline, then least address. *)
Definition pair_min (x y : Z * NodeAddr) : Z * NodeAddr :=
  if (x.1 <? y.1) || ((x.1 =? y.1) && (x.2 <=? y.2)) then x else y.

Definition btree_first (s : gset (Z * NodeAddr)) : option (Z * NodeAddr) :=
  match elements s with
  | [] => None
  | x :: xs => Some (foldl pair_min x xs)
  end.

(** The three fields the deadline bookkeeping writes. *)
Definition set_pending (self : BloomState) (sent : gmap NodeAddr Z) (pending : gmap NodeAddr Z)
    (deadlines : gset (Z * NodeAddr)) : BloomState :=
  mkBloomState (own_node_addr self) (leaf_dependents self) (is_leaf_only self)
    (update_debounce_ms self) sent pending deadlines
    (pending_update_deadline_ms self) (sequence self) (last_sent_filters self).

Definition set_deadline_index (self : BloomState) (deadlines : gset (Z * NodeAddr)) : BloomState :=
  mkBloomState (own_node_addr self) (leaf_dependents self) (is_leaf_only self)
    (update_debounce_ms self) (last_update_sent self) (pending_updates self) deadlines
    (fst <$> btree_first deadlines) (sequence self) (last_sent_filters self).

Definition refresh_pending_deadline (self : BloomState) : BloomState :=
  set_deadline_index self
    (list_to_set (omap (λ peer, (λ due, (due, peer)) <$> pending_peer_deadline_ms self peer)
       (map_to_list (pending_updates self)).*1)).

Definition update_pending_deadline (self : BloomState) (peer : NodeAddr) (previous : option Z)
    : BloomState :=
  let deadlines :=
    match previous with
    | Some due => pending_update_deadlines self ∖ {[(due, peer)]}
    | None => pending_update_deadlines self
    end in
  let deadlines :=
    match pending_peer_deadline_ms self peer with
    | Some due => {[(due, peer)]} ∪ deadlines
    | None => deadlines
    end in
  set_deadline_index self deadlines.

Definition set_update_debounce_ms (self : BloomState) (ms : Z) : BloomState :=
  refresh_pending_deadline
    (mkBloomState (own_node_addr self) (leaf_dependents self) (is_leaf_only self) ms
       (last_update_sent self) (pending_updates self) (pending_update_deadlines self)
       (pending_update_deadline_ms self) (sequence self) (last_sent_filters self)).

Definition mark_update_needed (self : BloomState) (peer : NodeAddr) : BloomState :=
  match pending_updates self !! peer with
  | Some _ => self
  | None =>
      update_pending_deadline
        (set_pending self (last_update_sent self) (<[peer := 0]> (pending_updates self))
           (pending_update_deadlines self)) peer None
  end.

Definition mark_all_updates_needed (self : BloomState) (peer_ids : list NodeAddr) : BloomState :=
  foldl mark_update_needed self peer_ids.

Definition pending_peers_due (ord : MapOrder NodeAddr Z) (self : BloomState) (now_ms : Z)
    : list NodeAddr :=
  filter (λ peer, match pending_peer_deadline_ms self peer with
                  | Some due => due <=? now_ms
                  | None => false
                  end = true) (map_iter ord (pending_updates self)).*1.

Definition defer_update_retry (self : BloomState) (peer : NodeAddr) (retry_at_ms : Z) : BloomState :=
  let previous := pending_peer_deadline_ms self peer in
  match pending_updates self !! peer with
  | Some floor =>
      if retry_at_ms <=? floor then self
      else update_pending_deadline
             (set_pending self (last_update_sent self)
                (<[peer := Z.max floor retry_at_ms]> (pending_updates self))
                (pending_update_deadlines self)) peer previous
  | None => self
  end.

Definition defer_pending_retries (self : BloomState) (retry_at_ms : Z) : BloomState :=
  refresh_pending_deadline
    (set_pending self (last_update_sent self)
       ((λ floor, Z.max floor retry_at_ms) <$> pending_updates self)
       (pending_update_deadlines self)).

Definition refresh_due (self : BloomState) (peer : NodeAddr) (now_ms interval_ms : Z) : bool :=
  (0 <? interval_ms)
  && match last_update_sent self !! peer with
     | Some last => interval_ms <=? sat_sub now_ms last
     | None => false
     end.

Definition record_update_sent (self : BloomState) (peer : NodeAddr) (current_time_ms : Z)
    : BloomState :=
  let previous := pending_peer_deadline_ms self peer in
  update_pending_deadline
    (set_pending self (<[peer := current_time_ms]> (last_update_sent self))
       (delete peer (pending_updates self)) (pending_update_deadlines self)) peer previous.

Definition clear_pending_updates (self : BloomState) : BloomState :=
  mkBloomState (own_node_addr self) (leaf_dependents self) (is_leaf_only self)
    (update_debounce_ms self) (last_update_sent self) ∅ ∅ None (sequence self)
    (last_sent_filters self).

Definition record_sent_filter (self : BloomState) (peer : NodeAddr) (f : BloomFilter) : BloomState :=
  mkBloomState (own_node_addr self) (leaf_dependents self) (is_leaf_only self)
    (update_debounce_ms self) (last_update_sent self) (pending_updates self)
    (pending_update_deadlines self) (pending_update_deadline_ms self) (sequence self)
    (<[peer := f]> (last_sent_filters self)).

Definition remove_peer_state (self : BloomState) (peer : NodeAddr) : BloomState :=
  let previous := pending_peer_deadline_ms self peer in
  let self := mkBloomState (own_node_addr self) (leaf_dependents self ∖ {[peer]})
    (is_leaf_only self) (update_debounce_ms self) (delete peer (last_update_sent self))
    (delete peer (pending_updates self)) (pending_update_deadlines self)
    (pending_update_deadline_ms self) (sequence self) (delete peer (last_sent_filters self)) in
  update_pending_deadline self peer previous.

Section filters.
Context (sha256 : list Z → list Z).
Context (deps_order : SetOrder NodeAddr) (peer_order : MapOrder NodeAddr BloomFilter).

Definition base_filter (self : BloomState) : BloomFilter :=
  let f := BloomFilter.insert sha256 BloomFilter.new (own_node_addr self) in
  if is_leaf_only self then f
  else foldl (BloomFilter.insert sha256) f (set_iter deps_order (leaf_dependents self)).

Definition compute_outgoing_filter (self : BloomState) (exclude_peer : NodeAddr)
    (peer_filters : gmap NodeAddr BloomFilter) : BloomFilter :=
  if is_leaf_only self then base_filter self
  else
    let f := BloomFilter.insert sha256 BloomFilter.new (own_node_addr self) in
    let f := foldl (BloomFilter.insert sha256) f (set_iter deps_order (leaf_dependents self)) in
    foldl (λ f pf,
      if decide (pf.1 = exclude_peer) then f
      else match BloomFilter.merge f pf.2 with Ok f' => f' | _ => f end)
      f (map_iter peer_order peer_filters).

Definition prepare_outgoing_filters (self : BloomState)
    (peer_filters : gmap NodeAddr BloomFilter) : OutgoingBloomFilters :=
  let base := base_filter self in
  let combined := bits base in
  let shared := replicate (length combined) 0 in
  let '(combined, shared) :=
    foldl (λ cs pf,
      if negb (is_leaf_only self) && (num_bits pf.2 =? num_bits base)
      then absorb cs.1 cs.2 (bits pf.2)
      else cs) (combined, shared) (map_iter peer_order peer_filters) in
  {| peers := if is_leaf_only self then None else Some peer_filters;
     combined := combined;
     shared := shared;
     out_hash_count := hash_count base |}.

Definition mark_changed_peers (self : BloomState) (exclude_from : NodeAddr)
    (peer_addrs : list NodeAddr) (peer_filters : gmap NodeAddr BloomFilter) : BloomState :=
  let filters := prepare_outgoing_filters self peer_filters in
  foldl (λ self peer_addr,
    if decide (peer_addr = exclude_from) then self
    else
      let changed :=
        match last_sent_filters self !! peer_addr with
        | None => true
        | Some last => negb (matches filters peer_addr last)
        end in
      if changed then mark_update_needed self peer_addr else self) self peer_addrs.
End filters.

End BloomState.

(** ** Histories of the announcement state: every operation that changes it. *)
Module BloomEvents.
Import BloomState.

Inductive event :=
| SetLeafOnly (b : bool)
| NextSequence
| SetDebounce (ms : Z)
| AddLeaf (a : NodeAddr)
| RemoveLeaf (a : NodeAddr)
| MarkNeeded (p : NodeAddr)
| MarkAll (ps : list NodeAddr)
| DeferRetry (p : NodeAddr) (retry_at_ms : Z)
| DeferAll (retry_at_ms : Z)
| UpdateSent (p : NodeAddr) (now_ms : Z)
| ClearPending
| SentFilter (p : NodeAddr) (f : BloomFilter)
| RemovePeer (p : NodeAddr)
| MarkChanged (exclude : NodeAddr) (ps : list NodeAddr) (fs : gmap NodeAddr BloomFilter).

Section run.
Context (sha256 : list Z → list Z).
Context (deps_order : SetOrder NodeAddr) (peer_order : MapOrder NodeAddr BloomFilter).

Definition step (self : BloomState) (e : event) : BloomState :=
  match e with
  | SetLeafOnly b => set_leaf_only self b
  | NextSequence => (next_sequence self).1
  | SetDebounce ms => set_update_debounce_ms self ms
  | AddLeaf a => add_leaf_dependent self a
  | RemoveLeaf a => (remove_leaf_dependent self a).1
  | MarkNeeded p => mark_update_needed self p
  | MarkAll ps => mark_all_updates_needed self ps
  | DeferRetry p t => defer_update_retry self p t
  | DeferAll t => defer_pending_retries self t
  | UpdateSent p t => record_update_sent self p t
  | ClearPending => clear_pending_updates self
  | SentFilter p f => record_sent_filter self p f
  | RemovePeer p => remove_peer_state self p
  | MarkChanged ex ps fs => mark_changed_peers sha256 deps_order peer_order self ex ps fs
  end.

Definition run (self : BloomState) (es : list event) : BloomState := foldl step self es.
End run.
End BloomEvents.

(** ** Aggregation, bit by bit *)

Section aggregation.
Import OutgoingBloomFilters BloomState.

(** Bit [k] of byte [j]. *)
Definition bit_of (l : list Z) (j : nat) (k : Z) : bool := Z.testbit (l !!! j) k.

Lemma get_bit_bit_of f i : BloomFilter.get_bit f i = bit_of (bits f) (Z.to_nat (i / 8)) (i mod 8).
Proof. apply testbit_byte. Qed.

Lemma u8_not_bit x k : 0 ≤ k < 8 → Z.testbit (u8_not x) k = negb (Z.testbit x k).
Proof.
  intros Hk. unfold u8_not. rewrite Z.land_spec, Z.lnot_spec by lia.
  change 255 with (Z.ones 8). rewrite Z.ones_spec_low by lia. apply andb_true_r.
Qed.

Lemma bit_of_zip_mut {B} (f : Z → B → Z) (g : bool → B → bool) l (k : Z) ys y j :
  (∀ x, Z.testbit (f x y) k = g (Z.testbit x k) y) →
  ys !! j = Some y → (j < length l)%nat →
  bit_of (zip_mut f l ys) j k = g (bit_of l j k) y.
Proof.
  intros Hf Hy [x Hx]%lookup_lt_is_Some. unfold bit_of.
  rewrite (list_lookup_total_correct _ _ _ (zip_mut_lookup _ _ _ _ _ _ Hx Hy)).
  by rewrite (list_lookup_total_correct _ _ _ Hx), Hf.
Qed.

Lemma absorb_spec all shared inc :
  length shared = length all → length inc = length all →
  Forall is_u8 all → Forall is_u8 inc →
  let r := absorb all shared inc in
  length r.1 = length all ∧ length r.2 = length all ∧ Forall is_u8 r.1 ∧
  ∀ j k, (j < length all)%nat → 0 ≤ k →
    bit_of r.1 j k = bit_of all j k || bit_of inc j k ∧
    bit_of r.2 j k = bit_of shared j k || (bit_of all j k && bit_of inc j k).
Proof.
  revert shared inc. induction all as [|a all IH]; intros [|s shared] [|i inc] Hs Hi Ha Hinc;
    simplify_eq/=; [repeat split; try done; lia|].
  apply Forall_cons in Ha as [Ha Hall]. apply Forall_cons in Hinc as [Hi8 Hinc].
  destruct (absorb all shared inc) as [all' shared'] eqn:Habs.
  pose proof (IH shared inc) as IH'. rewrite Habs in IH'. simpl in IH'.
  destruct IH' as (Hl1 & Hl2 & Hu & Hb); [lia|lia|done|done|]. simpl.
  split; [lia|]. split; [lia|]. split; [by constructor; [apply is_u8_lor|]|].
  intros [|j] k Hj Hk; unfold bit_of; simpl.
  - by rewrite !Z.lor_spec, Z.land_spec.
  - apply Hb; [lia|done].
Qed.

(** How often bit [k] of byte [j] is contributed by the filters of [n] bits in a list. *)
Definition weight (n : Z) (j : nat) (k : Z) (pf : NodeAddr * BloomFilter) : Z :=
  if num_bits pf.2 =? n then Z.b2z (bit_of (bits pf.2) j k) else 0.

Definition tally (n : Z) (j : nat) (k : Z) (l : list (NodeAddr * BloomFilter)) : Z :=
  sumZ (weight n j k <$> l).

Lemma weight_range n j k pf : 0 ≤ weight n j k pf ≤ 1.
Proof. unfold weight. destruct (_ =? _); [|lia]. destruct (bit_of _ _ _); simpl; lia. Qed.

Lemma tally_cons n j k pf l : tally n j k (pf :: l) = weight n j k pf + tally n j k l.
Proof. done. Qed.

Lemma tally_nonneg n j k l : 0 ≤ tally n j k l.
Proof.
  induction l as [|pf l IH]; [done|]. rewrite tally_cons. pose proof (weight_range n j k pf). lia.
Qed.

#[local] Instance tally_proper n j k : Proper ((≡ₚ) ==> (=)) (tally n j k).
Proof.
  intros l1 l2 Hp. unfold tally. induction Hp; rewrite ?fmap_cons, ?sumZ_cons; lia.
Qed.

Definition filters_wf (m : gmap NodeAddr BloomFilter) : Prop := map_Forall (λ _ f, wf f) m.

Lemma filters_wf_iter ord m : filters_wf m → Forall (λ pf, wf pf.2) (map_iter ord m).
Proof.
  intros Hm. apply Forall_forall. intros [p f] Hin%elem_of_map_iter. by apply (Hm p).
Qed.

Lemma wf_length_eq f g : wf f → wf g →
  num_bits f = num_bits g ↔ length (bits f) = length (bits g).
Proof. intros Hf Hg. pose proof (wf_size f Hf). pose proof (wf_size g Hg). lia. Qed.

(** The aggregation loop: [combined] has the bits contributed at least once,
    [shared] those contributed at least twice. *)
Lemma prepare_loop base l :
  wf base → Forall (λ pf : NodeAddr * BloomFilter, wf pf.2) l →
  let r := foldl (λ cs pf, if num_bits pf.2 =? num_bits base
                           then absorb cs.1 cs.2 (bits pf.2) else cs)
             (bits base, replicate (length (bits base)) 0) l in
  length r.1 = length (bits base) ∧ length r.2 = length (bits base) ∧ Forall is_u8 r.1 ∧
  ∀ j k, (j < length (bits base))%nat → 0 ≤ k →
    let c := Z.b2z (bit_of (bits base) j k) + tally (num_bits base) j k l in
    bit_of r.1 j k = (1 <=? c) ∧ bit_of r.2 j k = (2 <=? c).
Proof.
  intros Hbase. induction l as [|pf l IH] using rev_ind; intros Hl; simpl.
  { split; [done|]. split; [apply length_replicate|]. split; [apply Hbase|]. intros j k Hj Hk.
    unfold bit_of at 3. rewrite lookup_total_replicate_2 by done. rewrite Z.bits_0.
    unfold tally. simpl. by destruct (bit_of _ _ _). }
  apply Forall_app in Hl as [Hl [Hpf _]%Forall_cons]. specialize (IH Hl).
  rewrite foldl_app. cbn [foldl]. set (r := foldl _ _ l) in *.
  destruct IH as (Hl1 & Hl2 & Hu & Hb).
  assert (Htl : ∀ j k, tally (num_bits base) j k (l ++ [pf]) =
    weight (num_bits base) j k pf + tally (num_bits base) j k l).
  { intros j k. by rewrite (Permutation_app_comm l [pf]). }
  destruct (Z.eqb_spec (num_bits pf.2) (num_bits base)) as [Hn|Hn].
  - destruct (absorb_spec r.1 r.2 (bits pf.2)) as (Ha1 & Ha2 & Hau & Hab);
      [lia|rewrite Hl1; by apply wf_length_eq|done|apply Hpf|].
    split; [lia|]. split; [lia|]. split; [done|]. intros j k Hj Hk. cbv zeta.
    destruct (Hab j k ltac:(lia) Hk) as [-> ->]. destruct (Hb j k Hj Hk) as [-> ->].
    rewrite Htl. unfold weight. rewrite (proj2 (Z.eqb_eq _ _) Hn).
    pose proof (tally_nonneg (num_bits base) j k l).
    destruct (bit_of (bits base) j k), (bit_of (bits pf.2) j k); simpl Z.b2z; lia.
  - split; [done|]. split; [done|]. split; [done|]. intros j k Hj Hk. cbv zeta.
    rewrite Htl. unfold weight. rewrite (proj2 (Z.eqb_neq _ _) Hn).
    destruct (Hb j k Hj Hk) as [-> ->]. split; f_equal; lia.
Qed.

(** The reference loop: one merge per peer but the excluded one. *)
Lemma compute_loop exclude f l :
  wf f → Forall (λ pf : NodeAddr * BloomFilter, wf pf.2) l →
  let r := foldl (λ f pf, if decide (pf.1 = exclude) then f
                          else match BloomFilter.merge f pf.2 with Ok f' => f' | _ => f end) f l in
  wf r ∧ same_shape r f ∧
  ∀ j k, (j < length (bits f))%nat → 0 ≤ k < 8 →
    bit_of (bits r) j k =
      (1 <=? Z.b2z (bit_of (bits f) j k)
             + tally (num_bits f) j k (filter (λ pf, pf.1 ≠ exclude) l)).
Proof.
  intros Hf Hl. revert f Hf. induction Hl as [|pf l Hpf Hl IH]; intros f Hf; cbn [foldl].
  { split; [done|]. split; [done|]. intros j k _ _. unfold tally. simpl.
    by destruct (bit_of _ _ _). }
  rewrite filter_cons. destruct (decide (pf.1 = exclude)) as [He|He].
  { rewrite decide_False by auto. by apply IH. }
  rewrite decide_True by done.
  destruct (decide (num_bits f = num_bits pf.2)) as [Hn|Hn].
  - destruct (merge_spec f pf.2 Hf Hpf Hn) as (m & -> & Hwm & Hsm & Hgm).
    destruct (IH m Hwm) as (Hw & Hs & Hb). split; [done|].
    split; [by eapply same_shape_trans|]. intros j k Hj Hk.
    destruct Hsm as (Hn' & _ & Hlen). rewrite Hb by lia.
    specialize (Hgm (8 * Z.of_nat j + k)). rewrite !get_bit_bit_of in Hgm.
    replace ((8 * Z.of_nat j + k) / 8) with (Z.of_nat j) in Hgm by (Z.div_mod_to_equations; lia).
    replace ((8 * Z.of_nat j + k) mod 8) with k in Hgm by (Z.div_mod_to_equations; lia).
    rewrite Nat2Z.id in Hgm. rewrite Hgm by (rewrite (wf_size f Hf); lia).
    rewrite tally_cons, Hn'. unfold weight. rewrite <- Hn, Z.eqb_refl.
    pose proof (tally_nonneg (num_bits f) j k (filter (λ pf, pf.1 ≠ exclude) l)).
    destruct (bit_of (bits f) j k), (bit_of (bits pf.2) j k); simpl Z.b2z; lia.
  - rewrite merge_size_error by done. destruct (IH f Hf) as (Hw & Hs & Hb).
    split; [done|]. split; [done|]. intros j k Hj Hk. rewrite Hb, tally_cons by done.
    assert (weight (num_bits f) j k pf = 0) as ->; [|by rewrite Z.add_0_l].
    unfold weight. by rewrite (proj2 (Z.eqb_neq _ _)) by auto.
Qed.

(** What the recipient contributed itself is the difference. *)
Lemma tally_exclude n j k ord m p :
  tally n j k (map_iter ord m) =
  tally n j k (filter (λ pf, pf.1 ≠ p) (map_iter ord m))
  + match m !! p with Some f => weight n j k (p, f) | None => 0 end.
Proof.
  assert (Hf : ∀ q, tally n j k (filter (λ pf : NodeAddr * BloomFilter, pf.1 ≠ p) (map_to_list q))
    = tally n j k (filter (λ pf : NodeAddr * BloomFilter, pf.1 ≠ p) (map_iter ord q))).
  { intros q. by rewrite (map_iter_perm ord q). }
  assert (Hid : ∀ q : gmap NodeAddr BloomFilter, q !! p = None →
    filter (λ pf : NodeAddr * BloomFilter, pf.1 ≠ p) (map_to_list q) = map_to_list q).
  { intros q Hq. apply filter_all. apply Forall_forall.
    intros [p' f'] Hin%elem_of_map_to_list ?; simplify_eq/=. }
  rewrite <- Hf, (map_iter_perm ord m). destruct (m !! p) as [f|] eqn:Hp.
  - assert (Hperm : map_to_list m ≡ₚ (p, f) :: map_to_list (delete p m))
      by (symmetry; by apply map_to_list_delete).
    rewrite Hperm, filter_cons. rewrite decide_False by (simpl; auto).
    rewrite Hid by apply lookup_delete_eq. rewrite tally_cons. lia.
  - rewrite Hid by done. lia.
Qed.

Context (sha256 : list Z → list Z) (deps_order : SetOrder NodeAddr).

Lemma insert_all_shape l f : wf f →
  wf (foldl (BloomFilter.insert sha256) f l) ∧ same_shape (foldl (BloomFilter.insert sha256) f l) f.
Proof.
  revert f. induction l as [|a l IH]; intros f Hf; [done|]. simpl.
  destruct (insert_spec f (BloomFilter.hash_pair sha256 (NodeAddrOps.as_bytes a)) Hf)
    as (Hw & Hs & _). destruct (IH _ Hw). split; [done|]. by eapply same_shape_trans.
Qed.

Lemma wf_base_filter self :
  wf (base_filter sha256 deps_order self)
  ∧ same_shape (base_filter sha256 deps_order self) BloomFilter.new.
Proof.
  unfold base_filter.
  destruct (insert_spec BloomFilter.new
    (BloomFilter.hash_pair sha256 (NodeAddrOps.as_bytes (own_node_addr self))) wf_new) as (Hw & Hs & _).
  destruct (is_leaf_only self); [done|].
  destruct (insert_all_shape (set_iter deps_order (leaf_dependents self)) _ Hw).
  split; [done|]. by eapply same_shape_trans.
Qed.

(** What [prepare_outgoing_filters] holds, for a node that is not leaf-only. *)
Lemma prepare_spec ord self m : is_leaf_only self = false → filters_wf m →
  let base := base_filter sha256 deps_order self in
  let r := prepare_outgoing_filters sha256 deps_order ord self m in
  peers r = Some m ∧ out_hash_count r = hash_count base ∧
  length (combined r) = length (bits base) ∧ length (shared r) = length (bits base) ∧
  Forall is_u8 (combined r) ∧
  ∀ j k, (j < length (bits base))%nat → 0 ≤ k →
    let c := Z.b2z (bit_of (bits base) j k) + tally (num_bits base) j k (map_iter ord m) in
    bit_of (combined r) j k = (1 <=? c) ∧ bit_of (shared r) j k = (2 <=? c).
Proof.
  intros Hleaf Hm base. unfold prepare_outgoing_filters. fold base. rewrite Hleaf. cbn [negb andb].
  destruct (prepare_loop base (map_iter ord m)) as (H1 & H2 & H3 & H4);
    [apply wf_base_filter|by apply filters_wf_iter|].
  set (r := foldl _ _ _) in *. destruct r as [c s]. simpl in *. done.
Qed.

Lemma excluded_spec ord self m p : is_leaf_only self = false → filters_wf m →
  let base := base_filter sha256 deps_order self in
  excluded (prepare_outgoing_filters sha256 deps_order ord self m) p =
  match m !! p with
  | Some f => if num_bits f =? num_bits base then Some f else None
  | None => None
  end.
Proof.
  intros Hleaf Hm base. destruct (prepare_spec ord self m Hleaf Hm) as (Hp & _ & Hl & _).
  unfold excluded. rewrite Hp, Hl. simpl. destruct (m !! p) as [f|] eqn:Hf; simpl; [|done].
  destruct (wf_base_filter self) as [Hbase _].
  pose proof (wf_length_eq f _ (Hm p f Hf) Hbase) as Heq.
  destruct (Z.eqb_spec (num_bits f) (num_bits base)) as [Hn|Hn].
  - rewrite (proj2 (Nat.eqb_eq _ _)); [done|by apply Heq].
  - rewrite (proj2 (Nat.eqb_neq _ _)); [done|]. by rewrite <- Heq.
Qed.

(** The bytes [for_peer] assembles. *)
Definition peer_bytes (r : OutgoingBloomFilters) (p : NodeAddr) : list Z :=
  match excluded r p with
  | Some ex => zip_mut (λ byte se, Z.land byte (Z.lor (u8_not se.2) se.1)) (combined r)
                 (zip (shared r) (bits ex))
  | None => combined r
  end.

Lemma peer_bytes_shape r p : Forall is_u8 (combined r) →
  length (peer_bytes r p) = length (combined r) ∧ Forall is_u8 (peer_bytes r p).
Proof.
  intros Hu. unfold peer_bytes. destruct (excluded r p) as [ex|]; [|done].
  split; [apply length_zip_mut|]. generalize (zip (shared r) (bits ex)).
  induction Hu as [|x l Hx Hl IH]; intros [|y ys]; simpl; try done;
    constructor; auto using is_u8_land_l.
Qed.

(** Bit by bit, excluding the recipient leaves what the others contribute. *)
Lemma peer_bytes_bit ord self m p j k : is_leaf_only self = false → filters_wf m →
  let base := base_filter sha256 deps_order self in
  let r := prepare_outgoing_filters sha256 deps_order ord self m in
  (j < length (bits base))%nat → 0 ≤ k < 8 →
  bit_of (peer_bytes r p) j k =
    (1 <=? Z.b2z (bit_of (bits base) j k)
           + tally (num_bits base) j k (filter (λ pf, pf.1 ≠ p) (map_iter ord m))).
Proof.
  intros Hleaf Hm base r Hj Hk.
  destruct (prepare_spec ord self m Hleaf Hm) as (_ & _ & Hlc & Hls & _ & Hbit).
  fold base r in Hlc, Hls, Hbit. destruct (Hbit j k Hj ltac:(lia)) as [Hc Hs].
  unfold peer_bytes. unfold r at 1. rewrite excluded_spec by done. fold base.
  rewrite (tally_exclude _ j k ord m p) in Hc, Hs.
  pose proof (tally_nonneg (num_bits base) j k (filter (λ pf, pf.1 ≠ p) (map_iter ord m))) as Hnn.
  set (t := tally _ _ _ (filter _ _)) in *.
  destruct (m !! p) as [f|] eqn:Hf; [|rewrite Hc; f_equal; lia].
  unfold weight in Hc, Hs. simpl in Hc, Hs.
  destruct (Z.eqb_spec (num_bits f) (num_bits base)) as [Hn|Hn]; [|rewrite Hc; f_equal; lia].
  assert (length (bits f) = length (bits base)) as Hlf.
  { apply wf_length_eq; [by apply (Hm p)|apply wf_base_filter|done]. }
  destruct (lookup_lt_is_Some_2 (shared r) j ltac:(lia)) as [x Hx].
  destruct (lookup_lt_is_Some_2 (bits f) j ltac:(lia)) as [y Hy].
  rewrite (bit_of_zip_mut _ (λ b se, b && (negb (Z.testbit se.2 k) || Z.testbit se.1 k)) _ _ _ (x, y)).
  - unfold bit_of in Hs, Hc. rewrite (list_lookup_total_correct _ _ _ Hx) in Hs.
    rewrite (list_lookup_total_correct _ _ _ Hy) in Hs, Hc. simpl. unfold bit_of at 1. rewrite Hc, Hs.
    fold (bit_of (bits base) j k).
    destruct (bit_of (bits base) j k), (Z.testbit y k); simpl Z.b2z; simpl negb; lia.
  - intros z. simpl. by rewrite Z.land_spec, Z.lor_spec, u8_not_bit.
  - rewrite lookup_zip_with, Hx. simpl. by rewrite Hy.
  - lia.
Qed.

Lemma for_peer_bytes r p : Forall is_u8 (combined r) → 0 < Z.of_nat (length (combined r)) →
  1 ≤ out_hash_count r ≤ U8_MAX →
  ∃ f, for_peer r p = Ok f ∧ wf f ∧ bits f = peer_bytes r p ∧ hash_count f = out_hash_count r.
Proof.
  intros Hu Hlen Hk. destruct (peer_bytes_shape r p Hu) as [Hl Hpu].
  unfold for_peer. fold (peer_bytes r p).
  destruct (BloomFilter.from_bytes (peer_bytes r p) (out_hash_count r)) as [f|e|] eqn:Hf.
  - exists f. split; [done|]. apply wf_from_bytes in Hf; [done|done|mlia].
  - unfold BloomFilter.from_bytes in Hf. rewrite (proj2 (Z.eqb_neq _ 0)) in Hf by lia.
    by rewrite (proj2 (Nat.eqb_neq _ 0)) in Hf by lia.
  - unfold BloomFilter.from_bytes in Hf. by repeat case_match.
Qed.

Lemma prepare_leaf ord self m : is_leaf_only self = true →
  let base := base_filter sha256 deps_order self in
  prepare_outgoing_filters sha256 deps_order ord self m =
  mkOutgoing None (bits base) (replicate (length (bits base)) 0) (hash_count base).
Proof.
  intros Hleaf base. unfold prepare_outgoing_filters. fold base. rewrite Hleaf. cbn [negb andb].
  assert (Hid : ∀ {A B} (l : list B) (x : A), foldl (λ x _, x) x l = x)
    by (intros A B l; induction l; simpl; auto).
  by rewrite Hid.
Qed.

Lemma prepare_params ord self m : filters_wf m →
  let r := prepare_outgoing_filters sha256 deps_order ord self m in
  let base := base_filter sha256 deps_order self in
  Forall is_u8 (combined r) ∧ length (combined r) = length (bits base)
  ∧ length (shared r) = length (bits base) ∧ out_hash_count r = hash_count base.
Proof.
  intros Hm r base. destruct (wf_base_filter self) as [Hbase _].
  destruct (is_leaf_only self) eqn:Hleaf.
  - unfold r. rewrite prepare_leaf by done. simpl. rewrite length_replicate.
    repeat split. apply Hbase.
  - destruct (prepare_spec ord self m Hleaf Hm) as (_ & ? & ? & ? & ? & _). done.
Qed.

Lemma for_peer_compute ord1 ord2 self m p : filters_wf m →
  for_peer (prepare_outgoing_filters sha256 deps_order ord1 self m) p =
  Ok (compute_outgoing_filter sha256 deps_order ord2 self p m).
Proof.
  intros Hm. destruct (wf_base_filter self) as [Hbase _].
  set (base := base_filter sha256 deps_order self) in *.
  destruct (prepare_params ord1 self m Hm) as (Hu & Hlc & _ & Hk).
  set (r := prepare_outgoing_filters sha256 deps_order ord1 self m) in *.
  pose proof (wf_size _ Hbase) as Hsz. pose proof (wf_nonempty _ Hbase). pose proof (wf_hash_count _ Hbase).
  destruct (for_peer_bytes r p) as (f & Hfp & Hwf & Hbits & Hkf);
    [done|fold base in Hlc; lia|rewrite Hk; done|].
  rewrite Hfp. f_equal.
  assert (Hn : num_bits f = num_bits base).
  { rewrite (wf_size _ Hwf), Hsz, Hbits. rewrite (proj1 (peer_bytes_shape r p Hu)), Hlc. done. }
  unfold compute_outgoing_filter. destruct (is_leaf_only self) eqn:Hleaf.
  - fold base. assert (Hbb : bits f = bits base).
    { rewrite Hbits. unfold r. by rewrite prepare_leaf. }
    apply filter_ext; [done|done|done|by rewrite Hkf, Hk|]. intros i _. by rewrite !testbit_byte, Hbb.
  - change (foldl (BloomFilter.insert sha256) _ _) with
      (if false then BloomFilter.insert sha256 BloomFilter.new (own_node_addr self) else
       foldl (BloomFilter.insert sha256) (BloomFilter.insert sha256 BloomFilter.new (own_node_addr self))
         (set_iter deps_order (leaf_dependents self))).
    rewrite <- Hleaf. change (if is_leaf_only self then _ else _) with base.
    destruct (compute_loop p base (map_iter ord2 m) Hbase (filters_wf_iter ord2 m Hm))
      as (Hwc & (Hnc & Hkc & _) & Hbc).
    apply filter_ext; [done|done|congruence|by rewrite Hkf, Hk, Hkc|]. intros i Hi. rewrite !get_bit_bit_of, Hbits.
    pose proof (byte_index_lt base i Hbase ltac:(lia)) as Hj.
    pose proof (Z.mod_pos_bound i 8 ltac:(lia)) as Hmod.
    rewrite Hbc by done. unfold r. rewrite peer_bytes_bit by done. do 2 f_equal.
    by rewrite (map_iter_perm ord1 m), (map_iter_perm ord2 m).
Qed.

Lemma zip_all_eq la c s e :
  length la = length c → length s = length c → length e = length c →
  forallb (λ q : Z * Z * Z * Z, q.1.1.1 =? Z.land q.1.1.2 (Z.lor (u8_not q.2) q.1.2))
    (zip (zip (zip la c) s) e) = true ↔
  la = zip_mut (λ byte se, Z.land byte (Z.lor (u8_not se.2) se.1)) c (zip s e).
Proof.
  revert la s e. induction c as [|x c IH]; intros [|a la] [|y s] [|z e] H1 H2 H3;
    simplify_eq/=; [done|].
  rewrite andb_true_iff, Z.eqb_eq, IH by lia. naive_solver.
Qed.

Lemma matches_bytes r p last :
  length (shared r) = length (combined r) →
  matches r p last = true ↔
  length (bits last) = length (combined r) ∧ hash_count last = out_hash_count r
  ∧ bits last = peer_bytes r p.
Proof.
  intros Hs. unfold matches, peer_bytes.
  destruct (Nat.eqb_spec (length (bits last)) (length (combined r))) as [Hl|Hl]; simpl; [|naive_solver].
  destruct (Z.eqb_spec (hash_count last) (out_hash_count r)) as [Hk|Hk]; simpl; [|naive_solver].
  destruct (excluded r p) as [ex|] eqn:Hex.
  - rewrite zip_all_eq; [naive_solver|done|done|]. unfold excluded in Hex.
    destruct (peers r) as [ps|]; simpl in Hex; [|done].
    destruct (ps !! p) as [g|]; simpl in Hex; [|done].
    by destruct (Nat.eqb_spec (length (bits g)) (length (combined r))); simplify_eq.
  - rewrite bool_decide_eq_true. naive_solver.
Qed.

Lemma matches_compute ord1 ord2 self m p last : filters_wf m → wf last →
  matches (prepare_outgoing_filters sha256 deps_order ord1 self m) p last = true ↔
  last = compute_outgoing_filter sha256 deps_order ord2 self p m.
Proof.
  intros Hm Hlast. pose proof (for_peer_compute ord1 ord2 self m p Hm) as Hfp.
  destruct (prepare_params ord1 self m Hm) as (Hu & Hlc & Hls & Hk).
  set (r := prepare_outgoing_filters sha256 deps_order ord1 self m) in *.
  destruct (wf_base_filter self) as [Hbase _].
  pose proof (wf_size _ Hbase). pose proof (wf_nonempty _ Hbase). pose proof (wf_hash_count _ Hbase).
  destruct (for_peer_bytes r p) as (f & Hf & Hwf & Hbits & Hkf); [done|lia|by rewrite Hk|].
  rewrite Hf in Hfp. injection Hfp as <-. rewrite matches_bytes by lia. rewrite <- Hbits, <- Hkf.
  split.
  - intros (_ & Hk' & Hb). pose proof (wf_size _ Hlast). pose proof (wf_size _ Hwf).
    rewrite Hb in *. destruct last, f; simpl in *; congruence.
  - intros ->. split; [|done]. rewrite Hbits. by apply peer_bytes_shape.
Qed.

End aggregation.

(** ** The deadline index *)

Section deadlines.
Import OutgoingBloomFilters BloomState.

Lemma pair_min_spec x y :
  (pair_min x y = x ∨ pair_min x y = y) ∧ (pair_min x y).1 ≤ x.1 ∧ (pair_min x y).1 ≤ y.1.
Proof.
  unfold pair_min. destruct (Z.ltb_spec x.1 y.1); simpl; [split; [by left|lia]|].
  destruct (Z.eqb_spec x.1 y.1); simpl; [|split; [by right|lia]].
  destruct (x.2 <=? y.2); (split; [|lia]); [by left|by right].
Qed.

Lemma foldl_pair_min x l :
  foldl pair_min x l ∈ x :: l ∧ Forall (λ y, (foldl pair_min x l).1 ≤ y.1) (x :: l).
Proof.
  revert x. induction l as [|y l IH]; intros x; cbn [foldl].
  { split; [left|repeat constructor; lia]. }
  destruct (IH (pair_min x y)) as [Hin Hmin]. destruct (pair_min_spec x y) as (Hp & Hx & Hy).
  apply Forall_cons in Hmin as [Hm Hmin]. split.
  { apply elem_of_cons in Hin as [->|Hin]; [|by do 2 right].
    destruct Hp as [->| ->]; [left|right; left]. }
  repeat constructor; [lia|lia|done].
Qed.

Lemma btree_first_spec s :
  match btree_first s with
  | None => s = ∅
  | Some x => x ∈ s ∧ ∀ y, y ∈ s → x.1 ≤ y.1
  end.
Proof.
  unfold btree_first. destruct (elements s) as [|x l] eqn:He.
  - by apply elements_empty_iff, leibniz_equiv in He.
  - destruct (foldl_pair_min x l) as [Hin Hmin]. rewrite Forall_forall in Hmin.
    rewrite <- He in Hin, Hmin. setoid_rewrite elem_of_elements in Hmin.
    by rewrite elem_of_elements in Hin.
Qed.

(** The index holds exactly the pending peers with their effective deadlines,
    and the cached deadline is its minimum. *)
Definition deadline_inv (self : BloomState) : Prop :=
  (∀ due p, (due, p) ∈ pending_update_deadlines self ↔ pending_peer_deadline_ms self p = Some due)
  ∧ pending_update_deadline_ms self = fst <$> btree_first (pending_update_deadlines self).

Lemma pending_deadline_set_index self s p :
  pending_peer_deadline_ms (set_deadline_index self s) p = pending_peer_deadline_ms self p.
Proof. done. Qed.

Lemma pending_deadline_is_Some self p :
  is_Some (pending_peer_deadline_ms self p) ↔ is_Some (pending_updates self !! p).
Proof. unfold pending_peer_deadline_ms. destruct (pending_updates self !! p); simpl; split; eauto. Qed.

Lemma refresh_inv self : deadline_inv (refresh_pending_deadline self).
Proof.
  split; [|done]. intros due p. unfold refresh_pending_deadline. rewrite pending_deadline_set_index.
  simpl. rewrite elem_of_list_to_set, list_elem_of_omap. split.
  - intros (q & _ & Hq). destruct (pending_peer_deadline_ms self q) eqn:Hd; by simplify_eq/=.
  - intros Hd. exists p. rewrite Hd. split; [|done].
    destruct (proj1 (pending_deadline_is_Some self p) ltac:(eauto)) as [v Hv].
    apply list_elem_of_fmap. exists (p, v). split; [done|]. by apply elem_of_map_to_list.
Qed.

(** Re-indexing one peer restores the invariant, when only that peer's deadline moved. *)
Lemma update_inv self self' peer :
  deadline_inv self →
  pending_update_deadlines self' = pending_update_deadlines self →
  (∀ q, q ≠ peer → pending_peer_deadline_ms self' q = pending_peer_deadline_ms self q) →
  deadline_inv (update_pending_deadline self' peer (pending_peer_deadline_ms self peer)).
Proof.
  intros [Hinv _] Hidx Hother. split; [|done]. intros due p. unfold update_pending_deadline.
  rewrite pending_deadline_set_index. simpl. rewrite Hidx.
  assert (Hrest : (due, p) ∈ match pending_peer_deadline_ms self peer with
      | Some due0 => pending_update_deadlines self ∖ {[(due0, peer)]}
      | None => pending_update_deadlines self end ↔
    p ≠ peer ∧ pending_peer_deadline_ms self p = Some due).
  { rewrite <- Hinv. destruct (pending_peer_deadline_ms self peer) as [d0|] eqn:Hd.
    - rewrite elem_of_difference, elem_of_singleton, Hinv. split; [|intros [? ?]; naive_solver].
      intros [Hp Hne]. split; [|done]. intros ->. rewrite Hd in Hp. congruence.
    - rewrite Hinv. split; [|by intros [??]]. intros Hp. split; [|done]. intros ->. congruence. }
  destruct (pending_peer_deadline_ms self' peer) as [d1|] eqn:Hd1.
  - rewrite elem_of_union, elem_of_singleton, Hrest. destruct (decide (p = peer)) as [->|Hne].
    + rewrite Hd1. naive_solver.
    + rewrite Hother by done. naive_solver.
  - rewrite Hrest. destruct (decide (p = peer)) as [->|Hne]; [rewrite Hd1; naive_solver|].
    rewrite Hother by done. naive_solver.
Qed.

Lemma mark_update_needed_inv self p : deadline_inv self → deadline_inv (mark_update_needed self p).
Proof.
  intros Hinv. unfold mark_update_needed. destruct (pending_updates self !! p) eqn:Hp; [done|].
  assert (None = pending_peer_deadline_ms self p) as -> by (unfold pending_peer_deadline_ms; by rewrite Hp).
  apply update_inv; [done|done|]. intros q Hq. unfold pending_peer_deadline_ms. simpl.
  by rewrite lookup_insert_ne.
Qed.

Lemma mark_all_inv ps self : deadline_inv self → deadline_inv (mark_all_updates_needed self ps).
Proof. revert self. induction ps; intros self Hinv; [done|]. simpl. auto using mark_update_needed_inv. Qed.

Lemma defer_update_retry_inv self p t : deadline_inv self → deadline_inv (defer_update_retry self p t).
Proof.
  intros Hinv. unfold defer_update_retry. destruct (pending_updates self !! p); [|done].
  destruct (_ <=? _); [done|]. apply update_inv; [done|done|]. intros q Hq.
  unfold pending_peer_deadline_ms. simpl. by rewrite lookup_insert_ne.
Qed.

Lemma record_update_sent_inv self p t : deadline_inv self → deadline_inv (record_update_sent self p t).
Proof.
  intros Hinv. apply update_inv; [done|done|]. intros q Hq.
  unfold pending_peer_deadline_ms. simpl. by rewrite lookup_delete_ne, lookup_insert_ne.
Qed.

Lemma remove_peer_state_inv self p : deadline_inv self → deadline_inv (remove_peer_state self p).
Proof.
  intros Hinv. apply (update_inv self); [done|done|]. intros q Hq.
  unfold pending_peer_deadline_ms. simpl. by rewrite !lookup_delete_ne.
Qed.

Lemma clear_pending_inv self : deadline_inv (clear_pending_updates self).
Proof. split; [|done]. intros due p. unfold pending_peer_deadline_ms. simpl. set_solver. Qed.

Create HintDb bloom_state.
#[local] Hint Resolve refresh_inv mark_update_needed_inv mark_all_inv defer_update_retry_inv
  record_update_sent_inv remove_peer_state_inv clear_pending_inv : bloom_state.

Section run.
Context (sha256 : list Z → list Z).
Context (deps_order : SetOrder NodeAddr) (peer_order : MapOrder NodeAddr BloomFilter).

Lemma mark_changed_inv self ex ps fs : deadline_inv self →
  deadline_inv (mark_changed_peers sha256 deps_order peer_order self ex ps fs).
Proof.
  unfold mark_changed_peers. generalize (prepare_outgoing_filters sha256 deps_order peer_order self fs).
  intros r. revert self. induction ps as [|p ps IH]; intros self Hinv; [done|]. cbn [foldl].
  apply IH. destruct (decide _); [done|]. case_match; [case_match|]; auto with bloom_state.
Qed.

Lemma step_inv self e : deadline_inv self →
  deadline_inv (BloomEvents.step sha256 deps_order peer_order self e).
Proof.
  intros Hinv. destruct e; simpl; auto using mark_changed_inv with bloom_state;
    first [exact Hinv|apply refresh_inv].
Qed.

Lemma run_inv es self : deadline_inv self →
  deadline_inv (BloomEvents.run sha256 deps_order peer_order self es).
Proof. revert self. induction es; intros self Hinv; [done|]. simpl. auto using step_inv. Qed.
End run.

Lemma new_inv own : deadline_inv (new own).
Proof. split; [|done]. intros due p. unfold pending_peer_deadline_ms. simpl. set_solver. Qed.

Lemma needs_update_mark self p q :
  needs_update (mark_update_needed self p) q = needs_update self q || bool_decide (q = p).
Proof.
  unfold needs_update, mark_update_needed. destruct (pending_updates self !! p) as [v|] eqn:Hp; simpl.
  - destruct (decide (q = p)) as [->|].
    + by rewrite Hp, !bool_decide_true by eauto.
    + by rewrite (bool_decide_false (q = p)), orb_false_r.
  - rewrite <- bool_decide_or. apply bool_decide_ext. destruct (decide (q = p)) as [->|].
    + rewrite lookup_insert_eq. naive_solver.
    + rewrite lookup_insert_ne by done. naive_solver.
Qed.

Lemma elem_of_pending_peers_due pord self now p :
  p ∈ pending_peers_due pord self now ↔
  ∃ due, pending_peer_deadline_ms self p = Some due ∧ due ≤ now.
Proof.
  unfold pending_peers_due. rewrite list_elem_of_filter. split.
  - intros [Hd _]. destruct (pending_peer_deadline_ms self p); [|done].
    eexists. split; [done|]. by apply Z.leb_le.
  - intros (due & Hd & Hle). rewrite Hd. split; [by apply Z.leb_le|].
    destruct (proj1 (pending_deadline_is_Some self p) ltac:(eauto)) as [v Hv].
    apply list_elem_of_fmap. exists (p, v). split; [done|]. by apply elem_of_map_iter.
Qed.

Lemma deadline_none self : deadline_inv self →
  pending_update_deadline_ms self = None ↔ pending_updates self = ∅.
Proof.
  intros [Hidx ->]. pose proof (btree_first_spec (pending_update_deadlines self)) as Hfirst.
  destruct (btree_first _) as [[due p]|]; simpl.
  - destruct Hfirst as [Hin _]. apply Hidx in Hin. split; [done|]. intros He.
    unfold pending_peer_deadline_ms in Hin. by rewrite He in Hin.
  - split; [|done]. intros _. apply map_empty. intros p.
    apply eq_None_not_Some. rewrite <- pending_deadline_is_Some. intros [due Hd].
    apply Hidx in Hd. set_solver.
Qed.

Lemma deadline_due pord self now : deadline_inv self →
  (∃ due, pending_update_deadline_ms self = Some due ∧ due ≤ now) ↔
  pending_peers_due pord self now ≠ [].
Proof.
  intros [Hidx ->]. pose proof (btree_first_spec (pending_update_deadlines self)) as Hfirst. split.
  - intros (due & Hd & Hle). destruct (btree_first _) as [[due' p]|]; simplify_eq/=.
    destruct Hfirst as [Hin%Hidx _]. apply (not_elem_of_nil_ne p), elem_of_pending_peers_due. eauto.
  - intros [p Hp]%ne_nil_elem_of. apply elem_of_pending_peers_due in Hp as (due & Hd & Hle).
    apply Hidx in Hd. destruct (btree_first _) as [x|]; [|set_solver].
    destruct Hfirst as [_ Hmin]. exists x.1. split; [done|]. specialize (Hmin _ Hd). simpl in Hmin. lia.
Qed.

Lemma due_should_send pord self now p :
  p ∈ pending_peers_due pord self now → should_send_update self p now = true.
Proof.
  intros (due & Hd & Hle)%elem_of_pending_peers_due. unfold should_send_update, needs_update.
  rewrite bool_decide_true by (apply pending_deadline_is_Some; eauto). simpl.
  unfold pending_peer_deadline_ms in Hd. destruct (pending_updates self !! p); simplify_eq/=.
  destruct (last_update_sent self !! p); [|done]. apply Z.leb_le. lia.
Qed.

(** Whether a peer's last sent filter differs from its prepared one. *)
Definition changed_for (self : BloomState) (r : OutgoingBloomFilters) (q : NodeAddr) : bool :=
  match last_sent_filters self !! q with None => true | Some last => negb (matches r q last) end.

Lemma last_sent_mark self p : last_sent_filters (mark_update_needed self p) = last_sent_filters self.
Proof. unfold mark_update_needed. by case_match. Qed.

Lemma mark_changed_loop r exclude ps self q :
  needs_update (foldl (λ self p, if decide (p = exclude) then self
    else if changed_for self r p then mark_update_needed self p else self) self ps) q = true ↔
  needs_update self q = true ∨ (q ∈ ps ∧ q ≠ exclude ∧ changed_for self r q = true).
Proof.
  revert self. induction ps as [|p ps IH]; intros self; cbn [foldl]; [set_solver|]. rewrite IH, elem_of_cons.
  destruct (decide (p = exclude)) as [->|Hp]; [naive_solver|].
  destruct (changed_for self r p) eqn:Hc; [|naive_solver congruence].
  rewrite needs_update_mark, orb_true_iff, bool_decide_eq_true.
  unfold changed_for in *. rewrite last_sent_mark.
  destruct (decide (q = p)) as [->|Hq]; [rewrite Hc|]; naive_solver.
Qed.

End deadlines.

(** ** Properties *)

(** C19: the shared aggregation is exact. For every recipient, and whatever order the
    hash maps iterate in, [for_peer] on the prepared aggregate succeeds and gives
    the filter [compute_outgoing_filter] builds by merging every other peer's
    filter: excluding the recipient's own contribution loses no bit that anyone
    else contributes, and keeps none that only the recipient does. *)
Theorem outgoing_filter_aggregation_exact sha256 deps_order ord1 ord2 self peer_filters p :
  filters_wf peer_filters →
  OutgoingBloomFilters.for_peer
    (BloomState.prepare_outgoing_filters sha256 deps_order ord1 self peer_filters) p =
  Ok (BloomState.compute_outgoing_filter sha256 deps_order ord2 self p peer_filters).
Proof. apply for_peer_compute. Qed.

Lemma outgoing_filter_aggregation_exact_witness :
  let self := BloomState.new 5 in
  let m := {[1 := BloomFilter.new; 2 := sample_filter]} : gmap NodeAddr BloomFilter in
  OutgoingBloomFilters.for_peer
    (BloomState.prepare_outgoing_filters (λ d, d) canonical_set_order canonical_order self m) 1 =
  Ok (BloomState.compute_outgoing_filter (λ d, d) canonical_set_order canonical_order self 1 m).
Proof.
  intros self m. apply outgoing_filter_aggregation_exact.
  apply map_Forall_insert_2; [apply wf_new|]. apply map_Forall_singleton, wf_sample.
Defined.

(** A change is announced exactly when there is one. After [mark_changed_peers],
    a peer is owed an update if and only if it was before, or it is one of the
    listed peers other than the excluded one and the filter last sent to it is not
    the filter it should now have. *)
Theorem mark_changed_peers_exact sha256 deps_order ord self exclude ps peer_filters q :
  filters_wf peer_filters → filters_wf (BloomState.last_sent_filters self) →
  BloomState.needs_update
    (BloomState.mark_changed_peers sha256 deps_order ord self exclude ps peer_filters) q = true ↔
  BloomState.needs_update self q = true
  ∨ (q ∈ ps ∧ q ≠ exclude ∧
     BloomState.last_sent_filters self !! q ≠
       Some (BloomState.compute_outgoing_filter sha256 deps_order ord self q peer_filters)).
Proof.
  intros Hm Hsent. unfold BloomState.mark_changed_peers.
  pose proof (mark_changed_loop (BloomState.prepare_outgoing_filters sha256 deps_order ord self
    peer_filters) exclude ps self q) as Hloop.
  unfold changed_for in Hloop. cbv zeta. rewrite Hloop. do 3 f_equiv.
  destruct (BloomState.last_sent_filters self !! q) as [last|] eqn:Hq; [|naive_solver].
  pose proof (matches_compute sha256 deps_order ord ord self peer_filters q last Hm (Hsent q last Hq)) as Hmc.
  rewrite negb_true_iff, <- not_true_iff_false, Hmc. naive_solver.
Qed.

Lemma mark_changed_peers_exact_witness :
  BloomState.needs_update
    (BloomState.mark_changed_peers (λ d, d) canonical_set_order canonical_order
       (BloomState.new 5) 9 [1; 9] ∅) 1 = true.
Proof.
  apply mark_changed_peers_exact.
  - apply map_Forall_empty.
  - apply map_Forall_empty.
  - right. split; [left|]. split; [done|]. done.
Defined.

(** The cached deadline never lies. In every state an announcement history can
    reach, the cached deadline is absent exactly when no peer is pending; it has
    passed exactly when some pending peer is due, whatever the iteration order; and
    a due peer passes the debounce test of [should_send_update]. *)
Theorem bloom_deadline_cache_exact sha256 deps_order ord pord own es now :
  let self := BloomEvents.run sha256 deps_order ord (BloomState.new own) es in
  (BloomState.pending_update_deadline_ms self = None ↔ BloomState.pending_updates self = ∅)
  ∧ ((∃ due, BloomState.pending_update_deadline_ms self = Some due ∧ due ≤ now) ↔
     BloomState.pending_peers_due pord self now ≠ [])
  ∧ (∀ p, p ∈ BloomState.pending_peers_due pord self now →
       BloomState.should_send_update self p now = true).
Proof.
  intros self. pose proof (run_inv sha256 deps_order ord es _ (new_inv own)) as Hinv.
  fold self in Hinv. split; [by apply deadline_none|]. split; [by apply deadline_due|].
  intros p Hp. by eapply due_should_send.
Qed.
