(* ===== verification/Coordinate.v ===== *)
(** * Tree coordinates ([crates/fips-core/src/proto/stp/coordinate.rs])

    A node's coordinate is its path to the root of the spanning tree, itself
    first. Routing compares coordinates by the number of tree hops through the
    lowest common ancestor. The vector of the source is a list; [TreeCoordinate.new]
    refuses the empty one, so the reads of the first and last entry (which
    would panic on an empty path) are total with an unreachable default. *)

From S2P Require Import Prelude Bytes NodeAddr.

Local Open Scope Z_scope.

(** [usize::MAX]: the distance between different trees. *)
Definition USIZE_MAX : Z := U64_MAX.

Inductive TreeError :=
| EmptyCoordinate
| RootDeclarationMismatch
| AncestryTooShort
| AncestryNodeMismatch (declared ancestry : NodeAddr)
| AncestryParentMismatch (declared ancestry : NodeAddr)
| AncestryRootNotMinimum (advertised minimum : NodeAddr)
| InvalidSignature (a : NodeAddr).

Record CoordEntry := mkCoordEntry {
  entry_addr : NodeAddr;
  entry_sequence : Z;
  entry_timestamp : Z
}.

#[export] Instance CoordEntry_eq_dec : EqDecision CoordEntry.
Proof. solve_decision. Defined.

Definition addr_only (a : NodeAddr) : CoordEntry := mkCoordEntry a 0 0.

Abbreviation TreeCoordinate := (list CoordEntry) (only parsing).

Module TreeCoordinate.

Definition new (path : list CoordEntry) : outcome TreeError TreeCoordinate :=
  match path with [] => Err EmptyCoordinate | _ => Ok path end.

Definition from_addrs (addrs : list NodeAddr) : outcome TreeError TreeCoordinate :=
  match addrs with [] => Err EmptyCoordinate | _ => Ok (addr_only <$> addrs) end.

Definition root (a : NodeAddr) : TreeCoordinate := [addr_only a].

Definition root_with_meta (a : NodeAddr) (sequence timestamp : Z) : TreeCoordinate :=
  [mkCoordEntry a sequence timestamp].

Definition node_addr (c : TreeCoordinate) : NodeAddr :=
  match c with e :: _ => entry_addr e | [] => 0 end.

Definition root_id (c : TreeCoordinate) : NodeAddr :=
  match last c with Some e => entry_addr e | None => 0 end.

Definition parent_id (c : TreeCoordinate) : NodeAddr :=
  match c !! 1%nat with Some e => entry_addr e | None => node_addr c end.

Definition depth (c : TreeCoordinate) : Z := Z.of_nat (length c) - 1.

Definition node_addrs (c : TreeCoordinate) : list NodeAddr := entry_addr <$> c.

Definition is_root (c : TreeCoordinate) : bool := (length c =? 1)%nat.

(** The zipped loop of [lca_depth]: equal entries from the root end, until the
    first difference. *)
Fixpoint common (xs ys : list NodeAddr) : Z :=
  match xs, ys with
  | x :: xs, y :: ys => if x =? y then 1 + common xs ys else 0
  | _, _ => 0
  end.

Definition lca_depth (self other : TreeCoordinate) : Z :=
  sat_sub (common (reverse (node_addrs self)) (reverse (node_addrs other))) 1.

Definition distance_to (self other : TreeCoordinate) : Z :=
  if negb (root_id self =? root_id other) then USIZE_MAX
  else
    let lca_depth := lca_depth self other in
    let self_to_lca := depth self - lca_depth in
    let other_to_lca := depth other - lca_depth in
    self_to_lca + other_to_lca.

Fixpoint lca_loop (acc : option NodeAddr) (xs ys : list NodeAddr) : option NodeAddr :=
  match xs, ys with
  | x :: xs, y :: ys => if x =? y then lca_loop (Some x) xs ys else acc
  | _, _ => acc
  end.

Definition lca (self other : TreeCoordinate) : option NodeAddr :=
  lca_loop None (reverse (node_addrs self)) (reverse (node_addrs other)).

Definition has_ancestor (self : TreeCoordinate) (other : NodeAddr) : bool :=
  existsb (λ id, id =? other) (drop 1 (node_addrs self)).

Definition contains (self : TreeCoordinate) (other : NodeAddr) : bool :=
  existsb (λ id, id =? other) (node_addrs self).

Definition ancestor_at (self : TreeCoordinate) (d : nat) : option NodeAddr :=
  entry_addr <$> self !! d.

End TreeCoordinate.

(** ** Common prefixes *)

Section coordinates.
Import TreeCoordinate.
Implicit Types xs ys zs : list NodeAddr.

Lemma common_bounds xs ys :
  0 ≤ common xs ys ≤ Z.of_nat (length xs) ∧ common xs ys ≤ Z.of_nat (length ys).
Proof.
  revert ys. induction xs as [|x xs IH]; intros [|y ys]; simpl; try lia.
  specialize (IH ys). destruct (x =? y); lia.
Qed.

Lemma common_comm xs ys : common xs ys = common ys xs.
Proof.
  revert ys. induction xs as [|x xs IH]; intros [|y ys]; simpl; try done.
  rewrite Z.eqb_sym. by rewrite IH.
Qed.

Lemma common_trans xs ys zs : Z.min (common xs ys) (common ys zs) ≤ common xs zs.
Proof.
  revert ys zs. induction xs as [|x xs IH]; intros ys zs; [simpl; lia|].
  pose proof (common_bounds (x :: xs) zs).
  destruct ys as [|y ys]; [simpl in *; lia|]. destruct zs as [|z zs]; [simpl in *; lia|].
  specialize (IH ys zs). pose proof (common_bounds xs ys). simpl in *.
  destruct (Z.eqb_spec x y), (Z.eqb_spec y z), (Z.eqb_spec x z); lia.
Qed.

Lemma common_prefix xs ys : common xs ys = Z.of_nat (length xs) ↔ xs `prefix_of` ys.
Proof.
  revert ys. induction xs as [|x xs IH]; intros [|y ys]; simpl.
  - split; [intros _; apply prefix_nil|done].
  - split; [intros _; apply prefix_nil|done].
  - split; [lia|]. by intros ?%prefix_nil_inv.
  - destruct (Z.eqb_spec x y) as [->|Hne].
    + split; [intros; apply prefix_cons, IH; lia|]. intros Hp%prefix_cons_inv_2%IH. lia.
    + split; [lia|]. intros ?%prefix_cons_inv_1. done.
Qed.

Lemma common_app_l xs ys x : common xs ys < Z.of_nat (length xs) → common (xs ++ [x]) ys = common xs ys.
Proof.
  revert ys. induction xs as [|z xs IH]; intros [|y ys]; simpl; try done; try lia.
  destruct (z =? y); [|done]. intros. by rewrite IH by lia.
Qed.

Lemma common_prefix_l xs ys : xs `prefix_of` ys → common xs ys = Z.of_nat (length xs).
Proof. apply common_prefix. Qed.

Lemma lca_loop_spec xs ys acc :
  lca_loop acc xs ys =
  if common xs ys =? 0 then acc else xs !! Z.to_nat (common xs ys - 1).
Proof.
  revert ys acc. induction xs as [|x xs IH]; intros [|y ys] acc; simpl; try done.
  pose proof (common_bounds xs ys). destruct (Z.eqb_spec x y) as [->|]; [|done].
  rewrite IH. destruct (Z.eqb_spec (common xs ys) 0) as [->|]; [done|].
  destruct (Z.eqb_spec (1 + common xs ys) 0); [lia|].
  replace (Z.to_nat (1 + common xs ys - 1)) with (S (Z.to_nat (common xs ys - 1))) by lia. done.
Qed.

Lemma common_take xs ys : take (Z.to_nat (common xs ys)) xs = take (Z.to_nat (common xs ys)) ys.
Proof.
  revert ys. induction xs as [|x xs IH]; intros [|y ys]; simpl; try done.
  pose proof (common_bounds xs ys). destruct (Z.eqb_spec x y) as [->|]; [|done].
  replace (Z.to_nat (1 + common xs ys)) with (S (Z.to_nat (common xs ys))) by lia. simpl. by rewrite IH.
Qed.

Lemma common_differ xs ys x y :
  xs !! Z.to_nat (common xs ys) = Some x → ys !! Z.to_nat (common xs ys) = Some y → x ≠ y.
Proof.
  revert ys. induction xs as [|a xs IH]; intros [|b ys]; simpl; try done.
  pose proof (common_bounds xs ys). destruct (Z.eqb_spec a b) as [->|]; [|simpl; congruence].
  replace (Z.to_nat (1 + common xs ys)) with (S (Z.to_nat (common xs ys))) by lia. apply IH.
Qed.

(** ** Distance *)

(** The path from the root. *)
Definition rpath (c : TreeCoordinate) : list NodeAddr := reverse (node_addrs c).

Lemma length_rpath c : length (rpath c) = length c.
Proof. unfold rpath, node_addrs. by rewrite length_reverse, length_fmap. Qed.

Lemma rpath_cons e c : rpath (e :: c) = rpath c ++ [entry_addr e].
Proof. unfold rpath, node_addrs. by rewrite fmap_cons, reverse_cons. Qed.

Lemma rpath_inj c c' : rpath c = rpath c' ↔ node_addrs c = node_addrs c'.
Proof. unfold rpath. split; [apply (inj reverse)|by intros ->]. Qed.

Lemma rpath_head c : c ≠ [] → ∃ t, rpath c = root_id c :: t.
Proof.
  intros Hc. unfold root_id, rpath, node_addrs. destruct c as [|e c] using rev_ind; [done|].
  rewrite last_snoc, fmap_app, reverse_app. simpl. eauto.
Qed.

Lemma same_root_common c c' : c ≠ [] → c' ≠ [] →
  root_id c = root_id c' ↔ 1 ≤ common (rpath c) (rpath c').
Proof.
  intros [t Ht]%rpath_head [t' Ht']%rpath_head. rewrite Ht, Ht'. simpl.
  pose proof (common_bounds t t'). destruct (Z.eqb_spec (root_id c) (root_id c')); lia.
Qed.

Lemma distance_same_root c c' : c ≠ [] → c' ≠ [] → root_id c = root_id c' →
  distance_to c c' =
  Z.of_nat (length c) + Z.of_nat (length c') - 2 * common (rpath c) (rpath c').
Proof.
  intros Hc Hc' Hr. unfold distance_to, lca_depth. fold (rpath c) (rpath c').
  rewrite (proj2 (Z.eqb_eq _ _) Hr). simpl. apply same_root_common in Hr; [|done..].
  unfold depth, sat_sub. lia.
Qed.

Lemma distance_other_root c c' : root_id c ≠ root_id c' → distance_to c c' = USIZE_MAX.
Proof. intros Hr. unfold distance_to. by rewrite (proj2 (Z.eqb_neq _ _) Hr). Qed.

Lemma distance_nonneg c c' : c ≠ [] → c' ≠ [] → 0 ≤ distance_to c c'.
Proof.
  intros Hc Hc'. destruct (decide (root_id c = root_id c')) as [Hr|Hr].
  - rewrite distance_same_root by done. pose proof (common_bounds (rpath c) (rpath c')) as Hb.
    rewrite !length_rpath in Hb. lia.
  - by rewrite distance_other_root.
Qed.

Lemma distance_sym c c' : c ≠ [] → c' ≠ [] → distance_to c c' = distance_to c' c.
Proof.
  intros Hc Hc'. destruct (decide (root_id c = root_id c')) as [Hr|Hr].
  - rewrite !distance_same_root by done. rewrite common_comm. lia.
  - rewrite !distance_other_root by auto. done.
Qed.

Lemma distance_zero c c' : c ≠ [] → c' ≠ [] →
  distance_to c c' = 0 ↔ node_addrs c = node_addrs c'.
Proof.
  intros Hc Hc'. rewrite <- rpath_inj. destruct (decide (root_id c = root_id c')) as [Hr|Hr].
  - rewrite distance_same_root by done. pose proof (common_bounds (rpath c) (rpath c')) as Hb.
    rewrite !length_rpath in Hb. split.
    + intros Hz. assert (common (rpath c) (rpath c') = Z.of_nat (length (rpath c))) as Hp
        by (rewrite length_rpath; lia).
      apply common_prefix in Hp as [k Hk]. assert (length k = 0)%nat as ->%nil_length_inv.
      { apply (f_equal length) in Hk. rewrite length_app, !length_rpath in Hk. lia. }
      by rewrite app_nil_r in Hk.
    + intros Heq. rewrite Heq, common_prefix_l by done.
      apply (f_equal length) in Heq. rewrite !length_rpath in *. lia.
  - rewrite distance_other_root by done. split; [done|]. intros Heq.
    destruct (rpath_head c Hc) as [t Ht], (rpath_head c' Hc') as [t' Ht']. congruence.
Qed.

Lemma distance_triangle a b c : a ≠ [] → b ≠ [] → c ≠ [] →
  root_id a = root_id b → root_id b = root_id c →
  distance_to a c ≤ distance_to a b + distance_to b c.
Proof.
  intros Ha Hb Hc Hab Hbc. rewrite !distance_same_root by congruence.
  pose proof (common_trans (rpath a) (rpath b) (rpath c)).
  pose proof (common_bounds (rpath a) (rpath b)) as H1.
  pose proof (common_bounds (rpath b) (rpath c)) as H2. rewrite !length_rpath in *. lia.
Qed.

(** A node off the path to the destination is one hop further than its parent. *)
Lemma distance_parent e c d : c ≠ [] → d ≠ [] → root_id c = root_id d →
  ¬ rpath (e :: c) `prefix_of` rpath d →
  distance_to c d = distance_to (e :: c) d - 1.
Proof.
  intros Hc Hd Hr Hnp. assert (root_id (e :: c) = root_id c) as He by (by destruct c).
  rewrite !distance_same_root by congruence. rewrite length_cons.
  pose proof (common_bounds (rpath (e :: c)) (rpath d)) as Hb.
  assert (common (rpath (e :: c)) (rpath d) ≠ Z.of_nat (length (rpath (e :: c)))) as Hne
    by (by rewrite common_prefix).
  cut (common (rpath (e :: c)) (rpath d) = common (rpath c) (rpath d)); [lia|].
  destruct (decide (common (rpath c) (rpath d) < Z.of_nat (length (rpath c)))) as [Hlt|Hge].
  - rewrite rpath_cons. by apply common_app_l.
  - pose proof (common_bounds (rpath c) (rpath d)) as Hb2.
    pose proof (common_trans (rpath (e :: c)) (rpath c) (rpath d)) as Ht.
    assert (common (rpath (e :: c)) (rpath c) = Z.of_nat (length (rpath c))) as Hp.
    { rewrite common_comm. apply common_prefix_l. rewrite rpath_cons. by apply prefix_app_r. }
    rewrite !length_rpath in *. simpl in Hb, Hne. lia.
Qed.

(** A node on the path is one hop further than the child towards the destination. *)
Lemma distance_child e c d : c ≠ [] → d ≠ [] →
  rpath (e :: c) `prefix_of` rpath d →
  distance_to (e :: c) d = distance_to c d - 1.
Proof.
  intros Hc Hd Hp. assert (Hpc : rpath c `prefix_of` rpath d).
  { etrans; [|done]. rewrite rpath_cons. by apply prefix_app_r. }
  assert (root_id (e :: c) = root_id c) as He by (by destruct c).
  assert (root_id c = root_id d) as Hr.
  { apply same_root_common; [done..|]. rewrite common_prefix_l by done.
    rewrite length_rpath. destruct c; [done|simpl; lia]. }
  rewrite !distance_same_root by congruence.
  rewrite (common_prefix_l _ _ Hp), (common_prefix_l _ _ Hpc), !length_rpath, length_cons. lia.
Qed.

Lemma contains_spec c a : contains c a = true ↔ a ∈ node_addrs c.
Proof.
  unfold contains. rewrite existsb_exists. setoid_rewrite <- list_elem_of_In.
  setoid_rewrite Z.eqb_eq. naive_solver.
Qed.

End coordinates.

(** ** Properties *)

(** Tree distance is a metric on each tree. For non-empty coordinates with the same
    root the distance is symmetric, zero exactly between equal paths, and obeys
    the triangle inequality; between different trees it is [usize::MAX]. *)
Theorem tree_distance_metric a b c :
  a ≠ [] → b ≠ [] → c ≠ [] →
  TreeCoordinate.distance_to a b = TreeCoordinate.distance_to b a
  ∧ (TreeCoordinate.distance_to a b = 0 ↔
     TreeCoordinate.node_addrs a = TreeCoordinate.node_addrs b)
  ∧ (TreeCoordinate.root_id a ≠ TreeCoordinate.root_id b →
     TreeCoordinate.distance_to a b = USIZE_MAX)
  ∧ (TreeCoordinate.root_id a = TreeCoordinate.root_id b →
     TreeCoordinate.root_id b = TreeCoordinate.root_id c →
     0 ≤ TreeCoordinate.distance_to a c
       ≤ TreeCoordinate.distance_to a b + TreeCoordinate.distance_to b c).
Proof.
  intros Ha Hb Hc. split; [by apply distance_sym|]. split; [by apply distance_zero|].
  split; [by apply distance_other_root|]. intros. split; [by apply distance_nonneg|].
  by apply distance_triangle.
Qed.

Lemma tree_distance_metric_witness :
  let a := addr_only <$> [9; 4; 1] in
  let b := addr_only <$> [8; 4; 1] in
  TreeCoordinate.distance_to a b = 2
  ∧ TreeCoordinate.distance_to a b = TreeCoordinate.distance_to b a.
Proof. intros a b. split; [done|]. by apply (tree_distance_metric a b b). Defined.

(** The lowest common ancestor. For coordinates with the same root, [lca] is the
    node at depth [lca_depth] on both paths; the two paths agree down to it and,
    when both continue, differ right below it; and the distance is the number of
    hops up to it plus the hops down from it. *)
Theorem tree_lca_exact a b :
  a ≠ [] → b ≠ [] → TreeCoordinate.root_id a = TreeCoordinate.root_id b →
  let k := Z.to_nat (TreeCoordinate.lca_depth a b) in
  (∃ x, TreeCoordinate.lca a b = Some x ∧ rpath a !! k = Some x ∧ rpath b !! k = Some x)
  ∧ take (S k) (rpath a) = take (S k) (rpath b)
  ∧ (∀ x y, rpath a !! S k = Some x → rpath b !! S k = Some y → x ≠ y)
  ∧ TreeCoordinate.distance_to a b =
      (TreeCoordinate.depth a - TreeCoordinate.lca_depth a b)
      + (TreeCoordinate.depth b - TreeCoordinate.lca_depth a b).
Proof.
  intros Ha Hb Hr k. pose proof (proj1 (same_root_common a b Ha Hb) Hr) as Hc.
  assert (Hk : S k = Z.to_nat (TreeCoordinate.common (rpath a) (rpath b))).
  { unfold k, TreeCoordinate.lca_depth, sat_sub. fold (rpath a) (rpath b). lia. }
  pose proof (common_bounds (rpath a) (rpath b)) as Hbd.
  pose proof (common_take (rpath a) (rpath b)) as Htake. rewrite <- Hk in Htake.
  destruct (lookup_lt_is_Some_2 (rpath a) k ltac:(lia)) as [x Hx].
  split; [exists x; split; [|split]|split; [done|split]].
  - unfold TreeCoordinate.lca. fold (rpath a) (rpath b). rewrite lca_loop_spec.
    rewrite (proj2 (Z.eqb_neq _ _)) by lia. rewrite <- Hx. f_equal. lia.
  - done.
  - by rewrite <- (lookup_take_lt _ (S k)), <- Htake, lookup_take_lt by lia.
  - rewrite Hk. apply common_differ.
  - unfold TreeCoordinate.distance_to. by rewrite (proj2 (Z.eqb_eq _ _) Hr).
Qed.

Lemma tree_lca_exact_witness :
  ∃ x, TreeCoordinate.lca (addr_only <$> [9; 4; 1]) (addr_only <$> [8; 7; 4; 1]) = Some x.
Proof.
  destruct (tree_lca_exact (addr_only <$> [9; 4; 1]) (addr_only <$> [8; 7; 4; 1]))
    as ((x & Hx & _) & _); [done|done|done|]. by exists x.
Defined.
