(* ===== verification/TreeState.v ===== *)
(** * The spanning tree ([crates/fips-core/src/proto/stp/declaration.rs],
    [stp/state.rs], and [validate_semantics] of [proto/protocol/tree.rs])

    A node's view of the tree: its own parent declaration and coordinate, the
    declarations and ancestries of its peers, and the timers that damp parent
    changes. Clocks are arguments: [now] (nanoseconds of the monotonic clock,
    read once per call) and [ts] (Unix seconds). Link costs are IEEE doubles.
    Signatures are a parameter. [tree_step] is the protocol a node runs on this
    state: the calls the node's handlers make, in the order they make them. *)

From S2P Require Import Prelude Bytes F64 NodeAddr Coordinate.

Local Open Scope Z_scope.

Definition NANOS : Z := 1000000000.

Module ParentDeclaration.

Record ParentDeclaration := mkDecl {
  node_addr : NodeAddr;
  parent_id : NodeAddr;
  sequence : Z;
  timestamp : Z;
  signature : option (list Z)
}.

Definition new (node_addr parent_id : NodeAddr) (sequence timestamp : Z) : ParentDeclaration :=
  mkDecl node_addr parent_id sequence timestamp None.

Definition self_root (node_addr : NodeAddr) (sequence timestamp : Z) : ParentDeclaration :=
  new node_addr node_addr sequence timestamp.

Definition with_signature (node_addr parent_id : NodeAddr) (sequence timestamp : Z)
    (signature : list Z) : ParentDeclaration :=
  mkDecl node_addr parent_id sequence timestamp (Some signature).

Definition set_signature (self : ParentDeclaration) (sig : list Z) : ParentDeclaration :=
  mkDecl (node_addr self) (parent_id self) (sequence self) (timestamp self) (Some sig).

Definition is_root (self : ParentDeclaration) : bool := node_addr self =? parent_id self.

Definition is_signed (self : ParentDeclaration) : bool :=
  match signature self with Some _ => true | None => false end.

Definition signing_bytes (self : ParentDeclaration) : list Z :=
  NodeAddrOps.as_bytes (node_addr self) ++ NodeAddrOps.as_bytes (parent_id self)
  ++ to_le_bytes 8 (sequence self) ++ to_le_bytes 8 (timestamp self).

Definition is_fresher_than (self other : ParentDeclaration) : bool :=
  sequence other <? sequence self.

(** [PartialEq] ignores the signature. *)
Definition eqb (self other : ParentDeclaration) : bool :=
  (node_addr self =? node_addr other) && (parent_id self =? parent_id other)
  && (sequence self =? sequence other) && (timestamp self =? timestamp other).

Section signatures.
Context (sha256 : list Z → list Z).
Context (verify_schnorr : list Z → list Z → list Z → bool).

(** [identity_addr] and [identity_sign] are the address and [sign] of the identity. *)
Definition sign (self : ParentDeclaration) (identity_addr : NodeAddr)
    (identity_sign : list Z → list Z) : outcome TreeError ParentDeclaration :=
  if negb (identity_addr =? node_addr self) then Err (InvalidSignature (node_addr self))
  else Ok (set_signature self (identity_sign (signing_bytes self))).

Definition signing_hash (self : ParentDeclaration) : list Z := sha256 (signing_bytes self).

Definition verify (self : ParentDeclaration) (pubkey : list Z) : outcome TreeError unit :=
  match signature self with
  | None => Err (InvalidSignature (node_addr self))
  | Some sig =>
      if verify_schnorr sig (signing_hash self) pubkey then Ok tt
      else Err (InvalidSignature (node_addr self))
  end.
End signatures.

End ParentDeclaration.

Module TreeAnnounce.
Import ParentDeclaration (ParentDeclaration).

Record TreeAnnounce := mkTreeAnnounce {
  declaration : ParentDeclaration;
  ancestry : TreeCoordinate
}.

Definition path_min (l : list NodeAddr) : NodeAddr :=
  match l with [] => 0 | x :: l => foldl Z.min x l end.

(** [entries[0]] and [min().expect(..)] are total: a coordinate is never empty. *)
Definition validate_semantics (self : TreeAnnounce) : outcome TreeError unit :=
  let entries := ancestry self in
  let declared_node := ParentDeclaration.node_addr (declaration self) in
  let declared_parent := ParentDeclaration.parent_id (declaration self) in
  if negb (TreeCoordinate.node_addr entries =? declared_node)
  then Err (AncestryNodeMismatch declared_node (TreeCoordinate.node_addr entries))
  else
    _ ←
      (if ParentDeclaration.is_root (declaration self) then
         if negb (length entries =? 1)%nat then Err RootDeclarationMismatch else Ok tt
       else match entries !! 1%nat with
            | None => Err AncestryTooShort
            | Some e =>
                if negb (entry_addr e =? declared_parent)
                then Err (AncestryParentMismatch declared_parent (entry_addr e))
                else Ok tt
            end);
    let advertised_root := TreeCoordinate.root_id entries in
    let minimum := path_min (TreeCoordinate.node_addrs entries) in
    if negb (advertised_root =? minimum)
    then Err (AncestryRootNotMinimum advertised_root minimum)
    else Ok tt.

End TreeAnnounce.

Module TreeState.
Import ParentDeclaration (ParentDeclaration).

Record TreeState := mkTreeState {
  my_node_addr : NodeAddr;
  leaf_only : bool;
  my_declaration : ParentDeclaration;
  my_coords : TreeCoordinate;
  root : NodeAddr;
  peer_declarations : gmap NodeAddr ParentDeclaration;
  peer_ancestry : gmap NodeAddr TreeCoordinate;
  parent_hysteresis : f64;
  hold_down : Z;
  last_parent_switch : option Z;
  flap_count : Z;
  flap_window_start : option Z;
  flap_dampening_until : option Z;
  flap_threshold : Z;
  flap_window : Z;
  flap_dampening_duration : Z
}.

Definition new (my_node_addr : NodeAddr) (ts : Z) : TreeState :=
  {| my_node_addr := my_node_addr;
     leaf_only := false;
     my_declaration := ParentDeclaration.self_root my_node_addr 1 ts;
     my_coords := TreeCoordinate.root_with_meta my_node_addr 1 ts;
     root := my_node_addr;
     peer_declarations := ∅;
     peer_ancestry := ∅;
     parent_hysteresis := f64_zero;
     hold_down := 0;
     last_parent_switch := None;
     flap_count := 0;
     flap_window_start := None;
     flap_dampening_until := None;
     flap_threshold := 4;
     flap_window := 60 * NANOS;
     flap_dampening_duration := 120 * NANOS |}.

(** Field updates: position, peers, timers and configuration. *)
Definition set_position (self : TreeState) (decl : ParentDeclaration) (coords : TreeCoordinate)
    (r : NodeAddr) : TreeState :=
  mkTreeState (my_node_addr self) (leaf_only self) decl coords r (peer_declarations self)
    (peer_ancestry self) (parent_hysteresis self) (hold_down self) (last_parent_switch self)
    (flap_count self) (flap_window_start self) (flap_dampening_until self) (flap_threshold self)
    (flap_window self) (flap_dampening_duration self).

Definition set_peers (self : TreeState) (decls : gmap NodeAddr ParentDeclaration)
    (ancestry : gmap NodeAddr TreeCoordinate) : TreeState :=
  mkTreeState (my_node_addr self) (leaf_only self) (my_declaration self) (my_coords self)
    (root self) decls ancestry (parent_hysteresis self) (hold_down self)
    (last_parent_switch self) (flap_count self) (flap_window_start self)
    (flap_dampening_until self) (flap_threshold self) (flap_window self)
    (flap_dampening_duration self).

Definition set_timers (self : TreeState) (last : option Z) (count : Z) (start until : option Z)
    : TreeState :=
  mkTreeState (my_node_addr self) (leaf_only self) (my_declaration self) (my_coords self)
    (root self) (peer_declarations self) (peer_ancestry self) (parent_hysteresis self)
    (hold_down self) last count start until (flap_threshold self) (flap_window self)
    (flap_dampening_duration self).

Definition set_config (self : TreeState) (hysteresis : f64) (hold threshold window dampening : Z)
    : TreeState :=
  mkTreeState (my_node_addr self) (leaf_only self) (my_declaration self) (my_coords self)
    (root self) (peer_declarations self) (peer_ancestry self) hysteresis hold
    (last_parent_switch self) (flap_count self) (flap_window_start self)
    (flap_dampening_until self) threshold window dampening.

Definition set_leaf_only (self : TreeState) (b : bool) : TreeState :=
  mkTreeState (my_node_addr self) b (my_declaration self) (my_coords self)
    (root self) (peer_declarations self) (peer_ancestry self) (parent_hysteresis self)
    (hold_down self) (last_parent_switch self) (flap_count self) (flap_window_start self)
    (flap_dampening_until self) (flap_threshold self) (flap_window self)
    (flap_dampening_duration self).

Definition set_parent_hysteresis (self : TreeState) (h : f64) : TreeState :=
  set_config self (f64_clamp h f64_zero f64_one) (hold_down self) (flap_threshold self)
    (flap_window self) (flap_dampening_duration self).

Definition set_hold_down (self : TreeState) (secs : Z) : TreeState :=
  set_config self (parent_hysteresis self) (secs * NANOS) (flap_threshold self)
    (flap_window self) (flap_dampening_duration self).

Definition set_flap_dampening (self : TreeState) (threshold window_secs dampening_secs : Z)
    : TreeState :=
  set_config self (parent_hysteresis self) (hold_down self) threshold (window_secs * NANOS)
    (dampening_secs * NANOS).

Definition is_root (self : TreeState) : bool := root self =? my_node_addr self.

Definition update_peer (self : TreeState) (declaration : ParentDeclaration)
    (ancestry : TreeCoordinate) : TreeState * bool :=
  let peer_id := ParentDeclaration.node_addr declaration in
  match peer_declarations self !! peer_id with
  | Some existing =>
      if negb (ParentDeclaration.is_fresher_than declaration existing) then (self, false)
      else (set_peers self (<[peer_id := declaration]> (peer_declarations self))
              (<[peer_id := ancestry]> (peer_ancestry self)), true)
  | None => (set_peers self (<[peer_id := declaration]> (peer_declarations self))
               (<[peer_id := ancestry]> (peer_ancestry self)), true)
  end.

Definition remove_peer (self : TreeState) (peer_id : NodeAddr) : TreeState :=
  set_peers self (delete peer_id (peer_declarations self)) (delete peer_id (peer_ancestry self)).

(** [self.flap_count += 1] wraps at 32 bits in a release build. *)
Definition record_parent_switch (self : TreeState) (now : Z) : TreeState * bool :=
  let '(count, start) :=
    match flap_window_start self with
    | Some start =>
        if sat_sub now start <? flap_window self
        then (wrap_u32 (flap_count self + 1), Some start)
        else (1, Some now)
    | None => (1, Some now)
    end in
  match flap_dampening_until self with
  | None =>
      if flap_threshold self <=? count
      then (set_timers self (last_parent_switch self) count start
              (Some (now + flap_dampening_duration self)), true)
      else (set_timers self (last_parent_switch self) count start None, false)
  | Some until => (set_timers self (last_parent_switch self) count start (Some until), false)
  end.

Definition set_parent (self : TreeState) (parent_id : NodeAddr) (sequence timestamp now : Z)
    : TreeState * bool :=
  let parent_changed :=
    is_root self || negb (ParentDeclaration.parent_id (my_declaration self) =? parent_id) in
  let self := set_position self
    (ParentDeclaration.new (my_node_addr self) parent_id sequence timestamp)
    (my_coords self) (root self) in
  let self := set_timers self (Some now) (flap_count self) (flap_window_start self)
    (flap_dampening_until self) in
  if parent_changed then record_parent_switch self now else (self, false).

Definition recompute_coords (self : TreeState) : TreeState :=
  let decl := my_declaration self in
  let seq := ParentDeclaration.sequence decl in
  let ts := ParentDeclaration.timestamp decl in
  let me := my_node_addr self in
  if ParentDeclaration.is_root decl then
    set_position self decl (TreeCoordinate.root_with_meta me seq ts) me
  else
    match peer_ancestry self !! ParentDeclaration.parent_id decl with
    | Some parent_coords =>
        let parent_root := TreeCoordinate.root_id parent_coords in
        if negb (leaf_only self) && (me <=? parent_root) then
          set_position self (ParentDeclaration.self_root me seq ts)
            (TreeCoordinate.root_with_meta me seq ts) me
        else
          let self_entry := mkCoordEntry me seq ts in
          let coords := self_entry :: parent_coords in
          set_position self decl coords (TreeCoordinate.root_id coords)
    | None => self
    end.

Definition advance_role_declaration (self : TreeState) (ts : Z) : TreeState :=
  recompute_coords
    (set_position self
       (ParentDeclaration.new (my_node_addr self)
          (ParentDeclaration.parent_id (my_declaration self))
          (wrap_u64 (ParentDeclaration.sequence (my_declaration self) + 1)) ts)
       (my_coords self) (root self)).

Definition become_root (self : TreeState) (ts : Z) : TreeState :=
  let new_seq := wrap_u64 (ParentDeclaration.sequence (my_declaration self) + 1) in
  recompute_coords
    (set_position self (ParentDeclaration.self_root (my_node_addr self) new_seq ts)
       (my_coords self) (root self)).

Definition distance_to_peer (self : TreeState) (peer_id : NodeAddr) : option Z :=
  TreeCoordinate.distance_to (my_coords self) <$> peer_ancestry self !! peer_id.

Definition is_flap_dampened (self : TreeState) (now : Z) : bool :=
  match flap_dampening_until self with Some until => now <? until | None => false end.

Definition sign_declaration (self : TreeState) (identity_addr : NodeAddr)
    (identity_sign : list Z → list Z) : outcome TreeError TreeState :=
  decl ← ParentDeclaration.sign (my_declaration self) identity_addr identity_sign;
  Ok (set_position self decl (my_coords self) (root self)).

(** Greedy routing compares distances, then addresses. *)
Definition closer (x y : NodeAddr * Z) : bool :=
  (x.2 <? y.2) || ((x.2 =? y.2) && (x.1 <? y.1)).

Section iteration.
Context (ord : MapOrder NodeAddr TreeCoordinate).

Definition smallest_visible_root (self : TreeState) : option NodeAddr :=
  foldl (λ smallest pc,
    let peer_root := TreeCoordinate.root_id pc.2 in
    Some (match smallest with
          | None => peer_root
          | Some current => if peer_root <? current then peer_root else current
          end)) None (map_iter ord (peer_ancestry self)).

Definition should_be_root (self : TreeState) : bool :=
  match smallest_visible_root self with
  | Some sr => negb (leaf_only self) && (my_node_addr self <=? sr)
  | None => true
  end.

Definition find_next_hop (self : TreeState) (dest_coords : TreeCoordinate) : option NodeAddr :=
  if negb (TreeCoordinate.root_id (my_coords self) =? TreeCoordinate.root_id dest_coords)
  then None
  else
    let my_distance := TreeCoordinate.distance_to (my_coords self) dest_coords in
    let best :=
      foldl (λ best pc,
        let distance := TreeCoordinate.distance_to pc.2 dest_coords in
        let dominated :=
          match best with
          | None => true
          | Some b => (distance <? b.2) || ((distance =? b.2) && (pc.1 <? b.1))
          end in
        if dominated then Some (pc.1, distance) else best)
        None (map_iter ord (peer_ancestry self)) in
    match best with
    | Some (peer_id, distance) => if distance <? my_distance then Some peer_id else None
    | None => None
    end.

Section costs.
Context (peer_costs : gmap NodeAddr f64).

(** The measured cost; 1.0 only while nothing is measured. *)
Definition candidate_cost (p : NodeAddr) : option f64 :=
  match peer_costs !! p with
  | Some c => Some c
  | None => if bool_decide (peer_costs = ∅) then Some f64_one else None
  end.

Definition best_candidate (self : TreeState) (smallest_root : NodeAddr) : option (NodeAddr * f64) :=
  foldl (λ best pc,
    if negb (TreeCoordinate.root_id pc.2 =? smallest_root) then best
    else if TreeCoordinate.contains pc.2 (my_node_addr self) then best
    else match candidate_cost pc.1 with
         | None => best
         | Some cost =>
             let eff_depth := f64_add (f64_of_Z (TreeCoordinate.depth pc.2)) cost in
             match best with
             | None => Some (pc.1, eff_depth)
             | Some b =>
                 if f64_ltb eff_depth b.2 || (f64_eqb eff_depth b.2 && (pc.1 <? b.1))
                 then Some (pc.1, eff_depth)
                 else best
             end
         end) None (map_iter ord (peer_ancestry self)).

Definition evaluate_parent (self : TreeState) (now : Z) : option NodeAddr :=
  if bool_decide (peer_ancestry self = ∅) then None
  else
    smallest_root ← smallest_visible_root self;
    if negb (leaf_only self) && (my_node_addr self <=? smallest_root) then None
    else
      '(best_peer_id, best_eff_depth) ← best_candidate self smallest_root;
      let parent := ParentDeclaration.parent_id (my_declaration self) in
      if (parent =? best_peer_id) && negb (is_root self) then None
      else if negb (is_root self) && negb (bool_decide (is_Some (peer_ancestry self !! parent)))
      then Some best_peer_id
      else if (smallest_root <? root self)
              || (is_root self && (smallest_root <? my_node_addr self))
      then Some best_peer_id
      else if is_root self then Some best_peer_id
      else if negb (hold_down self =? 0)
              && match last_parent_switch self with
                 | Some last => sat_sub now last <? hold_down self
                 | None => false
                 end
      then None
      else if is_flap_dampened self now then None
      else
        let current_parent_cost :=
          match peer_costs !! parent with
          | Some c => c
          | None => if bool_decide (peer_costs = ∅) then f64_one else f64_infinity
          end in
        match peer_ancestry self !! parent with
        | None => Some best_peer_id
        | Some coords =>
            let current_parent_eff :=
              f64_add (f64_of_Z (TreeCoordinate.depth coords)) current_parent_cost in
            if f64_ltb best_eff_depth
                 (f64_mul current_parent_eff (f64_sub f64_one (parent_hysteresis self)))
            then Some best_peer_id
            else None
        end.

Definition handle_parent_lost (self : TreeState) (ts now : Z) : TreeState * bool :=
  let new_seq := wrap_u64 (ParentDeclaration.sequence (my_declaration self) + 1) in
  match evaluate_parent self now with
  | Some new_parent => (recompute_coords (set_parent self new_parent new_seq ts now).1, true)
  | None =>
      (recompute_coords
         (set_position self (ParentDeclaration.self_root (my_node_addr self) new_seq ts)
            (my_coords self) (root self)), true)
  end.
End costs.
End iteration.

End TreeState.

(** ** Selection loops *)

Section selection.
Import TreeState.

(** [r] is the least root among the peers' ancestries. *)
Definition least_root (self : TreeState) (r : option NodeAddr) : Prop :=
  match r with
  | None => peer_ancestry self = ∅
  | Some r => (∃ p c, peer_ancestry self !! p = Some c ∧ TreeCoordinate.root_id c = r)
              ∧ ∀ p c, peer_ancestry self !! p = Some c → r ≤ TreeCoordinate.root_id c
  end.

Lemma root_scan (l : list (NodeAddr * TreeCoordinate)) :
  match foldl (λ smallest pc,
    Some (match smallest with
          | None => TreeCoordinate.root_id pc.2
          | Some current => if TreeCoordinate.root_id pc.2 <? current
                            then TreeCoordinate.root_id pc.2 else current
          end)) None l with
  | None => l = []
  | Some r => (∃ p c, (p, c) ∈ l ∧ TreeCoordinate.root_id c = r)
              ∧ ∀ p c, (p, c) ∈ l → r ≤ TreeCoordinate.root_id c
  end.
Proof.
  induction l as [|[p c] l IH] using rev_ind; [done|].
  rewrite foldl_app. cbn [foldl]. destruct (foldl _ None l) as [r|]; cbn [snd].
  - destruct IH as [(q & d & Hin & Hr) Hmin].
    destruct (Z.ltb_spec (TreeCoordinate.root_id c) r) as [Hlt|Hge].
    + split; [exists p, c; set_solver|].
      intros q' d' [Hin'|Heq%list_elem_of_singleton]%elem_of_app; [|by simplify_eq].
      specialize (Hmin _ _ Hin'). lia.
    + split; [exists q, d; set_solver|].
      intros q' d' [Hin'|Heq%list_elem_of_singleton]%elem_of_app; [by eapply Hmin|by simplify_eq].
  - subst l. split; [exists p, c; set_solver|].
    intros q d Hin%list_elem_of_singleton. by simplify_eq.
Qed.

Lemma smallest_visible_root_spec ord self : least_root self (smallest_visible_root ord self).
Proof.
  pose proof (root_scan (map_iter ord (peer_ancestry self))) as Hs.
  unfold smallest_visible_root, least_root. destruct (foldl _ None _) as [r|].
  - destruct Hs as [(p & c & Hin%elem_of_map_iter & Hr) Hmin]. split; [by eauto|].
    intros q d Hq. eapply Hmin. by apply elem_of_map_iter.
  - by apply map_iter_nil in Hs.
Qed.

Lemma least_root_unique self r r' : least_root self r → least_root self r' → r = r'.
Proof.
  destruct r as [r|], r' as [r'|]; simpl; [|intros [(p&c&Hp&_) _] He|intros He [(p&c&Hp&_) _]|done].
  - intros [(p & c & Hp & Hr) Hmin] [(p' & c' & Hp' & Hr') Hmin'].
    specialize (Hmin _ _ Hp'). specialize (Hmin' _ _ Hp). f_equal. lia.
  - by rewrite He in Hp.
  - by rewrite He in Hp.
Qed.

Lemma smallest_visible_root_order ord ord' self :
  smallest_visible_root ord self = smallest_visible_root ord' self.
Proof. eapply least_root_unique; apply smallest_visible_root_spec. Qed.

(** *** Next hop *)

Lemma closer_true x y : closer x y = true ↔ x.2 < y.2 ∨ (x.2 = y.2 ∧ x.1 < y.1).
Proof. unfold closer. rewrite orb_true_iff, andb_true_iff, Z.eqb_eq, !Z.ltb_lt. done. Qed.

Lemma closer_false x y : closer x y = false ↔ y.2 < x.2 ∨ (y.2 = x.2 ∧ y.1 ≤ x.1).
Proof. rewrite <- not_true_iff_false, closer_true. lia. Qed.

Lemma closest_spec l :
  match foldl (keep_best closer) None l with
  | None => l = []
  | Some m => m ∈ l ∧ ∀ x, x ∈ l → closer x m = false
  end.
Proof.
  apply keep_best_spec.
  - intros x _. apply closer_false. lia.
  - intros x y z _ _ _. rewrite !closer_true. lia.
Qed.

(** A peer with its distance to the destination. *)
Definition hop_to (dest : TreeCoordinate) (pc : NodeAddr * TreeCoordinate) : NodeAddr * Z :=
  (pc.1, TreeCoordinate.distance_to pc.2 dest).

Lemma hop_scan dest (l : list (NodeAddr * TreeCoordinate)) :
  foldl (λ best pc,
    let distance := TreeCoordinate.distance_to pc.2 dest in
    let dominated :=
      match best with
      | None => true
      | Some b => (distance <? b.2) || ((distance =? b.2) && (pc.1 <? b.1))
      end in
    if dominated then Some (pc.1, distance) else best) None l
  = foldl (keep_best closer) None (hop_to dest <$> l).
Proof.
  generalize (None : option (NodeAddr * Z)). induction l as [|pc l IH]; intros b; [done|].
  rewrite fmap_cons. cbn [foldl]. rewrite IH. f_equal. unfold keep_best, closer. by destruct b.
Qed.

(** The chosen next hop: a peer strictly closer than we are, and the best such by
    distance and then address. *)
Definition is_next_hop (self : TreeState) (dest : TreeCoordinate) (p : NodeAddr) : Prop :=
  TreeCoordinate.root_id (my_coords self) = TreeCoordinate.root_id dest
  ∧ ∃ c, peer_ancestry self !! p = Some c
    ∧ TreeCoordinate.distance_to c dest < TreeCoordinate.distance_to (my_coords self) dest
    ∧ ∀ q d, peer_ancestry self !! q = Some d →
        closer (q, TreeCoordinate.distance_to d dest) (p, TreeCoordinate.distance_to c dest) = false.

Lemma find_next_hop_spec ord self dest :
  match find_next_hop ord self dest with
  | Some p => is_next_hop self dest p
  | None => ∀ p c, TreeCoordinate.root_id (my_coords self) = TreeCoordinate.root_id dest →
      peer_ancestry self !! p = Some c →
      TreeCoordinate.distance_to (my_coords self) dest ≤ TreeCoordinate.distance_to c dest
  end.
Proof.
  unfold find_next_hop.
  destruct (Z.eqb_spec (TreeCoordinate.root_id (my_coords self)) (TreeCoordinate.root_id dest))
    as [Hr|Hr]; simpl; [|by intros]. rewrite hop_scan.
  pose proof (closest_spec (hop_to dest <$> map_iter ord (peer_ancestry self))) as Hs.
  destruct (foldl _ None _) as [[p dist]|].
  - destruct Hs as [Hin Hmin]. apply list_elem_of_fmap in Hin as ([p' c] & Heq & Hin).
    unfold hop_to in Heq. simplify_eq/=. apply elem_of_map_iter in Hin.
    assert (Hall : ∀ q d, peer_ancestry self !! q = Some d →
      closer (q, TreeCoordinate.distance_to d dest) (p', TreeCoordinate.distance_to c dest) = false).
    { intros q d Hq. apply Hmin, list_elem_of_fmap. exists (q, d). split; [done|].
      by apply elem_of_map_iter. }
    destruct (Z.ltb_spec (TreeCoordinate.distance_to c dest)
      (TreeCoordinate.distance_to (my_coords self) dest)).
    + split; [done|]. eauto.
    + intros q d _ Hq. specialize (Hall _ _ Hq). apply closer_false in Hall. simpl in Hall. lia.
  - apply fmap_nil_inv, map_iter_nil in Hs. intros p c _ Hp. by rewrite Hs in Hp.
Qed.

Lemma is_next_hop_unique self dest p q : is_next_hop self dest p → is_next_hop self dest q → p = q.
Proof.
  intros (_ & c & Hp & _ & Hmin) (_ & d & Hq & _ & Hmin').
  specialize (Hmin _ _ Hq). specialize (Hmin' _ _ Hp).
  apply closer_false in Hmin, Hmin'. simpl in *. lia.
Qed.

Lemma find_next_hop_iff ord self dest p :
  find_next_hop ord self dest = Some p ↔ is_next_hop self dest p.
Proof.
  pose proof (find_next_hop_spec ord self dest) as Hs. split; [intros Hf; by rewrite Hf in Hs|].
  intros Hp. destruct (find_next_hop ord self dest) as [q|].
  - f_equal. by eapply is_next_hop_unique.
  - destruct Hp as (Hr & c & Hp & Hlt & _). specialize (Hs p c Hr Hp). lia.
Qed.

(** *** Parent candidates *)

(** What the candidate scan reads of a peer: its effective depth if it is eligible. *)
Definition candidate (peer_costs : gmap NodeAddr f64) (self : TreeState) (r : NodeAddr)
    (pc : NodeAddr * TreeCoordinate) : option (NodeAddr * f64) :=
  if negb (TreeCoordinate.root_id pc.2 =? r) then None
  else if TreeCoordinate.contains pc.2 (my_node_addr self) then None
  else (λ cost, (pc.1, f64_add (f64_of_Z (TreeCoordinate.depth pc.2)) cost))
       <$> candidate_cost peer_costs pc.1.

Lemma candidate_scan ord peer_costs self r :
  best_candidate ord peer_costs self r =
  foldl (keep_best f64_better) None
    (omap (candidate peer_costs self r) (map_iter ord (peer_ancestry self))).
Proof.
  rewrite <- foldl_omap. unfold best_candidate. generalize (None : option (NodeAddr * f64)).
  induction (map_iter ord (peer_ancestry self)) as [|pc l IH]; intros b; [done|].
  cbn [foldl]. rewrite IH. f_equal. unfold candidate, keep_best, f64_better.
  destruct (negb _); [done|]. destruct (TreeCoordinate.contains _ _); [done|].
  destruct (candidate_cost _ _); simpl; [|done]. by destruct b.
Qed.

Lemma elem_of_candidates ord peer_costs self r x :
  x ∈ omap (candidate peer_costs self r) (map_iter ord (peer_ancestry self)) ↔
  ∃ c, peer_ancestry self !! x.1 = Some c ∧ candidate peer_costs self r (x.1, c) = Some x.
Proof.
  rewrite list_elem_of_omap. split.
  - intros ([p c] & Hin%elem_of_map_iter & Hc). assert (x.1 = p) as Hp.
    { unfold candidate in Hc. destruct (negb _); [done|]. destruct (TreeCoordinate.contains _ _); [done|].
      destruct (candidate_cost _ _); simplify_eq/=. done. }
    subst p. eauto.
  - intros (c & Hp & Hc). exists (x.1, c). split; [by apply elem_of_map_iter|done].
Qed.

Lemma best_candidate_elem ord peer_costs self r x :
  best_candidate ord peer_costs self r = Some x →
  ∃ c, peer_ancestry self !! x.1 = Some c ∧ candidate peer_costs self r (x.1, c) = Some x.
Proof.
  rewrite candidate_scan. intros Hf. apply (elem_of_candidates ord). revert Hf.
  set (l := omap _ _). clearbody l. clear -x.
  assert (Hgen : ∀ l b, foldl (keep_best f64_better) b l = Some x → b = Some x ∨ x ∈ l).
  { clear. intros l. induction l as [|y l IH]; intros b; simpl; [by left|].
    intros [Hk|Hin]%IH; [|right; by right]. destruct b as [b|]; simpl in Hk.
    - destruct (f64_better y b); simplify_eq; [right; left|by left].
    - simplify_eq. right. left. }
  intros [Hb|Hin]%Hgen; [done|done].
Qed.

End selection.

(** ** The protocol a node runs on its tree state

    One constructor per place in [node/tree.rs] that changes the state: a
    validated announcement from a peer, a switch to the recommended parent, a
    refresh of the current parent's ancestry, promotion to root, the reaction to
    a looping parent, the removal of a peer, a change of the leaf role, a
    signature, and configuration. The relation allows them in any order. *)
Module TreeProtocol.
Import TreeState.
Import ParentDeclaration (ParentDeclaration).

Definition next_seq (self : TreeState) : Z :=
  wrap_u64 (ParentDeclaration.sequence (my_declaration self) + 1).

(** [set_parent] then [recompute_coords]. *)
Definition switch_parent (self : TreeState) (p : NodeAddr) (seq ts now : Z) : TreeState :=
  recompute_coords (set_parent self p seq ts now).1.

(** [handle_peer_removal_tree_cleanup]. *)
Definition peer_removed (ord : MapOrder NodeAddr TreeCoordinate) (costs : gmap NodeAddr f64)
    (self : TreeState) (p : NodeAddr) (ts now : Z) : TreeState * bool :=
  let was_parent :=
    negb (is_root self) && (ParentDeclaration.parent_id (my_declaration self) =? p) in
  let self := remove_peer self p in
  if was_parent then handle_parent_lost ord costs self ts now else (self, false).

(** [refresh_client_role] once the role changed: a client follows a router at once. *)
Definition role_changed (ord : MapOrder NodeAddr TreeCoordinate) (costs : gmap NodeAddr f64)
    (self : TreeState) (client : bool) (ts ts' now : Z) : TreeState :=
  let self := advance_role_declaration (set_leaf_only self client) ts in
  if client then
    match evaluate_parent ord costs self now with
    | Some p =>
        switch_parent self p (ParentDeclaration.sequence (my_declaration self)) ts' now
    | None => self
    end
  else self.

Inductive tree_step (self : TreeState) : TreeState → Prop :=
| step_announce decl ancestry :
    ancestry ≠ [] →
    TreeAnnounce.validate_semantics (TreeAnnounce.mkTreeAnnounce decl ancestry) = Ok tt →
    tree_step self (update_peer self decl ancestry).1
| step_switch ord costs p ts now :
    evaluate_parent ord costs self now = Some p →
    tree_step self (switch_parent self p (next_seq self) ts now)
| step_refresh p c ts now :
    is_root self = false →
    ParentDeclaration.parent_id (my_declaration self) = p →
    peer_ancestry self !! p = Some c →
    TreeCoordinate.contains c (my_node_addr self) = false →
    tree_step self (switch_parent self p (next_seq self) ts now)
| step_promote ord ts :
    is_root self = false → should_be_root ord self = true →
    tree_step self (become_root self ts)
| step_loop ord costs ts now :
    tree_step self (handle_parent_lost ord costs self ts now).1
| step_remove ord costs p ts now :
    tree_step self (peer_removed ord costs self p ts now).1
| step_role ord costs client ts ts' now :
    tree_step self (role_changed ord costs self client ts ts' now)
| step_sign addr sign self' :
    sign_declaration self addr sign = Ok self' →
    tree_step self self'
| step_hysteresis h : tree_step self (set_parent_hysteresis self h)
| step_hold_down secs : tree_step self (set_hold_down self secs)
| step_flap t w d : tree_step self (set_flap_dampening self t w d).

Inductive tree_reachable (me : NodeAddr) : TreeState → Prop :=
| reach_new ts : tree_reachable me (new me ts)
| reach_step self self' : tree_reachable me self → tree_step self self' → tree_reachable me self'.

End TreeProtocol.

(** ** The protocol invariant *)

Section invariant.
Import TreeState TreeProtocol.
Import ParentDeclaration (ParentDeclaration).

(** A path whose last entry is its least. *)
Definition rooted (c : TreeCoordinate) : Prop :=
  c ≠ [] ∧ ∀ a, a ∈ TreeCoordinate.node_addrs c → TreeCoordinate.root_id c ≤ a.

Definition peers_valid (self : TreeState) : Prop :=
  map_Forall (λ p c, rooted c ∧ TreeCoordinate.node_addr c = p) (peer_ancestry self).

(** The node's position follows its declaration. *)
Definition position_ok (self : TreeState) : Prop :=
  if ParentDeclaration.is_root (my_declaration self)
  then (∃ e, my_coords self = [e] ∧ entry_addr e = my_node_addr self)
       ∧ root self = my_node_addr self
  else ∃ e rest, my_coords self = e :: rest ∧ entry_addr e = my_node_addr self
       ∧ rooted rest
       ∧ TreeCoordinate.node_addr rest = ParentDeclaration.parent_id (my_declaration self)
       ∧ root self = TreeCoordinate.root_id rest
       ∧ (leaf_only self = false → root self ≤ my_node_addr self).

Record tree_inv (me : NodeAddr) (self : TreeState) : Prop := {
  inv_me : my_node_addr self = me;
  inv_decl : ParentDeclaration.node_addr (my_declaration self) = me;
  inv_peers : peers_valid self;
  inv_position : position_ok self;
  inv_parent : ParentDeclaration.is_root (my_declaration self) = false →
    is_Some (peer_ancestry self !! ParentDeclaration.parent_id (my_declaration self))
    ∨ root self = me
}.

Lemma path_min_spec x l :
  TreeAnnounce.path_min (x :: l) ∈ x :: l ∧ ∀ a, a ∈ x :: l → TreeAnnounce.path_min (x :: l) ≤ a.
Proof.
  simpl. revert x. induction l as [|y l IH]; intros x; simpl.
  { split; [left|]. by intros a ->%list_elem_of_singleton. }
  destruct (IH (Z.min x y)) as [Hin Hmin]. split.
  - apply elem_of_cons in Hin as [->|Hin]; [|by do 2 right].
    destruct (Z.min_spec x y) as [[_ ->]|[_ ->]]; [left|right; left].
  - pose proof (Hmin (Z.min x y) ltac:(left)).
    intros a [->|[->|Ha]%elem_of_cons]%elem_of_cons; [lia|lia|]. apply Hmin. by right.
Qed.

Lemma root_id_elem c : c ≠ [] → TreeCoordinate.root_id c ∈ TreeCoordinate.node_addrs c.
Proof.
  intros Hc. unfold TreeCoordinate.root_id. destruct c as [|e c] using rev_ind; [done|].
  rewrite last_snoc. unfold TreeCoordinate.node_addrs. rewrite fmap_app. set_solver.
Qed.

Lemma root_id_cons e c : c ≠ [] → TreeCoordinate.root_id (e :: c) = TreeCoordinate.root_id c.
Proof. by destruct c. Qed.

Lemma rooted_min c : c ≠ [] →
  TreeCoordinate.root_id c = TreeAnnounce.path_min (TreeCoordinate.node_addrs c) ↔ rooted c.
Proof.
  intros Hc. pose proof (root_id_elem c Hc) as Hr. unfold rooted.
  destruct (TreeCoordinate.node_addrs c) as [|x l] eqn:Hl; [by destruct c|].
  destruct (path_min_spec x l) as [Hin Hmin]. split.
  - intros ->. done.
  - intros [_ Hall]. specialize (Hall _ Hin). specialize (Hmin _ Hr). lia.
Qed.

(** An accepted announcement describes a rooted path of its sender. *)
Lemma validate_rooted decl c : c ≠ [] →
  TreeAnnounce.validate_semantics (TreeAnnounce.mkTreeAnnounce decl c) = Ok tt →
  rooted c ∧ TreeCoordinate.node_addr c = ParentDeclaration.node_addr decl.
Proof.
  intros Hc. unfold TreeAnnounce.validate_semantics. simpl.
  destruct (Z.eqb_spec (TreeCoordinate.node_addr c) (ParentDeclaration.node_addr decl));
    simpl; [|done].
  intros Hv. split; [|done]. apply rooted_min; [done|].
  destruct (if ParentDeclaration.is_root decl then _ else _) as [[]| |]; simpl in Hv; try done.
  by destruct (Z.eqb_spec (TreeCoordinate.root_id c)
    (TreeAnnounce.path_min (TreeCoordinate.node_addrs c))).
Qed.

Lemma switch_frame self p seq ts now :
  let self' := (set_parent self p seq ts now).1 in
  my_node_addr self' = my_node_addr self ∧ leaf_only self' = leaf_only self
  ∧ my_declaration self' = ParentDeclaration.new (my_node_addr self) p seq ts
  ∧ my_coords self' = my_coords self ∧ root self' = root self
  ∧ peer_ancestry self' = peer_ancestry self.
Proof.
  unfold set_parent. destruct (_ || _); [|done]. unfold record_parent_switch.
  destruct (flap_window_start _); [destruct (_ <? _)|]; (destruct (flap_dampening_until _); [done|]);
    by destruct (_ <=? _).
Qed.

(** Recomputing restores the position, whenever the parent is known. *)
Lemma recompute_inv me self :
  my_node_addr self = me → ParentDeclaration.node_addr (my_declaration self) = me →
  peers_valid self →
  ParentDeclaration.is_root (my_declaration self) = true
  ∨ is_Some (peer_ancestry self !! ParentDeclaration.parent_id (my_declaration self))
  ∨ (position_ok self ∧ root self = me) →
  tree_inv me (recompute_coords self).
Proof.
  intros Hme Hdecl Hpeers Hcase. unfold recompute_coords.
  destruct (ParentDeclaration.is_root (my_declaration self)) eqn:Hroot.
  { split; try done; [|simpl; congruence]. unfold position_ok. simpl. rewrite Hroot. eauto. }
  destruct (peer_ancestry self !! _) as [c|] eqn:Hc.
  - destruct (Hpeers _ _ Hc) as [Hrooted Hhead]. pose proof Hrooted as [Hne Hmin].
    destruct (negb (leaf_only self) && _) eqn:Hdem.
    + split; try done; unfold position_ok; simpl; unfold ParentDeclaration.is_root; simpl;
        rewrite Z.eqb_refl; [eauto|done].
    + split; try done; [|simpl; intros _; left; by rewrite Hc].
      unfold position_ok. simpl. rewrite Hroot.
      eexists _, c. split; [done|]. split; [done|]. split; [done|]. split; [done|].
      rewrite root_id_cons by done. split; [done|]. intros Hleaf. rewrite Hleaf in Hdem. simpl in Hdem.
      apply Z.leb_gt in Hdem. lia.
  - destruct Hcase as [?|[[? ?]|[Hpos Hr]]]; [congruence|congruence|]. split; try done. auto.
Qed.

Lemma evaluate_sound ord costs self now p : evaluate_parent ord costs self now = Some p →
  ∃ c, peer_ancestry self !! p = Some c
    ∧ (∀ q d, peer_ancestry self !! q = Some d → TreeCoordinate.root_id c ≤ TreeCoordinate.root_id d)
    ∧ TreeCoordinate.contains c (my_node_addr self) = false
    ∧ (leaf_only self = false → TreeCoordinate.root_id c < my_node_addr self).
Proof.
  unfold evaluate_parent. case_bool_decide; [done|].
  pose proof (smallest_visible_root_spec ord self) as Hs.
  destruct (smallest_visible_root ord self) as [r|]; simpl; [|done]. destruct Hs as [_ Hmin].
  destruct (negb (leaf_only self) && _) eqn:Hleaf; [done|].
  destruct (best_candidate ord costs self r) as [[b eff]|] eqn:Hb; simpl; [|done]. intros Hp.
  assert (p = b) as -> by (repeat case_match; simplify_eq; done).
  apply best_candidate_elem in Hb as (c & Hc & Hcand). simpl in Hc, Hcand. exists c.
  unfold candidate in Hcand. simpl in Hcand.
  destruct (Z.eqb_spec (TreeCoordinate.root_id c) r) as [Hr|]; simpl in Hcand; [|done].
  destruct (TreeCoordinate.contains c (my_node_addr self)); [done|].
  split; [done|]. split; [intros q d Hq; rewrite Hr; by eapply Hmin|]. split; [done|].
  intros Hl. rewrite Hl in Hleaf. simpl in Hleaf. apply Z.leb_gt in Hleaf. lia.
Qed.

(** What every step keeps, and what suffices to recompute a position from. *)
Definition tree_base (me : NodeAddr) (self : TreeState) : Prop :=
  my_node_addr self = me ∧ ParentDeclaration.node_addr (my_declaration self) = me
  ∧ peers_valid self.

Lemma tree_inv_base me self : tree_inv me self → tree_base me self.
Proof. by intros []. Qed.

Lemma switch_inv me self p c seq ts now :
  tree_base me self → peer_ancestry self !! p = Some c →
  tree_inv me (switch_parent self p seq ts now).
Proof.
  intros (Hme & Hdecl & Hpeers) Hp.
  destruct (switch_frame self p seq ts now) as (Hme' & Hleaf & Hd & Hco & Hr & Hpa).
  unfold switch_parent. apply recompute_inv.
  - by rewrite Hme'.
  - by rewrite Hd.
  - unfold peers_valid. by rewrite Hpa.
  - right. left. rewrite Hd, Hpa. simpl. eauto.
Qed.

Lemma self_root_inv me self seq ts : tree_base me self →
  tree_inv me (recompute_coords (set_position self
    (ParentDeclaration.self_root (my_node_addr self) seq ts) (my_coords self) (root self))).
Proof.
  intros (Hme & Hdecl & Hpeers). apply recompute_inv; [done..|]. left.
  unfold ParentDeclaration.is_root. simpl. apply Z.eqb_refl.
Qed.

Lemma parent_lost_inv me ord costs self ts now : tree_base me self →
  tree_inv me (handle_parent_lost ord costs self ts now).1.
Proof.
  intros Hbase. unfold handle_parent_lost. destruct (evaluate_parent _ _ _ _) as [p|] eqn:He.
  - apply evaluate_sound in He as (c & Hc & _). by eapply switch_inv.
  - by apply self_root_inv.
Qed.

Lemma remove_inv me self p : tree_inv me self →
  negb (is_root self) && (ParentDeclaration.parent_id (my_declaration self) =? p) = false →
  tree_inv me (remove_peer self p).
Proof.
  intros [Hme Hd Hp Hpos Hpar] Hnp. split; try done.
  - by apply map_Forall_delete.
  - intros Hr. simpl in *. unfold is_root in Hnp. rewrite Hme in Hnp.
    destruct (Z.eqb_spec (root self) me) as [|]; [by right|]. simpl in Hnp. left.
    destruct (Hpar Hr) as [Hs|]; [|done]. apply Z.eqb_neq in Hnp. by rewrite lookup_delete_ne.
Qed.

Lemma removed_inv me ord costs self p ts now : tree_inv me self →
  tree_inv me (peer_removed ord costs self p ts now).1.
Proof.
  intros Hinv. unfold peer_removed. destruct (_ && _) eqn:Hp; [|by apply remove_inv].
  apply parent_lost_inv. destruct Hinv as [Hme Hd Hpv _ _]. split_and!; [done|done|].
  by apply map_Forall_delete.
Qed.

Lemma role_inv me ord costs self client ts ts' now : tree_inv me self →
  tree_inv me (role_changed ord costs self client ts ts' now).
Proof.
  intros [Hme Hd Hpv Hpos Hpar].
  assert (Hadv : tree_inv me (advance_role_declaration (set_leaf_only self client) ts)).
  { apply recompute_inv; [done|done|done|]. unfold ParentDeclaration.is_root at 1. simpl.
    unfold ParentDeclaration.is_root in Hpar. rewrite Hd in Hpar.
    destruct (Z.eqb_spec me (ParentDeclaration.parent_id (my_declaration self))) as [He|He];
      [left; rewrite Hme; by apply Z.eqb_eq|].
    right. destruct (Hpar eq_refl) as [Hs|Hr]; [by left|]. right. split; [|done].
    unfold position_ok in *. simpl. unfold ParentDeclaration.is_root in *. simpl.
    rewrite Hd in Hpos. rewrite Hme. rewrite (proj2 (Z.eqb_neq _ _) He) in *.
    destruct Hpos as (e & rest & ? & ? & ? & ? & ? & _). exists e, rest. split_and!; try done; [congruence|].
    intros _. lia. }
  unfold role_changed. destruct client; [|done].
  destruct (evaluate_parent _ _ _ _) as [p|] eqn:He; [|done].
  apply evaluate_sound in He as (c & Hc & _). eapply switch_inv; [by apply tree_inv_base|done].
Qed.

Lemma announce_inv me self decl c : tree_inv me self → c ≠ [] →
  TreeAnnounce.validate_semantics (TreeAnnounce.mkTreeAnnounce decl c) = Ok tt →
  tree_inv me (update_peer self decl c).1.
Proof.
  intros [Hme Hd Hpv Hpos Hpar] Hc Hv. destruct (validate_rooted decl c Hc Hv) as [Hr Ha].
  assert (Hset : tree_inv me (set_peers self
    (<[ParentDeclaration.node_addr decl := decl]> (peer_declarations self))
    (<[ParentDeclaration.node_addr decl := c]> (peer_ancestry self)))).
  { split; try done; [by apply map_Forall_insert_2|]. intros Hnr.
    destruct (Hpar Hnr) as [Hs|]; [left|by right]. simpl.
    destruct (decide (ParentDeclaration.node_addr decl = ParentDeclaration.parent_id (my_declaration self)))
      as [->|]; [rewrite lookup_insert_eq; eauto|by rewrite lookup_insert_ne]. }
  unfold update_peer. destruct (peer_declarations self !! _); [|done]. by destruct (negb _).
Qed.

Lemma sign_inv me self addr sign self' : tree_inv me self →
  sign_declaration self addr sign = Ok self' → tree_inv me self'.
Proof.
  intros [Hme Hd Hpv Hpos Hpar]. unfold sign_declaration, ParentDeclaration.sign.
  destruct (negb _); simpl; [done|]. intros [= <-]. split; done.
Qed.

Lemma new_tree_inv me ts : tree_inv me (new me ts).
Proof.
  split; try done; unfold position_ok, ParentDeclaration.is_root; simpl; rewrite Z.eqb_refl;
    [eauto|done].
Qed.

Lemma step_tree_inv me self self' : tree_inv me self → tree_step self self' → tree_inv me self'.
Proof.
  intros Hinv Hstep. pose proof (tree_inv_base me self Hinv) as Hbase. destruct Hstep.
  - by apply announce_inv.
  - edestruct evaluate_sound as (c & Hc & _); [done|]. by eapply switch_inv.
  - by eapply switch_inv.
  - by apply self_root_inv.
  - by apply parent_lost_inv.
  - by apply removed_inv.
  - by apply role_inv.
  - by eapply sign_inv.
  - destruct Hinv. split; done.
  - destruct Hinv. split; done.
  - destruct Hinv. split; done.
Qed.

Lemma reachable_inv me self : tree_reachable me self → tree_inv me self.
Proof. induction 1; [apply new_tree_inv|by eapply step_tree_inv]. Qed.

Lemma inv_announce_valid me self : tree_inv me self → leaf_only self = false →
  TreeAnnounce.validate_semantics
    (TreeAnnounce.mkTreeAnnounce (my_declaration self) (my_coords self)) = Ok tt.
Proof.
  intros [Hme Hd Hpv Hpos _] Hleaf. unfold position_ok in Hpos. unfold TreeAnnounce.validate_semantics.
  cbn [TreeAnnounce.declaration TreeAnnounce.ancestry].
  destruct (ParentDeclaration.is_root (my_declaration self)).
  - destruct Hpos as [(e & -> & He) Hr]. cbn. by rewrite He, Hme, Hd, !Z.eqb_refl.
  - destruct Hpos as (e & rest & -> & He & Hrooted & Hpar & Hr & Hle). pose proof Hrooted as [Hne Hmin].
    assert (Hroot : rooted (e :: rest)).
    { split; [done|]. rewrite root_id_cons by done. simpl. intros a [->|Ha]%elem_of_cons; [|auto].
      rewrite He, <- Hr. by apply Hle. }
    simpl TreeCoordinate.node_addr. rewrite He, Hme, Hd, Z.eqb_refl. cbn [negb].
    destruct rest as [|p rest]; [done|]. cbn [lookup list_lookup].
    simpl in Hpar. simpl entry_addr. change ((e :: p :: rest) !! 1%nat) with (Some p).
    cbn iota. rewrite Hpar, Z.eqb_refl. cbn [negb mbind outcome_bind].
    apply rooted_min in Hroot; [|done]. by rewrite Hroot, Z.eqb_refl.
Qed.

End invariant.

Section candidates.
Import TreeState TreeProtocol.

(** Every eligible candidate's effective depth is a number. *)
Definition depths_are_numbers (costs : gmap NodeAddr f64) (self : TreeState) (r : NodeAddr) : Prop :=
  ∀ p c x, peer_ancestry self !! p = Some c → candidate costs self r (p, c) = Some x →
    is_nan x.2 = false.

Lemma best_candidate_spec ord costs self r : depths_are_numbers costs self r →
  match best_candidate ord costs self r with
  | None => ∀ p c, peer_ancestry self !! p = Some c → candidate costs self r (p, c) = None
  | Some b => ∀ p c x, peer_ancestry self !! p = Some c →
      candidate costs self r (p, c) = Some x → f64_better x b = false
  end.
Proof.
  intros Hnum. rewrite candidate_scan.
  set (l := omap (candidate costs self r) (map_iter ord (peer_ancestry self))).
  assert (Hl : ∀ x, x ∈ l → is_nan x.2 = false).
  { intros x (c & Hc & Hx)%elem_of_candidates. by eapply Hnum. }
  assert (Hin : ∀ p c x, peer_ancestry self !! p = Some c →
    candidate costs self r (p, c) = Some x → x ∈ l).
  { intros p c x Hp Hx. unfold l. rewrite list_elem_of_omap. exists (p, c).
    split; [by apply elem_of_map_iter|done]. }
  pose proof (keep_best_spec f64_better l) as Hs. destruct (foldl _ None l) as [b|].
  - destruct Hs as [_ Hmin]; [|by eauto using f64_better_trans|by eauto].
    eauto using f64_better_irrefl.
  - rewrite Hs in Hin; [|by eauto using f64_better_irrefl|by eauto using f64_better_trans].
    intros p c Hp. destruct (candidate costs self r (p, c)) as [x|] eqn:Hx; [|done].
    specialize (Hin p c x Hp Hx). set_solver.
Qed.

Lemma best_candidate_order ord ord' costs self r : depths_are_numbers costs self r →
  best_candidate ord costs self r = best_candidate ord' costs self r.
Proof.
  intros Hnum. pose proof (best_candidate_spec ord costs self r Hnum) as H1.
  pose proof (best_candidate_spec ord' costs self r Hnum) as H2.
  destruct (best_candidate ord costs self r) as [b|] eqn:Hb,
    (best_candidate ord' costs self r) as [b'|] eqn:Hb'; [| | |done].
  - apply best_candidate_elem in Hb as (c & Hc & Hx), Hb' as (c' & Hc' & Hx').
    assert (b.1 = b'.1) as Heq by (apply f64_better_total; eauto).
    rewrite Heq in *. congruence.
  - apply best_candidate_elem in Hb as (c & Hc & Hx). rewrite (H2 _ _ Hc) in Hx. done.
  - apply best_candidate_elem in Hb' as (c & Hc & Hx). rewrite (H1 _ _ Hc) in Hx. done.
Qed.

Lemma evaluate_parent_order ord ord' costs self now :
  (∀ r, depths_are_numbers costs self r) →
  evaluate_parent ord costs self now = evaluate_parent ord' costs self now.
Proof.
  intros Hnum. unfold evaluate_parent. rewrite (smallest_visible_root_order ord ord').
  destruct (smallest_visible_root ord' self); [|done]. simpl.
  by rewrite (best_candidate_order ord ord').
Qed.

(** *** The dampening deadline *)

Lemma flap_until_recompute self :
  flap_dampening_until (recompute_coords self) = flap_dampening_until self.
Proof. unfold recompute_coords. by repeat case_match. Qed.

Lemma flap_until_switch self p seq ts now until :
  flap_dampening_until self = Some until →
  flap_dampening_until (switch_parent self p seq ts now) = Some until.
Proof.
  intros Hu. unfold switch_parent. rewrite flap_until_recompute. unfold set_parent.
  destruct (_ || _); [|done]. unfold record_parent_switch. cbn. rewrite Hu. by repeat case_match.
Qed.

Lemma flap_until_lost ord costs self ts now until :
  flap_dampening_until self = Some until →
  flap_dampening_until (handle_parent_lost ord costs self ts now).1 = Some until.
Proof.
  intros Hu. unfold handle_parent_lost. destruct (evaluate_parent _ _ _ _).
  - by apply flap_until_switch.
  - cbn [fst]. by rewrite flap_until_recompute.
Qed.

Lemma flap_until_step self self' until :
  flap_dampening_until self = Some until → tree_step self self' →
  flap_dampening_until self' = Some until.
Proof.
  intros Hu Hstep. destruct Hstep; try done.
  - unfold update_peer. by repeat case_match.
  - by apply flap_until_switch.
  - by apply flap_until_switch.
  - unfold become_root. by rewrite flap_until_recompute.
  - by apply flap_until_lost.
  - unfold peer_removed. destruct (_ && _); [by apply flap_until_lost|done].
  - unfold role_changed. assert (flap_dampening_until
      (advance_role_declaration (set_leaf_only self client) ts) = Some until) as Ha
      by (unfold advance_role_declaration; by rewrite flap_until_recompute).
    destruct client; [|done]. destruct (evaluate_parent _ _ _ _); [by apply flap_until_switch|done].
  - match goal with H : sign_declaration _ _ _ = Ok _ |- _ => revert H end.
    unfold sign_declaration, ParentDeclaration.sign. destruct (negb _); simpl; [done|].
    by intros [= <-].
Qed.

End candidates.

(** ** Properties *)

(** C20: honest announcements are always accepted. Whatever a router hears and in
    whatever order it reacts (validated announcements, parent switches, losses,
    role changes), its declaration and coordinate pass the check every receiver
    makes: own address first, the declared parent second, and the root the least
    address on the path. *)
Theorem tree_announce_always_valid me self :
  TreeProtocol.tree_reachable me self → TreeState.leaf_only self = false →
  TreeAnnounce.validate_semantics
    (TreeAnnounce.mkTreeAnnounce (TreeState.my_declaration self) (TreeState.my_coords self)) = Ok tt
  ∧ TreeCoordinate.node_addr (TreeState.my_coords self) = me
  ∧ TreeState.root self = TreeCoordinate.root_id (TreeState.my_coords self)
  ∧ TreeState.root self ≤ me.
Proof.
  intros Hinv%reachable_inv Hleaf. split; [by apply (inv_announce_valid me)|].
  destruct Hinv as [Hme Hd Hpv Hpos _]. unfold position_ok in Hpos.
  destruct (ParentDeclaration.is_root _).
  - destruct Hpos as [(e & -> & He) Hr]. rewrite Hr. cbn. rewrite He. split_and!; [done..|lia].
  - destruct Hpos as (e & rest & -> & He & [Hne _] & _ & Hr & Hle).
    rewrite root_id_cons by done. cbn. rewrite He, <- Hme. auto.
Qed.

(** The state of node 9 after it heard of node 4 under root 1, and after it followed it. *)
Definition sample_heard : TreeState.TreeState :=
  (TreeState.update_peer (TreeState.new 9 50) (ParentDeclaration.new 4 1 7 100)
     (addr_only <$> [4; 1])).1.

Definition sample_tree : TreeState.TreeState :=
  TreeProtocol.switch_parent sample_heard 4 (TreeProtocol.next_seq sample_heard) 101 0.

Lemma sample_heard_reachable : TreeProtocol.tree_reachable 9 sample_heard.
Proof.
  eapply TreeProtocol.reach_step; [apply (TreeProtocol.reach_new 9 50)|].
  apply TreeProtocol.step_announce; [done|by vm_compute].
Qed.

Lemma sample_tree_reachable : TreeProtocol.tree_reachable 9 sample_tree.
Proof.
  eapply TreeProtocol.reach_step; [apply sample_heard_reachable|].
  apply (TreeProtocol.step_switch _ canonical_order ∅). by vm_compute.
Qed.

Lemma tree_announce_always_valid_witness :
  TreeAnnounce.validate_semantics (TreeAnnounce.mkTreeAnnounce
    (TreeState.my_declaration sample_tree) (TreeState.my_coords sample_tree)) = Ok tt.
Proof. by apply (tree_announce_always_valid 9 sample_tree sample_tree_reachable). Defined.

(** C21: a recommended parent is always safe to follow. It is a known peer whose path
    avoids the node and ends at the least root any peer advertises, below the
    node's own address for a router; switching to it makes the node's coordinate
    that path with the node prepended, so no loop is created. *)
Theorem evaluate_parent_safe me ord costs self now p seq ts :
  TreeProtocol.tree_reachable me self →
  TreeState.evaluate_parent ord costs self now = Some p →
  ∃ c, TreeState.peer_ancestry self !! p = Some c
    ∧ me ∉ TreeCoordinate.node_addrs c
    ∧ (∀ q d, TreeState.peer_ancestry self !! q = Some d →
         TreeCoordinate.root_id c ≤ TreeCoordinate.root_id d)
    ∧ (TreeState.leaf_only self = false → TreeCoordinate.root_id c < me)
    ∧ TreeState.my_coords (TreeProtocol.switch_parent self p seq ts now) = mkCoordEntry me seq ts :: c
    ∧ TreeState.root (TreeProtocol.switch_parent self p seq ts now) = TreeCoordinate.root_id c.
Proof.
  intros [Hme Hd Hpv Hpos _]%reachable_inv (c & Hc & Hmin & Hno & Hlt)%evaluate_sound.
  exists c. rewrite Hme in *. destruct (Hpv _ _ Hc) as [[Hne _] Hhead].
  assert (Hnot : me ∉ TreeCoordinate.node_addrs c) by (by rewrite <- contains_spec, Hno).
  split_and!; [done..| |]; unfold TreeProtocol.switch_parent, TreeState.recompute_coords;
    destruct (switch_frame self p seq ts now) as (Hme' & Hleaf' & Hd' & _ & _ & Hpa');
    rewrite Hd', Hpa', Hme', Hleaf', Hme; cbn [ParentDeclaration.parent_id ParentDeclaration.new
      ParentDeclaration.is_root ParentDeclaration.node_addr ParentDeclaration.sequence
      ParentDeclaration.timestamp]; rewrite Hc.
  all: assert (Hp : me ≠ p)
    by (intros <-; apply Hnot; rewrite <- Hhead; destruct c; [done|simpl; left]).
  all: unfold ParentDeclaration.is_root; cbn; rewrite (proj2 (Z.eqb_neq _ _) Hp).
  all: assert (negb (TreeState.leaf_only self) && (me <=? TreeCoordinate.root_id c) = false) as ->
    by (destruct (TreeState.leaf_only self); [done|]; simpl; apply Z.leb_gt, Hlt; done).
  - done.
  - cbn [TreeState.root TreeState.set_position]. by apply root_id_cons.
Qed.

Lemma evaluate_parent_safe_witness :
  ∃ c, TreeState.peer_ancestry sample_heard !! 4 = Some c ∧ 9 ∉ TreeCoordinate.node_addrs c.
Proof.
  destruct (evaluate_parent_safe 9 canonical_order ∅ sample_heard 0 4 2 101) as (c & Hc & Hn & _).
  - apply sample_heard_reachable.
  - by vm_compute.
  - exists c. done.
Defined.

(** The parent choice is optimal and independent of hash-map order. While every
    eligible candidate's effective depth is a number, the recommendation does not
    depend on the order the peers are scanned in, and no eligible peer has a
    smaller effective depth, or an equal one with a smaller address. *)
Theorem evaluate_parent_optimal ord ord' costs self now :
  (∀ r, depths_are_numbers costs self r) →
  TreeState.evaluate_parent ord costs self now = TreeState.evaluate_parent ord' costs self now
  ∧ ∀ p, TreeState.evaluate_parent ord costs self now = Some p →
      ∃ r b, TreeState.smallest_visible_root ord self = Some r
        ∧ TreeState.best_candidate ord costs self r = Some b ∧ b.1 = p
        ∧ ∀ q c x, TreeState.peer_ancestry self !! q = Some c →
            candidate costs self r (q, c) = Some x → f64_better x b = false.
Proof.
  intros Hnum. split; [by apply evaluate_parent_order|]. intros p Hp.
  unfold TreeState.evaluate_parent in Hp. case_bool_decide; [done|].
  destruct (TreeState.smallest_visible_root ord self) as [r|]; simpl in Hp; [|done].
  destruct (negb _ && _); [done|].
  pose proof (best_candidate_spec ord costs self r (Hnum r)) as Hbest.
  destruct (TreeState.best_candidate ord costs self r) as [[b eff]|] eqn:Hb; simpl in Hp; [|done].
  exists r, (b, eff). split; [done|]. split; [done|]. split; [|done].
  simpl. repeat case_match; by simplify_eq.
Qed.

Lemma evaluate_parent_optimal_witness :
  TreeState.evaluate_parent canonical_order ∅ sample_heard 0 =
  TreeState.evaluate_parent canonical_order ∅ sample_heard 0.
Proof.
  apply (evaluate_parent_optimal canonical_order canonical_order ∅ sample_heard 0).
  intros r p c x Hp Hx.
  change (TreeState.peer_ancestry sample_heard) with
    (<[4 := addr_only <$> [4; 1]]> ∅ : gmap NodeAddr TreeCoordinate) in Hp.
  apply lookup_insert_Some in Hp as [[<- <-]|[_ Hp]]; [|done].
  unfold candidate in Hx. destruct (negb _); [done|]. vm_compute in Hx. by injection Hx as <-.
Defined.

(** Mandatory switches ignore the timers, optional ones obey them. With a best
    candidate at hand, a node that is root, lost its parent's ancestry, or sees a
    smaller root switches whatever the hold-down and dampening timers say; a node
    whose parent is alive under a root no larger than any visible one stays while
    either timer runs. *)
Theorem evaluate_parent_timers ord costs self now r b eff :
  TreeState.smallest_visible_root ord self = Some r →
  TreeState.leaf_only self = true ∨ r < TreeState.my_node_addr self →
  TreeState.best_candidate ord costs self r = Some (b, eff) →
  let parent := ParentDeclaration.parent_id (TreeState.my_declaration self) in
  (TreeState.is_root self = true
   ∨ (parent ≠ b ∧ (TreeState.peer_ancestry self !! parent = None ∨ r < TreeState.root self)) →
   TreeState.evaluate_parent ord costs self now = Some b)
  ∧ (TreeState.is_root self = false → is_Some (TreeState.peer_ancestry self !! parent) →
     TreeState.root self ≤ r →
     (∃ last, TreeState.last_parent_switch self = Some last ∧ last ≤ now
        ∧ now - last < TreeState.hold_down self)
     ∨ (∃ until, TreeState.flap_dampening_until self = Some until ∧ now < until) →
     TreeState.evaluate_parent ord costs self now = None).
Proof.
  intros Hr Hme Hb parent. unfold TreeState.evaluate_parent.
  assert (TreeState.peer_ancestry self ≠ ∅) as Hne.
  { apply best_candidate_elem in Hb as (c & Hc & _). intros He. by rewrite He in Hc. }
  rewrite (bool_decide_false _ Hne), Hr. simpl. rewrite Hb. simpl. fold parent.
  assert (negb (TreeState.leaf_only self) && (TreeState.my_node_addr self <=? r) = false) as ->.
  { destruct Hme as [->|Hlt]; [done|]. apply andb_false_intro2, Z.leb_gt. lia. }
  split.
  - intros [Hroot|[Hp Hcase]].
    + rewrite Hroot, andb_false_r. simpl. by repeat case_match.
    + rewrite (proj2 (Z.eqb_neq _ _) Hp). simpl. destruct (TreeState.is_root self); simpl;
        [by repeat case_match|].
      destruct Hcase as [Hnone|Hlt]; [by rewrite Hnone|].
      rewrite (proj2 (Z.ltb_lt _ _) Hlt). simpl. by case_match.
  - intros Hroot Hs Hle Htimer. rewrite Hroot. simpl. rewrite andb_true_r, orb_false_r.
    destruct (parent =? b); [done|]. rewrite (bool_decide_true _ Hs). simpl.
    rewrite (proj2 (Z.ltb_ge _ _) Hle). unfold TreeState.is_flap_dampened.
    destruct Htimer as [(last & -> & Hl & Hd)|(until & -> & Hu)].
    + rewrite (proj2 (Z.eqb_neq (TreeState.hold_down self) 0)) by lia. simpl.
      by rewrite (proj2 (Z.ltb_lt _ _)) by mlia.
    + rewrite (proj2 (Z.ltb_lt now until) Hu). by case_match.
Qed.

Lemma evaluate_parent_timers_witness :
  TreeState.evaluate_parent canonical_order ∅ sample_heard 0 = Some 4.
Proof.
  apply (evaluate_parent_timers canonical_order ∅ sample_heard 0 1 4 (f64_of_Z 2)).
  - by vm_compute.
  - right. by vm_compute.
  - by vm_compute.
  - left. by vm_compute.
Defined.

(** C40: flap dampening engages at most once in a node's life. Once a dampening deadline
    is set no later step clears or moves it, so from that deadline on the node is
    never dampened again, however often its parent changes. *)
Theorem flap_dampening_engages_once self self' until :
  TreeState.flap_dampening_until self = Some until →
  rtc TreeProtocol.tree_step self self' →
  TreeState.flap_dampening_until self' = Some until
  ∧ ∀ now, until ≤ now → TreeState.is_flap_dampened self' now = false.
Proof.
  intros Hu Hsteps. cut (TreeState.flap_dampening_until self' = Some until).
  { intros Hu'. split; [done|]. intros now Hn. unfold TreeState.is_flap_dampened. rewrite Hu'.
    by apply Z.ltb_ge. }
  induction Hsteps as [self|self self1 self' Hstep _ IH]; [done|]. apply IH.
  by eapply flap_until_step.
Qed.

(** Node 9 with dampening already used (until 10), flapping between two parents long after. *)
Definition sample_flapping : TreeState.TreeState :=
  TreeState.set_timers sample_tree (Some 0) 4 (Some 0) (Some 10).

Lemma flap_dampening_engages_once_witness :
  TreeState.is_flap_dampened
    (TreeProtocol.switch_parent sample_flapping 4 (TreeProtocol.next_seq sample_flapping) 200 1000)
    1000 = false.
Proof.
  apply (flap_dampening_engages_once sample_flapping _ 10); [done| |done].
  apply rtc_once. apply (TreeProtocol.step_refresh sample_flapping 4 (addr_only <$> [4; 1])); by vm_compute.
Defined.

(** The next hop is exact. [find_next_hop] returns a peer if and only if that peer is
    in the destination's tree with us, strictly closer than we are, and the closest
    peer, the smallest address breaking ties; so the choice is the same for every
    hash-map order, and there is one whenever some peer is closer. *)
Theorem find_next_hop_exact ord self dest :
  (∀ p, TreeState.find_next_hop ord self dest = Some p ↔ is_next_hop self dest p)
  ∧ (∀ ord', TreeState.find_next_hop ord' self dest = TreeState.find_next_hop ord self dest)
  ∧ (TreeState.find_next_hop ord self dest = None ↔
     ∀ p c, TreeCoordinate.root_id (TreeState.my_coords self) = TreeCoordinate.root_id dest →
       TreeState.peer_ancestry self !! p = Some c →
       TreeCoordinate.distance_to (TreeState.my_coords self) dest
         ≤ TreeCoordinate.distance_to c dest).
Proof.
  split; [intros p; apply find_next_hop_iff|]. split.
  - intros ord'. apply option_eq. intros p. by rewrite !find_next_hop_iff.
  - pose proof (find_next_hop_spec ord self dest) as Hs. split; [intros He; by rewrite He in Hs|].
    intros Hall. destruct (TreeState.find_next_hop ord self dest) as [p|]; [|done].
    destruct Hs as (Hr & c & Hp & Hlt & _). specialize (Hall p c Hr Hp). lia.
Qed.
