(* ===== verification/GreedyRouting.v ===== *)
(** * Greedy tree routing, end to end

    What [TreeState::find_next_hop] promises when every node of a network uses
    it. A network is a map from addresses to tree states; a packet follows the
    next hops towards a destination coordinate until a node has none. *)

From S2P Require Import Prelude Bytes F64 NodeAddr Coordinate TreeState.

Local Open Scope Z_scope.

Module Network.

Section route.
Context (ord : MapOrder NodeAddr TreeCoordinate) (net : gmap NodeAddr TreeState.TreeState).

Definition next_hop (dest : TreeCoordinate) (n : NodeAddr) : option NodeAddr :=
  st ← net !! n; TreeState.find_next_hop ord st dest.

(** The nodes a packet visits from [n], for at most [fuel] hops. *)
Fixpoint route (fuel : nat) (dest : TreeCoordinate) (n : NodeAddr) : list NodeAddr :=
  match fuel with
  | O => [n]
  | S fuel =>
      match next_hop dest n with
      | Some m => n :: route fuel dest m
      | None => [n]
      end
  end.
End route.

End Network.

Section routing.
Import Network.
Context (ord : MapOrder NodeAddr TreeCoordinate) (net : gmap NodeAddr TreeState.TreeState).

(** The address path of a node. *)
Definition path_of (st : TreeState.TreeState) : list NodeAddr :=
  TreeCoordinate.node_addrs (TreeState.my_coords st).

(** Peers' views agree with the peers: what a node knows of a peer is that peer's path. *)
Definition views_agree : Prop :=
  (∀ n st, net !! n = Some st → TreeState.my_coords st ≠ []) ∧
  ∀ n st p c, net !! n = Some st → TreeState.peer_ancestry st !! p = Some c →
    c ≠ [] ∧ ∃ st', net !! p = Some st' ∧ path_of st' = TreeCoordinate.node_addrs c.

(** Tree links are peerings: a node's path starts with itself, and a node with a
    parent peers with it, both ways. *)
Definition tree_links : Prop :=
  ∀ n st, net !! n = Some st →
    TreeCoordinate.node_addr (TreeState.my_coords st) = n ∧
    ∀ a p rest, path_of st = a :: p :: rest →
      ∃ stp, net !! p = Some stp ∧ path_of stp = p :: rest
        ∧ (∃ c, TreeState.peer_ancestry st !! p = Some c ∧ TreeCoordinate.node_addrs c = p :: rest)
        ∧ (∃ c, TreeState.peer_ancestry stp !! n = Some c ∧ TreeCoordinate.node_addrs c = path_of st).

Lemma distance_path c c' d :
  TreeCoordinate.node_addrs c = TreeCoordinate.node_addrs c' →
  TreeCoordinate.distance_to c d = TreeCoordinate.distance_to c' d.
Proof.
  intros Heq. assert (Hl : length c = length c').
  { apply (f_equal length) in Heq. unfold TreeCoordinate.node_addrs in Heq. by rewrite !length_fmap in Heq. }
  assert (Hr : TreeCoordinate.root_id c = TreeCoordinate.root_id c').
  { unfold TreeCoordinate.root_id. apply (f_equal last) in Heq. unfold TreeCoordinate.node_addrs in Heq.
    rewrite !fmap_last in Heq. destruct (last c), (last c'); simpl in Heq; congruence. }
  unfold TreeCoordinate.distance_to, TreeCoordinate.lca_depth, TreeCoordinate.depth.
  by rewrite Heq, Hl, Hr.
Qed.

Lemma root_id_path c c' :
  TreeCoordinate.node_addrs c = TreeCoordinate.node_addrs c' →
  TreeCoordinate.root_id c = TreeCoordinate.root_id c'.
Proof.
  intros Heq. unfold TreeCoordinate.root_id. apply (f_equal last) in Heq.
  unfold TreeCoordinate.node_addrs in Heq. rewrite !fmap_last in Heq.
  destruct (last c), (last c'); simpl in Heq; congruence.
Qed.

(** The distance of a node of the network to the destination. *)
Definition dist (dest : TreeCoordinate) (n : NodeAddr) : Z :=
  match net !! n with
  | Some st => TreeCoordinate.distance_to (TreeState.my_coords st) dest
  | None => 0
  end.

Lemma next_hop_closer dest n m : views_agree → dest ≠ [] →
  next_hop ord net dest n = Some m →
  is_Some (net !! m) ∧ 0 ≤ dist dest m < dist dest n.
Proof.
  intros [Hne Hviews] Hd. unfold next_hop, dist. destruct (net !! n) as [st|] eqn:Hn; [|done]. simpl.
  intros (_ & c & Hp & Hlt & _)%find_next_hop_iff.
  destruct (Hviews _ _ _ _ Hn Hp) as (Hc & st' & Hm & Hpath). rewrite Hm. split; [eauto|].
  rewrite (distance_path _ _ dest Hpath). split; [by apply distance_nonneg|done].
Qed.

Lemma route_decreasing dest fuel n : views_agree → dest ≠ [] →
  ∀ m, m ∈ tail (route ord net fuel dest n) → 0 ≤ dist dest m < dist dest n.
Proof.
  intros Hv Hd. revert n. induction fuel as [|fuel IH]; intros n m; simpl; [set_solver|].
  destruct (next_hop ord net dest n) as [n'|] eqn:Hn; simpl; [|set_solver].
  destruct (next_hop_closer dest n n' Hv Hd Hn) as [_ Hlt].
  assert (Hr : route ord net fuel dest n' = n' :: tail (route ord net fuel dest n')).
  { destruct fuel; simpl; [done|]. by destruct (next_hop ord net dest n'). }
  rewrite Hr. intros [->|Hin]%elem_of_cons; [done|]. specialize (IH n' m Hin). lia.
Qed.

Lemma route_NoDup dest fuel n : views_agree → dest ≠ [] → NoDup (route ord net fuel dest n).
Proof.
  intros Hv Hd. revert n. induction fuel as [|fuel IH]; intros n; simpl; [apply NoDup_singleton|].
  destruct (next_hop ord net dest n) as [n'|] eqn:Hn; [|apply NoDup_singleton].
  constructor; [|done]. intros Hin.
  pose proof (route_decreasing dest (S fuel) n Hv Hd n) as Hdec. simpl in Hdec. rewrite Hn in Hdec.
  simpl in Hdec. specialize (Hdec Hin). lia.
Qed.


(** Every ancestor of a node is in the network, where the path says. *)
Lemma ancestor_present D std l a rest : tree_links → net !! D = Some std →
  path_of std = l ++ a :: rest → ∃ sta, net !! a = Some sta ∧ path_of sta = a :: rest.
Proof.
  intros Hlinks HD. revert a rest. induction l as [|b l IH] using rev_ind; intros a rest Hp.
  - exists std. split; [|done]. destruct (Hlinks _ _ HD) as [Hhead _]. unfold path_of in Hp.
    destruct (TreeState.my_coords std); simplify_eq/=. done.
  - rewrite <- app_assoc in Hp. destruct (IH _ _ Hp) as (stb & Hb & Hpb).
    destruct (Hlinks _ _ Hb) as [_ Hpar]. destruct (Hpar _ _ _ Hpb) as (sta & Ha & Hpa & _). eauto.
Qed.

Lemma rpath_node_addrs c c' :
  TreeCoordinate.node_addrs c = TreeCoordinate.node_addrs c' → rpath c = rpath c'.
Proof. by rewrite rpath_inj. Qed.

(** Off the destination's path, the parent is closer. *)
Lemma closer_parent dest n st : tree_links → dest ≠ [] → net !! n = Some st →
  TreeCoordinate.root_id (TreeState.my_coords st) = TreeCoordinate.root_id dest →
  ¬ rpath (TreeState.my_coords st) `prefix_of` rpath dest →
  ∃ p c, TreeState.peer_ancestry st !! p = Some c
    ∧ TreeCoordinate.distance_to c dest = TreeCoordinate.distance_to (TreeState.my_coords st) dest - 1.
Proof.
  intros Hlinks Hd Hn Hr Hnp. destruct (Hlinks _ _ Hn) as [_ Hpar]. unfold path_of in Hpar.
  destruct (TreeState.my_coords st) as [|e [|p rest]] eqn:Hc.
  - destruct Hnp. apply prefix_nil.
  - destruct Hnp. destruct (rpath_head dest Hd) as [t ->]. rewrite <- Hr. exists t. done.
  - destruct (Hpar _ _ _ eq_refl) as (_ & _ & _ & (c & Hpc & Hca) & _).
    exists (entry_addr p), c. split; [done|].
    rewrite (distance_path c (p :: rest)) by done. by apply distance_parent.
Qed.

(** On the path above the destination, the child towards it is closer. *)
Lemma closer_child D std n st : tree_links →
  net !! D = Some std → TreeState.my_coords std ≠ [] → net !! n = Some st →
  TreeState.my_coords st ≠ [] → n ≠ D →
  rpath (TreeState.my_coords st) `prefix_of` rpath (TreeState.my_coords std) →
  ∃ p c, TreeState.peer_ancestry st !! p = Some c
    ∧ TreeCoordinate.distance_to c (TreeState.my_coords std) =
      TreeCoordinate.distance_to (TreeState.my_coords st) (TreeState.my_coords std) - 1.
Proof.
  intros Hlinks HD Hdne Hn Hne Hnd [k Hk]. destruct (Hlinks _ _ Hn) as [Hhn _], (Hlinks _ _ HD) as [HhD _].
  assert (Hsuf : path_of std = reverse k ++ path_of st).
  { unfold rpath in Hk. apply (f_equal reverse) in Hk. by rewrite reverse_app, !reverse_involutive in Hk. }
  destruct k as [|x k].
  { simpl in Hsuf. unfold path_of in Hsuf.
    destruct (TreeState.my_coords st), (TreeState.my_coords std); simplify_eq/=; congruence. }
  rewrite reverse_cons, <- app_assoc in Hsuf. simpl in Hsuf.
  destruct (ancestor_present D std _ _ _ Hlinks HD Hsuf) as (stx & Hx & Hpx).
  assert (Hpn : ∃ rest, path_of st = n :: rest).
  { unfold path_of. destruct (TreeState.my_coords st); simplify_eq/=. eauto. }
  destruct Hpn as [rest Hpn]. rewrite Hpn in Hpx. destruct (Hlinks _ _ Hx) as [_ Hparx].
  destruct (Hparx _ _ _ Hpx) as (st' & Hn' & _ & _ & (c & Hc & Hca)). simplify_eq.
  exists x, c. split; [done|]. rewrite Hpx, <- Hpn in Hca. destruct c as [|e c]; [done|].
  simpl in Hca. injection Hca as He Hca.
  rewrite <- (distance_path c _ _ Hca). apply distance_child; [|done|].
  { intros ->. unfold path_of in Hca. by destruct (TreeState.my_coords st). }
  rewrite rpath_cons, (rpath_node_addrs _ _ Hca), He. exists k. by rewrite <- app_assoc.
Qed.

(** One tree: every node has the same root. *)
Definition one_tree : Prop :=
  ∀ n st m st', net !! n = Some st → net !! m = Some st' →
    TreeCoordinate.root_id (TreeState.my_coords st) = TreeCoordinate.root_id (TreeState.my_coords st').

Lemma next_hop_exists D std n st : views_agree → tree_links → one_tree →
  net !! D = Some std → net !! n = Some st → n ≠ D →
  is_Some (next_hop ord net (TreeState.my_coords std) n).
Proof.
  intros Hv Hlinks Hone HD Hn Hnd. pose proof Hv as [Hne _].
  pose proof (Hne _ _ HD) as HdD. pose proof (Hne _ _ Hn) as Hdn.
  assert (Hcl : ∃ p c, TreeState.peer_ancestry st !! p = Some c
    ∧ TreeCoordinate.distance_to c (TreeState.my_coords std) =
      TreeCoordinate.distance_to (TreeState.my_coords st) (TreeState.my_coords std) - 1).
  { destruct (decide (rpath (TreeState.my_coords st) `prefix_of` rpath (TreeState.my_coords std))).
    - by eapply closer_child.
    - eapply closer_parent; eauto. }
  destruct Hcl as (p & c & Hp & Hdist). unfold next_hop. rewrite Hn. simpl.
  pose proof (find_next_hop_spec ord st (TreeState.my_coords std)) as Hs.
  destruct (TreeState.find_next_hop ord st (TreeState.my_coords std)); [by eexists|].
  specialize (Hs p c (Hone _ _ _ _ Hn HD) Hp). lia.
Qed.

Lemma route_reaches D std fuel n : views_agree → tree_links → one_tree →
  net !! D = Some std → is_Some (net !! n) →
  dist (TreeState.my_coords std) n ≤ Z.of_nat fuel →
  last (route ord net fuel (TreeState.my_coords std) n) = Some D
  ∧ Z.of_nat (length (route ord net fuel (TreeState.my_coords std) n))
      ≤ 1 + dist (TreeState.my_coords std) n.
Proof.
  intros Hv Hlinks Hone HD. pose proof Hv as [Hne _].
  assert (HDz : next_hop ord net (TreeState.my_coords std) D = None).
  { destruct (next_hop ord net (TreeState.my_coords std) D) as [m|] eqn:Hm; [|done].
    destruct (next_hop_closer _ _ _ Hv (Hne _ _ HD) Hm) as [_ Hlt].
    assert (dist (TreeState.my_coords std) D = 0); [|lia]. unfold dist. rewrite HD.
    by apply distance_zero; eauto. }
  assert (Hnn : ∀ n, is_Some (net !! n) → 0 ≤ dist (TreeState.my_coords std) n).
  { intros m [stm Hm]. unfold dist. rewrite Hm. apply distance_nonneg; eauto. }
  revert n. induction fuel as [|fuel IH]; intros n Hn Hle; pose proof (Hnn n Hn) as Hn0;
    destruct (decide (n = D)) as [->|Hnd]; simpl; rewrite ?HDz; simpl; try (split; [done|lia]).
  - exfalso. destruct Hn as [st Hn].
    destruct (next_hop_exists D std n st Hv Hlinks Hone HD Hn Hnd) as [m Hm].
    destruct (next_hop_closer _ _ _ Hv (Hne _ _ HD) Hm). lia.
  - destruct Hn as [st Hn]. destruct (next_hop_exists D std n st Hv Hlinks Hone HD Hn Hnd) as [m Hm].
    rewrite Hm. destruct (next_hop_closer _ _ _ Hv (Hne _ _ HD) Hm) as [Hms Hlt].
    destruct (IH m Hms ltac:(lia)) as [Hl Hlen]. split; [|simpl; lia].
    rewrite last_cons, Hl. done.
Qed.

End routing.

(** ** Properties *)

(** C16: greedy routing never loops. When what the nodes know of their peers is those
    peers' own paths, a packet towards any destination coordinate gets strictly
    closer at every hop, so it visits no node twice. *)
Theorem greedy_routing_loop_free ord net dest fuel n :
  views_agree net → dest ≠ [] →
  NoDup (Network.route ord net fuel dest n)
  ∧ ∀ m, m ∈ tail (Network.route ord net fuel dest n) → 0 ≤ dist net dest m < dist net dest n.
Proof. intros Hv Hd. split; [by apply route_NoDup|by apply route_decreasing]. Qed.

(** C15: greedy routing delivers. In a network whose nodes form one tree, peer along its
    links and know their peers' paths, a packet from any node reaches the node
    that owns the destination coordinate, in at most the tree distance many hops. *)
Theorem greedy_routing_delivers ord net D std n :
  views_agree net → tree_links net → one_tree net →
  net !! D = Some std → is_Some (net !! n) →
  let d := dist net (TreeState.my_coords std) n in
  ∀ fuel, d ≤ Z.of_nat fuel →
    last (Network.route ord net fuel (TreeState.my_coords std) n) = Some D
    ∧ Z.of_nat (length (Network.route ord net fuel (TreeState.my_coords std) n)) ≤ 1 + d.
Proof. intros Hv Hl Ho HD Hn d fuel Hf. by apply route_reaches. Qed.

(** A line of three nodes: 9 and 1 both peer with 4, and 1 is the root. *)
Definition line_node (me : NodeAddr) (path : list NodeAddr) (peers : gmap NodeAddr TreeCoordinate)
    : TreeState.TreeState :=
  let st := TreeState.new me 0 in
  TreeState.set_peers (TreeState.set_position st (TreeState.my_declaration st) (addr_only <$> path) 1)
    ∅ peers.

Definition line : gmap NodeAddr TreeState.TreeState :=
  <[1 := line_node 1 [1] (<[4 := addr_only <$> [4; 1]]> ∅)]>
  (<[4 := line_node 4 [4; 1] (<[1 := addr_only <$> [1]]> (<[9 := addr_only <$> [9; 4; 1]]> ∅))]>
  (<[9 := line_node 9 [9; 4; 1] (<[4 := addr_only <$> [4; 1]]> ∅)]> ∅)).

(** Enumerates the bindings of a map written out with [<[_ := _]>]. *)
Ltac each_binding H :=
  lazymatch type of H with
  | (<[_ := _]> _) !! _ = Some _ =>
      apply lookup_insert_Some in H as [[<- <-]|[_ H]]; [|each_binding H]
  | ∅ !! _ = Some _ => by rewrite lookup_empty in H
  end.

Lemma line_views : views_agree line.
Proof.
  unfold line. split.
  - intros n st H. each_binding H; done.
  - intros n st p c H Hp. each_binding H; simpl in Hp; each_binding Hp;
      (split; [done|]); eexists; (split; [by vm_compute|by vm_compute]).
Qed.

Lemma line_links : tree_links line.
Proof.
  intros n st H. unfold line in H. each_binding H; (split; [done|]); intros a p rest Hp; vm_compute in Hp;
    simplify_eq; eexists; (split; [by vm_compute|]); (split; [done|]);
    (split; eexists; (split; [by vm_compute|done])).
Qed.

Lemma line_one_tree : one_tree line.
Proof. intros n st m st' H H'. unfold line in H, H'. each_binding H; each_binding H'; done. Qed.

Lemma greedy_routing_loop_free_witness :
  NoDup (Network.route canonical_order line 5 (addr_only <$> [1]) 9).
Proof. by apply (greedy_routing_loop_free canonical_order line _ 5 9 line_views). Defined.

Lemma greedy_routing_delivers_witness :
  last (Network.route canonical_order line 2 (addr_only <$> [1]) 9) = Some 1.
Proof.
  apply (greedy_routing_delivers canonical_order line 1
    (line_node 1 [1] (<[4 := addr_only <$> [4; 1]]> ∅)) 9 line_views line_links line_one_tree);
    [done|by eexists|by vm_compute].
Defined.
