(* ===== verification/CoordCache.v ===== *)
(** * Coordinate cache ([crates/fips-core/src/cache/entry.rs], [coord_cache.rs])

    Destination coordinates with a time to live, least-recently-used eviction at
    a hard capacity, and provenance: coordinates proven by a lookup outrank
    unauthenticated hints for a fixed interval. Times are milliseconds, passed
    in as the source passes them. *)

From S2P Require Import Prelude Bytes NodeAddr Coordinate.

Local Open Scope Z_scope.

Definition VERIFIED_TTL_MS : Z := 300000.
Definition DEFAULT_COORD_CACHE_SIZE : Z := 50000.
Definition DEFAULT_COORD_CACHE_TTL_MS : Z := 300000.

Inductive CoordSource := Verified | Hint.

#[export] Instance CoordSource_eq_dec : EqDecision CoordSource.
Proof. solve_decision. Defined.

Module CacheEntry.

Record CacheEntry := mkCacheEntry {
  coords : TreeCoordinate;
  created_at : Z;
  last_used : Z;
  expires_at : Z;
  path_mtu : option Z;
  source : CoordSource;
  verified_until : Z
}.

Definition new (coords : TreeCoordinate) (now ttl_ms : Z) : CacheEntry :=
  mkCacheEntry coords now now (sat_add_u64 now ttl_ms) None Hint 0.

Definition is_verified (self : CacheEntry) (now : Z) : bool :=
  bool_decide (source self = Verified) && (now <=? verified_until self).

Definition mark_verified (self : CacheEntry) (now : Z) : CacheEntry :=
  mkCacheEntry (coords self) (created_at self) (last_used self) (expires_at self)
    (path_mtu self) Verified (sat_add_u64 now VERIFIED_TTL_MS).

Definition mark_hint (self : CacheEntry) : CacheEntry :=
  mkCacheEntry (coords self) (created_at self) (last_used self) (expires_at self)
    (path_mtu self) Hint 0.

Definition new_verified (coords : TreeCoordinate) (now ttl_ms : Z) : CacheEntry :=
  mark_verified (new coords now ttl_ms) now.

Definition set_path_mtu (self : CacheEntry) (mtu : Z) : CacheEntry :=
  mkCacheEntry (coords self) (created_at self) (last_used self) (expires_at self)
    (Some mtu) (source self) (verified_until self).

Definition is_expired (self : CacheEntry) (now : Z) : bool := expires_at self <? now.

Definition touch (self : CacheEntry) (now : Z) : CacheEntry :=
  mkCacheEntry (coords self) (created_at self) now (expires_at self)
    (path_mtu self) (source self) (verified_until self).

Definition refresh (self : CacheEntry) (now ttl_ms : Z) : CacheEntry :=
  mkCacheEntry (coords self) (created_at self) now (sat_add_u64 now ttl_ms)
    (path_mtu self) (source self) (verified_until self).

Definition update (self : CacheEntry) (coords : TreeCoordinate) (now ttl_ms : Z) : CacheEntry :=
  mark_hint (mkCacheEntry coords (created_at self) now (sat_add_u64 now ttl_ms)
    (path_mtu self) (source self) (verified_until self)).

Definition update_verified (self : CacheEntry) (coords : TreeCoordinate) (now ttl_ms : Z)
    : CacheEntry :=
  mark_verified (update self coords now ttl_ms) now.

Definition idle_time (self : CacheEntry) (now : Z) : Z := sat_sub now (last_used self).
Definition age (self : CacheEntry) (now : Z) : Z := sat_sub now (created_at self).
Definition time_to_expiry (self : CacheEntry) (now : Z) : Z := sat_sub (expires_at self) now.

End CacheEntry.

Module CoordCache.
Import CacheEntry (CacheEntry).

Inductive HintOutcome := Inserted | Changed | Unchanged | Rejected.

Record CoordCache := mkCoordCache {
  entries : gmap NodeAddr CacheEntry;
  max_entries : Z;
  default_ttl_ms : Z
}.

Definition new (max_entries default_ttl_ms : Z) : CoordCache :=
  mkCoordCache ∅ max_entries default_ttl_ms.

Definition with_defaults : CoordCache := new DEFAULT_COORD_CACHE_SIZE DEFAULT_COORD_CACHE_TTL_MS.

Definition set_entries (self : CoordCache) (m : gmap NodeAddr CacheEntry) : CoordCache :=
  mkCoordCache m (max_entries self) (default_ttl_ms self).

Definition set_default_ttl_ms (self : CoordCache) (ttl_ms : Z) : CoordCache :=
  mkCoordCache (entries self) (max_entries self) ttl_ms.

Definition len (self : CoordCache) : Z := Z.of_nat (size (entries self)).

Section iteration.
Context (ord : MapOrder NodeAddr CacheEntry).

Definition evict_expired (self : CoordCache) (now : Z) : CoordCache * bool :=
  match list_find (λ ke, CacheEntry.is_expired ke.2 now = true) (map_iter ord (entries self)) with
  | Some (_, (key, _)) => (set_entries self (delete key (entries self)), true)
  | None => (self, false)
  end.

Definition evict_hint_victim (self : CoordCache) (now : Z) : CoordCache :=
  let '(self, done) := evict_expired self now in
  if done then self
  else
    match max_by_key (λ ke, CacheEntry.idle_time ke.2 now)
            (filter (λ ke, CacheEntry.is_verified ke.2 now = false) (map_iter ord (entries self))) with
    | Some (key, _) => set_entries self (delete key (entries self))
    | None => self
    end.

Definition evict_verified_victim (self : CoordCache) (now : Z) : CoordCache :=
  let '(self, done) := evict_expired self now in
  if done then self
  else
    match max_by_key (λ ke, CacheEntry.idle_time ke.2 now) (map_iter ord (entries self)) with
    | Some (key, _) => set_entries self (delete key (entries self))
    | None => self
    end.

Definition insert_hint_with_ttl (self : CoordCache) (addr : NodeAddr) (coords : TreeCoordinate)
    (now ttl_ms : Z) : CoordCache * HintOutcome :=
  match entries self !! addr with
  | Some entry =>
      if CacheEntry.is_verified entry now then (self, Rejected)
      else
        let changed := negb (bool_decide (CacheEntry.coords entry = coords)) in
        (set_entries self (<[addr := CacheEntry.update entry coords now ttl_ms]> (entries self)),
         if changed then Changed else Unchanged)
  | None =>
      let self := if max_entries self <=? len self then evict_hint_victim self now else self in
      if max_entries self <=? len self then (self, Rejected)
      else (set_entries self (<[addr := CacheEntry.new coords now ttl_ms]> (entries self)), Inserted)
  end.

Definition insert_checked (self : CoordCache) (addr : NodeAddr) (coords : TreeCoordinate) (now : Z)
    : CoordCache * HintOutcome :=
  insert_hint_with_ttl self addr coords now (default_ttl_ms self).

Definition insert (self : CoordCache) (addr : NodeAddr) (coords : TreeCoordinate) (now : Z)
    : CoordCache := (insert_checked self addr coords now).1.

Definition insert_with_ttl_checked (self : CoordCache) (addr : NodeAddr) (coords : TreeCoordinate)
    (now ttl_ms : Z) : CoordCache * HintOutcome :=
  insert_hint_with_ttl self addr coords now ttl_ms.

Definition insert_with_ttl (self : CoordCache) (addr : NodeAddr) (coords : TreeCoordinate)
    (now ttl_ms : Z) : CoordCache := (insert_with_ttl_checked self addr coords now ttl_ms).1.

Definition insert_with_path_mtu_checked (self : CoordCache) (addr : NodeAddr)
    (coords : TreeCoordinate) (now path_mtu : Z) : CoordCache * HintOutcome :=
  match entries self !! addr with
  | Some entry =>
      if CacheEntry.is_verified entry now then (self, Rejected)
      else
        let changed := negb (bool_decide (CacheEntry.coords entry = coords)) in
        let entry := CacheEntry.update entry coords now (default_ttl_ms self) in
        let path_mtu :=
          match CacheEntry.path_mtu entry with
          | Some existing => Z.min existing path_mtu
          | None => path_mtu
          end in
        (set_entries self (<[addr := CacheEntry.set_path_mtu entry path_mtu]> (entries self)),
         if changed then Changed else Unchanged)
  | None =>
      let self := if max_entries self <=? len self then evict_hint_victim self now else self in
      if max_entries self <=? len self then (self, Rejected)
      else
        let entry := CacheEntry.new coords now (default_ttl_ms self) in
        (set_entries self (<[addr := CacheEntry.set_path_mtu entry path_mtu]> (entries self)), Inserted)
  end.

Definition insert_with_path_mtu (self : CoordCache) (addr : NodeAddr) (coords : TreeCoordinate)
    (now path_mtu : Z) : CoordCache := (insert_with_path_mtu_checked self addr coords now path_mtu).1.

Definition insert_current_root_hint (self : CoordCache) (addr : NodeAddr) (coords : TreeCoordinate)
    (current_root : NodeAddr) (now : Z) : CoordCache * option HintOutcome :=
  if negb (TreeCoordinate.node_addr coords =? addr)
     || negb (TreeCoordinate.root_id coords =? current_root)
  then (self, None)
  else let '(self, outcome) := insert_checked self addr coords now in (self, Some outcome).

Definition insert_verified (self : CoordCache) (addr : NodeAddr) (coords : TreeCoordinate) (now : Z)
    : CoordCache :=
  match entries self !! addr with
  | Some entry =>
      set_entries self
        (<[addr := CacheEntry.update_verified entry coords now (default_ttl_ms self)]> (entries self))
  | None =>
      let self := if max_entries self <=? len self then evict_verified_victim self now else self in
      if max_entries self <=? len self then self
      else set_entries self
             (<[addr := CacheEntry.new_verified coords now (default_ttl_ms self)]> (entries self))
  end.

Definition insert_verified_with_path_mtu (self : CoordCache) (addr : NodeAddr)
    (coords : TreeCoordinate) (now path_mtu : Z) : CoordCache :=
  match entries self !! addr with
  | Some entry =>
      let keep_tighter := CacheEntry.is_verified entry now in
      let previous_path_mtu := CacheEntry.path_mtu entry in
      let entry := CacheEntry.update_verified entry coords now (default_ttl_ms self) in
      let path_mtu :=
        if keep_tighter then
          match previous_path_mtu with
          | Some existing => Z.min existing path_mtu
          | None => path_mtu
          end
        else path_mtu in
      set_entries self (<[addr := CacheEntry.set_path_mtu entry path_mtu]> (entries self))
  | None =>
      let self := if max_entries self <=? len self then evict_verified_victim self now else self in
      if max_entries self <=? len self then self
      else
        let entry := CacheEntry.new_verified coords now (default_ttl_ms self) in
        set_entries self (<[addr := CacheEntry.set_path_mtu entry path_mtu]> (entries self))
  end.
End iteration.

Definition get (self : CoordCache) (addr : NodeAddr) (now : Z) : option TreeCoordinate :=
  entry ← entries self !! addr;
  if CacheEntry.is_expired entry now then None else Some (CacheEntry.coords entry).

Definition get_and_touch (self : CoordCache) (addr : NodeAddr) (now : Z)
    : CoordCache * option TreeCoordinate :=
  match entries self !! addr with
  | Some entry =>
      if CacheEntry.is_expired entry now
      then (set_entries self (delete addr (entries self)), None)
      else (set_entries self
              (<[addr := CacheEntry.refresh entry now (default_ttl_ms self)]> (entries self)),
            Some (CacheEntry.coords entry))
  | None => (self, None)
  end.

Definition remove (self : CoordCache) (addr : NodeAddr) : CoordCache * option CacheEntry :=
  (set_entries self (delete addr (entries self)), entries self !! addr).

Definition contains (self : CoordCache) (addr : NodeAddr) (now : Z) : bool :=
  match get self addr now with Some _ => true | None => false end.

(** [HashMap::retain], with the number of removed entries. *)
Definition retain (self : CoordCache) (keep : CacheEntry → bool) : CoordCache * Z :=
  let self' := set_entries self (filter (λ ke, keep ke.2 = true) (entries self)) in
  (self', len self - len self').

Definition purge_expired (self : CoordCache) (now : Z) : CoordCache * Z :=
  retain self (λ entry, negb (CacheEntry.is_expired entry now)).

Definition clear (self : CoordCache) : CoordCache := set_entries self ∅.

Definition invalidate_via_node (self : CoordCache) (node_addr : NodeAddr) : CoordCache * Z :=
  retain self (λ entry, negb (TreeCoordinate.contains (CacheEntry.coords entry) node_addr)).

Definition invalidate_other_roots (self : CoordCache) (current_root : NodeAddr) : CoordCache * Z :=
  retain self (λ entry, TreeCoordinate.root_id (CacheEntry.coords entry) =? current_root).

End CoordCache.

(** ** Histories *)
Module CacheHistory.
Import CoordCache.

(** Writes by unauthenticated hints. *)
Inductive hint :=
| HintWrite (addr : NodeAddr) (coords : TreeCoordinate)
| HintTtl (addr : NodeAddr) (coords : TreeCoordinate) (ttl_ms : Z)
| HintMtu (addr : NodeAddr) (coords : TreeCoordinate) (mtu : Z)
| HintRoot (addr : NodeAddr) (coords : TreeCoordinate) (root : NodeAddr).

(** Everything else that changes the cache. *)
Inductive event :=
| Hinted (h : hint)
| VerifiedWrite (addr : NodeAddr) (coords : TreeCoordinate)
| VerifiedMtu (addr : NodeAddr) (coords : TreeCoordinate) (mtu : Z)
| Touched (addr : NodeAddr)
| Removed (addr : NodeAddr)
| Purged
| Cleared
| ViaNode (a : NodeAddr)
| OtherRoots (r : NodeAddr)
| SetTtl (ttl_ms : Z).

Section run.
Context (ord : MapOrder NodeAddr CacheEntry.CacheEntry).

Definition hint_step (self : CoordCache) (now : Z) (h : hint) : CoordCache :=
  match h with
  | HintWrite a c => insert ord self a c now
  | HintTtl a c ttl => insert_with_ttl ord self a c now ttl
  | HintMtu a c mtu => insert_with_path_mtu ord self a c now mtu
  | HintRoot a c r => (insert_current_root_hint ord self a c r now).1
  end.

Definition step (self : CoordCache) (now : Z) (e : event) : CoordCache :=
  match e with
  | Hinted h => hint_step self now h
  | VerifiedWrite a c => insert_verified ord self a c now
  | VerifiedMtu a c mtu => insert_verified_with_path_mtu ord self a c now mtu
  | Touched a => (get_and_touch self a now).1
  | Removed a => (remove self a).1
  | Purged => (purge_expired self now).1
  | Cleared => clear self
  | ViaNode a => (invalidate_via_node self a).1
  | OtherRoots r => (invalidate_other_roots self r).1
  | SetTtl ttl => set_default_ttl_ms self ttl
  end.

Definition run_hints (self : CoordCache) (hs : list (Z * hint)) : CoordCache :=
  foldl (λ self th, hint_step self th.1 th.2) self hs.

Definition run (self : CoordCache) (es : list (Z * event)) : CoordCache :=
  foldl (λ self te, step self te.1 te.2) self es.
End run.

End CacheHistory.

Section cache.
Import CacheEntry CoordCache CacheHistory.
Context (ord : MapOrder NodeAddr CacheEntry).

(** A verified entry inside both its intervals. *)
Definition protected (e : CacheEntry) (now : Z) : Prop :=
  is_verified e now = true ∧ is_expired e now = false.

Lemma evict_expired_spec self now :
  match evict_expired ord self now with
  | (self', true) => ∃ k e, entries self !! k = Some e ∧ is_expired e now = true
      ∧ self' = set_entries self (delete k (entries self))
  | (self', false) => self' = self ∧ ∀ k e, entries self !! k = Some e → is_expired e now = false
  end.
Proof.
  unfold evict_expired. destruct (list_find _ _) as [[i [k e]]|] eqn:Hf.
  - apply list_find_Some in Hf as (Hi & He & _). exists k, e. split; [|done].
    apply (elem_of_map_iter ord). by eapply list_elem_of_lookup_2.
  - split; [done|]. intros k e Hk. apply list_find_None in Hf. rewrite Forall_forall in Hf.
    apply (elem_of_map_iter ord), Hf in Hk. by apply not_true_is_false.
Qed.

(** An eviction removes at most one entry. *)
Definition evicts (P : CacheEntry → Prop) (self self' : CoordCache) : Prop :=
  self' = self ∨ ∃ k e, entries self !! k = Some e ∧ P e
    ∧ self' = set_entries self (delete k (entries self)).

Lemma len_delete self k e : entries self !! k = Some e →
  len (set_entries self (delete k (entries self))) = len self - 1.
Proof.
  intros Hk. unfold len. simpl. rewrite map_size_delete_Some by eauto.
  assert (size (entries self) ≠ 0%nat); [|lia]. intros Hz%map_size_empty_inv. by rewrite Hz in Hk.
Qed.

Lemma evict_hint_spec self now :
  let self' := evict_hint_victim ord self now in
  evicts (λ e, ¬ protected e now) self self'
  ∧ (self' = self → ∀ k e, entries self !! k = Some e → protected e now).
Proof.
  unfold evict_hint_victim. pose proof (evict_expired_spec self now) as He.
  destruct (evict_expired ord self now) as [s []].
  - destruct He as (k & e & Hk & Hexp & ->). split.
    + right. exists k, e. split; [done|]. split; [|done]. intros [_ Hne]. congruence.
    + intros Heq%(f_equal (λ c, entries c !! k)). simpl in Heq. rewrite lookup_delete_eq in Heq. congruence.
  - destruct He as [-> Hlive]. cbv iota.
    pose proof (max_by_key_spec (λ ke : NodeAddr * CacheEntry, idle_time ke.2 now)
      (filter (λ ke : NodeAddr * CacheEntry, is_verified ke.2 now = false) (map_iter ord (entries self)))) as Hm.
    destruct (max_by_key _ _) as [[k e]|].
    + destruct Hm as [[Hv Hin%elem_of_map_iter]%list_elem_of_filter _]. simpl in *. split.
      * right. exists k, e. split; [done|]. split; [|done]. intros [? _]. congruence.
      * intros Heq%(f_equal (λ c, entries c !! k)). simpl in Heq. rewrite lookup_delete_eq in Heq. congruence.
    + split; [by left|]. intros _ k e Hk. split; [|eauto]. apply not_false_is_true. intros Hv.
      assert ((k, e) ∈ filter (λ ke : NodeAddr * CacheEntry, is_verified ke.2 now = false) (map_iter ord (entries self))) as Hin.
      { apply list_elem_of_filter. split; [done|]. by apply elem_of_map_iter. }
      rewrite Hm in Hin. set_solver.
Qed.

Lemma evict_verified_spec self now :
  let self' := evict_verified_victim ord self now in
  evicts (λ _, True) self self' ∧ (self' = self → entries self = ∅).
Proof.
  unfold evict_verified_victim. pose proof (evict_expired_spec self now) as He.
  assert (Hdel : ∀ k e, entries self !! k = Some e →
    set_entries self (delete k (entries self)) = self → entries self = ∅).
  { intros k e Hk Heq%(f_equal (λ c, entries c !! k)). simpl in Heq.
    rewrite lookup_delete_eq in Heq. congruence. }
  destruct (evict_expired ord self now) as [s []].
  - destruct He as (k & e & Hk & _ & ->). split; [right; by eauto 10|eauto].
  - destruct He as [-> _]. cbv iota.
    pose proof (max_by_key_spec (λ ke : NodeAddr * CacheEntry, idle_time ke.2 now) (map_iter ord (entries self))) as Hm.
    destruct (max_by_key _ _) as [[k e]|].
    + destruct Hm as [Hin%elem_of_map_iter _]. split; [right; by eauto 10|eauto].
    + split; [by left|]. intros _. by apply (map_iter_nil ord).
Qed.

Lemma evicts_keeps P self self' a e : evicts P self self' →
  entries self !! a = Some e → ¬ P e → entries self' !! a = Some e.
Proof.
  intros [->|(k & e' & Hk & HP & ->)] Ha HnP; [done|]. simpl.
  destruct (decide (k = a)) as [->|]; [congruence|]. by rewrite lookup_delete_ne.
Qed.

Lemma evicts_frame P self self' : evicts P self self' →
  max_entries self' = max_entries self ∧ default_ttl_ms self' = default_ttl_ms self
  ∧ len self' ≤ len self ∧ (self' ≠ self → len self' < len self)
  ∧ ∀ a, entries self !! a = None → entries self' !! a = None.
Proof.
  intros [->|(k & e & Hk & _ & ->)]; [done|]. rewrite (len_delete self k e Hk).
  split_and!; [done|done|lia|lia|]. intros a Ha. simpl. by rewrite lookup_delete_None; right.
Qed.

(** Making room for a hint never touches a protected entry. *)
Lemma room_keeps self now a e : entries self !! a = Some e → protected e now →
  entries (if max_entries self <=? len self then evict_hint_victim ord self now else self) !! a = Some e.
Proof.
  intros Ha Hp. destruct (_ <=? _); [|done].
  destruct (evict_hint_spec self now) as [He _]. eapply evicts_keeps; [done|done|]. by intros [].
Qed.

Lemma insert_hint_keeps self x c now ttl a e :
  entries self !! a = Some e → protected e now →
  entries (insert_hint_with_ttl ord self x c now ttl).1 !! a = Some e.
Proof.
  intros Ha Hp. unfold insert_hint_with_ttl. destruct (entries self !! x) as [ex|] eqn:Hx.
  - destruct (is_verified ex now) eqn:Hv; [done|]. simpl.
    destruct (decide (x = a)) as [->|]; [|by rewrite lookup_insert_ne].
    destruct Hp as [Hp _]. congruence.
  - pose proof (room_keeps self now a e Ha Hp) as Hr.
    set (s := if max_entries self <=? len self then evict_hint_victim ord self now else self) in *.
    clearbody s. cbv zeta. destruct (_ <=? _); [done|]. simpl. by rewrite lookup_insert_ne by congruence.
Qed.

Lemma insert_mtu_keeps self x c now mtu a e :
  entries self !! a = Some e → protected e now →
  entries (insert_with_path_mtu_checked ord self x c now mtu).1 !! a = Some e.
Proof.
  intros Ha Hp. unfold insert_with_path_mtu_checked. destruct (entries self !! x) as [ex|] eqn:Hx.
  - destruct (is_verified ex now) eqn:Hv; [done|]. simpl.
    destruct (decide (x = a)) as [->|]; [|by rewrite lookup_insert_ne].
    destruct Hp as [Hp _]. congruence.
  - pose proof (room_keeps self now a e Ha Hp) as Hr.
    set (s := if max_entries self <=? len self then evict_hint_victim ord self now else self) in *.
    clearbody s. cbv zeta. destruct (_ <=? _); [done|]. simpl. by rewrite lookup_insert_ne by congruence.
Qed.

Lemma hint_step_keeps self now h a e :
  entries self !! a = Some e → protected e now → entries (hint_step ord self now h) !! a = Some e.
Proof.
  intros Ha Hp. destruct h; simpl.
  - by apply insert_hint_keeps.
  - by apply insert_hint_keeps.
  - by apply insert_mtu_keeps.
  - unfold insert_current_root_hint. destruct (_ || _); [done|].
    pose proof (insert_hint_keeps self addr coords0 now (default_ttl_ms self) a e Ha Hp) as Hk.
    unfold insert_checked. by destruct (insert_hint_with_ttl _ _ _ _ _ _).
Qed.

Lemma protected_earlier e now now' : now ≤ now' → protected e now' → protected e now.
Proof.
  unfold protected, is_verified, is_expired. rewrite !andb_true_iff, !Z.leb_le, !Z.ltb_ge.
  intros ? [[? ?] ?]. split; [split; [done|lia]|lia].
Qed.

(** *** Capacity *)

Definition within_capacity (self : CoordCache) : Prop := len self ≤ max_entries self.

Lemma len_insert_existing self a e e' : entries self !! a = Some e →
  len (set_entries self (<[a := e']> (entries self))) = len self.
Proof. intros Ha. unfold len. simpl. by rewrite map_size_insert_Some by eauto. Qed.

Lemma len_insert_fresh self a e' : entries self !! a = None →
  len (set_entries self (<[a := e']> (entries self))) = len self + 1.
Proof. intros Ha. unfold len. simpl. rewrite map_size_insert_None by done. lia. Qed.

(** Room then insert-if-room: the shape of every insertion of a fresh key. *)
Lemma capacity_fresh P self self' a e : evicts P self self' → within_capacity self →
  entries self !! a = None → max_entries self' <=? len self' = false →
  within_capacity (set_entries self' (<[a := e]> (entries self'))).
Proof.
  intros Hev Hcap Ha Hroom. destruct (evicts_frame P self self' Hev) as (Hm & _ & Hl & _ & Hn).
  unfold within_capacity. rewrite len_insert_fresh by auto. simpl. apply Z.leb_gt in Hroom. lia.
Qed.

Lemma capacity_evicts P self self' : evicts P self self' → within_capacity self → within_capacity self'.
Proof.
  intros Hev Hcap. destruct (evicts_frame P self self' Hev) as (Hm & _ & Hl & _).
  unfold within_capacity in *. lia.
Qed.

Lemma evicts_if P (b : bool) self self' : evicts P self self' → evicts P self (if b then self' else self).
Proof. destruct b; [done|]. by left. Qed.

Lemma capacity_existing self a e e' : entries self !! a = Some e → within_capacity self →
  within_capacity (set_entries self (<[a := e']> (entries self))).
Proof. intros Ha Hcap. unfold within_capacity. rewrite (len_insert_existing _ _ e) by done. done. Qed.

Lemma capacity_retain self keep : within_capacity self → within_capacity (retain self keep).1.
Proof.
  unfold within_capacity, len, retain. simpl. intros Hcap.
  pose proof (map_size_filter (M := gmap NodeAddr) (λ ke : NodeAddr * CacheEntry, keep ke.2 = true) (entries self)). lia.
Qed.

(** Names the cache after making room, and asks whether there is room now. *)
Ltac after_room self victim Hr :=
  cbv zeta;
  let s := fresh "room" in
  set (s := if max_entries self <=? len self then victim else self) in *;
  clearbody s; destruct (max_entries s <=? len s) eqn:Hr.

Create HintDb cache.
#[local] Hint Resolve capacity_existing capacity_fresh capacity_retain capacity_evicts : cache.

Lemma insert_hint_capacity self x c now ttl : within_capacity self →
  within_capacity (insert_hint_with_ttl ord self x c now ttl).1.
Proof.
  intros Hcap. unfold insert_hint_with_ttl. destruct (entries self !! x) as [ex|] eqn:Hx.
  - destruct (is_verified ex now); [done|]. by eapply capacity_existing.
  - pose proof (evicts_if _ (max_entries self <=? len self) _ _
      (proj1 (evict_hint_spec self now))) as Hev.
    after_room self (evict_hint_victim ord self now) Hr; simpl; eauto with cache.
Qed.

Lemma insert_mtu_capacity self x c now mtu : within_capacity self →
  within_capacity (insert_with_path_mtu_checked ord self x c now mtu).1.
Proof.
  intros Hcap. unfold insert_with_path_mtu_checked. destruct (entries self !! x) as [ex|] eqn:Hx.
  - destruct (is_verified ex now); [done|]. by eapply capacity_existing.
  - pose proof (evicts_if _ (max_entries self <=? len self) _ _
      (proj1 (evict_hint_spec self now))) as Hev.
    after_room self (evict_hint_victim ord self now) Hr; simpl; eauto with cache.
Qed.

Lemma hint_step_capacity self now h : within_capacity self → within_capacity (hint_step ord self now h).
Proof.
  intros Hcap. destruct h; simpl.
  - by apply insert_hint_capacity.
  - by apply insert_hint_capacity.
  - by apply insert_mtu_capacity.
  - unfold insert_current_root_hint. destruct (_ || _); [done|].
    pose proof (insert_hint_capacity self addr coords0 now (default_ttl_ms self) Hcap) as Hk.
    unfold insert_checked. by destruct (insert_hint_with_ttl _ _ _ _ _ _).
Qed.

Lemma step_capacity self now e : within_capacity self → within_capacity (step ord self now e).
Proof.
  intros Hcap. destruct e;
    [by apply hint_step_capacity| | | | |by apply capacity_retain| |by apply capacity_retain..|done];
    simpl.
  - unfold insert_verified. destruct (entries self !! addr) as [ex|] eqn:Hx; [by eapply capacity_existing|].
    pose proof (evicts_if _ (max_entries self <=? len self) _ _
      (proj1 (evict_verified_spec self now))) as Hev.
    after_room self (evict_verified_victim ord self now) Hr; eauto with cache.
  - unfold insert_verified_with_path_mtu.
    destruct (entries self !! addr) as [ex|] eqn:Hx; [by eapply capacity_existing|].
    pose proof (evicts_if _ (max_entries self <=? len self) _ _
      (proj1 (evict_verified_spec self now))) as Hev.
    after_room self (evict_verified_victim ord self now) Hr; eauto with cache.
  - unfold get_and_touch. destruct (entries self !! addr) as [ex|] eqn:Hx; [|done].
    destruct (is_expired ex now); simpl; [|by eapply capacity_existing].
    unfold within_capacity in *. rewrite (len_delete _ _ ex) by done. simpl. lia.
  - destruct (entries self !! addr) as [ex|] eqn:Hx.
    + unfold within_capacity in *. rewrite (len_delete _ _ ex) by done. simpl. lia.
    + by rewrite delete_id; destruct self.
  - unfold within_capacity, len in *. simpl. rewrite map_size_empty. lia.
Qed.

Lemma step_max self now e : max_entries (step ord self now e) = max_entries self.
Proof.
  assert (Hh : ∀ b, max_entries (if b : bool then evict_hint_victim ord self now else self) = max_entries self).
  { intros b. by destruct (evicts_frame _ _ _ (evicts_if _ b _ _ (proj1 (evict_hint_spec self now)))). }
  assert (Hv : ∀ b, max_entries (if b : bool then evict_verified_victim ord self now else self) = max_entries self).
  { intros b. by destruct (evicts_frame _ _ _ (evicts_if _ b _ _ (proj1 (evict_verified_spec self now)))). }
  assert (Hins : ∀ a c ttl, max_entries (insert_hint_with_ttl ord self a c now ttl).1 = max_entries self).
  { intros a c ttl. unfold insert_hint_with_ttl. destruct (entries self !! a).
    - by destruct (is_verified _ _).
    - specialize (Hh (max_entries self <=? len self)).
      by after_room self (evict_hint_victim ord self now) Hr. }
  destruct e as [[]| | | | | | | | | ]; simpl; try done.
  - apply Hins.
  - apply Hins.
  - unfold insert_with_path_mtu, insert_with_path_mtu_checked. destruct (entries self !! addr).
    + by destruct (is_verified _ _).
    + specialize (Hh (max_entries self <=? len self)).
      by after_room self (evict_hint_victim ord self now) Hr.
  - unfold insert_current_root_hint. destruct (_ || _); [done|]. unfold insert_checked.
    specialize (Hins addr coords0 (default_ttl_ms self)). by destruct (insert_hint_with_ttl _ _ _ _ _ _).
  - unfold insert_verified. destruct (entries self !! addr); [done|].
    specialize (Hv (max_entries self <=? len self)).
    by after_room self (evict_verified_victim ord self now) Hr.
  - unfold insert_verified_with_path_mtu. destruct (entries self !! addr); [done|].
    specialize (Hv (max_entries self <=? len self)).
    by after_room self (evict_verified_victim ord self now) Hr.
  - unfold get_and_touch. destruct (entries self !! addr); [|done]. by destruct (is_expired _ _).
Qed.

Lemma room_for_verified self now : within_capacity self → 1 ≤ max_entries self →
  let self' := if max_entries self <=? len self then evict_verified_victim ord self now else self in
  max_entries self' <=? len self' = false.
Proof.
  intros Hcap Hmax. destruct (Z.leb_spec (max_entries self) (len self)) as [Hfull|]; [|by apply Z.leb_gt].
  destruct (evict_verified_spec self now) as [Hev Hsame].
  destruct (evicts_frame _ _ _ Hev) as (Hm & _ & _ & Hlt & _). apply Z.leb_gt. rewrite Hm.
  unfold within_capacity in Hcap. enough (len (evict_verified_victim ord self now) < len self) by lia.
  apply Hlt. intros He%Hsame. unfold len in Hfull. rewrite He, map_size_empty in Hfull. lia.
Qed.

Lemma room_for_hint self now : within_capacity self →
  let self' := if max_entries self <=? len self then evict_hint_victim ord self now else self in
  max_entries self' <=? len self' = true ↔
  max_entries self ≤ len self ∧ ∀ k e, entries self !! k = Some e → protected e now.
Proof.
  intros Hcap. destruct (Z.leb_spec (max_entries self) (len self)) as [Hfull|Hroom];
    [|split; [|lia]; intros ?%Z.leb_le; lia].
  destruct (evict_hint_spec self now) as [Hev Hsame].
  destruct (evicts_frame _ _ _ Hev) as (Hm & _ & _ & Hlt & _). cbv zeta. rewrite Z.leb_le, Hm.
  unfold within_capacity in Hcap. split.
  - intros Hle. split; [done|]. apply Hsame. destruct Hev as [|(k & e & Hk & _ & Heq)]; [done|].
    rewrite Heq, (len_delete _ _ e Hk) in Hle. lia.
  - intros [_ Hall]. destruct Hev as [->|(k & e & Hk & Hnp & _)]; [done|]. destruct Hnp. eauto.
Qed.

End cache.

(** ** Properties *)

(** Hints never disturb proof. Any sequence of unauthenticated writes leaves every
    entry that is verified and unexpired throughout exactly as it was: not
    overwritten, and not evicted to make room. *)
Theorem hints_never_displace_verified ord self hs a e now :
  CoordCache.entries self !! a = Some e → protected e now →
  Forall (λ th, th.1 ≤ now) hs →
  CoordCache.entries (CacheHistory.run_hints ord self hs) !! a = Some e.
Proof.
  intros Ha Hp Hts. revert self Ha. induction Hts as [|[t h] hs Ht _ IH]; intros self Ha; [done|].
  apply IH. apply hint_step_keeps; [done|]. by eapply protected_earlier.
Qed.

(** The capacity is hard: no sequence of operations takes the cache over it. *)
Theorem coord_cache_capacity ord max ttl es :
  0 ≤ max →
  CoordCache.len (CacheHistory.run ord (CoordCache.new max ttl) es) ≤ max.
Proof.
  intros Hmax. assert (Hgen : ∀ es self, within_capacity self →
    within_capacity (CacheHistory.run ord self es)
    ∧ CoordCache.max_entries (CacheHistory.run ord self es) = CoordCache.max_entries self).
  { clear. intros es. induction es as [|[t e] es IH]; intros self Hcap; [done|].
    destruct (IH _ (step_capacity ord self t e Hcap)) as [Hc Hm]. split; [done|].
    etrans; [exact Hm|]. apply step_max. }
  destruct (Hgen es (CoordCache.new max ttl)) as [Hc Hm].
  - unfold within_capacity, CoordCache.len. simpl. rewrite map_size_empty. lia.
  - unfold within_capacity in Hc. by rewrite Hm in Hc.
Qed.

(** A proof is always recorded. While the cache has any capacity at all, coordinates
    established by a verified lookup can be read back at once, full cache or not,
    and are protected from hints. *)
Theorem verified_insert_visible ord self a c now :
  within_capacity self → 1 ≤ CoordCache.max_entries self →
  is_u64 now → is_u64 (CoordCache.default_ttl_ms self) →
  let self' := CoordCache.insert_verified ord self a c now in
  CoordCache.get self' a now = Some c
  ∧ ∃ e, CoordCache.entries self' !! a = Some e ∧ protected e now.
Proof.
  intros Hcap Hmax Hnow Httl. unfold CoordCache.insert_verified, CoordCache.get.
  assert (Hp : ∀ e, CacheEntry.is_expired (CacheEntry.mark_verified e now) now = false →
    protected (CacheEntry.mark_verified e now) now).
  { intros e He. split; [|done]. unfold CacheEntry.is_verified. simpl. apply Z.leb_le.
    unfold VERIFIED_TTL_MS. mlia. }
  assert (Hx : ∀ ttl, is_u64 ttl → sat_add_u64 now ttl <? now = false) by (intros; apply Z.ltb_ge; mlia).
  destruct (CoordCache.entries self !! a) as [ex|] eqn:Ha.
  - simpl. rewrite lookup_insert_eq. simpl. unfold CacheEntry.is_expired at 1. simpl. rewrite Hx by done.
    split; [done|]. eexists. split; [done|]. by apply Hp, Hx.
  - pose proof (room_for_verified ord self now Hcap Hmax) as Hroom. cbv zeta in Hroom |- *. rewrite Hroom.
    destruct (evicts_frame _ _ _ (evicts_if _ (CoordCache.max_entries self <=? CoordCache.len self) _ _
      (proj1 (evict_verified_spec ord self now)))) as (_ & Hd & _).
    cbn [CoordCache.entries CoordCache.set_entries]. rewrite lookup_insert_eq. simpl.
    unfold CacheEntry.is_expired at 1. simpl. rewrite Hd, Hx by done. split; [done|].
    eexists. split; [done|]. apply Hp. unfold CacheEntry.is_expired. simpl. by rewrite Hx.
Qed.

(** What a hint's outcome means. A hint is rejected exactly when its key holds a
    still-verified entry, or its key is absent and the cache is full of protected
    entries; in every other case the hinted coordinates can be read back at once. *)
Theorem hint_outcome_exact ord self a c now :
  within_capacity self → is_u64 now → is_u64 (CoordCache.default_ttl_ms self) →
  let '(self', outcome) := CoordCache.insert_checked ord self a c now in
  (outcome = CoordCache.Rejected ↔
     match CoordCache.entries self !! a with
     | Some e => CacheEntry.is_verified e now = true
     | None => CoordCache.max_entries self ≤ CoordCache.len self
               ∧ ∀ k e, CoordCache.entries self !! k = Some e → protected e now
     end)
  ∧ (outcome ≠ CoordCache.Rejected → CoordCache.get self' a now = Some c).
Proof.
  intros Hcap Hnow Httl. unfold CoordCache.insert_checked, CoordCache.insert_hint_with_ttl.
  assert (Hx : sat_add_u64 now (CoordCache.default_ttl_ms self) <? now = false)
    by (apply Z.ltb_ge; mlia).
  destruct (CoordCache.entries self !! a) as [ex|] eqn:Ha.
  - destruct (CacheEntry.is_verified ex now) eqn:Hv; [split; [done|by intros []]|].
    split; [by destruct (negb _)|]. intros _. unfold CoordCache.get. simpl. rewrite lookup_insert_eq. simpl.
    unfold CacheEntry.is_expired. simpl. by rewrite Hx.
  - pose proof (room_for_hint ord self now Hcap) as Hroom. cbv zeta in Hroom |- *.
    set (s := if CoordCache.max_entries self <=? CoordCache.len self
              then CoordCache.evict_hint_victim ord self now else self) in *. clearbody s.
    destruct (CoordCache.max_entries s <=? CoordCache.len s) eqn:Hr.
    + split; [|by intros []]. split; [intros _; by apply Hroom|done].
    + split; [split; [done|]; intros H%Hroom; congruence|]. intros _. unfold CoordCache.get. simpl.
      rewrite lookup_insert_eq. simpl. unfold CacheEntry.is_expired. simpl. by rewrite Hx.
Qed.

(** A cache of one entry, verified at time 0. *)
Definition sample_cache : CoordCache.CoordCache :=
  CoordCache.insert_verified canonical_order (CoordCache.new 1 1000) 7 (addr_only <$> [7; 1]) 0.

Lemma hints_never_displace_verified_witness :
  CoordCache.get (CacheHistory.run_hints canonical_order sample_cache
    [(1, CacheHistory.HintWrite 7 (addr_only <$> [7; 3])); (2, CacheHistory.HintWrite 8 (addr_only <$> [8; 3]))])
    7 3 = Some (addr_only <$> [7; 1]).
Proof.
  unfold CoordCache.get.
  rewrite (hints_never_displace_verified canonical_order sample_cache _ 7
    (CacheEntry.new_verified (addr_only <$> [7; 1]) 0 1000) 10).
  - by vm_compute.
  - by vm_compute.
  - by vm_compute.
  - repeat constructor; simpl; lia.
Defined.

Lemma coord_cache_capacity_witness :
  CoordCache.len (CacheHistory.run canonical_order (CoordCache.new 1 1000)
    [(0, CacheHistory.VerifiedWrite 7 (addr_only <$> [7; 1]));
     (1, CacheHistory.VerifiedWrite 8 (addr_only <$> [8; 1]))]) ≤ 1.
Proof. by apply coord_cache_capacity. Defined.

Lemma verified_insert_visible_witness :
  CoordCache.get (CoordCache.insert_verified canonical_order sample_cache 8 (addr_only <$> [8; 1]) 5) 8 5
  = Some (addr_only <$> [8; 1]).
Proof. apply verified_insert_visible; [by vm_compute|by vm_compute|mlia|by vm_compute]. Defined.

Lemma hint_outcome_exact_witness :
  CoordCache.get (CoordCache.insert_checked canonical_order (CoordCache.new 1 1000) 8
    (addr_only <$> [8; 1]) 5).1 8 5 = Some (addr_only <$> [8; 1]).
Proof.
  pose proof (hint_outcome_exact canonical_order (CoordCache.new 1 1000) 8 (addr_only <$> [8; 1]) 5
    ltac:(by vm_compute) ltac:(mlia) ltac:(by vm_compute)) as H.
  assert ((CoordCache.insert_checked canonical_order (CoordCache.new 1 1000) 8 (addr_only <$> [8; 1]) 5).2
    = CoordCache.Inserted) as E by (by vm_compute).
  destruct (CoordCache.insert_checked _ _ _ _ _) as [s o]. simpl in *. apply H. by rewrite E.
Defined.
