(* ===== verification/RecentRequests.v ===== *)
(** * Recent lookup requests ([crates/fips-core/src/proto/lookup_state.rs])

    The reverse-path table of discovery: which authenticated peer sent which
    lookup, so that its response is returned there, once. Entries are indexed by
    request id and, in arrival order, by ingress peer; admission is bounded in
    total and per peer, and never evicts a protected path. *)

From S2P Require Import Prelude Bytes NodeAddr.

Local Open Scope Z_scope.

Module RecentRequests.

Record RecentRequest := mkRecentRequest {
  admission_generation : Z;
  from_peer : NodeAddr;
  target : NodeAddr;
  timestamp_ms : Z;
  response_forwarded : bool;
  protected : bool
}.

Definition RecentRequest_new (from_peer target : NodeAddr) (timestamp_ms : Z) : RecentRequest :=
  mkRecentRequest 0 from_peer target timestamp_ms false false.

Definition is_expired (self : RecentRequest) (now expiry_ms : Z) : bool :=
  expiry_ms <? sat_sub now (timestamp_ms self).

Record RecentDiscoveryRequestAdmission := mkAdmission {
  accepted : bool;
  deduplicated : bool;
  evicted : bool
}.

Record RecentDiscoveryRequestLimits := mkLimits { max_entries : Z; peer_count : Z }.

Inductive RecentResponseForward :=
| Missing
| AlreadyForwarded
| Forward (from_peer : NodeAddr).

Record RecentDiscoveryRequests := mkRecent {
  entries : gmap Z RecentRequest;
  oldest_timestamp_ms : option Z;
  last_admission_generation : Z;
  by_peer : gmap NodeAddr (list Z)
}.

Definition new : RecentDiscoveryRequests := mkRecent ∅ None 0 ∅.

Definition len (self : RecentDiscoveryRequests) : Z := Z.of_nat (size (entries self)).

(** [!self.entries[id].protected]. The index panics on an unknown id; the
    invariant [index_ok] shows every indexed id is known. *)
Definition unprotected (self : RecentDiscoveryRequests) (id : Z) : bool :=
  match entries self !! id with Some r => negb (protected r) | None => true end.

Definition note_timestamp (self : RecentDiscoveryRequests) (ts : Z) : RecentDiscoveryRequests :=
  mkRecent (entries self)
    (Some (match oldest_timestamp_ms self with Some oldest => Z.min oldest ts | None => ts end))
    (last_admission_generation self) (by_peer self).

Definition evict_oldest (self : RecentDiscoveryRequests) (peer : NodeAddr)
    : RecentDiscoveryRequests * bool :=
  match by_peer self !! peer with
  | None => (self, false)
  | Some ids =>
      match list_find (λ id, unprotected self id = true) ids with
      | None => (self, false)
      | Some (index, request_id) =>
          let ids := delete index ids in
          let by_peer' :=
            match ids with
            | [] => delete peer (by_peer self)
            | _ => <[peer := ids]> (by_peer self)
            end in
          (mkRecent (delete request_id (entries self)) (oldest_timestamp_ms self)
             (last_admission_generation self) by_peer',
           match entries self !! request_id with Some _ => true | None => false end)
      end
  end.

Section iteration.
Context (ord : MapOrder NodeAddr (list Z)).

Definition admission_share (limits : RecentDiscoveryRequestLimits) : Z :=
  Z.max (max_entries limits / Z.max (peer_count limits) 1) 1.

Definition over_share (self : RecentDiscoveryRequests) (from : NodeAddr)
    (limits : RecentDiscoveryRequestLimits) : bool :=
  match by_peer self !! from with
  | Some ids => admission_share limits <=? Z.of_nat (length ids)
  | None => false
  end.

(** The peer that pays for an admission. *)
Definition victim (self : RecentDiscoveryRequests) (from : NodeAddr)
    (limits : RecentDiscoveryRequestLimits) : option NodeAddr :=
  if over_share self from limits then Some from
  else if max_entries limits <=? len self then
    fst <$> max_by_key (λ pi, Z.of_nat (length pi.2))
              (filter (λ pi, existsb (unprotected self) pi.2 = true) (map_iter ord (by_peer self)))
  else None.

Definition record_request (self : RecentDiscoveryRequests) (request_id : Z) (from target : NodeAddr)
    (now_ms : Z) (limits : RecentDiscoveryRequestLimits)
    : RecentDiscoveryRequests * RecentDiscoveryRequestAdmission :=
  match entries self !! request_id with
  | Some _ => (self, mkAdmission false true false)
  | None =>
      if max_entries limits =? 0 then (self, mkAdmission false false false)
      else if U64_MAX <=? last_admission_generation self then (self, mkAdmission false false false)
      else
        let generation := last_admission_generation self + 1 in
        let over := over_share self from limits in
        let at_capacity := max_entries limits <=? len self in
        let '(self', evicted) :=
          match victim self from limits with
          | Some peer => evict_oldest self peer
          | None => (self, false)
          end in
        if (over || at_capacity) && negb evicted then (self', mkAdmission false false false)
        else
          let request := mkRecentRequest generation from target now_ms false false in
          let self' := note_timestamp
            (mkRecent (<[request_id := request]> (entries self')) (oldest_timestamp_ms self')
               generation (by_peer self')) now_ms in
          let ids := match by_peer self' !! from with Some ids => ids | None => [] end in
          (mkRecent (entries self') (oldest_timestamp_ms self') (last_admission_generation self')
             (<[from := ids ++ [request_id]]> (by_peer self')),
           mkAdmission true false evicted)
  end.
End iteration.

Definition protect (self : RecentDiscoveryRequests) (request_id : Z) : RecentDiscoveryRequests :=
  match entries self !! request_id with
  | Some r =>
      if negb (response_forwarded r) then
        mkRecent (<[request_id := mkRecentRequest (admission_generation r) (from_peer r) (target r)
                     (timestamp_ms r) (response_forwarded r) true]> (entries self))
          (oldest_timestamp_ms self) (last_admission_generation self) (by_peer self)
      else self
  | None => self
  end.

Definition claim_response_forward (self : RecentDiscoveryRequests) (request_id : Z)
    (target' : NodeAddr) : RecentDiscoveryRequests * RecentResponseForward :=
  match entries self !! request_id with
  | None => (self, Missing)
  | Some r =>
      if negb (target r =? target') then (self, Missing)
      else if response_forwarded r then (self, AlreadyForwarded)
      else
        (mkRecent (<[request_id := mkRecentRequest (admission_generation r) (from_peer r) (target r)
                      (timestamp_ms r) true false]> (entries self))
           (oldest_timestamp_ms self) (last_admission_generation self) (by_peer self),
         Forward (from_peer r))
  end.

Definition remove (self : RecentDiscoveryRequests) (request_id : Z)
    : RecentDiscoveryRequests * option RecentRequest :=
  match entries self !! request_id with
  | None => (self, None)
  | Some removed =>
      let from := from_peer removed in
      let by_peer' :=
        match by_peer self !! from with
        | Some ids =>
            let ids := filter (λ c, c ≠ request_id) ids in
            match ids with
            | [] => delete from (by_peer self)
            | _ => <[from := ids]> (by_peer self)
            end
        | None => by_peer self
        end in
      (mkRecent (delete request_id (entries self)) (oldest_timestamp_ms self)
         (last_admission_generation self) by_peer', Some removed)
  end.

(** The minimum timestamp the [retain] closure accumulates. *)
Definition oldest_of (m : gmap Z RecentRequest) : option Z :=
  map_fold (λ _ r oldest,
    Some (match oldest with Some value => Z.min value (timestamp_ms r) | None => timestamp_ms r end))
    None m.

Definition purge_expired (self : RecentDiscoveryRequests) (now expiry_ms : Z)
    : RecentDiscoveryRequests :=
  if match oldest_timestamp_ms self with
     | Some oldest => sat_sub now oldest <=? expiry_ms
     | None => true
     end
  then self
  else
    let kept := filter (λ ir, is_expired ir.2 now expiry_ms = false) (entries self) in
    if (size kept =? size (entries self))%nat then
      mkRecent kept (oldest_of kept) (last_admission_generation self) (by_peer self)
    else
      mkRecent kept (oldest_of kept) (last_admission_generation self)
        (omap (λ ids, match filter (λ id, is_Some (kept !! id)) ids with
                      | [] => None
                      | ids => Some ids
                      end) (by_peer self)).

Definition get (self : RecentDiscoveryRequests) (request_id : Z) : option RecentRequest :=
  entries self !! request_id.

End RecentRequests.

(** ** Histories, with a log of the admissions whose response was forwarded *)
Module RecentHistory.
Import RecentRequests.

Inductive event :=
| Record_ (id : Z) (from target : NodeAddr) (now_ms : Z) (limits : RecentDiscoveryRequestLimits)
| Protect (id : Z)
| Claim (id : Z) (target : NodeAddr)
| Remove (id : Z)
| Purge (now expiry_ms : Z).

(** One admission: its number, the request id, the peer that sent it, the target it names. *)
Record admission := mkAdm {
  adm_generation : Z;
  adm_id : Z;
  adm_from : NodeAddr;
  adm_target : NodeAddr
}.

(** The table, the requests admitted so far and the responses forwarded so far. *)
Record state := mkState {
  table : RecentDiscoveryRequests;
  admissions : list admission;
  forwards : list admission
}.

Section run.
Context (ord : MapOrder NodeAddr (list Z)).

Definition step (s : state) (e : event) : state :=
  match e with
  | Record_ id from tgt now limits =>
      let '(table', adm) := record_request ord (table s) id from tgt now limits in
      mkState table'
        (if accepted adm
         then mkAdm (last_admission_generation table') id from tgt :: admissions s
         else admissions s)
        (forwards s)
  | Protect id => mkState (protect (table s) id) (admissions s) (forwards s)
  | Claim id tgt =>
      let '(table', outcome) := claim_response_forward (table s) id tgt in
      mkState table' (admissions s)
        (match outcome, entries (table s) !! id with
         | Forward p, Some r => mkAdm (admission_generation r) id p tgt :: forwards s
         | _, _ => forwards s
         end)
  | Remove id => mkState (remove (table s) id).1 (admissions s) (forwards s)
  | Purge now expiry => mkState (purge_expired (table s) now expiry) (admissions s) (forwards s)
  end.

Definition run (es : list event) : state := foldl step (mkState new [] []) es.
End run.
End RecentHistory.

Section table.
Import RecentRequests.

(** The two indexes agree: each peer's queue lists, once, exactly its entries. *)
Record index_ok (es : gmap Z RecentRequest) (bp : gmap NodeAddr (list Z)) : Prop := {
  idx_queue : ∀ p ids, bp !! p = Some ids → ids ≠ [] ∧ NoDup ids;
  idx_entry : ∀ p ids id, bp !! p = Some ids → id ∈ ids →
    ∃ r, es !! id = Some r ∧ from_peer r = p;
  idx_listed : ∀ id r, es !! id = Some r → ∃ ids, bp !! from_peer r = Some ids ∧ id ∈ ids
}.

(** The cached lower bound is below every timestamp. *)
Definition oldest_ok (es : gmap Z RecentRequest) (oldest : option Z) : Prop :=
  ∀ id r, es !! id = Some r → ∃ o, oldest = Some o ∧ o ≤ timestamp_ms r.

(** Admissions are numbered apart, and a forwarded one is not protected. *)
Record generations_ok (es : gmap Z RecentRequest) (last : Z) : Prop := {
  gen_bound : ∀ id r, es !! id = Some r → admission_generation r ≤ last;
  gen_inj : ∀ id r id' r', es !! id = Some r → es !! id' = Some r' →
    admission_generation r = admission_generation r' → id = id'
}.

Record table_ok (self : RecentDiscoveryRequests) : Prop := {
  ok_index : index_ok (entries self) (by_peer self);
  ok_oldest : oldest_ok (entries self) (oldest_timestamp_ms self);
  ok_generations : generations_ok (entries self) (last_admission_generation self)
}.

Lemma table_ok_new : table_ok new.
Proof. repeat split; intros *; simpl; rewrite ?lookup_empty; done. Qed.

(** *** Removing one entry *)

(** The queues after [id] left peer [p]'s. *)
Definition drop_from (bp : gmap NodeAddr (list Z)) (p : NodeAddr) (ids : list Z) : gmap NodeAddr (list Z) :=
  match ids with [] => delete p bp | _ => <[p := ids]> bp end.

Lemma drop_from_lookup bp p ids q : drop_from bp p ids !! q =
  if decide (p = q) then match ids with [] => None | _ => Some ids end else bp !! q.
Proof.
  unfold drop_from. destruct ids.
  - destruct (decide (p = q)) as [->|]; [apply lookup_delete_eq|by apply lookup_delete_ne].
  - destruct (decide (p = q)) as [->|]; [apply lookup_insert_eq|by apply lookup_insert_ne].
Qed.

Lemma index_remove es bp id r ids ids' :
  index_ok es bp → es !! id = Some r → bp !! from_peer r = Some ids →
  NoDup ids' → (∀ x, x ∈ ids' ↔ x ∈ ids ∧ x ≠ id) →
  index_ok (delete id es) (drop_from bp (from_peer r) ids').
Proof.
  intros [Hq He Hl] Hid Hids Hnd Hmem. split.
  - intros p l. rewrite drop_from_lookup. destruct (decide _) as [<-|]; [|apply Hq].
    by destruct ids'; intros [= <-].
  - intros p l x. rewrite drop_from_lookup. destruct (decide _) as [<-|Hp].
    + destruct ids' as [|y ids']; [done|]. intros [= <-] [Hx Hne]%Hmem.
      destruct (He _ _ _ Hids Hx) as (rx & Hrx & Hf). exists rx. by rewrite lookup_delete_ne.
    + intros Hp' Hx. destruct (He _ _ _ Hp' Hx) as (rx & Hrx & Hf). exists rx.
      rewrite lookup_delete_ne; [done|]. intros ->. congruence.
  - intros x rx [Hne Hrx]%lookup_delete_Some. destruct (Hl _ _ Hrx) as (l & Hl' & Hx).
    rewrite drop_from_lookup. destruct (decide _) as [Heq|]; [|by eauto].
    assert (x ∈ ids') as Hin by (apply Hmem; split; [congruence|done]).
    destruct ids'; [set_solver|by eauto].
Qed.

Lemma oldest_delete es oldest id : oldest_ok es oldest → oldest_ok (delete id es) oldest.
Proof. intros Ho x rx [_ Hrx]%lookup_delete_Some. by eapply Ho. Qed.

Lemma generations_delete es last id : generations_ok es last → generations_ok (delete id es) last.
Proof.
  intros [Hb Hi]. split.
  - intros x rx [_ Hrx]%lookup_delete_Some. by eapply Hb.
  - intros x rx y ry [_ Hx]%lookup_delete_Some [_ Hy]%lookup_delete_Some. by eapply Hi.
Qed.

Lemma evict_oldest_spec self peer : table_ok self →
  match evict_oldest self peer with
  | (self', true) => ∃ id r, entries self !! id = Some r ∧ protected r = false ∧ from_peer r = peer
      ∧ entries self' = delete id (entries self)
      ∧ last_admission_generation self' = last_admission_generation self
      ∧ table_ok self'
  | (self', false) => self' = self
      ∧ ∀ ids, by_peer self !! peer = Some ids → Forall (λ id, unprotected self id = false) ids
  end.
Proof.
  intros [Hidx Hold Hgen]. unfold evict_oldest.
  destruct (by_peer self !! peer) as [ids|] eqn:Hids; [|split; [done|by intros]].
  destruct (list_find _ ids) as [[i id]|] eqn:Hf.
  - apply list_find_Some in Hf as (Hi & Hu & _).
    destruct (idx_entry _ _ Hidx _ _ id Hids) as (r & Hr & Hp); [by eapply list_elem_of_lookup_2|].
    rewrite Hr. exists id, r. unfold unprotected in Hu. rewrite Hr in Hu. apply negb_true_iff in Hu.
    destruct (idx_queue _ _ Hidx _ _ Hids) as [_ Hnd]. split_and!; try done.
    split; simpl; [|by apply oldest_delete|by apply generations_delete].
    destruct (NoDup_delete_at ids i id Hnd Hi) as [Hnd' Hmem].
    rewrite <- Hp in Hids |- *. by apply (index_remove _ _ id r ids (delete i ids)).
  - split; [done|]. intros ids' [= <-]. apply list_find_None in Hf.
    eapply Forall_impl; [done|]. intros x Hx. by apply not_true_is_false.
Qed.

(** *** Admission *)

Lemma index_admit es bp id r :
  index_ok es bp → es !! id = None →
  index_ok (<[id := r]> es)
    (<[from_peer r := match bp !! from_peer r with Some ids => ids | None => [] end ++ [id]]> bp).
Proof.
  intros [Hq He Hl] Hid.
  assert (Hnew : ∀ p ids, bp !! p = Some ids → id ∉ ids).
  { intros p ids Hp Hin. destruct (He _ _ _ Hp Hin) as (rx & Hrx & _). congruence. }
  split.
  - intros p l [[<- <-]|[_ Hp]]%lookup_insert_Some; [|by eapply Hq]. split; [by intros [_ ?]%app_nil|].
    destruct (bp !! from_peer r) as [ids|] eqn:Hids; [|apply NoDup_singleton].
    apply NoDup_app. split; [by eapply Hq|]. split; [|apply NoDup_singleton].
    intros x Hx ->%list_elem_of_singleton. by eapply Hnew.
  - intros p l x [[<- <-]|[Hne Hp]]%lookup_insert_Some Hx.
    + apply elem_of_app in Hx as [Hx| ->%list_elem_of_singleton]; [|exists r; by rewrite lookup_insert_eq].
      destruct (bp !! from_peer r) as [ids|] eqn:Hids; [|set_solver].
      destruct (He _ _ _ Hids Hx) as (rx & Hrx & Hf). exists rx.
      rewrite lookup_insert_ne; [done|]. congruence.
    + destruct (He _ _ _ Hp Hx) as (rx & Hrx & Hf). exists rx.
      rewrite lookup_insert_ne; [done|]. congruence.
  - intros x rx [[<- <-]|[Hne Hrx]]%lookup_insert_Some.
    + eexists. rewrite lookup_insert_eq. split; [done|]. set_solver.
    + destruct (Hl _ _ Hrx) as (ids & Hids & Hin). destruct (decide (from_peer r = from_peer rx)) as [Heq|].
      * eexists. rewrite Heq, lookup_insert_eq. split; [done|]. rewrite Hids. set_solver.
      * exists ids. by rewrite lookup_insert_ne.
Qed.

Lemma oldest_admit es oldest id r : oldest_ok es oldest →
  oldest_ok (<[id := r]> es)
    (Some (match oldest with Some o => Z.min o (timestamp_ms r) | None => timestamp_ms r end)).
Proof.
  intros Ho x rx [[<- <-]|[_ Hrx]]%lookup_insert_Some; eexists; (split; [done|]).
  - destruct oldest; lia.
  - destruct (Ho _ _ Hrx) as (o & -> & Hle). lia.
Qed.

Lemma generations_admit es last id r : generations_ok es last → admission_generation r = last + 1 →
  generations_ok (<[id := r]> es) (last + 1).
Proof.
  intros [Hb Hi] Hr. split.
  - intros x rx [[<- <-]|[_ Hx]]%lookup_insert_Some; [lia|]. specialize (Hb _ _ Hx). lia.
  - intros x rx y ry [[<- <-]|[Hx Hrx]]%lookup_insert_Some [[<- <-]|[Hy Hry]]%lookup_insert_Some Heq;
      [done| | |by eapply Hi].
    + specialize (Hb _ _ Hry). lia.
    + specialize (Hb _ _ Hrx). lia.
Qed.

(** What an admission does to the table: refuse it unchanged, or admit after at
    most one eviction of an unprotected entry of the paying peer. *)
Lemma record_request_spec ord self id from tgt now limits : table_ok self →
  let '(self', adm) := record_request ord self id from tgt now limits in
  table_ok self' ∧
  if accepted adm then
    entries self !! id = None ∧
    last_admission_generation self' = last_admission_generation self + 1 ∧
    ∃ es, entries self' = <[id := mkRecentRequest (last_admission_generation self + 1) from tgt now false false]> es
      ∧ if evicted adm
        then ∃ v rv, entries self !! v = Some rv ∧ protected rv = false
               ∧ victim ord self from limits = Some (from_peer rv) ∧ es = delete v (entries self)
        else es = entries self ∧ len self < max_entries limits
  else self' = self.
Proof.
  intros Hok. unfold record_request. destruct (entries self !! id) as [r0|] eqn:Hid; [done|].
  destruct (Z.eqb_spec (max_entries limits) 0); [done|].
  destruct (U64_MAX <=? last_admission_generation self); [done|].
  assert (Hadmit : ∀ self1, table_ok self1 → entries self1 !! id = None →
    last_admission_generation self1 = last_admission_generation self →
    table_ok (mkRecent (<[id := mkRecentRequest (last_admission_generation self + 1) from tgt now false false]> (entries self1))
      (Some (match oldest_timestamp_ms self1 with Some o => Z.min o now | None => now end))
      (last_admission_generation self + 1)
      (<[from := match by_peer self1 !! from with Some ids => ids | None => [] end ++ [id]]> (by_peer self1)))).
  { intros self1 [Hi Ho Hg] Hn Hlast. rewrite Hlast in Hg. split; simpl.
    - by apply (index_admit _ _ id (mkRecentRequest (last_admission_generation self + 1) from tgt now false false)).
    - by apply (oldest_admit _ _ id (mkRecentRequest (last_admission_generation self + 1) from tgt now false false)).
    - by apply generations_admit. }
  destruct (victim ord self from limits) as [v|] eqn:Hv.
  - pose proof (evict_oldest_spec self v Hok) as Hev. destruct (evict_oldest self v) as [self1 []].
    + destruct Hev as (vid & rv & Hvid & Hunp & Hfrom & Hes & Hlast & Hok1). rewrite andb_false_r. simpl.
      assert (entries self1 !! id = None) as Hn by (rewrite Hes; by rewrite lookup_delete_None; right).
      split; [by apply Hadmit|]. split; [done|]. split; [done|]. eexists. split; [done|].
      exists vid, rv. split_and!; [done|done|congruence|done].
    + destruct Hev as [-> _]. rewrite andb_true_r. destruct (_ || _) eqn:Hor; simpl; [done|].
      apply orb_false_iff in Hor as [_ Hcap%Z.leb_gt].
      split; [by apply Hadmit|]. split; [done|]. split; [done|]. eauto.
  - rewrite andb_true_r. destruct (_ || _) eqn:Hor; simpl; [done|].
    apply orb_false_iff in Hor as [_ Hcap%Z.leb_gt].
    split; [by apply Hadmit|]. split; [done|]. split; [done|]. eauto.
Qed.

(** *** Updates in place *)

Lemma update_ok self id r r' : table_ok self → entries self !! id = Some r →
  from_peer r' = from_peer r → timestamp_ms r' = timestamp_ms r →
  admission_generation r' = admission_generation r →
  table_ok (mkRecent (<[id := r']> (entries self)) (oldest_timestamp_ms self)
    (last_admission_generation self) (by_peer self)).
Proof.
  intros [[Hq He Hl] Ho [Hb Hi]] Hid Hf Ht Hg.
  assert (Hback : ∀ x rx, <[id := r']> (entries self) !! x = Some rx →
    ∃ ry, entries self !! x = Some ry ∧ from_peer rx = from_peer ry
      ∧ timestamp_ms rx = timestamp_ms ry ∧ admission_generation rx = admission_generation ry).
  { intros x rx [[<- <-]|[_ Hx]]%lookup_insert_Some; eauto. }
  split; simpl.
  - split; [done| |].
    + intros p ids x Hp Hx. destruct (He _ _ _ Hp Hx) as (rx & Hrx & Hfx).
      destruct (decide (id = x)) as [->|]; [|exists rx; by rewrite lookup_insert_ne].
      exists r'. rewrite lookup_insert_eq. split; [done|]. congruence.
    + intros x rx (ry & Hy & -> & _)%Hback. eauto.
  - intros x rx (ry & Hy & _ & -> & _)%Hback. eauto.
  - split.
    + intros x rx (ry & Hy & _ & _ & ->)%Hback. eauto.
    + intros x rx y ry (rx' & Hx & _ & _ & ->)%Hback (ry' & Hy & _ & _ & ->)%Hback. eauto.
Qed.

Lemma protect_ok self id : table_ok self → table_ok (protect self id).
Proof.
  intros Hok. unfold protect. destruct (entries self !! id) as [r|] eqn:Hr; [|done].
  destruct (negb _); [|done]. by eapply update_ok.
Qed.

Lemma claim_ok self id tgt : table_ok self → table_ok (claim_response_forward self id tgt).1.
Proof.
  intros Hok. unfold claim_response_forward. destruct (entries self !! id) as [r|] eqn:Hr; [|done].
  destruct (negb _); [done|]. destruct (response_forwarded r); [done|]. by eapply update_ok.
Qed.

Lemma remove_ok self id : table_ok self → table_ok (remove self id).1.
Proof.
  intros Hok. unfold remove. destruct (entries self !! id) as [r|] eqn:Hr; [|done].
  destruct Hok as [Hi Ho Hg]. destruct (idx_listed _ _ Hi _ _ Hr) as (ids & Hids & Hin). rewrite Hids.
  destruct (idx_queue _ _ Hi _ _ Hids) as [_ Hnd].
  split; simpl; [|by apply oldest_delete|by apply generations_delete].
  apply (index_remove _ _ id r ids (filter (λ c, c ≠ id) ids)); [done..|by apply NoDup_filter|].
  intros x. rewrite list_elem_of_filter. naive_solver.
Qed.

(** *** Expiry *)

Lemma oldest_of_ok m : oldest_ok m (oldest_of m).
Proof.
  unfold oldest_of. apply (map_fold_weak_ind (λ o m, oldest_ok m o)); [by intros id r|].
  intros id r m' o Hid IH x rx [[<- <-]|[_ Hx]]%lookup_insert_Some; eexists; (split; [done|]).
  - destruct o; lia.
  - destruct (IH _ _ Hx) as (o' & -> & Hle). lia.
Qed.

Lemma filter_same_size {A} (m : gmap Z A) (P : Z * A → Prop) `{!∀ x, Decision (P x)} :
  size (filter P m) = size m → filter P m = m.
Proof.
  intros Hs. apply map_subseteq_size_eq; [apply map_filter_subseteq|lia].
Qed.

(** Purging removes exactly the expired entries; the early return loses nothing. *)
Lemma purge_entries self now expiry : table_ok self → 0 ≤ expiry →
  entries (purge_expired self now expiry) =
  filter (λ ir, is_expired ir.2 now expiry = false) (entries self).
Proof.
  intros [_ Ho _] Hexp. unfold purge_expired.
  destruct (match oldest_timestamp_ms self with Some _ => _ | None => _ end) eqn:Hearly;
    [|by destruct (_ =? _)%nat].
  symmetry. apply map_filter_id. intros id r Hr. destruct (Ho _ _ Hr) as (o & Ho' & Hle).
  rewrite Ho' in Hearly. apply Z.leb_le in Hearly. unfold is_expired. apply Z.ltb_ge. simpl. mlia.
Qed.

Lemma purge_ok self now expiry : table_ok self → table_ok (purge_expired self now expiry).
Proof.
  intros [[Hq He Hl] Ho [Hb Hi]]. unfold purge_expired.
  destruct (match oldest_timestamp_ms self with Some _ => _ | None => _ end); [done|].
  set (kept := filter _ _).
  assert (Hk : ∀ id r, kept !! id = Some r → entries self !! id = Some r)
    by (intros id r [? _]%map_lookup_filter_Some; done).
  assert (Hg : generations_ok kept (last_admission_generation self)) by (split; eauto).
  destruct (Nat.eqb_spec (size kept) (size (entries self))) as [Hs|_].
  { unfold kept in *. rewrite (filter_same_size _ _ Hs) in *. split; simpl; [done|apply oldest_of_ok|done]. }
  split; simpl; [|apply oldest_of_ok|done].
  assert (Hlook : ∀ p l, omap (λ ids, match filter (λ id, is_Some (kept !! id)) ids with
      | [] => None | ids => Some ids end) (by_peer self) !! p = Some l →
    l ≠ [] ∧ ∃ ids, by_peer self !! p = Some ids ∧ l = filter (λ id, is_Some (kept !! id)) ids).
  { intros p l (ids & Hids & Hl')%lookup_omap_Some. destruct (filter _ ids) eqn:Hf; simplify_eq. eauto. }
  split.
  - intros p l (Hne & ids & Hids & ->)%Hlook. split; [done|]. by eapply NoDup_filter, Hq.
  - intros p l x (Hne & ids & Hids & ->)%Hlook [[r Hr] Hx]%list_elem_of_filter.
    destruct (He _ _ _ Hids Hx) as (rx & Hrx & Hf). exists r. split; [done|]. apply Hk in Hr. congruence.
  - intros x rx Hx. destruct (Hl _ _ (Hk _ _ Hx)) as (ids & Hids & Hin).
    exists (filter (λ id, is_Some (kept !! id)) ids).
    assert (x ∈ filter (λ id, is_Some (kept !! id)) ids) as Hin' by (apply list_elem_of_filter; eauto).
    split; [|done]. apply lookup_omap_Some. exists ids. split; [|done].
    cbv beta. destruct (filter (λ id, is_Some (kept !! id)) ids); [set_solver|done].
Qed.

End table.

Section history.
Import RecentRequests RecentHistory.
Context (ord : MapOrder NodeAddr (list Z)).

(** Logs and table agree: every entry was admitted as the log says, every forward
    answers an admission, and an entry whose response was forwarded is marked so. *)
Record logs_ok (s : state) : Prop := {
  log_table : table_ok (table s);
  log_entry : ∀ id r, entries (table s) !! id = Some r →
    mkAdm (admission_generation r) id (from_peer r) (target r) ∈ admissions s;
  log_forward : ∀ f, f ∈ forwards s → f ∈ admissions s
    ∧ adm_generation f ≤ last_admission_generation (table s)
    ∧ ∀ id r, entries (table s) !! id = Some r → admission_generation r = adm_generation f →
        response_forwarded r = true;
  log_once : NoDup (adm_generation <$> forwards s)
}.

(** Steps that only drop entries or change flags of entries keep the logs. *)
Lemma logs_shrink s t : logs_ok s → table_ok t →
  last_admission_generation t = last_admission_generation (table s) →
  (∀ id r, entries t !! id = Some r → ∃ r0, entries (table s) !! id = Some r0
     ∧ admission_generation r = admission_generation r0 ∧ from_peer r = from_peer r0
     ∧ target r = target r0 ∧ (response_forwarded r0 = true → response_forwarded r = true)) →
  logs_ok (mkState t (admissions s) (forwards s)).
Proof.
  intros [Ht He Hf Ho] Hok Hlast Hback. split; simpl; [done| | |done].
  - intros id r (r0 & H0 & -> & -> & -> & _)%Hback. by apply He.
  - intros f Hin. destruct (Hf f Hin) as (Ha & Hg & Hr). split; [done|]. split; [lia|].
    intros id r (r0 & H0 & Hgen & _ & _ & Himp)%Hback Heq. apply Himp. eapply Hr; [done|congruence].
Qed.

Lemma logs_record s id from tgt now limits : logs_ok s →
  logs_ok (step ord s (Record_ id from tgt now limits)).
Proof.
  intros Hs. pose proof Hs as [Ht He Hf Ho]. simpl.
  pose proof (record_request_spec ord (table s) id from tgt now limits Ht) as Hr.
  destruct (record_request _ _ _ _ _ _ _) as [t adm]. destruct Hr as [Hok Hr].
  destruct (accepted adm); [|subst t; by destruct s].
  destruct Hr as (Hnew & Hlast & es & Hes & Hev).
  assert (Hsub : ∀ x rx, es !! x = Some rx → entries (table s) !! x = Some rx).
  { intros x rx Hx. destruct (evicted adm); [|destruct Hev as [-> _]; done].
    destruct Hev as (v & rv & _ & _ & _ & ->). by apply lookup_delete_Some in Hx as [_ ?]. }
  split; simpl; [done| | |done].
  - intros x rx. rewrite Hes. intros [[<- <-]|[_ Hx%Hsub]]%lookup_insert_Some; simpl.
    + rewrite Hlast. left.
    + right. by apply He.
  - intros f Hin. destruct (Hf f Hin) as (Ha & Hg & Hfwd). split; [by right|]. split; [lia|].
    intros x rx. rewrite Hes. intros [[<- <-]|[_ Hx%Hsub]]%lookup_insert_Some; simpl; [lia|eauto].
Qed.

Lemma logs_claim s id tgt : logs_ok s → logs_ok (step ord s (Claim id tgt)).
Proof.
  intros Hs. pose proof Hs as [Ht He Hf Ho]. simpl.
  pose proof (claim_ok (table s) id tgt Ht) as Hok. revert Hok. unfold claim_response_forward.
  destruct (entries (table s) !! id) as [r|] eqn:Hr; [|by destruct s].
  destruct (Z.eqb_spec (target r) tgt) as [Htgt|]; simpl; [|by destruct s].
  destruct (response_forwarded r) eqn:Hrf; [by destruct s|]. simpl. intros Hok.
  assert (Hfresh : admission_generation r ∉ adm_generation <$> forwards s).
  { intros (f & Hg & Hin)%list_elem_of_fmap. destruct (Hf f Hin) as (_ & _ & Hfwd).
    specialize (Hfwd id r Hr Hg). congruence. }
  destruct Ht as [_ _ [Hb Hinj]].
  split; simpl; [done| | |by constructor].
  - intros x rx [[<- <-]|[_ Hx]]%lookup_insert_Some; simpl; [by apply He|by apply He].
  - intros f [->|Hin]%elem_of_cons; simpl.
    + split; [rewrite <- Htgt; by apply He|]. split; [by eapply Hb|].
      intros x rx [[<- <-]|[Hne Hx]]%lookup_insert_Some Heq; [done|]. destruct Hne. by eapply Hinj.
    + destruct (Hf f Hin) as (Ha & Hg & Hfwd). split; [done|]. split; [done|].
      intros x rx [[<- <-]|[_ Hx]]%lookup_insert_Some Heq; [done|by eapply Hfwd].
Qed.

Lemma logs_step s e : logs_ok s → logs_ok (step ord s e).
Proof.
  intros Hs. pose proof (log_table _ Hs) as Ht. destruct e.
  - by apply logs_record.
  - apply logs_shrink; [done|by apply protect_ok| |]; unfold protect;
      (destruct (entries (table s) !! id) as [r|] eqn:Hr; [|by eauto 10]);
      (destruct (negb _); [|by eauto 10]); [done|].
    cbn [entries]. intros x rx [[<- <-]|[_ Hx]]%lookup_insert_Some; eauto 10.
  - by apply logs_claim.
  - apply logs_shrink; [done|by apply remove_ok| |]; unfold remove;
      (destruct (entries (table s) !! id) as [r|] eqn:Hr; [|by eauto 10]); [done|].
    simpl. intros x rx [_ Hx]%lookup_delete_Some. eauto 10.
  - apply logs_shrink; [done|by apply purge_ok| |]; unfold purge_expired;
      destruct (match oldest_timestamp_ms _ with Some _ => _ | None => _ end); [done| |by eauto 10|];
      destruct (_ =? _)%nat; simpl; [done|done| |];
      intros x rx [Hx _]%map_lookup_filter_Some; eauto 10.
Qed.

Lemma logs_run es : logs_ok (run ord es).
Proof.
  unfold run. induction es as [|e es IH] using rev_ind.
  - split; simpl; [apply table_ok_new|done|set_solver|constructor].
  - rewrite foldl_app. by apply logs_step.
Qed.

End history.

(** ** Properties *)

(** C29: a response goes back once, to the peer that asked. In every history of
    admissions, claims, removals and expiry, each forwarded response answers an
    admitted request with the same id and target, goes to the peer that request
    came from, and no admission is answered twice. *)
Theorem response_forwarded_once ord es :
  let s := RecentHistory.run ord es in
  NoDup (RecentHistory.adm_generation <$> RecentHistory.forwards s)
  ∧ ∀ f, f ∈ RecentHistory.forwards s → f ∈ RecentHistory.admissions s.
Proof.
  intros s. destruct (logs_run ord es) as [_ _ Hf Ho]. split; [done|]. intros f Hin. by apply Hf.
Qed.

(** The indexes always agree. After any history each peer's queue lists exactly
    the entries that peer sent, without repetition, so indexing by a queued id
    never fails; the cached oldest timestamp bounds every entry; and admission
    numbers are distinct. *)
Theorem recent_requests_indexes_agree ord es :
  table_ok (RecentHistory.table (RecentHistory.run ord es)).
Proof. apply logs_run. Qed.

(** Expiry is exact. In every reachable table, [purge_expired] removes the expired
    entries and no others, although it usually returns early without a scan. *)
Theorem purge_expired_exact ord es now expiry_ms :
  0 ≤ expiry_ms →
  let t := RecentHistory.table (RecentHistory.run ord es) in
  RecentRequests.entries (RecentRequests.purge_expired t now expiry_ms) =
  filter (λ ir, RecentRequests.is_expired ir.2 now expiry_ms = false) (RecentRequests.entries t).
Proof. intros Hexp t. apply purge_entries; [apply logs_run|done]. Qed.

(** Admission evicts fairly. Admitting a request keeps every protected entry; when
    the sender already holds its share, only entries of the sender are at risk;
    and the table never outgrows the limit it had room for. *)
Theorem admission_is_fair ord es id from tgt now limits :
  let t := RecentHistory.table (RecentHistory.run ord es) in
  let t' := (RecentRequests.record_request ord t id from tgt now limits).1 in
  (∀ x r, RecentRequests.entries t !! x = Some r → RecentRequests.protected r = true →
     RecentRequests.entries t' !! x = Some r)
  ∧ (RecentRequests.over_share t from limits = true →
     ∀ x r, RecentRequests.entries t !! x = Some r → RecentRequests.from_peer r ≠ from →
       RecentRequests.entries t' !! x = Some r)
  ∧ RecentRequests.len t' ≤ Z.max (RecentRequests.len t) (RecentRequests.max_entries limits).
Proof.
  intros t t'. pose proof (log_table _ (logs_run ord es)) as Hok. fold t in Hok.
  pose proof (record_request_spec ord t id from tgt now limits Hok) as Hr.
  unfold t'. destruct (RecentRequests.record_request ord t id from tgt now limits) as [t1 adm]. simpl.
  destruct Hr as [_ Hr]. destruct (RecentRequests.accepted adm); [|subst t1; split_and!; [done|done|lia]].
  destruct Hr as (Hnew & _ & m & Hes & Hev). rewrite Hes. unfold RecentRequests.len. rewrite Hes.
  assert (Hx : ∀ x r, m !! x = Some r → RecentRequests.entries t !! x = Some r →
    <[id := RecentRequests.mkRecentRequest (RecentRequests.last_admission_generation t + 1)
        from tgt now false false]> m !! x = Some r).
  { intros x r Hm Ht. rewrite lookup_insert_ne by congruence. done. }
  destruct (RecentRequests.evicted adm).
  - destruct Hev as (v & rv & Hv & Hunp & Hvic & ->). split_and!.
    + intros x r Hxr Hp. apply Hx; [|done]. rewrite lookup_delete_ne; [done|]. intros ->. congruence.
    + intros Hover x r Hxr Hne. apply Hx; [|done]. rewrite lookup_delete_ne; [done|]. intros ->.
      unfold RecentRequests.victim in Hvic. rewrite Hover in Hvic. congruence.
    + rewrite map_size_insert_None by (rewrite lookup_delete_None; by right).
      rewrite map_size_delete_Some by eauto.
      assert (size (RecentRequests.entries t) ≠ 0%nat); [|lia].
      intros Hz%map_size_empty_inv. by rewrite Hz in Hv.
  - destruct Hev as [-> Hlt]. split_and!; [auto|auto|].
    rewrite map_size_insert_None by done. unfold RecentRequests.len in Hlt. lia.
Qed.

Lemma purge_expired_exact_witness :
  RecentRequests.entries (RecentRequests.purge_expired
    (RecentHistory.table (RecentHistory.run canonical_order
      [RecentHistory.Record_ 1 10 20 100 (RecentRequests.mkLimits 4 2)])) 500 50) = ∅.
Proof.
  rewrite (purge_expired_exact canonical_order
    [RecentHistory.Record_ 1 10 20 100 (RecentRequests.mkLimits 4 2)] 500 50); [by vm_compute|done].
Defined.
