(* ===== verification/RateLimit.v ===== *)
(** * Routing-error rate limiting ([crates/fips-core/src/proto/rate_limit.rs])

    At most one error signal per destination and interval, remembered in a map
    of bounded size that is swept now and then. The first section is the
    argument every interval limiter of the node shares: as long as a limiter
    only forgets a key once its interval has passed, admissions of one key are
    spaced by the interval. Instants and durations are nanoseconds. *)

From S2P Require Import Prelude Bytes NodeAddr.

Local Open Scope Z_scope.

(** ** Spacing of admissions *)

Section interval.
Context {K : Type} `{Countable K} (min_interval : Z).

(** A log of admissions, newest first: two of the same key are [min_interval] apart. *)
Definition spaced (log : list (K * Z)) : Prop :=
  ∀ i j k t t', (i < j)%nat → log !! i = Some (k, t') → log !! j = Some (k, t) →
    min_interval ≤ t' - t.

(** Every logged admission is still covered by the map, or its interval is over. *)
Definition remembered (m : gmap K Z) (now : Z) (log : list (K * Z)) : Prop :=
  ∀ k t, (k, t) ∈ log → t ≤ now ∧
    ((∃ t', m !! k = Some t' ∧ t ≤ t' ≤ now) ∨ t + min_interval ≤ now).

Lemma remembered_later m now now' log : now ≤ now' → remembered m now log → remembered m now' log.
Proof.
  intros Hle Hr k t Hin. destruct (Hr k t Hin) as [Ht [(t' & Hm & ?)|?]]; (split; [lia|]); [left|right; lia].
  exists t'. split; [done|lia].
Qed.

Lemma remembered_drop m m' now log : remembered m now log →
  (∀ k t, m !! k = Some t → m' !! k = Some t ∨ t + min_interval ≤ now) →
  remembered m' now log.
Proof.
  intros Hr Hdrop k t Hin. destruct (Hr k t Hin) as [Ht [(t' & Hm & ?)|?]]; (split; [done|]); [|by right].
  destruct (Hdrop k t' Hm) as [Hm'|?]; [left; eauto|right; lia].
Qed.

Lemma spaced_admit m now log k : spaced log → remembered m now log →
  (∀ t, m !! k = Some t → min_interval ≤ sat_sub now t) →
  spaced ((k, now) :: log) ∧ remembered (<[k := now]> m) now ((k, now) :: log).
Proof.
  intros Hs Hr Hk. split.
  - intros i j k' t t' Hij Hi Hj. destruct j as [|j]; [lia|]. simpl in Hj. destruct i as [|i].
    + simpl in Hi. simplify_eq. apply list_elem_of_lookup_2, Hr in Hj as [Ht [(t2 & Hm & ?)|?]]; [|lia].
      specialize (Hk t2 Hm). mlia.
    + apply (Hs i j k' t t'); [lia|done|done].
  - intros k' t [Heq|Hin]%elem_of_cons.
    + simplify_eq. split; [done|]. left. exists now. by rewrite lookup_insert_eq.
    + destruct (Hr k' t Hin) as [Ht [(t' & Hm & ?)|?]]; (split; [done|]); [left|by right].
      destruct (decide (k = k')) as [->|]; [exists now; by rewrite lookup_insert_eq|].
      exists t'. by rewrite lookup_insert_ne.
Qed.
End interval.

(** ** The limiter *)

Module RoutingErrorRateLimiter.

Definition MAX_ENTRIES : Z := 4096.
Definition SWEEPS_PER_MAX_AGE : Z := 8.

Inductive LimitVerdict := Admit | AdmitAtCapacity | Suppress.

#[export] Instance LimitVerdict_eq_dec : EqDecision LimitVerdict.
Proof. solve_decision. Defined.

Record RoutingErrorRateLimiter := mkLimiter {
  last_sent : gmap NodeAddr Z;
  min_interval : Z;
  max_age : Z;
  last_sweep : Z
}.

Definition with_interval (min_interval now : Z) : RoutingErrorRateLimiter :=
  mkLimiter ∅ min_interval (10 * 1000000000) now.

Definition new (now : Z) : RoutingErrorRateLimiter := with_interval (100 * 1000000) now.

Definition len (self : RoutingErrorRateLimiter) : Z := Z.of_nat (size (last_sent self)).

Definition cleanup (self : RoutingErrorRateLimiter) (now : Z) : RoutingErrorRateLimiter :=
  mkLimiter (filter (λ dl, sat_sub now dl.2 < max_age self) (last_sent self))
    (min_interval self) (max_age self) now.

(** [Duration / u32] rounds down to the nanosecond. *)
Definition maybe_cleanup (self : RoutingErrorRateLimiter) (now : Z) : RoutingErrorRateLimiter :=
  if max_age self / SWEEPS_PER_MAX_AGE <=? sat_sub now (last_sweep self) then cleanup self now
  else self.

Definition set_last_sent (self : RoutingErrorRateLimiter) (m : gmap NodeAddr Z)
    : RoutingErrorRateLimiter :=
  mkLimiter m (min_interval self) (max_age self) (last_sweep self).

Definition check (self : RoutingErrorRateLimiter) (dest_addr : NodeAddr) (now : Z)
    : RoutingErrorRateLimiter * LimitVerdict :=
  if match last_sent self !! dest_addr with
     | Some last => sat_sub now last <? min_interval self
     | None => false
     end
  then (self, Suppress)
  else
    let full self := (MAX_ENTRIES <=? len self) in
    let send self :=
      (maybe_cleanup (set_last_sent self (<[dest_addr := now]> (last_sent self))) now, Admit) in
    if full self && negb (bool_decide (is_Some (last_sent self !! dest_addr))) then
      let self := maybe_cleanup self now in
      if full self then (self, AdmitAtCapacity) else send self
    else send self.

Definition should_send (self : RoutingErrorRateLimiter) (dest_addr : NodeAddr) (now : Z)
    : RoutingErrorRateLimiter * bool :=
  let '(self, v) := check self dest_addr now in (self, bool_decide (v = Admit)).

(** The admissions of a run of checks, newest first. *)
Fixpoint admitted (self : RoutingErrorRateLimiter) (log : list (NodeAddr * Z))
    (calls : list (NodeAddr * Z)) : RoutingErrorRateLimiter * list (NodeAddr * Z) :=
  match calls with
  | [] => (self, log)
  | (d, now) :: calls =>
      let '(self, v) := check self d now in
      admitted self (if bool_decide (v = Admit) then (d, now) :: log else log) calls
  end.

End RoutingErrorRateLimiter.

Section limiter.
Import RoutingErrorRateLimiter.

Record limiter_ok (self : RoutingErrorRateLimiter) (now : Z) (log : list (NodeAddr * Z)) : Prop := {
  lim_spaced : spaced (min_interval self) log;
  lim_remembered : remembered (min_interval self) (last_sent self) now log;
  lim_size : len self ≤ MAX_ENTRIES;
  lim_age : 0 < max_age self ∧ min_interval self ≤ max_age self
}.

Lemma cleanup_ok self now log : limiter_ok self now log → limiter_ok (cleanup self now) now log.
Proof.
  intros [Hs Hr Hsz Ha]. split; simpl; [done| | |done].
  - eapply remembered_drop; [done|]. intros k t Hm.
    destruct (decide (sat_sub now t < max_age self)) as [Hlt|Hge].
    + left. by apply map_lookup_filter_Some.
    + right. mlia.
  - unfold len in *. simpl.
    pose proof (map_size_filter (M := gmap NodeAddr) (λ dl : NodeAddr * Z, sat_sub now dl.2 < max_age self)
      (last_sent self)). lia.
Qed.

Lemma maybe_cleanup_ok self now log : limiter_ok self now log → limiter_ok (maybe_cleanup self now) now log.
Proof. intros Hok. unfold maybe_cleanup. destruct (_ <=? _); [by apply cleanup_ok|done]. Qed.

Lemma maybe_cleanup_config self now :
  min_interval (maybe_cleanup self now) = min_interval self
  ∧ max_age (maybe_cleanup self now) = max_age self.
Proof. unfold maybe_cleanup. by destruct (_ <=? _). Qed.

(** Admitting into a map with room for the key. *)
Lemma admit_ok self d now log : limiter_ok self now log →
  (∀ t, last_sent self !! d = Some t → min_interval self ≤ sat_sub now t) →
  (len self < MAX_ENTRIES ∨ is_Some (last_sent self !! d)) →
  limiter_ok (maybe_cleanup (set_last_sent self (<[d := now]> (last_sent self))) now) now ((d, now) :: log).
Proof.
  intros [Hs Hr Hsz Ha] Hd Hroom. apply maybe_cleanup_ok.
  destruct (spaced_admit _ _ _ _ d Hs Hr Hd) as [Hs' Hr']. split; simpl; [done|done| |done].
  unfold len in *. simpl. destruct (last_sent self !! d) as [t|] eqn:Hm.
  - by rewrite map_size_insert_Some by eauto.
  - rewrite map_size_insert_None by done. destruct Hroom as [?|[? ?]]; [lia|done].
Qed.

Lemma check_ok self d now log : limiter_ok self now log →
  let '(self', v) := check self d now in
  limiter_ok self' now (if bool_decide (v = Admit) then (d, now) :: log else log)
  ∧ min_interval self' = min_interval self ∧ max_age self' = max_age self.
Proof.
  intros Hok. unfold check.
  destruct (match last_sent self !! d with Some _ => _ | None => _ end) eqn:Hsup; [done|].
  assert (Hd : ∀ t, last_sent self !! d = Some t → min_interval self ≤ sat_sub now t).
  { intros t Ht. rewrite Ht in Hsup. by apply Z.ltb_ge. }
  destruct ((_ <=? _) && _) eqn:Hfull.
  - apply andb_true_iff in Hfull as [_ Hnone]. apply negb_true_iff, bool_decide_eq_false in Hnone.
    pose proof (maybe_cleanup_ok _ _ _ Hok) as Hok'. destruct (maybe_cleanup_config self now) as [Hc1 Hc2].
    assert (Hnone' : last_sent (maybe_cleanup self now) !! d = None).
    { apply eq_None_not_Some in Hnone. unfold maybe_cleanup. destruct (_ <=? _); [|done]. simpl.
      apply map_lookup_filter_None. by left. }
    destruct (Z.leb_spec MAX_ENTRIES (len (maybe_cleanup self now))) as [|Hroom]; [done|].
    destruct (maybe_cleanup_config (set_last_sent (maybe_cleanup self now)
      (<[d := now]> (last_sent (maybe_cleanup self now)))) now) as [Hd1 Hd2].
    simpl. rewrite Hd1, Hd2. split; [|done]. apply admit_ok; [done| |by left].
    intros t Ht. congruence.
  - destruct (maybe_cleanup_config (set_last_sent self (<[d := now]> (last_sent self))) now) as [Hd1 Hd2].
    simpl. rewrite Hd1, Hd2. split; [|done]. apply admit_ok; [done|done|].
    apply andb_false_iff in Hfull as [?%Z.leb_gt|Hs]; [by left|].
    right. by apply negb_false_iff, bool_decide_eq_true in Hs.
Qed.

Lemma limiter_later self now now' log : now ≤ now' → limiter_ok self now log → limiter_ok self now' log.
Proof. intros Hle [Hs Hr Hsz Ha]. split; [done| |done|done]. by eapply remembered_later. Qed.

Lemma admitted_ok calls self now log : limiter_ok self now log →
  (∀ d t, (d, t) ∈ calls → now ≤ t) → StronglySorted (λ a b, a.2 ≤ b.2) calls →
  let '(self', log') := admitted self log calls in
  (∃ now', limiter_ok self' now' log') ∧ min_interval self' = min_interval self.
Proof.
  revert self now log. induction calls as [|[d t] calls IH]; intros self now log Hok Hle Hsorted;
    [split; [by exists now|done]|].
  apply StronglySorted_inv in Hsorted as [Hsorted Hd]. rewrite Forall_forall in Hd. simpl.
  pose proof (check_ok self d t log (limiter_later _ _ _ _ (Hle d t ltac:(left)) Hok)) as Hc.
  destruct (check self d t) as [self1 v]. destruct Hc as (Hok1 & Hm & _).
  specialize (IH self1 t _ Hok1 ltac:(intros d' t' Hin; exact (Hd _ Hin)) Hsorted).
  destruct (admitted _ _ _) as [self2 log2]. destruct IH as [? ?]. split; [done|congruence].
Qed.

End limiter.

(** ** Properties *)

(** Errors about one destination are spaced. On a clock that does not run
    backwards, any two admitted errors about the same destination are at least
    the minimum interval apart, although the limiter forgets old destinations and
    refuses to remember new ones when it is full; and it never holds more than
    [MAX_ENTRIES] of them. *)
Theorem routing_errors_spaced interval start calls :
  interval ≤ 10 * 1000000000 →
  (∀ d t, (d, t) ∈ calls → start ≤ t) → StronglySorted (λ a b, a.2 ≤ b.2) calls →
  let '(limiter, log) := RoutingErrorRateLimiter.admitted
    (RoutingErrorRateLimiter.with_interval interval start) [] calls in
  (∀ i j d t t', (i < j)%nat → log !! i = Some (d, t') → log !! j = Some (d, t) → interval ≤ t' - t)
  ∧ RoutingErrorRateLimiter.len limiter ≤ RoutingErrorRateLimiter.MAX_ENTRIES.
Proof.
  intros Hint Hle Hsorted.
  pose proof (admitted_ok calls (RoutingErrorRateLimiter.with_interval interval start) start []) as H.
  destruct (RoutingErrorRateLimiter.admitted _ _ _) as [limiter log].
  destruct H as [(now & [Hs _ Hsz _]) Hm]; [|done|done|].
  - split; simpl; [intros i j ?????|by intros ?? ?%elem_of_nil|done|lia]. by rewrite lookup_nil in *.
  - simpl in Hm. rewrite Hm in Hs. done.
Qed.

Lemma routing_errors_spaced_witness :
  let '(limiter, log) := RoutingErrorRateLimiter.admitted
    (RoutingErrorRateLimiter.with_interval 100 0) [] [(7, 0); (7, 50); (7, 100)] in
  RoutingErrorRateLimiter.len limiter ≤ RoutingErrorRateLimiter.MAX_ENTRIES.
Proof.
  pose proof (routing_errors_spaced 100 0 [(7, 0); (7, 50); (7, 100)]) as H.
  destruct (RoutingErrorRateLimiter.admitted _ _ _). apply H.
  - lia.
  - intros d t Hin. repeat (apply elem_of_cons in Hin as [?|Hin]; [simplify_eq; lia|]). by apply elem_of_nil in Hin.
  - repeat constructor; simpl; lia.
Defined.
