(* ===== verification/Index.v ===== *)
(** * Session index allocation ([crates/fips-core/src/utils/index.rs])

    Random 32-bit indexes for session dispatch, unique among those in use. The
    random generator is the stream of values it yields. *)

From S2P Require Import Prelude Bytes.

Local Open Scope Z_scope.

Module IndexAllocator.

Inductive IndexError :=
| Exhausted
| NotFound (i : Z)
| AlreadyInUse (i : Z).

#[export] Instance IndexError_eq_dec : EqDecision IndexError.
Proof. solve_decision. Defined.

Record IndexAllocator := mkIndexAllocator { in_use : gset Z; max_attempts : nat }.

Definition with_max_attempts (max_attempts : nat) : IndexAllocator := mkIndexAllocator ∅ max_attempts.

Definition new : IndexAllocator := with_max_attempts 100.

Definition set_in_use (self : IndexAllocator) (s : gset Z) : IndexAllocator :=
  mkIndexAllocator s (max_attempts self).

(** The [for _ in 0..max_attempts] loop; [rng i] is the [i]-th value drawn. *)
Fixpoint attempt (self : IndexAllocator) (rng : nat → Z) (drawn attempts : nat)
    : IndexAllocator * outcome IndexError Z :=
  match attempts with
  | O => (self, Err Exhausted)
  | S attempts =>
      let candidate := rng drawn in
      if bool_decide (candidate ∈ in_use self) then attempt self rng (S drawn) attempts
      else (set_in_use self ({[candidate]} ∪ in_use self), Ok candidate)
  end.

Definition allocate (self : IndexAllocator) (rng : nat → Z) : IndexAllocator * outcome IndexError Z :=
  attempt self rng 0 (max_attempts self).

Definition free (self : IndexAllocator) (index : Z) : IndexAllocator * outcome IndexError unit :=
  if bool_decide (index ∈ in_use self) then (set_in_use self (in_use self ∖ {[index]}), Ok tt)
  else (self, Err (NotFound index)).

Definition is_allocated (self : IndexAllocator) (index : Z) : bool := bool_decide (index ∈ in_use self).

Definition count (self : IndexAllocator) : Z := Z.of_nat (size (in_use self)).

Definition is_empty (self : IndexAllocator) : bool := bool_decide (in_use self = ∅).

Definition reserve (self : IndexAllocator) (index : Z) : IndexAllocator * outcome IndexError unit :=
  if bool_decide (index ∈ in_use self) then (self, Err (AlreadyInUse index))
  else (set_in_use self ({[index]} ∪ in_use self), Ok tt).

Definition clear (self : IndexAllocator) : IndexAllocator := set_in_use self ∅.

End IndexAllocator.

Section allocator.
Import IndexAllocator.

Lemma attempt_spec self rng attempts drawn :
  match attempt self rng drawn attempts with
  | (self', Ok c) => c ∉ in_use self ∧ self' = set_in_use self ({[c]} ∪ in_use self)
      ∧ ∃ k, (drawn ≤ k < drawn + attempts)%nat ∧ rng k = c
        ∧ ∀ j, (drawn ≤ j < k)%nat → rng j ∈ in_use self
  | (self', Err e) => e = Exhausted ∧ self' = self
      ∧ ∀ j, (drawn ≤ j < drawn + attempts)%nat → rng j ∈ in_use self
  | (_, Panic) => False
  end.
Proof.
  revert drawn. induction attempts as [|n IH]; intros drawn; simpl; [split_and!; [done|done|lia]|].
  case_bool_decide as Hin.
  - specialize (IH (S drawn)). destruct (attempt self rng (S drawn) n) as [self' [c|e|]]; [| |done].
    + destruct IH as (Hc & -> & k & Hk & Hr & Hall). split; [done|]. split; [done|]. exists k.
      split; [lia|]. split; [done|]. intros j Hj.
      destruct (decide (j = drawn)) as [->|]; [done|]. apply Hall. lia.
    + destruct IH as (-> & -> & Hall). split; [done|]. split; [done|]. intros j Hj.
      destruct (decide (j = drawn)) as [->|]; [done|]. apply Hall. lia.
  - split; [done|]. split; [done|]. exists drawn. split; [lia|]. split; [done|]. intros; lia.
Qed.
End allocator.

(** ** Properties *)

(** An allocated index is fresh, is the first free one drawn, and is the only change;
    allocation fails exactly when every one of the [max_attempts] draws is in use,
    leaving the allocator as it was; freeing the index restores the set. *)
Theorem index_allocation_exact self rng :
  match IndexAllocator.allocate self rng with
  | (self', Ok c) =>
      IndexAllocator.is_allocated self c = false
      ∧ IndexAllocator.is_allocated self' c = true
      ∧ (∀ i, i ≠ c → IndexAllocator.is_allocated self' i = IndexAllocator.is_allocated self i)
      ∧ IndexAllocator.count self' = IndexAllocator.count self + 1
      ∧ (∃ k, (k < IndexAllocator.max_attempts self)%nat ∧ rng k = c
           ∧ ∀ j, (j < k)%nat → IndexAllocator.is_allocated self (rng j) = true)
      ∧ IndexAllocator.free self' c = (self, Ok tt)
  | (self', Err e) =>
      e = IndexAllocator.Exhausted ∧ self' = self
      ∧ ∀ j, (j < IndexAllocator.max_attempts self)%nat →
          IndexAllocator.is_allocated self (rng j) = true
  | (_, Panic) => False
  end.
Proof.
  unfold IndexAllocator.allocate, IndexAllocator.is_allocated.
  pose proof (attempt_spec self rng (IndexAllocator.max_attempts self) 0) as Hs.
  destruct (IndexAllocator.attempt _ _ _ _) as [self' [c|e|]]; [| |done].
  - destruct Hs as (Hc & -> & k & Hk & Hr & Hall). simpl. split_and!.
    + by apply bool_decide_eq_false.
    + apply bool_decide_eq_true. set_solver.
    + intros i Hi. apply bool_decide_ext. set_solver.
    + unfold IndexAllocator.count. simpl. rewrite size_union, size_singleton by set_solver. lia.
    + exists k. split; [lia|]. split; [done|]. intros j Hj. apply bool_decide_eq_true, Hall. lia.
    + unfold IndexAllocator.free. simpl. rewrite bool_decide_true by set_solver. f_equal.
      destruct self as [s m]. unfold IndexAllocator.set_in_use. simpl in *. f_equal. set_solver.
  - destruct Hs as (-> & -> & Hall). split_and!; [done|done|]. intros j Hj.
    apply bool_decide_eq_true, Hall. lia.
Qed.
