(* ===== verification/LookupPlan.v ===== *)
(** * Lookup peer selection ([crates/fips-core/src/proto/lookup.rs])

    Which peers a lookup is sent to: tree peers whose filter may contain the
    target, then, by routing mode, budgeted fallback neighbours. *)

From S2P Require Import Prelude Bytes NodeAddr.

Local Open Scope Z_scope.

Inductive RoutingMode := Tree | ReplyLearned.

#[export] Instance RoutingMode_eq_dec : EqDecision RoutingMode.
Proof. solve_decision. Defined.

Module Lookup.

Record LookupPeerCandidate := mkCandidate {
  addr : NodeAddr;
  can_send : bool;
  is_healthy : bool;
  is_tree_peer : bool;
  may_reach_target : bool;
  reply_learned_fallback_allowed : bool;
  configured_reply_learned_fallback_transit : bool
}.

Record LookupPeerPlan := mkPlan {
  peers : list NodeAddr;
  tree_match_count : Z;
  used_fallback : bool
}.

Definition is_mode (a b : RoutingMode) : bool := bool_decide (a = b).
Definition neq_addr (a b : NodeAddr) : bool := negb (a =? b).

(** The stable [sort_by_key] on a boolean key: [false] keys first. *)
Definition sort_by_bool {A} (key : A → bool) (l : list A) : list A :=
  filter (λ x, key x = false) l ++ filter (λ x, key x = true) l.

Definition len (l : list NodeAddr) : Z := Z.of_nat (length l).

(** The extra peers both planners append: not already chosen, configured transit
    first, within what the budget leaves. *)
Definition fallback_peers (peers : list NodeAddr) (eligible : list LookupPeerCandidate)
    (extra_peer_budget : Z) : list NodeAddr :=
  let fallback_budget := sat_sub extra_peer_budget (len peers) in
  let fallback_candidates := filter (λ c, addr c ∉ peers) eligible in
  let fallback_candidates :=
    sort_by_bool (λ c, negb (configured_reply_learned_fallback_transit c)) fallback_candidates in
  take (Z.to_nat fallback_budget) (addr <$> fallback_candidates).

(** The [filter] closures of [plan_forward_peers], in order. *)
Definition forward_tree_match (from target : NodeAddr) (routing_mode : RoutingMode)
    (c : LookupPeerCandidate) : bool :=
  neq_addr (addr c) from && is_tree_peer c && can_send c && may_reach_target c
  && (negb (is_mode routing_mode ReplyLearned) || neq_addr (addr c) target || is_healthy c).

Definition forward_fallback_match (from origin target : NodeAddr) (c : LookupPeerCandidate) : bool :=
  neq_addr (addr c) from && neq_addr (addr c) origin && can_send c
  && (neq_addr (addr c) target || is_healthy c) && reply_learned_fallback_allowed c.

Definition forward_mesh_match (from : NodeAddr) (c : LookupPeerCandidate) : bool :=
  neq_addr (addr c) from && negb (is_tree_peer c) && can_send c && may_reach_target c.

Definition matching (f : LookupPeerCandidate → bool) (candidates : list LookupPeerCandidate) :
    list LookupPeerCandidate := filter (λ c, f c = true) candidates.

Definition plan_forward_peers (from origin target : NodeAddr) (routing_mode : RoutingMode)
    (reply_learned_fallback_enabled : bool) (candidates : list LookupPeerCandidate)
    (extra_peer_budget : Z) : LookupPeerPlan :=
  let peers := addr <$> matching (forward_tree_match from target routing_mode) candidates in
  let tree_match_count := len peers in
  let peers :=
    if is_mode routing_mode ReplyLearned && reply_learned_fallback_enabled then
      peers ++ fallback_peers peers (matching (forward_fallback_match from origin target) candidates)
                 extra_peer_budget
    else if len peers =? 0 then addr <$> matching (forward_mesh_match from) candidates
    else peers in
  let used_fallback :=
    negb (len peers =? 0)
    && ((is_mode routing_mode ReplyLearned && (tree_match_count <? len peers))
        || (negb (is_mode routing_mode ReplyLearned) && (tree_match_count =? 0))) in
  mkPlan peers tree_match_count used_fallback.

Definition plan_initiate_peers (routing_mode : RoutingMode) (reply_learned_fallback_enabled : bool)
    (candidates : list LookupPeerCandidate) (extra_peer_budget : Z) : LookupPeerPlan :=
  let peers := addr <$> matching (λ c, is_tree_peer c && can_send c && may_reach_target c)
    candidates in
  let tree_match_count := len peers in
  let peers :=
    if is_mode routing_mode ReplyLearned && reply_learned_fallback_enabled then
      peers ++ fallback_peers peers
        (matching (λ c, can_send c && reply_learned_fallback_allowed c) candidates)
        extra_peer_budget
    else peers in
  let used_fallback :=
    is_mode routing_mode ReplyLearned && (tree_match_count <? len peers) in
  mkPlan peers tree_match_count used_fallback.

End Lookup.

Section plans.
Import Lookup.

Lemma elem_of_sort_by_bool {A} (key : A → bool) l x : x ∈ sort_by_bool key l ↔ x ∈ l.
Proof.
  unfold sort_by_bool. rewrite elem_of_app, !list_elem_of_filter. destruct (key x); naive_solver.
Qed.

Lemma sort_by_bool_perm {A} (key : A → bool) l : sort_by_bool key l ≡ₚ l.
Proof.
  unfold sort_by_bool. induction l as [|x l IH]; [done|]. rewrite !filter_cons.
  destruct (key x); simpl.
  - by rewrite <- Permutation_middle, IH.
  - by rewrite IH.
Qed.

Lemma NoDup_map_filter (P : LookupPeerCandidate → Prop) `{!∀ c, Decision (P c)} l :
  NoDup (addr <$> l) → NoDup (addr <$> filter P l).
Proof.
  induction l as [|c l IH]; [done|]. rewrite fmap_cons, NoDup_cons, filter_cons. intros [Hn Hl].
  destruct (decide (P c)); [|by apply IH]. rewrite fmap_cons, NoDup_cons. split; [|by apply IH].
  contradict Hn. apply list_elem_of_fmap in Hn as (d & -> & Hd).
  apply list_elem_of_filter in Hd as [_ Hd]. by apply list_elem_of_fmap_2.
Qed.

Lemma fallback_spec chosen eligible budget :
  (∀ a, a ∈ fallback_peers chosen eligible budget → a ∉ chosen ∧ ∃ c, c ∈ eligible ∧ addr c = a)
  ∧ (NoDup (addr <$> eligible) → NoDup (fallback_peers chosen eligible budget))
  ∧ len chosen + len (fallback_peers chosen eligible budget) ≤ Z.max (len chosen) budget.
Proof.
  unfold fallback_peers. split_and!.
  - intros a Ha. apply elem_of_take in Ha as (i & Hi & _).
    apply list_elem_of_lookup_2, list_elem_of_fmap in Hi as (c & -> & Hc).
    rewrite elem_of_sort_by_bool in Hc. apply list_elem_of_filter in Hc as [Hn Hin]. eauto.
  - intros Hnd. eapply (NoDup_app (take _ _) (drop _ _)). rewrite take_drop.
    rewrite sort_by_bool_perm. by apply NoDup_map_filter.
  - unfold len. rewrite length_take. unfold sat_sub. lia.
Qed.

Lemma addr_inj_in l c d : NoDup (addr <$> l) → c ∈ l → d ∈ l → addr c = addr d → c = d.
Proof.
  intros Hnd (i & Hi)%list_elem_of_lookup (j & Hj)%list_elem_of_lookup Ha.
  assert (i = j) as ->; [|congruence].
  eapply (NoDup_lookup (addr <$> l)); [done|..]; rewrite list_lookup_fmap; [by rewrite Hi|].
  by rewrite Hj, Ha.
Qed.

(** A fallback peer that is not a configured transit is taken only after every
    configured one. *)
Lemma fallback_priority chosen eligible budget c d :
  NoDup (addr <$> eligible) → c ∈ eligible → d ∈ eligible → addr d ∉ chosen →
  configured_reply_learned_fallback_transit c = false →
  configured_reply_learned_fallback_transit d = true →
  addr c ∈ fallback_peers chosen eligible budget →
  addr d ∈ fallback_peers chosen eligible budget.
Proof.
  intros Hnd Hc Hd Hdn Hcc Hdc. unfold fallback_peers, sort_by_bool.
  set (el := filter (λ c, addr c ∉ chosen) eligible).
  set (F := filter _ el). set (G := filter _ el). rewrite fmap_app.
  rewrite !elem_of_take. intros (i & Hi & Hin).
  assert (addr d ∈ addr <$> F) as (j & Hj)%list_elem_of_lookup.
  { apply list_elem_of_fmap. exists d. split; [done|]. unfold F, el.
    rewrite !list_elem_of_filter. by rewrite Hdc. }
  exists j. pose proof (lookup_lt_Some _ _ _ Hj) as Hlt. split; [by apply lookup_app_l_Some|].
  destruct (decide (i < length (addr <$> F))%nat) as [Hi'|]; [|lia]. exfalso.
  rewrite lookup_app_l in Hi by done.
  apply list_elem_of_lookup_2, list_elem_of_fmap in Hi as (c' & Ha & Hc').
  unfold F, el in Hc'. rewrite !list_elem_of_filter in Hc'. destruct Hc' as (Hk & _ & Hin').
  assert (c = c') as <- by eauto using addr_inj_in. by rewrite Hcc in Hk.
Qed.

Lemma elem_of_matching f candidates a :
  a ∈ addr <$> matching f candidates ↔ ∃ c, c ∈ candidates ∧ f c = true ∧ addr c = a.
Proof.
  rewrite list_elem_of_fmap. unfold matching. setoid_rewrite list_elem_of_filter. naive_solver.
Qed.

Lemma neq_addr_true a b : neq_addr a b = true ↔ a ≠ b.
Proof. unfold neq_addr. rewrite negb_true_iff. apply Z.eqb_neq. Qed.

(** The peers of a plan come from one of the three closures. *)
Lemma forward_peers_cases from origin target mode enabled candidates budget a :
  a ∈ peers (plan_forward_peers from origin target mode enabled candidates budget) →
  ∃ c, c ∈ candidates ∧ addr c = a
    ∧ (forward_tree_match from target mode c = true
       ∨ (is_mode mode ReplyLearned && enabled = true
          ∧ forward_fallback_match from origin target c = true)
       ∨ (is_mode mode ReplyLearned && enabled = false ∧ forward_mesh_match from c = true)).
Proof.
  unfold plan_forward_peers. cbn [peers].
  set (T := addr <$> matching (forward_tree_match from target mode) candidates).
  assert (a ∈ T → ∃ c, c ∈ candidates ∧ addr c = a ∧ forward_tree_match from target mode c = true)
    as HT by (intros (c & ? & ? & ?)%elem_of_matching; eauto).
  destruct (is_mode mode ReplyLearned && enabled).
  - intros [?|Hf]%elem_of_app; [naive_solver|].
    apply fallback_spec in Hf as (_ & c & Hc & <-). unfold matching in Hc.
    apply list_elem_of_filter in Hc as [? ?]. exists c. naive_solver.
  - destruct (len T =? 0); [|naive_solver].
    intros (c & ? & ? & ?)%elem_of_matching. exists c. naive_solver.
Qed.

Lemma forward_peers_NoDup from origin target mode enabled candidates budget :
  NoDup (addr <$> candidates) →
  NoDup (peers (plan_forward_peers from origin target mode enabled candidates budget)).
Proof.
  intros Hnd. unfold plan_forward_peers. cbn [peers].
  assert (∀ f, NoDup (addr <$> matching f candidates)) as Hm
    by (intros f; by apply NoDup_map_filter).
  destruct (_ && enabled); [|destruct (_ =? 0); apply Hm].
  apply NoDup_app. split_and!; [apply Hm| |by apply fallback_spec, Hm].
  intros a Ha Hf. by apply fallback_spec in Hf as [? _].
Qed.

Lemma forward_tree_matches_planned from origin target mode enabled candidates budget c :
  c ∈ candidates → forward_tree_match from target mode c = true →
  addr c ∈ peers (plan_forward_peers from origin target mode enabled candidates budget).
Proof.
  intros Hc Hm. unfold plan_forward_peers. cbn [peers].
  assert (addr c ∈ addr <$> matching (forward_tree_match from target mode) candidates) as HT
    by (apply elem_of_matching; eauto).
  destruct (_ && enabled); [apply elem_of_app; by left|].
  destruct (Z.eqb_spec (len (addr <$> matching (forward_tree_match from target mode) candidates)) 0)
    as [H0|]; [|done]. unfold len in H0. rewrite (nil_length_inv (addr <$> _)) in HT by lia. by apply not_elem_of_nil in HT.
Qed.

Lemma forward_fallback_bounded from origin target candidates budget :
  let plan := plan_forward_peers from origin target ReplyLearned true candidates budget in
  len (peers plan) ≤ Z.max (tree_match_count plan) budget.
Proof.
  unfold plan_forward_peers. simpl. set (T := addr <$> _). set (E := matching _ _).
  destruct (fallback_spec T E budget) as (_ & _ & Hb). unfold len in *. rewrite length_app. lia.
Qed.

Lemma forward_fallback_priority from origin target candidates budget c d :
  let plan := plan_forward_peers from origin target ReplyLearned true candidates budget in
  NoDup (addr <$> candidates) → c ∈ candidates → d ∈ candidates →
  forward_tree_match from target ReplyLearned c = false →
  forward_fallback_match from origin target d = true →
  configured_reply_learned_fallback_transit c = false →
  configured_reply_learned_fallback_transit d = true →
  addr c ∈ peers plan → addr d ∈ peers plan.
Proof.
  intros plan Hnd Hc Hd Hct Hde Hcc Hdc. subst plan. unfold plan_forward_peers.
  cbn [peers is_mode bool_decide]. simpl. set (T := addr <$> _). set (E := matching _ _).
  rewrite !elem_of_app. intros [HT|HF].
  - apply elem_of_matching in HT as (c' & Hc' & Ht & Ha).
    assert (c = c') as <- by (by eapply addr_inj_in). congruence.
  - destruct (decide (addr d ∈ T)); [by left|right].
    assert (∃ c', c' ∈ E ∧ addr c' = addr c) as (c' & Hc' & Ha)
      by (by apply fallback_spec in HF as (_ & ?)).
    assert (c = c') as <-.
    { unfold E, matching in Hc'. apply list_elem_of_filter in Hc' as [_ ?].
      by eapply addr_inj_in. }
    apply (fallback_priority _ _ _ c d); auto; [by apply NoDup_map_filter|].
    unfold E, matching. by apply list_elem_of_filter.
Qed.

End plans.

(** A neighbour of the planners, for the witnesses. *)
Definition sample_candidate (a : Z) (tree reach configured : bool) : Lookup.LookupPeerCandidate :=
  Lookup.mkCandidate a true true tree reach true configured.

Definition sample_candidates : list Lookup.LookupPeerCandidate :=
  [sample_candidate 1 true true false; sample_candidate 2 true false false;
   sample_candidate 3 false false true; sample_candidate 4 false true false].

(** ** Properties *)

(** The forward plan of a lookup, over neighbours with distinct addresses. Every planned
    peer is a sendable candidate other than the sender, and in reply-learned mode an
    unhealthy target is a hop only by the mesh rule, which applies when fallback is
    disabled; no peer is planned twice; every Bloom-matching tree peer is planned, and
    fallback never takes the plan past the larger of the budget and the tree matches; a
    fallback peer that is not a configured transit is planned only if every eligible
    configured transit is. *)
Theorem forward_plan_sound from origin target mode enabled candidates budget
    (Hnd : NoDup (Lookup.addr <$> candidates)) :
  let plan := Lookup.plan_forward_peers from origin target mode enabled candidates budget in
  let fallback := mode = ReplyLearned ∧ enabled = true in
  let tree_match := Lookup.forward_tree_match from target mode in
  let eligible := Lookup.forward_fallback_match from origin target in
  (∀ a, a ∈ Lookup.peers plan → ∃ c, c ∈ candidates ∧ Lookup.addr c = a ∧ a ≠ from
     ∧ Lookup.can_send c = true
     ∧ (fallback → a = target → Lookup.is_healthy c = true)
     ∧ (fallback → a = origin → tree_match c = true))
  ∧ NoDup (Lookup.peers plan)
  ∧ (∀ c, c ∈ candidates → tree_match c = true → Lookup.addr c ∈ Lookup.peers plan)
  ∧ (fallback → Lookup.len (Lookup.peers plan) ≤ Z.max (Lookup.tree_match_count plan) budget
     ∧ ∀ c d, c ∈ candidates → d ∈ candidates → tree_match c = false → eligible d = true →
         Lookup.configured_reply_learned_fallback_transit c = false →
         Lookup.configured_reply_learned_fallback_transit d = true →
         Lookup.addr c ∈ Lookup.peers plan → Lookup.addr d ∈ Lookup.peers plan).
Proof.
  intros plan fallback tree_match eligible. split_and!.
  - intros a (c & Hc & <- & Hm)%forward_peers_cases. exists c. subst fallback tree_match.
    unfold Lookup.forward_tree_match, Lookup.forward_fallback_match, Lookup.forward_mesh_match in *.
    rewrite ?andb_true_iff, ?orb_true_iff, ?neq_addr_true in Hm.
    split_and!; [done|done|naive_solver|naive_solver|intros [-> ->]; simpl in Hm; naive_solver|].
    intros [-> ->] Ho. rewrite !andb_true_iff, !orb_true_iff, !neq_addr_true. naive_solver.
  - by apply forward_peers_NoDup.
  - intros c. apply forward_tree_matches_planned.
  - intros [-> ->]. split; [apply forward_fallback_bounded|].
    intros c d ??????. by apply (forward_fallback_priority _ _ _ _ _ c d).
Qed.

Lemma forward_plan_sound_witness :
  let plan := Lookup.plan_forward_peers 4 9 7 ReplyLearned true sample_candidates 2 in
  Lookup.peers plan = [1; 3] ∧ NoDup (Lookup.peers plan).
Proof.
  split; [by vm_compute|].
  refine (proj1 (proj2 (forward_plan_sound 4 9 7 ReplyLearned true sample_candidates 2 _))).
  vm_compute. repeat (constructor; [by rewrite ?elem_of_cons, ?elem_of_nil; intuition congruence|]).
  constructor.
Defined.
