(* ===== verification/LookupLimits.v ===== *)
(** * Discovery rate limits ([crates/fips-core/src/proto/lookup_limits.rs])

    Exponential backoff of an originator's failed lookups, the transit limiter
    of forwarded lookups (a minimum interval per ingress, origin and target,
    and a token bucket per ingress), and the target's signing budget. Instants
    and durations are nanoseconds; the clock read is an argument. *)

From S2P Require Import Prelude Bytes F64 NodeAddr RateLimit.

Local Open Scope Z_scope.

Definition NANOS_PER_SEC : Z := 1000000000.

(** The last instant of [std::time::Instant]: 64-bit signed seconds. *)
Definition INSTANT_MAX : Z := (2 ^ 63 - 1) * NANOS_PER_SEC + 999999999.

(** [Instant::checked_add]. *)
Definition instant_checked_add (t d : Z) : option Z :=
  if t + d <=? INSTANT_MAX then Some (t + d) else None.

Module DiscoveryBackoff.

Definition DEFAULT_BACKOFF_BASE_SECS : Z := 30.
Definition DEFAULT_BACKOFF_MAX_SECS : Z := 300.
Definition BACKOFF_MULTIPLIER : Z := 2.

Record BackoffEntry := mkEntry {
  suppress_until : Z;
  failures : Z;
  retry_when_reachable : bool
}.

(** [base] and [max] are whole seconds. *)
Record DiscoveryBackoff := mkBackoff { entries : gmap NodeAddr BackoffEntry; base : Z; max : Z }.

Definition with_params (base_secs max_secs : Z) : DiscoveryBackoff := mkBackoff ∅ base_secs max_secs.

Definition new : DiscoveryBackoff := with_params DEFAULT_BACKOFF_BASE_SECS DEFAULT_BACKOFF_MAX_SECS.

Definition set_entries (self : DiscoveryBackoff) (m : gmap NodeAddr BackoffEntry) : DiscoveryBackoff :=
  mkBackoff m (base self) (max self).

Definition is_suppressed (self : DiscoveryBackoff) (target : NodeAddr) (now : Z) : bool :=
  match entries self !! target with
  | Some entry => now <? suppress_until entry
  | None => false
  end.

Definition failure_count (self : DiscoveryBackoff) (target : NodeAddr) : Z :=
  match entries self !! target with Some e => failures e | None => 0 end.

(** [BACKOFF_MULTIPLIER.saturating_pow(n)] on 64 bits. *)
Definition saturating_pow (b n : Z) : Z := Z.min (b ^ n) U64_MAX.

(** [Instant + Duration] aborts past the last instant. *)
Definition record_failure_with_reachability (self : DiscoveryBackoff) (target : NodeAddr)
    (retry_when_reachable : bool) (now : Z) : outcome Empty_set DiscoveryBackoff :=
  let failures := wrap_u32 (failure_count self target + 1) in
  let backoff_secs :=
    sat_mul_u64 (base self) (saturating_pow BACKOFF_MULTIPLIER (sat_sub failures 1)) in
  let backoff := Z.min backoff_secs (max self) * NANOS_PER_SEC in
  match instant_checked_add now backoff with
  | None => Panic
  | Some until =>
      Ok (set_entries self (<[target := mkEntry until failures retry_when_reachable]> (entries self)))
  end.

Definition record_failure (self : DiscoveryBackoff) (target : NodeAddr) (now : Z) :=
  record_failure_with_reachability self target false now.

Definition record_delayed_failure (self : DiscoveryBackoff) (target : NodeAddr) (now : Z) :=
  record_failure_with_reachability self target true now.

Definition retry_delayed_with_route (self : DiscoveryBackoff) (target : NodeAddr)
    : DiscoveryBackoff * bool :=
  match entries self !! target with
  | Some entry =>
      (set_entries self (<[target := mkEntry (suppress_until entry) (failures entry) false]> (entries self)),
       retry_when_reachable entry)
  | None => (self, false)
  end.

Definition record_success (self : DiscoveryBackoff) (target : NodeAddr) : DiscoveryBackoff :=
  set_entries self (delete target (entries self)).

Definition reset_all (self : DiscoveryBackoff) : DiscoveryBackoff := set_entries self ∅.

Definition is_empty (self : DiscoveryBackoff) : bool := bool_decide (entries self = ∅).

Definition entry_count (self : DiscoveryBackoff) : Z := Z.of_nat (size (entries self)).

(** Failures of one target at the given instants, each delayed or not. *)
Fixpoint record_failures (self : DiscoveryBackoff) (target : NodeAddr) (fs : list (Z * bool))
    : outcome Empty_set DiscoveryBackoff :=
  match fs with
  | [] => Ok self
  | (now, delayed) :: fs =>
      self ← record_failure_with_reachability self target delayed now;
      record_failures self target fs
  end.

End DiscoveryBackoff.

(** ** Token buckets *)

(** [DiscoveryForwardBucket] and [LookupSignBucket] have the same fields. *)
Record Bucket := mkBucket { tokens : f64; updated : Z }.

(** [tokens = (tokens + elapsed * rate).min(burst)]. *)
Definition available (b : Bucket) (burst rate : f64) (now : Z) : f64 :=
  f64_min (f64_add (tokens b) (f64_mul (as_secs_f64 (sat_sub now (updated b))) rate)) burst.

(** Refill, then spend one token if there is one. *)
Definition spend (b : Bucket) (burst rate : f64) (now : Z) : Bucket * bool :=
  let t := available b burst rate now in
  if f64_ltb t f64_one then (mkBucket t now, false)
  else (mkBucket (f64_sub t f64_one) now, true).

Module ForwardLimiter.

Definition DEFAULT_FORWARD_MIN_INTERVAL : Z := 2 * NANOS_PER_SEC.
Definition FORWARD_MAX_AGE : Z := 60 * NANOS_PER_SEC.
Definition FORWARD_CLEANUP_INTERVAL : Z := 5 * NANOS_PER_SEC.
Definition FORWARD_MAX_TARGETS : Z := 4096.
Definition FORWARD_MAX_INGRESS_PEERS : Z := 4096.
Definition DEFAULT_FORWARD_BURST : f64 := f64_of_Z 256.
Definition DEFAULT_FORWARD_RATE : f64 := f64_of_Z 32.
Definition FORWARD_INGRESS_MAX_AGE : Z := 300 * NANOS_PER_SEC.

Inductive DiscoveryForwardDecision :=
| Forward
| TargetInterval
| TargetCapacity
| IngressCapacity
| IngressBudget.

#[export] Instance DiscoveryForwardDecision_eq_dec : EqDecision DiscoveryForwardDecision.
Proof. solve_decision. Defined.

(** Ingress, claimed origin, target. *)
Definition Key : Type := NodeAddr * NodeAddr * NodeAddr.

#[export] Instance Key_eq_dec : EqDecision Key := _.
#[export] Instance Key_countable : Countable Key := _.

Record DiscoveryForwardRateLimiter := mkForward {
  last_forwarded : gmap Key Z;
  forwarded_by_time : gset (Z * Key);
  ingress_buckets : gmap NodeAddr Bucket;
  min_interval : Z;
  max_age : Z;
  max_targets : Z;
  max_ingress_peers : Z;
  ingress_burst : f64;
  ingress_rate : f64;
  ingress_max_age : Z;
  cleanup_interval : Z;
  last_cleanup : Z
}.

Definition with_interval (min_interval now : Z) : DiscoveryForwardRateLimiter :=
  mkForward ∅ ∅ ∅ min_interval FORWARD_MAX_AGE FORWARD_MAX_TARGETS FORWARD_MAX_INGRESS_PEERS
    DEFAULT_FORWARD_BURST DEFAULT_FORWARD_RATE FORWARD_INGRESS_MAX_AGE FORWARD_CLEANUP_INTERVAL now.

Definition new (now : Z) : DiscoveryForwardRateLimiter := with_interval DEFAULT_FORWARD_MIN_INTERVAL now.

(** The assignments to the mutable fields. *)
Definition set_forwarded (self : DiscoveryForwardRateLimiter) (m : gmap Key Z) (s : gset (Z * Key))
    : DiscoveryForwardRateLimiter :=
  mkForward m s (ingress_buckets self) (min_interval self) (max_age self) (max_targets self)
    (max_ingress_peers self) (ingress_burst self) (ingress_rate self) (ingress_max_age self)
    (cleanup_interval self) (last_cleanup self).

Definition set_buckets (self : DiscoveryForwardRateLimiter) (m : gmap NodeAddr Bucket)
    : DiscoveryForwardRateLimiter :=
  mkForward (last_forwarded self) (forwarded_by_time self) m (min_interval self) (max_age self)
    (max_targets self) (max_ingress_peers self) (ingress_burst self) (ingress_rate self)
    (ingress_max_age self) (cleanup_interval self) (last_cleanup self).

Definition set_last_cleanup (self : DiscoveryForwardRateLimiter) (now : Z)
    : DiscoveryForwardRateLimiter :=
  mkForward (last_forwarded self) (forwarded_by_time self) (ingress_buckets self) (min_interval self)
    (max_age self) (max_targets self) (max_ingress_peers self) (ingress_burst self)
    (ingress_rate self) (ingress_max_age self) (cleanup_interval self) now.

(** The order of the [BTreeSet] and its [first]. *)
Definition entry_ltb (x y : Z * Key) : bool :=
  let '(t, (a, b, c)) := x in
  let '(t', (a', b', c')) := y in
  (t <? t') || ((t =? t') && ((a <? a') || ((a =? a') && ((b <? b') || ((b =? b') && (c <? c')))))).

Definition first (s : gset (Z * Key)) : option (Z * Key) :=
  foldl (keep_best entry_ltb) None (elements s).

Definition stale (self : DiscoveryForwardRateLimiter) (now : Z) : gmap Key Z :=
  filter (λ kl, ¬ sat_sub now kl.2 < max_age self) (last_forwarded self).

(** [retain] drops each stale scope from the map and its pair from the set. *)
Definition cleanup (self : DiscoveryForwardRateLimiter) (now : Z) : DiscoveryForwardRateLimiter :=
  let dropped := (λ kl : Key * Z, (kl.2, kl.1)) <$> map_to_list (stale self now) in
  let self := set_forwarded self
    (filter (λ kl, sat_sub now kl.2 < max_age self) (last_forwarded self))
    (forwarded_by_time self ∖ list_to_set dropped) in
  let self := set_buckets self
    (filter (λ pb, sat_sub now (updated pb.2) < ingress_max_age self) (ingress_buckets self)) in
  set_last_cleanup self now.

Definition maybe_cleanup (self : DiscoveryForwardRateLimiter) (now : Z) : DiscoveryForwardRateLimiter :=
  if sat_sub now (last_cleanup self) <? cleanup_interval self then self else cleanup self now.

(** The bucket of [from], created full if there is room for it. *)
Definition ingress_bucket (self : DiscoveryForwardRateLimiter) (from : NodeAddr) (now : Z)
    : option (DiscoveryForwardRateLimiter * Bucket) :=
  match ingress_buckets self !! from with
  | Some b => Some (self, b)
  | None =>
      if max_ingress_peers self <=? Z.of_nat (size (ingress_buckets self)) then None
      else
        let b := mkBucket (ingress_burst self) now in
        Some (set_buckets self (<[from := b]> (ingress_buckets self)), b)
  end.

Definition len (self : DiscoveryForwardRateLimiter) : Z := Z.of_nat (size (last_forwarded self)).

(** What a full map would give up for a new scope: [inl] refuses. *)
Definition reclaim (self : DiscoveryForwardRateLimiter) (key : Key) (now : Z)
    : DiscoveryForwardDecision + option (Z * Key) :=
  if negb (bool_decide (is_Some (last_forwarded self !! key))) && (max_targets self <=? len self) then
    match first (forwarded_by_time self) with
    | None => inl TargetCapacity
    | Some (last, oldest) =>
        if sat_sub now last <? min_interval self then inl TargetCapacity
        else inr (Some (last, oldest))
    end
  else inr None.

(** The writes of an admitted lookup. *)
Definition commit (self : DiscoveryForwardRateLimiter) (key : Key) (r : option (Z * Key)) (now : Z)
    : DiscoveryForwardRateLimiter :=
  let self :=
    match r with
    | Some (last, oldest) =>
        set_forwarded self (delete oldest (last_forwarded self))
          (forwarded_by_time self ∖ {[(last, oldest)]})
    | None => self
    end in
  let by_time :=
    match last_forwarded self !! key with
    | Some last => forwarded_by_time self ∖ {[(last, key)]}
    | None => forwarded_by_time self
    end in
  set_forwarded self (<[key := now]> (last_forwarded self)) ({[(now, key)]} ∪ by_time).

Definition decision_for_origin_at (self : DiscoveryForwardRateLimiter) (from origin target : NodeAddr)
    (now : Z) : DiscoveryForwardRateLimiter * DiscoveryForwardDecision :=
  let self := maybe_cleanup self now in
  let key := (from, origin, target) in
  if match last_forwarded self !! key with
     | Some last => sat_sub now last <? min_interval self
     | None => false
     end
  then (self, TargetInterval)
  else
    match reclaim self key now with
    | inl d => (self, d)
    | inr r =>
        match ingress_bucket self from now with
        | None => (self, IngressCapacity)
        | Some (self, bucket) =>
            let '(bucket, ok) := spend bucket (ingress_burst self) (ingress_rate self) now in
            let self := set_buckets self (<[from := bucket]> (ingress_buckets self)) in
            if ok then (commit self key r now, Forward) else (self, IngressBudget)
        end
    end.

Definition should_forward_for_origin (self : DiscoveryForwardRateLimiter)
    (from origin target : NodeAddr) (now : Z) : DiscoveryForwardRateLimiter * bool :=
  let '(self, d) := decision_for_origin_at self from origin target now in
  (self, bool_decide (d = Forward)).

Definition deferred_deadline (self : DiscoveryForwardRateLimiter) (from origin target : NodeAddr)
    (now : Z) : DiscoveryForwardRateLimiter * option Z :=
  match
    match last_forwarded self !! (from, origin, target) with
    | Some last => Some last
    | None => if max_targets self <=? len self then fst <$> first (forwarded_by_time self) else None
    end ≫= λ last, instant_checked_add last (min_interval self)
  with
  | None => (self, None)
  | Some due =>
      if due <=? now then (self, None)
      else
        match ingress_bucket self from now with
        | None => (self, None)
        | Some (self, bucket) =>
            (self, if f64_leb f64_one (available bucket (ingress_burst self) (ingress_rate self) now)
                   then Some due else None)
        end
  end.

End ForwardLimiter.

(** A run of the forward limiter and the lookups it admitted, newest first. *)
Module ForwardHistory.
Import ForwardLimiter.

Inductive request :=
| Decide (from origin target : NodeAddr)
| Deferred (from origin target : NodeAddr).

Definition step (s : DiscoveryForwardRateLimiter * list (Key * Z)) (call : Z * request)
    : DiscoveryForwardRateLimiter * list (Key * Z) :=
  let '(self, log) := s in
  let now := call.1 in
  match call.2 with
  | Decide from origin target =>
      let '(self, d) := decision_for_origin_at self from origin target now in
      (self, if bool_decide (d = Forward) then ((from, origin, target), now) :: log else log)
  | Deferred from origin target => ((deferred_deadline self from origin target now).1, log)
  end.

Definition run (self : DiscoveryForwardRateLimiter) (calls : list (Z * request))
    : DiscoveryForwardRateLimiter * list (Key * Z) := foldl step (self, []) calls.

End ForwardHistory.

Module LookupSign.

Definition DEFAULT_SIGN_BURST : f64 := f64_of_Z 256.
Definition DEFAULT_SIGN_RATE : f64 := f64_of_Z 32.
Definition SIGN_MAX_AGE : Z := 300 * NANOS_PER_SEC.

Record LookupSignRateLimiter := mkSign { buckets : gmap NodeAddr Bucket; burst : f64; rate : f64 }.

Definition with_params (burst rate : f64) : LookupSignRateLimiter := mkSign ∅ burst rate.

Definition new : LookupSignRateLimiter := with_params DEFAULT_SIGN_BURST DEFAULT_SIGN_RATE.

Definition set_buckets (self : LookupSignRateLimiter) (m : gmap NodeAddr Bucket)
    : LookupSignRateLimiter := mkSign m (burst self) (rate self).

Definition should_sign (self : LookupSignRateLimiter) (from : NodeAddr) (now : Z)
    : LookupSignRateLimiter * bool :=
  if f64_leb (burst self) f64_zero then (self, true)
  else
    let bucket := default (mkBucket (burst self) now) (buckets self !! from) in
    let '(bucket, ok) := spend bucket (burst self) (rate self) now in
    let self := set_buckets self (<[from := bucket]> (buckets self)) in
    if ok then
      (set_buckets self
         (filter (λ pb, sat_sub now (updated pb.2) < SIGN_MAX_AGE) (buckets self)), true)
    else (self, false).

(** The peers whose lookups were signed in a run of calls at one instant, newest first. *)
Definition signed (self : LookupSignRateLimiter) (now : Z) (calls : list NodeAddr)
    : LookupSignRateLimiter * list NodeAddr :=
  foldl (λ s p, let '(self, log) := s in
                let '(self, ok) := should_sign self p now in
                (self, if ok then p :: log else log)) (self, []) calls.

End LookupSign.

(** How often [p] occurs. *)
Definition occurrences (p : NodeAddr) (l : list NodeAddr) : Z :=
  Z.of_nat (length (filter (λ q, q = p) l)).

(** ** Backoff *)

Section backoff.
Import DiscoveryBackoff.

Lemma backoff_saturation base p max : 0 ≤ base → 0 < p → 0 ≤ max ≤ U64_MAX →
  Z.min (sat_mul_u64 base (Z.min p U64_MAX)) max = Z.min (base * p) max.
Proof.
  intros Hb Hp Hm. unfold sat_mul_u64. destruct (Z.le_ge_cases p U64_MAX) as [Hle|Hge].
  - rewrite (Z.min_l p) by done. lia.
  - rewrite (Z.min_r p) by done. destruct (decide (base = 0)) as [->|]; [lia|].
    assert (U64_MAX ≤ base * U64_MAX) by (unfold U64_MAX in *; nia).
    assert (U64_MAX ≤ base * p) by (unfold U64_MAX in *; nia). lia.
Qed.

Lemma record_failure_step self target delayed now n :
  0 ≤ base self → 0 ≤ max self ≤ U64_MAX →
  failure_count self target = n → 0 ≤ n < U32_MAX →
  now + max self * NANOS_PER_SEC ≤ INSTANT_MAX →
  record_failure_with_reachability self target delayed now
  = Ok (set_entries self (<[target :=
      mkEntry (now + Z.min (base self * 2 ^ n) (max self) * NANOS_PER_SEC) (n + 1) delayed]> (entries self))).
Proof.
  intros Hb Hm Hf Hn Hi. unfold record_failure_with_reachability. cbv zeta. rewrite Hf.
  assert (wrap_u32 (n + 1) = n + 1) as -> by (apply Z.mod_small; unfold U32_MAX in Hn; lia).
  assert (sat_sub (n + 1) 1 = n) as -> by mlia. unfold saturating_pow, BACKOFF_MULTIPLIER.
  rewrite backoff_saturation by (try lia; apply Z.pow_pos_nonneg; lia).
  unfold instant_checked_add. destruct (Z.leb_spec
    (now + Z.min (base self * 2 ^ n) (max self) * NANOS_PER_SEC) INSTANT_MAX) as [|Hgt]; [done|].
  unfold NANOS_PER_SEC in *. lia.
Qed.

Lemma record_failures_spec self target fs : 0 ≤ base self → 0 ≤ max self ≤ U64_MAX →
  entries self !! target = None → Z.of_nat (length fs) ≤ U32_MAX →
  (∀ t d, (t, d) ∈ fs → t + max self * NANOS_PER_SEC ≤ INSTANT_MAX) →
  record_failures self target fs = Ok (match last fs with
    | None => self
    | Some (now, delayed) => set_entries self (<[target :=
        mkEntry (now + Z.min (base self * 2 ^ (Z.of_nat (length fs) - 1)) (max self) * NANOS_PER_SEC)
          (Z.of_nat (length fs)) delayed]> (entries self))
    end).
Proof.
  intros Hb Hm Hnone. induction fs as [|[now d] fs IH] using rev_ind; intros Hlen Ht; [done|].
  assert (∀ self gs hs, record_failures self target (gs ++ hs)
    = (record_failures self target gs ≫= λ s, record_failures s target hs)) as Happ.
  { intros s gs hs. revert s. induction gs as [|[t b] gs IHg]; intros s; [done|]. simpl.
    destruct (record_failure_with_reachability s target b t); simpl; [apply IHg|done|done]. }
  rewrite length_app in *. simpl in Hlen. rewrite Happ, IH; [|lia|set_solver]. rewrite last_snoc. simpl.
  assert (now + max self * NANOS_PER_SEC ≤ INSTANT_MAX) as Hnow by (apply (Ht now d); set_solver).
  replace (Z.of_nat (length fs + 1) - 1) with (Z.of_nat (length fs)) by lia.
  replace (Z.of_nat (length fs + 1)) with (Z.of_nat (length fs) + 1) by lia.
  destruct (last fs) as [[t b]|] eqn:Hl.
  - rewrite (record_failure_step _ _ _ _ (Z.of_nat (length fs))); try done; simpl.
    + unfold set_entries. simpl. by rewrite insert_insert_eq.
    + unfold failure_count. simpl. by rewrite lookup_insert_eq.
    + lia.
  - apply last_None in Hl as ->. rewrite (record_failure_step _ _ _ _ 0); try done.
    unfold failure_count. by rewrite Hnone.
Qed.
End backoff.

(** ** The forward limiter *)

Section forward.
Import ForwardLimiter.

Lemma entry_ltb_lt x y : entry_ltb x y = true ↔
  x.1 < y.1 ∨ (x.1 = y.1 ∧ (x.2.1.1 < y.2.1.1 ∨ (x.2.1.1 = y.2.1.1 ∧
    (x.2.1.2 < y.2.1.2 ∨ (x.2.1.2 = y.2.1.2 ∧ x.2.2 < y.2.2))))).
Proof.
  destruct x as [t [[a b] c]], y as [t' [[a' b'] c']]. simpl.
  rewrite !orb_true_iff, !andb_true_iff, !orb_true_iff, !andb_true_iff, !orb_true_iff, !andb_true_iff,
    !Z.ltb_lt, !Z.eqb_eq. done.
Qed.

Lemma first_spec s :
  match first s with
  | None => s = ∅
  | Some x => x ∈ s ∧ ∀ y, y ∈ s → x.1 ≤ y.1
  end.
Proof.
  unfold first. pose proof (keep_best_spec entry_ltb (elements s)) as H.
  destruct (foldl _ _ _) as [x|].
  - destruct H as [Hx Hmin].
    + intros x0 _. apply not_true_is_false. rewrite entry_ltb_lt. lia.
    + intros x0 y0 z0 _ _ _. rewrite !entry_ltb_lt. lia.
    + split; [by apply elem_of_elements|]. intros y Hy%elem_of_elements%Hmin.
      apply not_true_iff_false in Hy. rewrite entry_ltb_lt in Hy. lia.
  - apply leibniz_equiv, elements_empty_iff, H.
    + intros x0 _. apply not_true_is_false. rewrite entry_ltb_lt. lia.
    + intros x0 y0 z0 _ _ _. rewrite !entry_ltb_lt. lia.
Qed.

(** The map and the time index hold the same scopes. *)
Definition indexed (m : gmap Key Z) (s : gset (Z * Key)) : Prop :=
  ∀ t k, (t, k) ∈ s ↔ m !! k = Some t.

(** What holds of the limiter at [now] after admitting [log]. *)
Record forward_ok (self : DiscoveryForwardRateLimiter) (now : Z) (log : list (Key * Z)) : Prop := {
  fwd_spaced : spaced (min_interval self) log;
  fwd_remembered : remembered (min_interval self) (last_forwarded self) now log;
  fwd_past : ∀ k t, last_forwarded self !! k = Some t → t ≤ now;
  fwd_indexed : indexed (last_forwarded self) (forwarded_by_time self);
  fwd_targets : len self ≤ max_targets self;
  fwd_ingress : Z.of_nat (size (ingress_buckets self)) ≤ max_ingress_peers self;
  fwd_age : 0 < max_age self ∧ min_interval self ≤ max_age self
}.

(** The configuration never changes. *)
Definition same_config (self self' : DiscoveryForwardRateLimiter) : Prop :=
  min_interval self' = min_interval self ∧ max_age self' = max_age self
  ∧ max_targets self' = max_targets self ∧ max_ingress_peers self' = max_ingress_peers self
  ∧ ingress_burst self' = ingress_burst self ∧ ingress_rate self' = ingress_rate self.

Lemma forward_later self now now' log : now ≤ now' → forward_ok self now log → forward_ok self now' log.
Proof.
  intros Hle []. split; try done; [by eapply remembered_later|].
  intros k t Hk. specialize (fwd_past0 k t Hk). lia.
Qed.

Lemma cleanup_indexed self now : indexed (last_forwarded self) (forwarded_by_time self) →
  indexed (last_forwarded (cleanup self now)) (forwarded_by_time (cleanup self now)).
Proof.
  intros Hix t k. unfold cleanup, stale. simpl.
  rewrite elem_of_difference, elem_of_list_to_set, list_elem_of_fmap, map_lookup_filter_Some, (Hix t k).
  simpl. split.
  - intros [Hm Hn]. split; [done|]. destruct (decide (sat_sub now t < max_age self)); [done|].
    exfalso. apply Hn. exists (k, t). split; [done|]. by rewrite elem_of_map_to_list, map_lookup_filter_Some.
  - intros [Hm Hlt]. split; [done|]. intros ([k' t'] & [= -> ->] & Hin).
    rewrite elem_of_map_to_list, map_lookup_filter_Some in Hin. naive_solver.
Qed.

Lemma forward_cleanup_ok self now log : forward_ok self now log → forward_ok (cleanup self now) now log.
Proof.
  intros Hok. pose proof (cleanup_indexed self now (fwd_indexed _ _ _ Hok)) as Hix.
  destruct Hok as [Hs Hr Hp _ Ht Hi Ha]. split; try done.
  - eapply remembered_drop; [done|]. intros k t Hm. simpl.
    destruct (decide (sat_sub now t < max_age self)) as [Hlt|Hge].
    + left. by apply map_lookup_filter_Some.
    + right. mlia.
  - simpl. intros k t [Hk _]%map_lookup_filter_Some. eauto.
  - unfold len in *. simpl.
    pose proof (map_size_filter (M := gmap Key) (λ kl : Key * Z, sat_sub now kl.2 < max_age self)
      (last_forwarded self)). lia.
  - simpl. pose proof (map_size_filter (M := gmap NodeAddr)
      (λ pb : NodeAddr * Bucket, sat_sub now (updated pb.2) < ingress_max_age self)
      (ingress_buckets self)). lia.
Qed.

Lemma forward_maybe_cleanup_ok self now log : forward_ok self now log →
  forward_ok (maybe_cleanup self now) now log ∧ same_config self (maybe_cleanup self now).
Proof.
  intros Hok. unfold maybe_cleanup. destruct (_ <? _); [done|]. split; [by apply forward_cleanup_ok|done].
Qed.

(** Creating and updating an ingress bucket touches nothing else. *)
Lemma ingress_bucket_ok self from now log : forward_ok self now log →
  match ingress_bucket self from now with
  | Some (self', _) => same_config self self' ∧ is_Some (ingress_buckets self' !! from)
      ∧ last_forwarded self' = last_forwarded self ∧ forward_ok self' now log
  | None => True
  end.
Proof.
  intros [Hs Hr Hp Hix Ht Hi Ha]. unfold ingress_bucket.
  destruct (ingress_buckets self !! from) as [b|] eqn:Hb; [done|].
  destruct (Z.leb_spec (max_ingress_peers self) (Z.of_nat (size (ingress_buckets self)))) as [|Hlt]; [done|].
  split; [done|]. split; [simpl; by rewrite lookup_insert_eq|]. split; [done|]. split; try done.
  simpl. rewrite map_size_insert_None by done. lia.
Qed.

Lemma set_bucket_ok self from b now log : forward_ok self now log →
  is_Some (ingress_buckets self !! from) →
  forward_ok (set_buckets self (<[from := b]> (ingress_buckets self))) now log.
Proof.
  intros [Hs Hr Hp Hix Ht Hi Ha] Hb. split; try done. simpl. by rewrite map_size_insert_Some.
Qed.
(** Giving up a scope whose interval is over. *)
Lemma drop_scope_ok self last oldest now log : forward_ok self now log →
  last_forwarded self !! oldest = Some last → last + min_interval self ≤ now →
  let self' := set_forwarded self (delete oldest (last_forwarded self))
                 (forwarded_by_time self ∖ {[(last, oldest)]}) in
  forward_ok self' now log ∧ len self' = len self - 1.
Proof.
  intros [Hs Hr Hp Hix Ht Hi Ha] Hm Hdue self'.
  assert (len self' = len self - 1) as Hlen.
  { unfold len, self'. simpl. rewrite map_size_delete_Some by eauto.
    assert (size (last_forwarded self) ≠ 0%nat); [|lia].
    rewrite map_size_non_empty_iff. intros He. by rewrite He in Hm. }
  split; [|done]. split; try done; simpl.
  - eapply remembered_drop; [done|]. intros k t Hk. destruct (decide (k = oldest)) as [->|].
    + right. congruence.
    + left. by rewrite lookup_delete_ne.
  - intros k t [_ Hk]%lookup_delete_Some. eauto.
  - intros t k. rewrite elem_of_difference, elem_of_singleton, lookup_delete_Some, (Hix t k).
    split; [|naive_solver]. intros [Hk Hne]. split; [|done]. intros <-. congruence.
  - rewrite Hlen. lia.
Qed.

(** Recording an admitted scope. *)
Lemma record_scope_ok self key now log : forward_ok self now log →
  (∀ t, last_forwarded self !! key = Some t → min_interval self ≤ sat_sub now t) →
  (len self < max_targets self ∨ is_Some (last_forwarded self !! key)) →
  forward_ok (set_forwarded self (<[key := now]> (last_forwarded self))
    ({[(now, key)]} ∪ match last_forwarded self !! key with
                      | Some last => forwarded_by_time self ∖ {[(last, key)]}
                      | None => forwarded_by_time self
                      end)) now ((key, now) :: log).
Proof.
  intros [Hs Hr Hp Hix Ht Hi Ha] Hk Hroom.
  destruct (spaced_admit _ _ _ _ key Hs Hr Hk) as [Hs' Hr']. split; try done; simpl.
  - intros k t [[_ <-]|[_ Hm]]%lookup_insert_Some; [done|eauto].
  - intros t k. rewrite elem_of_union, elem_of_singleton, lookup_insert_Some.
    specialize (Hix t k). destruct (last_forwarded self !! key) as [l|] eqn:Hl.
    + rewrite elem_of_difference, elem_of_singleton, Hix. destruct (decide (key = k)); naive_solver.
    + rewrite Hix. destruct (decide (key = k)); naive_solver.
  - unfold len in *. simpl. destruct (last_forwarded self !! key) as [t|] eqn:Hm.
    + by rewrite map_size_insert_Some by eauto.
    + rewrite map_size_insert_None by done. destruct Hroom as [?|[? ?]]; [lia|done].
Qed.

Lemma commit_ok self key r now log : forward_ok self now log →
  (∀ t, last_forwarded self !! key = Some t → min_interval self ≤ sat_sub now t) →
  reclaim self key now = inr r →
  forward_ok (commit self key r now) now ((key, now) :: log).
Proof.
  intros Hok Hk Hr. unfold reclaim in Hr. unfold commit.
  destruct (negb _ && _) eqn:Hfull.
  - apply andb_true_iff in Hfull as [Hnone _].
    apply negb_true_iff, bool_decide_eq_false, eq_None_not_Some in Hnone.
    pose proof (first_spec (forwarded_by_time self)) as Hf.
    destruct (first (forwarded_by_time self)) as [[last oldest]|]; [|done].
    destruct (Z.ltb_spec (sat_sub now last) (min_interval self)) as [|Hge]; [done|]. injection Hr as <-.
    destruct Hf as [Hin%(fwd_indexed _ _ _ Hok) _].
    assert (last ≤ now) by (by eapply fwd_past).
    destruct (drop_scope_ok self last oldest now log Hok Hin ltac:(mlia)) as [Hok' Hlen].
    apply record_scope_ok; [done| |left].
    + simpl. intros t [_ Ht]%lookup_delete_Some. congruence.
    + rewrite Hlen. simpl. pose proof (fwd_targets _ _ _ Hok). lia.
  - injection Hr as <-. apply record_scope_ok; [done|done|].
    apply andb_false_iff in Hfull as [Hs|?%Z.leb_gt]; [right|by left].
    by apply negb_false_iff, bool_decide_eq_true in Hs.
Qed.

Lemma commit_config self key r now : same_config self (commit self key r now).
Proof. unfold commit. by destruct r as [[? ?]|]. Qed.

(** A decision keeps the invariant; only [Forward] changes the scopes of the swept limiter. *)
Lemma decision_ok self from origin target now log : forward_ok self now log →
  let '(self', d) := decision_for_origin_at self from origin target now in
  forward_ok self' now (if bool_decide (d = Forward) then ((from, origin, target), now) :: log else log)
  ∧ same_config self self'
  ∧ (d ≠ Forward → last_forwarded self' = last_forwarded (maybe_cleanup self now)).
Proof.
  intros Hok0. unfold decision_for_origin_at. cbv zeta.
  destruct (forward_maybe_cleanup_ok self now log Hok0) as [Hok Hc].
  set (s := maybe_cleanup self now) in *. clearbody s. set (key := (from, origin, target)).
  destruct (match last_forwarded s !! key with Some _ => _ | None => _ end) eqn:Hint; [done|].
  assert (Hk : ∀ t, last_forwarded s !! key = Some t → min_interval s ≤ sat_sub now t).
  { intros t Ht. rewrite Ht in Hint. by apply Z.ltb_ge. }
  destruct (reclaim s key now) as [d|r] eqn:Hr.
  { assert (d = TargetCapacity) as ->; [|done]. revert Hr. unfold reclaim.
    destruct (_ && _); [|done]. destruct (first _) as [[? ?]|]; [destruct (_ <? _)|]; congruence. }
  pose proof (ingress_bucket_ok s from now log Hok) as Hb.
  destruct (ingress_bucket s from now) as [[s1 b]|] eqn:Hib; [|done].
  destruct Hb as (Hc1 & Hin & Hlf & Hok1).
  destruct (spend b (ingress_burst s1) (ingress_rate s1) now) as [b' []].
  - split; [|split; [|done]].
    + apply commit_ok; [by apply set_bucket_ok| |].
      * simpl. rewrite Hlf. destruct Hc1 as (-> & _). done.
      * rewrite <- Hr. unfold ingress_bucket in Hib. unfold reclaim, len.
        destruct (ingress_buckets s !! from); [by simplify_eq|]. destruct (_ <=? _); by simplify_eq.
    + pose proof (commit_config (set_buckets s1 (<[from:=b']> (ingress_buckets s1))) key r now) as Hc2.
      set (c := commit _ _ _ _) in *. clearbody c. unfold same_config in *. simpl in *.
      intuition congruence.
  - split; [by apply set_bucket_ok|]. split; [|done]. unfold same_config in *. simpl. intuition congruence.
Qed.

Lemma deferred_ok self from origin target now log : forward_ok self now log →
  forward_ok (deferred_deadline self from origin target now).1 now log
  ∧ same_config self (deferred_deadline self from origin target now).1.
Proof.
  intros Hok. unfold deferred_deadline. destruct (_ ≫= _) as [due|]; [|done].
  destruct (due <=? now); [done|]. pose proof (ingress_bucket_ok self from now log Hok) as Hb.
  destruct (ingress_bucket self from now) as [[s b]|]; [|done]. naive_solver.
Qed.

Lemma forward_run_ok calls self now log : forward_ok self now log →
  (∀ t r, (t, r) ∈ calls → now ≤ t) → StronglySorted (λ a b, a.1 ≤ b.1) calls →
  let '(self', log') := foldl ForwardHistory.step (self, log) calls in
  (∃ now', forward_ok self' now' log') ∧ same_config self self'.
Proof.
  revert self now log. induction calls as [|[t r] calls IH]; intros self now log Hok Hle Hsorted;
    [split; [by exists now|done]|].
  apply StronglySorted_inv in Hsorted as [Hsorted Hd]. rewrite Forall_forall in Hd.
  apply (forward_later _ _ t) in Hok; [|apply (Hle t r); left]. cbn [foldl].
  assert (∃ self1 log1, ForwardHistory.step (self, log) (t, r) = (self1, log1)
    ∧ forward_ok self1 t log1 ∧ same_config self self1) as (self1 & log1 & Heq & Hok1 & Hc).
  { unfold ForwardHistory.step. simpl. destruct r as [f o g|f o g].
    - pose proof (decision_ok self f o g t log Hok) as H1.
      destruct (decision_for_origin_at self f o g t) as [s1 d]. naive_solver.
    - pose proof (deferred_ok self f o g t log Hok). naive_solver. }
  rewrite Heq. specialize (IH self1 t log1 Hok1 ltac:(intros t' r' Hin; exact (Hd _ Hin)) Hsorted).
  destruct (foldl _ _ _) as [self2 log2]. destruct IH as [? ?]. split; [done|].
  unfold same_config in *. intuition congruence.
Qed.

End forward.

(** ** Bursts

    At one instant a bucket of 256 tokens holds whole numbers, where the float
    arithmetic is exact. *)

Section bursts.

Let refilled (k : Z) : f64 :=
  f64_min (f64_add (f64_of_Z k) (f64_mul (as_secs_f64 0) (f64_of_Z 32))) (f64_of_Z 256).

Lemma spend_whole k now : 0 ≤ k ≤ 256 →
  spend (mkBucket (f64_of_Z k) now) (f64_of_Z 256) (f64_of_Z 32) now
  = if k =? 0 then (mkBucket (f64_of_Z k) now, false) else (mkBucket (f64_of_Z (k - 1)) now, true).
Proof.
  intros Hk. unfold spend, available. cbn [tokens updated].
  replace (sat_sub now now) with 0 by mlia.
  assert (Forall (λ k, refilled k = f64_of_Z k ∧ f64_ltb (refilled k) f64_one = (k =? 0)
      ∧ (k = 0 ∨ f64_sub (refilled k) f64_one = f64_of_Z (k - 1))) (seqZ 0 257)) as Hall.
  { apply (bool_decide_unpack _). vm_compute. exact I. }
  rewrite Forall_forall in Hall. specialize (Hall k ltac:(apply elem_of_seqZ; lia)).
  destruct Hall as (Ht & Hlt & Hs). fold (refilled k). rewrite Hlt.
  destruct (Z.eqb_spec k 0); [by rewrite Ht|]. destruct Hs as [?|Hs]; [done|]. by rewrite Hs.
Qed.

(** [p] has [k] tokens left at [now], or has not been seen and has all of them. *)
Definition tokens_left (m : gmap NodeAddr Bucket) (now : Z) (p : NodeAddr) (k : Z) : Prop :=
  0 ≤ k ≤ 256
  ∧ (m !! p = Some (mkBucket (f64_of_Z k) now) ∨ (k = 256 ∧ m !! p = None)).

Lemma occurrences_cons p q l : occurrences p (q :: l) = occurrences p l + (if decide (p = q) then 1 else 0).
Proof.
  unfold occurrences. rewrite filter_cons. destruct (decide (q = p)), (decide (p = q)); simpl; try congruence; lia.
Qed.

Lemma occurrences_snoc p q l : occurrences p (l ++ [q]) = occurrences p l + (if decide (p = q) then 1 else 0).
Proof. rewrite <- occurrences_cons. unfold occurrences. by rewrite <- Permutation_cons_append. Qed.

(** Spending is logged while fewer than 256 are. *)
Lemma spend_logged m now p log : (∀ q, tokens_left m now q (256 - occurrences q log)) →
  ∃ b' ok, spend (default (mkBucket (f64_of_Z 256) now) (m !! p)) (f64_of_Z 256) (f64_of_Z 32) now = (b', ok)
    ∧ ok = (occurrences p log <? 256)
    ∧ ∀ q, tokens_left (<[p := b']> m) now q (256 - occurrences q (if ok then p :: log else log)).
Proof.
  intros Hleft. destruct (Hleft p) as [Hk Hm]. set (k := 256 - occurrences p log) in *.
  assert (default (mkBucket (f64_of_Z 256) now) (m !! p) = mkBucket (f64_of_Z k) now) as ->
    by (destruct Hm as [-> |[-> ->]]; done).
  rewrite spend_whole by done. destruct (Z.eqb_spec k 0) as [Hk0|Hne]; eexists _, _; (split; [done|]).
  - split; [symmetry; apply Z.ltb_ge; lia|]. intros q. destruct (Hleft q) as [Hq Hmq].
    split; [done|]. destruct (decide (q = p)) as [->|]; [left; by rewrite lookup_insert_eq|].
    by rewrite lookup_insert_ne.
  - split; [symmetry; apply Z.ltb_lt; lia|]. intros q. rewrite occurrences_cons.
    destruct (Hleft q) as [Hq Hmq]. destruct (decide (q = p)) as [->|].
    + replace (256 - (occurrences p log + 1)) with (k - 1) by lia. split; [lia|].
      left. by rewrite lookup_insert_eq.
    + rewrite Z.add_0_r. split; [done|]. by rewrite lookup_insert_ne.
Qed.

Lemma tokens_left_retain m now age q k : 0 < age → tokens_left m now q k →
  tokens_left (filter (λ pb, sat_sub now (updated pb.2) < age) m) now q k.
Proof.
  intros Hage [Hk Hm]. split; [done|]. destruct Hm as [Hm|[-> Hm]]; [left|right].
  - apply map_lookup_filter_Some. split; [done|]. simpl. mlia.
  - split; [done|]. apply map_lookup_filter_None. by left.
Qed.

Lemma signed_invariant now calls :
  let '(self, log) := LookupSign.signed LookupSign.new now calls in
  LookupSign.burst self = f64_of_Z 256 ∧ LookupSign.rate self = f64_of_Z 32
  ∧ (∀ p, tokens_left (LookupSign.buckets self) now p (256 - occurrences p log))
  ∧ ∀ p, occurrences p log = Z.min (occurrences p calls) 256.
Proof.
  unfold LookupSign.signed. induction calls as [|p calls IH] using rev_ind; cbn [foldl].
  { split_and!; [done|done|intros p; split; [done|by right]|done]. }
  rewrite foldl_app. cbn [foldl]. destruct (foldl _ _ _) as [self log].
  destruct IH as (Hb & Hr & Hleft & Hocc). unfold LookupSign.should_sign. rewrite Hb, Hr.
  replace (f64_leb (f64_of_Z 256) f64_zero) with false by (by vm_compute).
  destruct (spend_logged _ _ p _ Hleft) as (b' & ok & Hs & Hok & Hq). rewrite Hs.
  assert (∀ q, occurrences q (if ok then p :: log else log) = Z.min (occurrences q (calls ++ [p])) 256).
  { intros q. rewrite occurrences_snoc. specialize (Hocc q). destruct ok.
    - symmetry in Hok. apply Z.ltb_lt in Hok. rewrite occurrences_cons.
      destruct (decide (q = p)) as [->|]; lia.
    - symmetry in Hok. apply Z.ltb_ge in Hok. destruct (decide (q = p)) as [->|]; lia. }
  destruct ok; split_and!; try done. intros q. by apply tokens_left_retain.
Qed.
Import ForwardLimiter.

(** The forward limiter at the instant it was created. *)
Record burst_ok (self : DiscoveryForwardRateLimiter) (now : Z) (log : list NodeAddr) : Prop := {
  burst_config : ingress_burst self = f64_of_Z 256 ∧ ingress_rate self = f64_of_Z 32
    ∧ cleanup_interval self = FORWARD_CLEANUP_INTERVAL ∧ last_cleanup self = now;
  burst_left : ∀ q, tokens_left (ingress_buckets self) now q (256 - occurrences q log)
}.

Lemma ingress_bucket_default self from now log self' b : burst_ok self now log →
  ingress_bucket self from now = Some (self', b) →
  b = default (mkBucket (f64_of_Z 256) now) (ingress_buckets self !! from)
  ∧ burst_ok self' now log
  ∧ ∀ b', <[from := b']> (ingress_buckets self') = <[from := b']> (ingress_buckets self).
Proof.
  intros [Hc Hleft]. unfold ingress_bucket.
  destruct (ingress_buckets self !! from) as [b0|] eqn:Hm; [by intros [= <- <-]|].
  destruct (_ <=? _); [done|]. intros [= <- <-]. destruct Hc as (Hb & Hr & Hci & Hl). rewrite Hb.
  split_and!; [done| |intros b'; simpl; by rewrite insert_insert_eq].
  split; [done|]. intros q. destruct (Hleft q) as [Hk Hq]. split; [done|]. simpl.
  destruct (decide (q = from)) as [->|]; [|by rewrite lookup_insert_ne].
  left. rewrite lookup_insert_eq. destruct Hq as [Hq|[-> _]]; [congruence|done].
Qed.

Lemma burst_step self now log r : burst_ok self now (log.*1.*1.*1) →
  let '(self', log') := ForwardHistory.step (self, log) (now, r) in burst_ok self' now (log'.*1.*1.*1).
Proof.
  intros Hok. pose proof Hok as [(Hb & Hr & Hci & Hl) Hleft]. destruct r as [f o g|f o g]; cbn -[deferred_deadline decision_for_origin_at].
  - unfold decision_for_origin_at, maybe_cleanup. rewrite Hl, Hci.
    replace (sat_sub now now <? FORWARD_CLEANUP_INTERVAL) with true by (unfold sat_sub; rewrite Z.sub_diag; done).
    cbv zeta. destruct (match last_forwarded self !! _ with Some _ => _ | None => _ end); [done|].
    destruct (reclaim self (f, o, g) now) as [d|r] eqn:Hrc.
    { assert (d = TargetCapacity) as ->; [|done]. revert Hrc. unfold reclaim.
      destruct (_ && _); [|done]. destruct (first _) as [[? ?]|]; [destruct (_ <? _)|]; congruence. }
    destruct (ingress_bucket self f now) as [[s b]|] eqn:Hib; [|done].
    destruct (ingress_bucket_default _ _ _ _ _ _ Hok Hib) as (-> & [Hc' _] & Hins).
    destruct Hc' as (Hb' & Hr' & ?). rewrite Hb', Hr'.
    destruct (spend_logged _ _ f _ Hleft) as (b' & ok & Hs & _ & Hq). rewrite Hs, Hins.
    destruct ok.
    + rewrite bool_decide_true by done. unfold commit. by destruct r as [[? ?]|]; split.
    + by split.
  - unfold deferred_deadline. destruct (_ ≫= _) as [due|]; [|done]. destruct (due <=? now); [done|].
    destruct (ingress_bucket self f now) as [[s b]|] eqn:Hib; [|done].
    by destruct (ingress_bucket_default _ _ _ _ _ _ Hok Hib) as (_ & ? & _).
Qed.

Lemma burst_run mi now rs :
  let '(self, log) := ForwardHistory.run (with_interval mi now) (pair now <$> rs) in
  burst_ok self now (log.*1.*1.*1).
Proof.
  unfold ForwardHistory.run. induction rs as [|r rs IH] using rev_ind.
  { split; [done|]. intros q. split; [done|by right]. }
  rewrite fmap_app, foldl_app. destruct (foldl _ _ (pair now <$> rs)) as [self log].
  by apply (burst_step self now log r) in IH.
Qed.
End bursts.

(** ** Properties *)

(** Backoff has its closed form. After [n] failures in a row of a target without an entry,
    at any instants, the target is suppressed exactly until [min(base * 2^(n-1), max)]
    seconds after the last of them, its count is [n], and no other target is affected;
    the 64-bit saturation never shows. No step aborts while the instants leave room for
    the cap. *)
Theorem backoff_closed_form self target fs now delayed :
  0 ≤ DiscoveryBackoff.base self → 0 ≤ DiscoveryBackoff.max self ≤ U64_MAX →
  DiscoveryBackoff.entries self !! target = None → Z.of_nat (length fs) < U32_MAX →
  (∀ t d, (t, d) ∈ fs ++ [(now, delayed)] →
     t + DiscoveryBackoff.max self * NANOS_PER_SEC ≤ INSTANT_MAX) →
  ∃ self', DiscoveryBackoff.record_failures self target (fs ++ [(now, delayed)]) = Ok self'
    ∧ DiscoveryBackoff.failure_count self' target = Z.of_nat (length fs) + 1
    ∧ (∀ t, DiscoveryBackoff.is_suppressed self' target t = true ↔
         t < now + Z.min (DiscoveryBackoff.base self * 2 ^ Z.of_nat (length fs))
               (DiscoveryBackoff.max self) * NANOS_PER_SEC)
    ∧ (∀ a t, a ≠ target → DiscoveryBackoff.is_suppressed self' a t = DiscoveryBackoff.is_suppressed self a t)
    ∧ (DiscoveryBackoff.retry_delayed_with_route self' target).2 = delayed
    ∧ (let self1 := (DiscoveryBackoff.retry_delayed_with_route self' target).1 in
       (DiscoveryBackoff.retry_delayed_with_route self1 target).2 = false
       ∧ ∀ t, DiscoveryBackoff.is_suppressed self1 target t = DiscoveryBackoff.is_suppressed self' target t).
Proof.
  intros Hb Hm Hnone Hlen Ht. eexists. split.
  { apply record_failures_spec; [done|done|done| |done]. rewrite length_app. simpl. lia. }
  rewrite last_snoc, length_app. replace (Z.of_nat (length fs + length [(now, delayed)]) - 1)
    with (Z.of_nat (length fs)) by (simpl; lia).
  unfold DiscoveryBackoff.failure_count, DiscoveryBackoff.is_suppressed,
    DiscoveryBackoff.retry_delayed_with_route. cbn [DiscoveryBackoff.entries DiscoveryBackoff.set_entries].
  rewrite !lookup_insert_eq. cbn -[Z.pow Z.of_nat Z.mul]. rewrite !lookup_insert_eq.
  split_and!; [lia|intros t; apply Z.ltb_lt| |done|done|done].
  intros a t Hne. by rewrite lookup_insert_ne.
Qed.

Lemma backoff_closed_form_witness :
  ∃ self', DiscoveryBackoff.record_failures DiscoveryBackoff.new 7 ([(0, false)] ++ [(5, true)]) = Ok self'
    ∧ DiscoveryBackoff.failure_count self' 7 = 2.
Proof.
  destruct (backoff_closed_form DiscoveryBackoff.new 7 [(0, false)] 5 true) as (s & H1 & H2 & _);
    [done|done|done|done| |by exists s].
  intros t d Hin. simpl in Hin. repeat (apply elem_of_cons in Hin as [Hin|Hin]; [by simplify_eq|]).
  by apply elem_of_nil in Hin.
Defined.

(** Forwarded lookups are spaced and the limiter is bounded. On a clock that does not run
    backwards, two forwards of the same ingress, origin and target are at least the
    interval apart, whatever else is asked in between, including scopes reclaimed when
    the table is full; at most 4096 scopes and ingress peers are remembered; and the time
    index holds exactly the scopes of the map. *)
Theorem forwards_spaced_and_bounded interval start calls :
  interval ≤ ForwardLimiter.FORWARD_MAX_AGE →
  (∀ t r, (t, r) ∈ calls → start ≤ t) → StronglySorted (λ a b, a.1 ≤ b.1) calls →
  let '(limiter, log) := ForwardHistory.run (ForwardLimiter.with_interval interval start) calls in
  (∀ i j k t t', (i < j)%nat → log !! i = Some (k, t') → log !! j = Some (k, t) → interval ≤ t' - t)
  ∧ ForwardLimiter.len limiter ≤ ForwardLimiter.FORWARD_MAX_TARGETS
  ∧ Z.of_nat (size (ForwardLimiter.ingress_buckets limiter)) ≤ ForwardLimiter.FORWARD_MAX_INGRESS_PEERS
  ∧ (∀ t k, (t, k) ∈ ForwardLimiter.forwarded_by_time limiter ↔
       ForwardLimiter.last_forwarded limiter !! k = Some t).
Proof.
  intros Hint Hle Hsorted. unfold ForwardHistory.run.
  pose proof (forward_run_ok calls (ForwardLimiter.with_interval interval start) start []) as H.
  destruct (foldl _ _ _) as [limiter log].
  destruct H as [(now & [Hs _ _ Hix Ht Hi _]) (Hm & _ & Hmt & Hmi & _)]; [|done|done|].
  - split; simpl; try done. by intros ?? ?%elem_of_nil.
  - simpl in *. rewrite Hm in Hs. rewrite Hmt in Ht. rewrite Hmi in Hi. done.
Qed.

Lemma forwards_spaced_and_bounded_witness :
  let '(limiter, log) := ForwardHistory.run (ForwardLimiter.with_interval 100 0)
    [(0, ForwardHistory.Decide 1 2 3); (50, ForwardHistory.Decide 1 2 3);
     (100, ForwardHistory.Decide 1 2 3)] in
  length log = 2%nat ∧ ForwardLimiter.len limiter ≤ ForwardLimiter.FORWARD_MAX_TARGETS.
Proof.
  pose proof (forwards_spaced_and_bounded 100 0 [(0, ForwardHistory.Decide 1 2 3);
    (50, ForwardHistory.Decide 1 2 3); (100, ForwardHistory.Decide 1 2 3)]) as H.
  assert (length (ForwardHistory.run (ForwardLimiter.with_interval 100 0)
    [(0, ForwardHistory.Decide 1 2 3); (50, ForwardHistory.Decide 1 2 3);
     (100, ForwardHistory.Decide 1 2 3)]).2 = 2%nat) as Hl by (by vm_compute).
  destruct (ForwardHistory.run _ _) as [lim log]. split; [exact Hl|]. apply H.
  - done.
  - intros d t Hin. repeat (apply elem_of_cons in Hin as [?|Hin]; [simplify_eq; lia|]). by apply elem_of_nil in Hin.
  - repeat constructor; simpl; lia.
Defined.

(** The token buckets at one instant. However many lookups arrive, from however many
    peers and under whatever claimed origins and targets, each peer gets exactly its
    first 256 lookups signed, and no ingress gets more than 256 forwarded. *)
Theorem lookup_bursts_bounded now calls interval requests :
  (let '(_, log) := LookupSign.signed LookupSign.new now calls in
   ∀ p, occurrences p log = Z.min (occurrences p calls) 256)
  ∧ (let '(_, log) := ForwardHistory.run (ForwardLimiter.with_interval interval now) (pair now <$> requests) in
     ∀ p, occurrences p (log.*1.*1.*1) ≤ 256).
Proof.
  split.
  - pose proof (signed_invariant now calls) as H. destruct (LookupSign.signed _ _ _). apply H.
  - pose proof (burst_run interval now requests) as H. destruct (ForwardHistory.run _ _).
    intros p. destruct H as [_ Hleft]. destruct (Hleft p) as [? _]. lia.
Qed.
