(* ===== verification/LearnedRoutes.v ===== *)
(** * Learned routes ([crates/fips-core/src/proto/routing.rs])

    The reply-learned routing mode's table of next hops per destination:
    reinforced by return traffic, quarantined on failure, chosen by smooth
    weighted round-robin. The weight's [powf] is a parameter; the
    [can_send] closure is a predicate. Times are milliseconds. *)

From S2P Require Import Prelude Bytes F64 NodeAddr.

Local Open Scope Z_scope.

Module LearnedRoutes.

(** 0.05, 64.0 and 512.0. *)
Definition MIN_ROUTE_SCORE : f64 := S754_finite false 7205759403792794 (-57).
Definition MAX_ROUTE_SCORE : f64 := f64_of_Z 64.
Definition MAX_ROUTE_WEIGHT : f64 := f64_of_Z 512.

(** 0.5 and 1.5. *)
Definition f64_half : f64 := S754_finite false 4503599627370496 (-53).
Definition f64_three_halves : f64 := S754_finite false 6755399441055744 (-52).

Record LearnedRoute := mkRoute {
  next_hop : NodeAddr;
  last_seen_ms : Z;
  expires_at_ms : Z;
  successes : Z;
  failures : Z;
  score : f64;
  current_weight : f64;
  selected : Z
}.

Record HandshakeRoute := mkHandshake { hs_next_hop : NodeAddr; hs_expires_at_ms : Z }.

Record LearnedRouteTable := mkTable {
  routes : gmap NodeAddr (list LearnedRoute);
  handshake_routes : gmap NodeAddr HandshakeRoute;
  explored_at_selected : gmap NodeAddr Z
}.

Definition new : LearnedRouteTable := mkTable ∅ ∅ ∅.

Definition set_routes (self : LearnedRouteTable) (m : gmap NodeAddr (list LearnedRoute))
    : LearnedRouteTable := mkTable m (handshake_routes self) (explored_at_selected self).

Definition set_handshake_routes (self : LearnedRouteTable) (m : gmap NodeAddr HandshakeRoute)
    : LearnedRouteTable := mkTable (routes self) m (explored_at_selected self).

Definition set_explored (self : LearnedRouteTable) (m : gmap NodeAddr Z) : LearnedRouteTable :=
  mkTable (routes self) (handshake_routes self) m.

(** Field writes through [iter_mut]. *)
Definition set_selected (r : LearnedRoute) (n : Z) : LearnedRoute :=
  mkRoute (next_hop r) (last_seen_ms r) (expires_at_ms r) (successes r) (failures r) (score r)
    (current_weight r) n.

Definition set_current_weight (r : LearnedRoute) (w : f64) : LearnedRoute :=
  mkRoute (next_hop r) (last_seen_ms r) (expires_at_ms r) (successes r) (failures r) (score r)
    w (selected r).

Definition compare_routes (left right : LearnedRoute) : comparison :=
  match total_cmp (score right) (score left) with
  | Eq => match last_seen_ms right ?= last_seen_ms left with
          | Eq => next_hop left ?= next_hop right
          | c => c
          end
  | c => c
  end.

(** The stable [sort_by]: an element goes before the first one it does not follow. *)
Fixpoint insert_sorted (r : LearnedRoute) (l : list LearnedRoute) : list LearnedRoute :=
  match l with
  | [] => [r]
  | x :: l => match compare_routes r x with Gt => x :: insert_sorted r l | _ => r :: x :: l end
  end.

Definition sort_routes (l : list LearnedRoute) : list LearnedRoute := foldr insert_sorted [] l.

Definition sort_and_truncate (l : list LearnedRoute) (max_routes_per_dest : Z) : list LearnedRoute :=
  take (Z.to_nat max_routes_per_dest) (sort_routes l).

Definition expiry (now_ms ttl_secs : Z) : Z := sat_add_u64 now_ms (sat_mul_u64 ttl_secs 1000).

(** [iter_mut().find(...)]: the first route through [hop], with its position. *)
Definition find_hop (l : list LearnedRoute) (hop : NodeAddr) : option (nat * LearnedRoute) :=
  list_find (λ r, next_hop r = hop) l.

Definition entry (self : LearnedRouteTable) (destination : NodeAddr) : list LearnedRoute :=
  default [] (routes self !! destination).

Definition learn (self : LearnedRouteTable) (destination hop : NodeAddr)
    (now_ms ttl_secs max_routes_per_dest : Z) : LearnedRouteTable :=
  if (destination =? hop) || (max_routes_per_dest =? 0) then self
  else
    let expires_at_ms := expiry now_ms ttl_secs in
    let rs := entry self destination in
    let rs :=
      match find_hop rs hop with
      | Some (i, r) =>
          <[i := mkRoute (next_hop r) now_ms expires_at_ms (sat_add_u64 (successes r) 1) 0
                   (f64_clamp (f64_add (score r) f64_one) MIN_ROUTE_SCORE MAX_ROUTE_SCORE)
                   (current_weight r) (selected r)]> rs
      | None => rs ++ [mkRoute hop now_ms expires_at_ms 1 0 f64_one f64_zero 0]
      end in
    set_routes self (<[destination := sort_and_truncate rs max_routes_per_dest]> (routes self)).

Definition quarantine_failed_next_hop (self : LearnedRouteTable) (destination hop : NodeAddr)
    (now_ms ttl_secs max_routes_per_dest : Z) : LearnedRouteTable :=
  let self :=
    match handshake_routes self !! destination with
    | Some h => if hs_next_hop h =? hop
                then set_handshake_routes self (delete destination (handshake_routes self)) else self
    | None => self
    end in
  if max_routes_per_dest =? 0 then self
  else
    let expires_at_ms := expiry now_ms ttl_secs in
    let rs := entry self destination in
    let rs :=
      match find_hop rs hop with
      | Some (i, r) =>
          <[i := mkRoute (next_hop r) (last_seen_ms r) expires_at_ms (successes r)
                   (sat_add_u64 (failures r) 1)
                   (f64_max (f64_mul (score r) f64_half) MIN_ROUTE_SCORE)
                   (f64_min (current_weight r) f64_zero) (selected r)]> rs
      | None =>
          take (Z.to_nat (sat_sub max_routes_per_dest 1)) (sort_and_truncate rs max_routes_per_dest)
          ++ [mkRoute hop now_ms expires_at_ms 0 1 MIN_ROUTE_SCORE f64_zero 0]
      end in
    set_routes self (<[destination := rs]> (routes self)).

Definition pin_handshake_route (self : LearnedRouteTable) (destination hop : NodeAddr)
    (now_ms ttl_secs max_routes_per_dest : Z) : LearnedRouteTable :=
  if max_routes_per_dest =? 0 then self
  else
    let self :=
      if negb (destination =? hop) then learn self destination hop now_ms ttl_secs max_routes_per_dest
      else self in
    set_handshake_routes self
      (<[destination := mkHandshake hop (expiry now_ms ttl_secs)]> (handshake_routes self)).

Definition live (now_ms : Z) (r : LearnedRoute) : bool := now_ms <? expires_at_ms r.

(** [routes.retain(|route| route.expires_at_ms > now_ms)]. *)
Definition retain_live (now_ms : Z) (l : list LearnedRoute) : list LearnedRoute :=
  filter (λ r, live now_ms r = true) l.

Definition record_selected (self : LearnedRouteTable) (destination hop : NodeAddr) (now_ms : Z)
    : LearnedRouteTable * bool :=
  match routes self !! destination with
  | None => (self, false)
  | Some rs =>
      let rs := retain_live now_ms rs in
      match find_hop rs hop with
      | None => (set_routes self (<[destination := rs]> (routes self)), false)
      | Some (i, r) =>
          (set_routes self
             (<[destination := <[i := set_selected r (sat_add_u64 (selected r) 1)]> rs]> (routes self)), true)
      end
  end.

Definition select_handshake_route (self : LearnedRouteTable) (destination : NodeAddr) (now_ms : Z)
    (can_send : NodeAddr → bool) : LearnedRouteTable * option NodeAddr :=
  match handshake_routes self !! destination with
  | None => (self, None)
  | Some route =>
      if (hs_expires_at_ms route <=? now_ms) || negb (can_send (hs_next_hop route)) then
        (set_handshake_routes self (delete destination (handshake_routes self)), None)
      else ((record_selected self destination (hs_next_hop route) now_ms).1, Some (hs_next_hop route))
  end.

Definition active_handshake_route (self : LearnedRouteTable) (destination : NodeAddr) (now_ms : Z)
    : LearnedRouteTable * option NodeAddr :=
  match handshake_routes self !! destination with
  | None => (self, None)
  | Some route =>
      if hs_expires_at_ms route <=? now_ms then
        (set_handshake_routes self (delete destination (handshake_routes self)), None)
      else (self, Some (hs_next_hop route))
  end.

(** A [HashSet] of next hops. *)
Definition failed_next_hops (self : LearnedRouteTable) (destination : NodeAddr) (now_ms : Z) : gset NodeAddr :=
  list_to_set (next_hop <$> filter (λ r, live now_ms r && (0 <? failures r) = true) (entry self destination)).

Definition has_sendable_alternate (self : LearnedRouteTable) (destination excluded_next_hop : NodeAddr)
    (now_ms : Z) (can_send : NodeAddr → bool) : bool :=
  match routes self !! destination with
  | None => false
  | Some rs =>
      existsb (λ r, negb (next_hop r =? excluded_next_hop) && live now_ms r && (failures r =? 0)
                    && can_send (next_hop r)) rs
  end.

Section select.
Context (powf : f64 → f64 → f64).

Definition weight (r : LearnedRoute) : f64 :=
  f64_clamp (powf (f64_clamp (score r) MIN_ROUTE_SCORE MAX_ROUTE_SCORE) f64_three_halves)
    MIN_ROUTE_SCORE MAX_ROUTE_WEIGHT.

Definition usable (can_send : NodeAddr → bool) (r : LearnedRoute) : bool :=
  (failures r =? 0) && can_send (next_hop r).

(** [enumerate], [filter], [map]: positions and weights of the usable routes. *)
Definition sendable (can_send : NodeAddr → bool) (rs : list LearnedRoute) : list (nat * f64) :=
  (λ ir : nat * LearnedRoute, (ir.1, weight ir.2))
    <$> filter (λ ir, usable can_send ir.2 = true) (imap pair rs).

Definition better (candidate selected_route : LearnedRoute) : bool :=
  f64_ltb (current_weight selected_route) (current_weight candidate)
  || (f64_eqb (current_weight candidate) (current_weight selected_route)
      && bool_decide (compare_routes candidate selected_route = Lt)).

(** The selection loop; an index out of range aborts. *)
Fixpoint select_loop (rs : list LearnedRoute) (sel : nat) (l : list (nat * f64))
    : outcome Empty_set (list LearnedRoute * nat) :=
  match l with
  | [] => Ok (rs, sel)
  | (i, w) :: l =>
      match rs !! i with
      | None => Panic
      | Some r =>
          let rs := <[i := set_current_weight r (f64_add (current_weight r) w)]> rs in
          match rs !! sel, rs !! i with
          | Some selected_route, Some candidate =>
              select_loop rs (if better candidate selected_route then i else sel) l
          | _, _ => Panic
          end
      end
  end.

Definition select_next_hop (self : LearnedRouteTable) (destination : NodeAddr) (now_ms : Z)
    (can_send : NodeAddr → bool) : outcome Empty_set (LearnedRouteTable * option NodeAddr) :=
  match routes self !! destination with
  | None => Ok (self, None)
  | Some rs =>
      let rs := retain_live now_ms rs in
      match sendable can_send rs with
      | [] => Ok (set_routes self (<[destination := rs]> (routes self)), None)
      | (first, w) :: rest =>
          let total_weight := f64_sum ((w :: rest.*2)) in
          '(rs, sel) ← select_loop rs first ((first, w) :: rest);
          match rs !! sel with
          | None => Panic
          | Some r =>
              let r := set_current_weight r (f64_sub (current_weight r) total_weight) in
              let r := set_selected r (sat_add_u64 (selected r) 1) in
              let rs := <[sel := r]> rs in
              Ok (set_routes self
                    (<[destination := sort_and_truncate rs (Z.of_nat (length rs))]> (routes self)),
                  Some (next_hop r))
          end
      end
  end.
End select.

(** [selected_count.is_multiple_of(interval)] with a non-zero interval. *)
Definition should_explore (explored : gmap NodeAddr Z) (destination : NodeAddr)
    (selected_count interval : Z) : gmap NodeAddr Z * bool :=
  if (interval =? 0) || (selected_count =? 0) || negb (selected_count mod interval =? 0) then (explored, false)
  else if bool_decide (explored !! destination = Some selected_count) then (explored, false)
  else (<[destination := selected_count]> explored, true).

(** The sum of the counters wraps at 64 bits. *)
Definition should_explore_fallback (self : LearnedRouteTable) (destination : NodeAddr)
    (now_ms interval : Z) (can_send : NodeAddr → bool) : LearnedRouteTable * bool :=
  if interval =? 0 then (self, false)
  else
    match routes self !! destination with
    | None => (self, false)
    | Some rs =>
        let rs := retain_live now_ms rs in
        let self := set_routes self (<[destination := rs]> (routes self)) in
        if negb (existsb (usable can_send) rs) then (self, false)
        else
          let selected := foldl (λ n r, wrap_u64 (n + selected r)) 0 rs in
          let '(explored, ok) := should_explore (explored_at_selected self) destination selected interval in
          (set_explored self explored, ok)
    end.

Definition purge_expired (self : LearnedRouteTable) (now_ms : Z) : LearnedRouteTable :=
  let rs := omap (λ l, match retain_live now_ms l with [] => None | l => Some l end) (routes self) in
  let hs := filter (λ dh, now_ms < hs_expires_at_ms dh.2) (handshake_routes self) in
  mkTable rs hs (filter (λ dn, is_Some (rs !! dn.1)) (explored_at_selected self)).

End LearnedRoutes.

(** ** Histories *)
Module RouteHistory.
Import LearnedRoutes.

(** Everything that changes the table, with a constant [max_routes_per_dest]. *)
Inductive event :=
| Learn (destination hop : NodeAddr) (ttl_secs : Z)
| Quarantine (destination hop : NodeAddr) (ttl_secs : Z)
| Pin (destination hop : NodeAddr) (ttl_secs : Z)
| SelectHandshake (destination : NodeAddr) (can_send : NodeAddr → bool)
| ActiveHandshake (destination : NodeAddr)
| Select (destination : NodeAddr) (can_send : NodeAddr → bool)
| RecordSelected (destination hop : NodeAddr)
| Explore (destination : NodeAddr) (interval : Z) (can_send : NodeAddr → bool)
| Purge.

(** The table after an event, and the next hop it answered with. *)
Definition step (powf : f64 → f64 → f64) (max_routes : Z) (self : LearnedRouteTable) (now : Z) (e : event)
    : outcome Empty_set (LearnedRouteTable * option NodeAddr) :=
  match e with
  | Learn d h ttl => Ok (learn self d h now ttl max_routes, None)
  | Quarantine d h ttl => Ok (quarantine_failed_next_hop self d h now ttl max_routes, None)
  | Pin d h ttl => Ok (pin_handshake_route self d h now ttl max_routes, None)
  | SelectHandshake d can_send => Ok (select_handshake_route self d now can_send)
  | ActiveHandshake d => Ok (active_handshake_route self d now)
  | Select d can_send => select_next_hop powf self d now can_send
  | RecordSelected d h => Ok ((record_selected self d h now).1, None)
  | Explore d interval can_send => Ok ((should_explore_fallback self d now interval can_send).1, None)
  | Purge => Ok (purge_expired self now, None)
  end.

(** The destination an event routes for. *)
Definition routed (e : event) : option NodeAddr :=
  match e with
  | SelectHandshake d _ | ActiveHandshake d | Select d _ => Some d
  | _ => None
  end.

(** Whether an event is new evidence for [hop] towards [d]. *)
Definition relearns (d hop : NodeAddr) (e : event) : bool :=
  match e with
  | Learn d' h _ | Pin d' h _ => (d' =? d) && (h =? hop)
  | _ => false
  end.

(** A run with the answers, in order. *)
Fixpoint run (powf : f64 → f64 → f64) (max_routes : Z) (self : LearnedRouteTable) (es : list (Z * event))
    : outcome Empty_set (LearnedRouteTable * list (event * option NodeAddr)) :=
  match es with
  | [] => Ok (self, [])
  | (now, e) :: es =>
      '(self, answer) ← step powf max_routes self now e;
      '(self, answers) ← run powf max_routes self es;
      Ok (self, (e, answer) :: answers)
  end.

End RouteHistory.

Section lists.
Import LearnedRoutes.

(** What of a route decides whether it may be used. *)
Definition shape (r : LearnedRoute) : NodeAddr * Z * Z := (next_hop r, failures r, expires_at_ms r).

Lemma insert_sorted_perm r l : insert_sorted r l ≡ₚ r :: l.
Proof.
  induction l as [|x l IH]; simpl; [done|]. destruct (compare_routes r x); [done|done|].
  rewrite IH. apply Permutation_swap.
Qed.

Lemma sort_routes_perm l : sort_routes l ≡ₚ l.
Proof. induction l as [|r l IH]; simpl; [done|]. by rewrite insert_sorted_perm, IH. Qed.

(** The routes of one destination: one per next hop, at most [max], and only failed
    ones through the next hops in [B]. *)
Record list_ok (max : Z) (B : NodeAddr → Prop) (rs : list LearnedRoute) : Prop := {
  lok_nodup : NoDup (next_hop <$> rs);
  lok_length : Z.of_nat (length rs) ≤ max;
  lok_failures : ∀ r, r ∈ rs → 0 ≤ failures r;
  lok_blocked : ∀ r, r ∈ rs → B (next_hop r) → 0 < failures r
}.

Lemma shape_hops (rs : list LearnedRoute) :
  next_hop <$> rs = (λ s : NodeAddr * Z * Z, s.1.1) <$> (shape <$> rs).
Proof. rewrite <- list_fmap_compose. done. Qed.

(** Dropping and reordering routes, and changing their counters, keeps the list in order. *)
Lemma list_ok_sub max B rs rs' : list_ok max B rs → shape <$> rs' ⊆+ shape <$> rs → list_ok max B rs'.
Proof.
  intros [Hnd Hlen Hf HB] [k Hk]%submseteq_Permutation.
  assert (∀ r, r ∈ rs' → ∃ r', r' ∈ rs ∧ shape r = shape r') as Hin.
  { intros r Hr%(list_elem_of_fmap_2 shape).
    assert (shape r ∈ shape <$> rs) as (r' & ? & ?)%list_elem_of_fmap; [|eauto].
    rewrite Hk. apply elem_of_app. by left. }
  split.
  - rewrite shape_hops in *. rewrite Hk, fmap_app in Hnd. by apply NoDup_app in Hnd as [? _].
  - apply Permutation_length in Hk. rewrite length_app, !length_fmap in Hk. lia.
  - intros r (r' & Hr' & [= _ -> _])%Hin. auto.
  - intros r (r' & Hr' & [= -> -> _])%Hin. auto.
Qed.

Lemma list_ok_sub_routes max B rs rs' : list_ok max B rs → rs' ⊆+ rs → list_ok max B rs'.
Proof. intros Hok Hsub. eapply list_ok_sub; [done|]. by apply fmap_submseteq. Qed.

Lemma list_ok_retain max B rs now : list_ok max B rs → list_ok max B (retain_live now rs).
Proof. intros Hok. eapply list_ok_sub_routes; [done|]. apply sublist_submseteq, sublist_filter. Qed.

Lemma list_ok_truncate max max' B rs : list_ok max' B rs → 0 ≤ max →
  list_ok max B (sort_and_truncate rs max).
Proof.
  intros Hok Hmax. assert (list_ok max' B (sort_and_truncate rs max)) as [].
  { eapply list_ok_sub_routes; [done|]. unfold sort_and_truncate.
    rewrite <- (sort_routes_perm rs) at 2. apply sublist_submseteq, sublist_take. }
  split; try done. unfold sort_and_truncate. rewrite length_take. lia.
Qed.

(** Writing the first route through a next hop. *)
Lemma list_ok_insert max (B B' : NodeAddr → Prop) rs i r r' : list_ok max B rs → rs !! i = Some r →
  next_hop r' = next_hop r → 0 ≤ failures r' → (B' (next_hop r) → 0 < failures r') →
  (∀ h, h ≠ next_hop r → B' h → B h) →
  list_ok max B' (<[i := r']> rs).
Proof.
  intros [Hnd Hlen Hf HB] Hi Hh Hf' Hb HB'.
  assert (next_hop <$> <[i:=r']> rs = next_hop <$> rs) as Heq.
  { rewrite list_fmap_insert, Hh. apply list_insert_id. by rewrite list_lookup_fmap, Hi. }
  assert (∀ x, x ∈ <[i:=r']> rs → x = r' ∨ (x ∈ rs ∧ next_hop x ≠ next_hop r)) as Hin.
  { intros x (j & Hj)%list_elem_of_lookup. apply list_lookup_insert_Some in Hj as [(-> & <- & _)|[Hne Hj]];
      [by left|right]. split; [by eapply list_elem_of_lookup_2|]. intros Hx. apply Hne.
    eapply (NoDup_lookup (next_hop <$> rs)); [done|..]; rewrite list_lookup_fmap; [by rewrite Hi|].
    by rewrite Hj; simpl; rewrite Hx. }
  split; [by rewrite Heq|by rewrite length_insert| |].
  - intros x [->|[? _]]%Hin; auto.
  - intros x [->|[Hx Hne]]%Hin; [by rewrite Hh|]. intros Hbx. apply HB; [done|]. by apply HB'.
Qed.

Lemma list_ok_snoc max (B B' : NodeAddr → Prop) rs r : list_ok max B rs →
  next_hop r ∉ next_hop <$> rs → 0 ≤ failures r → (B' (next_hop r) → 0 < failures r) →
  (∀ h, h ≠ next_hop r → B' h → B h) →
  list_ok (max + 1) B' (rs ++ [r]).
Proof.
  intros [Hnd Hlen Hf HB] Hn Hr Hb HB'. split.
  - rewrite fmap_app. apply NoDup_app. split; [done|]. split; [|apply NoDup_singleton].
    intros h Hh ->%list_elem_of_singleton. done.
  - rewrite length_app. simpl. lia.
  - intros x [?| ->%list_elem_of_singleton]%elem_of_app; auto.
  - intros x [Hx| ->%list_elem_of_singleton]%elem_of_app; [|done]. intros Hbx. apply HB; [done|].
    apply HB'; [|done]. intros Heq. apply Hn. rewrite <- Heq. by apply list_elem_of_fmap_2.
Qed.

Lemma find_hop_spec rs h :
  match find_hop rs h with
  | Some (i, r) => rs !! i = Some r ∧ next_hop r = h
  | None => h ∉ next_hop <$> rs
  end.
Proof.
  unfold find_hop. destruct (list_find _ rs) as [[i r]|] eqn:Hf.
  - apply list_find_Some in Hf as (? & ? & _). done.
  - apply list_find_None in Hf. intros (r & -> & Hr)%list_elem_of_fmap.
    rewrite Forall_forall in Hf. by apply (Hf r).
Qed.
End lists.

Section tables.
Import LearnedRoutes.
Context (max_routes : Z) (Hmax : 0 ≤ max_routes).

(** Every destination's list is in order; [B d h] blocks [h] towards [d]. *)
Definition table_ok (B : NodeAddr → NodeAddr → Prop) (self : LearnedRouteTable) : Prop :=
  ∀ d rs, routes self !! d = Some rs → list_ok max_routes (B d) rs.

Lemma table_ok_set B self d rs : table_ok B self → list_ok max_routes (B d) rs →
  table_ok B (set_routes self (<[d := rs]> (routes self))).
Proof.
  intros Hok Hrs d' rs'. simpl. intros [[<- <-]|[_ ?]]%lookup_insert_Some; [done|by apply Hok].
Qed.

Lemma entry_ok B self d : table_ok B self → list_ok max_routes (B d) (entry self d).
Proof.
  intros Hok. unfold entry. destruct (routes self !! d) eqn:Hd; [by apply Hok|].
  split; simpl; [constructor|lia|by intros r ?%elem_of_nil|by intros r ?%elem_of_nil].
Qed.

Lemma learn_ok B self d h now ttl : table_ok B self → (B d h → d = h) →
  table_ok B (learn self d h now ttl max_routes).
Proof.
  intros Hok Hb. unfold learn. destruct (Z.eqb_spec d h) as [|Hne]; [done|].
  destruct (Z.eqb_spec max_routes 0); [done|]. simpl. apply table_ok_set; [done|].
  pose proof (entry_ok B self d Hok) as Hrs. pose proof (find_hop_spec (entry self d) h) as Hf.
  destruct (find_hop (entry self d) h) as [[i r]|].
  - destruct Hf as [Hi <-]. eapply list_ok_truncate; [|done].
    eapply list_ok_insert; [done|done|done|done| |done]. intros ?%Hb. done.
  - apply (list_ok_truncate _ (max_routes + 1)); [|done].
    apply (list_ok_snoc _ (B d)); [done|done|done| |done]. intros ?%Hb. done.
Qed.

Lemma quarantine_ok (B B' : NodeAddr → NodeAddr → Prop) self d h now ttl : table_ok B self → 0 < max_routes →
  (∀ d' h', B' d' h' → B d' h' ∨ (d' = d ∧ h' = h)) →
  table_ok B' (quarantine_failed_next_hop self d h now ttl max_routes).
Proof.
  intros Hok Hpos HB. unfold quarantine_failed_next_hop. cbv zeta.
  set (s := match handshake_routes self !! d with Some _ => _ | None => _ end).
  assert (routes s = routes self) as Hr.
  { unfold s. destruct (handshake_routes self !! d); [|done]. by destruct (_ =? _). }
  clearbody s. destruct (Z.eqb_spec max_routes 0); [lia|].
  assert (∀ h', h' ≠ h → B' d h' → B d h') as HB' by naive_solver.
  assert (list_ok max_routes (B d) (entry s d)) as Hrs by (unfold entry; rewrite Hr; by apply entry_ok).
  intros d' rs. cbn [routes set_routes]. intros [[<- <-]|[Hne Hd]]%lookup_insert_Some.
  - pose proof (find_hop_spec (entry s d) h) as Hf. destruct (find_hop (entry s d) h) as [[i r]|].
    + destruct Hf as [Hi <-]. pose proof (lok_failures _ _ _ Hrs r (list_elem_of_lookup_2 _ _ _ Hi)).
      eapply list_ok_insert; [done|done|done|simpl; mlia|simpl; intros; mlia|done].
    + replace max_routes with ((max_routes - 1) + 1) by lia.
      apply (list_ok_snoc _ (B d)); [|..|done|done|done].
      * replace (max_routes - 1 + 1) with max_routes by lia.
        pose proof (list_ok_truncate _ _ _ _ Hrs Hmax) as Ht.
        assert (list_ok max_routes (B d) (take (Z.to_nat (sat_sub max_routes 1))
          (sort_and_truncate (entry s d) max_routes))) as []
          by (eapply list_ok_sub_routes; [done|apply sublist_submseteq, sublist_take]).
        split; try done. rewrite length_take. mlia.
      * simpl. contradict Hf. apply list_elem_of_fmap in Hf as (r & -> & Hin). apply list_elem_of_fmap_2.
        rewrite <- (sort_routes_perm (entry s d)). unfold sort_and_truncate in Hin.
        eapply elem_of_submseteq; [done|]. apply sublist_submseteq. etrans; apply sublist_take.
  - rewrite Hr in Hd. apply Hok in Hd as []. split; try done. intros r Hin Hb. apply lok_blocked0; [done|].
    destruct (HB _ _ Hb) as [?|[? _]]; [done|congruence].
Qed.

Lemma record_selected_ok B self d h now : table_ok B self → table_ok B (record_selected self d h now).1.
Proof.
  intros Hok. unfold record_selected. destruct (routes self !! d) as [rs|] eqn:Hd; [|done].
  pose proof (list_ok_retain _ _ _ now (Hok _ _ Hd)) as Hl.
  pose proof (find_hop_spec (retain_live now rs) h) as Hf.
  destruct (find_hop _ h) as [[i r]|]; [|by apply table_ok_set]. destruct Hf as [Hi <-].
  apply table_ok_set; [done|]. pose proof (list_elem_of_lookup_2 _ _ _ Hi) as Hin.
  eapply list_ok_insert; [done|done|done| | |done]; simpl; destruct Hl; auto.
Qed.

Lemma explore_ok B self d now interval can_send : table_ok B self →
  table_ok B (should_explore_fallback self d now interval can_send).1.
Proof.
  intros Hok. unfold should_explore_fallback. destruct (_ =? 0); [done|].
  destruct (routes self !! d) as [rs|] eqn:Hd; [|done].
  assert (table_ok B (set_routes self (<[d := retain_live now rs]> (routes self)))) as Hok'
    by (apply table_ok_set; [done|]; apply list_ok_retain; by apply Hok).
  destruct (negb _); [done|]. by destruct (should_explore _ _ _ _).
Qed.

Lemma purge_routes_ok B self now : table_ok B self → table_ok B (purge_expired self now).
Proof.
  intros Hok d rs. simpl. rewrite lookup_omap_Some. intros (l & Hl & Hd).
  assert (rs = retain_live now l) as -> by (destruct (retain_live now l); by simplify_eq).
  apply list_ok_retain. by apply Hok.
Qed.
End tables.

(** ** Selection *)

Section selection.
Import LearnedRoutes.
Context (powf : f64 → f64 → f64).

Lemma sendable_spec can_send rs i : i ∈ (sendable powf can_send rs).*1 ↔
  ∃ r, rs !! i = Some r ∧ usable can_send r = true.
Proof.
  unfold sendable. rewrite <- list_fmap_compose, list_elem_of_fmap. split.
  - intros ([j r] & -> & [Hu Hin]%list_elem_of_filter). simpl in *.
    apply elem_of_lookup_imap in Hin as (k & r' & [= -> ->] & Hk). eauto.
  - intros (r & Hr & Hu). exists (i, r). split; [done|]. apply list_elem_of_filter.
    split; [done|]. apply elem_of_lookup_imap. eauto.
Qed.

Lemma select_loop_spec l : ∀ rs sel, (sel < length rs)%nat → Forall (λ i, (i < length rs)%nat) (l.*1) →
  ∃ rs' sel', select_loop rs sel l = Ok (rs', sel') ∧ shape <$> rs' = shape <$> rs ∧ sel' ∈ sel :: l.*1.
Proof.
  induction l as [|[i w] l IH]; intros rs sel Hsel Hl; simpl; [exists rs, sel; set_solver|].
  rewrite fmap_cons in Hl. apply Forall_cons in Hl as [Hi Hl]. simpl in Hi.
  destruct (lookup_lt_is_Some_2 rs i Hi) as [r Hr]. rewrite Hr.
  set (rs1 := <[i := _]> rs). assert (length rs1 = length rs) as Hlen by apply length_insert.
  assert (shape <$> rs1 = shape <$> rs) as Hshape.
  { unfold rs1. rewrite list_fmap_insert. apply list_insert_id. by rewrite list_lookup_fmap, Hr. }
  destruct (lookup_lt_is_Some_2 rs1 sel) as [x Hx]; [by rewrite Hlen|].
  destruct (lookup_lt_is_Some_2 rs1 i) as [y Hy]; [by rewrite Hlen|]. rewrite Hx, Hy.
  destruct (IH rs1 (if better y x then i else sel)) as (rs' & sel' & Heq & Hs & Hin).
  - rewrite Hlen. by destruct (better y x).
  - by rewrite Hlen.
  - exists rs', sel'. split; [done|]. split; [congruence|]. destruct (better y x); set_solver.
Qed.

(** Selection never aborts, answers with a usable route exactly when there is one, and
    keeps exactly the live routes. *)
Lemma select_next_hop_spec self d now can_send :
  ∃ self' answer, select_next_hop powf self d now can_send = Ok (self', answer)
    ∧ handshake_routes self' = handshake_routes self
    ∧ (∀ d', d' ≠ d → routes self' !! d' = routes self !! d')
    ∧ (∀ rs, routes self !! d = Some rs →
         ∃ rs', routes self' !! d = Some rs' ∧ shape <$> rs' ≡ₚ shape <$> retain_live now rs)
    ∧ (routes self !! d = None → self' = self)
    ∧ match answer with
      | Some h => ∃ r, r ∈ entry self d ∧ live now r = true ∧ usable can_send r = true ∧ next_hop r = h
      | None => ∀ r, r ∈ entry self d → live now r = true → usable can_send r = false
      end.
Proof.
  unfold select_next_hop, entry. destruct (routes self !! d) as [rs|] eqn:Hd.
  2:{ exists self, None. split_and!; try done. by intros r ?%elem_of_nil. }
  cbv zeta. set (rl := retain_live now rs). change (default [] (Some rs)) with rs.
  assert (∀ r, r ∈ rl ↔ r ∈ rs ∧ live now r = true) as Hrl.
  { intros r. unfold rl, retain_live. rewrite list_elem_of_filter. naive_solver. }
  pose proof (sendable_spec can_send rl) as Hs. destruct (sendable powf can_send rl) as [|[i w] rest] eqn:Hsend.
  - eexists _, None. split; [done|]. simpl. split; [done|].
    split; [by intros d' ?; rewrite lookup_insert_ne|]. split.
    { intros rs0 [= <-]. exists rl. by rewrite lookup_insert_eq. }
    split; [done|]. intros r Hr Hlive. apply not_true_is_false. intros Hu.
    assert (r ∈ rl) as (j & Hj)%list_elem_of_lookup by (by apply Hrl).
    apply (not_elem_of_nil j). simpl in Hs. apply Hs. eauto.
  - assert (∀ j, j ∈ ((i, w) :: rest).*1 → (j < length rl)%nat) as Hlt.
    { intros j (r & Hr & _)%Hs. by eapply lookup_lt_Some. }
    destruct (select_loop_spec ((i, w) :: rest) rl i) as (rs' & sel & Heq & Hshape & Hin).
    { apply Hlt. set_solver. } { by apply Forall_forall. }
    rewrite Heq. simpl. assert (sel ∈ ((i, w) :: rest).*1) as Hsel by set_solver.
    destruct (proj1 (Hs sel) Hsel) as (r & Hr & Hu).
    assert (length rs' = length rl) as Hlen by (rewrite <- (length_fmap shape rs'), Hshape; apply length_fmap).
    destruct (lookup_lt_is_Some_2 rs' sel) as [r' Hr']; [rewrite Hlen; by apply Hlt|]. rewrite Hr'.
    assert (shape r' = shape r) as Hrr.
    { pose proof (f_equal (.!! sel) Hshape) as He. rewrite !list_lookup_fmap, Hr, Hr' in He. cbn in He. congruence. }
    eexists _, _. split; [done|]. split; [done|]. simpl.
    split; [by intros d' ?; rewrite lookup_insert_ne|]. split.
    { intros rs0 [= <-]. eexists. split; [apply lookup_insert_eq|]. unfold sort_and_truncate.
      rewrite Nat2Z.id, take_ge by (by rewrite (sort_routes_perm _)).
      rewrite (sort_routes_perm _), list_fmap_insert. fold rl. rewrite <- Hshape.
      rewrite list_insert_id; [done|]. by rewrite list_lookup_fmap, Hr'. }
    split; [done|]. exists r. apply list_elem_of_lookup_2, Hrl in Hr as [? ?].
    split_and!; [done|done|done|]. by injection Hrr.
Qed.
End selection.

Section history.
Import LearnedRoutes RouteHistory.
Context (powf : f64 → f64 → f64) (max_routes : Z) (Hmax : 0 ≤ max_routes).

(** The handshake pins avoid the pairs in [H]. *)
Definition pins_avoid (H : NodeAddr → NodeAddr → Prop) (self : LearnedRouteTable) : Prop :=
  ∀ d x, handshake_routes self !! d = Some x → ¬ H d (hs_next_hop x).

(** No event of a history is evidence for a blocked pair ([d] itself never is learned). *)
Definition no_evidence (B H : NodeAddr → NodeAddr → Prop) (e : event) : Prop :=
  match e with
  | Learn d h _ => B d h → d = h
  | Pin d h _ => (B d h → d = h) ∧ ¬ H d h
  | _ => True
  end.

Lemma record_selected_pins self d h now :
  handshake_routes (record_selected self d h now).1 = handshake_routes self.
Proof.
  unfold record_selected. destruct (routes self !! d); [|done]. by destruct (find_hop _ h) as [[? ?]|].
Qed.

Lemma learn_pins self d h now ttl :
  handshake_routes (learn self d h now ttl max_routes) = handshake_routes self.
Proof. unfold learn. by destruct (_ || _). Qed.

Lemma pins_delete H self d : pins_avoid H self →
  pins_avoid H (set_handshake_routes self (delete d (handshake_routes self))).
Proof. intros Hp d' x. simpl. intros [_ ?]%lookup_delete_Some. by apply Hp. Qed.

Lemma quarantine_pins H self d h now ttl : pins_avoid H self →
  pins_avoid (λ d' h', H d' h' ∨ (d' = d ∧ h' = h)) (quarantine_failed_next_hop self d h now ttl max_routes).
Proof.
  intros Hp. assert (∀ s, pins_avoid (λ d' h', H d' h' ∨ (d' = d ∧ h' = h)) s → ∀ rs,
    pins_avoid (λ d' h', H d' h' ∨ (d' = d ∧ h' = h)) (set_routes s rs)) as Hset by done.
  unfold quarantine_failed_next_hop. cbv zeta.
  set (s := match handshake_routes self !! d with Some _ => _ | None => _ end).
  assert (pins_avoid (λ d' h', H d' h' ∨ (d' = d ∧ h' = h)) s) as Hs.
  { intros d' x Hx. unfold s in Hx. destruct (handshake_routes self !! d) as [y|] eqn:Hy.
    - destruct (Z.eqb_spec (hs_next_hop y) h).
      + simpl in Hx. apply lookup_delete_Some in Hx as [? Hx%Hp]. naive_solver.
      + intros [?|[-> ?]]; [by eapply Hp|congruence].
    - intros [?|[-> ?]]; [by eapply Hp|congruence]. }
  clearbody s. destruct (_ =? 0); [done|]. by apply Hset.
Qed.

Lemma pins_weaken (H H' : NodeAddr → NodeAddr → Prop) self : (∀ d h, H' d h → H d h) →
  pins_avoid H self → pins_avoid H' self.
Proof. intros Hi Hp d x Hx Hh. by eapply Hp, Hi. Qed.

Lemma select_ok B self d now can_send : table_ok max_routes B self →
  ∃ self' answer, select_next_hop powf self d now can_send = Ok (self', answer)
    ∧ table_ok max_routes B self' ∧ handshake_routes self' = handshake_routes self
    ∧ (∀ h, answer = Some h → ¬ B d h).
Proof.
  intros Hok. destruct (select_next_hop_spec powf self d now can_send)
    as (self' & answer & Heq & Hh & Hother & Hd & Hnone & Hans).
  exists self', answer. split; [done|]. split; [|split; [done|]].
  - intros d' rs' Hd'. destruct (decide (d' = d)) as [->|]; [|apply Hok; by rewrite <- Hother].
    destruct (routes self !! d) as [rs|] eqn:Hrs; [|rewrite Hnone in Hd' by done; by apply Hok].
    destruct (Hd rs eq_refl) as (rs2 & Hrs2 & Hp). rewrite Hd' in Hrs2. injection Hrs2 as <-.
    eapply (list_ok_sub _ _ (retain_live now rs)); [by apply list_ok_retain, Hok|]. by rewrite Hp.
  - intros h ->. destruct Hans as (r & Hin & _ & Hu & <-). intros Hb.
    apply andb_true_iff in Hu as [Hf%Z.eqb_eq _].
    pose proof (lok_blocked _ _ _ (entry_ok _ Hmax B self d Hok) r Hin Hb). lia.
Qed.

Lemma route_step_ok B H self now e : table_ok max_routes B self → pins_avoid H self → no_evidence B H e →
  ∃ self' answer, step powf max_routes self now e = Ok (self', answer)
    ∧ table_ok max_routes B self' ∧ pins_avoid H self'
    ∧ match e, answer with
      | Select d _, Some h => ¬ B d h
      | SelectHandshake d _, Some h | ActiveHandshake d, Some h => ¬ H d h
      | _, _ => True
      end.
Proof.
  intros Hok Hp He. destruct e as [d h ttl|d h ttl|d h ttl|d cs|d|d cs|d h|d iv cs|]; cbn [step].
  - eexists _, _. split_and!; [done|by apply learn_ok| |done]. intros d'. rewrite learn_pins. apply Hp.
  - eexists _, _. split_and!; [done| |eapply pins_weaken; [|by apply quarantine_pins]; by left|done].
    destruct (decide (0 < max_routes)); [by eapply quarantine_ok; [done|done|done|left]|].
    intros d' rs Hd'. apply Hok. revert Hd'. unfold quarantine_failed_next_hop.
    destruct (Z.eqb_spec max_routes 0); [|lia]. cbv zeta. destruct (handshake_routes self !! d); [|done].
    by destruct (_ =? _).
  - destruct He as [Hb Hh]. unfold pin_handshake_route. eexists _, _. split; [done|].
    destruct (max_routes =? 0); [done|]. split; [|split; [|done]].
    + intros d' rs. simpl. destruct (negb _); [|apply Hok]. by apply learn_ok.
    + intros d' x. simpl. intros [[<- <-]|[_ Hx]]%lookup_insert_Some; [done|].
      apply Hp. destruct (negb _); [by rewrite learn_pins in Hx|done].
  - unfold select_handshake_route. destruct (handshake_routes self !! d) as [x|] eqn:Hx; [|by eexists _, _].
    destruct (_ || _); [eexists _, _; split_and!; [done|done|by apply pins_delete|done]|].
    eexists _, _. split_and!; [done|by apply record_selected_ok| |by apply Hp].
    intros d' y. rewrite record_selected_pins. apply Hp.
  - unfold active_handshake_route. destruct (handshake_routes self !! d) as [x|] eqn:Hx; [|by eexists _, _].
    destruct (_ <=? _); [eexists _, _; split_and!; [done|done|by apply pins_delete|done]|].
    eexists _, _. split_and!; [done|done|done|by apply Hp].
  - destruct (select_ok B self d now cs Hok) as (self' & answer & Heq & Hok' & Hh & Hans).
    exists self', answer. split_and!; [done|done|intros d' x; rewrite Hh; apply Hp|].
    destruct answer; [by apply Hans|done].
  - eexists _, _. split_and!; [done|by apply record_selected_ok| |done].
    intros d' x. rewrite record_selected_pins. apply Hp.
  - eexists _, _. split_and!; [done|by apply explore_ok| |done].
    unfold should_explore_fallback. destruct (_ =? 0); [done|]. destruct (routes self !! d); [|done].
    destruct (negb _); [done|]. by destruct (should_explore _ _ _ _).
  - eexists _, _. split_and!; [done|by apply purge_routes_ok| |done].
    intros d x. simpl. intros [? _]%map_lookup_filter_Some. by apply Hp.
Qed.

(** No answer of a run is blocked. *)
Definition answers_avoid (B H : NodeAddr → NodeAddr → Prop) (answers : list (event * option NodeAddr)) : Prop :=
  Forall (λ ea, match ea.1, ea.2 with
                | Select d _, Some h => ¬ B d h
                | SelectHandshake d _, Some h | ActiveHandshake d, Some h => ¬ H d h
                | _, _ => True
                end) answers.

Lemma route_run_ok B H es : ∀ self, table_ok max_routes B self → pins_avoid H self →
  Forall (λ te, no_evidence B H te.2) es →
  ∃ self' answers, run powf max_routes self es = Ok (self', answers)
    ∧ table_ok max_routes B self' ∧ pins_avoid H self' ∧ answers_avoid B H answers.
Proof.
  induction es as [|[now e] es IH]; intros self Hok Hp He; [eexists _, _; split_and!; try done; constructor|].
  apply Forall_cons in He as [He Hes].
  destruct (route_step_ok B H self now e Hok Hp He) as (self1 & a & Heq & Hok1 & Hp1 & Ha).
  destruct (IH self1 Hok1 Hp1 Hes) as (self2 & answers & Heq2 & Hok2 & Hp2 & Has).
  cbn [run]. rewrite Heq. cbn [mbind outcome_bind]. rewrite Heq2. simpl.
  eexists _, _. split_and!; [done|done|done|]. by constructor.
Qed.

Lemma new_ok : table_ok max_routes (λ d h, d = h) new ∧ pins_avoid (λ _ _, False) new.
Proof. split; [by intros d rs|by intros d x]. Qed.

Lemma no_evidence_self e : no_evidence (λ d h, d = h) (λ _ _, False) e.
Proof. destruct e; simpl; auto. Qed.
End history.

(** ** Properties *)

(** C27: a quarantined next hop is not used again without new evidence. After any history, once
    [h] is quarantined towards [d], no later selection, pinned handshake route or
    active-route query for [d] answers [h], however long the history and whatever expires,
    unless [h] is learned or pinned for [d] again; and nothing aborts. *)
Theorem quarantine_effective powf max_routes before now d h ttl after :
  0 < max_routes → Forall (λ te, RouteHistory.relearns d h te.2 = false) after →
  ∃ self0 answers0 self answers,
    RouteHistory.run powf max_routes LearnedRoutes.new before = Ok (self0, answers0)
    ∧ RouteHistory.run powf max_routes
        (LearnedRoutes.quarantine_failed_next_hop self0 d h now ttl max_routes) after = Ok (self, answers)
    ∧ ∀ e answer, (e, answer) ∈ answers → RouteHistory.routed e = Some d → answer ≠ Some h.
Proof.
  intros Hpos Hafter. destruct (new_ok max_routes) as [Hok0 Hp0].
  destruct (route_run_ok powf max_routes ltac:(lia) _ _ before _ Hok0 Hp0) as (self0 & a0 & H0 & Hok & Hp & _).
  { apply Forall_true. intros te. apply no_evidence_self. }
  set (B d' h' := d' = h' ∨ (d' = d ∧ h' = h)). set (H d' h' := False ∨ (d' = d ∧ h' = h)).
  destruct (route_run_ok powf max_routes ltac:(lia) B H after
    (LearnedRoutes.quarantine_failed_next_hop self0 d h now ttl max_routes)) as (self & a & H1 & _ & _ & Ha).
  - by eapply quarantine_ok; [lia|done|done|].
  - by apply quarantine_pins.
  - eapply Forall_impl; [exact Hafter|]. intros [t e] Hr. subst B H. destruct e; simpl in *; try done.
    + intros [?|[-> ->]]; [done|]. by rewrite !Z.eqb_refl in Hr.
    + split; [intros [?|[-> ->]]; [done|]|intros [?|[-> ->]]; [done|]]; by rewrite !Z.eqb_refl in Hr.
  - exists self0, a0, self, a. split_and!; [done|done|]. intros e answer Hin Hd ->.
    unfold answers_avoid in Ha. rewrite Forall_forall in Ha. specialize (Ha _ Hin). subst B H.
    destruct e; simplify_eq/=; naive_solver.
Qed.

Lemma quarantine_effective_witness :
  ∃ self0 answers0 self answers,
    RouteHistory.run (λ x _, x) 4 LearnedRoutes.new
      [(0, RouteHistory.Learn 1 2 100); (1, RouteHistory.Learn 1 3 100)] = Ok (self0, answers0)
    ∧ RouteHistory.run (λ x _, x) 4 (LearnedRoutes.quarantine_failed_next_hop self0 1 2 5 100 4)
        [(6, RouteHistory.Select 1 (λ _, true))] = Ok (self, answers)
    ∧ ∀ e answer, (e, answer) ∈ answers → RouteHistory.routed e = Some 1 → answer ≠ Some 2.
Proof.
  apply (quarantine_effective (λ x _, x) 4
    [(0, RouteHistory.Learn 1 2 100); (1, RouteHistory.Learn 1 3 100)] 5 1 2 100
    [(6, RouteHistory.Select 1 (λ _, true))]); [lia|]. by repeat constructor.
Defined.

(** Selection is exact. It never aborts; it answers a next hop only from a live, unfailed
    route whose next hop can be sent to, and answers none only when there is no such
    route; it drops exactly the destination's expired routes and leaves the other
    destinations and the pinned handshake routes alone. *)
Theorem select_next_hop_exact powf self d now can_send :
  ∃ self' answer, LearnedRoutes.select_next_hop powf self d now can_send = Ok (self', answer)
    ∧ LearnedRoutes.handshake_routes self' = LearnedRoutes.handshake_routes self
    ∧ (∀ d', d' ≠ d → LearnedRoutes.routes self' !! d' = LearnedRoutes.routes self !! d')
    ∧ (∀ rs, LearnedRoutes.routes self !! d = Some rs →
         ∃ rs', LearnedRoutes.routes self' !! d = Some rs'
           ∧ shape <$> rs' ≡ₚ shape <$> LearnedRoutes.retain_live now rs)
    ∧ match answer with
      | Some h => ∃ r, r ∈ LearnedRoutes.entry self d ∧ LearnedRoutes.next_hop r = h
          ∧ now < LearnedRoutes.expires_at_ms r ∧ LearnedRoutes.failures r = 0 ∧ can_send h = true
      | None => ∀ r, r ∈ LearnedRoutes.entry self d → now < LearnedRoutes.expires_at_ms r →
          LearnedRoutes.failures r = 0 → can_send (LearnedRoutes.next_hop r) = false
      end.
Proof.
  destruct (select_next_hop_spec powf self d now can_send)
    as (self' & answer & Heq & Hh & Hother & Hd & _ & Hans).
  exists self', answer. split_and!; try done. destruct answer as [h|].
  - destruct Hans as (r & Hin & Hl%Z.ltb_lt & [Hf%Z.eqb_eq Hc]%andb_true_iff & <-). eauto 10.
  - intros r Hin Hl%Z.ltb_lt Hf%Z.eqb_eq. specialize (Hans r Hin Hl).
    apply andb_false_iff in Hans as [?|?]; [congruence|done].
Qed.

(** C28: the table stays well formed. After any history each destination has at most
    [max_routes_per_dest] routes, one per next hop, and a destination is never selected as
    its own learned next hop. *)
Theorem learned_routes_wellformed powf max_routes es :
  0 ≤ max_routes →
  ∃ self answers, RouteHistory.run powf max_routes LearnedRoutes.new es = Ok (self, answers)
    ∧ (∀ d rs, LearnedRoutes.routes self !! d = Some rs →
         NoDup (LearnedRoutes.next_hop <$> rs) ∧ Z.of_nat (length rs) ≤ max_routes)
    ∧ (∀ d can_send h, (RouteHistory.Select d can_send, Some h) ∈ answers → h ≠ d).
Proof.
  intros Hmax. destruct (new_ok max_routes) as [Hok0 Hp0].
  destruct (route_run_ok powf max_routes Hmax _ _ es _ Hok0 Hp0) as (self & a & H0 & Hok & _ & Ha).
  { apply Forall_true. intros te. apply no_evidence_self. }
  exists self, a. split_and!; [done| |].
  - intros d rs Hrs%Hok. by destruct Hrs.
  - intros d cs h Hin ->. unfold answers_avoid in Ha. rewrite Forall_forall in Ha.
    by apply (Ha _ Hin).
Qed.

Lemma learned_routes_wellformed_witness :
  ∃ self answers, RouteHistory.run (λ x _, x) 2 LearnedRoutes.new
      [(0, RouteHistory.Learn 1 2 100); (1, RouteHistory.Select 1 (λ _, true))] = Ok (self, answers)
    ∧ ∀ d can_send h, (RouteHistory.Select d can_send, Some h) ∈ answers → h ≠ d.
Proof.
  destruct (learned_routes_wellformed (λ x _, x) 2
    [(0, RouteHistory.Learn 1 2 100); (1, RouteHistory.Select 1 (λ _, true))])
    as (self & answers & H1 & _ & H2); [lia|]. by exists self, answers.
Defined.
