(* ===== verification/LinkWire.v ===== *)
(** * Link-layer messages ([crates/fips-core/src/proto/protocol/{error,link,tree,filter}.rs],
    [crates/fips-core/src/proto/mmp/report.rs])

    The wire formats of the messages exchanged between direct peers, as byte
    lists. Slicing and indexing out of range abort ([Panic]), as in the source.
    [secp256k1]'s [Signature::from_slice] is a parameter. The texts of
    [Malformed] errors are left out. *)

From S2P Require Import Prelude Bytes NodeAddr Bloom Coordinate TreeState.

Local Open Scope Z_scope.

Inductive ProtocolError :=
| InvalidMessageType (b : Z)
| MessageTooShort (expected got : nat)
| MessageTooLong (max got : nat)
| BadSignature
| UnsupportedVersion (v : Z)
| Malformed
| HopLimitExceeded
| TtlExpired.

#[export] Instance ProtocolError_eq_dec : EqDecision ProtocolError.
Proof. solve_decision. Defined.

(** ** Reading *)

Abbreviation decoded A := (outcome ProtocolError A) (only parsing).

(** [uN::from_le_bytes(p[i..i + n].try_into()...)] *)
Definition read_le (n : nat) (p : list Z) (i : nat) : decoded Z :=
  b ← slice p i (i + n); Ok (from_le_bytes b).

(** [u16::from_le_bytes([p[i], p[i + 1]])] *)
Definition index_u16 (p : list Z) (i : nat) : decoded Z :=
  a ← index p i; b ← index p (S i); Ok (from_le_bytes [a; b]).

(** Sixteen bytes as a node address. *)
Definition read_addr (p : list Z) (i : nat) : decoded NodeAddr :=
  b ← slice p i (i + 16); Ok (NodeAddrOps.from_bytes b).

(** [i32::from_le_bytes]. *)
Definition to_i32 (z : Z) : Z := if z <? 2 ^ 31 then z else z - 2 ^ 32.

(** A length check at the start of a decoder. *)
Definition at_least (n : nat) (p : list Z) : decoded unit :=
  if (length p <? n)%nat then Err (MessageTooShort n (length p)) else Ok tt.

(** [map_err] to a protocol error. *)
Definition map_err {E A} (m : outcome E A) (e : ProtocolError) : decoded A :=
  match m with Ok a => Ok a | Err _ => Err e | Panic => Panic end.

(** ** Message types *)

Module HandshakeMessageType.
Inductive t := NoiseIKMsg1 | NoiseIKMsg2.

Definition from_byte (b : Z) : option t :=
  if b =? 1 then Some NoiseIKMsg1 else if b =? 2 then Some NoiseIKMsg2 else None.

Definition to_byte (m : t) : Z := match m with NoiseIKMsg1 => 1 | NoiseIKMsg2 => 2 end.

Definition is_handshake (b : Z) : bool := (b =? 1) || (b =? 2).
End HandshakeMessageType.

Module LinkMessageType.
Inductive t :=
| SessionDatagram | SenderReport | ReceiverReport | TreeAnnounce | FilterAnnounce | LookupRequest
| LookupResponse | Disconnect | Heartbeat | ClientOnly | ClientSupport.

Definition to_byte (m : t) : Z :=
  match m with
  | SessionDatagram => 0 | SenderReport => 1 | ReceiverReport => 2 | TreeAnnounce => 16
  | FilterAnnounce => 32 | LookupRequest => 48 | LookupResponse => 49 | Disconnect => 80
  | Heartbeat => 81 | ClientOnly => 82 | ClientSupport => 83
  end.

Definition from_byte (b : Z) : option t :=
  match b with
  | 0 => Some SessionDatagram | 1 => Some SenderReport | 2 => Some ReceiverReport
  | 16 => Some TreeAnnounce | 32 => Some FilterAnnounce | 48 => Some LookupRequest
  | 49 => Some LookupResponse | 80 => Some Disconnect | 81 => Some Heartbeat
  | 82 => Some ClientOnly | 83 => Some ClientSupport | _ => None
  end.
End LinkMessageType.

Module DisconnectReason.
Inductive t :=
| Shutdown | Restart | ProtocolError | TransportFailure | ResourceExhaustion | SecurityViolation
| ConfigurationChange | Timeout | Other.

Definition to_byte (r : t) : Z :=
  match r with
  | Shutdown => 0 | Restart => 1 | ProtocolError => 2 | TransportFailure => 3
  | ResourceExhaustion => 4 | SecurityViolation => 5 | ConfigurationChange => 6 | Timeout => 7
  | Other => 255
  end.

Definition from_byte (b : Z) : option t :=
  match b with
  | 0 => Some Shutdown | 1 => Some Restart | 2 => Some ProtocolError | 3 => Some TransportFailure
  | 4 => Some ResourceExhaustion | 5 => Some SecurityViolation | 6 => Some ConfigurationChange
  | 7 => Some Timeout | 255 => Some Other | _ => None
  end.
End DisconnectReason.

(** ** Disconnect *)

Module Disconnect.
Record Disconnect := mkDisconnect { reason : DisconnectReason.t }.

Definition encode (self : Disconnect) : list Z :=
  [LinkMessageType.to_byte LinkMessageType.Disconnect; DisconnectReason.to_byte (reason self)].

Definition decode (payload : list Z) : decoded Disconnect :=
  match payload with
  | [] => Err (MessageTooShort 1 0)
  | b :: _ => Ok (mkDisconnect (default DisconnectReason.Other (DisconnectReason.from_byte b)))
  end.
End Disconnect.

(** ** Session datagrams *)

Module SessionDatagram.

Definition SESSION_DATAGRAM_HEADER_SIZE : nat := 36.

(** [SessionDatagramRef] is the same view with a borrowed payload. *)
Record SessionDatagram := mkDatagram {
  src_addr : NodeAddr;
  dest_addr : NodeAddr;
  ttl : Z;
  path_mtu : Z;
  payload : list Z
}.

Definition new (src_addr dest_addr : NodeAddr) (payload : list Z) : SessionDatagram :=
  mkDatagram src_addr dest_addr 64 U16_MAX payload.

Definition with_ttl (self : SessionDatagram) (ttl : Z) : SessionDatagram :=
  mkDatagram (src_addr self) (dest_addr self) ttl (path_mtu self) (payload self).

Definition with_path_mtu (self : SessionDatagram) (path_mtu : Z) : SessionDatagram :=
  mkDatagram (src_addr self) (dest_addr self) (ttl self) path_mtu (payload self).

Definition decrement_ttl (self : SessionDatagram) : SessionDatagram * bool :=
  if 0 <? ttl self then (with_ttl self (ttl self - 1), true) else (self, false).

Definition can_forward (self : SessionDatagram) : bool := 0 <? ttl self.

Definition encode (self : SessionDatagram) : list Z :=
  LinkMessageType.to_byte LinkMessageType.SessionDatagram :: ttl self
  :: to_le_bytes 2 (path_mtu self) ++ NodeAddrOps.as_bytes (src_addr self)
  ++ NodeAddrOps.as_bytes (dest_addr self) ++ payload self.

(** [SessionDatagramRef::decode], which [SessionDatagram::decode] copies. *)
Definition decode (buf : list Z) : decoded SessionDatagram :=
  _ ← at_least 35 buf;
  ttl ← index buf 0;
  path_mtu ← index_u16 buf 1;
  src_addr ← read_addr buf 3;
  dest_addr ← read_addr buf 19;
  payload ← slice_from buf 35;
  Ok (mkDatagram src_addr dest_addr ttl path_mtu payload).

End SessionDatagram.

(** ** Tree announcements *)

Module TreeAnnounceWire.
Import TreeAnnounce ParentDeclaration.

Definition VERSION_1 : Z := 1.
Definition MIN_PAYLOAD_SIZE : nat := 99.
Definition WIRE_SIZE : nat := 32.

Definition encode_entry (entry : CoordEntry) : list Z :=
  NodeAddrOps.as_bytes (entry_addr entry) ++ to_le_bytes 8 (entry_sequence entry)
  ++ to_le_bytes 8 (entry_timestamp entry).

(** [entries.len() as u16] is what [to_le_bytes 2] keeps. *)
Definition encode (self : TreeAnnounce) : decoded (list Z) :=
  match signature (declaration self) with
  | None => Err BadSignature
  | Some sig =>
      Ok ([LinkMessageType.to_byte LinkMessageType.TreeAnnounce; VERSION_1]
          ++ to_le_bytes 8 (sequence (declaration self))
          ++ to_le_bytes 8 (timestamp (declaration self))
          ++ NodeAddrOps.as_bytes (parent_id (declaration self))
          ++ to_le_bytes 2 (Z.of_nat (length (ancestry self)))
          ++ mjoin (encode_entry <$> ancestry self) ++ sig)
  end.

(** [for _ in 0..ancestry_count]: the entries and the position after them. *)
Fixpoint decode_entries (payload : list Z) (pos count : nat) : decoded (list CoordEntry * nat) :=
  match count with
  | O => Ok ([], pos)
  | S count =>
      node_addr ← read_addr payload pos;
      entry_seq ← read_le 8 payload (pos + 16);
      entry_ts ← read_le 8 payload (pos + 24);
      '(entries, pos) ← decode_entries payload (pos + 32) count;
      Ok (mkCoordEntry node_addr entry_seq entry_ts :: entries, pos)
  end.

Section decode.
Context (sig_from_slice : list Z → option (list Z)).

Definition decode (payload : list Z) : decoded TreeAnnounce :=
  _ ← at_least MIN_PAYLOAD_SIZE payload;
  version ← index payload 0;
  if negb (version =? VERSION_1) then Err (UnsupportedVersion version)
  else
    sequence ← read_le 8 payload 1;
    timestamp ← read_le 8 payload 9;
    parent ← read_addr payload 17;
    count ← read_le 2 payload 33;
    let ancestry_count := Z.to_nat count in
    let expected_remaining := (ancestry_count * WIRE_SIZE + 64)%nat in
    if (length payload - 35 <? expected_remaining)%nat
    then Err (MessageTooShort (35 + expected_remaining) (length payload))
    else
      '(entries, pos) ← decode_entries payload 35 ancestry_count;
      sig_bytes ← slice payload pos (pos + 64);
      match sig_from_slice sig_bytes with
      | None => Err BadSignature
      | Some signature =>
          match entries with
          | [] => Err Malformed
          | e :: _ =>
              let declaration := with_signature (entry_addr e) parent sequence timestamp signature in
              ancestry ← map_err (TreeCoordinate.new entries) Malformed;
              Ok (mkTreeAnnounce declaration ancestry)
          end
      end.
End decode.
End TreeAnnounceWire.

(** ** Filter announcements *)

Module FilterAnnounce.
Import BloomFilter.

Definition MIN_PAYLOAD_SIZE : nat := 10.
Definition MAX_SIZE_CLASS : Z := 3.

Record FilterAnnounce := mkFilterAnnounce {
  filter : BloomFilter;
  sequence : Z;
  hash_count : Z;
  size_class : Z
}.

Definition new (filter : BloomFilter) (sequence : Z) : FilterAnnounce :=
  mkFilterAnnounce filter sequence (BloomFilter.hash_count filter) V1_SIZE_CLASS.

Definition with_size_class (filter : BloomFilter) (sequence size_class : Z) : FilterAnnounce :=
  mkFilterAnnounce filter sequence (BloomFilter.hash_count filter) size_class.

(** [512 << size_class] on 64 bits: the shift amount is taken modulo 64. *)
Definition filter_size_bytes (self : FilterAnnounce) : Z := wrap_u64 (Z.shiftl 512 (size_class self mod 64)).

Definition is_valid (self : FilterAnnounce) : bool :=
  (num_bytes (filter self) =? filter_size_bytes self)
  && (BloomFilter.hash_count (filter self) =? hash_count self).

Definition is_v1_compliant (self : FilterAnnounce) : bool := size_class self =? V1_SIZE_CLASS.

Definition encode (self : FilterAnnounce) : decoded (list Z) :=
  if negb (is_valid self) then Err Malformed
  else Ok (LinkMessageType.to_byte LinkMessageType.FilterAnnounce
           :: to_le_bytes 8 (sequence self) ++ [hash_count self; size_class self] ++ bits (filter self)).

Definition decode (payload : list Z) : decoded FilterAnnounce :=
  _ ← at_least MIN_PAYLOAD_SIZE payload;
  sequence ← read_le 8 payload 0;
  hash_count ← index payload 8;
  size_class ← index payload 9;
  if MAX_SIZE_CLASS <? size_class then Err Malformed
  else if negb (size_class =? V1_SIZE_CLASS) then Err Malformed
  else
    let expected_filter_bytes := Z.to_nat (Z.shiftl 512 size_class) in
    let remaining := (length payload - 10)%nat in
    if negb (remaining =? expected_filter_bytes)%nat
    then Err (MessageTooShort (MIN_PAYLOAD_SIZE + expected_filter_bytes) (length payload))
    else
      bytes ← slice_from payload 10;
      filter ← map_err (from_slice bytes hash_count) Malformed;
      Ok (mkFilterAnnounce filter sequence hash_count size_class).

End FilterAnnounce.

(** ** Measurement reports *)

Module SenderReport.
Record SenderReport := mkSenderReport {
  interval_start_counter : Z;
  interval_end_counter : Z;
  interval_start_timestamp : Z;
  interval_end_timestamp : Z;
  interval_bytes_sent : Z;
  cumulative_packets_sent : Z;
  cumulative_bytes_sent : Z
}.

(** The fields after the reserved bytes, in wire order; the session layer's report has
    the same ones. *)
Definition encode_fields (self : SenderReport) : list Z :=
  to_le_bytes 8 (interval_start_counter self)
  ++ to_le_bytes 8 (interval_end_counter self) ++ to_le_bytes 4 (interval_start_timestamp self)
  ++ to_le_bytes 4 (interval_end_timestamp self) ++ to_le_bytes 4 (interval_bytes_sent self)
  ++ to_le_bytes 8 (cumulative_packets_sent self) ++ to_le_bytes 8 (cumulative_bytes_sent self).

Definition decode_fields (p : list Z) : decoded SenderReport :=
  interval_start_counter ← read_le 8 p 0;
  interval_end_counter ← read_le 8 p 8;
  interval_start_timestamp ← read_le 4 p 16;
  interval_end_timestamp ← read_le 4 p 20;
  interval_bytes_sent ← read_le 4 p 24;
  cumulative_packets_sent ← read_le 8 p 28;
  cumulative_bytes_sent ← read_le 8 p 36;
  Ok (mkSenderReport interval_start_counter interval_end_counter interval_start_timestamp
        interval_end_timestamp interval_bytes_sent cumulative_packets_sent cumulative_bytes_sent).

Definition encode (self : SenderReport) : list Z := 1 :: [0; 0; 0] ++ encode_fields self.

Definition decode (payload : list Z) : decoded SenderReport :=
  _ ← at_least 47 payload;
  p ← slice_from payload 3;
  decode_fields p.

Definition wf (m : SenderReport) : Prop :=
  is_u64 (interval_start_counter m) ∧ is_u64 (interval_end_counter m)
  ∧ is_u32 (interval_start_timestamp m) ∧ is_u32 (interval_end_timestamp m)
  ∧ is_u32 (interval_bytes_sent m) ∧ is_u64 (cumulative_packets_sent m)
  ∧ is_u64 (cumulative_bytes_sent m).
End SenderReport.

Module ReceiverReport.
Record ReceiverReport := mkReceiverReport {
  highest_counter : Z;
  cumulative_packets_recv : Z;
  cumulative_bytes_recv : Z;
  timestamp_echo : Z;
  dwell_time : Z;
  max_burst_loss : Z;
  mean_burst_loss : Z;
  jitter : Z;
  ecn_ce_count : Z;
  owd_trend : Z;
  burst_loss_count : Z;
  cumulative_reorder_count : Z;
  interval_packets_recv : Z;
  interval_bytes_recv : Z
}.

(** The bytes of a negative [i32] are those of its remainder modulo [2 ^ 32]. *)
Definition encode_fields (self : ReceiverReport) : list Z :=
  to_le_bytes 8 (highest_counter self)
  ++ to_le_bytes 8 (cumulative_packets_recv self) ++ to_le_bytes 8 (cumulative_bytes_recv self)
  ++ to_le_bytes 4 (timestamp_echo self) ++ to_le_bytes 2 (dwell_time self)
  ++ to_le_bytes 2 (max_burst_loss self) ++ to_le_bytes 2 (mean_burst_loss self) ++ [0; 0]
  ++ to_le_bytes 4 (jitter self) ++ to_le_bytes 4 (ecn_ce_count self)
  ++ to_le_bytes 4 (owd_trend self) ++ to_le_bytes 4 (burst_loss_count self)
  ++ to_le_bytes 4 (cumulative_reorder_count self) ++ to_le_bytes 4 (interval_packets_recv self)
  ++ to_le_bytes 4 (interval_bytes_recv self).

Definition decode_fields (p : list Z) : decoded ReceiverReport :=
  highest_counter ← read_le 8 p 0;
  cumulative_packets_recv ← read_le 8 p 8;
  cumulative_bytes_recv ← read_le 8 p 16;
  timestamp_echo ← read_le 4 p 24;
  dwell_time ← read_le 2 p 28;
  max_burst_loss ← read_le 2 p 30;
  mean_burst_loss ← read_le 2 p 32;
  jitter ← read_le 4 p 36;
  ecn_ce_count ← read_le 4 p 40;
  owd_trend ← read_le 4 p 44;
  burst_loss_count ← read_le 4 p 48;
  cumulative_reorder_count ← read_le 4 p 52;
  interval_packets_recv ← read_le 4 p 56;
  interval_bytes_recv ← read_le 4 p 60;
  Ok (mkReceiverReport highest_counter cumulative_packets_recv cumulative_bytes_recv timestamp_echo
        dwell_time max_burst_loss mean_burst_loss jitter ecn_ce_count (to_i32 owd_trend)
        burst_loss_count cumulative_reorder_count interval_packets_recv interval_bytes_recv).

Definition encode (self : ReceiverReport) : list Z := 2 :: [0; 0; 0] ++ encode_fields self.

Definition decode (payload : list Z) : decoded ReceiverReport :=
  _ ← at_least 67 payload;
  p ← slice_from payload 3;
  decode_fields p.

Definition wf (m : ReceiverReport) : Prop :=
  is_u64 (highest_counter m) ∧ is_u64 (cumulative_packets_recv m)
  ∧ is_u64 (cumulative_bytes_recv m) ∧ is_u32 (timestamp_echo m)
  ∧ is_u16 (dwell_time m) ∧ is_u16 (max_burst_loss m)
  ∧ is_u16 (mean_burst_loss m) ∧ is_u32 (jitter m)
  ∧ is_u32 (ecn_ce_count m) ∧ - 2 ^ 31 ≤ owd_trend m < 2 ^ 31
  ∧ is_u32 (burst_loss_count m) ∧ is_u32 (cumulative_reorder_count m)
  ∧ is_u32 (interval_packets_recv m) ∧ is_u32 (interval_bytes_recv m).
End ReceiverReport.

(** ** The codec interface

    What a message type promises: an encoder, the number of leading bytes its
    dispatcher strips, a decoder of the rest, and the values its fields may
    have. A lawful codec reads back what it writes and never aborts. *)

Class WireMessage (M : Type) := {
  wire_encode : M → decoded (list Z);
  wire_header : nat;
  wire_decode : list Z → decoded M;
  wire_wf : M → Prop
}.

Class LawfulMessage (M : Type) `{!WireMessage M} : Prop := {
  wire_roundtrip (m : M) : wire_wf m →
    ∃ bytes, wire_encode m = Ok bytes ∧ Forall is_u8 bytes
      ∧ wire_decode (drop (wire_header (M := M)) bytes) = Ok m;
  wire_total (bytes : list Z) : wire_decode (M := M) bytes ≠ Panic
}.

#[export] Instance Disconnect_wire : WireMessage Disconnect.Disconnect := {|
  wire_encode m := Ok (Disconnect.encode m);
  wire_header := 1;
  wire_decode := Disconnect.decode;
  wire_wf _ := True
|}.

#[export] Instance SessionDatagram_wire : WireMessage SessionDatagram.SessionDatagram := {|
  wire_encode m := Ok (SessionDatagram.encode m);
  wire_header := 1;
  wire_decode := SessionDatagram.decode;
  wire_wf m := is_addr (SessionDatagram.src_addr m) ∧ is_addr (SessionDatagram.dest_addr m)
    ∧ is_u8 (SessionDatagram.ttl m) ∧ is_u16 (SessionDatagram.path_mtu m)
    ∧ Forall is_u8 (SessionDatagram.payload m)
|}.

Definition entry_wf (e : CoordEntry) : Prop :=
  is_addr (entry_addr e) ∧ is_u64 (entry_sequence e) ∧ is_u64 (entry_timestamp e).

(** A signed announcement of the node at the head of its ancestry. *)
Definition TreeAnnounce_wire (sig_from_slice : list Z → option (list Z)) : WireMessage TreeAnnounce.TreeAnnounce := {|
  wire_encode := TreeAnnounceWire.encode;
  wire_header := 1;
  wire_decode := TreeAnnounceWire.decode sig_from_slice;
  wire_wf m :=
    let d := TreeAnnounce.declaration m in
    is_addr (ParentDeclaration.parent_id d) ∧ is_u64 (ParentDeclaration.sequence d)
    ∧ is_u64 (ParentDeclaration.timestamp d)
    ∧ (∃ sig, ParentDeclaration.signature d = Some sig ∧ length sig = 64%nat ∧ Forall is_u8 sig
         ∧ sig_from_slice sig = Some sig)
    ∧ (∃ e es, TreeAnnounce.ancestry m = e :: es ∧ ParentDeclaration.node_addr d = entry_addr e)
    ∧ Forall entry_wf (TreeAnnounce.ancestry m)
    ∧ Z.of_nat (length (TreeAnnounce.ancestry m)) ≤ U16_MAX
|}.

#[export] Instance FilterAnnounce_wire : WireMessage FilterAnnounce.FilterAnnounce := {|
  wire_encode := FilterAnnounce.encode;
  wire_header := 1;
  wire_decode := FilterAnnounce.decode;
  wire_wf m :=
    is_u64 (FilterAnnounce.sequence m) ∧ is_u8 (FilterAnnounce.hash_count m)
    ∧ FilterAnnounce.hash_count m ≠ 0 ∧ FilterAnnounce.size_class m = BloomFilter.V1_SIZE_CLASS
    ∧ FilterAnnounce.is_valid m = true ∧ Forall is_u8 (BloomFilter.bits (FilterAnnounce.filter m))
    ∧ BloomFilter.num_bits (FilterAnnounce.filter m) = BloomFilter.num_bytes (FilterAnnounce.filter m) * 8
|}.

#[export] Instance SenderReport_wire : WireMessage SenderReport.SenderReport := {|
  wire_encode m := Ok (SenderReport.encode m);
  wire_header := 1;
  wire_decode := SenderReport.decode;
  wire_wf := SenderReport.wf
|}.

#[export] Instance ReceiverReport_wire : WireMessage ReceiverReport.ReceiverReport := {|
  wire_encode m := Ok (ReceiverReport.encode m);
  wire_header := 1;
  wire_decode := ReceiverReport.decode;
  wire_wf := ReceiverReport.wf
|}.

(** ** Reading what was written *)

Section reads.
Implicit Types a l p : list Z.

Lemma read_le_here n x l : 0 ≤ x < 2 ^ (8 * Z.of_nat n) → read_le n (to_le_bytes n x ++ l) 0 = Ok x.
Proof.
  intros Hx. unfold read_le. rewrite slice_app_here by apply length_to_le_bytes. simpl.
  by rewrite from_to_le_small.
Qed.

Lemma read_le_last n x : 0 ≤ x < 2 ^ (8 * Z.of_nat n) → read_le n (to_le_bytes n x) 0 = Ok x.
Proof. intros Hx. rewrite <- (app_nil_r (to_le_bytes n x)). by apply read_le_here. Qed.

Lemma read_addr_here (x : NodeAddr) l : is_addr x → read_addr (NodeAddrOps.as_bytes x ++ l) 0 = Ok x.
Proof.
  intros Ha. unfold read_addr. rewrite slice_app_here by apply length_as_bytes. simpl.
  by rewrite from_as_bytes.
Qed.

Lemma read_addr_last (x : NodeAddr) : is_addr x → read_addr (NodeAddrOps.as_bytes x) 0 = Ok x.
Proof. intros Ha. rewrite <- (app_nil_r (NodeAddrOps.as_bytes x)). by apply read_addr_here. Qed.

Lemma read_le_skip n a l i : (length a ≤ i)%nat → read_le n (a ++ l) i = read_le n l (i - length a).
Proof.
  intros Hi. unfold read_le. rewrite slice_app_skip by lia. do 2 f_equal. lia.
Qed.

Lemma read_addr_skip a l i : (length a ≤ i)%nat → read_addr (a ++ l) i = read_addr l (i - length a).
Proof.
  intros Hi. unfold read_addr. rewrite slice_app_skip by lia. do 2 f_equal. lia.
Qed.

Lemma read_le_cons n x l i : read_le n (x :: l) (S i) = read_le n l i.
Proof. unfold read_le. apply (f_equal (λ m, m ≫= _)). apply slice_cons. Qed.

Lemma read_addr_cons x l i : read_addr (x :: l) (S i) = read_addr l i.
Proof. unfold read_addr. apply (f_equal (λ m, m ≫= _)). apply slice_cons. Qed.

Lemma index_u16_read p i : index_u16 p i = read_le 2 p i.
Proof.
  unfold index_u16, read_le, index, slice. rewrite (proj2 (Nat.leb_le i (i + 2))) by lia. simpl.
  destruct (Nat.leb_spec (i + 2) (length p)) as [Hle|Hgt].
  - destruct (lookup_lt_is_Some_2 p i) as [x Hx]; [lia|].
    destruct (lookup_lt_is_Some_2 p (S i)) as [y Hy]; [lia|]. rewrite Hx, Hy. simpl.
    rewrite (drop_S _ _ _ Hx), (drop_S _ _ _ Hy). by replace (i + 2 - i)%nat with 2%nat by lia.
  - rewrite (lookup_ge_None_2 p (S i)) by lia. by destruct (p !! i).
Qed.

Lemma slice_from_skip {E} a l i : (length a ≤ i)%nat → @slice_from E (a ++ l) i = slice_from l (i - length a).
Proof.
  intros Hi. unfold slice_from. rewrite length_app, drop_app_ge by lia.
  destruct (Nat.leb_spec i (length a + length l)), (Nat.leb_spec (i - length a) (length l)); try done; lia.
Qed.

Lemma slice_from_cons {E} x l i : @slice_from E (x :: l) (S i) = slice_from l i.
Proof. done. Qed.

Lemma slice_from_0 {E} l : @slice_from E l 0 = Ok l.
Proof. done. Qed.

Lemma at_least_ok n p : (n ≤ length p)%nat → at_least n p = Ok tt.
Proof. intros H. unfold at_least. by rewrite (proj2 (Nat.ltb_ge _ _)). Qed.
End reads.

Lemma u16_range x : is_u16 x → 0 ≤ x < 2 ^ (8 * Z.of_nat 2).
Proof. intros. change (2 ^ (8 * Z.of_nat 2)) with 65536. mlia. Qed.

Lemma u32_range x : is_u32 x → 0 ≤ x < 2 ^ (8 * Z.of_nat 4).
Proof. intros. change (2 ^ (8 * Z.of_nat 4)) with 4294967296. mlia. Qed.

Lemma u64_range x : is_u64 x → 0 ≤ x < 2 ^ (8 * Z.of_nat 8).
Proof. intros. change (2 ^ (8 * Z.of_nat 8)) with 18446744073709551616. mlia. Qed.

#[export] Hint Resolve u16_range u32_range u64_range to_le_bytes_u8 as_bytes_u8 : wire.

Ltac wire_len :=
  repeat first [ rewrite length_app | rewrite length_cons | rewrite length_to_le_bytes
               | rewrite length_as_bytes ]; cbn [length].

(** Evaluates the reads of a decoder on the bytes an encoder wrote. *)
Ltac wire_pos := rewrite ?length_to_le_bytes, ?length_as_bytes; cbn [length Nat.sub].
Ltac wire_read := repeat first
  [ progress cbn [mbind outcome_bind]
  | rewrite index_u16_read
  | rewrite read_le_here by eauto with wire
  | rewrite read_le_last by eauto with wire
  | rewrite read_addr_here by eauto with wire
  | rewrite read_addr_last by eauto with wire
  | rewrite read_le_cons | rewrite read_addr_cons | rewrite slice_from_cons | rewrite slice_from_0
  | rewrite index_cons
  | rewrite read_le_skip by (wire_len; lia); wire_pos
  | rewrite read_addr_skip by (wire_len; lia); wire_pos
  | rewrite slice_from_skip by (wire_len; lia); wire_pos
  | rewrite index_app_skip by (wire_len; lia); wire_pos ].

(** The bytes an encoder writes are bytes. *)
Ltac wire_bytes :=
  repeat match goal with
  | |- Forall is_u8 (to_le_bytes _ _) => apply to_le_bytes_u8
  | |- Forall is_u8 (NodeAddrOps.as_bytes _) => apply as_bytes_u8
  | |- Forall is_u8 (_ ++ _) => apply Forall_app_2
  | |- Forall is_u8 (_ :: _) => apply Forall_cons_2
  | |- Forall is_u8 [] => apply Forall_nil_2
  | _ => assumption
  | |- is_u8 _ => mlia
  end.

Lemma read_le_ok n p i : (i + n ≤ length p)%nat → ∃ x, read_le n p i = Ok x.
Proof. intros H. unfold read_le. destruct (@slice_ok ProtocolError p i (i + n)) as [-> _]; [lia|]. by eexists. Qed.

Lemma read_addr_ok p i : (i + 16 ≤ length p)%nat → ∃ x, read_addr p i = Ok x.
Proof. intros H. unfold read_addr. destruct (@slice_ok ProtocolError p i (i + 16)) as [-> _]; [lia|]. by eexists. Qed.

Lemma slice_from_ok {E} (p : list Z) i : (i ≤ length p)%nat → @slice_from E p i = Ok (drop i p).
Proof. intros H. unfold slice_from. by rewrite (proj2 (Nat.leb_le _ _)). Qed.

Lemma at_least_cases n p : (at_least n p = Ok tt ∧ (n ≤ length p)%nat)
  ∨ at_least n p = Err (MessageTooShort n (length p)).
Proof. unfold at_least. destruct (Nat.ltb_spec (length p) n); auto. Qed.

(** Steps through a decoder whose reads are in range. *)
Ltac wire_in_range := rewrite ?length_drop; lia.
Ltac wire_safe := repeat (
  match goal with
  | |- context [at_least ?n ?p] =>
      destruct (at_least_cases n p) as [[-> ?]| ->]; [|done]
  | |- context [index_u16 ?p ?i] => rewrite (index_u16_read p i)
  | |- context [read_le ?n ?p ?i] =>
      let x := fresh "x" in destruct (read_le_ok n p i) as [x ->]; [wire_in_range|]
  | |- context [read_addr ?p ?i] =>
      let x := fresh "x" in destruct (read_addr_ok p i) as [x ->]; [wire_in_range|]
  | |- context [@slice_from ?E ?p ?i] => rewrite (@slice_from_ok E p i) by wire_in_range
  | |- context [@index ?E ?p ?i] =>
      let x := fresh "x" in destruct (@index_ok E p i) as [x ->]; [wire_in_range|]
  end; cbn [mbind outcome_bind]).

#[export] Instance Disconnect_lawful : LawfulMessage Disconnect.Disconnect.
Proof.
  split.
  - intros [r] _. eexists. split; [done|]. split; [destruct r; unfold Disconnect.encode; simpl; wire_bytes|by destruct r].
  - by intros [|b l].
Qed.

#[export] Instance SessionDatagram_lawful : LawfulMessage SessionDatagram.SessionDatagram.
Proof.
  split.
  - intros [s d t mtu p] (Hs & Hd & Ht & Hm & Hp). simpl in *. eexists. split; [done|].
    unfold SessionDatagram.encode, SessionDatagram.decode.
    cbn [drop LinkMessageType.to_byte SessionDatagram.ttl SessionDatagram.path_mtu SessionDatagram.src_addr
      SessionDatagram.dest_addr SessionDatagram.payload].
    split; [wire_bytes|]. rewrite at_least_ok by (wire_len; lia). wire_read. done.
  - intros p. simpl. unfold SessionDatagram.decode. wire_safe. done.
Qed.

Lemma sender_fields_roundtrip m : SenderReport.wf m →
  SenderReport.decode_fields (SenderReport.encode_fields m) = Ok m.
Proof.
  destruct m as [a b c d e f g].
  unfold SenderReport.wf, SenderReport.encode_fields, SenderReport.decode_fields. cbn [SenderReport.interval_start_counter
    SenderReport.interval_end_counter SenderReport.interval_start_timestamp
    SenderReport.interval_end_timestamp SenderReport.interval_bytes_sent
    SenderReport.cumulative_packets_sent SenderReport.cumulative_bytes_sent].
  intros (? & ? & ? & ? & ? & ? & ?). wire_read. done.
Qed.

Lemma sender_fields_bytes m : Forall is_u8 (SenderReport.encode_fields m)
  ∧ length (SenderReport.encode_fields m) = 44%nat.
Proof. unfold SenderReport.encode_fields. split; [wire_bytes|by wire_len]. Qed.

Lemma sender_fields_total p : (44 ≤ length p)%nat → SenderReport.decode_fields p ≠ Panic.
Proof. intros. unfold SenderReport.decode_fields. wire_safe. done. Qed.

#[export] Instance SenderReport_lawful : LawfulMessage SenderReport.SenderReport.
Proof.
  split.
  - intros m Hm. eexists. split; [done|]. destruct (sender_fields_bytes m) as [Hb Hl].
    unfold SenderReport.encode. cbn [wire_header wire_decode SenderReport_wire app drop].
    split; [wire_bytes|]. unfold SenderReport.decode. rewrite at_least_ok by (wire_len; lia). wire_read.
    by apply sender_fields_roundtrip.
  - intros p. cbn [wire_decode SenderReport_wire]. unfold SenderReport.decode. wire_safe.
    apply sender_fields_total. rewrite length_drop. lia.
Qed.

Lemma i32_roundtrip z l : - 2 ^ 31 ≤ z < 2 ^ 31 →
  ∃ u, read_le 4 (to_le_bytes 4 z ++ l) 0 = Ok u ∧ to_i32 u = z.
Proof.
  intros Hz. exists (z mod 2 ^ 32). unfold read_le.
  rewrite slice_app_here by apply length_to_le_bytes. cbn [mbind outcome_bind].
  rewrite from_to_le_bytes. split; [done|]. unfold to_i32.
  change (2 ^ (8 * Z.of_nat 4)) with (2 ^ 32). destruct (decide (0 ≤ z)).
  - rewrite Z.mod_small by lia. destruct (Z.ltb_spec z (2 ^ 31)); lia.
  - rewrite <- (Z_mod_plus_full z 1), Z.mod_small by lia. destruct (Z.ltb_spec (z + 1 * 2 ^ 32) (2 ^ 31)); lia.
Qed.

Lemma receiver_fields_roundtrip r : ReceiverReport.wf r →
  ReceiverReport.decode_fields (ReceiverReport.encode_fields r) = Ok r.
Proof.
  destruct r as [a b c d e f g h i j k l m n].
  unfold ReceiverReport.wf, ReceiverReport.encode_fields, ReceiverReport.decode_fields. cbn [app ReceiverReport.highest_counter
    ReceiverReport.cumulative_packets_recv ReceiverReport.cumulative_bytes_recv
    ReceiverReport.timestamp_echo ReceiverReport.dwell_time ReceiverReport.max_burst_loss
    ReceiverReport.mean_burst_loss ReceiverReport.jitter ReceiverReport.ecn_ce_count
    ReceiverReport.owd_trend ReceiverReport.burst_loss_count ReceiverReport.cumulative_reorder_count
    ReceiverReport.interval_packets_recv ReceiverReport.interval_bytes_recv].
  intros (?&?&?&?&?&?&?&?&?&Hj&?&?&?&?). wire_read.
  destruct (i32_roundtrip j (to_le_bytes 4 k ++ to_le_bytes 4 l ++ to_le_bytes 4 m ++ to_le_bytes 4 n) Hj)
    as (u & -> & Hu). wire_read. by rewrite Hu.
Qed.

Lemma receiver_fields_bytes m : Forall is_u8 (ReceiverReport.encode_fields m)
  ∧ length (ReceiverReport.encode_fields m) = 64%nat.
Proof. unfold ReceiverReport.encode_fields. split; [wire_bytes|by wire_len]. Qed.

Lemma receiver_fields_total p : (64 ≤ length p)%nat → ReceiverReport.decode_fields p ≠ Panic.
Proof. intros. unfold ReceiverReport.decode_fields. wire_safe. done. Qed.

#[export] Instance ReceiverReport_lawful : LawfulMessage ReceiverReport.ReceiverReport.
Proof.
  split.
  - intros m Hm. eexists. split; [done|]. destruct (receiver_fields_bytes m) as [Hb Hl].
    unfold ReceiverReport.encode. cbn [wire_header wire_decode ReceiverReport_wire app drop].
    split; [wire_bytes|]. unfold ReceiverReport.decode. rewrite at_least_ok by (wire_len; lia). wire_read.
    by apply receiver_fields_roundtrip.
  - intros p. cbn [wire_decode ReceiverReport_wire]. unfold ReceiverReport.decode. wire_safe.
    apply receiver_fields_total. rewrite length_drop. lia.
Qed.

Lemma from_slice_no_panic bytes k : BloomFilter.from_slice bytes k ≠ Panic.
Proof.
  unfold BloomFilter.from_slice, BloomFilter.from_bytes. by destruct (k =? 0), (length bytes =? 0)%nat.
Qed.

#[export] Instance FilterAnnounce_lawful : LawfulMessage FilterAnnounce.FilterAnnounce.
Proof.
  split.
  - intros [[bs nb k] seq hc sc] (Hseq & Hhc & Hne & Hsc & Hv & Hbs & Hnb). cbn in *. subst sc.
    unfold FilterAnnounce.encode. rewrite Hv. cbn [negb]. eexists. split; [done|].
    unfold FilterAnnounce.is_valid in Hv. apply andb_true_iff in Hv as [Hlen%Z.eqb_eq Hk%Z.eqb_eq].
    cbn in Hlen, Hk. subst k. unfold BloomFilter.num_bytes in *. cbn in Hlen, Hnb.
    assert (length bs = 1024%nat) as Hl by (apply Nat2Z.inj; exact Hlen).
    cbn [drop LinkMessageType.to_byte app FilterAnnounce.sequence FilterAnnounce.hash_count
      FilterAnnounce.size_class FilterAnnounce.filter BloomFilter.bits]. rewrite drop_0.
    split; [wire_bytes; unfold BloomFilter.V1_SIZE_CLASS; mlia|]. unfold FilterAnnounce.decode.
    rewrite at_least_ok by (wire_len; unfold FilterAnnounce.MIN_PAYLOAD_SIZE; lia). wire_read.
    cbn [index lookup list_lookup mbind outcome_bind]. wire_read.
    change (FilterAnnounce.MAX_SIZE_CLASS <? BloomFilter.V1_SIZE_CLASS) with false.
    change (BloomFilter.V1_SIZE_CLASS =? BloomFilter.V1_SIZE_CLASS) with true. cbn [negb].
    wire_len. rewrite Hl. change (Z.to_nat (Z.shiftl 512 BloomFilter.V1_SIZE_CLASS)) with 1024%nat.
    cbn [Nat.add Nat.sub Nat.eqb negb]. wire_read.
    unfold BloomFilter.from_slice, BloomFilter.from_bytes. rewrite (proj2 (Z.eqb_neq hc 0)), Hl by done.
    simpl. by rewrite Hnb, Hl.
  - intros p. cbn. unfold FilterAnnounce.decode, FilterAnnounce.MIN_PAYLOAD_SIZE. wire_safe.
    destruct (_ <? _); [done|]. destruct (negb _); [done|]. destruct (negb _); [done|]. wire_safe.
    match goal with
    | |- context [BloomFilter.from_slice ?b ?k] =>
        pose proof (from_slice_no_panic b k); by destruct (BloomFilter.from_slice b k)
    end.
Qed.

Section tree_announce.
Import TreeAnnounceWire.

Lemma length_encode_entry e : length (encode_entry e) = 32%nat.
Proof. unfold encode_entry. by wire_len. Qed.

Lemma entries_cons e es :
  mjoin (encode_entry <$> e :: es) = encode_entry e ++ mjoin (encode_entry <$> es).
Proof. done. Qed.

Lemma length_entries es : length (mjoin (encode_entry <$> es)) = (32 * length es)%nat.
Proof.
  induction es as [|e es IH]; [done|]. rewrite entries_cons, length_app, length_encode_entry, IH.
  cbn [length]. lia.
Qed.

Lemma entries_u8 es : Forall is_u8 (mjoin (encode_entry <$> es)).
Proof.
  induction es as [|e es IH]; [constructor|]. rewrite entries_cons.
  apply Forall_app_2; [unfold encode_entry; wire_bytes|done].
Qed.

Lemma decode_entries_written es pre suf pos : length pre = pos → Forall entry_wf es →
  decode_entries (pre ++ mjoin (encode_entry <$> es) ++ suf) pos (length es)
  = Ok (es, (pos + 32 * length es)%nat).
Proof.
  revert pre pos. induction es as [|e es IH]; intros pre pos Hpos Hwf.
  { cbn. do 2 f_equal. lia. }
  apply Forall_cons in Hwf as [(Ha & Hs & Ht) Hwf]. rewrite entries_cons.
  set (p := pre ++ (encode_entry e ++ mjoin (encode_entry <$> es)) ++ suf).
  assert (read_addr p pos = Ok (entry_addr e) ∧ read_le 8 p (pos + 16) = Ok (entry_sequence e)
    ∧ read_le 8 p (pos + 24) = Ok (entry_timestamp e)) as (H1 & H2 & H3).
  { unfold p, encode_entry. rewrite <- !app_assoc.
    rewrite read_addr_skip, !(read_le_skip _ pre) by lia. rewrite Hpos, Nat.sub_diag.
    replace (pos + 16 - pos)%nat with 16%nat by lia. replace (pos + 24 - pos)%nat with 24%nat by lia.
    split; [by wire_read|]. split; by wire_read. }
  cbn [length decode_entries]. rewrite H1, H2, H3. cbn [mbind outcome_bind].
  replace p with ((pre ++ encode_entry e) ++ mjoin (encode_entry <$> es) ++ suf)
    by (unfold p; by rewrite <- !app_assoc).
  rewrite (IH (pre ++ encode_entry e)); [|rewrite length_app, length_encode_entry; lia|done].
  cbn [mbind outcome_bind]. destruct e. do 2 f_equal. lia.
Qed.

Lemma decode_entries_ok p count : ∀ pos, (pos + 32 * count ≤ length p)%nat →
  ∃ es, decode_entries p pos count = Ok (es, (pos + 32 * count)%nat).
Proof.
  induction count as [|count IH]; intros pos Hlen; cbn [decode_entries].
  { exists []. do 2 f_equal. lia. }
  wire_safe. destruct (IH (pos + 32)%nat) as [es ->]; [lia|]. cbn [mbind outcome_bind].
  eexists. do 2 f_equal. lia.
Qed.

(** What [encode] writes before the entries. *)
Definition written_header (seq ts : Z) (parent : NodeAddr) (n : nat) : list Z :=
  VERSION_1 :: to_le_bytes 8 seq ++ to_le_bytes 8 ts ++ NodeAddrOps.as_bytes parent
  ++ to_le_bytes 2 (Z.of_nat n).

Lemma length_written_header seq ts parent n : length (written_header seq ts parent n) = 35%nat.
Proof. unfold written_header. by wire_len. Qed.

Lemma decode_written sig_from_slice seq ts parent e es sig :
  is_addr parent → is_u64 seq → is_u64 ts → Forall entry_wf (e :: es) →
  Z.of_nat (length (e :: es)) ≤ U16_MAX → length sig = 64%nat → sig_from_slice sig = Some sig →
  decode sig_from_slice (written_header seq ts parent (length (e :: es))
    ++ mjoin (encode_entry <$> e :: es) ++ sig)
  = Ok (TreeAnnounce.mkTreeAnnounce
          (ParentDeclaration.with_signature (entry_addr e) parent seq ts sig) (e :: es)).
Proof.
  intros Hp Hs Ht Hwf Hlen Hl Hsf. set (n := length (e :: es)) in *.
  assert (is_u16 (Z.of_nat n)) by mlia. unfold decode, MIN_PAYLOAD_SIZE, WIRE_SIZE.
  set (p := written_header seq ts parent n ++ mjoin (encode_entry <$> e :: es) ++ sig).
  assert (length p = 35 + 32 * n + 64)%nat as Hlp.
  { unfold p. rewrite !length_app, length_written_header, length_entries, Hl. lia. }
  assert (index p 0 = @Ok ProtocolError Z VERSION_1 ∧ read_le 8 p 1 = Ok seq ∧ read_le 8 p 9 = Ok ts
    ∧ read_addr p 17 = Ok parent ∧ read_le 2 p 33 = Ok (Z.of_nat n)) as (H0 & H1 & H2 & H3 & H4).
  { unfold p, written_header. cbn [app]. rewrite <- !app_assoc. split_and!; by wire_read. }
  rewrite at_least_ok by lia. cbn [mbind outcome_bind]. rewrite H0. cbn [mbind outcome_bind].
  change (VERSION_1 =? VERSION_1) with true. cbn [negb].
  do 4 (first [rewrite H1 | rewrite H2 | rewrite H3 | rewrite H4]; cbn [mbind outcome_bind]).
  rewrite Nat2Z.id, Hlp. rewrite (proj2 (Nat.ltb_ge _ _)) by lia.
  assert (decode_entries p 35 n = Ok (e :: es, (35 + 32 * n)%nat)) as ->
    by (apply decode_entries_written; [apply length_written_header|done]).
  cbn [mbind outcome_bind].
  assert (slice p (35 + 32 * n) (35 + 32 * n + 64)
    = @Ok ProtocolError (list Z) sig) as ->.
  { unfold p. rewrite slice_app_skip by (rewrite length_written_header; lia).
    rewrite length_written_header, slice_app_skip by (rewrite length_entries; lia).
    rewrite length_entries. fold n. replace (35 + 32 * n - 35 - 32 * n)%nat with 0%nat by lia.
    replace (35 + 32 * n + 64 - 35 - 32 * n)%nat with 64%nat by lia. by apply slice_all. }
  cbn [mbind outcome_bind]. by rewrite Hsf.
Qed.

Lemma TreeAnnounce_lawful sig_from_slice :
  LawfulMessage TreeAnnounce.TreeAnnounce (WireMessage0 := TreeAnnounce_wire sig_from_slice).
Proof.
  split.
  - intros [[node parent seq ts sg] anc]
      (Hp & Hs & Ht & (sig & Hsig & Hl & Hu & Hsf) & (e & es & Hanc & Hn) & Hwf & Hlen).
    cbn in Hp, Hs, Ht, Hsig, Hanc, Hn, Hwf, Hlen. subst sg node anc.
    cbn [wire_encode wire_decode wire_header TreeAnnounce_wire]. unfold encode.
    cbn [ParentDeclaration.signature TreeAnnounce.declaration ParentDeclaration.sequence
      ParentDeclaration.timestamp ParentDeclaration.parent_id TreeAnnounce.ancestry].
    eexists. split; [done|]. split.
    { cbn [app LinkMessageType.to_byte]. unfold VERSION_1. wire_bytes. apply entries_u8. }
    etrans; [|by apply (decode_written sig_from_slice seq ts parent e es sig)]. f_equal.
  - intros p. cbn [wire_decode TreeAnnounce_wire]. unfold decode, MIN_PAYLOAD_SIZE, WIRE_SIZE. wire_safe.
    destruct (negb _); [done|]. wire_safe.
    destruct (Nat.ltb_spec (length p - 35) (Z.to_nat x * 32 + 64)) as [|Hge]; [done|].
    destruct (decode_entries_ok p (Z.to_nat x) 35) as [es ->]; [lia|]. cbn [mbind outcome_bind].
    destruct (@slice_ok ProtocolError p (35 + 32 * Z.to_nat x) (35 + 32 * Z.to_nat x + 64)) as [-> _]; [lia|].
    cbn [mbind outcome_bind]. destruct (sig_from_slice _); [|done]. by destruct es.
Qed.
End tree_announce.

(** Messages the codecs are used on. *)
Definition sample_datagram : SessionDatagram.SessionDatagram :=
  SessionDatagram.with_path_mtu (SessionDatagram.new 5 9 [1; 2; 3]) 1280.

Definition sample_announce : TreeAnnounce.TreeAnnounce :=
  TreeAnnounce.mkTreeAnnounce
    (ParentDeclaration.with_signature 5 2 7 1000 (replicate 64 1))
    [mkCoordEntry 5 7 1000; mkCoordEntry 2 3 900].

Lemma samples_wf : wire_wf sample_datagram
  ∧ wire_wf (WireMessage := TreeAnnounce_wire (λ s, if (length s =? 64)%nat then Some s else None)) sample_announce.
Proof.
  assert (∀ z, 0 ≤ z ≤ 9 → is_addr z) as Ha by (unfold is_addr; intros; lia).
  assert (∀ z, 0 ≤ z ≤ 1000 → is_u64 z) as Hu by (intros; mlia).
  split; cbn -[Z.pow is_addr is_u64 is_u16 is_u8 replicate U16_MAX].
  - refine (conj (Ha _ _) (conj (Ha _ _) (conj _ (conj _ _)))); [lia|lia|mlia|mlia|wire_bytes].
  - refine (conj (Ha _ _) (conj (Hu _ _) (conj (Hu _ _) (conj _ (conj _ (conj _ _)))))); [lia|lia|lia| | | |mlia].
    + eexists. split; [done|]. split; [done|]. split; [|done]. apply Forall_replicate. mlia.
    + eexists _, _. done.
    + repeat (constructor; [split; [apply Ha|split; apply Hu]; cbn; lia|]). constructor.
Qed.

(** ** Properties *)

(** C24: every link-layer codec reads back what it writes and never aborts: datagrams, disconnects,
    signed tree announcements, v1 filter announcements, sender and receiver reports. A
    message whose fields have the widths of their types encodes to bytes which, without the
    type byte, decode to that message; and each decoder returns a message or an error on any
    bytes. Only the signature parser is outside this code. *)
Theorem link_codecs_lawful sig_from_slice :
  LawfulMessage SessionDatagram.SessionDatagram
  ∧ LawfulMessage Disconnect.Disconnect
  ∧ LawfulMessage TreeAnnounce.TreeAnnounce (WireMessage0 := TreeAnnounce_wire sig_from_slice)
  ∧ LawfulMessage FilterAnnounce.FilterAnnounce
  ∧ LawfulMessage SenderReport.SenderReport
  ∧ LawfulMessage ReceiverReport.ReceiverReport.
Proof. split_and!; try apply _. apply TreeAnnounce_lawful. Qed.

