(* ===== verification/SessionWire.v ===== *)
(** * Session-layer and discovery messages
    ([crates/fips-core/src/proto/protocol/{session,discovery,handshake}.rs],
    [session/control_messages.rs], [crates/fips-core/src/proto/fsp_wire.rs])

    The messages carried end to end inside session datagrams: handshakes with
    tree coordinates, error signals, reports, lookups; and the strict
    classification of handshake envelopes. Lengths cast to [u16] keep their low
    16 bits, which is what [to_le_bytes 2] writes. *)

From S2P Require Import Prelude Bytes NodeAddr Coordinate LinkWire.

Local Open Scope Z_scope.

Module SessionMessageType.
Inductive t :=
| DataPacket | SenderReport | ReceiverReport | PathMtuNotification | CoordsWarmup | EndpointData
| TraversalOffer | TraversalAnswer | CoordsRequired | PathBroken | MtuExceeded.

Definition to_byte (m : t) : Z :=
  match m with
  | DataPacket => 16 | SenderReport => 17 | ReceiverReport => 18 | PathMtuNotification => 19
  | CoordsWarmup => 20 | EndpointData => 21 | TraversalOffer => 22 | TraversalAnswer => 23
  | CoordsRequired => 32 | PathBroken => 33 | MtuExceeded => 34
  end.

Definition from_byte (b : Z) : option t :=
  match b with
  | 16 => Some DataPacket | 17 => Some SenderReport | 18 => Some ReceiverReport
  | 19 => Some PathMtuNotification | 20 => Some CoordsWarmup | 21 => Some EndpointData
  | 22 => Some TraversalOffer | 23 => Some TraversalAnswer | 32 => Some CoordsRequired
  | 33 => Some PathBroken | 34 => Some MtuExceeded | _ => None
  end.
End SessionMessageType.

(** ** Coordinates *)

Definition coords_wire_size (coords : TreeCoordinate) : nat := 2 + length coords * 16.

Definition encode_coords (coords : TreeCoordinate) : list Z :=
  let addrs := TreeCoordinate.node_addrs coords in
  to_le_bytes 2 (Z.of_nat (length addrs)) ++ mjoin (NodeAddrOps.as_bytes <$> addrs).

Definition encode_empty_coords : list Z := to_le_bytes 2 0.

(** [for i in 0..count]: the address at [2 + i * 16]. *)
Fixpoint read_addrs (data : list Z) (i count : nat) : decoded (list NodeAddr) :=
  match count with
  | O => Ok []
  | S count =>
      a ← read_addr data (2 + i * 16);
      addrs ← read_addrs data (S i) count;
      Ok (a :: addrs)
  end.

Definition decode_coords (data : list Z) : decoded (TreeCoordinate * nat) :=
  _ ← at_least 2 data;
  c ← index_u16 data 0;
  let count := Z.to_nat c in
  let needed := (2 + count * 16)%nat in
  _ ← at_least needed data;
  if (count =? 0)%nat then Err Malformed
  else
    addrs ← read_addrs data 0 count;
    coord ← map_err (TreeCoordinate.from_addrs addrs) Malformed;
    Ok (coord, needed).

Definition decode_optional_coords (data : list Z) : decoded (option TreeCoordinate * nat) :=
  _ ← at_least 2 data;
  c ← index_u16 data 0;
  let count := Z.to_nat c in
  let needed := (2 + count * 16)%nat in
  _ ← at_least needed data;
  if (count =? 0)%nat then Ok (None, 2%nat)
  else
    addrs ← read_addrs data 0 count;
    coord ← map_err (TreeCoordinate.from_addrs addrs) Malformed;
    Ok (Some coord, needed).

(** ** Flags *)

Definition bit (b : bool) (mask : Z) : Z := if b then mask else 0.

Module SessionFlags.
Record SessionFlags := mkFlags {
  request_ack : bool;
  bidirectional : bool;
  direct_fsp_transport : bool
}.

Definition new : SessionFlags := mkFlags false false false.

Definition to_byte (self : SessionFlags) : Z :=
  Z.lor (Z.lor (Z.lor 0 (bit (request_ack self) 1)) (bit (bidirectional self) 2))
    (bit (direct_fsp_transport self) 4).

Definition from_byte (byte : Z) : SessionFlags :=
  mkFlags (negb (Z.land byte 1 =? 0)) (negb (Z.land byte 2 =? 0)) (negb (Z.land byte 4 =? 0)).
End SessionFlags.

Module FspFlags.
Record FspFlags := mkFspFlags { coords_present : bool; key_epoch : bool; unencrypted : bool }.

Definition to_byte (self : FspFlags) : Z :=
  Z.lor (Z.lor (Z.lor 0 (bit (coords_present self) 1)) (bit (key_epoch self) 2))
    (bit (unencrypted self) 4).

Definition from_byte (byte : Z) : FspFlags :=
  mkFspFlags (negb (Z.land byte 1 =? 0)) (negb (Z.land byte 2 =? 0)) (negb (Z.land byte 4 =? 0)).
End FspFlags.

Module FspInnerFlags.
Record FspInnerFlags := mkInner { spin_bit : bool }.
Definition to_byte (self : FspInnerFlags) : Z := if spin_bit self then 1 else 0.
Definition from_byte (byte : Z) : FspInnerFlags := mkInner (negb (Z.land byte 1 =? 0)).
End FspInnerFlags.

(** ** Handshake messages *)

(** The four bytes before a handshake or error body. *)
Definition fsp_prefix (ver_phase flags : Z) (body : list Z) : list Z :=
  [ver_phase; flags] ++ to_le_bytes 2 (Z.of_nat (length body)) ++ body.

(** The length-prefixed Noise payload at the end of a handshake body. *)
Definition encode_handshake (hs : list Z) : list Z := to_le_bytes 2 (Z.of_nat (length hs)) ++ hs.

Definition decode_handshake (payload : list Z) (offset : nat) : decoded (list Z) :=
  _ ← at_least (offset + 2) payload;
  hs_len ← index_u16 payload offset;
  let hs_len := Z.to_nat hs_len in
  _ ← at_least (offset + 2 + hs_len) payload;
  slice payload (offset + 2) (offset + 2 + hs_len).

Module SessionSetup.
Record SessionSetup := mkSetup {
  src_coords : TreeCoordinate;
  dest_coords : TreeCoordinate;
  flags : SessionFlags.SessionFlags;
  handshake_payload : list Z
}.

Definition new (src_coords dest_coords : TreeCoordinate) : SessionSetup :=
  mkSetup src_coords dest_coords SessionFlags.new [].

Definition with_flags (self : SessionSetup) (flags : SessionFlags.SessionFlags) : SessionSetup :=
  mkSetup (src_coords self) (dest_coords self) flags (handshake_payload self).

Definition with_handshake (self : SessionSetup) (payload : list Z) : SessionSetup :=
  mkSetup (src_coords self) (dest_coords self) (flags self) payload.

Definition body (self : SessionSetup) : list Z :=
  SessionFlags.to_byte (flags self) :: encode_coords (src_coords self)
  ++ encode_coords (dest_coords self) ++ encode_handshake (handshake_payload self).

Definition encode (self : SessionSetup) : list Z := fsp_prefix 1 0 (body self).

Definition decode (payload : list Z) : decoded SessionSetup :=
  if (length payload =? 0)%nat then Err (MessageTooShort 1 0)
  else
    b ← index payload 0;
    let flags := SessionFlags.from_byte b in
    rest ← slice_from payload 1;
    '(src_coords, consumed) ← decode_coords rest;
    let offset := (1 + consumed)%nat in
    rest ← slice_from payload offset;
    '(dest_coords, consumed) ← decode_coords rest;
    let offset := (offset + consumed)%nat in
    handshake_payload ← decode_handshake payload offset;
    Ok (mkSetup src_coords dest_coords flags handshake_payload).
End SessionSetup.

Module SessionAck.
Record SessionAck := mkAck {
  src_coords : TreeCoordinate;
  dest_coords : TreeCoordinate;
  flags : Z;
  handshake_payload : list Z
}.

Definition new (src_coords dest_coords : TreeCoordinate) : SessionAck := mkAck src_coords dest_coords 0 [].

Definition with_handshake (self : SessionAck) (payload : list Z) : SessionAck :=
  mkAck (src_coords self) (dest_coords self) (flags self) payload.

Definition with_direct_fsp_transport (self : SessionAck) : SessionAck :=
  mkAck (src_coords self) (dest_coords self) (Z.lor (flags self) 4) (handshake_payload self).

Definition supports_direct_fsp_transport (self : SessionAck) : bool := negb (Z.land (flags self) 4 =? 0).

Definition body (self : SessionAck) : list Z :=
  flags self :: encode_coords (src_coords self) ++ encode_coords (dest_coords self)
  ++ encode_handshake (handshake_payload self).

Definition encode (self : SessionAck) : list Z := fsp_prefix 2 0 (body self).

Definition decode (payload : list Z) : decoded SessionAck :=
  if (length payload =? 0)%nat then Err (MessageTooShort 1 0)
  else
    flags ← index payload 0;
    rest ← slice_from payload 1;
    '(src_coords, consumed) ← decode_coords rest;
    let offset := (1 + consumed)%nat in
    rest ← slice_from payload offset;
    '(dest_coords, consumed) ← decode_coords rest;
    let offset := (offset + consumed)%nat in
    handshake_payload ← decode_handshake payload offset;
    Ok (mkAck src_coords dest_coords flags handshake_payload).
End SessionAck.

Module SessionMsg3.
Record SessionMsg3 := mkMsg3 { flags : Z; handshake_payload : list Z }.

Definition new (handshake_payload : list Z) : SessionMsg3 := mkMsg3 0 handshake_payload.

Definition body (self : SessionMsg3) : list Z :=
  flags self :: encode_handshake (handshake_payload self).

Definition encode (self : SessionMsg3) : list Z := fsp_prefix 3 0 (body self).

Definition decode (payload : list Z) : decoded SessionMsg3 :=
  if (length payload =? 0)%nat then Err (MessageTooShort 1 0)
  else
    flags ← index payload 0;
    handshake_payload ← decode_handshake payload 1;
    Ok (mkMsg3 flags handshake_payload).
End SessionMsg3.

(** ** Control messages *)

Module PathMtuNotification.
Definition PATH_MTU_NOTIFICATION_SIZE : nat := 2.
Record PathMtuNotification := mkPathMtu { path_mtu : Z }.

Definition encode (self : PathMtuNotification) : list Z := to_le_bytes 2 (path_mtu self).

Definition decode (body : list Z) : decoded PathMtuNotification :=
  _ ← at_least PATH_MTU_NOTIFICATION_SIZE body;
  mtu ← index_u16 body 0;
  Ok (mkPathMtu mtu).
End PathMtuNotification.

Module CoordsRequired.
Definition COORDS_REQUIRED_SIZE : nat := 34.
Record CoordsRequired := mkCoordsRequired { dest_addr : NodeAddr; reporter : NodeAddr }.

Definition encode (self : CoordsRequired) : list Z :=
  [0; 4] ++ to_le_bytes 2 34
  ++ [SessionMessageType.to_byte SessionMessageType.CoordsRequired; 0]
  ++ NodeAddrOps.as_bytes (dest_addr self) ++ NodeAddrOps.as_bytes (reporter self).

Definition decode (payload : list Z) : decoded CoordsRequired :=
  _ ← at_least 33 payload;
  dest_addr ← read_addr payload 1;
  reporter ← read_addr payload 17;
  Ok (mkCoordsRequired dest_addr reporter).
End CoordsRequired.

Module PathBroken.
Record PathBroken := mkPathBroken {
  dest_addr : NodeAddr;
  reporter : NodeAddr;
  last_known_coords : option TreeCoordinate
}.

Definition new (dest_addr reporter : NodeAddr) : PathBroken := mkPathBroken dest_addr reporter None.

Definition with_last_coords (self : PathBroken) (coords : TreeCoordinate) : PathBroken :=
  mkPathBroken (dest_addr self) (reporter self) (Some coords).

Definition encode (self : PathBroken) : list Z :=
  fsp_prefix 0 4
    ([SessionMessageType.to_byte SessionMessageType.PathBroken; 0]
     ++ NodeAddrOps.as_bytes (dest_addr self) ++ NodeAddrOps.as_bytes (reporter self)
     ++ match last_known_coords self with
        | Some coords => encode_coords coords
        | None => encode_empty_coords
        end).

Definition decode (payload : list Z) : decoded PathBroken :=
  _ ← at_least 35 payload;
  dest_addr ← read_addr payload 1;
  reporter ← read_addr payload 17;
  rest ← slice_from payload 33;
  '(last_known_coords, _) ← decode_optional_coords rest;
  Ok (mkPathBroken dest_addr reporter last_known_coords).
End PathBroken.

Module MtuExceeded.
Definition MTU_EXCEEDED_SIZE : nat := 36.
Record MtuExceeded := mkMtuExceeded { dest_addr : NodeAddr; reporter : NodeAddr; mtu : Z }.

Definition encode (self : MtuExceeded) : list Z :=
  [0; 4] ++ to_le_bytes 2 (Z.of_nat MTU_EXCEEDED_SIZE)
  ++ [SessionMessageType.to_byte SessionMessageType.MtuExceeded; 0]
  ++ NodeAddrOps.as_bytes (dest_addr self) ++ NodeAddrOps.as_bytes (reporter self)
  ++ to_le_bytes 2 (mtu self).

Definition decode (payload : list Z) : decoded MtuExceeded :=
  _ ← at_least 35 payload;
  dest_addr ← read_addr payload 1;
  reporter ← read_addr payload 17;
  mtu ← index_u16 payload 33;
  Ok (mkMtuExceeded dest_addr reporter mtu).
End MtuExceeded.

(** ** Session reports: the link reports' fields after two reserved bytes *)

Module SessionReports.
Definition SESSION_SENDER_REPORT_SIZE : nat := 46.
Definition SESSION_RECEIVER_REPORT_SIZE : nat := 66.

Definition encode_sender (self : SenderReport.SenderReport) : list Z :=
  [0; 0] ++ SenderReport.encode_fields self.

Definition decode_sender (body : list Z) : decoded SenderReport.SenderReport :=
  _ ← at_least SESSION_SENDER_REPORT_SIZE body;
  p ← slice_from body 2;
  SenderReport.decode_fields p.

Definition encode_receiver (self : ReceiverReport.ReceiverReport) : list Z :=
  [0; 0] ++ ReceiverReport.encode_fields self.

Definition decode_receiver (body : list Z) : decoded ReceiverReport.ReceiverReport :=
  _ ← at_least SESSION_RECEIVER_REPORT_SIZE body;
  p ← slice_from body 2;
  ReceiverReport.decode_fields p.
End SessionReports.

(** ** Discovery *)

Module LookupRequest.
Record LookupRequest := mkRequest {
  request_id : Z;
  target : NodeAddr;
  origin : NodeAddr;
  origin_coords : TreeCoordinate;
  ttl : Z;
  min_mtu : Z
}.

Definition forward (self : LookupRequest) : LookupRequest * bool :=
  if ttl self =? 0 then (self, false)
  else (mkRequest (request_id self) (target self) (origin self) (origin_coords self) (ttl self - 1)
          (min_mtu self), true).

Definition can_forward (self : LookupRequest) : bool := 0 <? ttl self.

Definition encode (self : LookupRequest) : list Z :=
  48 :: to_le_bytes 8 (request_id self) ++ NodeAddrOps.as_bytes (target self)
  ++ NodeAddrOps.as_bytes (origin self) ++ [ttl self] ++ to_le_bytes 2 (min_mtu self)
  ++ encode_coords (origin_coords self).

Definition decode (payload : list Z) : decoded LookupRequest :=
  _ ← at_least 45 payload;
  request_id ← read_le 8 payload 0;
  target ← read_addr payload 8;
  origin ← read_addr payload 24;
  ttl ← index payload 40;
  min_mtu ← read_le 2 payload 41;
  rest ← slice_from payload 43;
  '(origin_coords, _) ← decode_coords rest;
  Ok (mkRequest request_id target origin origin_coords ttl min_mtu).
End LookupRequest.

Module LookupResponse.
Record LookupResponse := mkResponse {
  request_id : Z;
  target : NodeAddr;
  path_mtu : Z;
  target_coords : TreeCoordinate;
  proof : list Z
}.

Definition new (request_id : Z) (target : NodeAddr) (target_coords : TreeCoordinate) (proof : list Z)
    : LookupResponse := mkResponse request_id target U16_MAX target_coords proof.

Definition proof_bytes (request_id : Z) (target : NodeAddr) (target_coords : TreeCoordinate) : list Z :=
  to_le_bytes 8 request_id ++ NodeAddrOps.as_bytes target ++ encode_coords target_coords.

Definition encode (self : LookupResponse) : list Z :=
  49 :: to_le_bytes 8 (request_id self) ++ NodeAddrOps.as_bytes (target self)
  ++ to_le_bytes 2 (path_mtu self) ++ encode_coords (target_coords self) ++ proof self.

Definition decode (sig_from_slice : list Z → option (list Z)) (payload : list Z) : decoded LookupResponse :=
  _ ← at_least 92 payload;
  request_id ← read_le 8 payload 0;
  target ← read_addr payload 8;
  path_mtu ← read_le 2 payload 24;
  rest ← slice_from payload 26;
  '(target_coords, consumed) ← decode_coords rest;
  let pos := (26 + consumed)%nat in
  _ ← at_least (pos + 64) payload;
  bytes ← slice payload pos (pos + 64);
  match sig_from_slice bytes with
  | None => Err Malformed
  | Some proof => Ok (mkResponse request_id target path_mtu target_coords proof)
  end.
End LookupResponse.

(** ** The common prefix and inner header *)

Module FspWire.
Definition FSP_COMMON_PREFIX_SIZE : nat := 4.
Definition FSP_INNER_HEADER_SIZE : nat := 6.
Definition FSP_PORT_HEADER_SIZE : nat := 4.
Definition FSP_FLAG_CP : Z := 1.
Definition FSP_FLAG_U : Z := 4.
Definition FSP_PHASE_MSG1 : Z := 1.
Definition FSP_PHASE_MSG2 : Z := 2.
Definition FSP_PHASE_MSG3 : Z := 3.

Definition fsp_endpoint_data_max_body_len : Z := U16_MAX - Z.of_nat FSP_INNER_HEADER_SIZE.
Definition fsp_service_datagram_max_body_len : Z :=
  fsp_endpoint_data_max_body_len - Z.of_nat FSP_PORT_HEADER_SIZE.

Record FspCommonPrefix := mkPrefix { phase : Z; flags : Z }.

Definition parse (data : list Z) : outcome Empty_set (option FspCommonPrefix) :=
  if (length data <? FSP_COMMON_PREFIX_SIZE)%nat then Ok None
  else
    b ← index data 0;
    flags ← index data 1;
    Ok (Some (mkPrefix (Z.land b 15) flags)).

Definition is_unencrypted (self : FspCommonPrefix) : bool := negb (Z.land (flags self) FSP_FLAG_U =? 0).
Definition has_coords (self : FspCommonPrefix) : bool := negb (Z.land (flags self) FSP_FLAG_CP =? 0).

Definition fsp_strip_inner_header (plaintext : list Z)
    : outcome Empty_set (option (Z * Z * Z * list Z)) :=
  if (length plaintext <? FSP_INNER_HEADER_SIZE)%nat then Ok None
  else
    ts ← slice plaintext 0 4;
    msg_type ← index plaintext 4;
    inner_flags ← index plaintext 5;
    rest ← slice_from plaintext FSP_INNER_HEADER_SIZE;
    Ok (Some (from_le_bytes ts, msg_type, inner_flags, rest)).

Definition parse_encrypted_coords (data : list Z)
    : decoded (option TreeCoordinate * option TreeCoordinate * nat) :=
  '(src_coords, src_consumed) ← decode_optional_coords data;
  rest ← slice_from data src_consumed;
  '(dest_coords, dest_consumed) ← decode_optional_coords rest;
  Ok (src_coords, dest_coords, (src_consumed + dest_consumed)%nat).
End FspWire.

(** ** Handshake classification *)

Module SessionHandshake.
Import FspWire.

Definition MAX_BOOTSTRAP_HANDSHAKE_BYTES : nat := 2048.
Definition TAG_SIZE : nat := 16.
Definition PUBKEY_SIZE : nat := 33.
Definition EPOCH_SIZE : nat := 8.
Definition EPOCH_ENCRYPTED_SIZE : nat := EPOCH_SIZE + TAG_SIZE.
Definition XK_HANDSHAKE_MSG1_SIZE : nat := PUBKEY_SIZE.
Definition XK_HANDSHAKE_MSG2_SIZE : nat := PUBKEY_SIZE + EPOCH_ENCRYPTED_SIZE.
Definition XK_HANDSHAKE_MSG3_SIZE : nat := PUBKEY_SIZE + TAG_SIZE + EPOCH_ENCRYPTED_SIZE.

Inductive t := Setup | Ack | Finish.

(** [.ok()?]: an error answers [None]. *)
Definition ok_or_none {A B} (m : decoded A) (k : A → option B) : outcome Empty_set (option B) :=
  match m with Ok a => Ok (k a) | Err _ => Ok None | Panic => Panic end.

Definition classify (payload : list Z) (source destination : NodeAddr) : outcome Empty_set (option t) :=
  if negb ((FSP_COMMON_PREFIX_SIZE <=? length payload)%nat
           && (length payload <=? MAX_BOOTSTRAP_HANDSHAKE_BYTES)%nat)
  then Ok None
  else
    body ← slice_from payload FSP_COMMON_PREFIX_SIZE;
    phase ← index payload 0;
    if phase =? FSP_PHASE_MSG1 then
      ok_or_none (SessionSetup.decode body) (λ message,
        if (length (SessionSetup.handshake_payload message) =? XK_HANDSHAKE_MSG1_SIZE)%nat
           && (TreeCoordinate.node_addr (SessionSetup.src_coords message) =? source)
           && (TreeCoordinate.node_addr (SessionSetup.dest_coords message) =? destination)
           && bool_decide (SessionSetup.encode message = payload)
        then Some Setup else None)
    else if phase =? FSP_PHASE_MSG2 then
      ok_or_none (SessionAck.decode body) (λ message,
        if (length (SessionAck.handshake_payload message) =? XK_HANDSHAKE_MSG2_SIZE)%nat
           && (Z.land (SessionAck.flags message) 251 =? 0)
           && (TreeCoordinate.node_addr (SessionAck.src_coords message) =? source)
           && (TreeCoordinate.node_addr (SessionAck.dest_coords message) =? destination)
           && bool_decide (SessionAck.encode message = payload)
        then Some Ack else None)
    else if phase =? FSP_PHASE_MSG3 then
      ok_or_none (SessionMsg3.decode body) (λ message,
        if (length (SessionMsg3.handshake_payload message) =? XK_HANDSHAKE_MSG3_SIZE)%nat
           && (SessionMsg3.flags message =? 0)
           && bool_decide (SessionMsg3.encode message = payload)
        then Some Finish else None)
    else Ok None.
End SessionHandshake.

(** ** Codec instances *)

(** A coordinate as the session layer writes it: addresses only. *)
Definition coords_wf (c : TreeCoordinate) : Prop :=
  c ≠ [] ∧ Forall (λ e, is_addr (entry_addr e) ∧ e = addr_only (entry_addr e)) c
  ∧ Z.of_nat (length c) ≤ U16_MAX.

Definition handshake_wf (hs : list Z) : Prop := Forall is_u8 hs ∧ Z.of_nat (length hs) ≤ U16_MAX.

#[export] Instance SessionSetup_wire : WireMessage SessionSetup.SessionSetup := {|
  wire_encode m := Ok (SessionSetup.encode m);
  wire_header := 4;
  wire_decode := SessionSetup.decode;
  wire_wf m := coords_wf (SessionSetup.src_coords m) ∧ coords_wf (SessionSetup.dest_coords m)
    ∧ handshake_wf (SessionSetup.handshake_payload m)
|}.

#[export] Instance SessionAck_wire : WireMessage SessionAck.SessionAck := {|
  wire_encode m := Ok (SessionAck.encode m);
  wire_header := 4;
  wire_decode := SessionAck.decode;
  wire_wf m := coords_wf (SessionAck.src_coords m) ∧ coords_wf (SessionAck.dest_coords m)
    ∧ is_u8 (SessionAck.flags m) ∧ handshake_wf (SessionAck.handshake_payload m)
|}.

#[export] Instance SessionMsg3_wire : WireMessage SessionMsg3.SessionMsg3 := {|
  wire_encode m := Ok (SessionMsg3.encode m);
  wire_header := 4;
  wire_decode := SessionMsg3.decode;
  wire_wf m := is_u8 (SessionMsg3.flags m) ∧ handshake_wf (SessionMsg3.handshake_payload m)
|}.

#[export] Instance PathMtuNotification_wire : WireMessage PathMtuNotification.PathMtuNotification := {|
  wire_encode m := Ok (PathMtuNotification.encode m);
  wire_header := 0;
  wire_decode := PathMtuNotification.decode;
  wire_wf m := is_u16 (PathMtuNotification.path_mtu m)
|}.

#[export] Instance CoordsRequired_wire : WireMessage CoordsRequired.CoordsRequired := {|
  wire_encode m := Ok (CoordsRequired.encode m);
  wire_header := 5;
  wire_decode := CoordsRequired.decode;
  wire_wf m := is_addr (CoordsRequired.dest_addr m) ∧ is_addr (CoordsRequired.reporter m)
|}.

#[export] Instance PathBroken_wire : WireMessage PathBroken.PathBroken := {|
  wire_encode m := Ok (PathBroken.encode m);
  wire_header := 5;
  wire_decode := PathBroken.decode;
  wire_wf m := is_addr (PathBroken.dest_addr m) ∧ is_addr (PathBroken.reporter m)
    ∧ match PathBroken.last_known_coords m with Some c => coords_wf c | None => True end
|}.

#[export] Instance MtuExceeded_wire : WireMessage MtuExceeded.MtuExceeded := {|
  wire_encode m := Ok (MtuExceeded.encode m);
  wire_header := 5;
  wire_decode := MtuExceeded.decode;
  wire_wf m := is_addr (MtuExceeded.dest_addr m) ∧ is_addr (MtuExceeded.reporter m)
    ∧ is_u16 (MtuExceeded.mtu m)
|}.

(** The session reports share their fields' type with the link reports. *)
Definition SessionSenderReport_wire : WireMessage SenderReport.SenderReport := {|
  wire_encode m := Ok (SessionReports.encode_sender m);
  wire_header := 0;
  wire_decode := SessionReports.decode_sender;
  wire_wf := SenderReport.wf
|}.

Definition SessionReceiverReport_wire : WireMessage ReceiverReport.ReceiverReport := {|
  wire_encode m := Ok (SessionReports.encode_receiver m);
  wire_header := 0;
  wire_decode := SessionReports.decode_receiver;
  wire_wf := ReceiverReport.wf
|}.

#[export] Instance LookupRequest_wire : WireMessage LookupRequest.LookupRequest := {|
  wire_encode m := Ok (LookupRequest.encode m);
  wire_header := 1;
  wire_decode := LookupRequest.decode;
  wire_wf m := is_u64 (LookupRequest.request_id m) ∧ is_addr (LookupRequest.target m)
    ∧ is_addr (LookupRequest.origin m) ∧ coords_wf (LookupRequest.origin_coords m)
    ∧ is_u8 (LookupRequest.ttl m) ∧ is_u16 (LookupRequest.min_mtu m)
|}.

Definition LookupResponse_wire (sig_from_slice : list Z → option (list Z)) :
    WireMessage LookupResponse.LookupResponse := {|
  wire_encode m := Ok (LookupResponse.encode m);
  wire_header := 1;
  wire_decode := LookupResponse.decode sig_from_slice;
  wire_wf m := is_u64 (LookupResponse.request_id m) ∧ is_addr (LookupResponse.target m)
    ∧ is_u16 (LookupResponse.path_mtu m) ∧ coords_wf (LookupResponse.target_coords m)
    ∧ length (LookupResponse.proof m) = 64%nat ∧ Forall is_u8 (LookupResponse.proof m)
    ∧ sig_from_slice (LookupResponse.proof m) = Some (LookupResponse.proof m)
|}.

(** ** Reading coordinates back *)

Section coords.

Lemma addrs_cons a addrs :
  mjoin (NodeAddrOps.as_bytes <$> a :: addrs) = NodeAddrOps.as_bytes a ++ mjoin (NodeAddrOps.as_bytes <$> addrs).
Proof. done. Qed.

Lemma length_addrs addrs : length (mjoin (NodeAddrOps.as_bytes <$> addrs)) = (16 * length addrs)%nat.
Proof.
  induction addrs as [|a addrs IH]; [done|]. rewrite addrs_cons, length_app, length_as_bytes, IH.
  cbn [length]. lia.
Qed.

Lemma length_encode_coords c : length (encode_coords c) = coords_wire_size c.
Proof.
  unfold encode_coords, coords_wire_size, TreeCoordinate.node_addrs.
  rewrite length_app, length_to_le_bytes, length_addrs, length_fmap. lia.
Qed.

Lemma encode_coords_u8 c : Forall is_u8 (encode_coords c).
Proof.
  unfold encode_coords. apply Forall_app_2; [apply to_le_bytes_u8|].
  induction (TreeCoordinate.node_addrs c) as [|a addrs IH]; [constructor|].
  rewrite addrs_cons. apply Forall_app_2; [apply as_bytes_u8|done].
Qed.

Lemma read_addrs_written addrs : ∀ pre suf i, length pre = (2 + i * 16)%nat → Forall is_addr addrs →
  read_addrs (pre ++ mjoin (NodeAddrOps.as_bytes <$> addrs) ++ suf) i (length addrs) = Ok addrs.
Proof.
  induction addrs as [|a addrs IH]; intros pre suf i Hpre Ha; [done|].
  apply Forall_cons in Ha as [Ha Has]. cbn [length read_addrs]. rewrite addrs_cons, <- !app_assoc.
  rewrite read_addr_skip by lia. rewrite Hpre, Nat.sub_diag, read_addr_here by done. cbn [mbind outcome_bind].
  rewrite (app_assoc pre). rewrite IH; [done| |done]. rewrite length_app, length_as_bytes. lia.
Qed.

Lemma read_addrs_ok data count : ∀ i, (2 + (i + count) * 16 ≤ length data)%nat →
  ∃ addrs, read_addrs data i count = Ok addrs ∧ length addrs = count.
Proof.
  induction count as [|count IH]; intros i Hlen; cbn [read_addrs]; [by exists []|].
  destruct (read_addr_ok data (2 + i * 16)) as [a ->]; [lia|]. cbn [mbind outcome_bind].
  destruct (IH (S i)) as (addrs & -> & Hl); [lia|]. cbn [mbind outcome_bind]. eexists. split; [done|].
  cbn [length]. lia.
Qed.

(** The count and the addresses both coordinate decoders read. *)
Lemma read_coords_written c rest : coords_wf c →
  index_u16 (encode_coords c ++ rest) 0 = Ok (Z.of_nat (length c))
  ∧ read_addrs (encode_coords c ++ rest) 0 (length c) = Ok (TreeCoordinate.node_addrs c)
  ∧ TreeCoordinate.from_addrs (TreeCoordinate.node_addrs c) = Ok c.
Proof.
  intros (Hne & Hc & Hlen). unfold encode_coords, TreeCoordinate.node_addrs. rewrite length_fmap, <- app_assoc.
  assert (is_u16 (Z.of_nat (length c))) by mlia. split_and!.
  - by wire_read.
  - rewrite <- (length_fmap entry_addr c) at 2. apply read_addrs_written; [apply length_to_le_bytes|].
    apply Forall_fmap. eapply Forall_impl; [exact Hc|]. by intros ? [? _].
  - assert (addr_only <$> (entry_addr <$> c) = c) as Heq.
    { clear -Hc. induction Hc as [|e c [_ He] _ IH]; [done|]. rewrite !fmap_cons, IH. by rewrite <- He. }
    unfold TreeCoordinate.from_addrs. destruct (entry_addr <$> c) eqn:Hm; [by apply fmap_nil_inv in Hm|].
    by rewrite Heq.
Qed.

Lemma decode_coords_written c rest : coords_wf c →
  decode_coords (encode_coords c ++ rest) = Ok (c, coords_wire_size c).
Proof.
  intros Hwf. destruct (read_coords_written c rest Hwf) as (H1 & H2 & H3). destruct Hwf as (Hne & _ & _).
  assert (length c ≠ 0%nat) by (by destruct c).
  unfold decode_coords. rewrite at_least_ok by (rewrite length_app, length_encode_coords; unfold coords_wire_size; lia).
  cbn [mbind outcome_bind]. rewrite H1. cbn [mbind outcome_bind]. rewrite Nat2Z.id.
  rewrite at_least_ok by (rewrite length_app, length_encode_coords; unfold coords_wire_size; lia).
  cbn [mbind outcome_bind]. rewrite (proj2 (Nat.eqb_neq _ _)) by done. rewrite H2.
  cbn [mbind outcome_bind]. by rewrite H3.
Qed.

Lemma decode_optional_written c rest : coords_wf c →
  decode_optional_coords (encode_coords c ++ rest) = Ok (Some c, coords_wire_size c).
Proof.
  intros Hwf. destruct (read_coords_written c rest Hwf) as (H1 & H2 & H3). destruct Hwf as (Hne & _ & _).
  assert (length c ≠ 0%nat) by (by destruct c).
  unfold decode_optional_coords.
  rewrite at_least_ok by (rewrite length_app, length_encode_coords; unfold coords_wire_size; lia).
  cbn [mbind outcome_bind]. rewrite H1. cbn [mbind outcome_bind]. rewrite Nat2Z.id.
  rewrite at_least_ok by (rewrite length_app, length_encode_coords; unfold coords_wire_size; lia).
  cbn [mbind outcome_bind]. rewrite (proj2 (Nat.eqb_neq _ _)) by done. rewrite H2.
  cbn [mbind outcome_bind]. by rewrite H3.
Qed.

(** A decoded coordinate consumes bytes that are there. *)
Lemma decode_coords_cases data :
  (∃ c n, decode_coords data = Ok (c, n) ∧ (n ≤ length data)%nat) ∨ (∃ e, decode_coords data = Err e).
Proof.
  unfold decode_coords. destruct (at_least_cases 2 data) as [[-> ?]| ->]; [|right; by eexists].
  cbn [mbind outcome_bind]. rewrite index_u16_read. destruct (read_le_ok 2 data 0) as [c ->]; [lia|].
  cbn [mbind outcome_bind]. destruct (at_least_cases (2 + Z.to_nat c * 16) data) as [[-> ?]| ->]; [|right; by eexists].
  cbn [mbind outcome_bind]. destruct (Z.to_nat c =? 0)%nat eqn:Hc; [right; by eexists|].
  destruct (read_addrs_ok data (Z.to_nat c) 0) as (addrs & -> & Hl); [lia|]. cbn [mbind outcome_bind].
  apply Nat.eqb_neq in Hc. destruct addrs as [|a addrs]; [simpl in Hl; lia|]. left. by eexists _, _.
Qed.

Lemma decode_optional_cases data :
  (∃ c n, decode_optional_coords data = Ok (c, n) ∧ (n ≤ length data)%nat)
  ∨ (∃ e, decode_optional_coords data = Err e).
Proof.
  unfold decode_optional_coords. destruct (at_least_cases 2 data) as [[-> ?]| ->]; [|right; by eexists].
  cbn [mbind outcome_bind]. rewrite index_u16_read. destruct (read_le_ok 2 data 0) as [c ->]; [lia|].
  cbn [mbind outcome_bind]. destruct (at_least_cases (2 + Z.to_nat c * 16) data) as [[-> ?]| ->]; [|right; by eexists].
  cbn [mbind outcome_bind]. destruct (Z.to_nat c =? 0)%nat eqn:Hc; [left; by eexists _, _|].
  destruct (read_addrs_ok data (Z.to_nat c) 0) as (addrs & -> & Hl); [lia|]. cbn [mbind outcome_bind].
  apply Nat.eqb_neq in Hc. destruct addrs as [|a addrs]; [simpl in Hl; lia|]. left. by eexists _, _.
Qed.

Lemma decode_handshake_written pre hs n : length pre = n → handshake_wf hs →
  decode_handshake (pre ++ encode_handshake hs) n = Ok hs.
Proof.
  intros Hn [_ Hlen]. assert (is_u16 (Z.of_nat (length hs))) by mlia. unfold decode_handshake, encode_handshake.
  rewrite at_least_ok by (wire_len; lia). cbn [mbind outcome_bind].
  rewrite index_u16_read, read_le_skip by lia. rewrite Hn, Nat.sub_diag. wire_read. rewrite Nat2Z.id.
  rewrite at_least_ok by (wire_len; lia). cbn [mbind outcome_bind].
  rewrite app_assoc, slice_app_skip by (wire_len; lia). wire_len. rewrite Hn.
  replace (n + 2 - (n + 2))%nat with 0%nat by lia.
  replace (n + 2 + length hs - (n + 2))%nat with (length hs) by lia. by apply slice_all.
Qed.

Lemma decode_handshake_total p n : decode_handshake p n ≠ Panic.
Proof.
  unfold decode_handshake. destruct (at_least_cases (n + 2) p) as [[-> ?]| ->]; [|done].
  cbn [mbind outcome_bind]. rewrite index_u16_read. destruct (read_le_ok 2 p n) as [l ->]; [lia|].
  cbn [mbind outcome_bind].
  destruct (at_least_cases (n + 2 + Z.to_nat l) p) as [[-> ?]| ->]; [|done]. cbn [mbind outcome_bind].
  by destruct (@slice_ok ProtocolError p (n + 2) (n + 2 + Z.to_nat l)) as [-> _]; [lia|].
Qed.

Lemma handshake_u8 hs : handshake_wf hs → Forall is_u8 (encode_handshake hs).
Proof. intros [? _]. unfold encode_handshake. wire_bytes. Qed.
End coords.

(** ** Lawful codecs *)

Section laws.

Lemma drop_fsp_prefix v f body : drop 4 (fsp_prefix v f body) = body.
Proof. done. Qed.

Lemma fsp_prefix_u8 v f body : is_u8 v → is_u8 f → Forall is_u8 body → Forall is_u8 (fsp_prefix v f body).
Proof. intros. unfold fsp_prefix. wire_bytes. Qed.

Lemma session_flags_roundtrip f : SessionFlags.from_byte (SessionFlags.to_byte f) = f.
Proof. by destruct f as [[] [] []]. Qed.

Lemma session_flags_u8 f : is_u8 (SessionFlags.to_byte f).
Proof. destruct f as [[] [] []]; vm_compute; split; discriminate. Qed.

(** What both handshake decoders read of a body with two coordinates. *)
Lemma handshake_body_reads b src dst hs : coords_wf src → coords_wf dst → handshake_wf hs →
  let p := b :: encode_coords src ++ encode_coords dst ++ encode_handshake hs in
  (length p =? 0)%nat = false ∧ @index ProtocolError p 0 = Ok b
  ∧ (∃ r1 r2, @slice_from ProtocolError p 1 = Ok r1 ∧ decode_coords r1 = Ok (src, coords_wire_size src)
      ∧ @slice_from ProtocolError p (1 + coords_wire_size src) = Ok r2
      ∧ decode_coords r2 = Ok (dst, coords_wire_size dst))
  ∧ decode_handshake p (1 + coords_wire_size src + coords_wire_size dst) = Ok hs.
Proof.
  intros Hs Hd Hh p. split_and!; [done|done| |].
  - exists (encode_coords src ++ encode_coords dst ++ encode_handshake hs), (encode_coords dst ++ encode_handshake hs).
    split_and!; [done|by apply decode_coords_written| |by apply decode_coords_written].
    unfold p. rewrite app_comm_cons. apply slice_from_app. cbn [length]. by rewrite length_encode_coords.
  - unfold p. rewrite app_comm_cons, app_assoc. apply decode_handshake_written; [|done].
    rewrite length_app. cbn [length]. by rewrite !length_encode_coords.
Qed.

Lemma handshake_body_u8 b src dst hs : is_u8 b → handshake_wf hs →
  Forall is_u8 (b :: encode_coords src ++ encode_coords dst ++ encode_handshake hs).
Proof. intros. wire_bytes; [apply encode_coords_u8|apply encode_coords_u8|by apply handshake_u8]. Qed.

(** Steps through a coordinate decoder. *)
Ltac coords_safe :=
  match goal with
  | |- context [decode_coords ?d] =>
      let c := fresh "c" in let n := fresh "n" in let Hn := fresh "Hn" in
      destruct (decode_coords_cases d) as [(c & n & -> & Hn)|[? ->]]; [|done]
  | |- context [decode_optional_coords ?d] =>
      let c := fresh "c" in let n := fresh "n" in let Hn := fresh "Hn" in
      destruct (decode_optional_cases d) as [(c & n & -> & Hn)|[? ->]]; [|done]
  end; rewrite ?length_drop in *; cbn [mbind outcome_bind].

#[export] Instance SessionSetup_lawful : LawfulMessage SessionSetup.SessionSetup.
Proof.
  split.
  - intros [src dst f hs] (Hs & Hd & Hh). cbn in Hs, Hd, Hh. eexists. split; [done|].
    cbn [wire_header wire_decode SessionSetup_wire]. unfold SessionSetup.encode, SessionSetup.body.
    cbn [SessionSetup.flags SessionSetup.src_coords SessionSetup.dest_coords SessionSetup.handshake_payload].
    split; [apply fsp_prefix_u8; [mlia|mlia|apply handshake_body_u8; [apply session_flags_u8|done]]|].
    rewrite drop_fsp_prefix. unfold SessionSetup.decode.
    destruct (handshake_body_reads (SessionFlags.to_byte f) src dst hs Hs Hd Hh)
      as (-> & -> & (r1 & r2 & H1 & H2 & H3 & H4) & H5).
    cbn [mbind outcome_bind]. rewrite H1. cbn [mbind outcome_bind]. rewrite H2. cbn [mbind outcome_bind].
    rewrite H3. cbn [mbind outcome_bind]. rewrite H4. cbn [mbind outcome_bind]. rewrite H5.
    cbn [mbind outcome_bind]. by rewrite session_flags_roundtrip.
  - intros p. cbn [wire_decode SessionSetup_wire]. unfold SessionSetup.decode.
    destruct (Nat.eqb_spec (length p) 0); [done|]. wire_safe. coords_safe. wire_safe. coords_safe.
    match goal with |- context [decode_handshake ?q ?m] =>
      pose proof (decode_handshake_total q m); by destruct (decode_handshake q m) end.
Qed.

#[export] Instance SessionAck_lawful : LawfulMessage SessionAck.SessionAck.
Proof.
  split.
  - intros [src dst f hs] (Hs & Hd & Hf & Hh). cbn in Hs, Hd, Hf, Hh. eexists. split; [done|].
    cbn [wire_header wire_decode SessionAck_wire]. unfold SessionAck.encode, SessionAck.body.
    cbn [SessionAck.flags SessionAck.src_coords SessionAck.dest_coords SessionAck.handshake_payload].
    split; [apply fsp_prefix_u8; [mlia|mlia|by apply handshake_body_u8]|].
    rewrite drop_fsp_prefix. unfold SessionAck.decode.
    destruct (handshake_body_reads f src dst hs Hs Hd Hh) as (-> & -> & (r1 & r2 & H1 & H2 & H3 & H4) & H5).
    cbn [mbind outcome_bind]. rewrite H1. cbn [mbind outcome_bind]. rewrite H2. cbn [mbind outcome_bind].
    rewrite H3. cbn [mbind outcome_bind]. rewrite H4. cbn [mbind outcome_bind]. by rewrite H5.
  - intros p. cbn [wire_decode SessionAck_wire]. unfold SessionAck.decode.
    destruct (Nat.eqb_spec (length p) 0); [done|]. wire_safe. coords_safe. wire_safe. coords_safe.
    match goal with |- context [decode_handshake ?q ?m] =>
      pose proof (decode_handshake_total q m); by destruct (decode_handshake q m) end.
Qed.

#[export] Instance SessionMsg3_lawful : LawfulMessage SessionMsg3.SessionMsg3.
Proof.
  split.
  - intros [f hs] (Hf & Hh). cbn in Hf, Hh. eexists. split; [done|].
    cbn [wire_header wire_decode SessionMsg3_wire]. unfold SessionMsg3.encode, SessionMsg3.body.
    cbn [SessionMsg3.flags SessionMsg3.handshake_payload].
    split; [apply fsp_prefix_u8; [mlia|mlia|constructor; [done|by apply handshake_u8]]|].
    rewrite drop_fsp_prefix. unfold SessionMsg3.decode. cbn [length Nat.eqb index lookup list_lookup mbind outcome_bind].
    change (f :: encode_handshake hs) with ([f] ++ encode_handshake hs).
    by rewrite decode_handshake_written.
  - intros p. cbn [wire_decode SessionMsg3_wire]. unfold SessionMsg3.decode.
    destruct (Nat.eqb_spec (length p) 0); [done|]. wire_safe.
    pose proof (decode_handshake_total p 1). by destruct (decode_handshake p 1).
Qed.

#[export] Instance PathMtuNotification_lawful : LawfulMessage PathMtuNotification.PathMtuNotification.
Proof.
  split.
  - intros [mtu] Hm. cbn in Hm. eexists. split; [done|].
    cbn [wire_header wire_decode PathMtuNotification_wire]. unfold PathMtuNotification.encode, PathMtuNotification.decode.
    cbn [PathMtuNotification.path_mtu]. split; [wire_bytes|]. rewrite drop_0.
    rewrite at_least_ok by (wire_len; unfold PathMtuNotification.PATH_MTU_NOTIFICATION_SIZE; lia). by wire_read.
  - intros p. cbn [wire_decode PathMtuNotification_wire].
    unfold PathMtuNotification.decode, PathMtuNotification.PATH_MTU_NOTIFICATION_SIZE. by wire_safe.
Qed.

#[export] Instance CoordsRequired_lawful : LawfulMessage CoordsRequired.CoordsRequired.
Proof.
  split.
  - intros [d r] [Hd Hr]. cbn in Hd, Hr. eexists. split; [done|].
    cbn [wire_header wire_decode CoordsRequired_wire]. unfold CoordsRequired.encode, CoordsRequired.decode.
    cbn [CoordsRequired.dest_addr CoordsRequired.reporter SessionMessageType.to_byte app].
    split; [wire_bytes|].
    replace (drop 5 _) with (0 :: NodeAddrOps.as_bytes d ++ NodeAddrOps.as_bytes r) by done.
    rewrite at_least_ok by (wire_len; lia). by wire_read.
  - intros p. cbn [wire_decode CoordsRequired_wire]. unfold CoordsRequired.decode. by wire_safe.
Qed.

#[export] Instance MtuExceeded_lawful : LawfulMessage MtuExceeded.MtuExceeded.
Proof.
  split.
  - intros [d r m] (Hd & Hr & Hm). cbn in Hd, Hr, Hm. eexists. split; [done|].
    cbn [wire_header wire_decode MtuExceeded_wire]. unfold MtuExceeded.encode, MtuExceeded.decode.
    cbn [MtuExceeded.dest_addr MtuExceeded.reporter MtuExceeded.mtu SessionMessageType.to_byte app].
    split; [wire_bytes|].
    replace (drop 5 _) with (0 :: NodeAddrOps.as_bytes d ++ NodeAddrOps.as_bytes r ++ to_le_bytes 2 m) by done.
    rewrite at_least_ok by (wire_len; lia). by wire_read.
  - intros p. cbn [wire_decode MtuExceeded_wire]. unfold MtuExceeded.decode. by wire_safe.
Qed.

#[export] Instance PathBroken_lawful : LawfulMessage PathBroken.PathBroken.
Proof.
  split.
  - intros [d r c] (Hd & Hr & Hc). cbn in Hd, Hr, Hc. eexists. split; [done|].
    cbn [wire_header wire_decode PathBroken_wire]. unfold PathBroken.encode, PathBroken.decode.
    cbn [PathBroken.dest_addr PathBroken.reporter PathBroken.last_known_coords SessionMessageType.to_byte].
    set (cs := match c with Some _ => _ | None => _ end).
    assert (Forall is_u8 cs ∧ (2 ≤ length cs)%nat ∧ ∃ n, decode_optional_coords cs = Ok (c, n)) as (Hu & Hl & n & Hdec).
    { destruct c as [c|]; unfold cs.
      - split; [apply encode_coords_u8|]. rewrite length_encode_coords. unfold coords_wire_size.
        split; [lia|]. eexists. rewrite <- (app_nil_r (encode_coords c)). by apply decode_optional_written.
      - split; [apply to_le_bytes_u8|]. split; [done|]. by eexists. }
    split; [apply fsp_prefix_u8; [mlia|mlia|cbn [app]; wire_bytes]|].
    replace (drop 5 _) with (0 :: NodeAddrOps.as_bytes d ++ NodeAddrOps.as_bytes r ++ cs) by done.
    rewrite at_least_ok by (wire_len; lia). wire_read. by rewrite Hdec.
  - intros p. cbn [wire_decode PathBroken_wire]. unfold PathBroken.decode. wire_safe. by coords_safe.
Qed.

Lemma SessionSenderReport_lawful :
  LawfulMessage SenderReport.SenderReport (WireMessage0 := SessionSenderReport_wire).
Proof.
  split.
  - intros m Hm. eexists. split; [done|]. destruct (sender_fields_bytes m) as [Hb Hl].
    cbn [wire_header wire_decode SessionSenderReport_wire].
    unfold SessionReports.encode_sender, SessionReports.decode_sender, SessionReports.SESSION_SENDER_REPORT_SIZE.
    cbn [app]. split; [wire_bytes|]. rewrite drop_0, at_least_ok by (wire_len; lia). wire_read.
    by apply sender_fields_roundtrip.
  - intros p. cbn [wire_decode SessionSenderReport_wire].
    unfold SessionReports.decode_sender, SessionReports.SESSION_SENDER_REPORT_SIZE. wire_safe.
    apply sender_fields_total. rewrite length_drop. lia.
Qed.

Lemma SessionReceiverReport_lawful :
  LawfulMessage ReceiverReport.ReceiverReport (WireMessage0 := SessionReceiverReport_wire).
Proof.
  split.
  - intros m Hm. eexists. split; [done|]. destruct (receiver_fields_bytes m) as [Hb Hl].
    cbn [wire_header wire_decode SessionReceiverReport_wire].
    unfold SessionReports.encode_receiver, SessionReports.decode_receiver,
      SessionReports.SESSION_RECEIVER_REPORT_SIZE.
    cbn [app]. split; [wire_bytes|]. rewrite drop_0, at_least_ok by (wire_len; lia). wire_read.
    by apply receiver_fields_roundtrip.
  - intros p. cbn [wire_decode SessionReceiverReport_wire].
    unfold SessionReports.decode_receiver, SessionReports.SESSION_RECEIVER_REPORT_SIZE. wire_safe.
    apply receiver_fields_total. rewrite length_drop. lia.
Qed.

#[export] Instance LookupRequest_lawful : LawfulMessage LookupRequest.LookupRequest.
Proof.
  split.
  - intros [i t o c l m] (Hi & Ht & Ho & Hc & Hl & Hm). cbn in Hi, Ht, Ho, Hc, Hl, Hm. eexists. split; [done|].
    cbn [wire_header wire_decode LookupRequest_wire]. unfold LookupRequest.encode, LookupRequest.decode.
    cbn [LookupRequest.request_id LookupRequest.target LookupRequest.origin LookupRequest.origin_coords
      LookupRequest.ttl LookupRequest.min_mtu app drop]. rewrite drop_0.
    split; [wire_bytes; apply encode_coords_u8|].
    rewrite at_least_ok by (wire_len; rewrite length_encode_coords; unfold coords_wire_size; lia).
    wire_read. cbn [index lookup list_lookup mbind outcome_bind]. wire_read.
    rewrite <- (app_nil_r (encode_coords c)), decode_coords_written by done. done.
  - intros p. cbn [wire_decode LookupRequest_wire]. unfold LookupRequest.decode. wire_safe. by coords_safe.
Qed.

Lemma LookupResponse_lawful sig_from_slice :
  LawfulMessage LookupResponse.LookupResponse (WireMessage0 := LookupResponse_wire sig_from_slice).
Proof.
  split.
  - intros [i t m c pr] (Hi & Ht & Hm & Hc & Hl & Hu & Hsf). cbn in Hi, Ht, Hm, Hc, Hl, Hu, Hsf. eexists. split; [done|].
    cbn [wire_header wire_decode LookupResponse_wire]. unfold LookupResponse.encode, LookupResponse.decode.
    cbn [LookupResponse.request_id LookupResponse.target LookupResponse.path_mtu LookupResponse.target_coords
      LookupResponse.proof drop]. rewrite drop_0.
    split; [wire_bytes; apply encode_coords_u8|].
    rewrite at_least_ok by (wire_len; rewrite length_encode_coords; unfold coords_wire_size; lia).
    wire_read. rewrite decode_coords_written by done. cbn [mbind outcome_bind].
    rewrite at_least_ok by (wire_len; rewrite length_encode_coords; lia). cbn [mbind outcome_bind].
    rewrite !app_assoc, slice_app_skip by (wire_len; rewrite length_encode_coords; lia).
    wire_len. rewrite length_encode_coords.
    replace (26 + coords_wire_size c - (8 + 16 + 2 + coords_wire_size c))%nat with 0%nat by lia.
    replace (26 + coords_wire_size c + 64 - (8 + 16 + 2 + coords_wire_size c))%nat with 64%nat by lia.
    rewrite slice_all by done. cbn [mbind outcome_bind]. by rewrite Hsf.
  - intros p. cbn [wire_decode LookupResponse_wire]. unfold LookupResponse.decode. wire_safe. coords_safe.
    wire_safe. destruct (@slice_ok ProtocolError p (26 + n) (26 + n + 64)) as [-> _]; [lia|].
    cbn [mbind outcome_bind]. by destruct (sig_from_slice _).
Qed.
End laws.

(** ** What a decoder returns is well formed *)

Section decoded_wf.

Lemma slice_inv {E} p i j (b : list Z) : @slice E p i j = Ok b → Forall is_u8 p →
  Forall is_u8 b ∧ length b = (j - i)%nat.
Proof.
  unfold slice. destruct (Nat.leb_spec i j), (Nat.leb_spec j (length p)); cbn [andb]; try discriminate.
  intros [= <-] Hp. split; [by apply Forall_take, Forall_drop|]. rewrite length_take, length_drop. lia.
Qed.

Lemma read_addr_wf p i a : read_addr p i = Ok a → Forall is_u8 p → is_addr a.
Proof.
  unfold read_addr. destruct (slice p i (i + 16)) as [b| |] eqn:Hs; cbn; [|done|done].
  intros [= <-] Hp. destruct (slice_inv _ _ _ _ Hs Hp) as [? Hl]. apply from_bytes_is_addr; [lia|done].
Qed.

Lemma read_le_wf n p i x : read_le n p i = Ok x → Forall is_u8 p → 0 ≤ x < 2 ^ (8 * Z.of_nat n).
Proof.
  unfold read_le. destruct (slice p i (i + n)) as [b| |] eqn:Hs; cbn [mbind outcome_bind]; [|done|done].
  intros [= <-] Hp. destruct (slice_inv _ _ _ _ Hs Hp) as [Hb Hl].
  replace n with (length b) by lia. by apply from_le_bytes_bound.
Qed.

Lemma read_addrs_wf data count : ∀ i addrs, read_addrs data i count = Ok addrs → Forall is_u8 data →
  Forall is_addr addrs ∧ length addrs = count.
Proof.
  induction count as [|count IH]; intros i addrs; cbn [read_addrs]; [by intros [= <-]|].
  destruct (read_addr data (2 + i * 16)) as [a| |] eqn:Ha; cbn [mbind outcome_bind]; [|done|done].
  destruct (read_addrs data (S i) count) as [l| |] eqn:Hl; cbn [mbind outcome_bind]; [|done|done].
  intros [= <-] Hd. destruct (IH _ _ Hl Hd) as [? Hlen]. split; [|cbn [length]; lia].
  constructor; [|done]. by eapply read_addr_wf.
Qed.

Lemma decode_coords_wf data c n : decode_coords data = Ok (c, n) → Forall is_u8 data → coords_wf c.
Proof.
  unfold decode_coords. destruct (at_least_cases 2 data) as [[-> ?]| ->]; [|done]. cbn [mbind outcome_bind].
  rewrite index_u16_read. destruct (read_le 2 data 0) as [k| |] eqn:Hk; cbn [mbind outcome_bind]; [|done|done].
  destruct (at_least_cases (2 + Z.to_nat k * 16) data) as [[-> ?]| ->]; [|done]. cbn [mbind outcome_bind].
  destruct (Nat.eqb_spec (Z.to_nat k) 0); [done|].
  destruct (read_addrs data 0 (Z.to_nat k)) as [addrs| |] eqn:Ha; cbn [mbind outcome_bind]; [|done|done].
  intros Hc Hd. destruct (read_addrs_wf _ _ _ _ Ha Hd) as [Has Hlen].
  apply read_le_wf in Hk; [|done]. change (2 ^ (8 * Z.of_nat 2)) with 65536 in Hk.
  destruct addrs as [|a addrs]; [simpl in Hlen; lia|].
  assert (c = addr_only <$> a :: addrs) as -> by (injection Hc as Hc _; symmetry; exact Hc).
  split; [done|]. split.
  - apply Forall_fmap. eapply Forall_impl; [exact Has|]. by intros x Hx.
  - rewrite length_fmap, Hlen. mlia.
Qed.

Lemma decode_handshake_wf p n hs : decode_handshake p n = Ok hs → Forall is_u8 p → handshake_wf hs.
Proof.
  unfold decode_handshake. destruct (at_least_cases (n + 2) p) as [[-> ?]| ->]; [|done]. cbn [mbind outcome_bind].
  rewrite index_u16_read. destruct (read_le 2 p n) as [k| |] eqn:Hk; cbn [mbind outcome_bind]; [|done|done].
  destruct (at_least_cases (n + 2 + Z.to_nat k) p) as [[-> ?]| ->]; [|done]. cbn [mbind outcome_bind].
  intros Hs Hp. destruct (slice_inv _ _ _ _ Hs Hp) as [? Hl]. split; [done|].
  apply read_le_wf in Hk; [|done]. change (2 ^ (8 * Z.of_nat 2)) with 65536 in Hk. mlia.
Qed.

Lemma index_wf {E} p i (x : Z) : @index E p i = Ok x → Forall is_u8 p → is_u8 x.
Proof.
  unfold index. destruct (p !! i) eqn:Hi; [|done]. intros [= <-] Hp. by eapply Forall_lookup_1.
Qed.

Lemma slice_from_inv {E} p i (b : list Z) : @slice_from E p i = Ok b → Forall is_u8 p → Forall is_u8 b.
Proof. unfold slice_from. destruct (_ <=? _)%nat; [|done]. intros [= <-] ?. by apply Forall_drop. Qed.

Lemma setup_decoded_wf p m : SessionSetup.decode p = Ok m → Forall is_u8 p → wire_wf m.
Proof.
  unfold SessionSetup.decode. intros Hd Hp. destruct (length p =? 0)%nat; [done|].
  destruct (index p 0) as [b| |] eqn:?; cbn [mbind outcome_bind] in Hd; [|done|done].
  destruct (slice_from p 1) as [r1| |] eqn:?; cbn [mbind outcome_bind] in Hd; [|done|done].
  destruct (decode_coords r1) as [[src n1]| |] eqn:?; cbn [mbind outcome_bind] in Hd; [|done|done].
  destruct (slice_from p (1 + n1)) as [r2| |] eqn:?; cbn [mbind outcome_bind] in Hd; [|done|done].
  destruct (decode_coords r2) as [[dst n2]| |] eqn:?; cbn [mbind outcome_bind] in Hd; [|done|done].
  destruct (decode_handshake p (1 + n1 + n2)) as [hs| |] eqn:?; cbn [mbind outcome_bind] in Hd; [|done|done].
  injection Hd as <-. cbn. eauto 10 using decode_coords_wf, decode_handshake_wf, slice_from_inv.
Qed.

Lemma ack_decoded_wf p m : SessionAck.decode p = Ok m → Forall is_u8 p → wire_wf m.
Proof.
  unfold SessionAck.decode. intros Hd Hp. destruct (length p =? 0)%nat; [done|].
  destruct (index p 0) as [b| |] eqn:?; cbn [mbind outcome_bind] in Hd; [|done|done].
  destruct (slice_from p 1) as [r1| |] eqn:?; cbn [mbind outcome_bind] in Hd; [|done|done].
  destruct (decode_coords r1) as [[src n1]| |] eqn:?; cbn [mbind outcome_bind] in Hd; [|done|done].
  destruct (slice_from p (1 + n1)) as [r2| |] eqn:?; cbn [mbind outcome_bind] in Hd; [|done|done].
  destruct (decode_coords r2) as [[dst n2]| |] eqn:?; cbn [mbind outcome_bind] in Hd; [|done|done].
  destruct (decode_handshake p (1 + n1 + n2)) as [hs| |] eqn:?; cbn [mbind outcome_bind] in Hd; [|done|done].
  injection Hd as <-. cbn. eauto 10 using decode_coords_wf, decode_handshake_wf, slice_from_inv, index_wf.
Qed.

Lemma msg3_decoded_wf p m : SessionMsg3.decode p = Ok m → Forall is_u8 p → wire_wf m.
Proof.
  unfold SessionMsg3.decode. intros Hd Hp. destruct (length p =? 0)%nat; [done|].
  destruct (index p 0) as [b| |] eqn:?; cbn [mbind outcome_bind] in Hd; [|done|done].
  destruct (decode_handshake p 1) as [hs| |] eqn:?; cbn [mbind outcome_bind] in Hd; [|done|done].
  injection Hd as <-. cbn. eauto using decode_handshake_wf, index_wf.
Qed.
End decoded_wf.

(** ** Properties *)

(** The canonical handshake envelopes between two nodes. *)
Definition canonical (k : SessionHandshake.t) (payload : list Z) (source destination : NodeAddr) : Prop :=
  (length payload ≤ SessionHandshake.MAX_BOOTSTRAP_HANDSHAKE_BYTES)%nat ∧
  match k with
  | SessionHandshake.Setup => ∃ m, wire_wf m ∧ payload = SessionSetup.encode m
      ∧ length (SessionSetup.handshake_payload m) = 33%nat
      ∧ TreeCoordinate.node_addr (SessionSetup.src_coords m) = source
      ∧ TreeCoordinate.node_addr (SessionSetup.dest_coords m) = destination
  | SessionHandshake.Ack => ∃ m, wire_wf m ∧ payload = SessionAck.encode m
      ∧ length (SessionAck.handshake_payload m) = 57%nat ∧ Z.land (SessionAck.flags m) 251 = 0
      ∧ TreeCoordinate.node_addr (SessionAck.src_coords m) = source
      ∧ TreeCoordinate.node_addr (SessionAck.dest_coords m) = destination
  | SessionHandshake.Finish => ∃ m, wire_wf m ∧ payload = SessionMsg3.encode m
      ∧ length (SessionMsg3.handshake_payload m) = 73%nat ∧ SessionMsg3.flags m = 0
  end.

Section classification.
Import SessionHandshake.

Definition phase_of (k : t) : Z := match k with Setup => 1 | Ack => 2 | Finish => 3 end.

Lemma canonical_head k payload s d : canonical k payload s d →
  payload !! 0%nat = Some (phase_of k) ∧ (4 ≤ length payload ≤ 2048)%nat.
Proof.
  intros [Hlen Hk].
  assert (∀ v f b, (4 ≤ length (fsp_prefix v f b))%nat) by (intros; cbn; lia).
  destruct k; destruct Hk as (m & _ & -> & _); (split; [done|]); (split; [apply H|exact Hlen]).
Qed.

Lemma setup_classified payload s d : Forall is_u8 payload → (length payload ≤ 2048)%nat →
  ∃ r, ok_or_none (SessionSetup.decode (drop 4 payload)) (λ message,
    if (length (SessionSetup.handshake_payload message) =? XK_HANDSHAKE_MSG1_SIZE)%nat
       && (TreeCoordinate.node_addr (SessionSetup.src_coords message) =? s)
       && (TreeCoordinate.node_addr (SessionSetup.dest_coords message) =? d)
       && bool_decide (SessionSetup.encode message = payload)
    then Some Setup else None) = Ok r
  ∧ (∀ k, r = Some k → k = Setup) ∧ (r = Some Setup ↔ canonical Setup payload s d).
Proof.
  intros Hp Hlen. pose proof (wire_total (M := SessionSetup.SessionSetup) (drop 4 payload)) as Ht. cbn [wire_decode SessionSetup_wire] in Ht.
  assert (canonical Setup payload s d → ∃ m, SessionSetup.decode (drop 4 payload) = Ok m
    ∧ payload = SessionSetup.encode m ∧ length (SessionSetup.handshake_payload m) = 33%nat
    ∧ TreeCoordinate.node_addr (SessionSetup.src_coords m) = s
    ∧ TreeCoordinate.node_addr (SessionSetup.dest_coords m) = d) as Hcan.
  { intros [_ (m & Hwf & -> & ?)]. exists m. split; [|done].
    destruct (wire_roundtrip m Hwf) as (bytes & [= <-] & _ & Hd). exact Hd. }
  destruct (SessionSetup.decode (drop 4 payload)) as [m|e|] eqn:Hd; [| |done]; cbn [ok_or_none].
  - eexists. split; [done|]. split; [intros k; by destruct (_ && _) as []; intros [= <-]|].
    split.
    + destruct (_ && _) eqn:Hb; [|done]. intros _.
      rewrite !andb_true_iff, Nat.eqb_eq, !Z.eqb_eq, bool_decide_eq_true in Hb. destruct Hb as [[[? ?] ?] ?].
      split; [done|]. exists m. split_and!; try done. eapply setup_decoded_wf; [done|]. by apply Forall_drop.
    + intros Hc%Hcan. destruct Hc as (m' & [= <-] & -> & Hl & <- & <-).
      by rewrite (proj2 (Nat.eqb_eq _ XK_HANDSHAKE_MSG1_SIZE) Hl), !Z.eqb_refl, bool_decide_true.
  - exists None. split; [done|]. split; [done|]. split; [done|]. intros Hc%Hcan. by destruct Hc as (? & ? & _).
Qed.

Lemma ack_classified payload s d : Forall is_u8 payload → (length payload ≤ 2048)%nat →
  ∃ r, ok_or_none (SessionAck.decode (drop 4 payload)) (λ message,
    if (length (SessionAck.handshake_payload message) =? XK_HANDSHAKE_MSG2_SIZE)%nat
       && (Z.land (SessionAck.flags message) 251 =? 0)
       && (TreeCoordinate.node_addr (SessionAck.src_coords message) =? s)
       && (TreeCoordinate.node_addr (SessionAck.dest_coords message) =? d)
       && bool_decide (SessionAck.encode message = payload)
    then Some Ack else None) = Ok r
  ∧ (∀ k, r = Some k → k = Ack) ∧ (r = Some Ack ↔ canonical Ack payload s d).
Proof.
  intros Hp Hlen. pose proof (wire_total (M := SessionAck.SessionAck) (drop 4 payload)) as Ht.
  cbn [wire_decode SessionAck_wire] in Ht.
  assert (canonical Ack payload s d → ∃ m, SessionAck.decode (drop 4 payload) = Ok m
    ∧ payload = SessionAck.encode m ∧ length (SessionAck.handshake_payload m) = 57%nat
    ∧ Z.land (SessionAck.flags m) 251 = 0
    ∧ TreeCoordinate.node_addr (SessionAck.src_coords m) = s
    ∧ TreeCoordinate.node_addr (SessionAck.dest_coords m) = d) as Hcan.
  { intros [_ (m & Hwf & -> & ?)]. exists m. split; [|done].
    destruct (wire_roundtrip m Hwf) as (bytes & [= <-] & _ & Hd). exact Hd. }
  destruct (SessionAck.decode (drop 4 payload)) as [m|e|] eqn:Hd; [| |done]; cbn [ok_or_none].
  - eexists. split; [done|]. split; [intros k; by destruct (_ && _) as []; intros [= <-]|].
    split.
    + destruct (_ && _) eqn:Hb; [|done]. intros _.
      rewrite !andb_true_iff, Nat.eqb_eq, !Z.eqb_eq, bool_decide_eq_true in Hb. destruct Hb as [[[[? ?] ?] ?] ?].
      split; [done|]. exists m. split_and!; try done. eapply ack_decoded_wf; [done|]. by apply Forall_drop.
    + intros Hc%Hcan. destruct Hc as (m' & [= <-] & -> & Hl & Hf & <- & <-).
      by rewrite (proj2 (Nat.eqb_eq _ XK_HANDSHAKE_MSG2_SIZE) Hl), Hf, !Z.eqb_refl, bool_decide_true.
  - exists None. split; [done|]. split; [done|]. split; [done|]. intros Hc%Hcan. by destruct Hc as (? & ? & _).
Qed.

Lemma finish_classified payload s d : Forall is_u8 payload → (length payload ≤ 2048)%nat →
  ∃ r, ok_or_none (SessionMsg3.decode (drop 4 payload)) (λ message,
    if (length (SessionMsg3.handshake_payload message) =? XK_HANDSHAKE_MSG3_SIZE)%nat
       && (SessionMsg3.flags message =? 0)
       && bool_decide (SessionMsg3.encode message = payload)
    then Some Finish else None) = Ok r
  ∧ (∀ k, r = Some k → k = Finish) ∧ (r = Some Finish ↔ canonical Finish payload s d).
Proof.
  intros Hp Hlen. pose proof (wire_total (M := SessionMsg3.SessionMsg3) (drop 4 payload)) as Ht.
  cbn [wire_decode SessionMsg3_wire] in Ht.
  assert (canonical Finish payload s d → ∃ m, SessionMsg3.decode (drop 4 payload) = Ok m
    ∧ payload = SessionMsg3.encode m ∧ length (SessionMsg3.handshake_payload m) = 73%nat
    ∧ SessionMsg3.flags m = 0) as Hcan.
  { intros [_ (m & Hwf & -> & ?)]. exists m. split; [|done].
    destruct (wire_roundtrip m Hwf) as (bytes & [= <-] & _ & Hd). exact Hd. }
  destruct (SessionMsg3.decode (drop 4 payload)) as [m|e|] eqn:Hd; [| |done]; cbn [ok_or_none].
  - eexists. split; [done|]. split; [intros k; by destruct (_ && _) as []; intros [= <-]|].
    split.
    + destruct (_ && _) eqn:Hb; [|done]. intros _.
      rewrite !andb_true_iff, Nat.eqb_eq, !Z.eqb_eq, bool_decide_eq_true in Hb. destruct Hb as [[? ?] ?].
      split; [done|]. exists m. split_and!; try done. eapply msg3_decoded_wf; [done|]. by apply Forall_drop.
    + intros Hc%Hcan. destruct Hc as (m' & [= <-] & -> & Hl & ->).
      by rewrite (proj2 (Nat.eqb_eq _ XK_HANDSHAKE_MSG3_SIZE) Hl), bool_decide_true.
  - exists None. split; [done|]. split; [done|]. split; [done|]. intros Hc%Hcan. by destruct Hc as (? & ? & _).
Qed.

(** A verdict on one phase settles the others. *)
Lemma classified_exact payload s d k0 (r : option t) : payload !! 0%nat = Some (phase_of k0) →
  (∀ k, r = Some k → k = k0) → (r = Some k0 ↔ canonical k0 payload s d) →
  ∀ k, r = Some k ↔ canonical k payload s d.
Proof.
  intros Hh Honly Hk0 k. destruct (decide (phase_of k = phase_of k0)) as [Heq|Hne].
  - assert (k = k0) as -> by (by destruct k, k0). done.
  - split; [intros ->%Honly; done|]. intros [Hk _]%canonical_head. congruence.
Qed.
End classification.

(** C25: every session-layer and discovery codec reads back what it writes and never aborts:
    the three handshake messages with their coordinates, path-MTU notices, the three error
    signals, both reports, lookup requests and responses. A message with addresses-only
    coordinates and fields of their types' widths encodes to bytes which, without the prefix
    its dispatcher consumes, decode to that message; and each decoder returns a message or an
    error on any bytes. *)
Theorem session_codecs_lawful sig_from_slice :
  LawfulMessage SessionSetup.SessionSetup
  ∧ LawfulMessage SessionAck.SessionAck
  ∧ LawfulMessage SessionMsg3.SessionMsg3
  ∧ LawfulMessage PathMtuNotification.PathMtuNotification
  ∧ LawfulMessage CoordsRequired.CoordsRequired
  ∧ LawfulMessage PathBroken.PathBroken
  ∧ LawfulMessage MtuExceeded.MtuExceeded
  ∧ LawfulMessage SenderReport.SenderReport (WireMessage0 := SessionSenderReport_wire)
  ∧ LawfulMessage ReceiverReport.ReceiverReport (WireMessage0 := SessionReceiverReport_wire)
  ∧ LawfulMessage LookupRequest.LookupRequest
  ∧ LawfulMessage LookupResponse.LookupResponse (WireMessage0 := LookupResponse_wire sig_from_slice).
Proof.
  split_and!; try apply _; [apply SessionSenderReport_lawful|apply SessionReceiverReport_lawful|].
  apply LookupResponse_lawful.
Qed.

(** C26: handshake classification is exact. On any bytes it gives a verdict, and the verdict is
    [Setup], [Ack] or [Finish] exactly when the bytes are the encoding of a well-formed
    message of that kind, of at most 2048 bytes, with the Noise payload of that step (33, 57
    or 73 bytes), only the known flags, and coordinates that start at the source and the
    destination; so nothing else spends the bootstrap allowance. *)
Theorem handshake_classification_exact payload source destination :
  Forall is_u8 payload →
  ∃ r, SessionHandshake.classify payload source destination = Ok r
    ∧ ∀ k, r = Some k ↔ canonical k payload source destination.
Proof.
  intros Hp. unfold SessionHandshake.classify, FspWire.FSP_COMMON_PREFIX_SIZE,
    SessionHandshake.MAX_BOOTSTRAP_HANDSHAKE_BYTES.
  destruct (Nat.leb_spec 4 (length payload)) as [H4|], (Nat.leb_spec (length payload) 2048) as [Hlen|];
    cbn [andb negb]; try (exists None; split; [done|]; intros k; split; [done|]; intros [_ ?]%canonical_head; lia).
  rewrite slice_from_ok by lia. cbn [mbind outcome_bind].
  destruct (lookup_lt_is_Some_2 payload 0) as [b Hb]; [lia|].
  assert (index payload 0 = @Ok Empty_set Z b) as -> by (unfold index; by rewrite Hb).
  cbn [mbind outcome_bind]. unfold FspWire.FSP_PHASE_MSG1, FspWire.FSP_PHASE_MSG2, FspWire.FSP_PHASE_MSG3.
  destruct (Z.eqb_spec b 1) as [->|]; [|destruct (Z.eqb_spec b 2) as [->|]; [|destruct (Z.eqb_spec b 3) as [->|]]].
  - destruct (setup_classified payload source destination Hp Hlen) as (r & -> & H1 & H2).
    exists r. split; [done|]. by apply (classified_exact _ _ _ SessionHandshake.Setup).
  - destruct (ack_classified payload source destination Hp Hlen) as (r & -> & H1 & H2).
    exists r. split; [done|]. by apply (classified_exact _ _ _ SessionHandshake.Ack).
  - destruct (finish_classified payload source destination Hp Hlen) as (r & -> & H1 & H2).
    exists r. split; [done|]. by apply (classified_exact _ _ _ SessionHandshake.Finish).
  - exists None. split; [done|]. intros k. split; [done|]. intros [Hk _]%canonical_head.
    rewrite Hb in Hk. injection Hk as ->. by destruct k.
Qed.

Lemma handshake_classification_exact_witness :
  let setup := SessionSetup.with_handshake
    (SessionSetup.new (TreeCoordinate.root 1) (TreeCoordinate.root 2)) (replicate 33 0) in
  ∃ r, SessionHandshake.classify (SessionSetup.encode setup) 1 2 = Ok r
    ∧ (∀ k, r = Some k ↔ canonical k (SessionSetup.encode setup) 1 2) ∧ r = Some SessionHandshake.Setup.
Proof.
  intros setup. destruct (handshake_classification_exact (SessionSetup.encode setup) 1 2) as (r & H1 & H2).
  - vm_compute. repeat (constructor; [split; discriminate|]). constructor.
  - exists r. split; [exact H1|]. split; [exact H2|]. vm_compute in H1. injection H1 as <-. reflexivity.
Defined.
