(* ===== verification/Replay.v ===== *)
(** * Anti-replay window ([crates/fips-core/src/noise/replay.rs])

    The sliding window that decides whether a received packet counter is fresh.
    The source keeps [REPLAY_WINDOW_SIZE] counters in a ring of 64-bit words,
    one word more than the window needs, and clears only the words a new
    highest counter moves into. [Module ReplayWindow] translates it word for
    word; [Module ReplaySpec] is the mathematical window: the set of accepted
    counters and the highest of them. The refinement says the ring and the set
    answer alike on every sequence of packets. *)

From S2P Require Import Prelude.

Local Open Scope Z_scope.

(** ** The code *)

Module ReplayWindow.

Definition REPLAY_WINDOW_SIZE : Z := 8192.
Definition RING_WORDS : Z := REPLAY_WINDOW_SIZE / 64 + 1.

Inductive ReplayRejection := Duplicate | TooOld.

Record ReplayWindow := mkReplayWindow {
  highest : Z;
  bitmap : list Z
}.

Definition new : ReplayWindow :=
  {| highest := 0; bitmap := replicate (Z.to_nat RING_WORDS) 0 |}.

Definition word_index (counter : Z) : nat := Z.to_nat ((counter / 64) mod RING_WORDS).

Definition rejection_reason (self : ReplayWindow) (counter : Z) : option ReplayRejection :=
  if counter =? U64_MAX then Some TooOld
  else if counter >? highest self then None
  else
    let diff := highest self - counter in
    if diff >=? REPLAY_WINDOW_SIZE then Some TooOld
    else if Z.land (bitmap self !!! word_index counter) (Z.shiftl 1 (counter mod 64)) =? 0
    then None
    else Some Duplicate.

Definition check (self : ReplayWindow) (counter : Z) : bool :=
  match rejection_reason self counter with None => true | Some _ => false end.

(** [for word in current_word + 1 ..= next_word { bitmap[word % RING_WORDS] = 0 }]:
    [n] iterations from [word]. *)
Fixpoint clear_words (bm : list Z) (word : Z) (n : nat) : list Z :=
  match n with
  | O => bm
  | S n => clear_words (<[Z.to_nat (word mod RING_WORDS) := 0]> bm) (word + 1) n
  end.

(** [self.bitmap[word_index(counter)] |= 1u64 << (counter % 64)] *)
Definition mark (bm : list Z) (counter : Z) : list Z :=
  <[word_index counter :=
      Z.lor (bm !!! word_index counter) (Z.shiftl 1 (counter mod 64))]> bm.

Definition accept (self : ReplayWindow) (counter : Z) : ReplayWindow :=
  if counter =? U64_MAX then self
  else if counter >? highest self then
    let current_word := highest self / 64 in
    let next_word := counter / 64 in
    let bm :=
      if next_word - current_word >=? RING_WORDS
      then replicate (length (bitmap self)) 0
      else clear_words (bitmap self) (current_word + 1) (Z.to_nat (next_word - current_word)) in
    {| highest := counter; bitmap := mark bm counter |}
  else if highest self - counter >=? REPLAY_WINDOW_SIZE then self
  else {| highest := highest self; bitmap := mark (bitmap self) counter |}.

Definition reset (self : ReplayWindow) : ReplayWindow := new.

End ReplayWindow.

(** ** The mathematical window *)

Module ReplaySpec.
Import ReplayWindow.

Record State := mkState { top : Z; seen : gset Z }.

Definition init : State := mkState 0 ∅.

Definition reject (s : State) (c : Z) : option ReplayRejection :=
  if decide (c = U64_MAX) then Some TooOld
  else if decide (top s < c) then None
  else if decide (REPLAY_WINDOW_SIZE ≤ top s - c) then Some TooOld
  else if decide (c ∈ seen s) then Some Duplicate
  else None.

(** Accepting adds the counter to the set, unless it is the reserved ceiling or
    has fallen out of the window. *)
Definition accept (s : State) (c : Z) : State :=
  if decide (c = U64_MAX ∨ REPLAY_WINDOW_SIZE ≤ top s - c) then s
  else mkState (Z.max (top s) c) ({[c]} ∪ seen s).

End ReplaySpec.

(** ** Traffic on one session

    The receive path checks a counter, decrypts, and accepts it; the split API
    lets another packet advance the window between check and accept, so a bare
    [Accept] is an event of its own. *)

Module ReplayTrace.
Import ReplayWindow.

Inductive event :=
| Check (c : Z)
| Accept (c : Z)
| Reset.

Definition event_counter (e : event) : Z :=
  match e with Check c | Accept c => c | Reset => 0 end.

Definition step (w : ReplayWindow) (e : event) : ReplayWindow * option ReplayRejection :=
  match e with
  | Check c => (w, rejection_reason w c)
  | Accept c => (accept w c, None)
  | Reset => (reset w, None)
  end.

Definition spec_step (s : ReplaySpec.State) (e : event) :
    ReplaySpec.State * option ReplayRejection :=
  match e with
  | Check c => (s, ReplaySpec.reject s c)
  | Accept c => (ReplaySpec.accept s c, None)
  | Reset => (ReplaySpec.init, None)
  end.

Fixpoint outputs {S : Type} (stepf : S → event → S * option ReplayRejection)
    (s : S) (es : list event) : list (option ReplayRejection) :=
  match es with
  | [] => []
  | e :: es => (stepf s e).2 :: outputs stepf (stepf s e).1 es
  end.

(** The inline receive path of [NoiseSession]: a counter that passes the check
    is accepted, any other is dropped. *)
Definition receive (w : ReplayWindow) (c : Z) : ReplayWindow * bool :=
  if check w c then (accept w c, true) else (w, false).

Fixpoint delivered (w : ReplayWindow) (cs : list Z) : list Z :=
  match cs with
  | [] => []
  | c :: cs =>
      let '(w', ok) := receive w c in
      if ok then c :: delivered w' cs else delivered w' cs
  end.

Definition final (w : ReplayWindow) (cs : list Z) : ReplayWindow :=
  foldl (λ w c, (receive w c).1) w cs.

End ReplayTrace.

(** ** The ring represents the set *)

Section refinement.
Import ReplayWindow.

(** Every counter whose word is in the ring has its bit set exactly when it was
    accepted; in particular the bits above [highest] in the current word are
    clear. *)
Record represents (w : ReplayWindow) (s : ReplaySpec.State) : Prop := {
  rep_length : length (bitmap w) = 129%nat;
  rep_top : highest w = ReplaySpec.top s;
  rep_range : 0 ≤ highest w < U64_MAX;
  rep_seen : ∀ c, c ∈ ReplaySpec.seen s → 0 ≤ c ≤ highest w;
  rep_bits : ∀ c, 0 ≤ c → highest w / 64 - 129 < c / 64 ≤ highest w / 64 →
    Z.testbit (bitmap w !!! word_index c) (c mod 64) = bool_decide (c ∈ ReplaySpec.seen s)
}.

Lemma word_index_lt c : (word_index c < 129)%nat.
Proof.
  unfold word_index. change RING_WORDS with 129.
  pose proof (Z.mod_pos_bound (c / 64) 129). lia.
Qed.

(** Words less than a ring apart share a slot only when they are equal. *)
Lemma slot_inj a b : Z.abs (a - b) < 129 → a mod 129 = b mod 129 → a = b.
Proof.
  intros Hab Hmod.
  rewrite (Z.div_mod a 129), (Z.div_mod b 129) in Hab |- * by lia. nia.
Qed.

Lemma word_index_inj c d : 0 ≤ c → 0 ≤ d → Z.abs (c / 64 - d / 64) < 129 →
  word_index c = word_index d → c / 64 = d / 64.
Proof.
  unfold word_index. change RING_WORDS with 129. intros ?? ? Heq.
  apply slot_inj; [done|].
  pose proof (Z.mod_pos_bound (c / 64) 129). pose proof (Z.mod_pos_bound (d / 64) 129). lia.
Qed.

Lemma same_bit c d : c / 64 = d / 64 → c mod 64 = d mod 64 → c = d.
Proof. intros Hd Hm. rewrite (Z.div_mod c 64), (Z.div_mod d 64) by lia. congruence. Qed.

Lemma length_clear_words bm word n : length (clear_words bm word n) = length bm.
Proof. revert bm word. induction n as [|n IH]; intros; simpl; [done|]. by rewrite IH, length_insert. Qed.

Lemma clear_words_other bm word n slot :
  (∀ k, word ≤ k < word + Z.of_nat n → Z.to_nat (k mod 129) ≠ slot) →
  clear_words bm word n !!! slot = bm !!! slot.
Proof.
  revert bm word. induction n as [|n IH]; intros bm word Hne; simpl; [done|].
  rewrite IH by (intros k Hk; apply Hne; lia).
  rewrite list_lookup_total_insert_ne; [done|]. apply Hne. lia.
Qed.

Lemma clear_words_zero bm word n slot : length bm = 129%nat → (slot < 129)%nat →
  bm !!! slot = 0 → clear_words bm word n !!! slot = 0.
Proof.
  revert bm word. induction n as [|n IH]; intros bm word Hlen Hslot H0; simpl; [done|].
  apply IH; [by rewrite length_insert|done|].
  destruct (decide (Z.to_nat (word mod RING_WORDS) = slot)) as [->|Hne].
  - rewrite list_lookup_total_insert_eq; [done|]. by rewrite Hlen.
  - by rewrite list_lookup_total_insert_ne.
Qed.

Lemma clear_words_hit bm word n k : length bm = 129%nat →
  word ≤ k < word + Z.of_nat n → clear_words bm word n !!! Z.to_nat (k mod 129) = 0.
Proof.
  revert bm word. induction n as [|n IH]; intros bm word Hlen Hk; simpl; [lia|].
  destruct (decide (word + 1 ≤ k)) as [|].
  { apply IH; [by rewrite length_insert|lia]. }
  replace k with word by lia. change RING_WORDS with 129.
  assert (Z.to_nat (word mod 129) < 129)%nat as Hlt
    by (pose proof (Z.mod_pos_bound word 129); lia).
  apply clear_words_zero; [by rewrite length_insert|done|].
  apply list_lookup_total_insert_eq. by rewrite Hlen.
Qed.

Lemma testbit_shiftl_1 a b : 0 ≤ a → 0 ≤ b →
  Z.testbit (Z.shiftl 1 a) b = bool_decide (a = b).
Proof.
  intros Ha Hb. rewrite Z.shiftl_1_l, Z.pow2_bits_eqb by done.
  case_bool_decide; [by apply Z.eqb_eq|by apply Z.eqb_neq].
Qed.

Lemma land_bit_zero x i : 0 ≤ i → (Z.land x (Z.shiftl 1 i) =? 0) = negb (Z.testbit x i).
Proof.
  intros Hi. destruct (Z.testbit x i) eqn:Hb; simpl.
  - apply Z.eqb_neq. intros H0.
    apply (f_equal (λ z, Z.testbit z i)) in H0.
    rewrite Z.land_spec, testbit_shiftl_1, Hb, Z.bits_0 in H0 by done.
    by rewrite bool_decide_true in H0.
  - apply Z.eqb_eq, Z.bits_inj'. intros j Hj.
    rewrite Z.land_spec, testbit_shiftl_1, Z.bits_0 by done.
    case_bool_decide; [by subst; rewrite Hb|by rewrite andb_false_r].
Qed.

(** Reading a bit of a ring in which [d] was just marked. *)
Lemma mark_bit bm c d : length bm = 129%nat → 0 ≤ c → 0 ≤ d →
  Z.abs (c / 64 - d / 64) < 129 →
  Z.testbit (mark bm d !!! word_index c) (c mod 64) =
  Z.testbit (bm !!! word_index c) (c mod 64) || bool_decide (c = d).
Proof.
  intros Hlen Hc Hd Hnear. unfold mark.
  pose proof (Z.mod_pos_bound c 64). pose proof (Z.mod_pos_bound d 64).
  destruct (decide (word_index d = word_index c)) as [Heq|Hne].
  - rewrite Heq, list_lookup_total_insert_eq by (rewrite Hlen; apply word_index_lt).
    rewrite Z.lor_spec, testbit_shiftl_1 by lia. f_equal.
    apply bool_decide_ext. split; [|by intros ->].
    intros. apply same_bit; [|done]. by apply word_index_inj.
  - rewrite list_lookup_total_insert_ne by done.
    rewrite (bool_decide_false (c = d)) by congruence. by rewrite orb_false_r.
Qed.

Lemma represents_init : represents new ReplaySpec.init.
Proof.
  split; [done|done|simpl; mlia|set_solver|].
  intros c Hc _. rewrite bool_decide_false by set_solver.
  unfold new, bitmap. rewrite lookup_total_replicate_2 by apply word_index_lt.
  apply Z.bits_0.
Qed.

(** The ring after a jump to a new highest counter [c]: the words that were in
    the window keep their bits, the words between are clear. *)
Lemma advance_bits w s c : represents w s → highest w < c →
  let next_word := c / 64 in
  let current_word := highest w / 64 in
  let bm :=
    if next_word - current_word >=? RING_WORDS
    then replicate (length (bitmap w)) 0
    else clear_words (bitmap w) (current_word + 1) (Z.to_nat (next_word - current_word)) in
  length bm = 129%nat ∧
  ∀ d, 0 ≤ d → c / 64 - 129 < d / 64 ≤ c / 64 →
    Z.testbit (bm !!! word_index d) (d mod 64) = bool_decide (d ∈ ReplaySpec.seen s).
Proof.
  intros [Hlen Htop Hrange Hseen Hbits] Hlt next cur bm.
  assert (cur ≤ next) by (apply Z.div_le_mono; lia).
  assert (Hold : ∀ d, cur < d / 64 → bool_decide (d ∈ ReplaySpec.seen s) = false).
  { intros d Hd. apply bool_decide_false. intros Hin%Hseen.
    assert (d / 64 ≤ cur) by (apply Z.div_le_mono; lia). lia. }
  unfold bm. change RING_WORDS with 129. destruct (Z.geb_spec (next - cur) 129).
  { rewrite length_replicate. split; [done|]. intros d Hd Hw.
    rewrite lookup_total_replicate_2 by (rewrite Hlen; apply word_index_lt).
    rewrite Z.bits_0, Hold; [done|]. unfold next, cur in *; lia. }
  rewrite length_clear_words. split; [done|]. intros d Hd Hw.
  destruct (decide (cur < d / 64)) as [Hnew|Hkept].
  - unfold word_index. change RING_WORDS with 129.
    rewrite clear_words_hit, Z.bits_0, Hold by (done || unfold next, cur in *; lia). done.
  - rewrite clear_words_other; [apply Hbits; unfold next, cur in *; lia|].
    intros k Hk Heq. unfold word_index in Heq. change RING_WORDS with 129 in Heq.
    assert (k = d / 64); [|unfold next, cur in *; lia].
    pose proof (Z.mod_pos_bound k 129). pose proof (Z.mod_pos_bound (d / 64) 129).
    apply slot_inj; unfold next, cur in *; lia.
Qed.

Lemma represents_accept w s c : represents w s → is_u64 c →
  represents (accept w c) (ReplaySpec.accept s c).
Proof.
  intros Hrep Hc. pose proof Hrep as [Hlen Htop Hrange Hseen Hbits].
  unfold accept, ReplaySpec.accept. rewrite Z.gtb_ltb, !Z.geb_leb.
  destruct (Z.eqb_spec c U64_MAX) as [->|Hmax]; [by rewrite decide_True by auto|].
  destruct (Z.ltb_spec (highest w) c) as [Hgt|Hle].
  - rewrite decide_False by (rewrite <- Htop; unfold REPLAY_WINDOW_SIZE; lia).
    destruct (advance_bits w s c Hrep Hgt) as [Hlen' Hbits'].
    rewrite Z.geb_leb in Hlen', Hbits'.
    split; simpl; [by unfold mark; rewrite length_insert|lia|mlia| |].
    { intros d [->%elem_of_singleton|Hd%Hseen]%elem_of_union; mlia. }
    intros d Hd Hw. rewrite mark_bit, Hbits' by (done || mlia || lia).
    rewrite <- bool_decide_or. apply bool_decide_ext. rewrite elem_of_union, elem_of_singleton. tauto.
  - destruct (Z.leb_spec REPLAY_WINDOW_SIZE (highest w - c)).
    { rewrite decide_True by (right; lia). done. }
    rewrite decide_False by (rewrite <- Htop; lia). unfold REPLAY_WINDOW_SIZE in *.
    split; simpl; [by unfold mark; rewrite length_insert|lia|done| |].
    { intros d [->%elem_of_singleton|Hd%Hseen]%elem_of_union; mlia. }
    intros d Hd Hw. rewrite mark_bit, Hbits by (done || mlia || Z.div_mod_to_equations; mlia).
    rewrite <- bool_decide_or. apply bool_decide_ext. rewrite elem_of_union, elem_of_singleton. tauto.
Qed.

Lemma represents_reject w s c : represents w s → is_u64 c →
  rejection_reason w c = ReplaySpec.reject s c.
Proof.
  intros [Hlen Htop Hrange Hseen Hbits] Hc.
  unfold rejection_reason, ReplaySpec.reject. rewrite Z.gtb_ltb, Z.geb_leb, <- Htop.
  destruct (Z.eqb_spec c U64_MAX) as [->|Hmax]; [by rewrite decide_True|].
  rewrite decide_False by done.
  destruct (Z.ltb_spec (highest w) c); [by rewrite decide_True|]. rewrite decide_False by lia.
  destruct (Z.leb_spec REPLAY_WINDOW_SIZE (highest w - c)); [by rewrite decide_True|].
  rewrite decide_False by lia. unfold REPLAY_WINDOW_SIZE in *.
  rewrite land_bit_zero by (apply Z.mod_pos_bound; lia).
  rewrite Hbits by (mlia || Z.div_mod_to_equations; mlia).
  case_bool_decide; [by rewrite decide_True|by rewrite decide_False].
Qed.

End refinement.

(** ** What the window guarantees *)

Section guarantees.
Import ReplayWindow ReplayTrace.

Lemma represents_step w s e : represents w s → is_u64 (event_counter e) →
  represents (step w e).1 (spec_step s e).1 ∧ (step w e).2 = (spec_step s e).2.
Proof.
  intros Hrep He. destruct e as [c|c|]; simpl in *.
  - eauto using represents_reject.
  - eauto using represents_accept.
  - eauto using represents_init.
Qed.

Lemma check_accepts w s c : represents w s → is_u64 c → check w c = true →
  c ∉ ReplaySpec.seen s ∧ ReplaySpec.accept s c = ReplaySpec.mkState (Z.max (ReplaySpec.top s) c) ({[c]} ∪ ReplaySpec.seen s).
Proof.
  intros Hrep Hc. unfold check. rewrite (represents_reject w s c Hrep Hc).
  pose proof (rep_seen _ _ Hrep) as Hseen. rewrite (rep_top _ _ Hrep) in Hseen.
  unfold ReplaySpec.reject, ReplaySpec.accept.
  repeat case_decide; try done; intros _.
  - destruct H1 as [|H1]; [done|]. unfold REPLAY_WINDOW_SIZE in H1. lia.
  - split; [|done]. intros Hin%Hseen. lia.
  - destruct H3 as [|H3]; [done|]. lia.
Qed.

(** What has been delivered is what the represented set holds. *)
Lemma delivered_seen cs : ∀ w s, represents w s → Forall is_u64 cs →
  ∃ s', represents (final w cs) s' ∧
    (∀ c, c ∈ ReplaySpec.seen s' ↔ c ∈ ReplaySpec.seen s ∨ c ∈ delivered w cs) ∧
    (∀ z, ReplaySpec.top s ≤ z → (∀ d, d ∈ delivered w cs → d ≤ z) → ReplaySpec.top s' ≤ z) ∧
    NoDup (delivered w cs) ∧ (∀ c, c ∈ delivered w cs → c ∉ ReplaySpec.seen s).
Proof.
  induction cs as [|c cs IH]; intros w s Hrep Hcs; simpl.
  { exists s. split; [done|]. split; [set_solver|]. split; [auto|]. split; [constructor|set_solver]. }
  apply Forall_cons in Hcs as [Hc Hcs]. unfold receive.
  destruct (check w c) eqn:Hchk; simpl; [|by apply IH].
  destruct (check_accepts w s c Hrep Hc Hchk) as [Hfresh Hacc].
  pose proof (represents_accept w s c Hrep Hc) as Hrep'. rewrite Hacc in Hrep'.
  destruct (IH _ _ Hrep' Hcs) as (s' & Hs' & Hseen & Htop & Hnodup & Hnew); simpl in *.
  exists s'. split; [done|]. split; [|split; [|split]].
  - intros d. rewrite Hseen, elem_of_cons. set_solver.
  - intros z Hz Hd. apply Htop.
    + apply Z.max_lub; [done|]. apply Hd. by left.
    + intros d Hin. apply Hd. by right.
  - constructor; [|done]. intros Hin%Hnew. set_solver.
  - intros d [->|Hin%Hnew]%elem_of_cons; set_solver.
Qed.

(** C13: the ring-buffer window refines the mathematical window. On every
    sequence of checks, accepts and rekey resets over 64-bit counters, the
    verdicts of [rejection_reason] are those of the set of accepted counters:
    too old exactly when at least 8192 behind the highest (or the reserved
    ceiling), duplicate exactly when already accepted. *)
Theorem replay_window_refines (es : list event) :
  Forall (λ e, is_u64 (event_counter e)) es →
  outputs step new es = outputs spec_step ReplaySpec.init es.
Proof.
  intros Hes. pose proof represents_init as Hrep. revert Hrep.
  generalize new ReplaySpec.init. induction Hes as [|e es He _ IH]; intros w s Hrep; simpl; [done|].
  destruct (represents_step w s e Hrep He) as [Hrep' ->]. by rewrite (IH _ _ Hrep').
Qed.

(** No packet counter is ever delivered twice on a session, whatever order,
    repetition or loss the network produces. *)
Theorem replay_no_double_delivery (cs : list Z) :
  Forall is_u64 cs → NoDup (delivered new cs).
Proof. intros Hcs. destruct (delivered_seen cs _ _ represents_init Hcs) as (? & _ & _ & _ & ? & _). done. Qed.

(** A counter in the window that was not delivered passes the check, and a
    delivered one does not. *)
Lemma fresh_passes cs c : Forall is_u64 cs → is_u64 c → c ≠ U64_MAX →
  c ∉ delivered new cs → (∀ d, d ∈ delivered new cs → d - c < REPLAY_WINDOW_SIZE) →
  check (final new cs) c = true.
Proof.
  intros Hcs Hc Hmax Hfresh Hwin.
  destruct (delivered_seen cs _ _ represents_init Hcs) as (s & Hrep & Hseen & Htop & _).
  unfold check. rewrite (represents_reject _ _ _ Hrep Hc). unfold ReplaySpec.reject.
  assert (ReplaySpec.top s ≤ c + (REPLAY_WINDOW_SIZE - 1)).
  { apply Htop; [unfold REPLAY_WINDOW_SIZE; simpl; mlia|]. intros d Hd%Hwin. lia. }
  repeat case_decide; try done; [unfold REPLAY_WINDOW_SIZE in *; lia|].
  apply Hseen in H3 as [H3|H3]; [set_solver|done].
Qed.

Lemma delivered_fails cs c : Forall is_u64 cs → c ∈ delivered new cs → check (final new cs) c = false.
Proof.
  intros Hcs Hin. destruct (delivered_seen cs _ _ represents_init Hcs) as (s & Hrep & Hseen & _).
  assert (c ∈ ReplaySpec.seen s) as Hc by (apply Hseen; by right).
  assert (is_u64 c) as Hu by (pose proof (rep_seen _ _ Hrep c Hc); pose proof (rep_range _ _ Hrep); mlia).
  destruct (check (final new cs) c) eqn:Hchk; [|done].
  by destruct (check_accepts _ _ _ Hrep Hu Hchk).
Qed.

Lemma delivered_app w a b : delivered w (a ++ b) = delivered w a ++ delivered (final w a) b.
Proof.
  revert w. induction a as [|c a IH]; intros w; cbn; [done|].
  unfold receive. destruct (check w c); cbn; by rewrite IH.
Qed.

Lemma delivered_in w cs c : c ∈ delivered w cs → c ∈ cs.
Proof.
  revert w. induction cs as [|d cs IH]; intros w; cbn; [done|].
  destruct (receive w d) as [w' []]; rewrite ?elem_of_cons; [intros [->|?]; eauto|eauto].
Qed.

(** The window drops nothing it should keep: after any traffic, a counter
    that was not delivered yet, is not the reserved ceiling, and is less than
    8192 behind every delivered counter passes the check. *)
Theorem replay_fresh_is_accepted (cs : list Z) (c : Z) :
  Forall is_u64 cs → is_u64 c → c ≠ U64_MAX →
  c ∉ delivered new cs →
  (∀ d, d ∈ delivered new cs → d - c < REPLAY_WINDOW_SIZE) →
  check (final new cs) c = true.
Proof. apply fresh_passes. Qed.

(** A session with reordering, a duplicate, a jump past the whole ring and a
    stale packet. *)
Definition sample_traffic : list Z := [5; 3; 5; 20000; 4; 19000; 19000; U64_MAX].

Lemma replay_window_refines_witness :
  outputs step new [Accept 5; Check 5; Accept 20000; Check 4; Reset; Check 5] =
  [None; Some Duplicate; None; Some TooOld; None; None].
Proof.
  rewrite (replay_window_refines [Accept 5; Check 5; Accept 20000; Check 4; Reset; Check 5]).
  - vm_compute. reflexivity.
  - repeat constructor; simpl; mlia.
Defined.

Lemma replay_no_double_delivery_witness :
  delivered new sample_traffic = [5; 3; 20000; 19000] ∧ NoDup (delivered new sample_traffic).
Proof.
  split; [vm_compute; reflexivity|].
  apply (replay_no_double_delivery sample_traffic). repeat constructor; mlia.
Defined.

Lemma replay_fresh_is_accepted_witness :
  check (final new [5; 8190]) 0 = true.
Proof.
  apply (replay_fresh_is_accepted [5; 8190] 0).
  - repeat constructor; mlia.
  - mlia.
  - mlia.
  - vm_compute (delivered _ _). set_solver.
  - vm_compute (delivered _ _). unfold REPLAY_WINDOW_SIZE.
    intros d [->|[->|[]%elem_of_nil]%elem_of_cons]%elem_of_cons; lia.
Defined.

End guarantees.
