(* ===== verification/GatewayPool.v ===== *)
(** * Gateway address pool ([crates/fips-core/src/gateway/pool.rs])

    The gateway lends virtual IPv6 addresses of a configured range to mesh
    names that its clients look up, and reclaims an address after it has been
    idle for the mapping's lifetime and a grace period. [Module Bucket] is the
    exact-integer token bucket of new mappings; [Module VirtualIpPool] the pool;
    [Module Conntrack] the choice between the two readers of the connection table.
    Addresses are 128-bit numbers, instants and durations nanoseconds. The range
    comes as the pair [parse_ipv6_cidr] makes of its text. *)

From stdpp Require Import strings.
From S2P Require Import Prelude NodeAddr.

Local Open Scope Z_scope.

(** ** The code *)

Definition U128_MAX : Z := 2 ^ 128 - 1.

Module Bucket.

Definition NANOS : Z := 1000000000.

Record Bucket := mkBucket {
  level : Z;
  capacity : Z;
  rate : Z;
  last : option Z
}.

Definition new (capacity rate : Z) : Bucket :=
  let capacity := capacity * NANOS in mkBucket capacity capacity rate None.

Definition refill (self : Bucket) (now : Z) : Bucket :=
  let level :=
    match last self with
    | Some last =>
        let elapsed := sat_sub now last in
        Z.min (Z.min (level self + Z.min (elapsed * rate self) U128_MAX) U128_MAX) (capacity self)
    | None => level self
    end in
  mkBucket level (capacity self) (rate self)
    (Some (match last self with Some last => Z.max last now | None => now end)).

Definition has_token (self : Bucket) : bool := NANOS <=? level self.

Definition take (self : Bucket) : Bucket :=
  mkBucket (sat_sub (level self) NANOS) (capacity self) (rate self) (last self).

End Bucket.

Module VirtualIpPool.

Definition MAPPING_CEILING : Z := 1000.
Definition MAPPING_BURST : Z := 50.
Definition MAPPING_RATE : Z := 10.

(** The text of [InvalidCidr] is left out. *)
Inductive PoolError :=
| InvalidCidr
| Exhausted (n : Z)
| InvalidPrefix
| AtCeiling (n : Z)
| RateLimited.

Inductive MappingState := Allocated | Active | Draining.

#[export] Instance MappingState_eq_dec : EqDecision MappingState.
Proof. solve_decision. Defined.

Record VirtualIpMapping := mkMapping {
  node_addr : NodeAddr;
  virtual_ip : Z;
  mesh_addr : Z;
  dns_name : string;
  state : MappingState;
  created : Z;
  last_referenced : Z;
  drain_start : option Z;
  session_count : Z
}.

Inductive PoolEvent :=
| MappingCreated (virtual_ip mesh_addr : Z)
| MappingRemoved (virtual_ip mesh_addr : Z).

Record ConntrackSnapshot := from_counts { sessions : gmap Z Z }.

Definition sessions_for (self : ConntrackSnapshot) (virtual_ip : Z) : Z :=
  default 0 (sessions self !! virtual_ip).

Record VirtualIpPool := mkPool {
  available : list Z;
  mappings : gmap NodeAddr VirtualIpMapping;
  reverse : gmap Z NodeAddr;
  ttl_secs : Z;
  grace_secs : Z;
  total : nat;
  ceiling : Z;
  bucket : Bucket.Bucket
}.

(** [for i in 1..max_addrs { available.push_back(base_int + i) }]; the sum
    wraps at 128 bits. *)
Definition pool_addresses (base_int max_addrs : Z) : list Z :=
  (λ i, (base_int + i) mod 2 ^ 128) <$> seqZ 1 (max_addrs - 1).

Definition with_limits (cidr : outcome PoolError (Z * Z)) (ttl_secs grace_secs ceiling burst rate : Z)
    : outcome PoolError VirtualIpPool :=
  '(base_int, prefix_len) ← cidr;
  if (prefix_len =? 0) || (128 <? prefix_len) then Err InvalidPrefix
  else
    let host_bits := 128 - prefix_len in
    let max_addrs := if 16 <? host_bits then Z.shiftl 1 16 else Z.shiftl 1 host_bits in
    let available := pool_addresses base_int max_addrs in
    Ok (mkPool available ∅ ∅ ttl_secs grace_secs (length available) ceiling (Bucket.new burst rate)).

Definition new (cidr : outcome PoolError (Z * Z)) (ttl_secs grace_secs : Z)
    : outcome PoolError VirtualIpPool :=
  with_limits cidr ttl_secs grace_secs MAPPING_CEILING MAPPING_BURST MAPPING_RATE.

Definition set_mappings (self : VirtualIpPool) (m : gmap NodeAddr VirtualIpMapping) : VirtualIpPool :=
  mkPool (available self) m (reverse self) (ttl_secs self) (grace_secs self) (total self)
    (ceiling self) (bucket self).

Definition set_bucket (self : VirtualIpPool) (b : Bucket.Bucket) : VirtualIpPool :=
  mkPool (available self) (mappings self) (reverse self) (ttl_secs self) (grace_secs self) (total self)
    (ceiling self) b.

(** The assignments [refresh_at] makes to a mapping. *)
Definition refreshed (m : VirtualIpMapping) (now : Z) : VirtualIpMapping :=
  let back := bool_decide (state m = Draining) in
  mkMapping (node_addr m) (virtual_ip m) (mesh_addr m) (dns_name m)
    (if back then Allocated else state m) (created m) now
    (if back then None else drain_start m) (session_count m).

Definition refresh_at (self : VirtualIpPool) (node_addr : NodeAddr) (now : Z) : VirtualIpPool * bool :=
  match mappings self !! node_addr with
  | Some mapping => (set_mappings self (<[node_addr := refreshed mapping now]> (mappings self)), true)
  | None => (self, false)
  end.

Definition allocate_at (self : VirtualIpPool) (node_addr : NodeAddr) (mesh_addr : Z) (dns_name : string)
    (now : Z) : VirtualIpPool * outcome PoolError (Z * bool) :=
  let '(self, present) := refresh_at self node_addr now in
  match (if present then mappings self !! node_addr else None) with
  | Some mapping => (self, Ok (virtual_ip mapping, false))
  | None =>
      let len := Z.of_nat (size (mappings self)) in
      if ceiling self <=? len then (self, Err (AtCeiling len))
      else
        let self := set_bucket self (Bucket.refill (bucket self) now) in
        if negb (Bucket.has_token (bucket self)) then (self, Err RateLimited)
        else
          match available self with
          | [] => (self, Err (Exhausted len))
          | virtual_ip :: rest =>
              let mapping :=
                mkMapping node_addr virtual_ip mesh_addr dns_name Allocated now now None 0 in
              (mkPool rest (<[node_addr := mapping]> (mappings self))
                 (<[virtual_ip := node_addr]> (reverse self)) (ttl_secs self) (grace_secs self)
                 (total self) (ceiling self) (Bucket.take (bucket self)),
               Ok (virtual_ip, true))
          end
  end.

(** The body of [tick]'s loop over the mappings: the mapping as it leaves it,
    and whether its address is pushed on [to_free]. *)
Definition tick_mapping (now ttl grace : Z) (conntrack : ConntrackSnapshot) (m : VirtualIpMapping)
    : VirtualIpMapping * bool :=
  let sessions := sessions_for conntrack (virtual_ip m) in
  let last_referenced := if 0 <? sessions then now else last_referenced m in
  let become state drain_start :=
    mkMapping (node_addr m) (virtual_ip m) (mesh_addr m) (dns_name m) state (created m)
      last_referenced drain_start sessions in
  match state m with
  | Allocated =>
      if 0 <? sessions then (become Active (drain_start m), false)
      else if ttl <? sat_sub now last_referenced then (become Draining (Some now), false)
      else (become Allocated (drain_start m), false)
  | Active =>
      if ttl <? sat_sub now last_referenced then (become Draining (Some now), false)
      else (become Active (drain_start m), false)
  | Draining =>
      if 0 <? sessions then (become Active None, false)
      else
        (become Draining (drain_start m),
         match drain_start m with
         | Some drain_start => grace <? sat_sub now drain_start
         | None => false
         end)
  end.

(** One turn of the loop that frees expired mappings. *)
Definition free_mapping (acc : VirtualIpPool * list PoolEvent) (node_addr : NodeAddr)
    : VirtualIpPool * list PoolEvent :=
  let '(self, events) := acc in
  match mappings self !! node_addr with
  | Some m =>
      (mkPool (available self ++ [virtual_ip m]) (delete node_addr (mappings self))
         (delete (virtual_ip m) (reverse self)) (ttl_secs self) (grace_secs self) (total self)
         (ceiling self) (bucket self),
       events ++ [MappingRemoved (virtual_ip m) (mesh_addr m)])
  | None => (self, events)
  end.

Section tick.
Context (ord : MapOrder NodeAddr VirtualIpMapping).

Definition tick (self : VirtualIpPool) (now : Z) (conntrack : option ConntrackSnapshot)
    : VirtualIpPool * list PoolEvent :=
  match conntrack with
  | None => (self, [])
  | Some conntrack =>
      let ttl := ttl_secs self * 1000000000 in
      let grace := grace_secs self * 1000000000 in
      let step := tick_mapping now ttl grace conntrack in
      let to_free := (filter (λ nm, (step nm.2).2 = true) (map_iter ord (mappings self))).*1 in
      let self := set_mappings self ((λ m, (step m).1) <$> mappings self) in
      foldl free_mapping (self, []) to_free
  end.
End tick.

Definition lookup_virtual_ip (self : VirtualIpPool) (virtual_ip : Z) : option VirtualIpMapping :=
  addr ← reverse self !! virtual_ip; mappings self !! addr.

(** The pool utilisation summary, in the order of the source's fields. *)
Record PoolStatus := mkStatus {
  st_total : nat; st_allocated : nat; st_active : nat; st_draining : nat; st_free : nat
}.

Definition count_state (self : VirtualIpPool) (s : MappingState) : nat :=
  length (filter (λ nm, state nm.2 = s) (map_to_list (mappings self))).

Definition status (self : VirtualIpPool) : PoolStatus :=
  mkStatus (total self) (count_state self Allocated) (count_state self Active)
    (count_state self Draining) (length (available self)).

End VirtualIpPool.

(** ** Reading the connection table

    What a reader of the table answers is an argument: a snapshot, or an error of
    some kind. *)

Module Conntrack.
Import VirtualIpPool.

Inductive ErrorKind := NotFound | OtherKind (kind : Z).

#[export] Instance ErrorKind_eq_dec : EqDecision ErrorKind.
Proof. solve_decision. Defined.

Inductive ConntrackSource := Proc | Netlink.

Record ConntrackUnreadable := mkUnreadable { proc_error : ErrorKind; netlink_error : option ErrorKind }.

(** The kind of the error; its message is left out. *)
Definition into_error (self : ConntrackUnreadable) : ErrorKind :=
  match netlink_error self with Some netlink => netlink | None => proc_error self end.

Definition read (proc netlink : outcome ErrorKind ConntrackSnapshot)
    : outcome ConntrackUnreadable (ConntrackSource * ConntrackSnapshot) :=
  match proc with
  | Ok snapshot => Ok (Proc, snapshot)
  | Err NotFound =>
      match netlink with
      | Ok snapshot => Ok (Netlink, snapshot)
      | Err e => Err (mkUnreadable NotFound (Some e))
      | Panic => Panic
      end
  | Err e => Err (mkUnreadable e None)
  | Panic => Panic
  end.

Inductive ReadReport := Changed | Repeated.

Record ConntrackReadLog := mkReadLog { last : option (option ErrorKind) }.

Definition observe (self : ConntrackReadLog) (outcome : option ErrorKind) : ConntrackReadLog * ReadReport :=
  (mkReadLog (Some outcome), if bool_decide (last self = Some outcome) then Repeated else Changed).

End Conntrack.

(** ** Histories of a pool

    The calls the gateway makes on its pool, each with the clock it reads. *)

Module PoolTrace.
Import VirtualIpPool.

Inductive op :=
| Refresh (node_addr : NodeAddr) (now : Z)
| Allocate (node_addr : NodeAddr) (mesh_addr : Z) (dns_name : string) (now : Z)
| Tick (now : Z) (conntrack : option ConntrackSnapshot).

Definition op_time (o : op) : Z :=
  match o with Refresh _ now | Allocate _ _ _ now | Tick now _ => now end.

Section trace.
Context (ord : MapOrder NodeAddr VirtualIpMapping).

Definition apply_op (p : VirtualIpPool) (o : op) : VirtualIpPool :=
  match o with
  | Refresh n now => (refresh_at p n now).1
  | Allocate n mesh name now => (allocate_at p n mesh name now).1
  | Tick now conntrack => (tick ord p now conntrack).1
  end.

Definition run (p : VirtualIpPool) (ops : list op) : VirtualIpPool := foldl apply_op p ops.

(** Which names an operation shows in use: one a query names, and every one with
    sessions in the connection table. *)
Definition uses (p : VirtualIpPool) (o : op) : list (NodeAddr * Z) :=
  match o with
  | Refresh n now => if (refresh_at p n now).2 then [(n, now)] else []
  | Allocate n mesh name now => if is_ok (allocate_at p n mesh name now).2 then [(n, now)] else []
  | Tick now None => []
  | Tick now (Some conntrack) =>
      (λ nm, (nm.1, now)) <$>
        filter (λ nm, 0 < sessions_for conntrack (virtual_ip nm.2)) (map_to_list (mappings p))
  end.

Fixpoint use_log (p : VirtualIpPool) (ops : list op) : list (NodeAddr * Z) :=
  match ops with
  | [] => []
  | o :: ops => uses p o ++ use_log (apply_op p o) ops
  end.

(** How many new mappings a history creates. *)
Definition creates (p : VirtualIpPool) (o : op) : Z :=
  match o with
  | Allocate n mesh name now =>
      match (allocate_at p n mesh name now).2 with Ok (_, true) => 1 | _ => 0 end
  | _ => 0
  end.

Fixpoint creations (p : VirtualIpPool) (ops : list op) : Z :=
  match ops with
  | [] => 0
  | o :: ops => creates p o + creations (apply_op p o) ops
  end.
End trace.

End PoolTrace.

(** ** The addresses lent out *)

Import VirtualIpPool PoolTrace.

Definition lent (ms : gmap NodeAddr VirtualIpMapping) : list Z := virtual_ip <$> (map_to_list ms).*2.

Lemma lent_insert_new ms n m : ms !! n = None → lent (<[n := m]> ms) ≡ₚ virtual_ip m :: lent ms.
Proof. intros Hn. unfold lent. by rewrite map_to_list_insert. Qed.

Lemma lent_delete ms n m : ms !! n = Some m → virtual_ip m :: lent (delete n ms) ≡ₚ lent ms.
Proof. intros Hn. unfold lent. by rewrite <- (map_to_list_delete ms n m). Qed.

Lemma lent_update ms n m m' : ms !! n = Some m → virtual_ip m' = virtual_ip m →
  lent (<[n := m']> ms) ≡ₚ lent ms.
Proof.
  intros Hn Hip. rewrite <- insert_delete_eq, lent_insert_new by apply lookup_delete_eq.
  rewrite Hip. by apply lent_delete.
Qed.

Lemma lent_fmap f ms : (∀ m, virtual_ip (f m) = virtual_ip m) → lent (f <$> ms) ≡ₚ lent ms.
Proof.
  intros Hf. unfold lent. rewrite map_to_list_fmap, <- !list_fmap_compose.
  apply Permutation_refl'. apply list_fmap_ext. intros i [n m] _. apply Hf.
Qed.

Lemma elem_of_lent ms ip : ip ∈ lent ms ↔ ∃ n m, ms !! n = Some m ∧ virtual_ip m = ip.
Proof.
  unfold lent. rewrite list_elem_of_fmap. split.
  - intros (m & -> & [[n m'] [-> Hin]]%list_elem_of_fmap). exists n, m'.
    by rewrite <- elem_of_map_to_list.
  - intros (n & m & Hn & <-). exists m. split; [done|]. apply list_elem_of_fmap.
    exists (n, m). by rewrite elem_of_map_to_list.
Qed.

Lemma length_lent ms : length (lent ms) = size ms.
Proof. unfold lent. by rewrite !length_fmap, length_map_to_list. Qed.

(** ** The invariant *)

Definition mapping_ok (ttl : Z) (n : NodeAddr) (m : VirtualIpMapping) : Prop :=
  node_addr m = n
  ∧ match state m with
    | Draining => ∃ d, drain_start m = Some d ∧ last_referenced m + ttl < d
    | _ => drain_start m = None
    end.

Record pool_ok (ips : list Z) (p : VirtualIpPool) : Prop := {
  po_perm : available p ++ lent (mappings p) ≡ₚ ips;
  po_rev : ∀ ip n, reverse p !! ip = Some n ↔ ∃ m, mappings p !! n = Some m ∧ virtual_ip m = ip;
  po_mapping : map_Forall (mapping_ok (ttl_secs p * 1000000000)) (mappings p);
  po_total : total p = length ips;
  po_ceiling : Z.of_nat (size (mappings p)) ≤ ceiling p
}.

Lemma tick_mapping_ip now ttl grace c m : virtual_ip (tick_mapping now ttl grace c m).1 = virtual_ip m.
Proof. unfold tick_mapping. destruct (state m); repeat case_match; done. Qed.

Lemma tick_mapping_ok now ttl grace c n m : 0 ≤ ttl →
  mapping_ok ttl n m → mapping_ok ttl n (tick_mapping now ttl grace c m).1.
Proof.
  intros Httl [Hn Hst]. unfold mapping_ok, tick_mapping. destruct (state m) eqn:Hs; simpl in *.
  - destruct (0 <? _); [done|]. destruct (Z.ltb_spec ttl (sat_sub now (last_referenced m))); [|done].
    split; [done|]. exists now. split; [done|]. simpl. mlia.
  - case_match eqn:Ht; [|done]. split; [done|]. exists now. split; [done|]. simpl.
    apply Z.ltb_lt in Ht. revert Ht. case_match; mlia.
  - destruct (0 <? _); [done|]. done.
Qed.

(** Replacing each mapping by one with the same address, in range of the
    invariant, keeps the bookkeeping. *)
Lemma set_mappings_ok ips p ms : pool_ok ips p →
  lent ms ≡ₚ lent (mappings p) →
  (∀ n, virtual_ip <$> ms !! n = virtual_ip <$> mappings p !! n) →
  map_Forall (mapping_ok (ttl_secs p * 1000000000)) ms →
  pool_ok ips (set_mappings p ms).
Proof.
  intros [Hp Hr Hm Ht Hc] Hl Hip Hok. split; simpl; [by rewrite Hl| |done|done|].
  - intros ip n. rewrite Hr. specialize (Hip n).
    destruct (ms !! n) as [m|], (mappings p !! n) as [m'|]; simplify_eq/=; naive_solver congruence.
  - by rewrite <- length_lent, Hl, length_lent.
Qed.

Lemma refreshed_ok ttl n m now : mapping_ok ttl n m → mapping_ok ttl n (refreshed m now).
Proof.
  intros [Hn Hst]. split; [done|]. unfold refreshed; simpl. destruct (state m) eqn:Hs; simpl; done.
Qed.

Lemma refresh_ok ips p n now : pool_ok ips p → pool_ok ips (refresh_at p n now).1.
Proof.
  intros Hok. unfold refresh_at. destruct (mappings p !! n) as [m|] eqn:Hn; [|done].
  apply set_mappings_ok; [done|by eapply lent_update| |].
  - intros n'. destruct (decide (n = n')) as [<-|]; simplify_map_eq; done.
  - apply map_Forall_insert_2; [|by apply Hok]. apply refreshed_ok. by eapply (po_mapping ips p Hok).
Qed.

Lemma pool_set_bucket_ok ips p b : pool_ok ips p → pool_ok ips (set_bucket p b).
Proof. by intros []. Qed.

(** [allocate_at] by cases, with the refresh resolved. *)
Lemma allocate_present p n mesh name now m : mappings p !! n = Some m →
  allocate_at p n mesh name now = ((refresh_at p n now).1, Ok (virtual_ip m, false)).
Proof. intros Hn. unfold allocate_at, refresh_at. rewrite Hn. simpl. by simplify_map_eq. Qed.

Lemma allocate_absent p n mesh name now : mappings p !! n = None →
  allocate_at p n mesh name now =
    let len := Z.of_nat (size (mappings p)) in
    let b := Bucket.refill (bucket p) now in
    if ceiling p <=? len then (p, Err (AtCeiling len))
    else if negb (Bucket.has_token b) then (set_bucket p b, Err RateLimited)
    else match available p with
         | [] => (set_bucket p b, Err (Exhausted len))
         | ip :: rest =>
             (mkPool rest (<[n := mkMapping n ip mesh name Allocated now now None 0]> (mappings p))
                (<[ip := n]> (reverse p)) (ttl_secs p) (grace_secs p) (total p) (ceiling p)
                (Bucket.take b), Ok (ip, true))
         end.
Proof. intros Hn. unfold allocate_at, refresh_at. by rewrite Hn. Qed.

Lemma allocate_ok ips p n mesh name now : NoDup ips → pool_ok ips p →
  pool_ok ips (allocate_at p n mesh name now).1.
Proof.
  intros Hnd Hok. destruct (mappings p !! n) as [m|] eqn:Hn.
  { rewrite (allocate_present _ _ _ _ _ m Hn). by apply refresh_ok. }
  rewrite allocate_absent by done. cbv zeta. destruct (Z.leb_spec (ceiling p) (Z.of_nat (size (mappings p)))); [done|].
  destruct (negb _); [by apply pool_set_bucket_ok|]. destruct (available p) as [|ip rest] eqn:Ha; [by apply pool_set_bucket_ok|].
  destruct Hok as [Hp Hr Hm Ht Hc]. split; simpl; [| | |done|].
  - rewrite lent_insert_new by done. simpl. rewrite <- Permutation_middle. by rewrite Ha in Hp.
  - intros ip' n'. assert (ip ∉ lent (mappings p)) as Hfresh.
    { rewrite <- Hp, Ha in Hnd. simpl in Hnd. apply NoDup_cons in Hnd as [Hnd _]. set_solver. }
    destruct (decide (ip = ip')) as [<-|Hip].
    + rewrite lookup_insert_eq. split.
      * intros [= <-]. eexists. by rewrite lookup_insert_eq.
      * intros (m & Hm' & Hv). destruct (decide (n = n')) as [<-|]; [done|].
        rewrite lookup_insert_ne in Hm' by done. destruct Hfresh. apply elem_of_lent. eauto.
    + rewrite lookup_insert_ne, Hr by done. destruct (decide (n = n')) as [<-|].
      * rewrite Hn, lookup_insert_eq. naive_solver.
      * by rewrite lookup_insert_ne.
  - apply map_Forall_insert_2; [by split|done].
  - rewrite map_size_insert_None by done. lia.
Qed.

(** ** Freeing *)

Lemma free_mapping_ok ips p ev n : NoDup ips → pool_ok ips p → pool_ok ips (free_mapping (p, ev) n).1.
Proof.
  intros Hnd Hok. unfold free_mapping. destruct (mappings p !! n) as [m|] eqn:Hn; [|done].
  destruct Hok as [Hp Hr Hm Ht Hc]. split; simpl; [| | |done|].
  - rewrite <- Hp, <- (lent_delete _ _ _ Hn). by rewrite <- app_assoc.
  - intros ip n'. assert (∀ n' m', mappings p !! n' = Some m' → virtual_ip m' = virtual_ip m → n' = n) as Hinj.
    { intros n1 m1 Hn1 Hv. assert (reverse p !! virtual_ip m = Some n1) as H1 by (apply Hr; eauto).
      assert (reverse p !! virtual_ip m = Some n) as H2 by (apply Hr; eauto). congruence. }
    destruct (decide (virtual_ip m = ip)) as [<-|Hip].
    + rewrite lookup_delete_eq. split; [done|]. intros (m' & Hm' & Hv).
      apply lookup_delete_Some in Hm' as [Hne Hm']. destruct Hne. symmetry. eauto.
    + rewrite lookup_delete_ne, Hr by done. destruct (decide (n = n')) as [<-|].
      * rewrite Hn, lookup_delete_eq. naive_solver.
      * by rewrite lookup_delete_ne.
  - by apply map_Forall_delete.
  - rewrite map_size_delete_Some by eauto. lia.
Qed.

Definition removed_event (m : VirtualIpMapping) : PoolEvent := MappingRemoved (virtual_ip m) (mesh_addr m).

(** The whole loop: the listed mappings go, their addresses queue up behind the
    free ones, with one event each. *)
Lemma free_all l p ev : NoDup l → (∀ n, n ∈ l → is_Some (mappings p !! n)) →
  ∃ freed, freed.*1 = l ∧ (∀ n m, (n, m) ∈ freed → mappings p !! n = Some m)
    ∧ let '(p', ev') := foldl free_mapping (p, ev) l in
      (∀ n, mappings p' !! n = if decide (n ∈ l) then None else mappings p !! n)
      ∧ available p' = available p ++ (virtual_ip <$> freed.*2)
      ∧ ev' = ev ++ (removed_event <$> freed.*2).
Proof.
  revert p ev. induction l as [|n l IH]; intros p ev Hnd Hin; cbn [foldl].
  { exists []. split; [done|]. split; [by intros ? ? ?%elem_of_nil|].
    split; [|split; by rewrite app_nil_r]. intros n. by destruct (decide _) as [?%elem_of_nil|]. }
  apply NoDup_cons in Hnd as [Hn Hnd]. destruct (Hin n) as [m Hm]; [left|].
  unfold free_mapping at 2. rewrite Hm.
  match goal with |- context [foldl _ (?q, ?e) l] => destruct (IH q e Hnd) as (freed & Hf & Hl & Hrest) end.
  { intros n' Hn'. simpl. rewrite lookup_delete_ne by set_solver. apply Hin. by right. }
  simpl in Hl, Hrest. exists ((n, m) :: freed). split; [by rewrite <- Hf|]. split.
  { intros n' m' [[= -> ->]|Hin']%elem_of_cons; [done|].
    by apply Hl, lookup_delete_Some in Hin' as [_ ?]. }
  destruct (foldl _ _ l) as [p' ev']. destruct Hrest as (Hmap & Hav & Hev). split; [|split].
  - intros n'. rewrite Hmap. destruct (decide (n = n')) as [<-|Hne].
    + rewrite lookup_delete_eq. rewrite (decide_True (P := n ∈ n :: l)) by left. by destruct (decide _).
    + rewrite lookup_delete_ne by done. by destruct (decide (n' ∈ l)), (decide (n' ∈ n :: l)); set_solver.
  - rewrite Hav. by rewrite <- app_assoc.
  - rewrite Hev. by rewrite <- app_assoc.
Qed.

(** ** The periodic tick *)

Lemma tick_mapping_free now ttl grace c m : (tick_mapping now ttl grace c m).2 = true →
  state m = Draining ∧ sessions_for c (virtual_ip m) ≤ 0
  ∧ ∃ d, drain_start m = Some d ∧ grace < sat_sub now d.
Proof.
  unfold tick_mapping. destruct (state m); [by repeat case_match..|].
  destruct (Z.ltb_spec 0 (sessions_for c (virtual_ip m))); [done|]. simpl.
  destruct (drain_start m) as [d|]; [|done]. intros Hg%Z.ltb_lt. eauto 6.
Qed.

Lemma tick_mapping_mesh now ttl grace c m : mesh_addr (tick_mapping now ttl grace c m).1 = mesh_addr m.
Proof. unfold tick_mapping. destruct (state m); repeat case_match; done. Qed.

Section pool.
Context (ord : MapOrder NodeAddr VirtualIpMapping).

Definition pool_step (p : VirtualIpPool) (now : Z) (c : ConntrackSnapshot) :=
  tick_mapping now (ttl_secs p * 1000000000) (grace_secs p * 1000000000) c.

Lemma to_free_spec (P : VirtualIpMapping → bool) (ms : gmap NodeAddr VirtualIpMapping) n :
  n ∈ (filter (λ nm : NodeAddr * VirtualIpMapping, P nm.2 = true) (map_iter ord ms)).*1
  ↔ ∃ m, ms !! n = Some m ∧ P m = true.
Proof.
  rewrite list_elem_of_fmap. split.
  - intros ([n' m] & -> & [HP Hin]%list_elem_of_filter). apply elem_of_map_iter in Hin. eauto.
  - intros (m & Hn & HP). exists (n, m). rewrite list_elem_of_filter, elem_of_map_iter. done.
Qed.

Lemma to_free_NoDup (P : VirtualIpMapping → bool) (ms : gmap NodeAddr VirtualIpMapping) :
  NoDup (filter (λ nm : NodeAddr * VirtualIpMapping, P nm.2 = true) (map_iter ord ms)).*1.
Proof.
  eapply sublist_NoDup; [apply (NoDup_map_iter_fst ord ms)|].
  apply fmap_sublist, sublist_filter.
Qed.

(** A tick is the loop body at every mapping, less the mappings it frees. *)
Lemma tick_spec p now c :
  ∃ freed : list (NodeAddr * VirtualIpMapping),
    NoDup freed.*1
    ∧ (∀ n m, (n, m) ∈ freed ↔
         ∃ m0, mappings p !! n = Some m0 ∧ (pool_step p now c m0).2 = true
               ∧ m = (pool_step p now c m0).1)
    ∧ let '(p', ev) := tick ord p now (Some c) in
      (∀ n, mappings p' !! n =
         m ← mappings p !! n; if (pool_step p now c m).2 then None else Some (pool_step p now c m).1)
      ∧ available p' = available p ++ (virtual_ip <$> freed.*2)
      ∧ ev = removed_event <$> freed.*2.
Proof.
  unfold tick. fold (pool_step p now c).
  pose proof (to_free_spec (λ m, (pool_step p now c m).2) (mappings p)) as Hl.
  pose proof (to_free_NoDup (λ m, (pool_step p now c m).2) (mappings p)) as Hnd. cbv beta in Hl, Hnd.
  set (l := (filter _ _).*1) in *. clearbody l.
  match goal with |- context [foldl _ (?q, ?e) l] => destruct (free_all l q e Hnd) as (freed & Hf & Hin & Hrest) end.
  { intros n (m & Hm & _)%Hl. simpl. rewrite lookup_fmap, Hm. eauto. }
  simpl in Hin. exists freed. split; [by rewrite Hf|]. split.
  { intros n m. split.
    - intros Hnm. pose proof (Hin _ _ Hnm) as Hm. rewrite lookup_fmap in Hm.
      apply fmap_Some in Hm as (m0 & Hm0 & ->). exists m0. split; [done|]. split; [|done].
      assert (n ∈ l) as (m1 & Hm1 & ?)%Hl by (rewrite <- Hf; by apply (list_elem_of_fmap_2 fst) in Hnm).
      by simplify_eq.
    - intros (m0 & Hm0 & Hfree & ->). assert (n ∈ freed.*1) as Hn by (rewrite Hf; apply Hl; eauto).
      apply list_elem_of_fmap in Hn as ([n' m'] & -> & Hnm). pose proof (Hin _ _ Hnm) as Hm.
      simpl in *. rewrite lookup_fmap, Hm0 in Hm. by simplify_eq/=. }
  destruct (foldl _ _ l) as [p' ev]. destruct Hrest as (Hmap & Hav & Hev). split; [|done].
  intros n. rewrite Hmap. simpl. rewrite lookup_fmap.
  destruct (mappings p !! n) as [m|] eqn:Hm; simpl; [|by destruct (decide _)].
  destruct (decide (n ∈ l)) as [(m' & Hm' & Hs)%Hl|Hno].
  - simplify_eq. by rewrite Hs.
  - destruct (pool_step p now c m).2 eqn:Hs; [|done]. destruct Hno. apply Hl. eauto.
Qed.

Lemma tick_ok ips p now conntrack : NoDup ips → 0 ≤ ttl_secs p → pool_ok ips p →
  pool_ok ips (tick ord p now conntrack).1.
Proof.
  intros Hnd Httl Hok. destruct conntrack as [c|]; [|done]. unfold tick. fold (pool_step p now c).
  set (l := (filter _ _).*1). clearbody l.
  assert (pool_ok ips (set_mappings p ((λ m, (pool_step p now c m).1) <$> mappings p))) as Hset.
  { apply set_mappings_ok; [done|apply lent_fmap; intros; apply tick_mapping_ip| |].
    - intros n. rewrite lookup_fmap. destruct (mappings p !! n); [|done].
      apply (f_equal Some), tick_mapping_ip.
    - intros n m. rewrite lookup_fmap. intros (m0 & Hm0 & ->)%fmap_Some.
      apply tick_mapping_ok; [lia|]. by eapply (po_mapping ips p Hok). }
  revert Hset. generalize (set_mappings p ((λ m, (pool_step p now c m).1) <$> mappings p)) as q.
  generalize (@nil PoolEvent) as ev. clear Hok. induction l as [|n l IH]; intros ev q Hq; [done|].
  cbn [foldl]. rewrite (surjective_pairing (free_mapping (q, ev) n)). apply IH. by apply free_mapping_ok.
Qed.

Definition config (p : VirtualIpPool) : Z * Z * nat * Z * Z * Z :=
  (ttl_secs p, grace_secs p, total p, ceiling p, Bucket.capacity (bucket p), Bucket.rate (bucket p)).

Lemma free_all_config l p ev : config (foldl free_mapping (p, ev) l).1 = config p
  ∧ bucket (foldl free_mapping (p, ev) l).1 = bucket p.
Proof.
  revert p ev. induction l as [|n l IH]; intros p ev; [done|]. cbn [foldl].
  unfold free_mapping at 2 4. destruct (mappings p !! n); [|apply IH].
  edestruct IH as [-> ->]. done.
Qed.

Lemma refresh_config p n now : config (refresh_at p n now).1 = config p
  ∧ bucket (refresh_at p n now).1 = bucket p.
Proof. unfold refresh_at. by destruct (mappings p !! n). Qed.

Lemma tick_config p now conntrack : config (tick ord p now conntrack).1 = config p
  ∧ bucket (tick ord p now conntrack).1 = bucket p.
Proof. destruct conntrack as [c|]; [|done]. unfold tick. edestruct free_all_config as [-> ->]. done. Qed.

Lemma apply_op_config p o : config (apply_op ord p o) = config p.
Proof.
  destruct o as [n now|n mesh name now|now c]; simpl; [apply refresh_config| |apply tick_config].
  destruct (mappings p !! n) as [m|] eqn:Hn.
  { rewrite (allocate_present _ _ _ _ _ m Hn). apply refresh_config. }
  rewrite allocate_absent by done. cbv zeta. by repeat case_match.
Qed.

Lemma run_config p ops : config (run ord p ops) = config p.
Proof. revert p. induction ops as [|o ops IH]; intros p; [done|]. simpl. by rewrite IH, apply_op_config. Qed.

Lemma apply_op_ok ips p o : NoDup ips → 0 ≤ ttl_secs p → pool_ok ips p → pool_ok ips (apply_op ord p o).
Proof.
  intros. destruct o; simpl; [by apply refresh_ok|by apply allocate_ok|by apply tick_ok].
Qed.

Lemma run_ok ips p ops : NoDup ips → 0 ≤ ttl_secs p → pool_ok ips p → pool_ok ips (run ord p ops).
Proof.
  intros Hnd. revert p. induction ops as [|o ops IH]; intros p Ht Hok; [done|]. simpl.
  apply IH; [|by apply apply_op_ok]. pose proof (apply_op_config p o) as Hc. injection Hc. lia.
Qed.
End pool.

(** A fresh pool. *)
Lemma pool_addresses_NoDup base max_addrs : max_addrs ≤ 2 ^ 16 → NoDup (pool_addresses base max_addrs).
Proof.
  intros Hmax. unfold pool_addresses. apply NoDup_fmap_2_strong; [|apply NoDup_seqZ].
  intros i j [? ?]%elem_of_seqZ [? ?]%elem_of_seqZ Heq.
  assert ((i - j) mod 2 ^ 128 = 0) as Hd.
  { replace (i - j) with (base + i - (base + j)) by lia. rewrite Zminus_mod, Heq, Z.sub_diag. done. }
  apply Z.mod_divide in Hd as [k Hk]; [|done]. assert (k = 0) by lia. lia.
Qed.

Lemma with_limits_ok cidr ttl grace ceil burst rate p0 : 0 ≤ ceil →
  with_limits cidr ttl grace ceil burst rate = Ok p0 →
  NoDup (available p0) ∧ pool_ok (available p0) p0
  ∧ config p0 = (ttl, grace, length (available p0), ceil, burst * Bucket.NANOS, rate)
  ∧ bucket p0 = Bucket.new burst rate ∧ mappings p0 = ∅.
Proof.
  intros Hc. unfold with_limits. destruct cidr as [[base pl]| |]; cbn [mbind outcome_bind]; [|done..].
  destruct (_ || _) eqn:Hpl; [done|]. intros [= <-]. simpl. apply orb_false_iff in Hpl as [? ?%Z.ltb_ge].
  split; [|done || split_and!; try done].
  - apply pool_addresses_NoDup. destruct (Z.ltb_spec 16 (128 - pl)); [done|].
    rewrite Z.shiftl_1_l. destruct (Z.le_gt_cases 0 (128 - pl)); [by apply Z.pow_le_mono_r|].
    by rewrite Z.pow_neg_r.
  - split; simpl; try done.
    + by rewrite app_nil_r.
    + intros ip n. rewrite !lookup_empty. naive_solver.
Qed.

(** ** Reclamation *)

Lemma tick_mapping_referenced now ttl grace c m :
  last_referenced (tick_mapping now ttl grace c m).1 =
    if 0 <? sessions_for c (virtual_ip m) then now else last_referenced m.
Proof. unfold tick_mapping. destruct (state m); repeat case_match; done. Qed.

Section reclaim.
Context (ord : MapOrder NodeAddr VirtualIpMapping).

Lemma uses_tick p now c n t : (n, t) ∈ uses p (Tick now (Some c)) ↔
  t = now ∧ ∃ m, mappings p !! n = Some m ∧ 0 < sessions_for c (virtual_ip m).
Proof.
  simpl. rewrite list_elem_of_fmap. split.
  - intros ([n' m] & [= -> ->] & [Hs Hin]%list_elem_of_filter).
    apply elem_of_map_to_list in Hin. eauto.
  - intros (-> & m & Hm & Hs). exists (n, m). split; [done|]. apply list_elem_of_filter.
    split; [done|]. by apply elem_of_map_to_list.
Qed.

Lemma uses_time p o n t : (n, t) ∈ uses p o → t = op_time o.
Proof.
  destruct o as [k now|k mesh name now|now [c|]].
  - simpl. case_match; [|by intros ?%elem_of_nil]. by intros [= -> ->]%list_elem_of_singleton.
  - simpl. case_match; [|by intros ?%elem_of_nil]. by intros [= -> ->]%list_elem_of_singleton.
  - intros [-> _]%uses_tick. done.
  - by intros ?%elem_of_nil.
Qed.

(** A mapping's reference time moves only to the clock of an operation, and
    does so whenever the operation shows the name in use. *)
Lemma apply_op_referenced p o n m' : mappings (apply_op ord p o) !! n = Some m' →
  last_referenced m' = op_time o
  ∨ ∃ m, mappings p !! n = Some m ∧ last_referenced m' = last_referenced m ∧ ∀ t, (n, t) ∉ uses p o.
Proof.
  assert (∀ k now, mappings (refresh_at p k now).1 !! n = Some m' → last_referenced m' = now
    ∨ mappings p !! n = Some m' ∧ (k ≠ n ∨ mappings p !! k = None)) as Hrefresh.
  { intros k now. unfold refresh_at. destruct (mappings p !! k) as [m|] eqn:Hk; simpl; [|by eauto].
    intros [[-> <-]|[? ?]]%lookup_insert_Some; [by left|]. by eauto. }
  destruct o as [k now|k mesh name now|now [c|]].
  - cbn [apply_op op_time uses]. intros [?|[Hm Hk]]%Hrefresh; [by left|]. right. exists m'.
    split_and!; [done..|]. intros t. unfold refresh_at. destruct (mappings p !! k) eqn:?; set_solver.
  - cbn [apply_op op_time uses]. destruct (mappings p !! k) as [m|] eqn:Hk.
    { rewrite (allocate_present _ _ _ _ _ m Hk). intros [?|[Hm ?]]%Hrefresh; [by left|]. right.
      exists m'. split_and!; [done..|]. intros t. simpl. set_solver. }
    rewrite allocate_absent by done. cbv zeta.
    destruct (ceiling p <=? _); [simpl; intros; right; exists m'; set_solver|].
    destruct (negb _); [simpl; intros; right; exists m'; set_solver|].
    destruct (available p) as [|ip rest]; simpl; [intros; right; exists m'; set_solver|].
    intros [[-> <-]|[? ?]]%lookup_insert_Some; [by left|]. right. exists m'. set_solver.
  - cbn [apply_op op_time]. destruct (tick_spec ord p now c) as (freed & _ & _ & Hrest).
    destruct (tick ord p now (Some c)) as [p' ev]. destruct Hrest as (Hmap & _). cbn [fst]. rewrite Hmap.
    intros (m & Hm & Hst)%bind_Some. destruct (pool_step p now c m).2; [done|]. injection Hst as <-.
    unfold pool_step. rewrite tick_mapping_referenced.
    destruct (Z.ltb_spec 0 (sessions_for c (virtual_ip m))); [by left|]. right. exists m.
    split_and!; [done..|]. intros t (_ & m1 & Hm1 & ?)%uses_tick. simplify_eq. lia.
  - simpl. intros Hm. right. exists m'. set_solver.
Qed.

(** The clock of a history never runs backwards. *)
Definition times_from (t0 : Z) (ops : list op) : Prop := Sorted Z.le (t0 :: (op_time <$> ops)).

Lemma times_from_app t0 ops ops' : times_from t0 (ops ++ ops') → times_from t0 ops.
Proof.
  unfold times_from. rewrite fmap_app. intros Hs. apply Sorted_StronglySorted in Hs; [|exact Z.le_trans].
  apply StronglySorted_Sorted, (StronglySorted_app_1_l Z.le (t0 :: (op_time <$> ops)) _ Hs).
Qed.

Definition referenced_ok (clock : Z) (p : VirtualIpPool) (log : list (NodeAddr * Z)) : Prop :=
  (∀ n t, (n, t) ∈ log → t ≤ clock)
  ∧ ∀ n m, mappings p !! n = Some m → last_referenced m ≤ clock
      ∧ ∀ t, (n, t) ∈ log → t ≤ last_referenced m.

Lemma run_referenced clock p log ops : times_from clock ops → referenced_ok clock p log →
  ∃ clock', (∀ t, times_from clock (ops ++ [t]) → clock' ≤ op_time t)
    ∧ referenced_ok clock' (run ord p ops) (log ++ use_log ord p ops).
Proof.
  revert clock p log. induction ops as [|o ops IH]; intros clock p log Hs Hok.
  { exists clock. split; [|by rewrite app_nil_r].
    intros t Ht. by apply Sorted_inv in Ht as [_ ?%HdRel_inv]. }
  apply Sorted_inv in Hs as [Hs Hle%HdRel_inv]. destruct Hok as [Hlog Hms].
  destruct (IH (op_time o) (apply_op ord p o) (log ++ uses p o)) as (clock' & Hc & Hok); [done| |].
  - split.
    + intros n t [Hin|Hin%uses_time]%elem_of_app; [|lia]. specialize (Hlog _ _ Hin). lia.
    + intros n m Hm. apply apply_op_referenced in Hm as [Heq|(m0 & Hm0 & Heq & Hno)].
      * split; [lia|]. intros t [Hin|Hin%uses_time]%elem_of_app; [|lia]. specialize (Hlog _ _ Hin). lia.
      * destruct (Hms _ _ Hm0) as [? Hl]. split; [lia|].
        intros t [Hin|Hin]%elem_of_app; [|by destruct (Hno t)]. specialize (Hl _ Hin). lia.
  - exists clock'. split; [|by rewrite <- app_assoc in Hok].
    intros t Ht. apply Hc. by apply Sorted_inv in Ht as [Ht _].
Qed.

Lemma initial_referenced clock p : mappings p = ∅ → referenced_ok clock p [].
Proof. intros He. split; [by intros ? ? ?%elem_of_nil|]. rewrite He. intros n m. by rewrite lookup_empty. Qed.

(** An unused mapping that is draining stays so or is freed. *)
Definition going (t : Z) (p : VirtualIpPool) (n : NodeAddr) : Prop :=
  match mappings p !! n with
  | Some m => state m = Draining ∧ ∃ d, drain_start m = Some d ∧ d ≤ t
  | None => True
  end.

Lemma apply_op_going t p o n : going t p n → (∀ t', (n, t') ∉ uses p o) → going t (apply_op ord p o) n.
Proof.
  unfold going. intros Hg Hno. destruct o as [k now|k mesh name now|now [c|]]; cbn [apply_op]; [| | |done].
  - revert Hno. simpl. unfold refresh_at. destruct (mappings p !! k) as [m|] eqn:Hk; simpl; [|done].
    intros Hno. rewrite lookup_insert_ne; [done|]. intros ->. apply (Hno now). left.
  - revert Hno. cbn [uses]. destruct (mappings p !! k) as [m|] eqn:Hk.
    { rewrite (allocate_present _ _ _ _ _ m Hk). unfold refresh_at. rewrite Hk. simpl. intros Hno.
      rewrite lookup_insert_ne; [done|]. intros ->. apply (Hno now). left. }
    rewrite allocate_absent by done. cbv zeta. destruct (ceiling p <=? _); [done|].
    destruct (negb _); [done|]. destruct (available p); simpl; [done|]. intros Hno.
    rewrite lookup_insert_ne; [done|]. intros ->. apply (Hno now). left.
  - destruct (tick_spec ord p now c) as (freed & _ & _ & Hrest).
    destruct (tick ord p now (Some c)) as [p' ev]. destruct Hrest as (Hmap & _). cbn [fst]. rewrite Hmap.
    destruct (mappings p !! n) as [m|] eqn:Hm; [|done]. cbn [mbind option_bind].
    destruct (pool_step p now c m).2 eqn:Hf; [done|]. destruct Hg as (Hst & d & Hd & Hle).
    unfold pool_step, tick_mapping. rewrite Hst.
    destruct (Z.ltb_spec 0 (sessions_for c (virtual_ip m))) as [Hs|Hs]; [|simpl; eauto].
    destruct (Hno now). apply uses_tick. eauto.
Qed.

Lemma run_going t p ops n : going t p n → (∀ t', (n, t') ∉ use_log ord p ops) →
  going t (run ord p ops) n.
Proof.
  revert p. induction ops as [|o ops IH]; intros p Hg Hno; [done|]. simpl. apply IH.
  - apply apply_op_going; [done|]. intros t' Hin. apply (Hno t'). simpl. set_solver.
  - intros t' Hin. apply (Hno t'). simpl. set_solver.
Qed.
End reclaim.

(** ** The rate limit *)

(** What a bucket has paid out since instant [a], against what it was given. *)
Definition bucket_paid (a : Z) (b : Bucket.Bucket) (spent : Z) : Prop :=
  0 ≤ Bucket.rate b ∧ Bucket.level b ≤ Bucket.capacity b
  ∧ match Bucket.last b with
    | Some l => if a <=? l then spent + Bucket.level b ≤ Bucket.capacity b + Bucket.rate b * (l - a)
                else spent = 0
    | None => spent = 0
    end.

Lemma refill_paid a b spent now : a ≤ now → bucket_paid a b spent → bucket_paid a (Bucket.refill b now) spent.
Proof.
  intros Ha (Hr & Hl & Hp). unfold bucket_paid, Bucket.refill in *. simpl.
  destruct (Bucket.last b) as [l|]; simpl.
  - split; [done|]. split; [lia|]. rewrite (proj2 (Z.leb_le a (Z.max l now))) by lia.
    destruct (Z.leb_spec a l); [|nia]. unfold sat_sub. nia.
  - split; [done|]. split; [done|]. rewrite (proj2 (Z.leb_le a now)) by lia. nia.
Qed.

Lemma take_paid a b spent : bucket_paid a b spent → Bucket.has_token b = true →
  (∃ l, Bucket.last b = Some l ∧ a ≤ l) → bucket_paid a (Bucket.take b) (spent + Bucket.NANOS).
Proof.
  intros (Hr & Hl & Hp) Ht%Z.leb_le (l & Hlast & Hal). unfold bucket_paid, Bucket.take in *. simpl.
  rewrite Hlast in *. rewrite (proj2 (Z.leb_le a l)) in * by lia. unfold sat_sub, Bucket.NANOS in *. lia.
Qed.

Lemma refill_last a b now : a ≤ now → ∃ l, Bucket.last (Bucket.refill b now) = Some l ∧ a ≤ l.
Proof. intros. simpl. eexists. split; [done|]. destruct (Bucket.last b); lia. Qed.

Lemma run_paid ord a p ops spent : Forall (λ o, a ≤ op_time o) ops → bucket_paid a (bucket p) spent →
  bucket_paid a (bucket (run ord p ops)) (spent + creations ord p ops * Bucket.NANOS).
Proof.
  intros Hall. revert p spent. induction Hall as [|o ops Ho _ IH]; intros p spent Hb; cbn [run foldl creations].
  { by rewrite Z.mul_0_l, Z.add_0_r. }
  replace (spent + (creates p o + creations ord (apply_op ord p o) ops) * Bucket.NANOS)
    with (spent + creates p o * Bucket.NANOS + creations ord (apply_op ord p o) ops * Bucket.NANOS) by lia.
  apply IH. destruct o as [n now|n mesh name now|now c]; cbn [apply_op creates op_time] in *.
  - rewrite (proj2 (refresh_config p n now)). by rewrite Z.mul_0_l, Z.add_0_r.
  - destruct (mappings p !! n) as [m|] eqn:Hn.
    { rewrite (allocate_present _ _ _ _ _ m Hn). cbn [fst snd]. rewrite (proj2 (refresh_config p n now)).
      by rewrite Z.mul_0_l, Z.add_0_r. }
    pose proof (refill_paid a _ _ now Ho Hb) as Hb'.
    rewrite allocate_absent by done. cbv zeta. destruct (ceiling p <=? _); cbn [fst snd].
    { by rewrite Z.mul_0_l, Z.add_0_r. }
    destruct (Bucket.has_token _) eqn:Ht; cbn [negb fst snd]; [|by rewrite Z.mul_0_l, Z.add_0_r].
    destruct (available p); cbn [fst snd bucket set_bucket]; [by rewrite Z.mul_0_l, Z.add_0_r|].
    rewrite Z.mul_1_l. apply take_paid; [done|done|]. by apply refill_last.
  - rewrite (proj2 (tick_config ord p now c)). by rewrite Z.mul_0_l, Z.add_0_r.
Qed.

Definition bucket_until (b : Z) (k : Bucket.Bucket) : Prop :=
  0 ≤ Bucket.level k ≤ Bucket.capacity k ∧ 0 ≤ Bucket.rate k
  ∧ match Bucket.last k with Some l => l ≤ b | None => True end.

Lemma run_until ord b p ops : Forall (λ o, op_time o ≤ b) ops → bucket_until b (bucket p) →
  bucket_until b (bucket (run ord p ops)).
Proof.
  intros Hall. revert p. induction Hall as [|o ops Ho _ IH]; intros p Hb; [done|]. simpl. apply IH.
  destruct o as [n now|n mesh name now|now c]; cbn [apply_op op_time] in *.
  - by rewrite (proj2 (refresh_config p n now)).
  - destruct (mappings p !! n) as [m|] eqn:Hn.
    { rewrite (allocate_present _ _ _ _ _ m Hn). cbn [fst]. by rewrite (proj2 (refresh_config p n now)). }
    assert (bucket_until b (Bucket.refill (bucket p) now)) as Hr.
    { destruct Hb as (? & ? & ?). unfold bucket_until, Bucket.refill.
      cbn [Bucket.level Bucket.capacity Bucket.rate Bucket.last]. destruct (Bucket.last (bucket p)) as [l|]; [|lia].
      assert (0 ≤ sat_sub now l * Bucket.rate (bucket p)) by (unfold sat_sub; nia).
      assert (0 ≤ U128_MAX) by done. generalize dependent U128_MAX. intros u ?.
      generalize dependent (sat_sub now l * Bucket.rate (bucket p)). intros e ?. lia. }
    rewrite allocate_absent by done. cbv zeta. destruct (ceiling p <=? _); [done|].
    destruct (negb _); [done|]. destruct (available p); [done|]. cbn [fst bucket].
    revert Hr. generalize (Bucket.refill (bucket p) now). intros k (? & ? & ?).
    split; [|done]. simpl. unfold sat_sub, Bucket.NANOS. lia.
  - by rewrite (proj2 (tick_config ord p now c)).
Qed.

Lemma count_states p :
  (count_state p Allocated + count_state p Active + count_state p Draining = size (mappings p))%nat.
Proof.
  unfold count_state. rewrite <- length_map_to_list.
  induction (map_to_list (mappings p)) as [|[n m] l IH]; [done|].
  rewrite !filter_cons. simpl. destruct (state m) eqn:Hs; repeat case_decide; try congruence; simpl; lia.
Qed.

Lemma removed_events_NoDup freed : NoDup (virtual_ip <$> freed) → NoDup (removed_event <$> freed).
Proof.
  intros Hnd. apply (NoDup_fmap_1 (λ e, match e with MappingRemoved ip _ | MappingCreated ip _ => ip end)).
  by rewrite <- list_fmap_compose.
Qed.

(** The mappings a tick frees had been idle. *)
Lemma freed_idle ips p now c n m : pool_ok ips p → mappings p !! n = Some m →
  (pool_step p now c m).2 = true → 0 ≤ grace_secs p →
  last_referenced m + (ttl_secs p + grace_secs p) * 1000000000 < now.
Proof.
  intros Hok Hm (Hst & _ & d & Hd & Hlate)%tick_mapping_free Hg.
  destruct (po_mapping _ _ Hok n m Hm) as [_ Hdr]. rewrite Hst in Hdr. destruct Hdr as (d' & Hd' & Hidle).
  simplify_eq. mlia.
Qed.

Section reclaim_steps.
Context (ord : MapOrder NodeAddr VirtualIpMapping).

Lemma use_log_app p ops ops' :
  use_log ord p (ops ++ ops') = use_log ord p ops ++ use_log ord (run ord p ops) ops'.
Proof.
  revert p. induction ops as [|o ops IH]; intros p; [done|]. cbn [app use_log]. rewrite IH.
  by rewrite <- app_assoc.
Qed.

Lemma tick_starts_draining p n m t c : mappings p !! n = Some m → state m ≠ Draining →
  sessions_for c (virtual_ip m) = 0 → last_referenced m + ttl_secs p * 1000000000 < t →
  0 ≤ ttl_secs p → going t (tick ord p t (Some c)).1 n.
Proof.
  intros Hm Hst Hs Hidle Httl. destruct (tick_spec ord p t c) as (freed & _ & _ & Hrest).
  destruct (tick ord p t (Some c)) as [q ev]. destruct Hrest as (Hmap & _).
  unfold going. cbn [fst]. rewrite Hmap, Hm. cbn [mbind option_bind].
  unfold pool_step, tick_mapping. rewrite Hs. cbn [Z.ltb Z.compare].
  assert ((ttl_secs p * 1000000000 <? sat_sub t (last_referenced m)) = true) as -> by (apply Z.ltb_lt; mlia).
  destruct (state m); simpl; [by split; [|exists t]|by split; [|exists t]|done].
Qed.

Lemma tick_frees_draining p n t1 t2 c : going t1 p n → (∀ t, (n, t) ∉ uses p (Tick t2 (Some c))) →
  t1 + grace_secs p * 1000000000 < t2 → 0 ≤ grace_secs p →
  mappings (tick ord p t2 (Some c)).1 !! n = None.
Proof.
  intros Hgo Hno Hlate Hg. destruct (tick_spec ord p t2 c) as (freed & _ & _ & Hrest).
  destruct (tick ord p t2 (Some c)) as [q ev]. destruct Hrest as (Hmap & _). cbn [fst]. rewrite Hmap.
  unfold going in Hgo. destruct (mappings p !! n) as [m|] eqn:Hm; [|done]. cbn [mbind option_bind].
  destruct Hgo as (Hst & d & Hd & Hle). unfold pool_step, tick_mapping. rewrite Hst, Hd.
  destruct (Z.ltb_spec 0 (sessions_for c (virtual_ip m))) as [Hs|Hs].
  - destruct (Hno t2). apply uses_tick. eauto.
  - simpl. assert ((grace_secs p * 1000000000 <? sat_sub t2 d) = true) as ->; [apply Z.ltb_lt; mlia|done].
Qed.
End reclaim_steps.

(** ** The addresses of a fresh pool *)

Lemma elem_of_pool_addresses base k ip :
  ip ∈ pool_addresses base k ↔ ∃ i, 1 ≤ i < k ∧ ip = (base + i) mod 2 ^ 128.
Proof.
  unfold pool_addresses. rewrite list_elem_of_fmap. split.
  - intros (i & -> & ?%elem_of_seqZ). exists i. split; [lia|done].
  - intros (i & ? & ->). exists i. rewrite elem_of_seqZ. split; [done|lia].
Qed.

Lemma pool_addresses_base base k : 0 ≤ base < 2 ^ 128 → base ∉ pool_addresses base (Z.min k (2 ^ 16)).
Proof.
  intros Hb (i & ? & Heq)%elem_of_pool_addresses. rewrite <- (Z.mod_small base (2 ^ 128)) in Heq at 1 by lia.
  assert ((base + i - base) mod 2 ^ 128 = 0) as Hd by (by rewrite Zminus_mod, <- Heq, Z.sub_diag).
  replace (base + i - base) with i in Hd by lia. rewrite Z.mod_small in Hd; lia.
Qed.

Lemma pool_addresses_aligned base h w k ip : 0 ≤ base < 2 ^ 128 → 0 < h → h * w = 2 ^ 128 →
  base mod h = 0 → k ≤ h → ip ∈ pool_addresses base k → ip / h = base / h.
Proof.
  intros Hb Hh Hw Hal Hk (i & Hi & ->)%elem_of_pool_addresses.
  pose proof (Z.div_mod base h ltac:(lia)) as Hdm. rewrite Hal in Hdm.
  assert (base / h < w) by (apply Z.div_lt_upper_bound; lia).
  rewrite (Z.mod_small (base + i)) by nia.
  symmetry. apply Z.div_unique with i; lia.
Qed.

Lemma pool_addresses_escape base h w : 0 ≤ base < 2 ^ 128 → 0 < h → h * w = 2 ^ 128 → 2 ≤ w →
  base mod h ≠ 0 → ∃ ip, ip ∈ pool_addresses base h ∧ ip / h ≠ base / h.
Proof.
  intros Hb Hh Hw Hw2 Hal. pose proof (Z.div_mod base h ltac:(lia)) as Hdm.
  pose proof (Z.mod_pos_bound base h Hh). assert (0 ≤ base / h < w).
  { split; [by apply Z.div_pos; lia|]. apply Z.div_lt_upper_bound; lia. }
  exists ((base + (h - base mod h)) mod 2 ^ 128). split.
  { apply elem_of_pool_addresses. exists (h - base mod h). split; [lia|done]. }
  replace (base + (h - base mod h)) with (h * (base / h + 1)) by lia. rewrite <- Hw.
  rewrite Z.mul_mod_distr_l by lia. rewrite (Z.mul_comm h), Z.div_mul by lia.
  destruct (decide (base / h + 1 = w)) as [Hq|].
  - rewrite Hq, Z.mod_same by lia. lia.
  - rewrite Z.mod_small by lia. lia.
Qed.

(** ** Properties *)

(** C30: After any sequence of queries and ticks, the free addresses and the
    lent ones are together exactly the addresses of the fresh pool, each once;
    looking an address up answers exactly the mapping it is lent to; there are
    never more mappings than the ceiling, and the status counts add up. *)
Theorem gateway_pool_partition ord cidr ttl grace ceil burst rate p0 ops :
  0 ≤ ttl → 0 ≤ ceil → with_limits cidr ttl grace ceil burst rate = Ok p0 →
  let p := run ord p0 ops in
  NoDup (available p ++ lent (mappings p))
  ∧ available p ++ lent (mappings p) ≡ₚ available p0
  ∧ (∀ ip m, lookup_virtual_ip p ip = Some m ↔ mappings p !! node_addr m = Some m ∧ virtual_ip m = ip)
  ∧ Z.of_nat (size (mappings p)) ≤ ceil
  ∧ (st_allocated (status p) + st_active (status p) + st_draining (status p) + st_free (status p)
     = st_total (status p))%nat.
Proof.
  intros Httl Hceil Hp0. destruct (with_limits_ok _ _ _ _ _ _ _ Hceil Hp0) as (Hnd & Hok & Hcfg & _).
  intros p. pose proof (run_config ord p0 ops) as Hc. rewrite Hcfg in Hc. fold p in Hc.
  assert (pool_ok (available p0) p) as [Hp Hr Hm Ht Hl].
  { apply run_ok; [done| |done]. injection Hcfg. lia. }
  split; [by rewrite Hp|]. split; [done|]. split; [|split].
  - intros ip m. unfold lookup_virtual_ip. split.
    + intros (n & (m' & Hn & Hv)%Hr & Hm')%bind_Some. simplify_eq. by rewrite (proj1 (Hm _ _ Hn)).
    + intros [Hn Hv]. apply bind_Some. exists (node_addr m). split; [|done]. apply Hr. eauto.
  - injection Hc. lia.
  - simpl. rewrite count_states, Ht, <- Hp, length_app, length_lent. lia.
Qed.

(** A query for a mapped name answers its address whatever the limits say;
    one for a new name is refused at the ceiling, then by the rate limit, then
    when no address is free, in that order, lending nothing; and otherwise lends
    the address that has been free longest. *)
Theorem gateway_allocate_exact p n mesh name now :
  match allocate_at p n mesh name now with
  | (p', Ok (ip, false)) =>
      ∃ m, mappings p !! n = Some m ∧ ip = virtual_ip m ∧ available p' = available p
        ∧ bucket p' = bucket p ∧ mappings p' = <[n := refreshed m now]> (mappings p)
  | (p', Ok (ip, true)) =>
      mappings p !! n = None ∧ available p = ip :: available p'
      ∧ Z.of_nat (size (mappings p)) < ceiling p
      ∧ Bucket.has_token (Bucket.refill (bucket p) now) = true
      ∧ mappings p' = <[n := mkMapping n ip mesh name Allocated now now None 0]> (mappings p)
      ∧ reverse p' = <[ip := n]> (reverse p)
  | (p', Err e) =>
      mappings p !! n = None ∧ mappings p' = mappings p ∧ available p' = available p
      ∧ reverse p' = reverse p
      ∧ e = (let len := Z.of_nat (size (mappings p)) in
             if ceiling p <=? len then AtCeiling len
             else if Bucket.has_token (Bucket.refill (bucket p) now) then Exhausted len
             else RateLimited)
      ∧ (∀ len, e = Exhausted len → available p = [])
  | (_, Panic) => False
  end.
Proof.
  destruct (mappings p !! n) as [m|] eqn:Hn.
  { rewrite (allocate_present _ _ _ _ _ m Hn). unfold refresh_at. rewrite Hn. simpl. eauto 10. }
  rewrite allocate_absent by done. cbv zeta.
  destruct (Z.leb_spec (ceiling p) (Z.of_nat (size (mappings p)))) as [|Hlt]; [naive_solver|].
  destruct (Bucket.has_token _) eqn:Ht; simpl; [|naive_solver].
  destruct (available p) as [|ip rest] eqn:Ha; simpl; naive_solver.
Qed.

(** While the clock runs forward, a tick takes away only names that no
    query named and no connection used for the lifetime and the grace period
    together; it reports each once and returns its address to the free queue. *)
Theorem gateway_reclaims_only_idle ord cidr ttl grace ceil burst rate p0 ops t0 now conntrack :
  0 ≤ ttl → 0 ≤ grace → 0 ≤ ceil → with_limits cidr ttl grace ceil burst rate = Ok p0 →
  times_from t0 (ops ++ [Tick now conntrack]) →
  let p := run ord p0 ops in
  let '(p', events) := tick ord p now conntrack in
  (∀ n m, mappings p !! n = Some m → mappings p' !! n = None →
     (∀ t, (n, t) ∈ use_log ord p0 ops → t + (ttl + grace) * 1000000000 < now)
     ∧ virtual_ip m ∈ available p' ∧ removed_event m ∈ events)
  ∧ (∀ e, e ∈ events → ∃ n m, mappings p !! n = Some m ∧ mappings p' !! n = None ∧ e = removed_event m)
  ∧ NoDup events.
Proof.
  intros Httl Hgrace Hceil Hp0 Htimes p. destruct conntrack as [c|].
  2:{ simpl. split; [naive_solver|]. split; [by intros e ?%elem_of_nil|constructor]. }
  destruct (with_limits_ok _ _ _ _ _ _ _ Hceil Hp0) as (Hnd & Hok & Hcfg & _ & Hempty).
  pose proof (times_from_app _ _ _ Htimes) as Hops.
  destruct (run_referenced ord t0 p0 [] ops Hops (initial_referenced t0 p0 Hempty)) as (clock & _ & _ & Href).
  pose proof (run_config ord p0 ops) as Hc. rewrite Hcfg in Hc. fold p in Hc, Href. injection Hc as Ht Hg _ _ _ _.
  assert (pool_ok (available p0) p) as Hpok by (apply run_ok; [done|injection Hcfg; lia|done]).
  assert (pool_ok (available p0) (tick ord p now (Some c)).1) as Hpok' by (apply tick_ok; [done|lia|done]).
  destruct (tick_spec ord p now c) as (freed & Hfnd & Hfreed & Hrest).
  destruct (tick ord p now (Some c)) as [p' events]. destruct Hrest as (Hmap & Hav & ->).
  assert (∀ n m, mappings p !! n = Some m → mappings p' !! n = None → (pool_step p now c m).2 = true) as Hgone.
  { intros n m Hm. rewrite Hmap, Hm. simpl. by destruct (pool_step p now c m).2. }
  split; [|split].
  - intros n m Hm Hnone. pose proof (Hgone _ _ Hm Hnone) as Hfree.
    assert ((pool_step p now c m).1 ∈ freed.*2) as Hin.
    { apply list_elem_of_fmap. exists (n, (pool_step p now c m).1). split; [done|]. apply Hfreed. eauto. }
    pose proof (freed_idle _ _ _ _ _ _ Hpok Hm Hfree ltac:(lia)) as Hidle. split; [|split].
    + intros t Hin'. destruct (Href n m Hm) as [_ Hle]. specialize (Hle t Hin'). lia.
    + rewrite Hav. apply elem_of_app. right. apply list_elem_of_fmap. eexists. split; [|done].
      symmetry. apply tick_mapping_ip.
    + apply list_elem_of_fmap. eexists. split; [|done]. unfold removed_event, pool_step.
      by rewrite tick_mapping_ip, tick_mapping_mesh.
  - intros e (m & -> & [[n m'] [-> Hnm]]%list_elem_of_fmap)%list_elem_of_fmap.
    apply Hfreed in Hnm as (m0 & Hm0 & Hfree & ->). exists n, m0. split; [done|]. split.
    + rewrite Hmap, Hm0. simpl. by rewrite Hfree.
    + unfold removed_event, pool_step. simpl. by rewrite tick_mapping_ip, tick_mapping_mesh.
  - assert (NoDup (virtual_ip <$> freed.*2)) as Hips.
    { pose proof (po_perm _ _ Hpok') as Hp'. simpl in Hp'. rewrite Hav in Hp'. rewrite <- Hp' in Hnd.
      apply NoDup_app in Hnd as [Hnd _]. by apply NoDup_app in Hnd as (_ & _ & ?). }
    by apply removed_events_NoDup.
Qed.

(** A mapping that is idle past its lifetime at one tick and not used until
    a tick more than the grace period later has been reclaimed by then, whatever
    happens to other names in between. *)
Theorem gateway_idle_is_reclaimed ord p n m t1 c1 ops t2 c2 :
  mappings p !! n = Some m → state m ≠ Draining → sessions_for c1 (virtual_ip m) = 0 →
  last_referenced m + ttl_secs p * 1000000000 < t1 → 0 ≤ ttl_secs p →
  (∀ t, (n, t) ∉ use_log ord (tick ord p t1 (Some c1)).1 (ops ++ [Tick t2 (Some c2)])) →
  t1 + grace_secs p * 1000000000 < t2 → 0 ≤ grace_secs p →
  mappings (run ord p (Tick t1 (Some c1) :: ops ++ [Tick t2 (Some c2)])) !! n = None.
Proof.
  intros Hm Hst Hs Hidle Httl Hno Hlate Hg. unfold run. cbn [foldl apply_op]. rewrite foldl_app. cbn [foldl].
  fold (run ord (tick ord p t1 (Some c1)).1 ops).
  assert (going t1 (tick ord p t1 (Some c1)).1 n) as Hgo by (by eapply tick_starts_draining).
  pose proof (tick_config ord p t1 (Some c1)) as [Hc _].
  generalize dependent (tick ord p t1 (Some c1)).1. intros q Hno Hgo Hc.
  rewrite use_log_app in Hno.
  assert (going t1 (run ord q ops) n) as Hgo' by (apply run_going; [done|]; intros t ?; apply (Hno t); set_solver).
  pose proof (run_config ord q ops) as Hc'. rewrite Hc in Hc'. injection Hc' as _ Hgs _ _ _ _.
  assert (∀ t, (n, t) ∉ uses (run ord q ops) (Tick t2 (Some c2))) as Hno2.
  { intros t Hin. apply (Hno t), elem_of_app. right. cbn [use_log]. by apply elem_of_app; left. }
  apply (tick_frees_draining ord _ n t1); [done|done|lia|lia].
Qed.

(** Over any stretch of time, after any history, the pool creates at most
    the burst and what the rate admits in that time. *)
Theorem gateway_creation_rate ord cidr ttl grace ceil burst rate p0 before window a b :
  0 ≤ burst → 0 ≤ rate → 0 ≤ ceil → with_limits cidr ttl grace ceil burst rate = Ok p0 →
  a ≤ b → Forall (λ o, op_time o ≤ b) (before ++ window) → Forall (λ o, a ≤ op_time o) window →
  creations ord (run ord p0 before) window * Bucket.NANOS ≤ burst * Bucket.NANOS + rate * (b - a).
Proof.
  intros Hburst Hrate Hceil Hp0 Hab Hb Ha.
  destruct (with_limits_ok _ _ _ _ _ _ _ Hceil Hp0) as (_ & _ & Hcfg & Hbk & _).
  assert (∀ ops, config (run ord p0 ops) = config p0) as Hc by (intros; apply run_config).
  apply Forall_app in Hb as [Hb1 Hb2].
  assert (bucket_until b (bucket p0)) as Hu.
  { rewrite Hbk. unfold bucket_until, Bucket.new, Bucket.NANOS. simpl. lia. }
  pose proof (run_until ord b p0 before Hb1 Hu) as Hu1.
  assert (bucket_paid a (bucket (run ord p0 before)) 0) as Hpaid.
  { destruct Hu1 as (? & ? & ?). split; [done|]. split; [lia|].
    destruct (Bucket.last _) as [l|]; [|done]. destruct (Z.leb_spec a l); [nia|done]. }
  pose proof (run_paid ord a _ window 0 Ha Hpaid) as (_ & _ & Hend).
  pose proof (run_until ord b _ window Hb2 Hu1) as (Hlev & _ & Hlast).
  assert (run ord (run ord p0 before) window = run ord p0 (before ++ window)) as Heq
    by (unfold run; by rewrite foldl_app).
  rewrite Heq in *. specialize (Hc (before ++ window)). rewrite Hcfg in Hc. injection Hc as _ _ _ _ Hcap Hrt.
  rewrite Hcap, Hrt in Hend. destruct (Bucket.last _) as [l|]; [|nia].
  destruct (Z.leb_spec a l); nia.
Qed.

(** The addresses of a fresh pool are distinct, never the base, and number
    one less than the range, capped at 2^16; they stay inside the range when its
    base has no host bits, and only then for the ranges up to the cap: a base
    with host bits set is not masked, and the pool runs past the end. *)
Theorem gateway_pool_range base prefix_len ttl grace ceil burst rate p :
  0 ≤ base < 2 ^ 128 →
  with_limits (Ok (base, prefix_len)) ttl grace ceil burst rate = Ok p →
  0 < prefix_len →
  let h := 128 - prefix_len in
  NoDup (available p) ∧ base ∉ available p
  ∧ Z.of_nat (length (available p)) = Z.min (2 ^ h) (2 ^ 16) - 1
  ∧ (base mod 2 ^ h = 0 → ∀ ip, ip ∈ available p → ip / 2 ^ h = base / 2 ^ h)
  ∧ (h ≤ 16 → base mod 2 ^ h ≠ 0 → ∃ ip, ip ∈ available p ∧ ip / 2 ^ h ≠ base / 2 ^ h).
Proof.
  intros Hbase. unfold with_limits. cbn [mbind outcome_bind].
  destruct (_ || _) eqn:Hpl; [done|]. apply orb_false_iff in Hpl as [_ Hpl%Z.ltb_ge].
  intros [= <-] Hpos. cbn [available]. set (h := 128 - prefix_len) in *.
  assert ((if 16 <? h then Z.shiftl 1 16 else Z.shiftl 1 h) = Z.min (2 ^ h) (2 ^ 16)) as ->.
  { rewrite !Z.shiftl_1_l. destruct (Z.ltb_spec 16 h).
    - rewrite Z.min_r; [done|]. by apply Z.pow_le_mono_r; lia.
    - rewrite Z.min_l; [done|]. by apply Z.pow_le_mono_r; lia. }
  assert (0 < 2 ^ h) as Hh by (apply Z.pow_pos_nonneg; lia).
  assert (2 ^ h * 2 ^ prefix_len = 2 ^ 128) as Hsplit by (rewrite <- Z.pow_add_r by lia; f_equal; lia).
  assert (2 ^ 1 ≤ 2 ^ prefix_len) as Hpp by (apply Z.pow_le_mono_r; lia).
  split; [apply pool_addresses_NoDup; lia|].
  split; [by apply pool_addresses_base|]. split; [|split].
  - unfold pool_addresses. rewrite length_fmap, length_seqZ. lia.
  - intros Hal ip. eapply pool_addresses_aligned; [done..|]. lia.
  - intros Hle Hal. rewrite Z.min_l by (apply Z.pow_le_mono_r; lia). by apply pool_addresses_escape with (2 ^ prefix_len).
Qed.

(** ** A small pool

    [fd01::/125] with a lifetime and grace of a minute: a name is queried once,
    drains at the tick after a minute, and is reclaimed at the one after two. *)

Definition secs (n : Z) : Z := n * 1000000000.

Definition example_base : Z := 64769 * 2 ^ 112.

Definition example_pool : VirtualIpPool :=
  mkPool (pool_addresses example_base 8) ∅ ∅ 60 60 7 2 (Bucket.new 1 1).

Definition no_sessions : ConntrackSnapshot := from_counts ∅.

Definition example_ops : list op :=
  [Allocate 5 77 "a.fips" (secs 1); Allocate 6 78 "b.fips" (secs 1); Tick (secs 62) (Some no_sessions)].

Lemma gateway_pool_partition_witness :
  let p := run canonical_order example_pool example_ops in
  NoDup (available p ++ lent (mappings p)) ∧ st_draining (status p) = 1%nat.
Proof.
  split; [|vm_compute; reflexivity].
  apply (gateway_pool_partition canonical_order (Ok (example_base, 125)) 60 60 2 1 1); [done|done|].
  vm_compute. reflexivity.
Defined.

Lemma gateway_reclaims_only_idle_witness :
  let p := run canonical_order example_pool example_ops in
  ∃ m, mappings p !! 5 = Some m
    ∧ removed_event m ∈ (tick canonical_order p (secs 123) (Some no_sessions)).2.
Proof.
  pose proof (gateway_reclaims_only_idle canonical_order (Ok (example_base, 125)) 60 60 2 1 1 example_pool
    example_ops 0 (secs 123) (Some no_sessions) ltac:(done) ltac:(done) ltac:(done)
    ltac:(vm_compute; reflexivity)
    ltac:(repeat constructor; vm_compute; discriminate)) as H.
  cbv zeta in *. destruct (tick _ _ _ _) as [p' ev] eqn:Ht. destruct H as [H _].
  eexists. split; [vm_compute; reflexivity|]. cbn [snd].
  apply (H 5); [vm_compute; reflexivity|].
  replace p' with (tick canonical_order (run canonical_order example_pool example_ops) (secs 123)
    (Some no_sessions)).1 by (by rewrite Ht). vm_compute. reflexivity.
Defined.

Lemma gateway_idle_is_reclaimed_witness :
  mappings (run canonical_order (run canonical_order example_pool (take 1 example_ops))
    (Tick (secs 62) (Some no_sessions) :: [Refresh 6 (secs 70)] ++ [Tick (secs 123) (Some no_sessions)])) !! 5
  = None.
Proof.
  eapply (gateway_idle_is_reclaimed canonical_order _ 5).
  - vm_compute. reflexivity.
  - discriminate.
  - vm_compute. reflexivity.
  - vm_compute. reflexivity.
  - vm_compute. discriminate.
  - intros t. vm_compute. by intros ?%elem_of_nil.
  - vm_compute. reflexivity.
  - vm_compute. discriminate.
Defined.

Lemma gateway_creation_rate_witness :
  creations canonical_order example_pool [Allocate 5 77 "a.fips" (secs 1); Allocate 6 78 "b.fips" (secs 1)] = 1
  ∧ creations canonical_order (run canonical_order example_pool [])
      [Allocate 5 77 "a.fips" (secs 1); Allocate 6 78 "b.fips" (secs 1)] * Bucket.NANOS
    ≤ 1 * Bucket.NANOS + 1 * (secs 1 - secs 1).
Proof.
  split; [vm_compute; reflexivity|].
  apply (gateway_creation_rate canonical_order (Ok (example_base, 125)) 60 60 2 1 1);
    [done|done|done|vm_compute; reflexivity|done|repeat constructor; done|repeat constructor; done].
Defined.

Lemma gateway_pool_range_witness :
  ∃ p, with_limits (Ok (example_base + 5, 125)) 60 60 2 1 1 = Ok p
    ∧ ∃ ip, ip ∈ available p ∧ ip / 2 ^ 3 ≠ (example_base + 5) / 2 ^ 3.
Proof.
  eexists. split; [reflexivity|].
  eapply (gateway_pool_range (example_base + 5) 125 60 60 2 1 1);
    [by vm_compute|reflexivity|done|done|vm_compute; discriminate].
Defined.
