(* ===== verification/PathMtu.v ===== *)
(** * Path MTU of a session ([PathMtuState] of [crates/fips-core/src/proto/mmp/mod.rs])

    The destination observes the MTU of arriving datagrams and reports it; the
    source takes a lower report at once and a higher one only when it is
    confirmed. Instants and durations are nanoseconds. *)

From S2P Require Import Prelude F64.

Local Open Scope Z_scope.

(** ** The code *)

Module PathMtuState.

Definition MIN_ACTIONABLE_PATH_MTU : Z := 256.

Record PathMtuState := mkPathMtu {
  current_mtu : Z;
  last_observed_mtu : Z;
  observed_changed : bool;
  last_notification_time : option Z;
  notification_interval : Z;
  consecutive_increase_count : Z;
  first_increase_time : option Z;
  pending_increase_mtu : Z
}.

Definition new : PathMtuState :=
  mkPathMtu U16_MAX U16_MAX false None (10 * 1000000000) 0 None 0.

Definition update_interval_from_srtt (self : PathMtuState) (srtt_ms : f64) : PathMtuState :=
  let five_srtt := f64_to_int 0 U64_MAX (f64_mul srtt_ms (f64_of_Z 5)) * 1000000 in
  mkPathMtu (current_mtu self) (last_observed_mtu self) (observed_changed self)
    (last_notification_time self) (Z.max five_srtt (10 * 1000000000))
    (consecutive_increase_count self) (first_increase_time self) (pending_increase_mtu self).

Definition seed_source_mtu (self : PathMtuState) (outbound_mtu : Z) : PathMtuState :=
  if outbound_mtu <? current_mtu self then
    mkPathMtu outbound_mtu (last_observed_mtu self) (observed_changed self)
      (last_notification_time self) (notification_interval self)
      (consecutive_increase_count self) (first_increase_time self) (pending_increase_mtu self)
  else self.

Definition observe_incoming_mtu (self : PathMtuState) (path_mtu : Z) : PathMtuState :=
  if negb (path_mtu =? last_observed_mtu self) then
    mkPathMtu (current_mtu self) path_mtu true
      (last_notification_time self) (notification_interval self)
      (consecutive_increase_count self) (first_increase_time self) (pending_increase_mtu self)
  else self.

Definition should_send_notification (self : PathMtuState) (now : Z) : bool :=
  if last_observed_mtu self =? U16_MAX then false
  else
    match last_notification_time self with
    | None => true
    | Some last =>
        if observed_changed self && (last_observed_mtu self <? current_mtu self) then true
        else notification_interval self <=? sat_sub now last
    end.

Definition build_notification (self : PathMtuState) (now : Z) : PathMtuState * option Z :=
  if last_observed_mtu self =? U16_MAX then (self, None)
  else
    (mkPathMtu (current_mtu self) (last_observed_mtu self) false (Some now)
       (notification_interval self) (consecutive_increase_count self)
       (first_increase_time self) (pending_increase_mtu self),
     Some (last_observed_mtu self)).

(** Assigning the MTU, and the progress of a pending increase. *)
Definition set_mtu (self : PathMtuState) (mtu : Z) : PathMtuState :=
  mkPathMtu mtu (last_observed_mtu self) (observed_changed self) (last_notification_time self)
    (notification_interval self) 0 None (pending_increase_mtu self).

Definition set_increase (self : PathMtuState) (count : Z) (first : option Z) (pending : Z) : PathMtuState :=
  mkPathMtu (current_mtu self) (last_observed_mtu self) (observed_changed self)
    (last_notification_time self) (notification_interval self) count first pending.

(** The [u8] counter wraps in a release build. *)
Definition apply_notification (self : PathMtuState) (reported_mtu now : Z) : PathMtuState * bool :=
  if reported_mtu <? MIN_ACTIONABLE_PATH_MTU then (self, false)
  else if reported_mtu <? current_mtu self then (set_mtu self reported_mtu, true)
  else if current_mtu self <? reported_mtu then
    let self :=
      if reported_mtu =? pending_increase_mtu self then
        set_increase self ((consecutive_increase_count self + 1) mod 256)
          (first_increase_time self) (pending_increase_mtu self)
      else set_increase self 1 (Some now) reported_mtu in
    match first_increase_time self with
    | Some first_time =>
        if (3 <=? consecutive_increase_count self)
           && (notification_interval self * 2 <=? sat_sub now first_time)
        then (set_mtu self reported_mtu, true)
        else (self, false)
    | None => (self, false)
    end
  else (self, false).

End PathMtuState.

(** ** Histories of a session's path MTU *)

Module PathMtuTrace.
Import PathMtuState.

Inductive event :=
| Srtt (srtt_ms : f64)
| Seed (outbound_mtu : Z)
| Observe (path_mtu : Z)
| Build (now : Z)
| Notify (reported_mtu now : Z).

Definition step (s : PathMtuState) (e : event) : PathMtuState :=
  match e with
  | Srtt x => update_interval_from_srtt s x
  | Seed m => seed_source_mtu s m
  | Observe m => observe_incoming_mtu s m
  | Build now => (build_notification s now).1
  | Notify m now => (apply_notification s m now).1
  end.

Definition run (s : PathMtuState) (es : list event) : PathMtuState := foldl step s es.

(** The times at which a history reports the MTU [m], in order. *)
Definition reports (m : Z) (es : list event) : list Z :=
  omap (λ e, match e with Notify m' now => if m' =? m then Some now else None | _ => None end) es.

End PathMtuTrace.

Import PathMtuState PathMtuTrace.

(** ** Increases *)

(** The progress of a pending increase is backed by reports: a suffix of the
    history, starting with a report of the pending value at the recorded time,
    holds as many reports of it as are counted. *)
Definition backed (s : PathMtuState) (es : list event) : Prop :=
  0 ≤ consecutive_increase_count s
  ∧ ∀ t0, first_increase_time s = Some t0 →
    ∃ before after, es = before ++ Notify (pending_increase_mtu s) t0 :: after
      ∧ consecutive_increase_count s ≤ 1 + Z.of_nat (length (reports (pending_increase_mtu s) after)).

Lemma reports_app m es es' : reports m (es ++ es') = reports m es ++ reports m es'.
Proof. apply omap_app. Qed.

(** An event that leaves the progress alone. *)
Lemma backed_same s s' es e : backed s es →
  consecutive_increase_count s' = consecutive_increase_count s →
  first_increase_time s' = first_increase_time s →
  pending_increase_mtu s' = pending_increase_mtu s → backed s' (es ++ [e]).
Proof.
  intros [Hc Hb] Hcount Hfirst Hpend. unfold backed. rewrite Hcount, Hfirst, Hpend. split; [done|].
  intros t0 Ht0. destruct (Hb t0 Ht0) as (before & after & -> & Hle).
  exists before, (after ++ [e]). split; [by rewrite <- app_assoc|].
  rewrite reports_app, length_app. lia.
Qed.

Lemma backed_cleared s es : first_increase_time s = None → 0 ≤ consecutive_increase_count s → backed s es.
Proof. intros Hf Hc. split; [done|]. intros t0. by rewrite Hf. Qed.

(** The bookkeeping part of a higher report. *)
Definition progress (s : PathMtuState) (m now : Z) : PathMtuState :=
  if m =? pending_increase_mtu s then
    set_increase s ((consecutive_increase_count s + 1) mod 256) (first_increase_time s) (pending_increase_mtu s)
  else set_increase s 1 (Some now) m.

Lemma backed_progress s m now es : backed s es → backed (progress s m now) (es ++ [Notify m now]).
Proof.
  intros [Hc Hb]. unfold progress. destruct (Z.eqb_spec m (pending_increase_mtu s)) as [->|Hne].
  - split; simpl; [by apply Z.mod_pos_bound|]. intros t0 Ht0.
    destruct (Hb t0 Ht0) as (before & after & -> & Hle).
    exists before, (after ++ [Notify (pending_increase_mtu s) now]). split; [by rewrite <- app_assoc|].
    rewrite reports_app, length_app. simpl. rewrite Z.eqb_refl. simpl.
    pose proof (Z.mod_le (consecutive_increase_count s + 1) 256 ltac:(lia) ltac:(lia)). lia.
  - split; simpl; [lia|]. intros t0 [= <-]. exists es, []. split; [done|]. simpl. lia.
Qed.

Lemma progress_pending s m now : pending_increase_mtu (progress s m now) = m.
Proof. unfold progress. by destruct (Z.eqb_spec m (pending_increase_mtu s)). Qed.

Lemma progress_mtu s m now : current_mtu (progress s m now) = current_mtu s
  ∧ notification_interval (progress s m now) = notification_interval s.
Proof. unfold progress. by destruct (m =? _). Qed.

(** [apply_notification] by cases. *)
Lemma apply_low s m now : m < 256 → apply_notification s m now = (s, false).
Proof.
  intros Hm. unfold apply_notification, MIN_ACTIONABLE_PATH_MTU. by rewrite (proj2 (Z.ltb_lt _ _)).
Qed.

Lemma apply_decrease s m now : 256 ≤ m < current_mtu s → apply_notification s m now = (set_mtu s m, true).
Proof.
  intros Hm. unfold apply_notification, MIN_ACTIONABLE_PATH_MTU.
  rewrite (proj2 (Z.ltb_ge m 256)) by lia. by rewrite (proj2 (Z.ltb_lt m (current_mtu s))) by lia.
Qed.

Lemma apply_equal s now : apply_notification s (current_mtu s) now = (s, false).
Proof. unfold apply_notification. rewrite Z.ltb_irrefl. by destruct (_ <? MIN_ACTIONABLE_PATH_MTU). Qed.

Lemma apply_increase s m now : 256 ≤ m → current_mtu s < m →
  apply_notification s m now =
    let s' := progress s m now in
    match first_increase_time s' with
    | Some t0 => if (3 <=? consecutive_increase_count s') && (notification_interval s * 2 <=? sat_sub now t0)
                 then (set_mtu s' m, true) else (s', false)
    | None => (s', false)
    end.
Proof.
  intros Hm Hlt. unfold apply_notification, MIN_ACTIONABLE_PATH_MTU.
  rewrite (proj2 (Z.ltb_ge m 256)), (proj2 (Z.ltb_ge m (current_mtu s))), (proj2 (Z.ltb_lt (current_mtu s) m)) by lia.
  fold (progress s m now). cbv zeta. by rewrite (proj2 (progress_mtu s m now)).
Qed.

Ltac notify_cases s m now :=
  destruct (Z.lt_ge_cases m 256); [rewrite (apply_low s m now) by done|
  destruct (Z.lt_trichotomy m (current_mtu s)) as [?|[->|?]];
    [rewrite (apply_decrease s m now) by done
    |rewrite (apply_equal s now)
    |rewrite (apply_increase s m now) by done; cbv zeta]].

Lemma step_backed s es e : backed s es → backed (step s e) (es ++ [e]).
Proof.
  intros Hb. destruct e as [x|m|m|now|m now]; simpl.
  - by eapply backed_same.
  - unfold seed_source_mtu. case_match; by eapply backed_same.
  - unfold observe_incoming_mtu. case_match; by eapply backed_same.
  - unfold build_notification. case_match; by eapply backed_same.
  - notify_cases s m now; [by eapply backed_same|by apply backed_cleared|by eapply backed_same|].
    pose proof (backed_progress s m now es Hb) as Hp. case_match; [|done]. case_match; [|done].
    by apply backed_cleared.
Qed.

Lemma run_backed es : backed (run new es) es.
Proof.
  unfold run. induction es as [|e es IH] using rev_ind; [by apply backed_cleared|].
  rewrite foldl_app. by apply step_backed.
Qed.

Lemma run_interval es : 10 * 1000000000 ≤ notification_interval (run new es).
Proof.
  unfold run. induction es as [|e es IH] using rev_ind; [done|]. rewrite foldl_app. cbn [foldl].
  generalize dependent (foldl step new es). intros s IH. destruct e as [x|m|m|now|m now]; cbn [step].
  - unfold update_interval_from_srtt. cbn [notification_interval]. lia.
  - unfold seed_source_mtu. by case_match.
  - unfold observe_incoming_mtu. by case_match.
  - unfold build_notification. by case_match.
  - notify_cases s m now; [done..|]. pose proof (progress_mtu s m now) as [_ Hi].
    repeat case_match; simpl; lia.
Qed.

(** ** Properties *)

(** After any history of a session, the effective MTU rises only to the
    reported value, only above the actionable minimum, and only when the
    history holds at least three reports of that value, the first of them two
    notification intervals before the last. *)
Theorem mtu_increase_needs_evidence es m now :
  let s := run new es in
  let s' := (apply_notification s m now).1 in
  current_mtu s < current_mtu s' →
  current_mtu s' = m ∧ MIN_ACTIONABLE_PATH_MTU ≤ m
  ∧ ∃ before t0 after, es ++ [Notify m now] = before ++ Notify m t0 :: after
      ∧ (2 ≤ length (reports m after))%nat ∧ 2 * notification_interval s ≤ now - t0.
Proof.
  intros s. cbv zeta. pose proof (run_backed es) as Hb. pose proof (run_interval es) as Hi. fold s in Hb, Hi.
  notify_cases s m now; simpl; [lia..|].
  pose proof (backed_progress s m now es Hb) as [_ Hp]. pose proof (progress_mtu s m now) as [Hm _].
  rewrite (progress_pending s m now) in Hp.
  destruct (first_increase_time (progress s m now)) as [t0|]; [|simpl; lia].
  destruct (_ && _) eqn:Hc; [|simpl; lia]. apply andb_prop in Hc as [H3%Z.leb_le Hspan%Z.leb_le].
  intros _. split; [done|]. split; [done|].
  destruct (Hp t0 eq_refl) as (before & after & Heq & Hle). exists before, t0, after.
  split; [done|]. split; [lia|]. mlia.
Qed.

(** A report changes the effective MTU exactly when it says so: a report
    below the actionable minimum changes nothing at all, a lower one is taken at
    once, and no report sets any other value. *)
Theorem mtu_notification_exact s m now :
  let '(s', changed) := apply_notification s m now in
  (changed = true ↔ current_mtu s' ≠ current_mtu s)
  ∧ (m < MIN_ACTIONABLE_PATH_MTU → s' = s)
  ∧ (MIN_ACTIONABLE_PATH_MTU ≤ m < current_mtu s → current_mtu s' = m)
  ∧ (current_mtu s' = current_mtu s ∨ current_mtu s' = m).
Proof.
  unfold MIN_ACTIONABLE_PATH_MTU. notify_cases s m now; simpl.
  - split; [naive_solver|]. auto with lia.
  - split; [split; [lia|done]|]. auto with lia.
  - split; [naive_solver|]. auto with lia.
  - pose proof (progress_mtu s m now) as [Hm _].
    destruct (first_increase_time _); [destruct (_ && _)|]; simpl; rewrite ?Hm;
      (split; [split; [try lia; done|try lia; done]|]); auto with lia.
Qed.

(** Three reports of a new higher value, the last two notification
    intervals after the first, raise the effective MTU to it. *)
Theorem mtu_increase_accepted s m t1 t2 t3 :
  MIN_ACTIONABLE_PATH_MTU ≤ m → current_mtu s < m → m ≠ pending_increase_mtu s →
  2 * notification_interval s ≤ t3 - t1 →
  let s1 := (apply_notification s m t1).1 in
  let s2 := (apply_notification s1 m t2).1 in
  let '(s3, changed) := apply_notification s2 m t3 in
  current_mtu s3 = m ∧ changed = true.
Proof.
  unfold MIN_ACTIONABLE_PATH_MTU. intros Hm Hlt Hne Hspan. cbv zeta.
  assert (apply_notification s m t1 = (set_increase s 1 (Some t1) m, false)) as ->.
  { rewrite apply_increase by done. unfold progress. by rewrite (proj2 (Z.eqb_neq _ _) Hne). }
  assert (∀ c t, apply_notification (set_increase s c (Some t1) m) m t =
    let c' := (c + 1) mod 256 in
    let s' := set_increase s c' (Some t1) m in
    if (3 <=? c') && (notification_interval s * 2 <=? sat_sub t t1) then (set_mtu s' m, true) else (s', false))
    as Hagain.
  { intros c t. rewrite apply_increase by done. unfold progress. simpl. by rewrite Z.eqb_refl. }
  cbn [fst]. rewrite Hagain. simpl. rewrite Hagain. cbn [Z.add Z.modulo].
  rewrite (proj2 (Z.leb_le (notification_interval s * 2) _)) by mlia. done.
Qed.

(** C33: Once an MTU has been proposed as an increase and a lower report has
    come in between, the proposed value is never accepted again however often
    and however long it is reported: the lower report clears the time of the
    first proposal but not the proposal, and a repeated proposal never sets
    that time. *)
Theorem mtu_recovery_stuck s low t m ts :
  MIN_ACTIONABLE_PATH_MTU ≤ low < current_mtu s → pending_increase_mtu s = m → low < m →
  current_mtu (run (apply_notification s low t).1 ((λ t, Notify m t) <$> ts)) = low.
Proof.
  intros Hlow Hp Hm. rewrite apply_decrease by done. cbn [fst].
  assert (∀ s', current_mtu s' = low → pending_increase_mtu s' = m → first_increase_time s' = None →
    current_mtu (run s' ((λ t, Notify m t) <$> ts)) = low) as Hgen; [|by apply Hgen].
  clear s Hlow Hp t. induction ts as [|t ts IH]; intros s' Hc Hp Hf; [done|]. cbn [fmap list_fmap run foldl].
  apply IH; cbn [step]; notify_cases s' m t; try done; try lia;
    unfold progress; rewrite Hp, Z.eqb_refl; simpl; by rewrite Hf.
Qed.

(** A drop of the observed MTU that stays at or above this side's own
    sending MTU is not announced before the next periodic notification. *)
Theorem observed_decrease_not_announced s m now last :
  last_notification_time s = Some last → sat_sub now last < notification_interval s →
  current_mtu s ≤ m < last_observed_mtu s →
  should_send_notification (observe_incoming_mtu s m) now = false.
Proof.
  intros Hl Hi Hm. unfold observe_incoming_mtu. rewrite (proj2 (Z.eqb_neq _ _)) by lia. simpl.
  unfold should_send_notification. cbn [last_observed_mtu last_notification_time observed_changed current_mtu
    notification_interval]. rewrite Hl. case_match; [done|].
  rewrite (proj2 (Z.ltb_ge m (current_mtu s))) by lia. simpl. by apply Z.leb_gt.
Qed.

(** ** A session whose path narrows after it widened *)

Definition secs (n : Z) : Z := n * 1000000000.

Definition example_history : list event :=
  [Notify 1280 (secs 0); Notify 1500 (secs 10); Notify 1500 (secs 20)].

Lemma mtu_increase_needs_evidence_witness :
  current_mtu (run new example_history) = 1280
  ∧ current_mtu (apply_notification (run new example_history) 1500 (secs 30)).1 = 1500.
Proof.
  split; [reflexivity|].
  apply (mtu_increase_needs_evidence example_history 1500 (secs 30)). vm_compute. reflexivity.
Defined.

Lemma mtu_increase_accepted_witness :
  let '(s3, changed) :=
    apply_notification
      (apply_notification (apply_notification (run new [Notify 1280 (secs 0)]) 1500 (secs 10)).1 1500
         (secs 20)).1 1500 (secs 30) in
  current_mtu s3 = 1500 ∧ changed = true.
Proof.
  apply (mtu_increase_accepted (run new [Notify 1280 (secs 0)]) 1500 (secs 10) (secs 20) (secs 30));
    vm_compute; [discriminate|reflexivity|discriminate|discriminate].
Defined.

Lemma mtu_recovery_stuck_witness :
  let s := run new (example_history ++ [Notify 1500 (secs 30)]) in
  current_mtu s = 1500
  ∧ ∀ ts, current_mtu (run (apply_notification s 1280 (secs 40)).1 ((λ t, Notify 1500 t) <$> ts)) = 1280.
Proof.
  split; [reflexivity|]. intros ts.
  apply (mtu_recovery_stuck _ 1280 (secs 40) 1500 ts); [vm_compute; split; [discriminate|reflexivity]|reflexivity|done].
Defined.

Lemma observed_decrease_not_announced_witness :
  let s := run new [Seed 1280; Observe 9000; Build (secs 0)] in
  should_send_notification (observe_incoming_mtu s 1400) (secs 5) = false.
Proof.
  apply (observed_decrease_not_announced _ 1400 (secs 5) (secs 0));
    [reflexivity|vm_compute; reflexivity|vm_compute; split; [discriminate|reflexivity]].
Defined.
