(* ===== verification/Mmp.v ===== *)
(** * Link measurement ([crates/fips-core/src/proto/mmp/{algorithms,receiver,sender}.rs])

    The estimators of the measurement protocol and the per-peer state that
    turns received and sent frames into reports. Signed 64-bit arithmetic is
    written with its wrap-around; the bounds show that it never wraps. Floats
    are IEEE doubles. Instants and durations are nanoseconds. *)

From S2P Require Import Prelude Bytes F64 LinkWire.

Local Open Scope Z_scope.

(** [as i64], [as i32]: the two's complement of the low bits. *)
Definition wrap_i64 (z : Z) : Z := (z + 2 ^ 63) mod 2 ^ 64 - 2 ^ 63.
Definition wrap_i32 (z : Z) : Z := (z + 2 ^ 31) mod 2 ^ 32 - 2 ^ 31.
Definition wrap_u16 (z : Z) : Z := z mod 2 ^ 16.

(** ** The estimators *)

Module JitterEstimator.
Record JitterEstimator := mkJitter { jitter_q4 : Z }.

Definition new : JitterEstimator := mkJitter 0.

Definition update (self : JitterEstimator) (transit_delta : Z) : JitterEstimator :=
  let abs_d := Z.abs transit_delta in
  mkJitter (wrap_i64 (jitter_q4 self + wrap_i64 (abs_d - Z.shiftr (jitter_q4 self) 4))).

Definition jitter_us (self : JitterEstimator) : Z := wrap_u32 (Z.shiftr (jitter_q4 self) 4).
End JitterEstimator.

Module SrttEstimator.
Record SrttEstimator := mkSrtt { srtt_us : Z; rttvar_us : Z; initialized : bool }.

Definition new : SrttEstimator := mkSrtt 0 0 false.

Definition update (self : SrttEstimator) (rtt_us : Z) : SrttEstimator :=
  if negb (initialized self) then mkSrtt rtt_us (Z.quot rtt_us 2) true
  else
    let err := wrap_i64 (Z.abs (wrap_i64 (srtt_us self - rtt_us))) in
    mkSrtt
      (wrap_i64 (wrap_i64 (srtt_us self - Z.shiftr (srtt_us self) 3) + Z.shiftr rtt_us 3))
      (wrap_i64 (wrap_i64 (rttvar_us self - Z.shiftr (rttvar_us self) 2) + Z.shiftr err 2))
      true.

Definition rto_us (self : SrttEstimator) : Z :=
  let rto := wrap_i64 (srtt_us self + Z.max (wrap_i64 (Z.shiftl (rttvar_us self) 2)) 1000000) in
  Z.max rto 1000000.
End SrttEstimator.

Module DualEwma.
Definition EWMA_SHORT_ALPHA : f64 := f64_div (f64_of_Z 1) (f64_of_Z 4).
Definition EWMA_LONG_ALPHA : f64 := f64_div (f64_of_Z 1) (f64_of_Z 32).

Record DualEwma := mkEwma { short : f64; long : f64; initialized : bool }.

Definition new : DualEwma := mkEwma f64_zero f64_zero false.

Definition update (self : DualEwma) (sample : f64) : DualEwma :=
  if negb (initialized self) then mkEwma sample sample true
  else
    mkEwma (f64_add (short self) (f64_mul EWMA_SHORT_ALPHA (f64_sub sample (short self))))
           (f64_add (long self) (f64_mul EWMA_LONG_ALPHA (f64_sub sample (long self))))
           (initialized self).
End DualEwma.

Module OwdTrendDetector.
Record OwdTrendDetector := mkOwd { samples : list (Z * Z); capacity : nat }.

Definition new (capacity : nat) : OwdTrendDetector := mkOwd [] capacity.

Definition clear (self : OwdTrendDetector) : OwdTrendDetector := mkOwd [] (capacity self).

Definition push (self : OwdTrendDetector) (seq owd_us : Z) : OwdTrendDetector :=
  let kept := if (length (samples self) =? capacity self)%nat then tail (samples self) else samples self in
  mkOwd (kept ++ [(seq, owd_us)]) (capacity self).

Definition EPSILON : f64 := f64_div (f64_of_Z 1) (f64_of_Z (2 ^ 52)).

Definition trend_us_per_sec (self : OwdTrendDetector) : Z :=
  let n := length (samples self) in
  if (n <? 2)%nat then 0
  else
    let n_f := f64_of_Z (Z.of_nat n) in
    let sum_x := f64_sum ((λ s, f64_of_Z s.1) <$> samples self) in
    let sum_y := f64_sum ((λ s, f64_of_Z s.2) <$> samples self) in
    let mean_x := f64_div sum_x n_f in
    let mean_y := f64_div sum_y n_f in
    let '(num, den) :=
      foldl (λ acc s,
        let dx := f64_sub (f64_of_Z s.1) mean_x in
        let dy := f64_sub (f64_of_Z s.2) mean_y in
        (f64_add acc.1 (f64_mul dx dy), f64_add acc.2 (f64_mul dx dx)))
        (f64_zero, f64_zero) (samples self) in
    if f64_ltb (SFabs den) EPSILON then 0
    else
      let slope_per_packet := f64_div num den in
      f64_to_int (- 2 ^ 31) (2 ^ 31 - 1) (f64_mul slope_per_packet (f64_of_Z 1000)).
End OwdTrendDetector.

Definition compute_etx (d_forward d_reverse : f64) : f64 :=
  let product := f64_mul d_forward d_reverse in
  if f64_leb product f64_zero then f64_of_Z 100
  else f64_clamp (f64_div f64_one product) f64_one (f64_of_Z 100).

Module SpinBitState.
Record SpinBitState := mkSpin {
  is_initiator : bool;
  current_value : bool;
  highest_counter_for_spin : Z;
  last_edge_time : option Z
}.

Definition new (is_initiator : bool) : SpinBitState := mkSpin is_initiator false 0 None.

Definition tx_bit (self : SpinBitState) : bool := current_value self.

Definition rx_observe (self : SpinBitState) (received_bit : bool) (counter now : Z)
    : SpinBitState * option Z :=
  if is_initiator self then
    if Bool.eqb received_bit (current_value self) then
      let rtt := (λ t, sat_sub now t) <$> last_edge_time self in
      (mkSpin (is_initiator self) (negb (current_value self)) (highest_counter_for_spin self) (Some now), rtt)
    else (self, None)
  else if highest_counter_for_spin self <? counter
  then (mkSpin (is_initiator self) received_bit counter (last_edge_time self), None)
  else (self, None).
End SpinBitState.

(** ** The receiver *)

Module GapTracker.
Record GapTracker := mkGap {
  expected_next : option Z;
  in_burst : bool;
  current_burst_len : Z;
  burst_count : Z;
  max_burst_len : Z;
  total_burst_len : Z
}.

Definition new : GapTracker := mkGap None false 0 0 0 0.

Definition finish_burst (self : GapTracker) : GapTracker :=
  if in_burst self then
    mkGap (expected_next self) false 0 (burst_count self)
      (Z.max (max_burst_len self) (current_burst_len self))
      (wrap_u64 (total_burst_len self + current_burst_len self))
  else self.

Definition set_expected (self : GapTracker) (e : option Z) : GapTracker :=
  mkGap e (in_burst self) (current_burst_len self) (burst_count self) (max_burst_len self)
    (total_burst_len self).

Definition observe (self : GapTracker) (counter : Z) : GapTracker * Z :=
  match expected_next self with
  | None => (set_expected self (Some (sat_add_u64 counter 1)), 0)
  | Some expected =>
      let '(self, lost) :=
        if expected <? counter then
          let gap := counter - expected in
          (if in_burst self then
             mkGap (expected_next self) true (sat_add_u16 (current_burst_len self) (wrap_u16 gap))
               (burst_count self) (max_burst_len self) (total_burst_len self)
           else
             mkGap (expected_next self) true (wrap_u16 gap) (wrap_u32 (burst_count self + 1))
               (max_burst_len self) (total_burst_len self), gap)
        else (finish_burst self, 0) in
      ((if expected <=? counter then set_expected self (Some (sat_add_u64 counter 1)) else self), lost)
  end.

Definition take_interval_stats (self : GapTracker) : GapTracker * (Z * Z * Z) :=
  let self := finish_burst self in
  let count := burst_count self in
  let max_len := max_burst_len self in
  let mean_len :=
    if 0 <? count then
      let mean_f := f64_div (f64_of_Z (total_burst_len self)) (f64_of_Z count) in
      f64_to_int 0 U16_MAX (f64_mul mean_f (f64_of_Z 256))
    else 0 in
  (mkGap (expected_next self) (in_burst self) (current_burst_len self) 0 0 0, (count, max_len, mean_len)).
End GapTracker.

Definition MIN_REPORT_INTERVAL_MS : Z := 1000.
Definition MAX_REPORT_INTERVAL_MS : Z := 5000.
Definition DEFAULT_COLD_START_INTERVAL_MS : Z := 200.
Definition COLD_START_SAMPLES : Z := 5.
Definition DEFAULT_OWD_WINDOW_SIZE : nat := 32.

(** [Ord::clamp] on integers, [lo ≤ hi]. *)
Definition clamp (x lo hi : Z) : Z := if x <? lo then lo else if hi <? x then hi else x.

(** [Duration::from_millis]. *)
Definition from_millis (ms : Z) : Z := ms * 1000000.

Module ReceiverState.

Definition REKEY_JITTER_GRACE_SECS : Z := 15.

Record ReceiverState := mkReceiver {
  cumulative_packets_recv : Z;
  cumulative_bytes_recv : Z;
  cumulative_reorder_count : Z;
  highest_counter : Z;
  interval_packets_recv : Z;
  interval_bytes_recv : Z;
  jitter : JitterEstimator.JitterEstimator;
  owd_trend : OwdTrendDetector.OwdTrendDetector;
  owd_seq : Z;
  gap_tracker : GapTracker.GapTracker;
  ecn_ce_count : Z;
  last_sender_timestamp : Z;
  last_recv_time : option Z;
  rekey_jitter_grace_until : option Z;
  last_report_time : option Z;
  report_interval : Z;
  interval_has_data : bool;
  srtt_sample_count : Z
}.

Definition new_with_cold_start (owd_window_size : nat) (cold_start_ms : Z) : ReceiverState :=
  mkReceiver 0 0 0 0 0 0 JitterEstimator.new (OwdTrendDetector.new owd_window_size) 0 GapTracker.new
    0 0 None None None (from_millis cold_start_ms) false 0.

Definition new (owd_window_size : nat) : ReceiverState :=
  new_with_cold_start owd_window_size DEFAULT_COLD_START_INTERVAL_MS.

Definition reset_for_rekey (self : ReceiverState) (now : Z) : ReceiverState :=
  mkReceiver (cumulative_packets_recv self) (cumulative_bytes_recv self) 0 0 0 0 JitterEstimator.new
    (OwdTrendDetector.clear (owd_trend self)) 0 GapTracker.new 0 0 None
    (Some (now + REKEY_JITTER_GRACE_SECS * 1000000000)) (last_report_time self) (report_interval self)
    false (srtt_sample_count self).

Definition record_recv (self : ReceiverState) (counter sender_timestamp_ms bytes : Z) (ce_flag : bool)
    (now : Z) : ReceiverState :=
  let reordered := counter <? highest_counter self in
  let sender_us := sender_timestamp_ms * 1000 in
  let in_grace :=
    match rekey_jitter_grace_until self with Some deadline => now <? deadline | None => false end in
  let jitter' :=
    if in_grace then jitter self
    else
      match last_recv_time self with
      | Some prev_recv =>
          let recv_delta_us := wrap_i64 (sat_sub now prev_recv / 1000) in
          let send_delta_us := sender_us - last_sender_timestamp self * 1000 in
          JitterEstimator.update (jitter self) (wrap_i32 (wrap_i64 (recv_delta_us - send_delta_us)))
      | None => jitter self
      end in
  let first_recv := default now (last_recv_time self) in
  let recv_offset_us := wrap_i64 (sat_sub now first_recv / 1000) in
  let owd_us := wrap_i64 (recv_offset_us - sender_us) in
  let owd_seq' := wrap_u32 (owd_seq self + 1) in
  mkReceiver
    (wrap_u64 (cumulative_packets_recv self + 1))
    (wrap_u64 (cumulative_bytes_recv self + bytes))
    (if reordered then wrap_u64 (cumulative_reorder_count self + 1) else cumulative_reorder_count self)
    (if reordered then highest_counter self else counter)
    (sat_add_u32 (interval_packets_recv self) 1)
    (sat_add_u32 (interval_bytes_recv self) (wrap_u32 bytes))
    jitter'
    (OwdTrendDetector.push (owd_trend self) owd_seq' owd_us)
    owd_seq'
    (GapTracker.observe (gap_tracker self) counter).1
    (if ce_flag then sat_add_u32 (ecn_ce_count self) 1 else ecn_ce_count self)
    sender_timestamp_ms
    (Some now)
    (if in_grace then rekey_jitter_grace_until self else None)
    (last_report_time self)
    (report_interval self)
    true
    (srtt_sample_count self).

Definition build_report (self : ReceiverState) (now : Z)
    : ReceiverState * option ReceiverReport.ReceiverReport :=
  if negb (interval_has_data self) then (self, None)
  else
    let '(timestamp_echo, dwell_time) :=
      match last_recv_time self with
      | Some t =>
          let dwell_ms := sat_sub now t / 1000000 in
          if U16_MAX <? dwell_ms then (0, U16_MAX) else (last_sender_timestamp self, dwell_ms)
      | None => (0, 0)
      end in
    let '(gap_tracker', (burst_count, max_burst, mean_burst)) :=
      GapTracker.take_interval_stats (gap_tracker self) in
    let report :=
      ReceiverReport.mkReceiverReport (highest_counter self) (cumulative_packets_recv self)
        (cumulative_bytes_recv self) timestamp_echo dwell_time max_burst mean_burst
        (JitterEstimator.jitter_us (jitter self)) (ecn_ce_count self)
        (OwdTrendDetector.trend_us_per_sec (owd_trend self)) burst_count
        (wrap_u32 (cumulative_reorder_count self)) (interval_packets_recv self)
        (interval_bytes_recv self) in
    (mkReceiver (cumulative_packets_recv self) (cumulative_bytes_recv self)
       (cumulative_reorder_count self) (highest_counter self) 0 0 (jitter self) (owd_trend self)
       (owd_seq self) gap_tracker' (ecn_ce_count self) (last_sender_timestamp self)
       (last_recv_time self) (rekey_jitter_grace_until self) (Some now) (report_interval self) false
       (srtt_sample_count self),
     Some report).

Definition next_report_at (self : ReceiverState) (now : Z) : option Z :=
  if negb (interval_has_data self) then None
  else Some (match last_report_time self with Some last => last + report_interval self | None => now end).

Definition should_send_report (self : ReceiverState) (now : Z) : bool :=
  match next_report_at self now with Some due => due <=? now | None => false end.

Definition set_interval (self : ReceiverState) (interval samples : Z) : ReceiverState :=
  mkReceiver (cumulative_packets_recv self) (cumulative_bytes_recv self)
    (cumulative_reorder_count self) (highest_counter self) (interval_packets_recv self)
    (interval_bytes_recv self) (jitter self) (owd_trend self) (owd_seq self) (gap_tracker self)
    (ecn_ce_count self) (last_sender_timestamp self) (last_recv_time self)
    (rekey_jitter_grace_until self) (last_report_time self) interval (interval_has_data self) samples.

Definition update_report_interval_with_bounds (self : ReceiverState) (srtt_us min_ms max_ms : Z)
    : ReceiverState :=
  if srtt_us <=? 0 then self
  else set_interval self (from_millis (clamp (srtt_us / 1000) min_ms max_ms)) (srtt_sample_count self).

Definition update_report_interval_from_srtt (self : ReceiverState) (srtt_us : Z) : ReceiverState :=
  let self := set_interval self (report_interval self) (sat_add_u32 (srtt_sample_count self) 1) in
  let floor :=
    if srtt_sample_count self <=? COLD_START_SAMPLES then DEFAULT_COLD_START_INTERVAL_MS
    else MIN_REPORT_INTERVAL_MS in
  update_report_interval_with_bounds self srtt_us floor MAX_REPORT_INTERVAL_MS.

End ReceiverState.

(** ** The sender *)

(** [Duration::from_secs_f64]: the nearest nanosecond, ties to even; it aborts on
    a negative, infinite, NaN or too large number. *)
Definition round_half_even (num den : Z) : Z :=
  let q := num / den in
  match 2 * (num mod den) ?= den with
  | Lt => q
  | Gt => q + 1
  | Eq => if Z.even q then q else q + 1
  end.

Definition from_secs_f64 (x : f64) : outcome Empty_set Z :=
  match x with
  | S754_zero _ => Ok 0
  | S754_finite false m e =>
      let nanos :=
        if 0 <=? e then Z.pos m * 2 ^ e * 1000000000
        else round_half_even (Z.pos m * 1000000000) (2 ^ (- e)) in
      if nanos / 1000000000 <=? U64_MAX then Ok nanos else Panic
  | _ => Panic
  end.

(** [Duration::mul_f64]. *)
Definition mul_f64 (d : Z) (rhs : f64) : outcome Empty_set Z := from_secs_f64 (f64_mul rhs (as_secs_f64 d)).

Module SenderState.

Record SenderState := mkSender {
  cumulative_packets_sent : Z;
  cumulative_bytes_sent : Z;
  interval_start_counter : Z;
  interval_start_timestamp : Z;
  interval_bytes_sent : Z;
  last_counter : Z;
  last_timestamp : Z;
  interval_has_data : bool;
  last_report_time : option Z;
  report_interval : Z;
  consecutive_send_failures : Z;
  srtt_sample_count : Z
}.

Definition new_with_cold_start (cold_start_ms : Z) : SenderState :=
  mkSender 0 0 0 0 0 0 0 false None (from_millis cold_start_ms) 0 0.

Definition new : SenderState := new_with_cold_start DEFAULT_COLD_START_INTERVAL_MS.

Definition record_sent (self : SenderState) (counter timestamp bytes : Z) : SenderState :=
  mkSender (wrap_u64 (cumulative_packets_sent self + 1)) (wrap_u64 (cumulative_bytes_sent self + bytes))
    (if interval_has_data self then interval_start_counter self else counter)
    (if interval_has_data self then interval_start_timestamp self else timestamp)
    (sat_add_u32 (interval_bytes_sent self) (wrap_u32 bytes)) counter timestamp true
    (last_report_time self) (report_interval self) (consecutive_send_failures self)
    (srtt_sample_count self).

Definition build_report (self : SenderState) (now : Z) : SenderState * option SenderReport.SenderReport :=
  if negb (interval_has_data self) then (self, None)
  else
    let report :=
      SenderReport.mkSenderReport (interval_start_counter self) (last_counter self)
        (interval_start_timestamp self) (last_timestamp self) (interval_bytes_sent self)
        (cumulative_packets_sent self) (cumulative_bytes_sent self) in
    (mkSender (cumulative_packets_sent self) (cumulative_bytes_sent self) (interval_start_counter self)
       (interval_start_timestamp self) 0 (last_counter self) (last_timestamp self) false (Some now)
       (report_interval self) (consecutive_send_failures self) (srtt_sample_count self),
     Some report).

Definition reset_for_rekey (self : SenderState) : SenderState :=
  mkSender (cumulative_packets_sent self) (cumulative_bytes_sent self) 0 0 0 0 0 false
    (last_report_time self) (report_interval self) (consecutive_send_failures self)
    (srtt_sample_count self).

Definition valid_pending (pending : SenderState) : bool :=
  if cumulative_packets_sent pending =? 0 then
    negb (interval_has_data pending) && (cumulative_bytes_sent pending =? 0)
  else if cumulative_packets_sent pending =? 1 then
    interval_has_data pending
    && (interval_start_counter pending =? last_counter pending)
    && (interval_start_timestamp pending =? last_timestamp pending)
    && (cumulative_bytes_sent pending =? interval_bytes_sent pending)
  else false.

(** [u64::checked_add]. *)
Definition checked_add_u64 (a b : Z) : option Z := if a + b <=? U64_MAX then Some (a + b) else None.

(** The error hands the pending state back. *)
Definition absorb_pending_sender (self pending : SenderState)
    : SenderState * outcome SenderState unit :=
  if interval_has_data self || bool_decide (is_Some (last_report_time pending))
     || negb (valid_pending pending)
  then (self, Err pending)
  else
    match checked_add_u64 (cumulative_packets_sent self) (cumulative_packets_sent pending) with
    | None => (self, Err pending)
    | Some packets =>
        match checked_add_u64 (cumulative_bytes_sent self) (cumulative_bytes_sent pending) with
        | None => (self, Err pending)
        | Some bytes =>
            (if negb (cumulative_packets_sent pending =? 0) then
               mkSender packets bytes (interval_start_counter pending)
                 (interval_start_timestamp pending) (interval_bytes_sent pending)
                 (last_counter pending) (last_timestamp pending) true (last_report_time self)
                 (report_interval self) (consecutive_send_failures self) (srtt_sample_count self)
             else self, Ok tt)
        end
    end.

Definition record_send_failure (self : SenderState) : SenderState * Z :=
  let failures := wrap_u32 (consecutive_send_failures self + 1) in
  (mkSender (cumulative_packets_sent self) (cumulative_bytes_sent self) (interval_start_counter self)
     (interval_start_timestamp self) (interval_bytes_sent self) (last_counter self)
     (last_timestamp self) (interval_has_data self) (last_report_time self) (report_interval self)
     failures (srtt_sample_count self), failures).

Definition record_send_success (self : SenderState) : SenderState * Z :=
  (mkSender (cumulative_packets_sent self) (cumulative_bytes_sent self) (interval_start_counter self)
     (interval_start_timestamp self) (interval_bytes_sent self) (last_counter self)
     (last_timestamp self) (interval_has_data self) (last_report_time self) (report_interval self)
     0 (srtt_sample_count self), consecutive_send_failures self).

(** [2.0_f64.powi(n)] is exact for these exponents. *)
Definition send_failure_backoff_multiplier (self : SenderState) : f64 :=
  if consecutive_send_failures self =? 0 then f64_one
  else f64_of_Z (2 ^ Z.min (consecutive_send_failures self) 5).

Definition next_report_at (self : SenderState) (now : Z) : outcome Empty_set (option Z) :=
  if negb (interval_has_data self) then Ok None
  else
    match last_report_time self with
    | None => Ok (Some now)
    | Some last =>
        effective ← mul_f64 (report_interval self) (send_failure_backoff_multiplier self);
        Ok (Some (last + effective))
    end.

Definition should_send_report (self : SenderState) (now : Z) : outcome Empty_set bool :=
  due ← next_report_at self now;
  Ok (match due with Some due => due <=? now | None => false end).

Definition set_interval (self : SenderState) (interval samples : Z) : SenderState :=
  mkSender (cumulative_packets_sent self) (cumulative_bytes_sent self) (interval_start_counter self)
    (interval_start_timestamp self) (interval_bytes_sent self) (last_counter self)
    (last_timestamp self) (interval_has_data self) (last_report_time self) interval
    (consecutive_send_failures self) samples.

Definition update_report_interval_with_bounds (self : SenderState) (srtt_us min_ms max_ms : Z) : SenderState :=
  if srtt_us <=? 0 then self
  else
    let interval_us := wrap_i64 (srtt_us * 2) mod 2 ^ 64 in
    set_interval self (from_millis (clamp (interval_us / 1000) min_ms max_ms)) (srtt_sample_count self).

Definition update_report_interval_from_srtt (self : SenderState) (srtt_us : Z) : SenderState :=
  let self := set_interval self (report_interval self) (sat_add_u32 (srtt_sample_count self) 1) in
  let floor :=
    if srtt_sample_count self <=? COLD_START_SAMPLES then DEFAULT_COLD_START_INTERVAL_MS
    else MIN_REPORT_INTERVAL_MS in
  update_report_interval_with_bounds self srtt_us floor MAX_REPORT_INTERVAL_MS.

End SenderState.

(** ** Arithmetic that does not wrap *)

Lemma wrap_i64_id z : - 2 ^ 63 ≤ z < 2 ^ 63 → wrap_i64 z = z.
Proof. intros. unfold wrap_i64. rewrite Z.mod_small; lia. Qed.

Lemma wrap_u32_id z : 0 ≤ z < 2 ^ 32 → wrap_u32 z = z.
Proof. intros. by apply Z.mod_small. Qed.


Lemma wrap_u16_id z : 0 ≤ z < 2 ^ 16 → wrap_u16 z = z.
Proof. intros. by apply Z.mod_small. Qed.

Lemma shiftr_div z n : 0 ≤ n → Z.shiftr z n = z / 2 ^ n.
Proof. intros. by apply Z.shiftr_div_pow2. Qed.

Ltac zdivmod := Z.to_euclidean_division_equations; lia.

(** ** Jitter *)

Section jitter.
Import JitterEstimator.

Lemma jitter_step M j d : 0 ≤ M ≤ 2 ^ 31 → 0 ≤ jitter_q4 j ≤ 16 * M + 15 → Z.abs d ≤ M →
  jitter_q4 (update j d) = jitter_q4 j + Z.abs d - jitter_q4 j / 16
  ∧ 0 ≤ jitter_q4 (update j d) ≤ 16 * M + 15.
Proof.
  intros HM Hj Hd. unfold update. cbn [jitter_q4]. rewrite shiftr_div by lia. change (2 ^ 4) with 16.
  assert (0 ≤ jitter_q4 j / 16 ≤ M) by zdivmod.
  rewrite (wrap_i64_id (Z.abs d - _)) by lia. rewrite wrap_i64_id by lia. split; [lia|]. zdivmod.
Qed.

Lemma jitter_run M ds j : 0 ≤ M ≤ 2 ^ 31 → 0 ≤ jitter_q4 j ≤ 16 * M + 15 → Forall (λ d, Z.abs d ≤ M) ds →
  0 ≤ jitter_q4 (foldl update j ds) ≤ 16 * M + 15.
Proof.
  intros HM Hj Hds. revert j Hj. induction Hds as [|d ds Hd _ IH]; intros j Hj; [done|].
  cbn [foldl]. apply IH. by apply jitter_step.
Qed.

Lemma jitter_climbs M ds j : 0 ≤ M ≤ 2 ^ 31 → 0 ≤ jitter_q4 j ≤ 16 * M + 15 → Forall (λ d, Z.abs d = M) ds →
  Z.min (16 * M) (jitter_q4 j + Z.of_nat (length ds)) ≤ jitter_q4 (foldl update j ds).
Proof.
  intros HM Hj Hds. revert j Hj. induction Hds as [|d ds Hd _ IH]; intros j Hj; [simpl; lia|].
  cbn [foldl length]. destruct (jitter_step M j d HM Hj ltac:(lia)) as [Heq Hr].
  specialize (IH _ Hr). assert (Z.min (16 * M) (jitter_q4 j + 1) ≤ jitter_q4 (update j d)); [|lia].
  rewrite Heq, Hd. zdivmod.
Qed.
End jitter.

(** ** Round-trip time *)

(** The fixed-point average of two numbers of a range stays in the range. *)
Lemma ewma_range k lo hi x y : 0 < k → lo ≤ x ≤ hi → lo ≤ y ≤ hi → lo ≤ x - x / k + y / k ≤ hi.
Proof.
  intros Hk Hx Hy. assert (lo / k ≤ y / k ≤ hi / k) by (split; apply Z.div_le_mono; lia).
  assert (∀ a b, a ≤ b → a - a / k ≤ b - b / k) as Hmono.
  { intros a b Hab. assert (b / k ≤ a / k + (b - a)); [|lia].
    transitivity ((a + (b - a) * k) / k); [apply Z.div_le_mono; nia|]. rewrite Z.div_add; lia. }
  pose proof (Hmono lo x ltac:(lia)). pose proof (Hmono x hi ltac:(lia)). lia.
Qed.

Section srtt.
Import SrttEstimator.

Definition srtt_ok (lo hi : Z) (s : SrttEstimator) : Prop :=
  initialized s = true ∧ lo ≤ srtt_us s ≤ hi ∧ 0 ≤ rttvar_us s ≤ hi.

Lemma srtt_step lo hi s r : 0 ≤ lo → hi ≤ 2 ^ 60 → lo ≤ r ≤ hi →
  initialized s = false ∨ srtt_ok lo hi s → srtt_ok lo hi (update s r).
Proof.
  intros Hlo Hhi Hr Hs. unfold update. destruct (initialized s) eqn:Hi.
  - destruct Hs as [?|(_ & Hsr & Hv)]; [done|]. cbn [negb]. rewrite !shiftr_div by lia.
    change (2 ^ 3) with 8. change (2 ^ 2) with 4.
    rewrite (wrap_i64_id (srtt_us s - r)), (wrap_i64_id (Z.abs _)) by lia.
    pose proof (ewma_range 8 lo hi (srtt_us s) r ltac:(lia) Hsr Hr).
    pose proof (ewma_range 4 0 hi (rttvar_us s) (Z.abs (srtt_us s - r)) ltac:(lia) ltac:(lia) ltac:(lia)).
    assert (0 ≤ srtt_us s / 8 ≤ srtt_us s) by zdivmod. assert (0 ≤ rttvar_us s / 4 ≤ rttvar_us s) by zdivmod.
    rewrite (wrap_i64_id (srtt_us s - _)), (wrap_i64_id (rttvar_us s - _)), !wrap_i64_id by lia.
    split; [done|]. simpl. lia.
  - split; [done|]. simpl. split; [done|]. split; [apply Z.quot_pos; lia|].
    pose proof (Z.quot_le_upper_bound r 2 hi). lia.
Qed.

Lemma srtt_run lo hi rs s : 0 ≤ lo → hi ≤ 2 ^ 60 → Forall (λ r, lo ≤ r ≤ hi) rs →
  srtt_ok lo hi s → srtt_ok lo hi (foldl update s rs).
Proof.
  intros Hlo Hhi Hrs. revert s. induction Hrs as [|r rs Hr _ IH]; intros s Hs; [done|].
  cbn [foldl]. apply IH, srtt_step; auto.
Qed.
End srtt.

(** ** One-way-delay window *)

Lemma tail_drop_S {A} n (l : list A) : tail (drop n l) = drop (S n) l.
Proof. revert l. induction n as [|n IH]; intros [|x l]; try done. apply IH. Qed.

Section owd.
Import OwdTrendDetector.

Definition push_all (self : OwdTrendDetector) (ps : list (Z * Z)) : OwdTrendDetector :=
  foldl (λ s p, push s p.1 p.2) self ps.

Lemma push_all_capacity self ps : capacity (push_all self ps) = capacity self.
Proof. revert self. induction ps as [|p ps IH]; intros self; [done|]. unfold push_all in *. cbn [foldl]. by rewrite IH. Qed.

Lemma push_all_snoc self ps p : push_all self (ps ++ [p]) = push (push_all self ps) p.1 p.2.
Proof. unfold push_all. by rewrite foldl_app. Qed.
End owd.

(** ** Loss bursts *)

Section gaps.
Import GapTracker.

Definition observe_all (t : GapTracker) (cs : list Z) : GapTracker * Z :=
  foldl (λ acc c, let '(t', lost) := observe acc.1 c in (t', acc.2 + lost)) (t, 0) cs.

(** The frames counted as lost so far, in finished bursts and the current one. *)
Definition burst_sum (t : GapTracker) : Z := total_burst_len t + current_burst_len t.

Definition gap_ok (t : GapTracker) (prev : Z) : Prop :=
  expected_next t = Some (prev + 1) ∧ 0 ≤ total_burst_len t ∧ 0 ≤ current_burst_len t
  ∧ (in_burst t = false → current_burst_len t = 0).

Lemma observe_in_order t prev c : gap_ok t prev → prev < c < U64_MAX →
  (observe t c).2 = c - prev - 1
  ∧ (burst_sum t + (c - prev - 1) ≤ U16_MAX →
     gap_ok (observe t c).1 c ∧ burst_sum (observe t c).1 = burst_sum t + (c - prev - 1)).
Proof.
  unfold gap_ok, burst_sum. intros (He & Ht & Hb & Hz) Hc. unfold observe. rewrite He.
  assert (sat_add_u64 c 1 = c + 1) as Hsat by mlia.
  destruct (Z.ltb_spec (prev + 1) c).
  - rewrite (proj2 (Z.leb_le (prev + 1) c)) by lia. rewrite Hsat. split; [simpl; lia|]. intros Hle.
    destruct (in_burst t); simpl; rewrite (wrap_u16_id (c - (prev + 1))) by mlia.
    + assert (sat_add_u16 (current_burst_len t) (c - (prev + 1)) = current_burst_len t + (c - (prev + 1)))
        as -> by mlia. split; [split_and!; [done|lia|lia|done]|lia].
    + rewrite (Hz eq_refl) in *. split; [split_and!; [done|lia|lia|done]|lia].
  - assert (c = prev + 1) as -> by lia. rewrite Z.leb_refl, Hsat. split; [simpl; lia|]. intros Hle.
    unfold finish_burst. destruct (in_burst t) eqn:Hib; simpl.
    + unfold wrap_u64. rewrite Z.mod_small by mlia. split; [split_and!; [done|lia|lia|done]|lia].
    + rewrite (Hz eq_refl), Hib in *. split; [split_and!; [done|lia|lia|done]|lia].
Qed.

Lemma finish_burst_sum t p : gap_ok t p → burst_sum t ≤ U16_MAX →
  total_burst_len (finish_burst t) = burst_sum t.
Proof.
  unfold burst_sum, finish_burst. intros (_ & Ht & Hb & Hz) Hle. destruct (in_burst t); cbn [total_burst_len].
  - unfold wrap_u64. apply Z.mod_small. mlia.
  - rewrite (Hz eq_refl). lia.
Qed.

Lemma first_frame c : 0 ≤ c < U64_MAX → gap_ok (observe new c).1 c ∧ (observe new c).2 = 0
  ∧ burst_sum (observe new c).1 = 0.
Proof. intros Hc. unfold gap_ok, observe. cbn. split_and!; try done. f_equal. mlia. Qed.

Lemma sorted_span p cs : StronglySorted Z.lt (p :: cs) → p + Z.of_nat (length cs) ≤ default p (last cs).
Proof.
  revert p. induction cs as [|c cs IH]; intros p Hs; [simpl; lia|].
  apply StronglySorted_inv in Hs as [Hs Hall]. specialize (IH c Hs).
  apply Forall_cons in Hall as [Hpc _]. rewrite last_cons. cbn [length].
  destruct (last cs); simpl in *; lia.
Qed.

Lemma observe_all_acc t acc cs :
  foldl (λ acc c, let '(t', lost) := observe acc.1 c in (t', acc.2 + lost)) (t, acc) cs =
    ((observe_all t cs).1, acc + (observe_all t cs).2).
Proof.
  unfold observe_all. revert t acc. induction cs as [|c cs IH]; intros t acc; [simpl; f_equal; lia|].
  cbn [foldl fst snd]. destruct (observe t c) as [t' lost]. rewrite (IH t' (acc + lost)), (IH t' (0 + lost)).
  simpl. f_equal. lia.
Qed.

Lemma observe_all_cons t c cs :
  observe_all t (c :: cs) = ((observe_all (observe t c).1 cs).1, (observe t c).2 + (observe_all (observe t c).1 cs).2).
Proof.
  unfold observe_all at 1. cbn [foldl fst snd]. rewrite (surjective_pairing (observe t c)).
  cbn [fst snd]. by rewrite observe_all_acc.
Qed.

Lemma observe_all_in_order t prev cs : gap_ok t prev → StronglySorted Z.lt (prev :: cs) →
  default prev (last cs) < U64_MAX →
  let lost := default prev (last cs) - prev - Z.of_nat (length cs) in
  burst_sum t + lost ≤ U16_MAX →
  gap_ok (observe_all t cs).1 (default prev (last cs))
  ∧ (observe_all t cs).2 = lost ∧ burst_sum (observe_all t cs).1 = burst_sum t + lost.
Proof.
  revert t prev. induction cs as [|c cs IH]; intros t prev Hok Hs Hlast lost Hle.
  { unfold lost. simpl. split; [done|]. lia. }
  apply StronglySorted_inv in Hs as [Hs Hall]. apply Forall_cons in Hall as [Hpc _].
  pose proof (sorted_span c cs Hs) as Hspan. subst lost. rewrite last_cons in *.
  assert (default prev (match last cs with Some y => Some y | None => Some c end) = default c (last cs)) as Hd
    by (by destruct (last cs)).
  rewrite Hd in *. cbn [length] in *.
  destruct (observe_in_order t prev c Hok ltac:(lia)) as [Hlost Hstep].
  destruct Hstep as [Hok' Hsum]; [lia|]. rewrite observe_all_cons. cbn [fst snd].
  destruct (IH (observe t c).1 c Hok' Hs Hlast) as (H1 & H2 & H3); [lia|]. split; [done|]. lia.
Qed.
End gaps.

(** ** Histories of a receiver

    Against the frames themselves: all of them, those of the current key, and
    those since the last report. *)

Module ReceiverTrace.
Import ReceiverState.

Record frame := mkFrame {
  f_counter : Z;
  f_timestamp : Z;
  f_bytes : Z;
  f_ce : bool;
  f_now : Z
}.

Inductive event :=
| Recv (f : frame)
| Report (now : Z)
| Rekey (now : Z)
| Srtt (srtt_us : Z).

Definition step (s : ReceiverState) (e : event) : ReceiverState :=
  match e with
  | Recv f => record_recv s (f_counter f) (f_timestamp f) (f_bytes f) (f_ce f) (f_now f)
  | Report now => (build_report s now).1
  | Rekey now => reset_for_rekey s now
  | Srtt us => update_report_interval_from_srtt s us
  end.

Definition run (s : ReceiverState) (es : list event) : ReceiverState := foldl step s es.








Definition event_ok (e : event) : Prop :=
  match e with
  | Recv f => is_u64 (f_counter f) ∧ is_u32 (f_timestamp f) ∧ 0 ≤ f_bytes f
  | _ => True
  end.

End ReceiverTrace.

Section receiver.
Import ReceiverState ReceiverTrace.













(** Every field is in its wire range. *)
Record receiver_wf (s : ReceiverState) : Prop := {
  rw_highest : is_u64 (highest_counter s);
  rw_ts : is_u32 (last_sender_timestamp s);
  rw_packets : is_u64 (cumulative_packets_recv s);
  rw_bytes : is_u64 (cumulative_bytes_recv s);
  rw_ecn : is_u32 (ecn_ce_count s);
  rw_ip : is_u32 (interval_packets_recv s);
  rw_ib : is_u32 (interval_bytes_recv s);
  rw_gap : is_u16 (GapTracker.max_burst_len (gap_tracker s))
           ∧ is_u16 (GapTracker.current_burst_len (gap_tracker s))
           ∧ is_u32 (GapTracker.burst_count (gap_tracker s))
}.

Lemma wrap_u64_range z : is_u64 (wrap_u64 z).
Proof. unfold wrap_u64. pose proof (Z.mod_pos_bound z (2 ^ 64) ltac:(lia)). mlia. Qed.

Lemma wrap_u32_range z : is_u32 (wrap_u32 z).
Proof. unfold wrap_u32. pose proof (Z.mod_pos_bound z (2 ^ 32) ltac:(lia)). mlia. Qed.

Lemma wrap_u16_range z : is_u16 (wrap_u16 z).
Proof. unfold wrap_u16. pose proof (Z.mod_pos_bound z (2 ^ 16) ltac:(lia)). mlia. Qed.

Lemma sat_add_u32_range a b : is_u32 a → 0 ≤ b → is_u32 (sat_add_u32 a b).
Proof. mlia. Qed.

Lemma finish_burst_range t :
  is_u16 (GapTracker.max_burst_len t) ∧ is_u16 (GapTracker.current_burst_len t) ∧ is_u32 (GapTracker.burst_count t) →
  let t' := GapTracker.finish_burst t in
  is_u16 (GapTracker.max_burst_len t') ∧ is_u16 (GapTracker.current_burst_len t') ∧ is_u32 (GapTracker.burst_count t').
Proof. intros Hg. unfold GapTracker.finish_burst. destruct (GapTracker.in_burst t); simpl; mlia. Qed.

Lemma observe_range t c :
  is_u16 (GapTracker.max_burst_len t) ∧ is_u16 (GapTracker.current_burst_len t) ∧ is_u32 (GapTracker.burst_count t) →
  let t' := (GapTracker.observe t c).1 in
  is_u16 (GapTracker.max_burst_len t') ∧ is_u16 (GapTracker.current_burst_len t') ∧ is_u32 (GapTracker.burst_count t').
Proof.
  intros Hg. unfold GapTracker.observe. destruct (GapTracker.expected_next t) as [e|]; [|done].
  pose proof (finish_burst_range t Hg) as Hf. pose proof (wrap_u16_range (c - e)) as Hw.
  pose proof (wrap_u32_range (GapTracker.burst_count t + 1)). destruct Hg as (? & ? & ?).
  destruct (e <? c); [destruct (GapTracker.in_burst t)|]; destruct (e <=? c); simpl; try done;
    split_and!; try done; mlia.
Qed.

Lemma step_wf s e : event_ok e → receiver_wf s → receiver_wf (step s e).
Proof.
  intros He [H1 H2 H3 H4 H5 H6 H7 H8]. destruct e as [f|now|now|us]; cbn [step].
  - destruct He as (Hc & Ht & Hb). split; simpl; auto using wrap_u64_range, observe_range.
    + by destruct (_ <? _).
    + destruct (f_ce f); [apply sat_add_u32_range; [done|lia]|done].
    + apply sat_add_u32_range; [done|lia].
    + apply sat_add_u32_range; [done|]. pose proof (wrap_u32_range (f_bytes f)). mlia.
  - unfold build_report. destruct (interval_has_data s); [|by split].
    cbn [negb]. destruct (match last_recv_time s with Some _ => _ | None => _ end) as [echo dwell].
    pose proof (finish_burst_range _ H8) as Hf.
    split; simpl; try done; mlia.
  - split; simpl; try done; mlia.
  - unfold update_report_interval_from_srtt, update_report_interval_with_bounds. by destruct (us <=? 0).
Qed.

Lemma run_wf w es : Forall event_ok es → receiver_wf (run (new w) es).
Proof.
  intros Hes. unfold run. assert (receiver_wf (new w)) as Hw by (split; simpl; mlia).
  revert Hw. generalize (new w). induction Hes as [|e es He _ IH]; intros s Hs; [done|].
  cbn [foldl]. by apply IH, step_wf.
Qed.

Lemma f64_to_int_range lo hi x : lo ≤ 0 ≤ hi → lo ≤ f64_to_int lo hi x ≤ hi.
Proof. intros. unfold f64_to_int. destruct x as [| [] | |[] m e]; lia. Qed.

Lemma trend_range o : - 2 ^ 31 ≤ OwdTrendDetector.trend_us_per_sec o < 2 ^ 31.
Proof.
  unfold OwdTrendDetector.trend_us_per_sec. destruct (_ <? 2)%nat; [lia|].
  destruct (foldl _ _ _) as [num den]. destruct (f64_ltb _ _); [lia|].
  pose proof (f64_to_int_range (- 2 ^ 31) (2 ^ 31 - 1) (f64_mul (f64_div num den) (f64_of_Z 1000)) ltac:(lia)). lia.
Qed.

Lemma build_report_wf s now r : receiver_wf s → (build_report s now).2 = Some r → ReceiverReport.wf r.
Proof.
  intros [H1 H2 H3 H4 H5 H6 H7 H8]. unfold build_report. destruct (interval_has_data s); [|done]. cbn [negb].
  destruct (match last_recv_time s with Some _ => _ | None => _ end) as [echo dwell] eqn:Hecho.
  assert (is_u32 echo ∧ is_u16 dwell) as [Hec Hdw].
  { destruct (last_recv_time s) as [t|]; [|by simplify_eq; mlia].
    destruct (Z.ltb_spec U16_MAX (sat_sub now t / 1000000)); simplify_eq; [mlia|].
    split; [done|]. pose proof (Z.div_pos (sat_sub now t) 1000000 ltac:(mlia) ltac:(lia)). mlia. }
  pose proof (finish_burst_range _ H8) as (Hm & Hc & Hbc). unfold GapTracker.take_interval_stats.
  cbn [fst snd]. intros [= <-]. unfold ReceiverReport.wf. simpl.
  split_and!; try done.
  - destruct (0 <? _); [|mlia]. apply f64_to_int_range. mlia.
  - apply wrap_u32_range.
  - apply trend_range.
  - apply trend_range.
  - apply wrap_u32_range.
Qed.
End receiver.

(** ** Properties *)

(** For transit deltas of at most [M] microseconds the jitter estimate never
    wraps and never exceeds [M]; after [16 * M] equal deltas it is exactly [M]. *)
Theorem jitter_estimate_sound M ds :
  0 ≤ M < 2 ^ 31 → Forall (λ d, Z.abs d ≤ M) ds →
  let j := foldl JitterEstimator.update JitterEstimator.new ds in
  0 ≤ JitterEstimator.jitter_us j ≤ M
  ∧ (Forall (λ d, Z.abs d = M) ds → 16 * M ≤ Z.of_nat (length ds) → JitterEstimator.jitter_us j = M).
Proof.
  intros HM Hds j. assert (0 ≤ JitterEstimator.jitter_q4 j ≤ 16 * M + 15) as Hj.
  { apply jitter_run; [lia|simpl; lia|done]. }
  assert (JitterEstimator.jitter_us j = JitterEstimator.jitter_q4 j / 16) as ->.
  { unfold JitterEstimator.jitter_us. rewrite shiftr_div by lia. apply wrap_u32_id. zdivmod. }
  split; [zdivmod|]. intros Heq Hlen.
  pose proof (jitter_climbs M ds JitterEstimator.new ltac:(lia) ltac:(simpl; lia) Heq) as Hc.
  fold j in Hc. simpl in Hc. zdivmod.
Qed.

(** The smoothed round-trip time stays between the least and the greatest
    sample, its variance below the greatest, nothing wraps, and the
    retransmission timeout is the round-trip time plus four variances, at least
    a second. *)
Theorem srtt_within_samples lo hi r rs :
  0 ≤ lo → hi ≤ 2 ^ 60 → Forall (λ r, lo ≤ r ≤ hi) (r :: rs) →
  let s := foldl SrttEstimator.update SrttEstimator.new (r :: rs) in
  SrttEstimator.initialized s = true
  ∧ lo ≤ SrttEstimator.srtt_us s ≤ hi ∧ 0 ≤ SrttEstimator.rttvar_us s ≤ hi
  ∧ SrttEstimator.rto_us s = SrttEstimator.srtt_us s + Z.max (4 * SrttEstimator.rttvar_us s) 1000000.
Proof.
  intros Hlo Hhi [Hr Hrs]%Forall_cons s.
  assert (srtt_ok lo hi s) as (Hi & Hs & Hv).
  { unfold s. cbn [foldl]. apply srtt_run; [done..|]. apply srtt_step; auto. }
  split; [done|]. split; [done|]. split; [done|]. unfold SrttEstimator.rto_us.
  rewrite Z.shiftl_mul_pow2 by lia. change (2 ^ 2) with 4.
  rewrite (wrap_i64_id (SrttEstimator.rttvar_us s * 4)), wrap_i64_id by lia. lia.
Qed.


(** Every report a receiver builds, from frames whose fields are in range, is
    read back unchanged from its encoding. *)
Theorem receiver_reports_readable w es now r :
  Forall ReceiverTrace.event_ok es →
  (ReceiverState.build_report (ReceiverTrace.run (ReceiverState.new w) es) now).2 = Some r →
  Forall is_u8 (ReceiverReport.encode r) ∧ ReceiverReport.decode (drop 1 (ReceiverReport.encode r)) = Ok r.
Proof.
  intros Hes Hr. assert (ReceiverReport.wf r) as Hwf by (eapply build_report_wf; [by apply run_wf|done]).
  destruct (@wire_roundtrip _ _ ReceiverReport_lawful r Hwf) as (bytes & Heq & Hb & Hd).
  cbn [wire_encode ReceiverReport_wire wire_decode wire_header] in Heq, Hd. injection Heq as <-. split; [exact Hb|exact Hd].
Qed.

(** When counters arrive in order, the frames skipped are counted exactly, in
    the losses returned and, as long as they number at most 65535, in the burst
    lengths of the interval. *)
Theorem burst_accounting_exact c cs :
  0 ≤ c → StronglySorted Z.lt (c :: cs) → default c (last cs) < U64_MAX →
  let lost := default c (last cs) - c - Z.of_nat (length cs) in
  lost ≤ U16_MAX →
  let '(t, total) := observe_all GapTracker.new (c :: cs) in
  total = lost ∧ GapTracker.total_burst_len (GapTracker.finish_burst t) = lost.
Proof.
  intros Hc Hs Hlast lost Hle. pose proof (sorted_span c cs Hs) as Hspan.
  destruct (first_frame c) as (Hok & Hl0 & Hs0); [lia|]. rewrite observe_all_cons, Hl0.
  generalize dependent (GapTracker.observe GapTracker.new c).1. intros t Hok Hs0.
  destruct (observe_all_in_order t c cs Hok Hs Hlast) as (Hok' & Hl & Hsum); [by rewrite Hs0|].
  rewrite Hs0 in Hsum. split; [by rewrite Hl|]. rewrite (finish_burst_sum _ _ Hok'); rewrite Hsum; [done|lia].
Qed.

(** A gap of a multiple of 65536 frames is recorded as a burst of length zero:
    the length is cut to its low 16 bits, not saturated, so a long outage leaves
    the greatest and the total burst length as they were. *)
Theorem long_burst_truncated t e k :
  GapTracker.expected_next t = Some e → GapTracker.in_burst t = false → 0 < k →
  0 ≤ GapTracker.max_burst_len t → is_u64 (GapTracker.total_burst_len t) →
  let '(t', lost) := GapTracker.observe t (e + k * 65536) in
  lost = k * 65536
  ∧ GapTracker.burst_count t' = wrap_u32 (GapTracker.burst_count t + 1)
  ∧ GapTracker.max_burst_len (GapTracker.finish_burst t') = GapTracker.max_burst_len t
  ∧ GapTracker.total_burst_len (GapTracker.finish_burst t') = GapTracker.total_burst_len t.
Proof.
  intros He Hb Hk Hm Ht. unfold GapTracker.observe. rewrite He, Hb.
  rewrite (proj2 (Z.ltb_lt e _)), (proj2 (Z.leb_le e _)) by lia.
  replace (e + k * 65536 - e) with (k * 65536) by lia.
  assert (wrap_u16 (k * 65536) = 0) as -> by (by apply Z.mod_mul).
  unfold GapTracker.finish_burst. simpl. rewrite Z.add_0_r.
  split_and!; [done|done|lia|]. unfold wrap_u64. rewrite Z.mod_small; [done|mlia].
Qed.

(** A delay window of positive capacity holds exactly the newest samples up to
    its capacity; one of capacity zero, which the configuration admits, never
    discards any and grows with every frame. *)
Theorem owd_window_exact cap ps :
  OwdTrendDetector.samples (push_all (OwdTrendDetector.new cap) ps) =
    if decide (cap = 0)%nat then ps else drop (length ps - cap) ps.
Proof.
  induction ps as [|p ps IH] using rev_ind; [by destruct (decide _)|].
  rewrite push_all_snoc. unfold OwdTrendDetector.push. cbn [OwdTrendDetector.samples].
  rewrite push_all_capacity, IH. simpl. replace (p.1, p.2) with p by (by destruct p).
  destruct (decide (cap = 0)%nat) as [->|Hc].
  - by destruct ps.
  - rewrite length_drop, length_app. cbn [length]. destruct (Nat.eqb_spec (length ps - (length ps - cap)) cap).
    + rewrite drop_app_le by lia. f_equal.
      replace (length ps + 1 - cap)%nat with (S (length ps - cap)) by lia. apply tail_drop_S.
    + rewrite drop_app_le by lia. f_equal. f_equal. lia.
Qed.

(** Taking over a pending sender succeeds exactly when this side's interval
    is empty, the pending state is an unreported one of at most one frame and
    the totals do not overflow; a refusal changes neither state, and a success
    adds the pending frame to the totals and makes it the interval. *)
Theorem absorb_pending_exact self pending :
  match SenderState.absorb_pending_sender self pending with
  | (self', Err p) => self' = self ∧ p = pending
  | (self', Ok _) =>
      SenderState.interval_has_data self = false
      ∧ SenderState.last_report_time pending = None
      ∧ (SenderState.cumulative_packets_sent pending = 0 ∨ SenderState.cumulative_packets_sent pending = 1)
      ∧ SenderState.cumulative_packets_sent self'
        = SenderState.cumulative_packets_sent self + SenderState.cumulative_packets_sent pending
      ∧ SenderState.cumulative_bytes_sent self'
        = SenderState.cumulative_bytes_sent self + SenderState.cumulative_bytes_sent pending
      ∧ SenderState.interval_has_data self' = SenderState.interval_has_data pending
      ∧ SenderState.report_interval self' = SenderState.report_interval self
      ∧ SenderState.consecutive_send_failures self' = SenderState.consecutive_send_failures self
      ∧ (SenderState.interval_has_data pending = true →
           SenderState.interval_start_counter self' = SenderState.interval_start_counter pending
           ∧ SenderState.last_counter self' = SenderState.last_counter pending
           ∧ SenderState.interval_bytes_sent self' = SenderState.cumulative_bytes_sent pending)
  | (_, Panic) => False
  end.
Proof.
  unfold SenderState.absorb_pending_sender, SenderState.valid_pending, SenderState.checked_add_u64.
  destruct (SenderState.interval_has_data self) eqn:Hd; [done|]. cbn [orb].
  case_bool_decide as Hl; [done|]. cbn [orb].
  assert (SenderState.last_report_time pending = None) as Hnone by (by apply eq_None_not_Some).
  destruct (Z.eqb_spec (SenderState.cumulative_packets_sent pending) 0) as [H0|H0].
  - destruct (SenderState.interval_has_data pending) eqn:Hp; [done|]. cbn [negb andb].
    destruct (Z.eqb_spec (SenderState.cumulative_bytes_sent pending) 0) as [Hb|]; [|done]. cbn [negb].
    rewrite H0, Hb, !Z.add_0_r. repeat case_match; simplify_eq; naive_solver.
  - destruct (Z.eqb_spec (SenderState.cumulative_packets_sent pending) 1) as [H1|H1]; [|done].
    destruct (SenderState.interval_has_data pending) eqn:Hp; [|done]. cbn [andb].
    destruct (negb _) eqn:Hv; [done|]. apply negb_false_iff in Hv.
    apply andb_prop in Hv as [Hv Hb%Z.eqb_eq]. repeat case_match; simplify_eq; cbn; naive_solver.
Qed.

(** The effective interval at the configured bounds of the report interval: doubled
    by each failure in a row, at most five times, exactly to the nanosecond. *)
Lemma sender_backoff_at_bounds :
  Forall (λ ms, Forall (λ k, mul_f64 (from_millis ms) (f64_of_Z (2 ^ k)) = Ok (from_millis ms * 2 ^ k))
    [0; 1; 2; 3; 4; 5]) [200; 500; 1000; 5000; 10000].
Proof. repeat constructor. Qed.

(** ** Examples *)

Lemma jitter_estimate_sound_witness :
  JitterEstimator.jitter_us (foldl JitterEstimator.update JitterEstimator.new (replicate 32 (-2))) = 2.
Proof.
  apply (jitter_estimate_sound 2 (replicate 32 (-2))); [done|by apply Forall_replicate|by apply Forall_replicate|].
  rewrite length_replicate. done.
Defined.

Lemma srtt_within_samples_witness :
  10000 ≤ SrttEstimator.srtt_us (foldl SrttEstimator.update SrttEstimator.new [10000; 90000; 20000]) ≤ 90000.
Proof. apply (srtt_within_samples 10000 90000 10000 [90000; 20000]); [done|done|repeat constructor; done]. Defined.

Definition example_frames : list ReceiverTrace.event :=
  [ReceiverTrace.Recv (ReceiverTrace.mkFrame 4 10 100 false 1000000000);
   ReceiverTrace.Recv (ReceiverTrace.mkFrame 7 30 200 true 1020000000)].

Lemma receiver_reports_readable_witness :
  ∃ r, (ReceiverState.build_report (ReceiverTrace.run (ReceiverState.new 32) example_frames) 1030000000).2 = Some r
    ∧ ReceiverReport.max_burst_loss r = 2 ∧ ReceiverReport.dwell_time r = 10
    ∧ ReceiverReport.decode (drop 1 (ReceiverReport.encode r)) = Ok r.
Proof.
  eexists. split; [vm_compute; reflexivity|]. split; [reflexivity|]. split; [reflexivity|].
  apply (receiver_reports_readable 32 example_frames 1030000000); [|vm_compute; reflexivity].
  repeat constructor; vm_compute; discriminate.
Defined.

Lemma burst_accounting_exact_witness :
  let '(t, total) := observe_all GapTracker.new [4; 7; 8; 12] in
  total = 5 ∧ GapTracker.total_burst_len (GapTracker.finish_burst t) = 5.
Proof.
  apply (burst_accounting_exact 4 [7; 8; 12]); [done|repeat constructor|done|done].
Defined.

Lemma long_burst_truncated_witness :
  let t := (GapTracker.observe GapTracker.new 0).1 in
  GapTracker.max_burst_len (GapTracker.finish_burst (GapTracker.observe t 65537).1) = 0
  ∧ (GapTracker.observe t 65537).2 = 65536.
Proof.
  pose proof (long_burst_truncated (GapTracker.observe GapTracker.new 0).1 1 1 eq_refl eq_refl
    ltac:(done) ltac:(done) ltac:(done)) as H.
  change (1 + 1 * 65536) with 65537 in H. cbv zeta.
  destruct (GapTracker.observe _ 65537) as [t' lost]. destruct H as (Hl & _ & Hm & _).
  split; [exact Hm|exact Hl].
Defined.
