(* ===== verification/MmpMetrics.v ===== *)
(** * What a node makes of its peers' reports ([crates/fips-core/src/proto/mmp/metrics.rs]
      and the wrappers of [proto/mmp/mod.rs])

    A receiver report says how far a peer got in this node's stream of frames and how
    many of them it received. Here the reports become round-trip times, delivery
    ratios and evidence of loss. Instants are nanoseconds. *)

From S2P Require Import Prelude Bytes F64 LinkWire Mmp PathMtu.

Local Open Scope Z_scope.

Module MmpMetrics.
Import ReceiverReport.

(** The fields of the source's struct, in four groups: the estimates; *)
Record Quality := mkQuality {
  srtt : SrttEstimator.SrttEstimator;
  rtt_trend : DualEwma.DualEwma;
  loss_trend : DualEwma.DualEwma;
  goodput_trend : DualEwma.DualEwma;
  jitter_trend : DualEwma.DualEwma;
  etx_trend : DualEwma.DualEwma;
  delivery_ratio_forward : f64;
  delivery_ratio_reverse : f64;
  etx : f64;
  goodput_bps : f64;
  last_srtt_update : option Z
}.

(** the previous report; *)
Record Previous := mkPrevious {
  prev_rr_cum_packets : Z;
  prev_rr_cum_bytes : Z;
  prev_rr_highest_counter : Z;
  prev_rr_ecn_ce : Z;
  prev_rr_reorder : Z;
  prev_rr_time : option Z;
  has_prev_rr : bool
}.

(** the loss of the latest interval, and the loss collected as evidence; *)
Record Loss := mkLoss {
  last_forward_counter_span : Z;
  last_forward_lost_packets : Z;
  last_forward_loss_at : option Z;
  forward_loss_window_span : Z;
  forward_loss_window_lost : Z;
  forward_loss_window_samples : Z
}.

(** the previous count of the other direction. *)
Record Reverse := mkReverse { prev_reverse_packets : Z; prev_reverse_highest : Z; has_prev_reverse : bool }.

Record MmpMetrics := mkMetrics { quality : Quality; previous : Previous; loss : Loss; reverse : Reverse }.

Definition no_previous : Previous := mkPrevious 0 0 0 0 0 None false.
Definition no_loss : Loss := mkLoss 0 0 None 0 0 0.

Definition new : MmpMetrics :=
  mkMetrics (mkQuality SrttEstimator.new DualEwma.new DualEwma.new DualEwma.new DualEwma.new DualEwma.new
               f64_one f64_one f64_one f64_zero None)
    no_previous no_loss (mkReverse 0 0 false).

Definition reset_for_path_change (self : MmpMetrics) : MmpMetrics := new.

Definition reset_forward_report_baseline (self : MmpMetrics) : MmpMetrics :=
  mkMetrics (quality self) no_previous no_loss (reverse self).

Definition set_forward (q : Quality) (ratio e : f64) : Quality :=
  mkQuality (srtt q) (rtt_trend q) (loss_trend q) (goodput_trend q) (jitter_trend q) (etx_trend q) ratio
    (delivery_ratio_reverse q) e (goodput_bps q) (last_srtt_update q).

Definition reset_for_rekey (self : MmpMetrics) : MmpMetrics :=
  let self := reset_forward_report_baseline self in
  mkMetrics (set_forward (quality self) f64_one (etx (quality self))) (previous self) (loss self) (mkReverse 0 0 false).

(** Behind the previous report, or the same again. *)
Definition stale (p : Previous) (rr : ReceiverReport) : bool :=
  has_prev_rr p
  && ((highest_counter rr <? prev_rr_highest_counter p) || (cumulative_packets_recv rr <? prev_rr_cum_packets p)
      || (cumulative_bytes_recv rr <? prev_rr_cum_bytes p) || (ecn_ce_count rr <? prev_rr_ecn_ce p)
      || (cumulative_reorder_count rr <? prev_rr_reorder p)
      || ((highest_counter rr =? prev_rr_highest_counter p) && (cumulative_packets_recv rr =? prev_rr_cum_packets p)
          && (cumulative_bytes_recv rr =? prev_rr_cum_bytes p) && (ecn_ce_count rr =? prev_rr_ecn_ce p)
          && (cumulative_reorder_count rr =? prev_rr_reorder p))).

(** The round trip a report's echo gives, in milliseconds. *)
Definition rtt_sample_ms (rr : ReceiverReport) (our_timestamp_ms : Z) : option Z :=
  let send_done := timestamp_echo rr + dwell_time rr in
  if send_done <=? U32_MAX then
    if send_done <=? our_timestamp_ms then Some (our_timestamp_ms - send_done) else None
  else None.

Definition sample_rtt (q : Quality) (rr : ReceiverReport) (our_timestamp_ms now : Z) : Quality :=
  if 0 <? timestamp_echo rr then
    match rtt_sample_ms rr our_timestamp_ms with
    | Some rtt_ms =>
        let rtt_us := Z.max rtt_ms 1 * 1000 in
        mkQuality (SrttEstimator.update (srtt q) rtt_us) (DualEwma.update (rtt_trend q) (f64_of_Z rtt_us)) (loss_trend q)
          (goodput_trend q) (jitter_trend q) (etx_trend q) (delivery_ratio_forward q) (delivery_ratio_reverse q) (etx q)
          (goodput_bps q) (Some now)
    | None => q
    end
  else q.

(** [None] is the abort of an unsigned subtraction below zero. *)
Definition checked_ratio (part whole : Z) : option f64 :=
  if 0 <=? part then Some (f64_div (f64_of_Z part) (f64_of_Z whole)) else None.

Definition forward_loss (q : Quality) (l : Loss) (counter_span packets_delta now : Z) : outcome Empty_set (Quality * Loss) :=
  if 0 <? counter_span then
    let ratio := f64_clamp (f64_div (f64_of_Z packets_delta) (f64_of_Z counter_span)) f64_zero f64_one in
    let e := compute_etx ratio (delivery_ratio_reverse q) in
    Ok (mkQuality (srtt q) (rtt_trend q) (DualEwma.update (loss_trend q) (f64_sub f64_one ratio)) (goodput_trend q)
          (jitter_trend q) (DualEwma.update (etx_trend q) e) ratio (delivery_ratio_reverse q) e (goodput_bps q)
          (last_srtt_update q),
        mkLoss counter_span (sat_sub counter_span packets_delta) (Some now) (forward_loss_window_span l)
          (forward_loss_window_lost l) (forward_loss_window_samples l))
  else if (0 <? packets_delta) && bool_decide (is_Some (last_forward_loss_at l)) then
    let lost := sat_sub (last_forward_lost_packets l) packets_delta in
    match checked_ratio (last_forward_counter_span l - lost) (last_forward_counter_span l) with
    | None => Panic
    | Some ratio =>
        Ok (set_forward q ratio (compute_etx ratio (delivery_ratio_reverse q)),
            mkLoss (last_forward_counter_span l) lost (last_forward_loss_at l) (forward_loss_window_span l)
              (forward_loss_window_lost l) (forward_loss_window_samples l))
    end
  else Ok (q, l).

Definition collect_loss (l : Loss) (counter_span packets_delta : Z) : Loss :=
  if (0 <? counter_span) || ((0 <? packets_delta) && (0 <? forward_loss_window_span l)) then
    mkLoss (last_forward_counter_span l) (last_forward_lost_packets l) (last_forward_loss_at l)
      (sat_add_u64 (forward_loss_window_span l) counter_span)
      (sat_sub (sat_add_u64 (forward_loss_window_lost l) (sat_sub counter_span packets_delta))
         (sat_sub packets_delta counter_span))
      (Z.min (forward_loss_window_samples l + 1) U8_MAX)
  else l.

Definition sample_goodput (q : Quality) (p : Previous) (bytes_delta now : Z) : Quality :=
  let trend := DualEwma.update (goodput_trend q) (f64_of_Z bytes_delta) in
  let bps :=
    match prev_rr_time p with
    | Some prev_time =>
        let secs := as_secs_f64 (sat_sub now prev_time) in
        if f64_ltb f64_zero secs then
          let bps := f64_div (f64_of_Z bytes_delta) secs in
          if f64_eqb (goodput_bps q) f64_zero then bps
          else f64_add (goodput_bps q) (f64_mul (f64_sub bps (goodput_bps q)) (f64_div f64_one (f64_of_Z 4)))
        else goodput_bps q
    | None => goodput_bps q
    end in
  mkQuality (srtt q) (rtt_trend q) (loss_trend q) trend (jitter_trend q) (etx_trend q) (delivery_ratio_forward q)
    (delivery_ratio_reverse q) (etx q) bps (last_srtt_update q).

Definition sample_jitter (q : Quality) (j : Z) : Quality :=
  mkQuality (srtt q) (rtt_trend q) (loss_trend q) (goodput_trend q) (DualEwma.update (jitter_trend q) (f64_of_Z j)) (etx_trend q)
    (delivery_ratio_forward q) (delivery_ratio_reverse q) (etx q) (goodput_bps q) (last_srtt_update q).

(** Answers whether the report gave the first round-trip time. *)
Definition process_receiver_report (self : MmpMetrics) (rr : ReceiverReport) (our_timestamp_ms now : Z)
    : outcome Empty_set (MmpMetrics * bool) :=
  let had_srtt := SrttEstimator.initialized (srtt (quality self)) in
  let p := previous self in
  if stale p rr then Ok (self, false)
  else
    let q := sample_rtt (quality self) rr our_timestamp_ms now in
    r ← (if has_prev_rr p then
           let counter_span := sat_sub (highest_counter rr) (prev_rr_highest_counter p) in
           let packets_delta := sat_sub (cumulative_packets_recv rr) (prev_rr_cum_packets p) in
           '(q, l) ← forward_loss q (loss self) counter_span packets_delta now;
           Ok (sample_goodput q p (sat_sub (cumulative_bytes_recv rr) (prev_rr_cum_bytes p)) now,
               collect_loss l counter_span packets_delta)
         else Ok (q, loss self));
    let '(q, l) := (r : Quality * Loss) in
    let q := sample_jitter q (jitter rr) in
    Ok (mkMetrics q
          (mkPrevious (cumulative_packets_recv rr) (cumulative_bytes_recv rr) (highest_counter rr) (ecn_ce_count rr)
             (cumulative_reorder_count rr) (Some now) true) l (reverse self),
        negb had_srtt && SrttEstimator.initialized (srtt q)).

Definition update_reverse_delivery (self : MmpMetrics) (our_recv_packets peer_highest : Z) : MmpMetrics :=
  let r := reverse self in
  let q := quality self in
  let counter_span := sat_sub peer_highest (prev_reverse_highest r) in
  let packets_delta := sat_sub our_recv_packets (prev_reverse_packets r) in
  let q :=
    if has_prev_reverse r && (0 <? counter_span) then
      let ratio := f64_clamp (f64_div (f64_of_Z packets_delta) (f64_of_Z counter_span)) f64_zero f64_one in
      let e := compute_etx (delivery_ratio_forward q) ratio in
      mkQuality (srtt q) (rtt_trend q) (loss_trend q) (goodput_trend q) (jitter_trend q) (DualEwma.update (etx_trend q) e)
        (delivery_ratio_forward q) ratio e (goodput_bps q) (last_srtt_update q)
    else q in
  mkMetrics q (previous self) (loss self) (mkReverse our_recv_packets peer_highest true).

Definition last_forward_loss_sample (self : MmpMetrics) : outcome Empty_set (option (Z * f64)) :=
  let l := loss self in
  match last_forward_loss_at l with
  | None => Ok None
  | Some _ =>
      match checked_ratio (last_forward_counter_span l - last_forward_lost_packets l) (last_forward_counter_span l) with
      | Some ratio => Ok (Some (last_forward_counter_span l, f64_sub f64_one ratio))
      | None => Panic
      end
  end.

Definition take_forward_loss_evidence (self : MmpMetrics) (min_span : Z) : outcome Empty_set (MmpMetrics * option (Z * f64)) :=
  let l := loss self in
  if min_span =? 0 then
    match last_forward_loss_sample self with
    | Ok s => Ok (self, s)
    | Err e => Err e
    | Panic => Panic
    end
  else if (min_span <=? forward_loss_window_span l) && (2 <=? forward_loss_window_samples l) then
    let span := forward_loss_window_span l in
    let rate := f64_clamp (f64_div (f64_of_Z (forward_loss_window_lost l)) (f64_of_Z span)) f64_zero f64_one in
    Ok (mkMetrics (quality self) (previous self)
          (mkLoss (last_forward_counter_span l) (last_forward_lost_packets l) (last_forward_loss_at l) 0 0 0) (reverse self),
        Some (span, rate))
  else Ok (self, None).

Definition srtt_ms (self : MmpMetrics) : option f64 :=
  if SrttEstimator.initialized (srtt (quality self))
  then Some (f64_div (f64_of_Z (SrttEstimator.srtt_us (srtt (quality self)))) (f64_of_Z 1000)) else None.

Definition loss_rate (self : MmpMetrics) : f64 := f64_sub f64_one (delivery_ratio_forward (quality self)).
Definition smoothed_loss (self : MmpMetrics) : option f64 :=
  let t := loss_trend (quality self) in if DualEwma.initialized t then Some (DualEwma.long t) else None.
Definition smoothed_etx (self : MmpMetrics) : option f64 :=
  let t := etx_trend (quality self) in if DualEwma.initialized t then Some (DualEwma.long t) else None.

Definition as_millis_u64 (d : Z) : Z := Z.min (d / 1000000) U64_MAX.
Definition srtt_age_ms (self : MmpMetrics) (now : Z) : option Z :=
  (λ updated_at, as_millis_u64 (sat_sub now updated_at)) <$> last_srtt_update (quality self).
Definition last_forward_loss_age_ms (self : MmpMetrics) (now : Z) : option Z :=
  (λ sampled_at, as_millis_u64 (sat_sub now sampled_at)) <$> last_forward_loss_at (loss self).
Definition last_ecn_ce_count (self : MmpMetrics) : Z := prev_rr_ecn_ce (previous self).

End MmpMetrics.

(** ** The measurement state of a link and of a session *)

Inductive MmpMode := Full | Lightweight | Minimal.

(** [MmpConfig] and [SessionMmpConfig], which have the same fields. *)
Record MmpConfig := mkMmpConfig { cfg_mode : MmpMode; cfg_log_interval_secs : Z; cfg_owd_window_size : nat }.

Definition SESSION_COLD_START_INTERVAL_MS : Z := 1000.

Definition link_message_elicits_sender_report (msg_type : option Z) : bool :=
  match msg_type with
  | None => false
  | Some kind =>
      match LinkMessageType.from_byte kind with
      | Some LinkMessageType.SenderReport | Some LinkMessageType.ReceiverReport => false
      | _ => true
      end
  end.

Definition link_message_elicits_receiver_report (msg_type : option Z) : bool :=
  match msg_type with
  | None => false
  | Some kind =>
      match LinkMessageType.from_byte kind with Some LinkMessageType.ReceiverReport => false | _ => true end
  end.

Module MmpPeerState.
Record MmpPeerState := mkPeerState {
  sender : SenderState.SenderState;
  receiver : ReceiverState.ReceiverState;
  metrics : MmpMetrics.MmpMetrics;
  spin_bit : SpinBitState.SpinBitState;
  sender_report_pending : bool;
  receiver_report_pending : bool;
  mode : MmpMode;
  log_interval : Z;
  last_log_time : option Z
}.

Definition new (config : MmpConfig) (is_initiator : bool) : MmpPeerState :=
  mkPeerState SenderState.new (ReceiverState.new (cfg_owd_window_size config)) MmpMetrics.new
    (SpinBitState.new is_initiator) false false (cfg_mode config) (cfg_log_interval_secs config * 1000000000) None.

Definition reset_for_rekey (self : MmpPeerState) (now : Z) : MmpPeerState :=
  mkPeerState (SenderState.reset_for_rekey (sender self)) (ReceiverState.reset_for_rekey (receiver self) now)
    (MmpMetrics.reset_for_rekey (metrics self)) (spin_bit self) false false (mode self) (log_interval self)
    (last_log_time self).

Definition needs_sender_report (self : MmpPeerState) : bool :=
  sender_report_pending self || negb (SrttEstimator.initialized (MmpMetrics.srtt (MmpMetrics.quality (metrics self)))).

Definition should_log (self : MmpPeerState) (now : Z) : bool :=
  match last_log_time self with None => true | Some last => log_interval self <=? sat_sub now last end.

Definition mark_logged (self : MmpPeerState) (now : Z) : MmpPeerState :=
  mkPeerState (sender self) (receiver self) (metrics self) (spin_bit self) (sender_report_pending self)
    (receiver_report_pending self) (mode self) (log_interval self) (Some now).
End MmpPeerState.

Module MmpSessionState.
Record MmpSessionState := mkSessionState {
  sender : SenderState.SenderState;
  receiver : ReceiverState.ReceiverState;
  sender_report_pending : bool;
  receiver_report_pending : bool;
  metrics : MmpMetrics.MmpMetrics;
  spin_bit : SpinBitState.SpinBitState;
  mode : MmpMode;
  log_interval : Z;
  last_log_time : option Z;
  path_mtu : PathMtuState.PathMtuState
}.

Definition new (config : MmpConfig) (is_initiator : bool) : MmpSessionState :=
  mkSessionState (SenderState.new_with_cold_start SESSION_COLD_START_INTERVAL_MS)
    (ReceiverState.new_with_cold_start (cfg_owd_window_size config) SESSION_COLD_START_INTERVAL_MS) false false
    MmpMetrics.new (SpinBitState.new is_initiator) (cfg_mode config) (cfg_log_interval_secs config * 1000000000) None
    PathMtuState.new.

Definition reset_sender_for_rekey (self : MmpSessionState) : MmpSessionState :=
  mkSessionState (SenderState.reset_for_rekey (sender self)) (receiver self) false (receiver_report_pending self)
    (MmpMetrics.reset_for_rekey (metrics self)) (spin_bit self) (mode self) (log_interval self) (last_log_time self)
    (path_mtu self).

Definition reset_receiver_for_rekey (self : MmpSessionState) (now : Z) : MmpSessionState :=
  mkSessionState (sender self) (ReceiverState.reset_for_rekey (receiver self) now) (sender_report_pending self) false
    (metrics self) (SpinBitState.new (SpinBitState.is_initiator (spin_bit self))) (mode self) (log_interval self)
    (last_log_time self) (path_mtu self).

Definition reset_for_rekey (self : MmpSessionState) (now : Z) : MmpSessionState :=
  reset_receiver_for_rekey (reset_sender_for_rekey self) now.

Definition should_log (self : MmpSessionState) (now : Z) : bool :=
  match last_log_time self with None => true | Some last => log_interval self <=? sat_sub now last end.

Definition mark_logged (self : MmpSessionState) (now : Z) : MmpSessionState :=
  mkSessionState (sender self) (receiver self) (sender_report_pending self) (receiver_report_pending self) (metrics self)
    (spin_bit self) (mode self) (log_interval self) (Some now) (path_mtu self).
End MmpSessionState.

(** ** The evidence of loss

    The reports a node accepted, newest first, determine the evidence. A report is
    accepted when it is newer than the one before it. *)

Module LossTrace.
Import ReceiverReport MmpMetrics.

Inductive event :=
| Report (rr : ReceiverReport) (our_timestamp_ms now : Z)
| Take (min_span : Z)
| Reverse_count (our_recv_packets peer_highest : Z)
| Rekey
| Route_change
| Path_change.

Definition step (m : MmpMetrics) (e : event) : outcome Empty_set (MmpMetrics * option (Z * f64)) :=
  match e with
  | Report rr ts now => '(m, _) ← process_receiver_report m rr ts now; Ok (m, None)
  | Take n => take_forward_loss_evidence m n
  | Reverse_count a b => Ok (update_reverse_delivery m a b, None)
  | Rekey => Ok (reset_for_rekey m, None)
  | Route_change => Ok (reset_forward_report_baseline m, None)
  | Path_change => Ok (reset_for_path_change m, None)
  end.

(** The evidence each event yields. *)
Fixpoint run (m : MmpMetrics) (es : list event) : outcome Empty_set (list (option (Z * f64))) :=
  match es with
  | [] => Ok []
  | e :: es => '(m, out) ← step m e; outs ← run m es; Ok (out :: outs)
  end.

Definition counters (rr : ReceiverReport) : list Z :=
  [highest_counter rr; cumulative_packets_recv rr; cumulative_bytes_recv rr; ecn_ce_count rr; cumulative_reorder_count rr].

(** No counter went back, and one advanced. *)
Definition newer (old rr : ReceiverReport) : bool :=
  bool_decide (Forall2 Z.le (counters old) (counters rr) ∧ counters old ≠ counters rr).

(** The frames sent up to a report's highest counter that it does not count. *)
Definition gap (rr : ReceiverReport) : Z := highest_counter rr - cumulative_packets_recv rr.

Fixpoint oldest (r : ReceiverReport) (w : list ReceiverReport) : ReceiverReport :=
  match w with [] => r | r' :: w => oldest r' w end.
Fixpoint least_gap (r : ReceiverReport) (w : list ReceiverReport) : Z :=
  match w with [] => gap r | r' :: w => Z.min (gap r) (least_gap r' w) end.

Definition span (w : list ReceiverReport) : Z :=
  match w with [] => 0 | r :: w => highest_counter r - highest_counter (oldest r w) end.
Definition lost (w : list ReceiverReport) : Z :=
  match w with [] => 0 | r :: w => gap r - least_gap r w end.

(** The reports that advanced the stream, or filled a gap of the window. *)
Fixpoint samples (w : list ReceiverReport) : Z :=
  match w with
  | r :: ((r' :: _) as w') =>
      samples w'
      + (if (highest_counter r' <? highest_counter r)
            || ((cumulative_packets_recv r' <? cumulative_packets_recv r) && (0 <? span w')) then 1 else 0)
  | _ => 0
  end.

(** The latest interval in which the stream advanced, and what is still missing of
    it when [packets] were received in all. *)
Fixpoint last_interval (packets : Z) (hist : list ReceiverReport) : option (Z * Z) :=
  match hist with
  | r :: ((r' :: _) as hist') =>
      let s := highest_counter r - highest_counter r' in
      if 0 <? s then Some (s, Z.max 0 (s - (packets - cumulative_packets_recv r'))) else last_interval packets hist'
  | _ => None
  end.

Definition latest_interval (hist : list ReceiverReport) : option (Z * Z) :=
  match hist with [] => None | r :: _ => last_interval (cumulative_packets_recv r) hist end.

(** The reports since the last reset, and those since evidence was last taken. *)
Record accepted := mkAccepted { history : list ReceiverReport; window : list ReceiverReport }.

Definition accept (a : accepted) (e : event) : accepted * option (Z * f64) :=
  match e with
  | Report rr _ _ =>
      (match history a with
       | [] => mkAccepted [rr] [rr]
       | r :: _ => if newer r rr then mkAccepted (rr :: history a) (rr :: window a) else a
       end, None)
  | Take n =>
      if n =? 0 then
        (a, (λ i, (i.1, f64_sub f64_one (f64_div (f64_of_Z (i.1 - i.2)) (f64_of_Z i.1)))) <$> latest_interval (history a))
      else if (n <=? span (window a)) && (2 <=? samples (window a)) then
        (mkAccepted (history a) (take 1 (window a)),
         Some (span (window a),
               f64_clamp (f64_div (f64_of_Z (lost (window a))) (f64_of_Z (span (window a)))) f64_zero f64_one))
      else (a, None)
  | Reverse_count _ _ => (a, None)
  | Rekey | Route_change | Path_change => (mkAccepted [] [], None)
  end.

Fixpoint evidence (a : accepted) (es : list event) : list (option (Z * f64)) :=
  match es with [] => [] | e :: es => let '(a, out) := accept a e in out :: evidence a es end.

Definition report_u64 (rr : ReceiverReport) : Prop := is_u64 (highest_counter rr) ∧ is_u64 (cumulative_packets_recv rr).
Definition event_ok (e : event) : Prop :=
  match e with Report rr _ _ => report_u64 rr | Take n => is_u64 n | _ => True end.
End LossTrace.

Section loss_trace.
Import ReceiverReport MmpMetrics LossTrace.

(** Counters advance along the accepted reports. *)
Fixpoint chain (w : list ReceiverReport) : Prop :=
  match w with
  | r :: ((r' :: _) as w') =>
      highest_counter r' ≤ highest_counter r ∧ cumulative_packets_recv r' ≤ cumulative_packets_recv r
      ∧ report_u64 r ∧ chain w'
  | [r] => report_u64 r
  | [] => True
  end.

Lemma chain_head r w : chain (r :: w) → report_u64 r.
Proof. destruct w; [done|by intros (_ & _ & ? & _)]. Qed.

Lemma stale_newer p rr old :
  p = mkPrevious (cumulative_packets_recv old) (cumulative_bytes_recv old) (highest_counter old) (ecn_ce_count old)
        (cumulative_reorder_count old) (prev_rr_time p) true →
  stale p rr = negb (newer old rr).
Proof.
  intros ->. unfold stale, newer, counters; cbn.
  apply Bool.eq_iff_eq_true. rewrite negb_true_iff, bool_decide_eq_false, !orb_true_iff, !andb_true_iff.
  rewrite !Forall2_cons, !Z.ltb_lt, !Z.eqb_eq. split.
  - intros H [(? & ? & ? & ? & ? & _) Hne]. apply Hne. destruct H as [H|((((-> & ->) & ->) & ->) & ->)]; [lia|done].
  - intros H.
    destruct (decide (highest_counter old ≤ highest_counter rr)); [|lia].
    destruct (decide (cumulative_packets_recv old ≤ cumulative_packets_recv rr)); [|lia].
    destruct (decide (cumulative_bytes_recv old ≤ cumulative_bytes_recv rr)); [|lia].
    destruct (decide (ecn_ce_count old ≤ ecn_ce_count rr)); [|lia].
    destruct (decide (cumulative_reorder_count old ≤ cumulative_reorder_count rr)); [|lia].
    right. apply dec_stable. intros Hn. apply H. split; [repeat split; auto|].
    intros Heq. injection Heq as ? ? ? ? ?. apply Hn. auto 10.
Qed.

Lemma newer_le old rr : newer old rr = true →
  highest_counter old ≤ highest_counter rr ∧ cumulative_packets_recv old ≤ cumulative_packets_recv rr.
Proof. unfold newer, counters. rewrite bool_decide_eq_true, !Forall2_cons. tauto. Qed.

Lemma window_bounds r w : chain (r :: w) →
  0 ≤ lost (r :: w) ≤ span (r :: w) ∧ 0 ≤ highest_counter (oldest r w).
Proof.
  revert r. induction w as [|r' w IH]; intros r H; cbn in *; [unfold report_u64, is_u64, gap in *; lia|].
  destruct H as (? & ? & ? & H). specialize (IH _ H). unfold gap in *. lia.
Qed.

Lemma lost_cons r r' w : lost (r :: r' :: w) = Z.max 0 (lost (r' :: w) + (gap r - gap r')).
Proof. cbn. lia. Qed.

Lemma span_cons r r' w : span (r :: r' :: w) = span (r' :: w) + (highest_counter r - highest_counter r').
Proof. cbn. lia. Qed.

Lemma last_interval_more d packets hist : 0 ≤ d →
  last_interval (packets + d) hist = (λ i, (i.1, Z.max 0 (i.2 - d))) <$> last_interval packets hist.
Proof.
  intros Hd. induction hist as [|r [|r' hist] IH]; cbn; [done..|].
  case_match; cbn; [do 2 f_equal; lia|exact IH].
Qed.

Lemma last_interval_range packets r hist i : chain (r :: hist) → cumulative_packets_recv r ≤ packets →
  last_interval packets (r :: hist) = Some i → 0 ≤ i.2 ≤ i.1 ∧ 0 < i.1.
Proof.
  revert r. induction hist as [|r' hist IH]; intros r H Hp; cbn; [done|].
  destruct H as (? & ? & ? & H). case_match eqn:E; [intros [= <-]; cbn; apply Z.ltb_lt in E; lia|].
  apply IH; [done|lia].
Qed.

(** What the metrics hold, in terms of the accepted reports. *)
Definition interval_ok (l : Loss) (i : option (Z * Z)) : Prop :=
  match i with
  | None => last_forward_loss_at l = None
  | Some i => is_Some (last_forward_loss_at l) ∧ last_forward_counter_span l = i.1 ∧ last_forward_lost_packets l = i.2
  end.

Definition window_ok (l : Loss) (w : list ReceiverReport) : Prop :=
  forward_loss_window_span l = span w ∧ forward_loss_window_lost l = lost w
  ∧ forward_loss_window_samples l = Z.min (samples w) U8_MAX.

Record trace_ok (m : MmpMetrics) (a : accepted) : Prop := {
  ok_previous : match history a with
                | [] => previous m = no_previous
                | r :: _ => previous m = mkPrevious (cumulative_packets_recv r) (cumulative_bytes_recv r) (highest_counter r)
                              (ecn_ce_count r) (cumulative_reorder_count r) (prev_rr_time (previous m)) true
                end;
  ok_heads : head (window a) = head (history a);
  ok_history : chain (history a);
  ok_window : chain (window a);
  ok_interval : interval_ok (loss m) (latest_interval (history a));
  ok_collected : window_ok (loss m) (window a)
}.

Lemma samples_cons r r' w :
  samples (r :: r' :: w)
  = samples (r' :: w)
    + (if (highest_counter r' <? highest_counter r)
          || ((cumulative_packets_recv r' <? cumulative_packets_recv r) && (0 <? span (r' :: w))) then 1 else 0).
Proof. done. Qed.

Lemma samples_nonneg w : 0 ≤ samples w.
Proof. induction w as [|r [|r' w] IH]; [done..|]. rewrite samples_cons. destruct (_ || _); lia. Qed.

Lemma ltb_0_sub x y : (0 <? x - y) = (y <? x).
Proof. apply Bool.eq_iff_eq_true. rewrite !Z.ltb_lt. lia. Qed.

Lemma collect_ok l r r' w : chain (r :: r' :: w) → window_ok l (r' :: w) →
  window_ok (collect_loss l (highest_counter r - highest_counter r') (cumulative_packets_recv r - cumulative_packets_recv r'))
    (r :: r' :: w).
Proof.
  intros (H1 & H2 & [Hr _] & H) (W1 & W2 & W3). destruct (window_bounds _ _ H) as [B O].
  pose proof (samples_nonneg (r' :: w)) as Hs.
  assert (span (r' :: w) = highest_counter r' - highest_counter (oldest r' w)) as Hspan by done.
  unfold window_ok. rewrite lost_cons, span_cons, samples_cons.
  unfold collect_loss. rewrite W1.
  rewrite !ltb_0_sub.
  generalize dependent (span (r' :: w)); intros sp; generalize dependent (lost (r' :: w)); intros lo.
  generalize dependent (samples (r' :: w)); intros sa. intros. unfold gap.
  case_match eqn:E; cbn; rewrite ?W1, ?W2, ?W3.
  - repeat split; mlia.
  - apply orb_false_iff in E as [E1 E2]. apply Z.ltb_ge in E1. apply andb_false_iff in E2. rewrite !Z.ltb_ge in E2.
    repeat split; mlia.
Qed.

Lemma collect_interval l s p i : interval_ok l i → interval_ok (collect_loss l s p) i.
Proof. unfold collect_loss. by case_match. Qed.

Lemma collect_window l l' s p w :
  forward_loss_window_span l' = forward_loss_window_span l → forward_loss_window_lost l' = forward_loss_window_lost l →
  forward_loss_window_samples l' = forward_loss_window_samples l →
  window_ok (collect_loss l s p) w → window_ok (collect_loss l' s p) w.
Proof. unfold collect_loss, window_ok. intros E1 E2 E3. rewrite E1, E2, E3. destruct (_ || _); cbn; [done|congruence]. Qed.

Lemma forward_loss_ok q l now r r' hist : chain (r :: r' :: hist) → interval_ok l (latest_interval (r' :: hist)) →
  ∃ q' l', forward_loss q l (highest_counter r - highest_counter r') (cumulative_packets_recv r - cumulative_packets_recv r') now
           = Ok (q', l')
    ∧ interval_ok l' (latest_interval (r :: r' :: hist))
    ∧ forward_loss_window_span l' = forward_loss_window_span l ∧ forward_loss_window_lost l' = forward_loss_window_lost l
    ∧ forward_loss_window_samples l' = forward_loss_window_samples l.
Proof.
  intros (H1 & H2 & _ & H) I. unfold forward_loss.
  change (latest_interval (r :: r' :: hist)) with
    (let s := highest_counter r - highest_counter r' in
     if 0 <? s then Some (s, Z.max 0 (s - (cumulative_packets_recv r - cumulative_packets_recv r')))
     else last_interval (cumulative_packets_recv r) (r' :: hist)). cbv zeta.
  destruct (0 <? highest_counter r - highest_counter r') eqn:E.
  { eexists _, _. split; [done|]. cbn. unfold sat_sub. repeat split; eauto; lia. }
  pose proof (last_interval_more (cumulative_packets_recv r - cumulative_packets_recv r') (cumulative_packets_recv r')
                (r' :: hist) ltac:(lia)) as M.
  rewrite Zplus_minus in M. rewrite M. unfold latest_interval in I.
  pose proof (last_interval_range (cumulative_packets_recv r') r' hist) as R.
  destruct (last_interval (cumulative_packets_recv r') (r' :: hist)) as [[s x]|] eqn:EI.
  - specialize (R _ H ltac:(lia) eq_refl). destruct I as (I1 & I2 & I3). cbn in I2, I3, R.
    rewrite (bool_decide_eq_true_2 _ I1), andb_true_r.
    destruct (0 <? cumulative_packets_recv r - _) eqn:E2.
    + unfold checked_ratio. rewrite I2, I3, (proj2 (Z.leb_le 0 _)) by mlia.
      eexists _, _. split; [done|]. cbn. unfold sat_sub. repeat split; eauto; lia.
    + apply Z.ltb_ge in E2. eexists _, _. split; [done|]. cbn. repeat split; auto. lia.
  - cbn in I. rewrite I, (bool_decide_eq_false_2 (is_Some None)) by (by intros [? ?]). rewrite andb_false_r.
    eexists _, _. split; [done|]. done.
Qed.

Lemma report_step m a rr ts now : trace_ok m a → report_u64 rr →
  ∃ m', LossTrace.step m (Report rr ts now) = Ok (m', None) ∧ trace_ok m' (accept a (Report rr ts now)).1.
Proof.
  intros [P Hh CH CW I C] Hu. unfold LossTrace.step, process_receiver_report, accept; cbn [fst].
  destruct a as [[|r hist] win]; cbn [history window] in *.
  - rewrite P. cbn. eexists. split; [done|]. destruct win; [|done].
    destruct C as (C1 & C2 & C3). split; cbn; auto.
    repeat split; cbn; rewrite ?Z.sub_diag; done.
  - rewrite (stale_newer _ rr r P). destruct (newer r rr) eqn:N; cbn [negb].
    2: { cbn. eexists. split; [done|]. by split. }
    apply newer_le in N as [N1 N2]. destruct win as [|r' w]; [done|]. injection Hh as ->.
    rewrite P. cbn [has_prev_rr prev_rr_highest_counter prev_rr_cum_packets].
    assert (∀ x y, x ≤ y → sat_sub y x = y - x) as Hsub by mlia. rewrite (Hsub _ _ N1), (Hsub _ _ N2).
    destruct (forward_loss_ok (sample_rtt (quality m) rr ts now) (loss m) now rr r hist) as (q' & l' & -> & I' & E1 & E2 & E3);
      [done|done|].
    cbn. eexists. split; [done|].
    assert (chain (rr :: r :: w)) as CW' by done.
    split; cbn -[latest_interval span lost samples]; auto.
    + by apply collect_interval.
    + eapply collect_window; [done..|]. by apply collect_ok.
Qed.

Lemma take_step m a n : trace_ok m a → is_u64 n →
  ∃ m', LossTrace.step m (Take n) = Ok (m', (accept a (Take n)).2) ∧ trace_ok m' (accept a (Take n)).1.
Proof.
  intros T Hn. pose proof T as [P Hh CH CW I C]. destruct C as (C1 & C2 & C3).
  unfold LossTrace.step, take_forward_loss_evidence, accept. destruct (n =? 0); cbn [fst snd].
  - exists m. split; [|done]. unfold last_forward_loss_sample.
    destruct (latest_interval (history a)) as [[s x]|] eqn:E; cbn in I |- *.
    + destruct I as ([t ->] & -> & ->). unfold checked_ratio. destruct a as [[|r hist] win]; [done|].
      pose proof (last_interval_range _ r hist _ CH (Z.le_refl _) E) as R. cbn in R.
      by rewrite (proj2 (Z.leb_le 0 _)) by lia.
    + by rewrite I.
  - assert ((2 <=? forward_loss_window_samples (loss m)) = (2 <=? samples (window a))) as ->.
    { rewrite C3. apply Bool.eq_iff_eq_true. rewrite !Z.leb_le. mlia. }
    rewrite C1, C2. destruct (_ && _); [|by exists m]. eexists. split; [done|]. cbn [fst].
    destruct a as [hist [|r w]]; split; auto; [done|by apply chain_head in CW|].
    repeat split; cbn; rewrite ?Z.sub_diag; done.
Qed.

Lemma empty_ok m : previous m = no_previous → loss m = no_loss → trace_ok m (mkAccepted [] []).
Proof. intros P L. split; cbn; rewrite ?L; done. Qed.

Lemma trace_step m a e : trace_ok m a → event_ok e →
  ∃ m', LossTrace.step m e = Ok (m', (accept a e).2) ∧ trace_ok m' (accept a e).1.
Proof.
  intros T He. destruct e as [rr ts now|n|x y| | |].
  - by apply report_step.
  - by apply take_step.
  - eexists. split; [done|]. by destruct T.
  - eexists. split; [done|]. by apply empty_ok.
  - eexists. split; [done|]. by apply empty_ok.
  - eexists. split; [done|]. by apply empty_ok.
Qed.

Lemma run_evidence m a es : trace_ok m a → Forall event_ok es → LossTrace.run m es = Ok (evidence a es).
Proof.
  revert m a. induction es as [|e es IH]; intros m a T He; [done|]. inversion He; subst.
  destruct (trace_step m a e) as (m' & S & T'); [done..|]. cbn [LossTrace.run evidence]. rewrite S. cbn.
  destruct (accept a e) as [a' out]. by rewrite (IH _ _ T').
Qed.
End loss_trace.

(** C22: Whatever a node does with its metrics, no subtraction goes below zero, and the
    evidence of loss is a function of the reports newer than their predecessors: a
    window loses the rise of the gap between frames sent and frames counted above its
    smallest value in the window, out of the advance of the counter; and the latest
    advance has lost what no later report made up for. *)
Theorem loss_evidence_exact es : Forall LossTrace.event_ok es →
  LossTrace.run MmpMetrics.new es = Ok (LossTrace.evidence (LossTrace.mkAccepted [] []) es).
Proof. intros He. apply run_evidence; [by apply empty_ok|done]. Qed.

Lemma loss_evidence_exact_witness :
  let rr h p b := ReceiverReport.mkReceiverReport h p b 0 0 0 0 0 0 0 0 0 0 0 in
  let es := [LossTrace.Report (rr 10 10 100) 0 1; LossTrace.Report (rr 30 20 200) 0 2; LossTrace.Take 0;
             LossTrace.Report (rr 20 20 200) 0 3; LossTrace.Report (rr 40 35 350) 0 4; LossTrace.Take 20] in
  Forall LossTrace.event_ok es
  ∧ LossTrace.run MmpMetrics.new es
    = Ok [None; None; Some (20, f64_div (f64_of_Z 1) (f64_of_Z 2)); None; None;
          Some (30, f64_div (f64_of_Z 5) (f64_of_Z 30))].
Proof.
  intros rr es. assert (Forall LossTrace.event_ok es) as He.
  { repeat constructor; vm_compute; done. }
  split; [done|]. rewrite (loss_evidence_exact es He). vm_compute. reflexivity.
Defined.
