(* ===== verification/StateErr.v ===== *)
(** * Methods that change their receiver and can fail

    A Rust method [fn f(&mut self, ..) -> Result<A, E>] is a function from the
    state to the state it leaves and the outcome. An error keeps the changes made
    before it, as the source does: nothing is rolled back unless the code does it. *)

From S2P Require Import Prelude.

Definition SE (S E A : Type) : Type := S → S * outcome E A.

#[export] Instance SE_ret {S E} : MRet (SE S E) := λ A a s, (s, Ok a).
#[export] Instance SE_bind {S E} : MBind (SE S E) := λ A B k m s,
  let '(s', r) := m s in
  match r with Ok a => k a s' | Err e => (s', Err e) | Panic => (s', Panic) end.

Section ops.
Context {S E : Type}.

Definition get : SE S E S := λ s, (s, Ok s).
Definition modify (f : S → S) : SE S E unit := λ s, (f s, Ok tt).
Definition throw {A} (e : E) : SE S E A := λ s, (s, Err e).

(** An outcome that does not touch the state. *)
Definition lift {A} (r : outcome E A) : SE S E A := λ s, (s, r).

(** [Option::expect] and [unwrap]: abort on [None]. *)
Definition unwrap {A} (o : option A) : SE S E A := λ s, (s, match o with Some a => Ok a | None => Panic end).

(** [Option::ok_or], [Result::map_err]. *)
Definition ok_or {A} (o : option A) (e : E) : SE S E A :=
  λ s, (s, match o with Some a => Ok a | None => Err e end).

(** A method of a field. *)
Definition zoom {T A} (g : S → T) (set : S → T → S) (m : SE T E A) : SE S E A := λ s,
  let '(t, r) := m (g s) in (set s t, r).

(** [if cond { return Err(e) }] *)
Definition guard_err (b : bool) (e : E) : SE S E unit := if b then throw e else mret tt.

(** ** Running a sequence *)

Lemma SE_bind_ok {A B} (k : A → SE S E B) (m : SE S E A) s s' a :
  m s = (s', Ok a) → mbind k m s = k a s'.
Proof. intros Hm. unfold mbind, SE_bind. by rewrite Hm. Qed.

Lemma SE_bind_inv {A B} (k : A → SE S E B) (m : SE S E A) s s'' b :
  mbind k m s = (s'', Ok b) → ∃ s' a, m s = (s', Ok a) ∧ k a s' = (s'', Ok b).
Proof. unfold mbind, SE_bind. destruct (m s) as [s' [a|e|]]; [eauto|done|done]. Qed.

(** ** What a method leaves alone

    [keeps R m]: whatever the outcome, the state [m] leaves is related to the one
    it started from. *)
Definition keeps (R : S → S → Prop) {A} (m : SE S E A) : Prop := ∀ s, R s (m s).1.

Context (R : S → S → Prop) `{!PreOrder R}.

Lemma keeps_bind {A B} (k : A → SE S E B) (m : SE S E A) :
  keeps R m → (∀ a, keeps R (k a)) → keeps R (mbind k m).
Proof.
  intros Hm Hk s. specialize (Hm s). unfold mbind, SE_bind.
  destruct (m s) as [s' [a|e|]]; cbn in *; [|done|done]. etrans; [exact Hm|apply Hk].
Qed.

Lemma keeps_pure {A} (r : outcome E A) : keeps R (lift r).
Proof. intros s. cbn. reflexivity. Qed.

Lemma keeps_unwrap {A} (o : option A) : keeps R (unwrap o).
Proof. intros s. cbn. reflexivity. Qed.

Lemma keeps_ok_or {A} (o : option A) e : keeps R (ok_or o e).
Proof. intros s. cbn. reflexivity. Qed.

Lemma keeps_get : keeps R get.
Proof. intros s. cbn. reflexivity. Qed.

Lemma keeps_ret {A} (a : A) : keeps R (mret a).
Proof. intros s. cbn. reflexivity. Qed.

Lemma keeps_guard b e : keeps R (guard_err b e).
Proof. intros s. destruct b; cbn; reflexivity. Qed.

Lemma keeps_modify f : (∀ s, R s (f s)) → keeps R (modify f).
Proof. intros Hf s. apply Hf. Qed.

Lemma keeps_zoom {T A} (g : S → T) set (m : SE T E A) :
  (∀ s t, R s (set s t)) → keeps R (zoom g set m).
Proof. intros Hs s. unfold zoom. destruct (m (g s)). apply Hs. Qed.

(** [ends Q m]: success leaves the state in [Q], anything else within [R]. *)
Definition ends (Q : S → Prop) {A} (m : SE S E A) : Prop := ∀ s,
  match (m s).2 with Ok _ => Q (m s).1 | _ => R s (m s).1 end.

Lemma ends_bind Q {A B} (k : A → SE S E B) (m : SE S E A) :
  keeps R m → (∀ a, ends Q (k a)) → ends Q (mbind k m).
Proof.
  intros Hm Hk s. specialize (Hm s). unfold mbind, SE_bind.
  destruct (m s) as [s' [a|e|]]; cbn in *; [|done|done]. specialize (Hk a s').
  destruct (k a s') as [s'' [b|e|]]; cbn in *; [done|by etrans|by etrans].
Qed.

Lemma ends_modify Q f : (∀ s, Q (f s)) → ends Q (modify f).
Proof. intros Hf s. apply Hf. Qed.

Lemma ends_modify_ret Q {A} f (a : A) : (∀ s, Q (f s)) → ends Q (_ ← modify f; mret a).
Proof. intros Hf s. apply Hf. Qed.
End ops.

(** A method of a field that keeps the field within [Q]. *)
Lemma keeps_zoom_in {S T E A} (R : S → S → Prop) (Q : T → T → Prop) (g : S → T) set (m : SE T E A) :
  keeps Q m → (∀ s t, Q (g s) t → R s (set s t)) → keeps R (zoom g set m).
Proof. intros Hm Hs s. specialize (Hm (g s)). unfold zoom. destruct (m (g s)). by apply Hs. Qed.

Lemma SE_bind_err {S E A B} (k : A → SE S E B) (m : SE S E A) s s' e :
  m s = (s', Err e) → mbind k m s = (s', Err e).
Proof. intros Hm. unfold mbind, SE_bind. by rewrite Hm. Qed.

Lemma SE_bind_ret_err {S E A B} (b : B) (m : SE S E A) s s' e :
  (_ ← m; mret b) s = (s', Err e) → m s = (s', Err e).
Proof. unfold mbind, SE_bind. by destruct (m s) as [t [a|e'|]]; intros [= <- <-]. Qed.

(** One step per bind, the leaves by these lemmas; [leaf] is for the changes. *)
Ltac keeps leaf :=
  repeat first
    [ apply (keeps_bind _); [|intros ?]
    | apply (keeps_pure _) | apply (keeps_unwrap _) | apply (keeps_ok_or _) | apply (keeps_get _)
    | apply (keeps_ret _) | apply (keeps_guard _)
    | apply keeps_modify; leaf
    | apply keeps_zoom; leaf ].
