(* ===== verification/Noise.v ===== *)
(** * Noise handshakes ([crates/fips-core/src/noise/{mod,handshake}.rs])

    The cipher state, the symmetric state and the IK and XK handshakes over
    secp256k1. The primitives come from other crates and are the parameter
    [NoiseCrypto]; [NoiseCryptoLaws] is what their documentation says of them.
    Erasing secrets from memory has no counterpart. *)

From stdpp Require Import strings.
From S2P Require Import Prelude Bytes StateErr.

Local Open Scope Z_scope.

(** ** The primitives *)

Class NoiseCrypto := {
  SecretKey : Type;
  PublicKey : Type;
  (** [SecretKey::from_slice] *)
  sk_from_slice : list Z → option SecretKey;
  (** [Keypair::public_key] of a secret key *)
  public_key : SecretKey → PublicKey;
  (** [PublicKey::serialize], the compressed form, and [PublicKey::from_slice] *)
  serialize : PublicKey → list Z;
  pk_from_slice : list Z → option PublicKey;
  (** [ecdh::shared_secret_point]: the coordinates of the product *)
  shared_secret_point : PublicKey → SecretKey → list Z;
  sha256 : list Z → list Z;
  (** [Hkdf::<Sha256>::new(Some(salt), ikm)] expanded to 64 bytes *)
  hkdf_sha256 : list Z → list Z → list Z;
  (** ChaCha20-Poly1305 under a 32-byte key: nonce, associated data, text *)
  aead_seal : list Z → list Z → list Z → list Z → option (list Z);
  aead_open : list Z → list Z → list Z → list Z → option (list Z)
}.

(** ** The code *)

Definition TAG_SIZE : nat := 16.
Definition PUBKEY_SIZE : nat := 33.
Definition EPOCH_SIZE : nat := 8.
Definition EPOCH_ENCRYPTED_SIZE : nat := EPOCH_SIZE + TAG_SIZE.
Definition HANDSHAKE_MSG1_SIZE : nat := PUBKEY_SIZE + PUBKEY_SIZE + TAG_SIZE + EPOCH_ENCRYPTED_SIZE.
Definition HANDSHAKE_MSG2_SIZE : nat := PUBKEY_SIZE + EPOCH_ENCRYPTED_SIZE.
Definition XK_HANDSHAKE_MSG1_SIZE : nat := PUBKEY_SIZE.
Definition XK_HANDSHAKE_MSG2_SIZE : nat := PUBKEY_SIZE + EPOCH_ENCRYPTED_SIZE.
Definition XK_HANDSHAKE_MSG3_SIZE : nat := PUBKEY_SIZE + TAG_SIZE + EPOCH_ENCRYPTED_SIZE.
Definition MAX_MESSAGE_SIZE : Z := 65535.

Definition string_bytes (s : string) : list Z := (λ a, Z.of_nat (Ascii.nat_of_ascii a)) <$> String.list_ascii_of_string s.

Definition PROTOCOL_NAME_IK : list Z := string_bytes "Noise_IK_secp256k1_ChaChaPoly_SHA256".
Definition PROTOCOL_NAME_XK : list Z := string_bytes "Noise_XK_secp256k1_ChaChaPoly_SHA256".

(** The variant that wraps a library error is never built by this code. *)
Inductive NoiseError :=
| HandshakeNotComplete
| HandshakeAlreadyComplete
| WrongState (expected got : string)
| InvalidPublicKey
| DecryptionFailed
| EncryptionFailed
| MessageTooLarge (size max : Z)
| MessageTooShort (expected got : nat)
| NonceOverflow
| ReplayDetected (counter : Z).

Inductive HandshakeRole := Initiator | Responder.
Inductive NoisePattern := Ik | Xk.
Inductive HandshakeProgress := Initial | Message1Done | Message2Done | Complete.

#[export] Instance HandshakeRole_eq_dec : EqDecision HandshakeRole.
Proof. solve_decision. Defined.
#[export] Instance HandshakeProgress_eq_dec : EqDecision HandshakeProgress.
Proof. solve_decision. Defined.

(** [Display] of the progress, used in errors. *)
Definition progress_name (p : HandshakeProgress) : string :=
  match p with
  | Initial => "initial" | Message1Done => "message1_done"
  | Message2Done => "message2_done" | Complete => "complete"
  end.

Module CipherState.
Section cipher.
Context `{NoiseCrypto}.

(** The keyed AEAD handle is the key it was built from. *)
Record CipherState := mkCipher {
  key : list Z;
  cipher : option (list Z);
  nonce : Z;
  has_key : bool
}.

(** [UnboundKey::new] accepts a key of the algorithm's length. *)
Definition build_cipher (key : list Z) : option (list Z) :=
  if (length key =? 32)%nat then Some key else None.

Definition new (key : list Z) : CipherState := mkCipher key (build_cipher key) 0 true.

Definition empty : CipherState := mkCipher (replicate 32 0) None 0 false.

Definition initialize_key (self : CipherState) (key : list Z) : CipherState :=
  mkCipher key (build_cipher key) 0 true.

Definition clone (self : CipherState) : CipherState :=
  mkCipher (key self) (if has_key self then build_cipher (key self) else None) (nonce self) (has_key self).

Definition counter_to_nonce (counter : Z) : list Z := replicate 4 0 ++ to_le_bytes 8 counter.

Definition seal (cipher : option (list Z)) (counter : Z) (aad plaintext : list Z)
    : outcome NoiseError (list Z) :=
  match cipher with
  | None => Err EncryptionFailed
  | Some k =>
      match aead_seal k (counter_to_nonce counter) aad plaintext with
      | Some buf => Ok buf
      | None => Err EncryptionFailed
      end
  end.

Definition open (cipher : option (list Z)) (counter : Z) (aad ciphertext : list Z)
    : outcome NoiseError (list Z) :=
  match cipher with
  | None => Err DecryptionFailed
  | Some k =>
      match aead_open k (counter_to_nonce counter) aad ciphertext with
      | Some buf => Ok buf
      | None => Err DecryptionFailed
      end
  end.

Definition advance_nonce : SE CipherState NoiseError Z :=
  self ← get;
  if nonce self =? U64_MAX then throw NonceOverflow
  else
    _ ← modify (λ self, mkCipher (key self) (cipher self) (nonce self + 1) (has_key self));
    mret (nonce self).

(** [plaintext.len() > MAX_MESSAGE_SIZE - TAG_SIZE] *)
Definition too_large (plaintext : list Z) : bool :=
  MAX_MESSAGE_SIZE - Z.of_nat TAG_SIZE <? Z.of_nat (length plaintext).

Definition size_error (plaintext : list Z) : NoiseError :=
  MessageTooLarge (Z.of_nat (length plaintext)) (MAX_MESSAGE_SIZE - Z.of_nat TAG_SIZE).

Definition encrypt (plaintext : list Z) : SE CipherState NoiseError (list Z) :=
  self ← get;
  if negb (has_key self) then mret plaintext
  else if too_large plaintext then throw (size_error plaintext)
  else
    counter ← advance_nonce;
    lift (seal (cipher self) counter [] plaintext).

Definition decrypt (ciphertext : list Z) : SE CipherState NoiseError (list Z) :=
  self ← get;
  if negb (has_key self) then mret ciphertext
  else if (length ciphertext <? TAG_SIZE)%nat
  then throw (MessageTooShort TAG_SIZE (length ciphertext))
  else
    counter ← advance_nonce;
    lift (open (cipher self) counter [] ciphertext).

(** The variants with an explicit counter leave the state alone. *)
Definition encrypt_with_counter_and_aad (self : CipherState) (plaintext : list Z) (counter : Z)
    (aad : list Z) : outcome NoiseError (list Z) :=
  if negb (has_key self) then Ok plaintext
  else if too_large plaintext then Err (size_error plaintext)
  else seal (cipher self) counter aad plaintext.

Definition encrypt_with_counter (self : CipherState) (plaintext : list Z) (counter : Z)
    : outcome NoiseError (list Z) :=
  if negb (has_key self) then Ok plaintext
  else if too_large plaintext then Err (size_error plaintext)
  else seal (cipher self) counter [] plaintext.

Definition encrypt_with_aad (plaintext aad : list Z) : SE CipherState NoiseError (list Z) :=
  self ← get;
  if negb (has_key self) then mret plaintext
  else if too_large plaintext then throw (size_error plaintext)
  else
    counter ← advance_nonce;
    lift (seal (cipher self) counter aad plaintext).

Definition decrypt_with_counter (self : CipherState) (ciphertext : list Z) (counter : Z)
    : outcome NoiseError (list Z) :=
  if negb (has_key self) then Ok ciphertext
  else if (length ciphertext <? TAG_SIZE)%nat
  then Err (MessageTooShort TAG_SIZE (length ciphertext))
  else open (cipher self) counter [] ciphertext.

Definition decrypt_with_counter_and_aad (self : CipherState) (ciphertext : list Z) (counter : Z)
    (aad : list Z) : outcome NoiseError (list Z) :=
  if negb (has_key self) then Ok ciphertext
  else if (length ciphertext <? TAG_SIZE)%nat
  then Err (MessageTooShort TAG_SIZE (length ciphertext))
  else open (cipher self) counter aad ciphertext.

Definition cipher_clone (self : CipherState) : option (list Z) :=
  if has_key self then build_cipher (key self) else None.

(** The in-place variants answer the plaintext the buffer starts with. *)
Definition open_in_place (cipher : option (list Z)) (counter : Z) (aad buf : list Z)
    : outcome NoiseError (list Z) :=
  match cipher with
  | None => Err DecryptionFailed
  | Some k =>
      if (length buf <? TAG_SIZE)%nat then Err (MessageTooShort TAG_SIZE (length buf))
      else
        match aead_open k (counter_to_nonce counter) aad buf with
        | Some plaintext => Ok plaintext
        | None => Err DecryptionFailed
        end
  end.

Definition decrypt_with_counter_and_aad_in_place (self : CipherState) (buf : list Z) (counter : Z)
    (aad : list Z) : outcome NoiseError (list Z) :=
  if negb (has_key self) then Ok buf else open_in_place (cipher self) counter aad buf.

End cipher.
End CipherState.

Module SymmetricState.
Section symmetric.
Context `{NoiseCrypto}.

Record SymmetricState := mkSymmetric {
  ck : list Z;
  h : list Z;
  cipher : CipherState.CipherState
}.

Definition set_cipher (self : SymmetricState) (c : CipherState.CipherState) : SymmetricState :=
  mkSymmetric (ck self) (h self) c.

(** A short name is padded with zeros, a long one hashed. *)
Definition initialize (protocol_name : list Z) : SymmetricState :=
  let h :=
    if (length protocol_name <=? 32)%nat
    then protocol_name ++ replicate (32 - length protocol_name) 0
    else sha256 protocol_name in
  mkSymmetric h h CipherState.empty.

Definition clone (self : SymmetricState) : SymmetricState :=
  mkSymmetric (ck self) (h self) (CipherState.clone (cipher self)).

Definition mix_hash (self : SymmetricState) (data : list Z) : SymmetricState :=
  mkSymmetric (ck self) (sha256 (h self ++ data)) (cipher self).

Definition mix_key (self : SymmetricState) (input_key_material : list Z) : SymmetricState :=
  let output := hkdf_sha256 (ck self) input_key_material in
  mkSymmetric (take 32 output) (h self) (CipherState.initialize_key (cipher self) (take 32 (drop 32 output))).

Definition encrypt_and_hash (plaintext : list Z) : SE SymmetricState NoiseError (list Z) :=
  ciphertext ← zoom cipher set_cipher (CipherState.encrypt plaintext);
  _ ← modify (λ self, mix_hash self ciphertext);
  mret ciphertext.

Definition decrypt_and_hash (ciphertext : list Z) : SE SymmetricState NoiseError (list Z) :=
  plaintext ← zoom cipher set_cipher (CipherState.decrypt ciphertext);
  _ ← modify (λ self, mix_hash self ciphertext);
  mret plaintext.

Definition split (self : SymmetricState) : CipherState.CipherState * CipherState.CipherState :=
  let output := hkdf_sha256 (ck self) [] in
  (CipherState.new (take 32 output), CipherState.new (take 32 (drop 32 output))).

End symmetric.
End SymmetricState.

Module HandshakeState.
Import SymmetricState.
Section handshake.
Context `{NoiseCrypto}.

Record HandshakeState := mkHandshake {
  pattern : NoisePattern;
  role : HandshakeRole;
  progress : HandshakeProgress;
  symmetric : SymmetricState;
  static_keypair : SecretKey;
  ephemeral_keypair : option SecretKey;
  remote_static : option PublicKey;
  remote_ephemeral : option PublicKey;
  local_epoch : option (list Z);
  remote_epoch : option (list Z)
}.

Definition set_progress (s : HandshakeState) (p : HandshakeProgress) : HandshakeState :=
  mkHandshake (pattern s) (role s) p (symmetric s) (static_keypair s) (ephemeral_keypair s)
    (remote_static s) (remote_ephemeral s) (local_epoch s) (remote_epoch s).
Definition set_symmetric (s : HandshakeState) (y : SymmetricState) : HandshakeState :=
  mkHandshake (pattern s) (role s) (progress s) y (static_keypair s) (ephemeral_keypair s)
    (remote_static s) (remote_ephemeral s) (local_epoch s) (remote_epoch s).
Definition set_ephemeral (s : HandshakeState) (e : option SecretKey) : HandshakeState :=
  mkHandshake (pattern s) (role s) (progress s) (symmetric s) (static_keypair s) e
    (remote_static s) (remote_ephemeral s) (local_epoch s) (remote_epoch s).
Definition set_remote_static (s : HandshakeState) (p : option PublicKey) : HandshakeState :=
  mkHandshake (pattern s) (role s) (progress s) (symmetric s) (static_keypair s) (ephemeral_keypair s)
    p (remote_ephemeral s) (local_epoch s) (remote_epoch s).
Definition set_remote_ephemeral (s : HandshakeState) (p : option PublicKey) : HandshakeState :=
  mkHandshake (pattern s) (role s) (progress s) (symmetric s) (static_keypair s) (ephemeral_keypair s)
    (remote_static s) p (local_epoch s) (remote_epoch s).
Definition set_remote_epoch (s : HandshakeState) (e : option (list Z)) : HandshakeState :=
  mkHandshake (pattern s) (role s) (progress s) (symmetric s) (static_keypair s) (ephemeral_keypair s)
    (remote_static s) (remote_ephemeral s) (local_epoch s) e.

Definition set_local_epoch (s : HandshakeState) (epoch : list Z) : HandshakeState :=
  mkHandshake (pattern s) (role s) (progress s) (symmetric s) (static_keypair s) (ephemeral_keypair s)
    (remote_static s) (remote_ephemeral s) (Some epoch) (remote_epoch s).

Definition normalize_for_premessage (pubkey : PublicKey) : list Z := <[0%nat := 2]> (serialize pubkey).

(** The four constructors differ in pattern, role and whose static key is mixed. *)
Definition start (pattern : NoisePattern) (role : HandshakeRole) (name : list Z)
    (static_keypair : SecretKey) (remote_static : option PublicKey) (premessage : PublicKey)
    : HandshakeState :=
  mkHandshake pattern role Initial
    (mix_hash (initialize name) (normalize_for_premessage premessage))
    static_keypair None remote_static None None None.

Definition new_initiator (static_keypair : SecretKey) (remote_static : PublicKey) : HandshakeState :=
  start Ik Initiator PROTOCOL_NAME_IK static_keypair (Some remote_static) remote_static.
Definition new_responder (static_keypair : SecretKey) : HandshakeState :=
  start Ik Responder PROTOCOL_NAME_IK static_keypair None (public_key static_keypair).
Definition new_xk_initiator (static_keypair : SecretKey) (remote_static : PublicKey) : HandshakeState :=
  start Xk Initiator PROTOCOL_NAME_XK static_keypair (Some remote_static) remote_static.
Definition new_xk_responder (static_keypair : SecretKey) : HandshakeState :=
  start Xk Responder PROTOCOL_NAME_XK static_keypair None (public_key static_keypair).

Definition is_complete (s : HandshakeState) : bool := bool_decide (progress s = Complete).

Definition M (A : Type) : Type := SE HandshakeState NoiseError A.

(** [random] is what the generator fills the secret with. *)
Definition generate_ephemeral (random : list Z) : M unit :=
  sk ← unwrap (sk_from_slice random);
  modify (λ s, set_ephemeral s (Some sk)).

(** Only the x coordinate is hashed. *)
Definition ecdh (our_secret : SecretKey) (their_public : PublicKey) : list Z :=
  sha256 (take 32 (shared_secret_point their_public our_secret)).

Definition on_symmetric {A} (m : SE SymmetricState NoiseError A) : M A := zoom symmetric set_symmetric m.
Definition hash (data : list Z) : M unit := on_symmetric (modify (λ y, mix_hash y data)).
Definition mix (ikm : list Z) : M unit := on_symmetric (modify (λ y, mix_key y ikm)).

(** The two checks every message function starts with. *)
Definition expect_state (r : HandshakeRole) (p : HandshakeProgress) : M unit :=
  s ← get;
  _ ← guard_err (negb (bool_decide (role s = r)))
        (match r with
         | Initiator => WrongState "initiator" "responder"
         | Responder => WrongState "responder" "initiator"
         end);
  guard_err (negb (bool_decide (progress s = p)))
    (WrongState (progress_name p) (progress_name (progress s))).

(** [message.len() != size] *)
Definition expect_len (message : list Z) (size : nat) : M unit :=
  guard_err (negb (length message =? size)%nat) (MessageTooShort size (length message)).

(** [copy_from_slice] into the 8-byte epoch aborts on another length. *)
Definition store_epoch (decrypted : list Z) : M unit :=
  epoch ← unwrap (if (length decrypted =? EPOCH_SIZE)%nat then Some decrypted else None);
  modify (λ s, set_remote_epoch s (Some epoch)).

Definition write_message_1 (random : list Z) : M (list Z) :=
  _ ← expect_state Initiator Initial;
  s ← get;
  remote_static ← unwrap (remote_static s);
  epoch ← unwrap (local_epoch s);
  _ ← generate_ephemeral random;
  s ← get;
  ephemeral ← unwrap (ephemeral_keypair s);
  let e_pub := serialize (public_key ephemeral) in
  _ ← hash e_pub;
  _ ← mix (ecdh ephemeral remote_static);
  encrypted_static ← on_symmetric (encrypt_and_hash (serialize (public_key (static_keypair s))));
  _ ← mix (ecdh (static_keypair s) remote_static);
  encrypted_epoch ← on_symmetric (encrypt_and_hash epoch);
  _ ← modify (λ s, set_progress s Message1Done);
  mret (e_pub ++ encrypted_static ++ encrypted_epoch).

Definition read_message_1 (message : list Z) : M unit :=
  _ ← expect_state Responder Initial;
  _ ← expect_len message HANDSHAKE_MSG1_SIZE;
  e_pub ← lift (slice message 0 PUBKEY_SIZE);
  re ← ok_or (pk_from_slice e_pub) InvalidPublicKey;
  _ ← modify (λ s, set_remote_ephemeral s (Some re));
  _ ← hash e_pub;
  s ← get;
  _ ← mix (ecdh (static_keypair s) re);
  let encrypted_static_end := (PUBKEY_SIZE + PUBKEY_SIZE + TAG_SIZE)%nat in
  encrypted_static ← lift (slice message PUBKEY_SIZE encrypted_static_end);
  decrypted_static ← on_symmetric (decrypt_and_hash encrypted_static);
  rs ← ok_or (pk_from_slice decrypted_static) InvalidPublicKey;
  _ ← modify (λ s, set_remote_static s (Some rs));
  _ ← mix (ecdh (static_keypair s) rs);
  encrypted_epoch ← lift (slice_from message encrypted_static_end);
  decrypted_epoch ← on_symmetric (decrypt_and_hash encrypted_epoch);
  _ ← store_epoch decrypted_epoch;
  modify (λ s, set_progress s Message1Done).

Definition write_message_2 (random : list Z) : M (list Z) :=
  _ ← expect_state Responder Message1Done;
  s ← get;
  re ← unwrap (remote_ephemeral s);
  epoch ← unwrap (local_epoch s);
  _ ← generate_ephemeral random;
  s ← get;
  ephemeral ← unwrap (ephemeral_keypair s);
  let e_pub := serialize (public_key ephemeral) in
  _ ← hash e_pub;
  _ ← mix (ecdh ephemeral re);
  _ ← mix (ecdh (static_keypair s) re);
  encrypted_epoch ← on_symmetric (encrypt_and_hash epoch);
  _ ← modify (λ s, set_progress s Complete);
  mret (e_pub ++ encrypted_epoch).

Definition read_message_2 (message : list Z) : M unit :=
  _ ← expect_state Initiator Message1Done;
  _ ← expect_len message HANDSHAKE_MSG2_SIZE;
  e_pub ← lift (slice message 0 PUBKEY_SIZE);
  re ← ok_or (pk_from_slice e_pub) InvalidPublicKey;
  _ ← modify (λ s, set_remote_ephemeral s (Some re));
  _ ← hash e_pub;
  s ← get;
  ephemeral ← unwrap (ephemeral_keypair s);
  _ ← mix (ecdh ephemeral re);
  rs ← unwrap (remote_static s);
  _ ← mix (ecdh ephemeral rs);
  encrypted_epoch ← lift (slice_from message PUBKEY_SIZE);
  decrypted_epoch ← on_symmetric (decrypt_and_hash encrypted_epoch);
  _ ← store_epoch decrypted_epoch;
  modify (λ s, set_progress s Complete).

(** Snapshot the fields the reader changes, and put them back on an error. *)
Definition try_read_message_2 (message : list Z) : M unit := λ s,
  let saved := clone (symmetric s) in
  let '(s', r) := read_message_2 message s in
  match r with
  | Err e =>
      (set_progress (set_remote_epoch (set_remote_ephemeral (set_symmetric s' saved)
         (remote_ephemeral s)) (remote_epoch s)) (progress s), Err e)
  | _ => (s', r)
  end.

Definition write_xk_message_1 (random : list Z) : M (list Z) :=
  _ ← expect_state Initiator Initial;
  s ← get;
  remote_static ← unwrap (remote_static s);
  _ ← generate_ephemeral random;
  s ← get;
  ephemeral ← unwrap (ephemeral_keypair s);
  let e_pub := serialize (public_key ephemeral) in
  _ ← hash e_pub;
  _ ← mix (ecdh ephemeral remote_static);
  _ ← modify (λ s, set_progress s Message1Done);
  mret e_pub.

Definition read_xk_message_1 (message : list Z) : M unit :=
  _ ← expect_state Responder Initial;
  _ ← expect_len message XK_HANDSHAKE_MSG1_SIZE;
  e_pub ← lift (slice message 0 PUBKEY_SIZE);
  re ← ok_or (pk_from_slice e_pub) InvalidPublicKey;
  _ ← modify (λ s, set_remote_ephemeral s (Some re));
  _ ← hash e_pub;
  s ← get;
  _ ← mix (ecdh (static_keypair s) re);
  modify (λ s, set_progress s Message1Done).

Definition write_xk_message_2 (random : list Z) : M (list Z) :=
  _ ← expect_state Responder Message1Done;
  s ← get;
  re ← unwrap (remote_ephemeral s);
  epoch ← unwrap (local_epoch s);
  _ ← generate_ephemeral random;
  s ← get;
  ephemeral ← unwrap (ephemeral_keypair s);
  let e_pub := serialize (public_key ephemeral) in
  _ ← hash e_pub;
  _ ← mix (ecdh ephemeral re);
  encrypted_epoch ← on_symmetric (encrypt_and_hash epoch);
  _ ← modify (λ s, set_progress s Message2Done);
  mret (e_pub ++ encrypted_epoch).

Definition read_xk_message_2 (message : list Z) : M unit :=
  _ ← expect_state Initiator Message1Done;
  _ ← expect_len message XK_HANDSHAKE_MSG2_SIZE;
  e_pub ← lift (slice message 0 PUBKEY_SIZE);
  re ← ok_or (pk_from_slice e_pub) InvalidPublicKey;
  _ ← modify (λ s, set_remote_ephemeral s (Some re));
  _ ← hash e_pub;
  s ← get;
  ephemeral ← unwrap (ephemeral_keypair s);
  _ ← mix (ecdh ephemeral re);
  encrypted_epoch ← lift (slice_from message PUBKEY_SIZE);
  decrypted_epoch ← on_symmetric (decrypt_and_hash encrypted_epoch);
  _ ← store_epoch decrypted_epoch;
  modify (λ s, set_progress s Message2Done).

Definition try_read_xk_message_2 (message : list Z) : M unit := λ s,
  let saved := clone (symmetric s) in
  let '(s', r) := read_xk_message_2 message s in
  match r with
  | Err e =>
      (set_progress (set_remote_epoch (set_remote_ephemeral (set_symmetric s' saved)
         (remote_ephemeral s)) (remote_epoch s)) (progress s), Err e)
  | _ => (s', r)
  end.

Definition write_xk_message_3 : M (list Z) :=
  _ ← expect_state Initiator Message2Done;
  s ← get;
  re ← unwrap (remote_ephemeral s);
  epoch ← unwrap (local_epoch s);
  encrypted_static ← on_symmetric (encrypt_and_hash (serialize (public_key (static_keypair s))));
  _ ← mix (ecdh (static_keypair s) re);
  encrypted_epoch ← on_symmetric (encrypt_and_hash epoch);
  _ ← modify (λ s, set_progress s Complete);
  mret (encrypted_static ++ encrypted_epoch).

Definition read_xk_message_3_in_place (message : list Z) : M unit :=
  _ ← expect_state Responder Message2Done;
  _ ← expect_len message XK_HANDSHAKE_MSG3_SIZE;
  let encrypted_static_end := (PUBKEY_SIZE + TAG_SIZE)%nat in
  encrypted_static ← lift (slice message 0 encrypted_static_end);
  decrypted_static ← on_symmetric (decrypt_and_hash encrypted_static);
  rs ← ok_or (pk_from_slice decrypted_static) InvalidPublicKey;
  _ ← modify (λ s, set_remote_static s (Some rs));
  s ← get;
  ephemeral ← unwrap (ephemeral_keypair s);
  _ ← mix (ecdh ephemeral rs);
  encrypted_epoch ← lift (slice_from message encrypted_static_end);
  decrypted_epoch ← on_symmetric (decrypt_and_hash encrypted_epoch);
  _ ← store_epoch decrypted_epoch;
  modify (λ s, set_progress s Complete).

Definition read_xk_message_3 (message : list Z) : M unit := λ s,
  let saved := clone (symmetric s) in
  let '(s', r) := read_xk_message_3_in_place message s in
  match r with
  | Err e =>
      (set_remote_epoch (set_remote_static (set_progress (set_symmetric s' saved) (progress s))
         (remote_static s)) (remote_epoch s), Err e)
  | _ => (s', r)
  end.

End handshake.
End HandshakeState.

(** Histories of one handshake: the calls a peer can make on its state. *)
Module HandshakeTrace.
Import HandshakeState.
Section trace.
Context `{NoiseCrypto}.

Inductive op :=
| WriteMessage1 (random : list Z)
| ReadMessage1 (message : list Z)
| WriteMessage2 (random : list Z)
| ReadMessage2 (message : list Z)
| TryReadMessage2 (message : list Z)
| WriteXkMessage1 (random : list Z)
| ReadXkMessage1 (message : list Z)
| WriteXkMessage2 (random : list Z)
| ReadXkMessage2 (message : list Z)
| TryReadXkMessage2 (message : list Z)
| WriteXkMessage3
| ReadXkMessage3 (message : list Z).

(** A reader answers nothing, a writer the message. *)
Definition run_op (o : op) : M (list Z) :=
  match o with
  | WriteMessage1 random => write_message_1 random
  | ReadMessage1 m => _ ← read_message_1 m; mret []
  | WriteMessage2 random => write_message_2 random
  | ReadMessage2 m => _ ← read_message_2 m; mret []
  | TryReadMessage2 m => _ ← try_read_message_2 m; mret []
  | WriteXkMessage1 random => write_xk_message_1 random
  | ReadXkMessage1 m => _ ← read_xk_message_1 m; mret []
  | WriteXkMessage2 random => write_xk_message_2 random
  | ReadXkMessage2 m => _ ← read_xk_message_2 m; mret []
  | TryReadXkMessage2 m => _ ← try_read_xk_message_2 m; mret []
  | WriteXkMessage3 => write_xk_message_3
  | ReadXkMessage3 m => _ ← read_xk_message_3 m; mret []
  end.

(** The role and progress a call needs, and the progress it leads to. *)
Definition required (o : op) : HandshakeRole * HandshakeProgress :=
  match o with
  | WriteMessage1 _ | WriteXkMessage1 _ => (Initiator, Initial)
  | ReadMessage1 _ | ReadXkMessage1 _ => (Responder, Initial)
  | WriteMessage2 _ | WriteXkMessage2 _ => (Responder, Message1Done)
  | ReadMessage2 _ | TryReadMessage2 _ | ReadXkMessage2 _ | TryReadXkMessage2 _ => (Initiator, Message1Done)
  | WriteXkMessage3 => (Initiator, Message2Done)
  | ReadXkMessage3 _ => (Responder, Message2Done)
  end.

Definition next_progress (o : op) : HandshakeProgress :=
  match o with
  | WriteMessage1 _ | ReadMessage1 _ | WriteXkMessage1 _ | ReadXkMessage1 _ => Message1Done
  | WriteXkMessage2 _ | ReadXkMessage2 _ | TryReadXkMessage2 _ => Message2Done
  | WriteMessage2 _ | ReadMessage2 _ | TryReadMessage2 _ | WriteXkMessage3 | ReadXkMessage3 _ => Complete
  end.

(** The readers that take their changes back. *)
Definition transactional (o : op) : bool :=
  match o with TryReadMessage2 _ | TryReadXkMessage2 _ | ReadXkMessage3 _ => true | _ => false end.

Inductive reachable : HandshakeState → Prop :=
| reach_initiator k rs : reachable (new_initiator k rs)
| reach_responder k : reachable (new_responder k)
| reach_xk_initiator k rs : reachable (new_xk_initiator k rs)
| reach_xk_responder k : reachable (new_xk_responder k)
| reach_epoch s e : reachable s → reachable (set_local_epoch s e)
| reach_op s o s' r : reachable s → run_op o s = (s', r) → reachable s'.

End trace.
End HandshakeTrace.

(** ** What is relied on

    Documented behaviour of the primitives: compressed keys are 33 bytes and parse
    back, the product of a secret and a public key is symmetric and its x
    coordinate does not depend on the parity of the public key, HKDF fills the
    output it is asked for, and the AEAD opens what it sealed. *)
Class NoiseCryptoLaws (crypto : NoiseCrypto) : Prop := {
  serialize_length p : length (serialize p) = PUBKEY_SIZE;
  pk_from_serialize p : pk_from_slice (serialize p) = Some p;
  shared_secret_comm a b :
    shared_secret_point (public_key a) b = shared_secret_point (public_key b) a;
  shared_secret_parity p q k :
    drop 1 (serialize p) = drop 1 (serialize q) →
    take 32 (shared_secret_point p k) = take 32 (shared_secret_point q k);
  hkdf_length salt ikm : length (hkdf_sha256 salt ikm) = 64%nat;
  aead_seals k n ad p :
    length k = 32%nat → length n = 12%nat → Z.of_nat (length p) ≤ MAX_MESSAGE_SIZE →
    ∃ c, aead_seal k n ad p = Some c ∧ length c = (length p + TAG_SIZE)%nat ∧
         aead_open k n ad c = Some p
}.

(** ** The cipher and the symmetric state *)

Module NoiseFacts.
Import SymmetricState HandshakeState HandshakeTrace.
Section facts.
Context `{NoiseCryptoLaws}.

(** A keyed state and its next nonce. *)
Definition keyed (n : Z) (y : SymmetricState) : Prop :=
  ∃ k, cipher y = CipherState.mkCipher k (Some k) n true ∧ length k = 32%nat.

Lemma counter_to_nonce_length n : length (CipherState.counter_to_nonce n) = 12%nat.
Proof. unfold CipherState.counter_to_nonce. by rewrite length_app, length_replicate, length_to_le_bytes. Qed.

Lemma too_large_false p : Z.of_nat (length p) ≤ 65519 → CipherState.too_large p = false.
Proof. intros Hp. apply Z.ltb_ge. unfold MAX_MESSAGE_SIZE, TAG_SIZE. lia. Qed.

Lemma mix_key_keyed y ikm : keyed 0 (mix_key y ikm).
Proof.
  set (k := take 32 (drop 32 (hkdf_sha256 (ck y) ikm))).
  assert (length k = 32%nat) as Hk by (unfold k; rewrite length_take, length_drop, hkdf_length; lia).
  exists k. unfold mix_key. cbn [cipher]. unfold CipherState.initialize_key, CipherState.build_cipher.
  fold k. by rewrite Hk.
Qed.

(** Both sides of an encrypted field end in the same state. *)
Lemma encrypt_decrypt n y p : keyed n y → 0 ≤ n < U64_MAX → Z.of_nat (length p) ≤ 65519 →
  ∃ c y', encrypt_and_hash p y = (y', Ok c) ∧ decrypt_and_hash c y = (y', Ok p) ∧
    length c = (length p + TAG_SIZE)%nat ∧ keyed (n + 1) y'.
Proof.
  destruct y as [ck0 h0 cy]. intros (k & Hy & Hk) Hn Hp. cbn in Hy. subst cy.
  destruct (aead_seals k (CipherState.counter_to_nonce n) [] p Hk (counter_to_nonce_length n))
    as (c & Hc & Hlen & Ho); [unfold MAX_MESSAGE_SIZE; lia|].
  assert ((n =? U64_MAX) = false) as Hn' by (apply Z.eqb_neq; lia).
  exists c, (mkSymmetric ck0 (sha256 (h0 ++ c)) (CipherState.mkCipher k (Some k) (n + 1) true)).
  split; [|split; [|split]]; [| |exact Hlen|exists k; split; [reflexivity|done]].
  - unfold encrypt_and_hash, zoom, mbind, SE_bind, CipherState.encrypt, get. cbn -[CipherState.too_large].
    rewrite too_large_false by done. unfold CipherState.advance_nonce, get, mbind, SE_bind.
    cbn -[U64_MAX Z.eqb CipherState.counter_to_nonce]. rewrite Hn'. cbn -[U64_MAX Z.add CipherState.counter_to_nonce]. rewrite Hc. reflexivity.
  - unfold decrypt_and_hash, zoom, mbind, SE_bind, CipherState.decrypt, get. cbn [CipherState.has_key negb cipher].
    replace (length c <? TAG_SIZE)%nat with false by (symmetry; apply Nat.ltb_ge; unfold TAG_SIZE in *; lia).
    unfold CipherState.advance_nonce, get, mbind, SE_bind.
    cbn -[U64_MAX Z.eqb CipherState.counter_to_nonce]. rewrite Hn'. cbn -[U64_MAX Z.add CipherState.counter_to_nonce]. rewrite Ho. reflexivity.
Qed.

(** ** Running the handshake functions *)

Lemma expect_state_ok s r p : role s = r → progress s = p → expect_state r p s = (s, Ok tt).
Proof.
  intros <- <-. unfold expect_state, get, mbind, SE_bind.
  rewrite !bool_decide_eq_true_2 by done. by destruct (role s).
Qed.

Lemma expect_len_ok m n s : length m = n → expect_len m n s = (s, Ok tt).
Proof. intros <-. unfold expect_len. by rewrite Nat.eqb_refl. Qed.

Lemma generate_ephemeral_ok random e s :
  sk_from_slice random = Some e → generate_ephemeral random s = (set_ephemeral s (Some e), Ok tt).
Proof. intros He. unfold generate_ephemeral, mbind, SE_bind, unwrap. by rewrite He. Qed.

Lemma on_symmetric_ok {A} (m : SE SymmetricState NoiseError A) s y r :
  m (symmetric s) = (y, r) → on_symmetric m s = (set_symmetric s y, r).
Proof. intros Hm. unfold on_symmetric, zoom. by rewrite Hm. Qed.

Lemma store_epoch_ok d s :
  length d = EPOCH_SIZE → store_epoch d s = (set_remote_epoch s (Some d), Ok tt).
Proof. intros Hd. unfold store_epoch. rewrite Hd. reflexivity. Qed.

Lemma pk_from_ok p (e : NoiseError) (s : HandshakeState) :
  ok_or (pk_from_slice (serialize p)) e s = (s, Ok p).
Proof. unfold ok_or. by rewrite pk_from_serialize. Qed.

Lemma lift_ok {A} (r : outcome NoiseError A) a (s : HandshakeState) : r = Ok a → lift r s = (s, Ok a).
Proof. by intros ->. Qed.

(** The slices of a message made of three or two fields. *)
Lemma fields3 {E} (x y z : list Z) n1 n2 : length x = n1 → length y = (n2 - n1)%nat → (n1 ≤ n2)%nat →
  @slice E (x ++ y ++ z) 0 n1 = Ok x ∧ @slice E (x ++ y ++ z) n1 n2 = Ok y ∧
  @slice_from E (x ++ y ++ z) n2 = Ok z.
Proof.
  intros <- Hy Hn. split_and!.
  - by apply slice_app_here.
  - rewrite slice_app_skip by lia. rewrite Nat.sub_diag, <-Hy. by apply slice_app_here.
  - rewrite app_assoc. apply slice_from_app. rewrite length_app. lia.
Qed.

Lemma fields2 {E} (x y : list Z) n : length x = n →
  @slice E (x ++ y) 0 n = Ok x ∧ @slice_from E (x ++ y) n = Ok y.
Proof. intros Hx. split; [by apply slice_app_here|by apply slice_from_app]. Qed.

End facts.

(** Run a handshake function one call at a time. *)
Ltac run_leaf :=
  first
    [ apply expect_state_ok; reflexivity
    | apply expect_len_ok; eassumption
    | apply generate_ephemeral_ok; eassumption
    | apply on_symmetric_ok; cbn [symmetric set_symmetric]; first [eassumption | reflexivity]
    | apply store_epoch_ok; eassumption
    | apply pk_from_ok
    | apply lift_ok; eassumption
    | reflexivity ].

Ltac run := repeat (erewrite SE_bind_ok; [|run_leaf];
  cbn [set_progress set_symmetric set_ephemeral set_remote_static set_remote_ephemeral set_remote_epoch
       pattern role progress symmetric static_keypair ephemeral_keypair remote_static remote_ephemeral
       local_epoch remote_epoch]).

Section exchange.
Context `{NoiseCryptoLaws}.

(** What one side of a message writes the other reads, and both end with the same
    symmetric state. *)
Lemma ik_message_1 y a b rs ra ea epoch other : sk_from_slice ra = Some ea → length epoch = EPOCH_SIZE →
  ecdh ea rs = ecdh b (public_key ea) → ecdh a rs = ecdh b (public_key a) →
  ∃ y' m, length m = HANDSHAKE_MSG1_SIZE ∧
    write_message_1 ra (mkHandshake Ik Initiator Initial y a None (Some rs) None (Some epoch) None) =
      (mkHandshake Ik Initiator Message1Done y' a (Some ea) (Some rs) None (Some epoch) None, Ok m) ∧
    read_message_1 m (mkHandshake Ik Responder Initial y b None None None other None) =
      (mkHandshake Ik Responder Message1Done y' b None (Some (public_key a)) (Some (public_key ea))
         other (Some epoch), Ok tt).
Proof.
  intros Hea Hep Hes Hss.
  destruct (encrypt_decrypt 0 (mix_key (mix_hash y (serialize (public_key ea))) (ecdh ea rs))
    (serialize (public_key a))) as (c1 & y2 & E1 & D1 & L1 & K1);
    [apply mix_key_keyed|unfold U64_MAX; lia|rewrite serialize_length; unfold PUBKEY_SIZE; lia|].
  destruct (encrypt_decrypt 0 (mix_key y2 (ecdh a rs)) epoch) as (c2 & y3 & E2 & D2 & L2 & K2);
    [apply mix_key_keyed|unfold U64_MAX; lia|rewrite Hep; unfold EPOCH_SIZE; lia|].
  rewrite serialize_length in L1. rewrite Hep in L2.
  destruct (@fields3 NoiseError (serialize (public_key ea)) c1 c2 PUBKEY_SIZE (PUBKEY_SIZE + PUBKEY_SIZE + TAG_SIZE))
    as (S1 & S2 & S3); [apply serialize_length|exact L1|unfold PUBKEY_SIZE; lia|].
  exists y3, (serialize (public_key ea) ++ c1 ++ c2).
  assert (length (serialize (public_key ea) ++ c1 ++ c2) = HANDSHAKE_MSG1_SIZE)
    by (rewrite !length_app, serialize_length, L1, L2; reflexivity).
  split; [done|split].
  - unfold write_message_1. by run.
  - rewrite Hes in D1. rewrite Hss in D2. unfold read_message_1. by run.
Qed.

Lemma ik_message_2 y a b rs ea rb eb epoch other e0 s1 : sk_from_slice rb = Some eb → length epoch = EPOCH_SIZE →
  ecdh ea (public_key eb) = ecdh eb (public_key ea) → ecdh ea rs = ecdh b (public_key ea) →
  ∃ y' m, length m = HANDSHAKE_MSG2_SIZE ∧
    write_message_2 rb (mkHandshake Ik Responder Message1Done y b None s1 (Some (public_key ea)) (Some epoch) e0) =
      (mkHandshake Ik Responder Complete y' b (Some eb) s1 (Some (public_key ea)) (Some epoch) e0, Ok m) ∧
    read_message_2 m (mkHandshake Ik Initiator Message1Done y a (Some ea) (Some rs) None other None) =
      (mkHandshake Ik Initiator Complete y' a (Some ea) (Some rs) (Some (public_key eb)) other (Some epoch), Ok tt).
Proof.
  intros Heb Hep Hee Hes.
  destruct (encrypt_decrypt 0 (mix_key (mix_key (mix_hash y (serialize (public_key eb)))
    (ecdh eb (public_key ea))) (ecdh b (public_key ea))) epoch) as (c & y' & E1 & D1 & L1 & K1);
    [apply mix_key_keyed|unfold U64_MAX; lia|rewrite Hep; unfold EPOCH_SIZE; lia|].
  rewrite Hep in L1.
  destruct (@fields2 NoiseError (serialize (public_key eb)) c PUBKEY_SIZE) as (S1 & S2); [apply serialize_length|].
  exists y', (serialize (public_key eb) ++ c).
  assert (length (serialize (public_key eb) ++ c) = HANDSHAKE_MSG2_SIZE)
    by (rewrite !length_app, serialize_length, L1; reflexivity).
  split; [done|split].
  - unfold write_message_2. by run.
  - rewrite <-Hee, <-Hes in D1. unfold read_message_2. by run.
Qed.

Lemma xk_message_1 y a b rs ra ea la lb : sk_from_slice ra = Some ea → ecdh ea rs = ecdh b (public_key ea) →
  ∃ y' m, keyed 0 y' ∧ length m = XK_HANDSHAKE_MSG1_SIZE ∧
    write_xk_message_1 ra (mkHandshake Xk Initiator Initial y a None (Some rs) None la None) =
      (mkHandshake Xk Initiator Message1Done y' a (Some ea) (Some rs) None la None, Ok m) ∧
    read_xk_message_1 m (mkHandshake Xk Responder Initial y b None None None lb None) =
      (mkHandshake Xk Responder Message1Done y' b None None (Some (public_key ea)) lb None, Ok tt).
Proof.
  intros Hea Hes.
  pose proof (serialize_length (public_key ea)) as L1.
  pose proof (slice_all (E := NoiseError) (serialize (public_key ea)) _ L1) as S1.
  exists (mix_key (mix_hash y (serialize (public_key ea))) (ecdh ea rs)), (serialize (public_key ea)).
  split; [apply mix_key_keyed|split; [done|split]].
  - unfold write_xk_message_1. by run.
  - rewrite Hes. unfold read_xk_message_1. by run.
Qed.

Lemma xk_message_2 y a b rs ea rb eb epoch la : sk_from_slice rb = Some eb → length epoch = EPOCH_SIZE →
  ecdh ea (public_key eb) = ecdh eb (public_key ea) →
  ∃ y' m, keyed 1 y' ∧ length m = XK_HANDSHAKE_MSG2_SIZE ∧
    write_xk_message_2 rb (mkHandshake Xk Responder Message1Done y b None None (Some (public_key ea)) (Some epoch) None) =
      (mkHandshake Xk Responder Message2Done y' b (Some eb) None (Some (public_key ea)) (Some epoch) None, Ok m) ∧
    read_xk_message_2 m (mkHandshake Xk Initiator Message1Done y a (Some ea) (Some rs) None la None) =
      (mkHandshake Xk Initiator Message2Done y' a (Some ea) (Some rs) (Some (public_key eb)) la (Some epoch), Ok tt).
Proof.
  intros Heb Hep Hee.
  destruct (encrypt_decrypt 0 (mix_key (mix_hash y (serialize (public_key eb))) (ecdh eb (public_key ea))) epoch)
    as (c & y' & E1 & D1 & L1 & K1); [apply mix_key_keyed|unfold U64_MAX; lia|rewrite Hep; unfold EPOCH_SIZE; lia|].
  rewrite Hep in L1.
  destruct (@fields2 NoiseError (serialize (public_key eb)) c PUBKEY_SIZE) as (S1 & S2); [apply serialize_length|].
  exists y', (serialize (public_key eb) ++ c).
  assert (length (serialize (public_key eb) ++ c) = XK_HANDSHAKE_MSG2_SIZE)
    by (rewrite !length_app, serialize_length, L1; reflexivity).
  split; [done|split; [done|split]].
  - unfold write_xk_message_2. by run.
  - rewrite <-Hee in D1. unfold read_xk_message_2. by run.
Qed.

Lemma read_xk_message_3_ok m s s' :
  read_xk_message_3_in_place m s = (s', Ok tt) → read_xk_message_3 m s = (s', Ok tt).
Proof. unfold read_xk_message_3. by intros ->. Qed.

Lemma xk_message_3 y a b ea rs eb epoch_a epoch_b : keyed 1 y → length epoch_a = EPOCH_SIZE →
  ecdh a (public_key eb) = ecdh eb (public_key a) →
  ∃ y' m, length m = XK_HANDSHAKE_MSG3_SIZE ∧
    write_xk_message_3 (mkHandshake Xk Initiator Message2Done y a (Some ea) (Some rs) (Some (public_key eb))
        (Some epoch_a) (Some epoch_b)) =
      (mkHandshake Xk Initiator Complete y' a (Some ea) (Some rs) (Some (public_key eb))
        (Some epoch_a) (Some epoch_b), Ok m) ∧
    read_xk_message_3 m (mkHandshake Xk Responder Message2Done y b (Some eb) None (Some (public_key ea))
        (Some epoch_b) None) =
      (mkHandshake Xk Responder Complete y' b (Some eb) (Some (public_key a)) (Some (public_key ea))
        (Some epoch_b) (Some epoch_a), Ok tt).
Proof.
  intros Hy Hep Hse.
  destruct (encrypt_decrypt 1 y (serialize (public_key a))) as (c1 & y2 & E1 & D1 & L1 & K1);
    [done|unfold U64_MAX; lia|rewrite serialize_length; unfold PUBKEY_SIZE; lia|].
  destruct (encrypt_decrypt 0 (mix_key y2 (ecdh a (public_key eb))) epoch_a) as (c2 & y3 & E2 & D2 & L2 & K2);
    [apply mix_key_keyed|unfold U64_MAX; lia|rewrite Hep; unfold EPOCH_SIZE; lia|].
  rewrite serialize_length in L1. rewrite Hep in L2.
  destruct (@fields2 NoiseError c1 c2 (PUBKEY_SIZE + TAG_SIZE)) as (S1 & S2); [done|].
  exists y3, (c1 ++ c2).
  assert (length (c1 ++ c2) = XK_HANDSHAKE_MSG3_SIZE)
    by (rewrite !length_app, L1, L2; reflexivity).
  split; [done|split].
  - unfold write_xk_message_3. by run.
  - rewrite Hse in D2. apply read_xk_message_3_ok.
    unfold read_xk_message_3_in_place. by run.
Qed.

(** ** Rollback *)

(** What the readers of message 2 never change. *)
Definition reader_frame (s t : HandshakeState) : Prop :=
  pattern t = pattern s ∧ role t = role s ∧ static_keypair t = static_keypair s ∧
  ephemeral_keypair t = ephemeral_keypair s ∧ remote_static t = remote_static s ∧
  local_epoch t = local_epoch s.

#[local] Instance reader_frame_preorder : PreOrder reader_frame.
Proof. split; [by intros s; split_and!|intros s t u (?&?&?&?&?&?) (?&?&?&?&?&?); split_and!; congruence]. Qed.

(** And what the reader of message 3 never changes. *)
Definition reader_frame_3 (s t : HandshakeState) : Prop :=
  pattern t = pattern s ∧ role t = role s ∧ static_keypair t = static_keypair s ∧
  ephemeral_keypair t = ephemeral_keypair s ∧ remote_ephemeral t = remote_ephemeral s ∧
  local_epoch t = local_epoch s.

#[local] Instance reader_frame_3_preorder : PreOrder reader_frame_3.
Proof. split; [by intros s; split_and!|intros s t u (?&?&?&?&?&?) (?&?&?&?&?&?); split_and!; congruence]. Qed.

Ltac frame := keeps ltac:(by intros; split_and!).

Lemma read_message_2_frame m : keeps reader_frame (read_message_2 m).
Proof. unfold read_message_2, expect_state, expect_len, store_epoch, hash, mix, on_symmetric. frame. Qed.

Lemma read_xk_message_2_frame m : keeps reader_frame (read_xk_message_2 m).
Proof. unfold read_xk_message_2, expect_state, expect_len, store_epoch, hash, mix, on_symmetric. frame. Qed.

Lemma read_xk_message_3_frame m : keeps reader_frame_3 (read_xk_message_3_in_place m).
Proof. unfold read_xk_message_3_in_place, expect_state, expect_len, store_epoch, hash, mix, on_symmetric. frame. Qed.

(** The cached AEAD is the one the retained key builds. *)
Definition cached (c : CipherState.CipherState) : Prop :=
  CipherState.cipher c = CipherState.cipher_clone c.

Lemma clone_cached c : cached c → CipherState.clone c = c.
Proof. destruct c as [k c n h]. unfold cached, CipherState.clone, CipherState.cipher_clone. cbn. by intros ->. Qed.

Lemma symmetric_clone_cached y : cached (cipher y) → clone y = y.
Proof. intros Hc. unfold clone. rewrite clone_cached by done. by destruct y. Qed.

Lemma rollback_exact s t : reader_frame s t → cached (cipher (symmetric s)) →
  set_progress (set_remote_epoch (set_remote_ephemeral (set_symmetric t (clone (symmetric s)))
    (remote_ephemeral s)) (remote_epoch s)) (progress s) = s.
Proof.
  intros (?&?&?&?&?&?) Hc. rewrite symmetric_clone_cached by done.
  destruct s, t; cbn in *; subst; reflexivity.
Qed.

Lemma rollback_3_exact s t : reader_frame_3 s t → cached (cipher (symmetric s)) →
  set_remote_epoch (set_remote_static (set_progress (set_symmetric t (clone (symmetric s)))
    (progress s)) (remote_static s)) (remote_epoch s) = s.
Proof.
  intros (?&?&?&?&?&?) Hc. rewrite symmetric_clone_cached by done.
  destruct s, t; cbn in *; subst; reflexivity.
Qed.

Lemma try_read_message_2_err m s s' e : cached (cipher (symmetric s)) →
  try_read_message_2 m s = (s', Err e) → s' = s.
Proof.
  intros Hc Ht. unfold try_read_message_2 in Ht. pose proof (read_message_2_frame m s) as Hf.
  destruct (read_message_2 m s) as [t [u|e'|]]; simplify_eq. by apply rollback_exact.
Qed.

Lemma try_read_xk_message_2_err m s s' e : cached (cipher (symmetric s)) →
  try_read_xk_message_2 m s = (s', Err e) → s' = s.
Proof.
  intros Hc Ht. unfold try_read_xk_message_2 in Ht. pose proof (read_xk_message_2_frame m s) as Hf.
  destruct (read_xk_message_2 m s) as [t [u|e'|]]; simplify_eq. by apply rollback_exact.
Qed.

Lemma read_xk_message_3_err m s s' e : cached (cipher (symmetric s)) →
  read_xk_message_3 m s = (s', Err e) → s' = s.
Proof.
  intros Hc Ht. unfold read_xk_message_3 in Ht. pose proof (read_xk_message_3_frame m s) as Hf.
  destruct (read_xk_message_3_in_place m s) as [t [u|e'|]]; simplify_eq. by apply rollback_3_exact.
Qed.

(** ** The cached AEAD is an invariant *)


Definition keeps_cached_cipher (s t : CipherState.CipherState) : Prop := cached s → cached t.
Definition keeps_cached_symmetric (s t : SymmetricState) : Prop := cached (cipher s) → cached (cipher t).
Definition keeps_cached (s t : HandshakeState) : Prop :=
  cached (cipher (symmetric s)) → cached (cipher (symmetric t)).

#[local] Instance keeps_cached_cipher_preorder : PreOrder keeps_cached_cipher.
Proof. split; unfold keeps_cached_cipher; repeat intro; auto. Qed.
#[local] Instance keeps_cached_symmetric_preorder : PreOrder keeps_cached_symmetric.
Proof. split; unfold keeps_cached_symmetric; repeat intro; auto. Qed.
#[local] Instance keeps_cached_preorder : PreOrder keeps_cached.
Proof. split; unfold keeps_cached; repeat intro; auto. Qed.

Lemma advance_nonce_cached : keeps keeps_cached_cipher CipherState.advance_nonce.
Proof. intros s. unfold CipherState.advance_nonce, get, mbind, SE_bind. destruct (_ =? _); intros Hs; exact Hs. Qed.

Lemma encrypt_cached p : keeps keeps_cached_cipher (CipherState.encrypt p).
Proof.
  apply (keeps_bind _); [apply (keeps_get _)|intros s].
  destruct (negb _); [apply (keeps_ret _)|]. destruct (CipherState.too_large _); [apply (keeps_pure _)|].
  apply (keeps_bind _); [apply advance_nonce_cached|intros n; apply (keeps_pure _)].
Qed.

Lemma decrypt_cached p : keeps keeps_cached_cipher (CipherState.decrypt p).
Proof.
  apply (keeps_bind _); [apply (keeps_get _)|intros s].
  destruct (negb _); [apply (keeps_ret _)|]. destruct (_ <? _)%nat; [apply (keeps_pure _)|].
  apply (keeps_bind _); [apply advance_nonce_cached|intros n; apply (keeps_pure _)].
Qed.

Lemma encrypt_and_hash_cached p : keeps keeps_cached (on_symmetric (encrypt_and_hash p)).
Proof.
  apply (keeps_zoom_in _ keeps_cached_symmetric); [|intros ?? Hs; exact Hs].
  apply (keeps_bind _); [|intros ? s Hs; exact Hs].
  apply (keeps_zoom_in _ keeps_cached_cipher); [apply encrypt_cached|intros ?? Hs; exact Hs].
Qed.

Lemma decrypt_and_hash_cached p : keeps keeps_cached (on_symmetric (decrypt_and_hash p)).
Proof.
  apply (keeps_zoom_in _ keeps_cached_symmetric); [|intros ?? Hs; exact Hs].
  apply (keeps_bind _); [|intros ? s Hs; exact Hs].
  apply (keeps_zoom_in _ keeps_cached_cipher); [apply decrypt_cached|intros ?? Hs; exact Hs].
Qed.

Lemma hash_cached d : keeps keeps_cached (hash d).
Proof. intros s Hs. exact Hs. Qed.

Lemma mix_cached k : keeps keeps_cached (mix k).
Proof. intros s Hs. reflexivity. Qed.

Ltac cached_ops :=
  unfold expect_state, expect_len, store_epoch, generate_ephemeral;
  repeat first
    [ apply encrypt_and_hash_cached | apply decrypt_and_hash_cached | apply hash_cached | apply mix_cached
    | apply (keeps_bind _); [|intros ?]
    | apply (keeps_pure _) | apply (keeps_unwrap _) | apply (keeps_ok_or _) | apply (keeps_get _)
    | apply (keeps_ret _) | apply (keeps_guard _)
    | apply keeps_modify; intros ? Hs; exact Hs ].

Lemma read_message_2_cached m : keeps keeps_cached (read_message_2 m).
Proof. unfold read_message_2. cached_ops. Qed.
Lemma read_xk_message_2_cached m : keeps keeps_cached (read_xk_message_2 m).
Proof. unfold read_xk_message_2. cached_ops. Qed.
Lemma read_xk_message_3_cached m : keeps keeps_cached (read_xk_message_3_in_place m).
Proof. unfold read_xk_message_3_in_place. cached_ops. Qed.

Lemma run_op_cached o : keeps keeps_cached (run_op o).
Proof.
  destruct o; cbn [run_op]; try (apply (keeps_bind _); [|intros; apply (keeps_ret _)]).
  - unfold write_message_1. cached_ops.
  - unfold read_message_1. cached_ops.
  - unfold write_message_2. cached_ops.
  - apply read_message_2_cached.
  - intros s Hs. unfold try_read_message_2. pose proof (read_message_2_cached message s Hs).
    destruct (read_message_2 message s) as [t [u|e|]]; [done| |done].
    cbn [fst]. rewrite symmetric_clone_cached by exact Hs. exact Hs.
  - unfold write_xk_message_1. cached_ops.
  - unfold read_xk_message_1. cached_ops.
  - unfold write_xk_message_2. cached_ops.
  - apply read_xk_message_2_cached.
  - intros s Hs. unfold try_read_xk_message_2. pose proof (read_xk_message_2_cached message s Hs).
    destruct (read_xk_message_2 message s) as [t [u|e|]]; [done| |done].
    cbn [fst]. rewrite symmetric_clone_cached by exact Hs. exact Hs.
  - unfold write_xk_message_3. cached_ops.
  - intros s Hs. unfold read_xk_message_3. pose proof (read_xk_message_3_cached message s Hs).
    destruct (read_xk_message_3_in_place message s) as [t [u|e|]]; [done| |done].
    cbn [fst]. rewrite symmetric_clone_cached by exact Hs. exact Hs.
Qed.

Lemma reachable_cached s : reachable s → cached (cipher (symmetric s)).
Proof.
  induction 1 as [| | | |s e Hs IH|s o s' r Hs IH Ho]; [done..|exact IH|].
  pose proof (run_op_cached o s IH) as Hc. by rewrite Ho in Hc.
Qed.

(** ** The order of the messages *)

Definition same_progress (s t : HandshakeState) : Prop := progress t = progress s.

#[local] Instance same_progress_preorder : PreOrder same_progress.
Proof. split; unfold same_progress; repeat intro; congruence. Qed.

Ltac ends_ops :=
  unfold expect_state, expect_len, store_epoch, generate_ephemeral, hash, mix, on_symmetric;
  repeat first
    [ apply ends_modify_ret; reflexivity
    | apply ends_modify; reflexivity
    | apply (ends_bind _); [keeps ltac:(reflexivity)|intros ?] ].

(** A reader whose changes are taken back on an error. *)
Lemma ends_rollback (Q : HandshakeState → Prop) (m : M unit) (back : HandshakeState → HandshakeState → HandshakeState) :
  ends same_progress Q m → (∀ s t, progress (back s t) = progress s) →
  ends same_progress Q (λ s, let '(t, r) := m s in match r with Err e => (back s t, Err e) | _ => (t, r) end).
Proof.
  intros Hm Hb s. specialize (Hm s). destruct (m s) as [t [u|e|]]; cbn in *; [done|apply Hb|done].
Qed.

Lemma ends_ret Q (m : M unit) : ends same_progress Q m → ends same_progress Q (_ ← m; mret ([] : list Z)).
Proof.
  intros Hm s. specialize (Hm s). unfold mbind, SE_bind. by destruct (m s) as [t [u|e|]].
Qed.

Lemma run_op_ends o : ends same_progress (λ s, progress s = next_progress o) (run_op o).
Proof.
  destruct o; cbn [run_op next_progress]; try apply ends_ret.
  - unfold write_message_1. ends_ops.
  - unfold read_message_1. ends_ops.
  - unfold write_message_2. ends_ops.
  - unfold read_message_2. ends_ops.
  - unfold try_read_message_2. apply (ends_rollback _ (read_message_2 message)); [|done].
    unfold read_message_2. ends_ops.
  - unfold write_xk_message_1. ends_ops.
  - unfold read_xk_message_1. ends_ops.
  - unfold write_xk_message_2. ends_ops.
  - unfold read_xk_message_2. ends_ops.
  - unfold try_read_xk_message_2. apply (ends_rollback _ (read_xk_message_2 message)); [|done].
    unfold read_xk_message_2. ends_ops.
  - unfold write_xk_message_3. ends_ops.
  - unfold read_xk_message_3. apply (ends_rollback _ (read_xk_message_3_in_place message)); [|done].
    unfold read_xk_message_3_in_place. ends_ops.
Qed.

Lemma expect_state_err s r p : (role s, progress s) ≠ (r, p) →
  ∃ e g, expect_state r p s = (s, Err (WrongState e g)).
Proof.
  intros Hne. unfold expect_state, get, mbind, SE_bind.
  destruct (decide (role s = r)) as [Hr|Hr].
  - rewrite bool_decide_eq_true_2 by done. cbn.
    rewrite bool_decide_eq_false_2 by (intros Hp; apply Hne; congruence). cbn. eauto.
  - rewrite bool_decide_eq_false_2 by done. destruct r; cbn; eauto.
Qed.

(** Out of order, a call answers the error and changes nothing. *)
Lemma run_op_wrong_state s o : cached (cipher (symmetric s)) → (role s, progress s) ≠ required o →
  ∃ e g, run_op o s = (s, Err (WrongState e g)).
Proof.
  intros Hc Hne. destruct (required o) as [r p] eqn:Hr.
  destruct (expect_state_err s r p Hne) as (e & g & He). exists e, g.
  destruct o; cbn [required] in Hr; injection Hr as <- <-; cbn [run_op];
    first [by apply SE_bind_err|apply SE_bind_err; first [by apply SE_bind_err|idtac]].
  - unfold try_read_message_2. assert (read_message_2 message s = (s, Err (WrongState e g))) as -> by (by apply SE_bind_err).
    by rewrite rollback_exact.
  - unfold try_read_xk_message_2. assert (read_xk_message_2 message s = (s, Err (WrongState e g))) as -> by (by apply SE_bind_err).
    by rewrite rollback_exact.
  - unfold read_xk_message_3. assert (read_xk_message_3_in_place message s = (s, Err (WrongState e g))) as -> by (by apply SE_bind_err).
    by rewrite rollback_3_exact.
Qed.

(** In every state a handshake can be in, a message function called in the
    wrong role or out of order answers [WrongState] and leaves the state untouched;
    one that succeeds was called in its role and turn and moves the progress to
    the next stage; and one that fails leaves the progress where it was. So
    messages are only ever processed in the order of the pattern. *)
Theorem handshake_order (s : HandshakeState) (o : op) (s' : HandshakeState) (r : outcome NoiseError (list Z)) :
  reachable s → run_op o s = (s', r) →
  ((role s, progress s) ≠ required o → s' = s ∧ ∃ expected got, r = Err (WrongState expected got)) ∧
  match r with
  | Ok _ => (role s, progress s) = required o ∧ progress s' = next_progress o
  | Err _ | Panic => progress s' = progress s
  end.
Proof.
  intros Hs Ho. pose proof (run_op_ends o s) as He. rewrite Ho in He. cbn [fst snd] in He.
  assert ((role s, progress s) ≠ required o → s' = s ∧ ∃ e g, r = Err (WrongState e g)) as Hw.
  { intros Hne. destruct (run_op_wrong_state s o (reachable_cached s Hs) Hne) as (e & g & Hr).
    rewrite Ho in Hr. injection Hr as -> ->. eauto. }
  split; [exact Hw|]. destruct r as [m|e|]; [|exact He|exact He]. split; [|exact He].
  destruct (decide ((role s, progress s) = required o)) as [|Hne]; [done|].
  destruct (Hw Hne) as (_ & e & g & ?). done.
Qed.

(** C12: the readers that an initiation or a session setup survives -
    [try_read_message_2], [try_read_xk_message_2] and [read_xk_message_3] - take
    every change back when they reject a message: the state, keys, transcript hash
    and cipher included, is the one before the call. *)
Theorem rejected_message_restores (s : HandshakeState) (o : op) (s' : HandshakeState) (e : NoiseError) :
  reachable s → transactional o = true → run_op o s = (s', Err e) → s' = s.
Proof.
  intros Hs Ht Ho. pose proof (reachable_cached s Hs) as Hc.
  destruct o; try discriminate Ht; cbn [run_op] in Ho; apply SE_bind_ret_err in Ho.
  - by eapply try_read_message_2_err.
  - by eapply try_read_xk_message_2_err.
  - by eapply read_xk_message_3_err.
Qed.

End exchange.

(** ** A concrete instance

    Not secure, but it satisfies what the proofs rely on, and its AEAD rejects a
    wrong tag. *)
Section toy.

Definition toy_sum (l : list Z) : Z := foldr Z.add 0 l mod 256.
Definition toy_tag (k n ad : list Z) : list Z :=
  replicate TAG_SIZE ((toy_sum k + toy_sum n + toy_sum ad) mod 256).

Definition toy_crypto : NoiseCrypto := {|
  SecretKey := bool;
  PublicKey := bool * bool;
  sk_from_slice l := if (length l =? 32)%nat then Some (Z.odd (toy_sum l)) else None;
  public_key s := (s, s);
  serialize p := (if p.1 then 3 else 2) :: replicate 32 (Z.b2z p.2);
  pk_from_slice l :=
    match l with
    | b :: x :: _ => if (length l =? 33)%nat then Some (b =? 3, x =? 1) else None
    | _ => None
    end;
  shared_secret_point p s := replicate 64 (Z.b2z (p.2 && s));
  sha256 l := replicate 32 (toy_sum l);
  hkdf_sha256 salt ikm := replicate 32 (toy_sum (salt ++ ikm)) ++ replicate 32 (toy_sum (1 :: salt ++ ikm));
  aead_seal k n ad p := Some (p ++ toy_tag k n ad);
  aead_open k n ad c :=
    let body := take (length c - TAG_SIZE) c in
    if bool_decide (c = body ++ toy_tag k n ad) then Some body else None
|}.

#[local] Instance toy_laws : NoiseCryptoLaws toy_crypto.
Proof.
  split.
  - intros [p x]. reflexivity.
  - intros [[] []]; reflexivity.
  - intros a b. cbn. by rewrite andb_comm.
  - intros [p x] [q x'] k. cbn. by destruct x, x'.
  - reflexivity.
  - intros k n ad p _ _ _. exists (p ++ toy_tag k n ad). split_and!; [done| |].
    + by rewrite length_app.
    + unfold aead_open, toy_crypto. rewrite length_app.
      change (length (toy_tag k n ad)) with TAG_SIZE. rewrite Nat.add_sub, take_app_length.
      by rewrite bool_decide_eq_true_2.
Qed.

#[local] Existing Instance toy_crypto.

(** An initiator that has sent its first message. *)
Definition toy_fresh : HandshakeState := set_local_epoch (new_initiator true (true, false)) (replicate 8 7).
Definition toy_waiting : HandshakeState := (run_op (WriteMessage1 (replicate 32 1)) toy_fresh).1.

Lemma toy_waiting_reachable : reachable toy_waiting.
Proof.
  apply (reach_op toy_fresh (WriteMessage1 (replicate 32 1)) _ (run_op (WriteMessage1 (replicate 32 1)) toy_fresh).2);
    [apply reach_epoch, reach_initiator|apply surjective_pairing].
Qed.

(** A reply with a bad tag. *)
Definition toy_forged : list Z := 2 :: replicate 56 0.

Lemma run_op_outcome o s r : (run_op o s).2 = r → run_op o s = ((run_op o s).1, r).
Proof. intros <-. apply surjective_pairing. Qed.

Lemma handshake_order_witness :
  progress (run_op (ReadMessage2 toy_forged) toy_waiting).1 = progress toy_waiting ∧
  (run_op WriteXkMessage3 toy_waiting).1 = toy_waiting.
Proof.
  split.
  - refine (proj2 (handshake_order toy_waiting (ReadMessage2 toy_forged) _ (Err DecryptionFailed)
      toy_waiting_reachable _)). apply run_op_outcome. vm_compute. reflexivity.
  - refine (proj1 (proj1 (handshake_order toy_waiting WriteXkMessage3 _
      (Err (WrongState "message2_done" "message1_done")) toy_waiting_reachable _) _)).
    + apply run_op_outcome. vm_compute. reflexivity.
    + vm_compute. congruence.
Defined.

(** The plain reader does change the transcript hash. *)
Lemma rejected_message_restores_witness :
  (run_op (TryReadMessage2 toy_forged) toy_waiting).1 = toy_waiting ∧
  h (symmetric (run_op (ReadMessage2 toy_forged) toy_waiting).1) ≠ h (symmetric toy_waiting).
Proof.
  split.
  - apply (rejected_message_restores toy_waiting (TryReadMessage2 toy_forged) _ DecryptionFailed
      toy_waiting_reachable eq_refl). apply run_op_outcome. vm_compute. reflexivity.
  - vm_compute. congruence.
Defined.

End toy.
End NoiseFacts.
