(* ===== verification/NoiseTransport.v ===== *)
(** * Noise transport sessions ([crates/fips-core/src/noise/session.rs])

    The session a completed handshake turns into: send counters, explicit-counter
    encryption, and decryption behind the replay window of [Replay]. The send
    counter is one shared atomic cell: its clones, handed to workers, reserve from
    the same cell, so a history of reservations is one sequence whoever makes them. *)

From stdpp Require Import strings.
From S2P Require Import Prelude Bytes StateErr Replay Noise.

Local Open Scope Z_scope.

Module NoiseSession.
Import HandshakeState.
Section session.
Context `{NoiseCrypto}.

Record NoiseSession := mkSession {
  role : HandshakeRole;
  send_cipher : CipherState.CipherState;
  send_counter : Z;
  recv_cipher : CipherState.CipherState;
  handshake_hash : list Z;
  remote_static : PublicKey;
  remote_epoch : list Z;
  replay_window : ReplayWindow.ReplayWindow
}.

Definition set_send_counter (s : NoiseSession) (c : Z) : NoiseSession :=
  mkSession (role s) (send_cipher s) c (recv_cipher s) (handshake_hash s) (remote_static s) (remote_epoch s)
    (replay_window s).
Definition set_recv_cipher (s : NoiseSession) (c : CipherState.CipherState) : NoiseSession :=
  mkSession (role s) (send_cipher s) (send_counter s) c (handshake_hash s) (remote_static s) (remote_epoch s)
    (replay_window s).
Definition set_replay_window (s : NoiseSession) (w : ReplayWindow.ReplayWindow) : NoiseSession :=
  mkSession (role s) (send_cipher s) (send_counter s) (recv_cipher s) (handshake_hash s) (remote_static s)
    (remote_epoch s) w.

(** [SendCounterAuthority::reserve]: [fetch_update] answers the old value. *)
Definition reserve : SE Z NoiseError Z :=
  next ← get;
  if next =? U64_MAX then throw NonceOverflow
  else
    _ ← modify (λ n, n + 1);
    mret next.

Definition from_handshake (role : HandshakeRole) (send_cipher recv_cipher : CipherState.CipherState)
    (handshake_hash : list Z) (remote_static : PublicKey) (remote_epoch : list Z) : NoiseSession :=
  mkSession role send_cipher (CipherState.nonce send_cipher) recv_cipher handshake_hash remote_static
    remote_epoch ReplayWindow.new.

Definition SessionM (A : Type) : Type := SE NoiseSession NoiseError A.

Definition take_send_counter : SessionM Z := zoom send_counter set_send_counter reserve.


Definition encrypt_with_aad (plaintext aad : list Z) : SessionM (list Z) :=
  counter ← take_send_counter;
  s ← get;
  lift (CipherState.encrypt_with_counter_and_aad (send_cipher s) plaintext counter aad).

Definition decrypt (ciphertext : list Z) : SessionM (list Z) :=
  zoom recv_cipher set_recv_cipher (CipherState.decrypt ciphertext).

Definition check_replay (s : NoiseSession) (counter : Z) : outcome NoiseError unit :=
  if ReplayWindow.check (replay_window s) counter then Ok tt else Err (ReplayDetected counter).

Definition authenticate_with_counter_and_aad (s : NoiseSession) (ciphertext : list Z) (counter : Z)
    (aad : list Z) : outcome NoiseError unit :=
  _ ← check_replay s counter;
  _ ← CipherState.decrypt_with_counter_and_aad (recv_cipher s) ciphertext counter aad;
  Ok tt.

Definition accept_replay (s : NoiseSession) (counter : Z) : NoiseSession :=
  set_replay_window s (ReplayWindow.accept (replay_window s) counter).

Definition reset_replay_window (s : NoiseSession) : NoiseSession :=
  set_replay_window s (ReplayWindow.reset (replay_window s)).

Definition decrypt_with_replay_check (ciphertext : list Z) (counter : Z) : SessionM (list Z) :=
  s ← get;
  _ ← guard_err (negb (ReplayWindow.check (replay_window s) counter)) (ReplayDetected counter);
  plaintext ← lift (CipherState.decrypt_with_counter (recv_cipher s) ciphertext counter);
  _ ← modify (λ s, accept_replay s counter);
  mret plaintext.

Definition decrypt_with_replay_check_and_aad (ciphertext : list Z) (counter : Z) (aad : list Z)
    : SessionM (list Z) :=
  s ← get;
  _ ← guard_err (negb (ReplayWindow.check (replay_window s) counter)) (ReplayDetected counter);
  plaintext ← lift (CipherState.decrypt_with_counter_and_aad (recv_cipher s) ciphertext counter aad);
  _ ← modify (λ s, accept_replay s counter);
  mret plaintext.

Definition decrypt_with_replay_check_and_aad_in_place (buf : list Z) (counter : Z) (aad : list Z)
    : SessionM (list Z) :=
  s ← get;
  _ ← guard_err (negb (ReplayWindow.check (replay_window s) counter)) (ReplayDetected counter);
  plaintext ← lift (CipherState.decrypt_with_counter_and_aad_in_place (recv_cipher s) buf counter aad);
  _ ← modify (λ s, accept_replay s counter);
  mret plaintext.

(** [HandshakeState::into_session] *)
Definition into_session (s : HandshakeState) : outcome NoiseError NoiseSession :=
  if negb (is_complete s) then Err HandshakeNotComplete
  else
    let '(c1, c2) := SymmetricState.split (symmetric s) in
    match HandshakeState.remote_static s, HandshakeState.remote_epoch s with
    | Some remote_static, Some remote_epoch =>
        let '(send_cipher, recv_cipher) :=
          match HandshakeState.role s with Initiator => (c1, c2) | Responder => (c2, c1) end in
        Ok (from_handshake (HandshakeState.role s) send_cipher recv_cipher
              (SymmetricState.h (symmetric s)) remote_static remote_epoch)
    | _, _ => Panic
    end.

End session.
End NoiseSession.

(** Both ends of a session: what is sent, and what the network hands over. *)
Module Channel.
Import NoiseSession.
Section channel.
Context `{NoiseCrypto}.





(** A frame: the counter and the associated data travel in the clear. *)
Record frame := mkFrame { f_counter : Z; f_aad : list Z; f_body : list Z }.

#[global] Instance frame_inhabited : Inhabited frame := populate (mkFrame 0 [] []).

(** Seal a list of messages, each with its header. *)
Fixpoint send_all (s : NoiseSession) (ms : list (list Z * list Z)) : outcome NoiseError (list frame) :=
  match ms with
  | [] => Ok []
  | (aad, p) :: ms =>
      let counter := send_counter s in
      let '(s', r) := encrypt_with_aad p aad s in
      body ← r;
      rest ← send_all s' ms;
      Ok (mkFrame counter aad body :: rest)
  end.

(** Hand frames to the receiver, in the order given. *)
Fixpoint receive_all (s : NoiseSession) (fs : list frame) : list (outcome NoiseError (list Z)) :=
  match fs with
  | [] => []
  | f :: fs =>
      let '(s', r) := decrypt_with_replay_check_and_aad (f_body f) (f_counter f) (f_aad f) s in
      r :: receive_all s' fs
  end.

End channel.
End Channel.

(** ** Counters *)

Module TransportFacts.
Import SymmetricState HandshakeState NoiseSession Channel.
Section counters.
Context `{NoiseCrypto}.

Lemma reserve_spec n : reserve n = if n =? U64_MAX then (n, Err NonceOverflow) else (n + 1, Ok n).
Proof. unfold reserve, get, mbind, SE_bind. by destruct (n =? U64_MAX). Qed.

Lemma take_spec s : take_send_counter s =
  if send_counter s =? U64_MAX then (s, Err NonceOverflow)
  else (set_send_counter s (send_counter s + 1), Ok (send_counter s)).
Proof.
  unfold take_send_counter, zoom. rewrite reserve_spec.
  by destruct (send_counter s =? U64_MAX); destruct s.
Qed.





End counters.
(** ** Delivery *)

Section delivery.
Context `{NoiseCryptoLaws}.

Lemma encrypt_aad_ok s k p aad :
  length k = 32%nat → send_cipher s = CipherState.new k → 0 ≤ send_counter s < U64_MAX →
  Z.of_nat (length p) ≤ 65519 →
  ∃ body, encrypt_with_aad p aad s = (set_send_counter s (send_counter s + 1), Ok body) ∧
    CipherState.decrypt_with_counter_and_aad (CipherState.new k) body (send_counter s) aad = Ok p.
Proof.
  intros Hk Hc Hn Hp.
  destruct (aead_seals k (CipherState.counter_to_nonce (send_counter s)) aad p) as (body & Hs & Hl & Ho);
    [done|apply NoiseFacts.counter_to_nonce_length|unfold MAX_MESSAGE_SIZE; lia|].
  exists body. split.
  - unfold encrypt_with_aad, mbind, SE_bind, get, lift. rewrite take_spec.
    rewrite (proj2 (Z.eqb_neq _ _)) by lia. unfold CipherState.encrypt_with_counter_and_aad.
    replace (send_cipher (set_send_counter s (send_counter s + 1))) with (CipherState.new k) by done.
    cbn [CipherState.new CipherState.has_key CipherState.cipher negb].
    rewrite NoiseFacts.too_large_false by done. unfold CipherState.build_cipher. rewrite Hk. cbn [Nat.eqb].
    unfold CipherState.seal. by rewrite Hs.
  - unfold CipherState.decrypt_with_counter_and_aad, CipherState.new, CipherState.build_cipher, CipherState.open.
    cbn [CipherState.has_key CipherState.cipher negb]. rewrite Hk. cbn [Nat.eqb].
    rewrite (proj2 (Nat.ltb_ge _ _)) by (unfold TAG_SIZE in *; lia). by rewrite Ho.
Qed.

(** The [i]th frame carries the [i]th counter and opens to the [i]th message. *)
Lemma send_all_ok k ms : length k = 32%nat → Forall (λ m, Z.of_nat (length m.2) ≤ 65519) ms →
  ∀ s, send_cipher s = CipherState.new k → 0 ≤ send_counter s →
  send_counter s + Z.of_nat (length ms) ≤ U64_MAX →
  ∃ fs, send_all s ms = Ok fs ∧ length fs = length ms ∧
    ∀ i aad p, ms !! i = Some (aad, p) →
      f_counter (fs !!! i) = send_counter s + Z.of_nat i ∧
      CipherState.decrypt_with_counter_and_aad (CipherState.new k) (f_body (fs !!! i))
        (f_counter (fs !!! i)) (f_aad (fs !!! i)) = Ok p.
Proof.
  intros Hk. induction 1 as [|[aad p] ms Hp _ IH]; intros s Hc H0 Hlen; cbn [length send_all] in *.
  { exists []. split_and!; [done|done|intros i; by rewrite lookup_nil]. }
  destruct (encrypt_aad_ok s k p aad) as (body & He & Hd); [done|done|lia|done|].
  rewrite He. cbn [mbind outcome_bind].
  destruct (IH (set_send_counter s (send_counter s + 1))) as (fs & Hfs & Hl & Hg);
    [done|cbn; lia|cbn [set_send_counter send_counter]; lia|].
  rewrite Hfs. exists (mkFrame (send_counter s) aad body :: fs). cbn [mbind outcome_bind].
  split_and!; [done|cbn; lia|]. intros [|i] aad' p' Hi; cbn in Hi.
  - injection Hi as <- <-. split; [cbn; lia|exact Hd].
  - destruct (Hg i aad' p' Hi) as [Hg1 Hg2]. cbn [set_send_counter send_counter] in Hg1.
    change ((mkFrame (send_counter s) aad body :: fs) !!! S i) with (fs !!! i).
    split; [lia|exact Hg2].
Qed.

(** A genuine frame is delivered or reported as a replay, as the window says. *)
Lemma receive_genuine s f p :
  CipherState.decrypt_with_counter_and_aad (recv_cipher s) (f_body f) (f_counter f) (f_aad f) = Ok p →
  decrypt_with_replay_check_and_aad (f_body f) (f_counter f) (f_aad f) s =
    if ReplayWindow.check (replay_window s) (f_counter f)
    then (accept_replay s (f_counter f), Ok p) else (s, Err (ReplayDetected (f_counter f))).
Proof.
  intros Hd. unfold decrypt_with_replay_check_and_aad, mbind, SE_bind, get, guard_err, lift.
  destruct (ReplayWindow.check _ _); cbn [negb throw mret SE_ret]; [|done]. by rewrite Hd.
Qed.

Lemma receive_all_lookup fs : ∀ s j f p,
  Forall (λ f, ∃ p, CipherState.decrypt_with_counter_and_aad (recv_cipher s) (f_body f) (f_counter f) (f_aad f) = Ok p) fs →
  fs !! j = Some f →
  CipherState.decrypt_with_counter_and_aad (recv_cipher s) (f_body f) (f_counter f) (f_aad f) = Ok p →
  receive_all s fs !! j = Some
    (if ReplayWindow.check (ReplayTrace.final (replay_window s) (f_counter <$> take j fs)) (f_counter f)
     then Ok p else Err (ReplayDetected (f_counter f))).
Proof.
  induction fs as [|g fs IH]; intros s j f p Hall Hj Hd; [done|].
  apply Forall_cons in Hall as [[q Hq] Hall]. cbn [receive_all].
  rewrite (receive_genuine s g q Hq). destruct j as [|j]; cbn in Hj.
  - injection Hj as ->. rewrite Hd in Hq. injection Hq as ->. cbn.
    by destruct (ReplayWindow.check (replay_window s) (f_counter f)).
  - change (ReplayTrace.final (replay_window s) (f_counter <$> take (S j) (g :: fs)))
      with (ReplayTrace.final (ReplayTrace.receive (replay_window s) (f_counter g)).1 (f_counter <$> take j fs)).
    unfold ReplayTrace.receive. destruct (ReplayWindow.check (replay_window s) (f_counter g)); cbn [fst lookup].
    + apply (IH (accept_replay s (f_counter g)) j f p Hall Hj Hd).
    + apply (IH s j f p Hall Hj Hd).
Qed.

(** A counter that passes the check is among the delivered ones afterwards. *)
Lemma delivered_prefix idx j' j i : (j' < j)%nat → idx !! j' = Some i →
  ReplayWindow.check (ReplayTrace.final ReplayWindow.new (Z.of_nat <$> take j' idx)) (Z.of_nat i) = true →
  Z.of_nat i ∈ ReplayTrace.delivered ReplayWindow.new (Z.of_nat <$> take j idx).
Proof.
  intros Hlt Hj' Hc.
  assert (take j idx = take j' idx ++ i :: take (j - S j') (drop (S j') idx)) as ->.
  { rewrite <-(take_drop_middle idx j' i Hj') at 1. rewrite take_app, take_take, Nat.min_r by lia.
    rewrite length_take_le by (apply lookup_lt_Some in Hj'; lia).
    replace (j - j')%nat with (S (j - S j')) by lia. done. }
  rewrite fmap_app, delivered_app. apply elem_of_app. right. cbn.
  unfold ReplayTrace.receive. rewrite Hc. by left.
Qed.

(** Who sends and who receives under one key. *)
Definition paired (k : list Z) (s r : NoiseSession) : Prop :=
  length k = 32%nat ∧ send_cipher s = CipherState.new k ∧ recv_cipher r = CipherState.new k ∧
  send_counter s = 0 ∧ replay_window r = ReplayWindow.new.

(** What a delivery of the frames [idx], in that order, answers. *)
Lemma channel_verdicts k s r ms idx : paired k s r →
  Forall (λ m, Z.of_nat (length m.2) ≤ 65519) ms → Z.of_nat (length ms) ≤ U64_MAX →
  Forall (λ i, (i < length ms)%nat) idx →
  ∃ fs, send_all s ms = Ok fs ∧ length fs = length ms ∧
    ∀ j i aad p, idx !! j = Some i → ms !! i = Some (aad, p) →
      receive_all r ((λ i, fs !!! i) <$> idx) !! j = Some
        (if ReplayWindow.check (ReplayTrace.final ReplayWindow.new (Z.of_nat <$> take j idx)) (Z.of_nat i)
         then Ok p else Err (ReplayDetected (Z.of_nat i))).
Proof.
  intros (Hk & Hs & Hr & H0 & Hw) Hms Hlen Hidx.
  destruct (send_all_ok k ms Hk Hms s Hs) as (fs & Hfs & Hl & Hg); [lia|lia|].
  exists fs. split; [done|]. split; [done|]. intros j i aad p Hj Hi.
  destruct (Hg i aad p Hi) as [Hc Hd]. rewrite H0 in Hc.
  assert (f_counter <$> ((λ i, fs !!! i) <$> take j idx) = Z.of_nat <$> take j idx) as Hcs.
  { rewrite <-list_fmap_compose. apply list_fmap_ext. intros n x Hx. cbn.
    assert (x < length ms)%nat as [[aad' p'] Hx']%lookup_lt_is_Some
      by (eapply (Forall_lookup_1 _ _ _ _ (Forall_take _ j _ Hidx)); exact Hx).
    destruct (Hg x aad' p' Hx') as [-> _]. lia. }
  rewrite (receive_all_lookup _ r j (fs !!! i) p).
  - by rewrite Hw, <-fmap_take, Hcs, Hc, Z.add_0_l.
  - apply Forall_fmap. eapply Forall_impl; [exact Hidx|]. intros x [[aad' p'] Hx']%lookup_lt_is_Some.
    exists p'. rewrite Hr. by apply (Hg x aad' p').
  - by rewrite list_lookup_fmap, Hj.
  - by rewrite Hr.
Qed.

(** C9: a session delivers what was sent, and each message at most once. Any
    list of messages small enough to seal is sealed; and when the network hands
    the frames over in any order, with losses and repetitions, each handing over
    either yields the very message sealed in it or is reported as a replay. A
    message already delivered is always reported; one not handed over before and
    less than 8192 frames behind the newest is always delivered. *)
Theorem channel_delivers_once (k : list Z) (s r : NoiseSession) (ms : list (list Z * list Z)) (idx : list nat) :
  paired k s r →
  Forall (λ m, Z.of_nat (length m.2) ≤ 65519) ms → Z.of_nat (length ms) ≤ U64_MAX →
  Forall (λ i, (i < length ms)%nat) idx →
  ∃ fs, send_all s ms = Ok fs ∧ length fs = length ms ∧
    let got := receive_all r ((λ i, fs !!! i) <$> idx) in
    ∀ j i aad p, idx !! j = Some i → ms !! i = Some (aad, p) →
      (got !! j = Some (Ok p) ∨ got !! j = Some (Err (ReplayDetected (Z.of_nat i)))) ∧
      (∀ j', (j' < j)%nat → idx !! j' = Some i → got !! j' = Some (Ok p) →
         got !! j = Some (Err (ReplayDetected (Z.of_nat i)))) ∧
      (i ∉ take j idx → (∀ i', i' ∈ take j idx → Z.of_nat i' - Z.of_nat i < ReplayWindow.REPLAY_WINDOW_SIZE) →
         got !! j = Some (Ok p)).
Proof.
  intros Hp Hms Hlen Hidx. destruct (channel_verdicts k s r ms idx Hp Hms Hlen Hidx) as (fs & Hfs & Hl & Hv).
  exists fs. split; [done|]. split; [done|]. intros got j i aad p Hj Hi.
  assert (∀ n, Forall is_u64 (Z.of_nat <$> take n idx)) as Hu.
  { intros n. apply Forall_fmap, Forall_take. eapply Forall_impl; [exact Hidx|]. intros x Hx. cbn in Hx.
    unfold is_u64. cbn. lia. }
  assert (i < length ms)%nat as Hil by (by eapply lookup_lt_Some). split; [|split].
  - unfold got. rewrite (Hv j i aad p Hj Hi). destruct (ReplayWindow.check _ _); auto.
  - intros j' Hlt Hj' Hgot. unfold got. rewrite (Hv j i aad p Hj Hi).
    unfold got in Hgot. rewrite (Hv j' i aad p Hj' Hi) in Hgot.
    destruct (ReplayWindow.check (ReplayTrace.final ReplayWindow.new (Z.of_nat <$> take j' idx)) _) eqn:Hc; [|done].
    rewrite delivered_fails; [done|apply Hu|]. by apply (delivered_prefix idx j' j i).
  - intros Hni Hwin. unfold got. rewrite (Hv j i aad p Hj Hi). rewrite fresh_passes; [done|apply Hu|..].
    + unfold is_u64. lia.
    + lia.
    + intros Hin%delivered_in. apply list_elem_of_fmap in Hin as (x & Hx & Hxin). apply Hni.
      by assert (x = i) as <- by lia.
    + intros d Hin%delivered_in. apply list_elem_of_fmap in Hin as (x & -> & Hxin). by apply Hwin.
Qed.

(** The in-place receive path is the copying one. On a keyed session they
    answer the same plaintext or the same error and leave the same session. *)
Theorem in_place_agrees (s : NoiseSession) (buf : list Z) (counter : Z) (aad : list Z) :
  CipherState.cipher (recv_cipher s) ≠ None →
  decrypt_with_replay_check_and_aad_in_place buf counter aad s =
  decrypt_with_replay_check_and_aad buf counter aad s.
Proof.
  intros Hc. unfold decrypt_with_replay_check_and_aad_in_place, decrypt_with_replay_check_and_aad.
  unfold mbind, SE_bind, get, lift.
  unfold CipherState.decrypt_with_counter_and_aad_in_place, CipherState.decrypt_with_counter_and_aad.
  unfold CipherState.open_in_place, CipherState.open.
  destruct (CipherState.cipher (recv_cipher s)) as [k|]; [|done].
  by destruct (CipherState.has_key (recv_cipher s)).
Qed.

(** A frame that is rejected - replayed, forged or malformed - changes nothing
    in the session, the replay window included, so it cannot push the window past
    genuine frames. *)
Theorem rejected_frame_harmless (s s' : NoiseSession) (body : list Z) (counter : Z) (aad : list Z) (e : NoiseError) :
  decrypt_with_replay_check_and_aad body counter aad s = (s', Err e) ∨
  decrypt_with_replay_check body counter s = (s', Err e) ∨
  decrypt_with_replay_check_and_aad_in_place body counter aad s = (s', Err e) →
  s' = s.
Proof.
  unfold decrypt_with_replay_check_and_aad, decrypt_with_replay_check,
    decrypt_with_replay_check_and_aad_in_place, mbind, SE_bind, get, lift, guard_err, throw, modify.
  destruct (ReplayWindow.check _ _); cbn [negb mret SE_ret].
  - intros [He|[He|He]]; repeat case_match; simplify_eq; done.
  - intros [He|[He|He]]; by simplify_eq.
Qed.

(** ** Handshake and transport together *)


Lemma ecdh_comm a b : ecdh a (public_key b) = ecdh b (public_key a).
Proof. unfold ecdh. by rewrite shared_secret_comm. Qed.

(** The initiator may know the responder's key up to parity only. *)
Lemma ecdh_parity rs b k : drop 1 (serialize rs) = drop 1 (serialize (public_key b)) →
  ecdh k rs = ecdh b (public_key k).
Proof. intros Hx. unfold ecdh. by rewrite (shared_secret_parity _ _ _ Hx), shared_secret_comm. Qed.

Lemma premessage_parity p q : drop 1 (serialize p) = drop 1 (serialize q) →
  normalize_for_premessage p = normalize_for_premessage q.
Proof.
  unfold normalize_for_premessage. pose proof (serialize_length p) as Hp. pose proof (serialize_length q) as Hq.
  destruct (serialize p), (serialize q); cbn in *; try (unfold PUBKEY_SIZE in *; lia).
  rewrite !drop_0. by intros ->.
Qed.

Lemma split_keys y : ∃ k1 k2, length k1 = 32%nat ∧ length k2 = 32%nat ∧
  split y = (CipherState.new k1, CipherState.new k2).
Proof.
  exists (take 32 (hkdf_sha256 (ck y) [])), (take 32 (drop 32 (hkdf_sha256 (ck y) []))).
  split_and!; [| |done]; rewrite ?length_take, ?length_drop, hkdf_length; lia.
Qed.

(** Two sessions that came out of one handshake. *)
Definition agree (initiator responder : NoiseSession) : Prop :=
  (∃ k1 k2, paired k1 initiator responder ∧ paired k2 responder initiator) ∧
  handshake_hash initiator = handshake_hash responder.

Lemma sessions_agree i r rs_i rs_r ep_i ep_r :
  symmetric i = symmetric r → progress i = Complete → progress r = Complete →
  HandshakeState.role i = Initiator → HandshakeState.role r = Responder →
  HandshakeState.remote_static i = Some rs_i → HandshakeState.remote_static r = Some rs_r →
  HandshakeState.remote_epoch i = Some ep_i → HandshakeState.remote_epoch r = Some ep_r →
  ∃ si sr, into_session i = Ok si ∧ into_session r = Ok sr ∧ agree si sr ∧
    remote_static si = rs_i ∧ remote_static sr = rs_r ∧ remote_epoch si = ep_i ∧ remote_epoch sr = ep_r.
Proof.
  intros Hy Hpi Hpr Hri Hrr Hsi Hsr Hei Her.
  destruct (split_keys (symmetric r)) as (k1 & k2 & L1 & L2 & Hs).
  eexists _, _. unfold into_session, is_complete.
  rewrite Hy, Hpi, Hpr, Hri, Hrr, Hsi, Hsr, Hei, Her, Hs. rewrite !bool_decide_eq_true_2 by done.
  split; [reflexivity|]. split; [reflexivity|]. split_and!; [|done..].
  split; [|done]. exists k1, k2. by repeat split.
Qed.

(** The IK handshake of the link layer works. An initiator that knows the
    responder's static key, even with the wrong parity, and a responder that knows
    nothing of it exchange two messages of the documented sizes, every step
    succeeds, and the sessions agree: each sends under the key the other receives
    with, the handshake hashes are equal, each knows the other's static key and
    start-up epoch. *)
Theorem ik_handshake_agrees (a b ea eb : SecretKey) (rs : PublicKey) (random_a random_b epoch_a epoch_b : list Z) :
  sk_from_slice random_a = Some ea → sk_from_slice random_b = Some eb →
  length epoch_a = EPOCH_SIZE → length epoch_b = EPOCH_SIZE →
  drop 1 (serialize rs) = drop 1 (serialize (public_key b)) →
  ∃ i1 i2 r1 r2 m1 m2 si sr,
    write_message_1 random_a (set_local_epoch (new_initiator a rs) epoch_a) = (i1, Ok m1) ∧
    read_message_1 m1 (set_local_epoch (new_responder b) epoch_b) = (r1, Ok tt) ∧
    HandshakeState.remote_static r1 = Some (public_key a) ∧
    write_message_2 random_b r1 = (r2, Ok m2) ∧
    read_message_2 m2 i1 = (i2, Ok tt) ∧
    length m1 = 106%nat ∧ length m2 = 57%nat ∧
    into_session i2 = Ok si ∧ into_session r2 = Ok sr ∧ agree si sr ∧
    remote_static si = rs ∧ remote_static sr = public_key a ∧
    remote_epoch si = epoch_b ∧ remote_epoch sr = epoch_a.
Proof.
  intros Hra Hrb Hea Heb Hrs.
  destruct (NoiseFacts.ik_message_1
    (mix_hash (initialize PROTOCOL_NAME_IK) (normalize_for_premessage (public_key b))) a b rs random_a ea epoch_a
    (Some epoch_b)) as (y1 & m1 & L1 & W1 & R1); [done|done|by apply ecdh_parity|by apply ecdh_parity|].
  destruct (NoiseFacts.ik_message_2 y1 a b rs ea random_b eb epoch_b (Some epoch_a) (Some epoch_a)
    (Some (public_key a))) as (y2 & m2 & L2 & W2 & R2); [done|done|apply ecdh_comm|by apply ecdh_parity|].
  match type of R2 with _ = (?i, _) => match type of W2 with _ = (?r, _) =>
    destruct (sessions_agree i r rs (public_key a) epoch_b epoch_a) as (si & sr & Hi & Hr & Ha);
    [reflexivity..|]
  end end.
  eexists _, _, _, _, m1, m2, si, sr. unfold new_initiator, start.
  rewrite (premessage_parity rs (public_key b) Hrs).
  split; [exact W1|]; split; [exact R1|]; split; [reflexivity|]; split; [exact W2|]; split; [exact R2|];
        split; [exact L1|]; split; [exact L2|]; split; [exact Hi|]; split; [exact Hr|]; exact Ha.
Qed.

(** C11: the XK handshake of the session layer works: three messages of the
    documented sizes, after which the sessions agree as for IK, and the
    responder learns the initiator's static key from the third message only. *)
Theorem xk_handshake_agrees (a b ea eb : SecretKey) (rs : PublicKey) (random_a random_b epoch_a epoch_b : list Z) :
  sk_from_slice random_a = Some ea → sk_from_slice random_b = Some eb →
  length epoch_a = EPOCH_SIZE → length epoch_b = EPOCH_SIZE →
  drop 1 (serialize rs) = drop 1 (serialize (public_key b)) →
  ∃ i1 i2 i3 r1 r2 r3 m1 m2 m3 si sr,
    write_xk_message_1 random_a (set_local_epoch (new_xk_initiator a rs) epoch_a) = (i1, Ok m1) ∧
    read_xk_message_1 m1 (set_local_epoch (new_xk_responder b) epoch_b) = (r1, Ok tt) ∧
    write_xk_message_2 random_b r1 = (r2, Ok m2) ∧
    read_xk_message_2 m2 i1 = (i2, Ok tt) ∧
    write_xk_message_3 i2 = (i3, Ok m3) ∧
    read_xk_message_3 m3 r2 = (r3, Ok tt) ∧
    length m1 = 33%nat ∧ length m2 = 57%nat ∧ length m3 = 73%nat ∧
    HandshakeState.remote_static r2 = None ∧
    into_session i3 = Ok si ∧ into_session r3 = Ok sr ∧ agree si sr ∧
    remote_static si = rs ∧ remote_static sr = public_key a ∧
    remote_epoch si = epoch_b ∧ remote_epoch sr = epoch_a.
Proof.
  intros Hra Hrb Hea Heb Hrs.
  destruct (NoiseFacts.xk_message_1
    (mix_hash (initialize PROTOCOL_NAME_XK) (normalize_for_premessage (public_key b))) a b rs random_a ea
    (Some epoch_a) (Some epoch_b)) as (y1 & m1 & _ & L1 & W1 & R1); [done|by apply ecdh_parity|].
  destruct (NoiseFacts.xk_message_2 y1 a b rs ea random_b eb epoch_b (Some epoch_a))
    as (y2 & m2 & K2 & L2 & W2 & R2); [done|done|apply ecdh_comm|].
  destruct (NoiseFacts.xk_message_3 y2 a b ea rs eb epoch_a epoch_b) as (y3 & m3 & L3 & W3 & R3);
    [done|done|apply ecdh_comm|].
  match type of W3 with _ = (?i, _) => match type of R3 with _ = (?r, _) =>
    destruct (sessions_agree i r rs (public_key a) epoch_b epoch_a) as (si & sr & Hi & Hr & Ha);
    [reflexivity..|]
  end end.
  eexists _, _, _, _, _, _, m1, m2, m3, si, sr. unfold new_xk_initiator, start.
  rewrite (premessage_parity rs (public_key b) Hrs).
  split; [exact W1|]; split; [exact R1|]; split; [exact W2|]; split; [exact R2|];
        split; [exact W3|]; split; [exact R3|];
        split; [exact L1|]; split; [exact L2|]; split; [exact L3|]; split; [reflexivity|];
        split; [exact Hi|]; split; [exact Hr|]; exact Ha.
Qed.

(** ** The second token of IK message 2

    In Noise, [se] is the product of the initiator's static and the responder's
    ephemeral key. Someone who holds the responder's static secret [b], and of the
    initiator only the public key [victim], cannot form it. *)

Definition impostor_message_1 (b : SecretKey) (victim : PublicKey) (ea : SecretKey) (epoch : list Z)
    : SE SymmetricState NoiseError (list Z) :=
  let e_pub := serialize (public_key ea) in
  _ ← modify (λ y, mix_hash y e_pub);
  _ ← modify (λ y, mix_key y (ecdh b (public_key ea)));
  encrypted_static ← encrypt_and_hash (serialize victim);
  _ ← modify (λ y, mix_key y (ecdh b victim));
  encrypted_epoch ← encrypt_and_hash epoch;
  mret (e_pub ++ encrypted_static ++ encrypted_epoch).

Definition impostor_finish (b ea : SecretKey) (message : list Z) : SE SymmetricState NoiseError (list Z) :=
  let e_pub := take PUBKEY_SIZE message in
  re ← ok_or (pk_from_slice e_pub) InvalidPublicKey;
  _ ← modify (λ y, mix_hash y e_pub);
  _ ← modify (λ y, mix_key y (ecdh ea re));
  _ ← modify (λ y, mix_key y (ecdh b (public_key ea)));
  decrypt_and_hash (drop PUBKEY_SIZE message).

Lemma impostor_1 y b victim ea epoch other : length epoch = EPOCH_SIZE →
  ∃ y' m, impostor_message_1 b victim ea epoch y = (y', Ok m) ∧
    read_message_1 m (mkHandshake Ik Responder Initial y b None None None other None) =
      (mkHandshake Ik Responder Message1Done y' b None (Some victim) (Some (public_key ea)) other (Some epoch), Ok tt).
Proof.
  intros Hep.
  destruct (NoiseFacts.encrypt_decrypt 0 (mix_key (mix_hash y (serialize (public_key ea))) (ecdh b (public_key ea)))
    (serialize victim)) as (c1 & y2 & E1 & D1 & L1 & _);
    [apply NoiseFacts.mix_key_keyed|unfold U64_MAX; lia|rewrite serialize_length; unfold PUBKEY_SIZE; lia|].
  destruct (NoiseFacts.encrypt_decrypt 0 (mix_key y2 (ecdh b victim)) epoch) as (c2 & y3 & E2 & D2 & L2 & _);
    [apply NoiseFacts.mix_key_keyed|unfold U64_MAX; lia|rewrite Hep; unfold EPOCH_SIZE; lia|].
  rewrite serialize_length in L1. rewrite Hep in L2.
  destruct (@NoiseFacts.fields3 NoiseError (serialize (public_key ea)) c1 c2 PUBKEY_SIZE (PUBKEY_SIZE + PUBKEY_SIZE + TAG_SIZE))
    as (S1 & S2 & S3); [apply serialize_length|exact L1|unfold PUBKEY_SIZE; lia|].
  exists y3, (serialize (public_key ea) ++ c1 ++ c2).
  assert (length (serialize (public_key ea) ++ c1 ++ c2) = HANDSHAKE_MSG1_SIZE)
    by (rewrite !length_app, serialize_length, L1, L2; reflexivity).
  split.
  - unfold impostor_message_1. by do 5 (erewrite SE_bind_ok; [|first [exact E1|exact E2|reflexivity]]).
  - unfold read_message_1. by NoiseFacts.run.
Qed.

Lemma impostor_2 y b victim ea rb eb epoch e0 : sk_from_slice rb = Some eb → length epoch = EPOCH_SIZE →
  ∃ y' m,
    write_message_2 rb (mkHandshake Ik Responder Message1Done y b None (Some victim) (Some (public_key ea)) (Some epoch) e0) =
      (mkHandshake Ik Responder Complete y' b (Some eb) (Some victim) (Some (public_key ea)) (Some epoch) e0, Ok m) ∧
    impostor_finish b ea m y = (y', Ok epoch).
Proof.
  intros Hrb Hep.
  destruct (NoiseFacts.encrypt_decrypt 0 (mix_key (mix_key (mix_hash y (serialize (public_key eb)))
    (ecdh eb (public_key ea))) (ecdh b (public_key ea))) epoch) as (c & y' & E1 & D1 & L1 & _);
    [apply NoiseFacts.mix_key_keyed|unfold U64_MAX; lia|rewrite Hep; unfold EPOCH_SIZE; lia|].
  exists y', (serialize (public_key eb) ++ c). split.
  - unfold write_message_2. by NoiseFacts.run.
  - unfold impostor_finish.
    rewrite take_app_length', drop_app_length' by (symmetry; apply serialize_length).
    erewrite SE_bind_ok; [|unfold ok_or; by rewrite pk_from_serialize].
    rewrite <-(ecdh_comm ea eb) in D1. do 3 (erewrite SE_bind_ok; [|reflexivity]). exact D1.
Qed.

(** C39: a flaw. IK message 2 mixes, under the name [se], the product of the
    responder's static and the initiator's ephemeral key, which is [es] again.
    Nothing after message 1 depends on the initiator's static secret: whoever has
    the responder's static secret completes the handshake as any [victim] whose
    public key is known, ends with both session keys, and the responder's session
    names the victim. With Noise's [se] the impostor could not derive the keys. *)
Theorem ik_responder_key_impersonates (b ea eb : SecretKey) (victim : PublicKey)
    (random_b epoch_a epoch_b : list Z) :
  sk_from_slice random_b = Some eb → length epoch_a = EPOCH_SIZE → length epoch_b = EPOCH_SIZE →
  ∃ y1 y2 m1 m2 r1 r2 sr,
    impostor_message_1 b victim ea epoch_a (symmetric (new_responder b)) = (y1, Ok m1) ∧
    read_message_1 m1 (set_local_epoch (new_responder b) epoch_b) = (r1, Ok tt) ∧
    write_message_2 random_b r1 = (r2, Ok m2) ∧
    impostor_finish b ea m2 y1 = (y2, Ok epoch_b) ∧
    into_session r2 = Ok sr ∧ remote_static sr = victim ∧
    (recv_cipher sr, send_cipher sr) = split y2 ∧ handshake_hash sr = h y2.
Proof.
  intros Hrb Hea Heb.
  destruct (impostor_1 (symmetric (new_responder b)) b victim ea epoch_a (Some epoch_b)) as (y1 & m1 & F1 & R1); [done|].
  destruct (impostor_2 y1 b victim ea random_b eb epoch_b (Some epoch_a)) as (y2 & m2 & W2 & F2); [done|done|].
  eexists y1, y2, m1, m2, _, _, _. split; [exact F1|]. split; [exact R1|]. split; [exact W2|]. split; [exact F2|].
  split; [reflexivity|]. by split_and!.
Qed.

End delivery.

(** ** Concrete runs *)

Section runs.
#[local] Existing Instance NoiseFacts.toy_crypto.
#[local] Existing Instance NoiseFacts.toy_laws.

Definition toy_session (send recv : list Z) : NoiseSession :=
  from_handshake Initiator (CipherState.new send) (CipherState.new recv) (replicate 32 0) (true, true) (replicate 8 1).


Lemma channel_delivers_once_witness :
  ∃ fs, send_all (toy_session (replicate 32 1) (replicate 32 2)) [([9], [1; 2]); ([], [3])] = Ok fs ∧
    receive_all (toy_session (replicate 32 2) (replicate 32 1)) ((λ i, fs !!! i) <$> [1; 0; 1]%nat) !! 1%nat
      = Some (Ok [1; 2]).
Proof.
  destruct (channel_delivers_once (replicate 32 1) (toy_session (replicate 32 1) (replicate 32 2))
    (toy_session (replicate 32 2) (replicate 32 1)) [([9], [1; 2]); ([], [3])] [1; 0; 1]%nat)
    as (fs & Hfs & _ & Hg).
  - by repeat split.
  - repeat constructor; cbn; lia.
  - cbn. unfold U64_MAX. lia.
  - repeat constructor; cbn; lia.
  - exists fs. split; [exact Hfs|]. apply (Hg 1%nat 0%nat [9] [1; 2] eq_refl eq_refl).
    + cbn. intros [|]%elem_of_cons; [done|by apply elem_of_nil in H].
    + intros i' [->|Hi]%elem_of_cons; [by vm_compute|by apply elem_of_nil in Hi].
Defined.

Lemma in_place_agrees_witness :
  decrypt_with_replay_check_and_aad_in_place (replicate 16 32) 0 [] (toy_session (replicate 32 2) (replicate 32 1)) =
  decrypt_with_replay_check_and_aad (replicate 16 32) 0 [] (toy_session (replicate 32 2) (replicate 32 1)).
Proof. apply in_place_agrees. cbn. congruence. Defined.

Lemma rejected_frame_harmless_witness :
  (decrypt_with_replay_check [1] 5 (toy_session (replicate 32 2) (replicate 32 1))).1 =
    toy_session (replicate 32 2) (replicate 32 1).
Proof.
  apply (rejected_frame_harmless _ _ [1] 5 [] (MessageTooShort TAG_SIZE 1)). right. left. reflexivity.
Defined.

Lemma ik_handshake_agrees_witness : ∃ m1 si,
  (write_message_1 (replicate 32 1) (set_local_epoch (new_initiator true (true, false)) (replicate 8 7))).2 = Ok m1 ∧
  remote_static si = (true, false) ∧ remote_epoch si = replicate 8 9.
Proof.
  destruct (ik_handshake_agrees (crypto := NoiseFacts.toy_crypto) true false (Z.odd (NoiseFacts.toy_sum (replicate 32 1)))
    (Z.odd (NoiseFacts.toy_sum (replicate 32 4))) (true, false)
    (replicate 32 1) (replicate 32 4) (replicate 8 7) (replicate 8 9) eq_refl eq_refl eq_refl eq_refl eq_refl)
    as (i1 & i2 & r1 & r2 & m1 & m2 & si & sr & W & _ & _ & _ & _ & _ & _ & _ & _ & _ & Hs & _ & He & _).
  exists m1, si. by rewrite W.
Defined.

Lemma xk_handshake_agrees_witness : ∃ m1 sr,
  (write_xk_message_1 (replicate 32 1) (set_local_epoch (new_xk_initiator true (true, false)) (replicate 8 7))).2 = Ok m1 ∧
  remote_static sr = public_key true ∧ remote_epoch sr = replicate 8 7.
Proof.
  destruct (xk_handshake_agrees (crypto := NoiseFacts.toy_crypto) true false (Z.odd (NoiseFacts.toy_sum (replicate 32 1)))
    (Z.odd (NoiseFacts.toy_sum (replicate 32 4))) (true, false)
    (replicate 32 1) (replicate 32 4) (replicate 8 7) (replicate 8 9) eq_refl eq_refl eq_refl eq_refl eq_refl)
    as (i1 & i2 & i3 & r1 & r2 & r3 & m1 & m2 & m3 & si & sr & W & _ & _ & _ & _ & _ & _ & _ & _ & _ & _ & _ & _ & _ & Hs & _ & He).
  exists m1, sr. by rewrite W.
Defined.

Lemma ik_responder_key_impersonates_witness : ∃ sr : NoiseSession, remote_static sr = (false, true).
Proof.
  destruct (ik_responder_key_impersonates (crypto := NoiseFacts.toy_crypto) false true (Z.odd (NoiseFacts.toy_sum (replicate 32 4))) (false, true)
    (replicate 32 4) (replicate 8 7) (replicate 8 9) eq_refl eq_refl eq_refl)
    as (y1 & y2 & m1 & m2 & r1 & r2 & sr & _ & _ & _ & _ & _ & Hs & _).
  by exists sr.
Defined.

End runs.
End TransportFacts.
