(* ===== verification/PacketBuffer.v ===== *)
(** * Packet buffers ([crates/fips-core/src/transport/packet_channel.rs])

    A received packet and the window of it that is visible. Headers are removed
    from and put in front of the window in place, in two spots with raw pointer
    copies; the allocation is modelled byte by byte so that a copy that leaves it
    is an error of its own. The pool a dropped buffer returns to has no part in the
    contents and is not modelled. *)

From S2P Require Import Prelude Bytes.

(** A raw copy outside the allocation. *)
Inductive memory_error := OutOfBounds.

Module PacketBuffer.

(** [data] is the vector, [spare] what its allocation holds beyond its length. *)
Record PacketBuffer := mkBuffer {
  data : list Z;
  spare : list Z;
  start : nat
}.

Section buffer.

(** What a grown allocation holds beyond the vector's length, when asked for room
    for so many bytes. *)
Context (alloc : nat → list Z).

Definition new (data : list Z) : PacketBuffer := mkBuffer data [] 0.

(** [&self.data[self.start..]] *)
Definition as_slice (self : PacketBuffer) : list Z := drop (start self) (data self).

Definition len (self : PacketBuffer) : nat := length (data self) - start self.

Definition into_vec (self : PacketBuffer) : list Z :=
  if (0 <? start self)%nat then drop (start self) (data self) else data self.

Definition trim_front (self : PacketBuffer) (n : nat) : PacketBuffer * bool :=
  if (len self <? n)%nat then (self, false)
  else (mkBuffer (data self) (spare self) (start self + n), true).

(** [Vec::truncate] *)
Definition vec_truncate (self : PacketBuffer) (n : nat) : PacketBuffer :=
  mkBuffer (take n (data self)) (drop n (data self) ++ spare self) (start self).

Definition truncate (self : PacketBuffer) (n : nat) : PacketBuffer :=
  if (n <? len self)%nat then vec_truncate self (start self + n) else self.

(** [Vec::reserve] *)
Definition reserve (self : PacketBuffer) (n : nat) : PacketBuffer :=
  if (n <=? length (spare self))%nat then self else mkBuffer (data self) (alloc n) (start self).

Definition extend_from_slice (self : PacketBuffer) (bytes : list Z) : PacketBuffer :=
  let r := reserve self (length bytes) in
  mkBuffer (data r ++ bytes) (drop (length bytes) (spare r)) (start r).

(** [self.data[offset..offset + bytes.len()].copy_from_slice(bytes)] *)
Definition write_at (l : list Z) (offset : nat) (bytes : list Z) : outcome memory_error (list Z) :=
  if (offset + length bytes <=? length l)%nat
  then Ok (take offset l ++ bytes ++ drop (offset + length bytes) l) else Panic.

(** [ptr::copy] and [ptr::copy_nonoverlapping] into the allocation [mem]. *)
Definition ptr_write (mem : list Z) (dst : nat) (bytes : list Z) : outcome memory_error (list Z) :=
  if (dst + length bytes <=? length mem)%nat
  then Ok (take dst mem ++ bytes ++ drop (dst + length bytes) mem) else Err OutOfBounds.

Definition ptr_copy (mem : list Z) (src dst n : nat) : outcome memory_error (list Z) :=
  if (src + n <=? length mem)%nat then ptr_write mem dst (take n (drop src mem)) else Err OutOfBounds.

(** [self.data.set_len(n)] over the allocation [mem]. *)
Definition set_len (mem : list Z) (n start : nat) : outcome memory_error PacketBuffer :=
  if (n <=? length mem)%nat then Ok (mkBuffer (take n mem) (drop n mem) start) else Err OutOfBounds.

(** [for part in parts { .. offset += part.len(); }] *)
Fixpoint write_parts (write : list Z → nat → list Z → outcome memory_error (list Z)) (l : list Z)
    (offset : nat) (parts : list (list Z)) : outcome memory_error (list Z) :=
  match parts with
  | [] => Ok l
  | part :: parts =>
      l ← write l offset part;
      write_parts write l (offset + length part) parts
  end.

Definition try_prepend_slices (self : PacketBuffer) (parts : list (list Z)) (reserve_tail : nat)
    : outcome memory_error (PacketBuffer * bool) :=
  let prefix_len := foldl (λ total part, total + length part)%nat 0%nat parts in
  if (prefix_len =? 0)%nat then Ok (self, (reserve_tail <=? length (spare self))%nat)
  else if (prefix_len <=? start self)%nat && (reserve_tail <=? length (spare self))%nat then
    let new_start := (start self - prefix_len)%nat in
    data ← write_parts write_at (data self) new_start parts;
    Ok (mkBuffer data (spare self) new_start, true)
  else if (length (spare self) <? prefix_len + reserve_tail)%nat then Ok (self, false)
  else
    mem ← ptr_copy (data self ++ spare self) (start self) (start self + prefix_len) (len self);
    mem ← write_parts ptr_write mem (start self) parts;
    self' ← set_len mem (length (data self) + prefix_len) (start self);
    Ok (self', true).

Definition replace_visible_prefix (self : PacketBuffer) (remove_len : nat) (prefix : list Z)
    : outcome memory_error (PacketBuffer * bool) :=
  if (len self <? remove_len)%nat then Ok (self, false)
  else
    let prefix_len := length prefix in
    let tail_len := (len self - remove_len)%nat in
    if (remove_len <=? prefix_len)%nat then
      let grow := (prefix_len - remove_len)%nat in
      if (0 <? grow)%nat && (grow <=? start self)%nat then
        let new_start := (start self - grow)%nat in
        data ← write_at (data self) new_start prefix;
        Ok (mkBuffer data (spare self) new_start, true)
      else
        self ←
          (if (0 <? grow)%nat then
             let r := reserve self grow in
             mem ← ptr_copy (data r ++ spare r) (start r + remove_len) (start r + prefix_len) tail_len;
             set_len mem (length (data self) + grow) (start r)
           else Ok self);
        data ← write_at (data self) (start self) prefix;
        Ok (mkBuffer data (spare self) (start self), true)
    else
      let shrink := (remove_len - prefix_len)%nat in
      data ←
        (if (0 <? tail_len)%nat
         then write_at (data self) (start self + prefix_len)
                (take tail_len (drop (start self + remove_len) (data self)))
         else Ok (data self));
      let self := vec_truncate (mkBuffer data (spare self) (start self)) (length data - shrink) in
      data ← write_at (PacketBuffer.data self) (start self) prefix;
      Ok (mkBuffer data (spare self) (start self), true).

End buffer.
End PacketBuffer.

(** The operations a packet goes through, and what they mean for its bytes. *)
Module BufferTrace.
Import PacketBuffer.

Inductive op :=
| TrimFront (n : nat)
| Truncate (n : nat)
| Extend (bytes : list Z)
| Prepend (parts : list (list Z)) (reserve_tail : nat)
| ReplacePrefix (remove_len : nat) (prefix : list Z).

Definition step (alloc : nat → list Z) (self : PacketBuffer) (o : op)
    : outcome memory_error (PacketBuffer * bool) :=
  match o with
  | TrimFront n => Ok (trim_front self n)
  | Truncate n => Ok (truncate self n, true)
  | Extend bytes => Ok (extend_from_slice alloc self bytes, true)
  | Prepend parts tail => try_prepend_slices self parts tail
  | ReplacePrefix n prefix => replace_visible_prefix alloc self n prefix
  end.

(** On bytes. Whether there is room to prepend in place is the allocation's
    business, so that answer is an argument. *)
Definition spec_step (bytes : list Z) (o : op) (room : bool) : list Z * bool :=
  match o with
  | TrimFront n => if (n <=? length bytes)%nat then (drop n bytes, true) else (bytes, false)
  | Truncate n => (take n bytes, true)
  | Extend more => (bytes ++ more, true)
  | Prepend parts _ => if room then (concat parts ++ bytes, true) else (bytes, false)
  | ReplacePrefix n prefix =>
      if (n <=? length bytes)%nat then (prefix ++ drop n bytes, true) else (bytes, false)
  end.

(** All operations in turn, with the answers. *)
Fixpoint run (alloc : nat → list Z) (self : PacketBuffer) (os : list op)
    : outcome memory_error (PacketBuffer * list bool) :=
  match os with
  | [] => Ok (self, [])
  | o :: os =>
      '(self, b) ← step alloc self o;
      '(self, bs) ← run alloc self os;
      Ok (self, b :: bs)
  end.

Fixpoint spec_run (bytes : list Z) (os : list op) (answers : list bool) : list Z * list bool :=
  match os, answers with
  | o :: os, a :: answers =>
      let '(bytes, b) := spec_step bytes o a in
      let '(bytes, bs) := spec_run bytes os answers in (bytes, b :: bs)
  | _, _ => (bytes, [])
  end.

End BufferTrace.

(** ** Writes *)

Section facts.
Import PacketBuffer BufferTrace.

Lemma write_at_ok l off bs : (off + length bs ≤ length l)%nat → write_at l off bs = Ok (splice l off bs).
Proof. intros Hl. unfold write_at. by rewrite (proj2 (Nat.leb_le _ _) Hl). Qed.

Lemma ptr_write_ok l off bs : (off + length bs ≤ length l)%nat → ptr_write l off bs = Ok (splice l off bs).
Proof. intros Hl. unfold ptr_write. by rewrite (proj2 (Nat.leb_le _ _) Hl). Qed.

Lemma write_parts_ok (write : list Z → nat → list Z → outcome memory_error (list Z)) x y z parts :
  (∀ l off bs, (off + length bs ≤ length l)%nat → write l off bs = Ok (splice l off bs)) →
  length y = length (concat parts) →
  write_parts write (x ++ y ++ z) (length x) parts = Ok (x ++ concat parts ++ z).
Proof.
  intros Hw. revert x y. induction parts as [|p parts IH]; intros x y Hy; cbn [write_parts concat] in *.
  { by destruct y. }
  rewrite length_app in Hy.
  rewrite Hw by (rewrite !length_app; lia). cbn [mbind outcome_bind].
  rewrite <-(take_drop (length p) y), <-(app_assoc (take _ _)).
  rewrite splice_app by (rewrite length_take; lia). rewrite (app_assoc x), <-length_app.
  rewrite IH by (rewrite length_drop; lia). by rewrite <-!app_assoc.
Qed.

Lemma total_length (parts : list (list Z)) n :
  foldl (λ total part, total + length part)%nat n parts = (n + length (concat parts))%nat.
Proof.
  revert n. induction parts as [|p parts IH]; intros n; cbn [foldl concat]; [cbn; lia|].
  rewrite IH, length_app. lia.
Qed.

(** ** The window *)

Definition wf (self : PacketBuffer) : Prop := (start self ≤ length (data self))%nat.

Lemma len_as_slice self : len self = length (as_slice self).
Proof. unfold len, as_slice. by rewrite length_drop. Qed.

(** Every well-formed buffer is a hidden prefix and a visible window. *)
Lemma wf_split self : wf self →
  ∃ a v, self = mkBuffer (a ++ v) (spare self) (length a) ∧ as_slice self = v.
Proof.
  intros Hw. exists (take (start self) (data self)), (drop (start self) (data self)).
  rewrite take_drop, length_take, Nat.min_l by done. by destruct self.
Qed.

Lemma window_at a v sp : wf (mkBuffer (a ++ v) sp (length a)) ∧ as_slice (mkBuffer (a ++ v) sp (length a)) = v.
Proof. unfold wf, as_slice. cbn. rewrite length_app, drop_app_length. split; [lia|done]. Qed.

(** Prepending inside the allocation, by a raw copy. *)
Lemma prepend_in_place a v sp parts : (length (concat parts) ≤ length sp)%nat →
  ∃ sp' mem mem', length sp' = (length sp - length (concat parts))%nat ∧
  ptr_copy ((a ++ v) ++ sp) (length a) (length a + length (concat parts)) (length v) = Ok mem ∧
  write_parts ptr_write mem (length a) parts = Ok mem' ∧
  set_len mem' (length (a ++ v) + length (concat parts)) (length a) =
    Ok (mkBuffer (a ++ concat parts ++ v) sp' (length a)).
Proof.
  intros Hsp. set (p := concat parts) in *.
  eexists (drop (length p) sp), _, _. split; [by rewrite length_drop|].
  unfold ptr_copy. rewrite (proj2 (Nat.leb_le _ _)) by (rewrite !length_app; lia).
  rewrite <-app_assoc, drop_app_length, take_app_length.
  rewrite ptr_write_ok by (rewrite !length_app; lia). split; [reflexivity|].
  assert (∃ y, length y = length p ∧
    splice (a ++ v ++ sp) (length a + length p) v = a ++ y ++ v ++ drop (length p) sp) as (y & Hy & ->).
  { exists (take (length p) (v ++ sp)). split; [rewrite length_take, length_app; lia|].
    unfold splice. rewrite take_app_add, <-app_assoc. do 3 f_equal.
    replace (length a + length p + length v)%nat with (length (a ++ v) + length p)%nat by (rewrite length_app; lia).
    by rewrite app_assoc, drop_app_add. }
  rewrite (write_parts_ok _ a y _ parts ptr_write_ok Hy). split; [reflexivity|]. fold p.
  unfold set_len. rewrite (proj2 (Nat.leb_le _ _)) by (rewrite !length_app, length_drop; lia).
  f_equal. rewrite !app_assoc. f_equal; [apply take_app_length'|apply drop_app_length']; rewrite !length_app; lia.
Qed.

(** Growing the prefix inside the allocation, by a raw copy of the tail. *)
Lemma grow_in_place (a r t sp prefix : list Z) : (length r ≤ length prefix)%nat →
  (length prefix - length r ≤ length sp)%nat →
  ∃ y sp', length y = length prefix ∧
  (mem ← ptr_copy ((a ++ r ++ t) ++ sp) (length a + length r) (length a + length prefix) (length t);
   set_len mem (length (a ++ r ++ t) + (length prefix - length r)) (length a)) =
  Ok (mkBuffer (a ++ y ++ t) sp' (length a)).
Proof.
  intros Hr Hsp. exists (take (length prefix) (r ++ t ++ sp)).
  eexists. split; [rewrite length_take, !length_app; lia|].
  unfold ptr_copy. rewrite (proj2 (Nat.leb_le _ _)) by (rewrite !length_app; lia).
  replace ((a ++ r ++ t) ++ sp) with (a ++ r ++ t ++ sp) by (by rewrite <-!app_assoc).
  rewrite drop_app_add, drop_app_length, take_app_length.
  rewrite ptr_write_ok by (rewrite !length_app; lia). cbn [mbind outcome_bind].
  unfold set_len. rewrite length_splice by (rewrite !length_app; lia).
  rewrite (proj2 (Nat.leb_le _ _)) by (rewrite !length_app; lia).
  match goal with |- Ok (mkBuffer ?d _ _) = _ =>
    assert (d = a ++ take (length prefix) (r ++ t ++ sp) ++ t) as -> end; [|reflexivity].
  unfold splice. rewrite take_app_add. set (w := drop _ _).
  rewrite (app_assoc _ t w), <-(app_assoc a), (app_assoc a), (app_assoc a), app_assoc.
  apply take_app_length'. rewrite !length_app, length_take, !length_app. lia.
Qed.

(** Shrinking it: the tail moves down. *)
Lemma shrink_in_place (a r t sp prefix : list Z) : (length prefix < length r)%nat →
  ∃ y w, length y = length prefix ∧ length w = (length r - length prefix)%nat ∧
  (if (0 <? length t)%nat
   then write_at (a ++ r ++ t) (length a + length prefix)
          (take (length t) (drop (length a + length r) (a ++ r ++ t)))
   else Ok (a ++ r ++ t)) = Ok (a ++ y ++ t ++ w) ∧
  vec_truncate (mkBuffer (a ++ y ++ t ++ w) sp (length a))
    (length (a ++ y ++ t ++ w) - (length r - length prefix)) = mkBuffer (a ++ y ++ t) (w ++ sp) (length a).
Proof.
  intros Hr. exists (take (length prefix) r), (drop (length prefix + length t) (r ++ t)).
  split; [rewrite length_take; lia|]. split; [rewrite length_drop, length_app; lia|]. split.
  - destruct t as [|z t]; cbn [length Nat.ltb Nat.leb].
    { rewrite Nat.add_0_r, !app_nil_r. cbn [app]. by rewrite take_drop. }
    set (t' := z :: t). change (S (length t)) with (length t').
    rewrite drop_app_add, drop_app_length, (firstn_all t').
    rewrite write_at_ok by (rewrite !length_app; lia). unfold splice.
    rewrite take_app_add, take_app_le, <-app_assoc by lia. do 4 f_equal.
    by rewrite <-Nat.add_assoc, drop_app_add.
  - unfold vec_truncate. cbn [data spare start]. rewrite !(app_assoc _ _ (drop _ _)).
    set (x := (a ++ take (length prefix) r) ++ t). set (w := drop _ _).
    replace (a ++ take (length prefix) r ++ t) with x by (unfold x; by rewrite <-app_assoc).
    assert (length w = length r - length prefix)%nat as Hw
      by (unfold w; rewrite length_drop, length_app; lia).
    rewrite take_app_length', drop_app_length' by (rewrite length_app; lia). done.
Qed.

Lemma split_last (a : list Z) n : (n ≤ length a)%nat → ∃ a1 a2, a = a1 ++ a2 ∧ length a2 = n.
Proof.
  intros Hn. exists (take (length a - n) a), (drop (length a - n) a).
  rewrite take_drop, length_drop. split; [done|lia].
Qed.

Section steps.
Context (alloc : nat → list Z) (alloc_room : ∀ n, (n ≤ length (alloc n))%nat).

Lemma replace_ok self n prefix : wf self → (n ≤ length (as_slice self))%nat →
  ∃ self', replace_visible_prefix alloc self n prefix = Ok (self', true) ∧ wf self' ∧
    as_slice self' = prefix ++ drop n (as_slice self).
Proof.
  intros Hw Hn. destruct (wf_split self Hw) as (a & v & Hs & Hv). rewrite Hv in *.
  assert (∃ r t, v = r ++ t ∧ length r = n) as (r & t & -> & <-)
    by (exists (take n v), (drop n v); rewrite take_drop, length_take; split; [done|lia]).
  rewrite drop_app_length. rewrite Hs. set (sp := spare self) in *. clearbody sp.
  unfold replace_visible_prefix, len. cbn [data start].
  rewrite (proj2 (Nat.ltb_ge _ _)) by (rewrite !length_app; lia).
  destruct (Nat.leb_spec (length r) (length prefix)) as [Hr|Hr].
  - destruct (Nat.ltb_spec 0 (length prefix - length r)) as [Hg|Hg]; cbn [andb].
    + destruct (Nat.leb_spec (length prefix - length r) (length a)) as [Ha|Ha].
      * destruct (split_last a (length prefix - length r) Ha) as (a1 & a2 & -> & Ha2).
        replace (length (a1 ++ a2) - (length prefix - length r))%nat with (length a1) by (rewrite length_app; lia).
        rewrite <-app_assoc, (app_assoc a2).
        rewrite write_at_ok, splice_app by (rewrite ?length_app; lia). cbn [mbind outcome_bind].
        eexists. split; [done|]. apply window_at.
      * unfold reserve. cbn [spare data start].
        edestruct (grow_in_place a r t (if (length prefix - length r <=? length sp)%nat then sp
          else alloc (length prefix - length r))) as (y & sp' & Hy & Hc); [exact Hr| |].
        { destruct (Nat.leb_spec (length prefix - length r) (length sp)); [done|apply alloc_room]. }
        replace (length (a ++ r ++ t) - length a - length r)%nat with (length t) by (rewrite !length_app; lia).
        exists (mkBuffer (a ++ prefix ++ t) sp' (length a)).
        destruct (Nat.leb_spec (length prefix - length r) (length sp)); cbn [spare data start] in *;
          rewrite Hc; cbn [mbind outcome_bind data start spare];
          rewrite write_at_ok, splice_app by (rewrite ?length_app; lia); cbn [mbind outcome_bind];
          (split; [done|apply window_at]).
    + cbn [mbind outcome_bind]. rewrite write_at_ok by (cbn [data start]; rewrite !length_app; lia). cbn [data start spare].
      rewrite splice_app by lia. cbn [mbind outcome_bind]. eexists. split; [done|]. apply window_at.
  - destruct (shrink_in_place a r t sp prefix Hr) as (y & w & Hy & Hlw & Hc & Ht).
    replace (length (a ++ r ++ t) - length a - length r)%nat with (length t) by (rewrite !length_app; lia).
    rewrite Hc. cbn [mbind outcome_bind spare start]. rewrite Ht. cbn [data start spare].
    rewrite write_at_ok, splice_app by (rewrite ?length_app; lia). cbn [mbind outcome_bind].
    eexists. split; [done|]. apply window_at.
Qed.

Lemma prepend_ok self parts tail : wf self →
  ∃ self' b, try_prepend_slices self parts tail = Ok (self', b) ∧ wf self' ∧
    as_slice self' = (if b then concat parts ++ as_slice self else as_slice self) ∧
    (b = true → (tail ≤ length (spare self'))%nat).
Proof.
  intros Hw. destruct (wf_split self Hw) as (a & v & Hs & Hv). rewrite Hv. rewrite Hs.
  set (sp := spare self) in *. clearbody sp. unfold try_prepend_slices, len. cbn [data start spare].
  rewrite total_length, Nat.add_0_l. destruct (window_at a v sp) as [Hwf Has].
  destruct (Nat.eqb_spec (length (concat parts)) 0) as [H0|H0].
  { exists (mkBuffer (a ++ v) sp (length a)), (tail <=? length sp)%nat.
    assert (concat parts = []) as -> by (by destruct (concat parts)).
    split_and!; [done|done|by case_match|by intros ?%Nat.leb_le]. }
  destruct (Nat.leb_spec (length (concat parts)) (length a)) as [Ha|Ha], (Nat.leb_spec tail (length sp)) as [Ht|Ht];
    cbn [andb].
  1: { destruct (split_last a _ Ha) as (a1 & a2 & -> & Ha2). rewrite length_app, Ha2, Nat.add_sub.
    rewrite <-app_assoc, (write_parts_ok _ a1 a2 v parts write_at_ok Ha2). cbn [mbind outcome_bind].
    eexists _, true. split; [done|]. by split_and!; [apply window_at..|]. }
  all: destruct (Nat.ltb_spec (length sp) (length (concat parts) + tail)) as [Hl|Hl]; [by eexists _, false|].
  all: try lia.
  destruct (prepend_in_place a v sp parts) as (sp' & mem & mem' & Hsp' & Hc & Hp & Hl'); [lia|].
  replace (length (a ++ v) - length a)%nat with (length v) by (rewrite length_app; lia).
  exists (mkBuffer (a ++ concat parts ++ v) sp' (length a)), true. split.
  - rewrite Hc. cbn [mbind outcome_bind]. rewrite Hp. cbn [mbind outcome_bind]. by rewrite Hl'.
  - split_and!; [apply window_at..|]. cbn [spare]. lia.
Qed.

(** One operation: no raw copy leaves the allocation, nothing aborts, and the
    window holds what the operation means. *)
Lemma step_refines self o : wf self →
  ∃ self' b, step alloc self o = Ok (self', b) ∧ wf self' ∧ spec_step (as_slice self) o b = (as_slice self', b).
Proof.
  intros Hw. pose proof (len_as_slice self) as Hlen. destruct o as [n|n|bytes|parts tail|n prefix]; cbn [step spec_step].
  - unfold trim_front. rewrite Hlen. destruct (Nat.ltb_spec (length (as_slice self)) n).
    + exists self, false. rewrite (proj2 (Nat.leb_gt _ _)) by lia. done.
    + eexists _, true. rewrite (proj2 (Nat.leb_le _ _)) by lia. split_and!; [done| |].
      * unfold wf. cbn. unfold as_slice in *. rewrite length_drop in *. unfold wf in Hw. lia.
      * unfold as_slice. cbn. by rewrite drop_drop.
  - eexists _, true. split; [done|]. unfold truncate. rewrite Hlen.
    destruct (Nat.ltb_spec n (length (as_slice self))) as [Hn|Hn]; [|by rewrite take_ge by lia].
    destruct (wf_split self Hw) as (a & v & -> & Hv). rewrite Hv in *. cbn [start].
    unfold vec_truncate. cbn [data start spare]. rewrite take_app_add.
    destruct (window_at a (take n v) (drop (length a + n) (a ++ v) ++ spare self)) as [? ->]. done.
  - eexists _, true. split; [done|]. unfold extend_from_slice.
    destruct (wf_split self Hw) as (a & v & Hs & Hv). rewrite Hv.
    assert (data (reserve alloc self (length bytes)) = a ++ v ∧ start (reserve alloc self (length bytes)) = length a)
      as [-> ->] by (unfold reserve; rewrite Hs; by case_match).
    rewrite <-app_assoc. by destruct (window_at a (v ++ bytes) (drop (length bytes) (spare (reserve alloc self (length bytes))))) as [? ->].
  - destruct (prepend_ok self parts tail Hw) as (self' & b & Hp & Hw' & Ha & _). exists self', b.
    split_and!; [done|done|]. rewrite Ha. by destruct b.
  - destruct (Nat.leb_spec n (length (as_slice self))) as [Hn|Hn].
    + destruct (replace_ok self n prefix Hw Hn) as (self' & Hr & Hw' & Ha). exists self', true.
      by rewrite Ha.
    + exists self, false. unfold replace_visible_prefix. rewrite Hlen, (proj2 (Nat.ltb_lt _ _) Hn). done.
Qed.

Lemma run_refines os : ∀ self, wf self →
  ∃ self' answers, run alloc self os = Ok (self', answers) ∧ wf self' ∧
    spec_run (as_slice self) os answers = (as_slice self', answers).
Proof.
  induction os as [|o os IH]; intros self Hw; cbn [run].
  { by exists self, []. }
  destruct (step_refines self o Hw) as (self1 & b & -> & Hw1 & Hs). cbn [mbind outcome_bind].
  destruct (IH self1 Hw1) as (self' & answers & -> & Hw' & Hr). cbn [mbind outcome_bind].
  exists self', (b :: answers). split_and!; [done|done|]. cbn [spec_run]. by rewrite Hs, Hr.
Qed.

End steps.

(** C36: whatever sequence of trims, truncations, extensions, prepends and prefix
    replacements a packet goes through, and wherever the allocator puts it, no raw
    pointer copy leaves the allocation and no slice index aborts; the visible
    bytes are the ones the operations mean, and so is every answer. *)
Theorem packet_buffer_refines (alloc : nat → list Z) (bytes : list Z) (os : list op) :
  (∀ n, (n ≤ length (alloc n))%nat) →
  ∃ self answers, run alloc (new bytes) os = Ok (self, answers) ∧
    spec_run bytes os answers = (as_slice self, answers) ∧
    into_vec self = as_slice self ∧ length answers = length os.
Proof.
  intros Ha. destruct (run_refines alloc Ha os (new bytes)) as (self & answers & Hr & Hw & Hs); [unfold wf; cbn; lia|].
  exists self, answers. split_and!; [done|done| |].
  - unfold into_vec, as_slice. destruct (Nat.ltb_spec 0 (start self)); [done|]. by replace (start self) with 0%nat by lia.
  - clear Hs Hw. revert self answers Hr. generalize (new bytes).
    induction os as [|o os IH]; intros p self answers Hr; cbn [run] in Hr; [by injection Hr as <- <-|].
    destruct (step alloc p o) as [[p' b]| |]; [|done..]. cbn [mbind outcome_bind] in Hr.
    destruct (run alloc p' os) as [[p'' bs]| |] eqn:Hr'; [|done..]. injection Hr as <- <-.
    cbn. f_equal. by eapply IH.
Qed.

Lemma packet_buffer_refines_witness :
  ∃ self answers, run (λ n, replicate n 0%Z) (new [1; 2; 3; 4; 5]%Z)
      [TrimFront 2; Prepend [[9]; [8; 7]]%Z 0; ReplacePrefix 1 [0; 0; 0; 0; 0; 0; 0]%Z] = Ok (self, answers) ∧
    as_slice self = [0; 0; 0; 0; 0; 0; 0; 4; 5]%Z.
Proof.
  destruct (packet_buffer_refines (λ n, replicate n 0%Z) [1; 2; 3; 4; 5]%Z
    [TrimFront 2; Prepend [[9]; [8; 7]]%Z 0; ReplacePrefix 1 [0; 0; 0; 0; 0; 0; 0]%Z]) as (self & answers & Hr & _).
  { intros n. by rewrite length_replicate. }
  exists self, answers. split; [exact Hr|]. vm_compute in Hr. injection Hr as <- <-. reflexivity.
Defined.

End facts.
