(* ===== verification/Upper.v ===== *)
(** * The IPv6 adapter ([crates/fips-core/src/upper])

    Packets between the TUN device and the mesh: the header compression of the
    shim ([ipv6_shim.rs]), MSS clamping ([tcp_mss.rs]), ICMPv6 errors ([icmp.rs],
    [icmp_rate_limit.rs]) and what the TUN reader does with a packet ([tun.rs],
    [tun_runtime.rs]). An index below a length the code has checked is a total
    lookup; a slice that can leave the packet is an outcome. *)

From S2P Require Import Prelude Bytes NodeAddr PacketBuffer.

Local Open Scope Z_scope.

Definition IPV6_HEADER_SIZE : nat := 40.

(** [packet.len() < 40 || packet[0] >> 4 != 6] *)
Definition not_ipv6 (packet : list Z) : bool :=
  (length packet <? IPV6_HEADER_SIZE)%nat || negb (Z.shiftr (packet !!! 0%nat) 4 =? 6).

Module Ipv6Shim.

Definition IPV6_SHIM_FORMAT_COMPRESSED : Z := 0.
Definition IPV6_SHIM_RESIDUAL_SIZE : nat := 6.
Definition PORT_HEADER_SIZE : nat := 4.

Definition compress_ipv6 (ipv6_packet : list Z) : option (list Z) :=
  if not_ipv6 ipv6_packet then None
  else
    Some (IPV6_SHIM_FORMAT_COMPRESSED :: take 4 ipv6_packet ++
          [ipv6_packet !!! 6%nat; ipv6_packet !!! 7%nat] ++ drop IPV6_HEADER_SIZE ipv6_packet).

(** The packet it leaves, and the answer. The source overwrites the packet from
    the front; [copy_within] moves the payload down to byte 11. *)
Definition compress_ipv6_with_port_header_in_place (packet : list Z) (src_port dst_port : Z)
    : list Z * bool :=
  if not_ipv6 packet then (packet, false)
  else
    let residual_0_3 := take 4 packet in
    let next_header := packet !!! 6%nat in
    let hop_limit := packet !!! 7%nat in
    let upper_payload_len := (length packet - IPV6_HEADER_SIZE)%nat in
    let compressed_len := (PORT_HEADER_SIZE + 1 + IPV6_SHIM_RESIDUAL_SIZE + upper_payload_len)%nat in
    let packet := splice packet 0 (to_le_bytes 2 src_port) in
    let packet := splice packet 2 (to_le_bytes 2 dst_port) in
    let packet := <[4%nat := IPV6_SHIM_FORMAT_COMPRESSED]> packet in
    let packet := splice packet 5 residual_0_3 in
    let packet := <[9%nat := next_header]> packet in
    let packet := <[10%nat := hop_limit]> packet in
    let packet := splice packet (PORT_HEADER_SIZE + 1 + IPV6_SHIM_RESIDUAL_SIZE) (drop IPV6_HEADER_SIZE packet) in
    (take compressed_len packet, true).

(** The header both decompressors rebuild; [upper_len as u16] truncates. *)
Definition ipv6_header (residual : list Z) (upper_len : Z) (src_ipv6 dst_ipv6 : list Z) : list Z :=
  Z.lor (Z.land (residual !!! 0%nat) 15) 96 :: take 3 (drop 1 residual) ++
  to_be_bytes 2 (upper_len mod 65536) ++ [residual !!! 4%nat; residual !!! 5%nat] ++ src_ipv6 ++ dst_ipv6.

Definition decompress_ipv6 (shim_payload src_ipv6 dst_ipv6 : list Z) : option (list Z) :=
  if (length shim_payload <? 1 + IPV6_SHIM_RESIDUAL_SIZE)%nat then None
  else if negb (shim_payload !!! 0%nat =? IPV6_SHIM_FORMAT_COMPRESSED) then None
  else
    let residual := take IPV6_SHIM_RESIDUAL_SIZE (drop 1 shim_payload) in
    let upper_payload := drop (1 + IPV6_SHIM_RESIDUAL_SIZE) shim_payload in
    Some (ipv6_header residual (Z.of_nat (length upper_payload)) src_ipv6 dst_ipv6 ++ upper_payload).

(** An offset so large that the sum overflows is also past the packet. *)
Definition decompress_ipv6_packet_buffer (alloc : nat → list Z) (packet : PacketBuffer.PacketBuffer)
    (shim_offset : nat) (src_ipv6 dst_ipv6 : list Z)
    : outcome memory_error (PacketBuffer.PacketBuffer * bool) :=
  let prefix_len := (shim_offset + (1 + IPV6_SHIM_RESIDUAL_SIZE))%nat in
  if (PacketBuffer.len packet <? prefix_len)%nat then Ok (packet, false)
  else
    let visible := PacketBuffer.as_slice packet in
    if negb (visible !!! shim_offset =? IPV6_SHIM_FORMAT_COMPRESSED) then Ok (packet, false)
    else
      let residual := take IPV6_SHIM_RESIDUAL_SIZE (drop (shim_offset + 1) visible) in
      let upper_len := Z.of_nat (length visible - prefix_len) in
      if U16_MAX <? upper_len then Ok (packet, false)
      else
        PacketBuffer.replace_visible_prefix alloc packet prefix_len
          (ipv6_header residual upper_len src_ipv6 dst_ipv6).

End Ipv6Shim.

(** ** Internet checksums *)

Module Checksum.

(** [for chunk in bytes.chunks(2)], a last odd byte padded with zero. The sums
    below stay under 32 bits. *)
Fixpoint word_sum (bytes : list Z) : Z :=
  match bytes with
  | a :: b :: bytes => from_be_bytes [a; b] + word_sum bytes
  | [a] => from_be_bytes [a; 0]
  | [] => 0
  end.

(** [while sum >> 16 != 0 { sum = (sum & 0xffff) + (sum >> 16); }] *)
Fixpoint fold_loop (fuel : nat) (sum : Z) : option Z :=
  if Z.shiftr sum 16 =? 0 then Some sum
  else
    match fuel with
    | O => None
    | S fuel => fold_loop fuel (Z.land sum 65535 + Z.shiftr sum 16)
    end.

(** Two rounds are enough for 32 bits. *)
Definition fold_sum (sum : Z) : Z := from_option id 0 (fold_loop 2 sum).

(** [!(sum as u16)] of a folded sum *)
Definition complement_u16 (sum : Z) : Z := U16_MAX - sum mod 65536.

End Checksum.

Module TcpMss.
Import Checksum.

Definition TCP_HEADER_MIN_LEN : nat := 20.
Definition TCP_OPT_MSS : Z := 2.
Definition TCP_OPT_MSS_LEN : Z := 4.
Definition TCP_FLAGS_OFFSET : nat := 13.
Definition TCP_FLAG_SYN : Z := 2.

Definition is_tcp_syn (tcp_header : list Z) : bool :=
  if (length tcp_header <? TCP_HEADER_MIN_LEN)%nat then false
  else negb (Z.land (tcp_header !!! TCP_FLAGS_OFFSET) TCP_FLAG_SYN =? 0).

Definition get_tcp_data_offset (tcp_header : list Z) : nat :=
  if (length tcp_header <? TCP_HEADER_MIN_LEN)%nat then 0
  else Z.to_nat (Z.shiftr (tcp_header !!! 12%nat) 4) * 4.

(** The segment is as long as the IPv6 header says. *)
Definition recalculate_tcp_checksum (ipv6_packet : list Z) (tcp_start : nat)
    : outcome Empty_set (list Z) :=
  let p := <[(tcp_start + 17)%nat := 0]> (<[(tcp_start + 16)%nat := 0]> ipv6_packet) in
  let src := take 16 (drop 8 p) in
  let dst := take 16 (drop 24 p) in
  let payload_len := from_be_bytes [p !!! 4%nat; p !!! 5%nat] in
  tcp_segment ← slice p tcp_start (tcp_start + Z.to_nat payload_len);
  let sum := word_sum src + word_sum dst + payload_len + 6 + word_sum tcp_segment in
  Ok (splice p (tcp_start + 16) (to_be_bytes 2 (complement_u16 (fold_sum sum)))).

(** [while i < options_end { .. }]; [None] is running out of fuel. *)
Fixpoint options_loop (fuel : nat) (packet : list Z) (tcp_start i options_end : nat) (max_mss : Z)
    : option (outcome Empty_set (list Z * bool)) :=
  if negb (i <? options_end)%nat then Some (Ok (packet, false))
  else
    match fuel with
    | O => None
    | S fuel =>
        let kind := packet !!! i in
        if kind =? 0 then Some (Ok (packet, false))
        else if kind =? 1 then options_loop fuel packet tcp_start (i + 1) options_end max_mss
        else if (options_end <=? i + 1)%nat then Some (Ok (packet, false))
        else
          let length := Z.to_nat (packet !!! (i + 1)%nat) in
          if (length <? 2)%nat || (options_end <? i + length)%nat then Some (Ok (packet, false))
          else if (kind =? TCP_OPT_MSS) && (length =? Z.to_nat TCP_OPT_MSS_LEN)%nat then
            let current_mss := from_be_bytes [packet !!! (i + 2)%nat; packet !!! (i + 3)%nat] in
            if max_mss <? current_mss then
              Some (packet ← recalculate_tcp_checksum (splice packet (i + 2) (to_be_bytes 2 max_mss)) tcp_start;
                    Ok (packet, true))
            else Some (Ok (packet, false))
          else options_loop fuel packet tcp_start (i + length) options_end max_mss
    end.

(** The packet it leaves, and whether it was modified. *)
Definition clamp_tcp_mss (ipv6_packet : list Z) (max_mss : Z) : outcome Empty_set (list Z * bool) :=
  if not_ipv6 ipv6_packet then Ok (ipv6_packet, false)
  else if negb (ipv6_packet !!! 6%nat =? 6) then Ok (ipv6_packet, false)
  else
    let tcp_start := 40%nat in
    if (length ipv6_packet <? tcp_start + TCP_HEADER_MIN_LEN)%nat then Ok (ipv6_packet, false)
    else
      let tcp_header := drop tcp_start ipv6_packet in
      if negb (is_tcp_syn tcp_header) then Ok (ipv6_packet, false)
      else
        let tcp_header_len := get_tcp_data_offset tcp_header in
        if (tcp_header_len <? TCP_HEADER_MIN_LEN)%nat || (length tcp_header <? tcp_header_len)%nat
        then Ok (ipv6_packet, false)
        else
          let options_start := (tcp_start + TCP_HEADER_MIN_LEN)%nat in
          let options_end := (tcp_start + tcp_header_len)%nat in
          if (length ipv6_packet <? options_end)%nat then Ok (ipv6_packet, false)
          else
            match options_loop (options_end - options_start) ipv6_packet tcp_start options_start options_end max_mss with
            | Some r => r
            | None => Panic
            end.

End TcpMss.

Module Icmp.
Import Checksum.

Definition IPPROTO_ICMPV6 : Z := 58.
Definition MIN_IPV6_MTU : nat := 1280.
Definition IPV6_HEADER_LEN : nat := 40.
Definition ICMPV6_HEADER_LEN : nat := 8.
Definition MAX_ORIGINAL_PACKET : nat := MIN_IPV6_MTU - IPV6_HEADER_LEN - ICMPV6_HEADER_LEN.
Definition FIPS_OVERHEAD : Z := 16 + 16 + 5 + 35 + 12 + 6 + 16.
Definition FIPS_IPV6_OVERHEAD : Z := 77.

Inductive Icmpv6Type :=
| DestinationUnreachable | PacketTooBig | TimeExceeded | ParameterProblem | EchoRequest | EchoReply.

Definition type_u8 (t : Icmpv6Type) : Z :=
  match t with
  | DestinationUnreachable => 1 | PacketTooBig => 2 | TimeExceeded => 3 | ParameterProblem => 4
  | EchoRequest => 128 | EchoReply => 129
  end.

Inductive DestUnreachableCode :=
| NoRoute | AdminProhibited | BeyondScope | AddressUnreachable | PortUnreachable | SourcePolicy | RejectRoute.

Definition code_u8 (c : DestUnreachableCode) : Z :=
  match c with
  | NoRoute => 0 | AdminProhibited => 1 | BeyondScope => 2 | AddressUnreachable => 3
  | PortUnreachable => 4 | SourcePolicy => 5 | RejectRoute => 6
  end.

Definition effective_ipv6_mtu (transport_mtu : Z) : Z := sat_sub transport_mtu FIPS_IPV6_OVERHEAD.

(** [Ipv6Addr::is_unspecified] *)
Definition is_unspecified (addr : list Z) : bool := bool_decide (addr = replicate 16 0).

Definition src_of (packet : list Z) : list Z := take 16 (drop 8 packet).
Definition dst_of (packet : list Z) : list Z := take 16 (drop 24 packet).

(** An ICMPv6 message of a type below 128. *)
Definition is_icmp_error (packet : list Z) : bool :=
  (packet !!! 6%nat =? IPPROTO_ICMPV6) && (IPV6_HEADER_LEN <? length packet)%nat &&
  (packet !!! IPV6_HEADER_LEN <? 128).

Definition should_send_icmp_error (packet : list Z) : bool :=
  if (length packet <? IPV6_HEADER_LEN)%nat then false
  else if negb (Z.shiftr (packet !!! 0%nat) 4 =? 6) then false
  else if is_unspecified (src_of packet) then false
  else if src_of packet !!! 0%nat =? 255 then false
  else if dst_of packet !!! 0%nat =? 255 then false
  else if is_icmp_error packet then false
  else true.

(** The message word by word, without its checksum field; [i] is the offset. *)
Fixpoint message_sum (i : nat) (message : list Z) : Z :=
  match message with
  | a :: b :: message => (if (i =? 2)%nat then 0 else from_be_bytes [a; b]) + message_sum (i + 2) message
  | [a] => Z.shiftl a 8
  | [] => 0
  end.

Definition icmpv6_checksum (icmpv6_message src dst : list Z) : Z :=
  let len := Z.of_nat (length icmpv6_message) in
  let sum := word_sum src + word_sum dst + Z.shiftr len 16 + Z.land len 65535 + IPPROTO_ICMPV6 +
             message_sum 0 icmpv6_message in
  complement_u16 (fold_sum sum).

(** What both builders fill in: header, message header with its last four bytes
    [rest], the quoted packet, then the checksum. *)
Definition error_packet (typ code : Z) (rest original_packet our_addr dest_addr : list Z) : list Z :=
  let original_len := Nat.min (length original_packet) MAX_ORIGINAL_PACKET in
  let icmpv6_len := (ICMPV6_HEADER_LEN + original_len)%nat in
  let response :=
    [96; 0; 0; 0] ++ to_be_bytes 2 (Z.of_nat icmpv6_len mod 65536) ++ [IPPROTO_ICMPV6; 64] ++
    our_addr ++ dest_addr ++ [typ; code; 0; 0] ++ rest ++ take original_len original_packet in
  let checksum := icmpv6_checksum (drop IPV6_HEADER_LEN response) our_addr dest_addr in
  splice response (IPV6_HEADER_LEN + 2) (to_be_bytes 2 checksum).

Definition build_dest_unreachable (original_packet : list Z) (code : DestUnreachableCode) (our_addr : list Z)
    : option (list Z) :=
  if (length original_packet <? IPV6_HEADER_LEN)%nat then None
  else
    Some (error_packet (type_u8 DestinationUnreachable) (code_u8 code) [0; 0; 0; 0] original_packet
            our_addr (src_of original_packet)).

Definition build_packet_too_big (original_packet : list Z) (mtu : Z) (our_addr : list Z)
    : option (list Z) :=
  if (length original_packet <? IPV6_HEADER_LEN)%nat then None
  else if negb (Z.shiftr (original_packet !!! 0%nat) 4 =? 6) then None
  else if is_unspecified (src_of original_packet) || (src_of original_packet !!! 0%nat =? 255) then None
  else if is_icmp_error original_packet then None
  else
    Some (error_packet (type_u8 PacketTooBig) 0 (to_be_bytes 4 mtu) original_packet our_addr
            (src_of original_packet)).

End Icmp.

Module Tun.
Import Icmp TcpMss.

(** A poisoned lock reads as [None]. The keys are address bytes. *)
Definition per_flow_max_mss (lookup : option (gmap (list Z) Z)) (addr_bytes : list Z) (global_max_mss : Z) : Z :=
  let conservative_max_mss := sat_sub (sat_sub (effective_ipv6_mtu 1280) 40) 20 in
  let empty_lookup_ceiling := Z.min global_max_mss conservative_max_mss in
  if negb (length addr_bytes =? 16)%nat then empty_lookup_ceiling
  else
    match FipsAddress.from_slice addr_bytes with
    | Ok fips_addr =>
        match lookup ≫= (λ map, map !! FipsAddress.bytes fips_addr) with
        | Some path_mtu =>
            let path_max_mss := sat_sub (sat_sub (effective_ipv6_mtu path_mtu) 40) 20 in
            Z.min global_max_mss path_max_mss
        | None => empty_lookup_ceiling
        end
    | _ => empty_lookup_ceiling
    end.

(** [tun_reader_setup]: the ceiling of every flow. *)
Definition reader_max_mss (transport_mtu : Z) : Z :=
  sat_sub (sat_sub (effective_ipv6_mtu transport_mtu) 40) 20.

Inductive TunPacketAction :=
| Forward
| Icmp (response : list Z)
| Ignore.

(** The packet it leaves, and what to do with it. *)
Definition prepare_tun_packet (packet : list Z) (max_mss : Z) (our_addr : list Z)
    (path_mtu_lookup : option (gmap (list Z) Z)) : outcome Empty_set (list Z * TunPacketAction) :=
  if not_ipv6 packet then Ok (packet, Ignore)
  else if packet !!! 24%nat =? FipsAddress.FIPS_ADDRESS_PREFIX then
    let effective_max_mss := per_flow_max_mss path_mtu_lookup (dst_of packet) max_mss in
    '(packet, _) ← clamp_tcp_mss packet effective_max_mss;
    Ok (packet, Forward)
  else if should_send_icmp_error packet then
    match build_dest_unreachable packet NoRoute our_addr with
    | Some response => Ok (packet, Icmp response)
    | None => Ok (packet, Ignore)
    end
  else Ok (packet, Ignore).

(** [TunWriter::clamp_inbound_packet]: the flow is the packet's source. *)
Definition clamp_inbound_packet (packet : list Z) (max_mss : Z) (path_mtu_lookup : option (gmap (list Z) Z))
    : outcome Empty_set (list Z) :=
  let effective_max_mss :=
    if (24 <=? length packet)%nat then per_flow_max_mss path_mtu_lookup (src_of packet) max_mss else max_mss in
  '(packet, _) ← clamp_tcp_mss packet effective_max_mss;
  Ok packet.

End Tun.

Module IcmpRateLimiter.

(** Times are milliseconds of a monotonic clock. *)
Record IcmpRateLimiter := mkLimiter {
  last_sent : gmap (list Z) Z;
  min_interval : Z;
  max_age : Z
}.

Definition new : IcmpRateLimiter := mkLimiter ∅ 100 10000.
Definition with_interval (min_interval : Z) : IcmpRateLimiter := mkLimiter ∅ min_interval 10000.

Definition cleanup (self : IcmpRateLimiter) (now : Z) : IcmpRateLimiter :=
  mkLimiter (filter (λ '(_, last), sat_sub now last < max_age self) (last_sent self))
    (min_interval self) (max_age self).

Definition should_send (self : IcmpRateLimiter) (src_addr : list Z) (now : Z) : IcmpRateLimiter * bool :=
  match last_sent self !! src_addr with
  | Some last =>
      if sat_sub now last <? min_interval self then (self, false)
      else (cleanup (mkLimiter (<[src_addr := now]> (last_sent self)) (min_interval self) (max_age self)) now, true)
  | None => (cleanup (mkLimiter (<[src_addr := now]> (last_sent self)) (min_interval self) (max_age self)) now, true)
  end.

End IcmpRateLimiter.

(** ** Words and checksums *)

Section checksums.
Import Checksum.

Lemma be2 a b : from_be_bytes [a; b] = a * 256 + b.
Proof. unfold from_be_bytes. cbn. lia. Qed.

Lemma word_sum_bound l : Forall is_u8 l → 0 ≤ word_sum l ≤ 65535 * (Z.of_nat (length l + 1) / 2).
Proof.
  induction l as [l IH] using (induction_ltof1 _ length). intros Hl.
  destruct l as [|a [|b l]]; cbn [word_sum].
  - change (Z.of_nat (length (A := Z) [] + 1) / 2) with 0. lia.
  - apply Forall_cons in Hl as [Ha _]. rewrite be2.
    change (Z.of_nat (length [a] + 1) / 2) with 1. mlia.
  - apply Forall_cons in Hl as [Ha Hl]. apply Forall_cons in Hl as [Hb Hl].
    assert (0 ≤ word_sum l ≤ 65535 * (Z.of_nat (length l + 1) / 2)) as Hs by (apply IH; [unfold ltof; cbn; lia|done]).
    rewrite be2. replace (Z.of_nat (length (a :: b :: l) + 1)) with (Z.of_nat (length l + 1) + 1 * 2) by (cbn; lia).
    rewrite Z.div_add by lia. mlia.
Qed.

Lemma word_sum_app x y : Nat.Even (length x) → word_sum (x ++ y) = word_sum x + word_sum y.
Proof.
  induction x as [x IH] using (induction_ltof1 _ length). intros Hx.
  destruct x as [|a [|b x]]; cbn [word_sum app]; [done| |].
  - destruct Hx as [k Hk]. cbn in Hk. lia.
  - rewrite IH; [lia|unfold ltof; cbn; lia|]. destruct Hx as [k Hk]. exists (k - 1)%nat. cbn in Hk. lia.
Qed.

Lemma land_16 s : Z.land s 65535 = s mod 65536.
Proof. change 65535 with (Z.ones 16). by rewrite Z.land_ones. Qed.

Lemma shiftr_16 s : Z.shiftr s 16 = s / 65536.
Proof. by rewrite Z.shiftr_div_pow2. Qed.

(** A folded sum is the sum modulo 65535, and is zero only for zero. *)
Lemma fold_loop_spec s : is_u32 s →
  ∃ r, fold_loop 2 s = Some r ∧ 0 ≤ r ≤ 65535 ∧ r mod 65535 = s mod 65535 ∧ (0 < s → 0 < r).
Proof.
  intros Hs. unfold is_u32, U32_MAX in Hs.
  assert (∀ x, Z.land x 65535 + Z.shiftr x 16 = x - 65535 * (x / 65536)) as Hstep.
  { intros x. rewrite land_16, shiftr_16. pose proof (Z.div_mod x 65536). lia. }
  assert (∀ x k, (x - 65535 * k) mod 65535 = x mod 65535) as Hmod.
  { intros x k. replace (x - 65535 * k) with (x + (- k) * 65535) by lia. apply Z.mod_add. lia. }
  cbn [fold_loop]. rewrite !Hstep, !shiftr_16.
  destruct (Z.eqb_spec (s / 65536) 0) as [H0|H0].
  { exists s. split; [done|]. pose proof (Z.div_mod s 65536). pose proof (Z.mod_pos_bound s 65536). lia. }
  assert (1 ≤ s / 65536 ≤ 65535) as Hq by (Z.div_mod_to_equations; lia).
  pose proof (Z.div_mod s 65536 ltac:(lia)) as Hdm. pose proof (Z.mod_pos_bound s 65536 ltac:(lia)) as Hb.
  set (s1 := s - 65535 * (s / 65536)) in *.
  assert (1 ≤ s1 ≤ 131070) as Hs1 by (unfold s1; lia).
  destruct (Z.eqb_spec (s1 / 65536) 0) as [H1|H1].
  { exists s1. split; [done|]. split; [Z.div_mod_to_equations; lia|]. unfold s1. rewrite Hmod. lia. }
  set (s2 := s1 - 65535 * (s1 / 65536)) in *.
  assert (1 ≤ s2 ≤ 65535) as Hs2 by (unfold s2; Z.div_mod_to_equations; lia).
  exists s2. rewrite (Z.div_small s2) by lia. split; [done|]. split; [lia|].
  split; [unfold s2, s1; by rewrite !Hmod|lia].
Qed.

Lemma fold_sum_spec s : is_u32 s →
  0 ≤ fold_sum s ≤ 65535 ∧ fold_sum s mod 65535 = s mod 65535 ∧ (0 < s → 0 < fold_sum s).
Proof. intros Hs. destruct (fold_loop_spec s Hs) as (r & Hr & H). unfold fold_sum. by rewrite Hr. Qed.

(** A sum completed with the complement of its fold verifies. *)
Lemma complement_verifies s : 0 < s → s + 65535 ≤ U32_MAX → fold_sum (s + complement_u16 (fold_sum s)) = 65535.
Proof.
  intros H0 Hs. destruct (fold_sum_spec s) as (Hr & Hm & Hp); [mlia|]. specialize (Hp H0).
  unfold complement_u16. rewrite Z.mod_small by lia. unfold U16_MAX.
  destruct (fold_sum_spec (s + (65535 - fold_sum s))) as (Hr' & Hm' & Hp'); [mlia|].
  assert ((s + (65535 - fold_sum s)) mod 65535 = 0) as Hz.
  { rewrite Zplus_mod, Zminus_mod, Hm, <-Zminus_mod, <-Zplus_mod.
    replace (s + (65535 - s)) with (1 * 65535) by lia. apply Z.mod_mul. lia. }
  rewrite Hz in Hm'. specialize (Hp' ltac:(lia)).
  apply Z.mod_divide in Hm'; [|lia]. destruct Hm' as [k Hk]. lia.
Qed.

Lemma complement_u16_range s : 0 ≤ complement_u16 s < 2 ^ 16.
Proof. unfold complement_u16, U16_MAX. pose proof (Z.mod_pos_bound s 65536). lia. Qed.

(** The word sum of a list two bytes of which are overwritten. *)
Lemma word_sum_splice x u v z c : Nat.Even (length x) → 0 ≤ c < 2 ^ 16 →
  word_sum (x ++ to_be_bytes 2 c ++ z) = word_sum (x ++ u :: v :: z) - from_be_bytes [u; v] + c.
Proof.
  intros Hx Hc. rewrite !(word_sum_app x) by done.
  assert (∃ a b, to_be_bytes 2 c = [a; b] ∧ from_be_bytes [a; b] = c) as (a & b & Hab & Hf).
  { pose proof (from_to_be_small 2 c Hc) as Hf. pose proof (length_to_be_bytes 2 c) as Hl.
    destruct (to_be_bytes 2 c) as [|a [|b [|]]]; try (cbn in Hl; lia). eauto. }
  rewrite Hab. cbn [app word_sum]. lia.
Qed.

End checksums.

(** ** MSS clamping *)

Section tcp.
Import Checksum TcpMss.

(** The length field of the IPv6 header. *)
Definition payload_len_of (packet : list Z) : Z := from_be_bytes [packet !!! 4%nat; packet !!! 5%nat].

(** What a receiver sums to verify a TCP segment. *)
Definition tcp_sum (packet : list Z) : Z :=
  word_sum (take 16 (drop 8 packet)) + word_sum (take 16 (drop 24 packet)) + payload_len_of packet + 6 +
  word_sum (take (Z.to_nat (payload_len_of packet)) (drop 40 packet)).

Lemma options_loop_terminates fuel packet tcp_start i options_end max_mss :
  (options_end - i ≤ fuel)%nat → options_loop fuel packet tcp_start i options_end max_mss ≠ None.
Proof.
  revert i. induction fuel as [|fuel IH]; intros i Hf; cbn [options_loop].
  - by rewrite (proj2 (Nat.ltb_ge _ _)) by lia.
  - destruct (Nat.ltb_spec i options_end); cbn [negb]; [|done].
    repeat case_match; try done; apply IH; try lia.
    match goal with H : _ || _ = false |- _ => apply orb_false_iff in H as [?%Nat.ltb_ge _]; lia end.
Qed.

(** C34: the walk over the TCP options ends, on any bytes: every option it steps
    over is at least one byte long, so as many rounds as there are option bytes
    (forty at most) are enough. The checksum loop ends too: two rounds fold any
    32-bit sum. *)
Theorem packet_loops_terminate (packet : list Z) (tcp_start i options_end : nat) (max_mss sum : Z) :
  options_loop (options_end - i) packet tcp_start i options_end max_mss ≠ None ∧
  (is_u32 sum → ∃ r, fold_loop 2 sum = Some r ∧ 0 ≤ r ≤ U16_MAX).
Proof.
  split; [by apply options_loop_terminates|].
  intros Hs. destruct (fold_loop_spec sum Hs) as (r & Hr & Hb & _). eauto.
Qed.

(** What a change at [i] leaves alone. *)
Definition same_except (p q : list Z) (bad : nat → Prop) : Prop :=
  length p = length q ∧ ∀ j, ¬ bad j → p !! j = q !! j.

Lemma splice_other p off bs : (off + length bs ≤ length p)%nat →
  same_except (splice p off bs) p (λ j, off ≤ j < off + length bs)%nat.
Proof.
  intros Hl. split; [by apply length_splice|]. intros j Hj. unfold splice.
  destruct (decide (j < off)%nat).
  - rewrite lookup_app_l by (rewrite length_take; lia). by rewrite lookup_take_lt by lia.
  - rewrite lookup_app_r, length_take, Nat.min_l by (rewrite ?length_take; lia).
    rewrite lookup_app_r, lookup_drop by lia. f_equal. lia.
Qed.

Lemma splice_at p off bs : (off + length bs ≤ length p)%nat → take (length bs) (drop off (splice p off bs)) = bs.
Proof.
  intros Hl. unfold splice. rewrite drop_app_length' by (rewrite length_take; lia). apply take_app_length.
Qed.

Lemma same_except_trans p q r b c : same_except p q b → same_except q r c → same_except p r (λ j, b j ∨ c j).
Proof. intros [L1 H1] [L2 H2]. split; [congruence|]. intros j Hj. rewrite H1, H2 by tauto. done. Qed.

Lemma same_except_weaken p q (b c : nat → Prop) : (∀ j, b j → c j) → same_except p q b → same_except p q c.
Proof. intros Hbc [L H]. split; [done|]. intros j Hj. apply H. auto. Qed.

Lemma same_except_total p q b j : same_except p q b → ¬ b j → p !!! j = q !!! j.
Proof. intros [_ H] Hj. rewrite !list_lookup_total_alt. by rewrite H. Qed.

Lemma same_except_slice p q (b : nat → Prop) n off : same_except p q b → (∀ j, (off ≤ j < off + n)%nat → ¬ b j) →
  take n (drop off p) = take n (drop off q).
Proof.
  intros [L H] Hb. apply list_eq. intros j. destruct (decide (j < n)%nat).
  - rewrite !lookup_take_lt, !lookup_drop by lia. apply H, Hb. lia.
  - by rewrite !lookup_take_ge by lia.
Qed.

Lemma set_two p i : (i + 1 < length p)%nat → <[(i + 1)%nat := 0]> (<[i := 0]> p) = splice p i [0; 0].
Proof.
  intros Hi. apply list_eq. intros j. destruct (decide (j = i ∨ j = i + 1)%nat) as [Hj|Hj].
  - assert (splice p i [0; 0] !! j = Some 0) as ->.
    { unfold splice. rewrite lookup_app_r by (rewrite length_take; lia). rewrite length_take, Nat.min_l by lia.
      destruct Hj as [->| ->]; [by rewrite Nat.sub_diag|by replace (i + 1 - i)%nat with 1%nat by lia]. }
    destruct Hj as [->| ->]; [rewrite list_lookup_insert_ne by lia|]; by rewrite list_lookup_insert_eq by (rewrite ?length_insert; lia).
  - rewrite !list_lookup_insert_ne by lia. destruct (splice_other p i [0; 0]) as [_ H]; [cbn; lia|].
    symmetry. apply H. cbn. lia.
Qed.

Lemma splice_splice p off u v : length u = length v → (off + length u ≤ length p)%nat →
  splice (splice p off u) off v = splice p off v.
Proof.
  intros Hu Hl. unfold splice at 2.
  rewrite <-(length_take_le p off) at 3 by lia. rewrite splice_app by done. unfold splice. by rewrite Hu.
Qed.

Lemma splice_u8 p off bs : Forall is_u8 p → Forall is_u8 bs → Forall is_u8 (splice p off bs).
Proof. intros Hp Hb. unfold splice. apply Forall_app; split; [by apply Forall_take|].
  apply Forall_app; split; [done|by apply Forall_drop]. Qed.

(** The segment around the checksum field. *)
Lemma segment_split p bs pl : length bs = 2%nat → (58 ≤ length p)%nat → (18 ≤ pl)%nat →
  take pl (drop 40 (splice p 56 bs)) = take 16 (drop 40 p) ++ bs ++ take (pl - 18) (drop 58 p).
Proof.
  intros Hb Hp Hpl. unfold splice. rewrite Hb. rewrite drop_app_le by (rewrite length_take; lia).
  change 56%nat with (40 + 16)%nat at 1. rewrite <-take_drop_commute.
  rewrite take_app_ge by (rewrite length_take, length_drop; lia). f_equal.
  rewrite length_take, length_drop, Nat.min_l by lia. rewrite take_app_ge by lia. rewrite Hb. f_equal. f_equal. lia.
Qed.

Lemma segment_sum p c pl : (58 ≤ length p)%nat → (18 ≤ pl)%nat → 0 ≤ c < 2 ^ 16 →
  word_sum (take pl (drop 40 (splice p 56 (to_be_bytes 2 c)))) =
  word_sum (take pl (drop 40 (splice p 56 [0; 0]))) + c.
Proof.
  intros Hp Hpl Hc. rewrite !segment_split by (done || apply length_to_be_bytes).
  rewrite (word_sum_splice _ 0 0) by (done || (exists 8%nat; rewrite length_take, length_drop; lia)).
  rewrite be2. cbn [app]. lia.
Qed.

Lemma payload_len_u16 p : Forall is_u8 p → 0 ≤ payload_len_of p ≤ 65535.
Proof.
  intros Hp. unfold payload_len_of. rewrite be2.
  assert (∀ i, is_u8 (p !!! i)) as H.
  { intros i. rewrite list_lookup_total_alt. destruct (p !! i) eqn:Hi; cbn; [|mlia]. by eapply Forall_lookup_1. }
  pose proof (H 4%nat). pose proof (H 5%nat). mlia.
Qed.

(** The rewritten checksum: only its two bytes change, and the segment verifies. *)
Lemma recalculate_ok p : Forall is_u8 p → (60 ≤ length p)%nat →
  (40 + Z.to_nat (payload_len_of p) ≤ length p)%nat → 18 ≤ payload_len_of p →
  ∃ p', recalculate_tcp_checksum p 40 = Ok p' ∧ same_except p' p (λ j, 56 ≤ j < 58)%nat ∧
    fold_sum (tcp_sum p') = 65535.
Proof.
  intros Hu Hlen Hpl H18. unfold recalculate_tcp_checksum.
  change (40 + 17)%nat with (56 + 1)%nat. change (40 + 16)%nat with 56%nat. rewrite set_two by lia.
  set (q := splice p 56 [0; 0]).
  assert (same_except q p (λ j, 56 ≤ j < 58)%nat) as Hq by (apply (splice_other p 56 [0; 0]); cbn; lia).
  assert (length q = length p) as Hlq by apply Hq.
  assert (from_be_bytes [q !!! 4%nat; q !!! 5%nat] = payload_len_of p) as ->
    by (unfold payload_len_of; rewrite !(same_except_total q p _ _ Hq) by lia; done).
  unfold slice. rewrite (proj2 (andb_true_iff _ _)) by (rewrite !Nat.leb_le; lia). cbn [mbind outcome_bind].
  replace (40 + Z.to_nat (payload_len_of p) - 40)%nat with (Z.to_nat (payload_len_of p)) by lia.
  set (pl := Z.to_nat (payload_len_of p)) in *.
  set (sum := word_sum (take 16 (drop 8 q)) + _ + _ + 6 + _).
  set (c := complement_u16 (fold_sum sum)).
  assert (splice q 56 (to_be_bytes 2 c) = splice p 56 (to_be_bytes 2 c)) as ->
    by (unfold q; by rewrite splice_splice by (cbn; rewrite ?length_to_be_bytes; lia)).
  eexists. split; [done|].
  assert (same_except (splice p 56 (to_be_bytes 2 c)) p (λ j, 56 ≤ j < 58)%nat) as Hp'.
  { eapply same_except_weaken; [|apply splice_other; rewrite length_to_be_bytes; lia].
    intros j. cbn beta. rewrite length_to_be_bytes. lia. }
  split; [exact Hp'|].
  assert (tcp_sum (splice p 56 (to_be_bytes 2 c)) = sum + c) as ->.
  { unfold tcp_sum, sum.
    assert (payload_len_of (splice p 56 (to_be_bytes 2 c)) = payload_len_of p) as ->
      by (unfold payload_len_of; rewrite !(same_except_total _ p _ _ Hp') by lia; done).
    rewrite !(same_except_slice _ p _ 16 _ Hp') by lia. rewrite !(same_except_slice q p _ 16 _ Hq) by lia.
    fold pl. unfold q. rewrite (segment_sum p c pl) by (apply complement_u16_range || lia). lia. }
  assert (Forall is_u8 q) as Huq by (apply splice_u8; [done|repeat constructor; mlia]).
  pose proof (payload_len_u16 p Hu).
  assert (∀ n off, 0 ≤ word_sum (take n (drop off q)) ≤ 65535 * (Z.of_nat (n + 1) / 2)) as Hb.
  { intros n off. pose proof (word_sum_bound (take n (drop off q)) ltac:(by apply Forall_take, Forall_drop)) as [H0 H1].
    split; [done|]. etrans; [exact H1|]. apply Z.mul_le_mono_nonneg_l; [lia|]. apply Z.div_le_mono; [lia|].
    rewrite length_take. lia. }
  pose proof (Hb 16%nat 8%nat) as B1. pose proof (Hb 16%nat 24%nat) as B2. pose proof (Hb pl 40%nat) as B3.
  change (Z.of_nat (16 + 1) / 2) with 8 in B1, B2.
  assert (Z.of_nat (pl + 1) / 2 ≤ 32768) by (apply Z.div_le_upper_bound; lia).
  apply complement_verifies; unfold sum, U32_MAX; lia.
Qed.

(** The options as the TCP header lays them out: [k] is the first one of interest
    when walking from [i], over padding and over complete options that are not a
    maximum segment size. *)
Definition is_mss (p : list Z) (options_end k : nat) : Prop :=
  (k + 4 ≤ options_end)%nat ∧ p !!! k = 2 ∧ p !!! (k + 1)%nat = 4.

Inductive walk (p : list Z) (options_end : nat) : nat → nat → Prop :=
| walk_here k : walk p options_end k k
| walk_nop i k : (i < options_end)%nat → p !!! i = 1 → walk p options_end (i + 1) k → walk p options_end i k
| walk_skip i n k : (i + 1 < options_end)%nat → p !!! i ≠ 0 → p !!! i ≠ 1 → n = Z.to_nat (p !!! (i + 1)%nat) →
    (2 ≤ n)%nat → (i + n ≤ options_end)%nat → ¬ (p !!! i = 2 ∧ n = 4%nat) →
    walk p options_end (i + n) k → walk p options_end i k.

Definition mss_at (p : list Z) (k : nat) : Z := from_be_bytes [p !!! (k + 2)%nat; p !!! (k + 3)%nat].

(** Where the change goes. *)
Definition clamped_at (p p' : list Z) (k : nat) (max_mss : Z) : Prop :=
  same_except p' p (λ j, 56 ≤ j < 58 ∨ k + 2 ≤ j < k + 4)%nat ∧
  take 2 (drop (k + 2) p') = to_be_bytes 2 max_mss ∧ fold_sum (tcp_sum p') = 65535.

(** The length field is believed: it must not lead outside the packet, and the
    segment must reach past the checksum. *)
Definition length_ok (p : list Z) : Prop :=
  (40 + Z.to_nat (payload_len_of p) ≤ length p)%nat ∧ 18 ≤ payload_len_of p.

Lemma clamp_at_option p k max_mss : Forall is_u8 p → length_ok p → (60 ≤ k)%nat → (k + 4 ≤ length p)%nat →
  ∃ p', (packet ← recalculate_tcp_checksum (splice p (k + 2) (to_be_bytes 2 max_mss)) 40; Ok (packet, true)) =
    Ok (p', true) ∧ clamped_at p p' k max_mss.
Proof.
  intros Hu [Hl H18] Hk Hkl. set (q := splice p (k + 2) (to_be_bytes 2 max_mss)).
  assert (same_except q p (λ j, k + 2 ≤ j < k + 4)%nat) as Hq.
  { eapply same_except_weaken; [|apply splice_other; rewrite length_to_be_bytes; lia].
    intros j. cbn beta. rewrite length_to_be_bytes. lia. }
  assert (payload_len_of q = payload_len_of p) as Hpq
    by (unfold payload_len_of; rewrite !(same_except_total q p _ _ Hq) by lia; done).
  assert (length q = length p) as Hlq by apply Hq.
  destruct (recalculate_ok q) as (p' & Hr & Hs & Hv);
    [apply splice_u8; [done|apply to_be_bytes_u8]|lia|rewrite Hpq, Hlq; done|by rewrite Hpq|].
  exists p'. rewrite Hr. split; [done|]. split; [|split; [|done]].
  - eapply same_except_weaken; [|eapply same_except_trans; [exact Hs|exact Hq]]. intros j. cbn beta. lia.
  - rewrite (same_except_slice p' q _ 2 (k + 2) Hs) by lia.
    rewrite <-(length_to_be_bytes 2 max_mss) at 1. apply splice_at. rewrite length_to_be_bytes. lia.
Qed.

(** No option of interest starts here. *)
Ltac no_option :=
  intros ? Hw Hm; inversion Hw; subst; unfold is_mss in *;
  try (destruct Hm as (? & ? & Hm2); rewrite ?Hm2 in *); lia.

Lemma options_loop_spec p options_end max_mss fuel : Forall is_u8 p → length_ok p → (options_end ≤ length p)%nat →
  ∀ i r, (60 ≤ i)%nat → options_loop fuel p 40 i options_end max_mss = Some r →
  (r = Ok (p, false) ∧ ∀ k, walk p options_end i k → is_mss p options_end k → mss_at p k ≤ max_mss) ∨
  (∃ k p', walk p options_end i k ∧ is_mss p options_end k ∧ max_mss < mss_at p k ∧
     r = Ok (p', true) ∧ clamped_at p p' k max_mss).
Proof.
  intros Hu Hl Hoe. assert (∀ i, is_u8 (p !!! i)) as Hb.
  { intros i. rewrite list_lookup_total_alt. destruct (p !! i) eqn:Hi; cbn; [|mlia]. by eapply Forall_lookup_1. }
  induction fuel as [|fuel IH]; intros i r Hi; cbn [options_loop];
    (destruct (Nat.ltb_spec i options_end) as [Hlt|Hge]; cbn [negb];
      [|intros [= <-]; left; split; [done|]; intros k Hw Hm; inversion Hw; subst; unfold is_mss in Hm; lia]); [done|].
  destruct (Z.eqb_spec (p !!! i) 0) as [H0|H0].
  { intros [= <-]. left. split; [done|]. no_option. }
  destruct (Z.eqb_spec (p !!! i) 1) as [H1|H1].
  { intros Hr. destruct (IH (i + 1)%nat r ltac:(lia) Hr) as [[-> Hn]|(k & p' & Hw & Hk)].
    - left. split; [done|]. intros k Hw Hm. inversion Hw; subst; [unfold is_mss in Hm; lia|by apply Hn|lia].
    - right. exists k, p'. split; [by apply walk_nop|done]. }
  destruct (Nat.leb_spec options_end (i + 1)) as [Hend|Hend].
  { intros [= <-]. left. split; [done|]. no_option. }
  set (n := Z.to_nat (p !!! (i + 1)%nat)).
  destruct (Nat.ltb_spec n 2) as [Hn2|Hn2]; cbn [orb].
  { intros [= <-]. left. split; [done|]. no_option. }
  destruct (Nat.ltb_spec options_end (i + n)) as [Hn|Hn].
  { intros [= <-]. left. split; [done|]. no_option. }
  destruct (Z.eqb_spec (p !!! i) TCP_OPT_MSS) as [Hk2|Hk2], (Nat.eqb_spec n (Z.to_nat TCP_OPT_MSS_LEN)) as [Hn4|Hn4];
    cbn [andb]; unfold TCP_OPT_MSS, TCP_OPT_MSS_LEN in *.
  1: { change (Z.to_nat 4) with 4%nat in Hn4. pose proof (Hb (i + 1)%nat) as Hb1.
    assert (is_mss p options_end i) as Hm by (split; [lia|]; split; [done|unfold n in Hn4; mlia]).
    fold (mss_at p i). destruct (Z.ltb_spec max_mss (mss_at p i)) as [Hgt|Hle].
    - destruct (clamp_at_option p i max_mss Hu Hl Hi) as (p' & Hp' & Hc); [lia|].
      intros [= <-]. right. exists i, p'. by split_and!; [constructor|..].
    - intros [= <-]. left. split; [done|]. intros k Hw Hmk. inversion Hw; subst; [done|lia|].
      exfalso. unfold n in *. tauto. }
  all: intros Hr; destruct (IH (i + n)%nat r ltac:(lia) Hr) as [[-> Hno]|(k & p' & Hw & Hk)];
    [left; split; [done|]; intros k Hw Hm; inversion Hw; subst; [|lia|by apply Hno];
       exfalso; destruct Hm as (_ & Hm1 & Hm2); unfold n in *; rewrite Hm2 in *; lia
    |right; exists k, p'; split; [|done]; eapply (walk_skip _ _ i n); [lia|done|done|done|lia|lia| |done];
       intros [Ha Hb']; change (Z.to_nat 4) with 4%nat in *; lia].
Qed.

(** C35: clamping changes exactly what it should. On a packet whose length field
    is right it never aborts. If some reachable MSS option is above the ceiling,
    its two bytes become the ceiling, the TCP checksum is rewritten so that the
    segment verifies, and nothing else changes; otherwise the packet is returned
    as it was, and no reachable MSS option is above the ceiling. *)
Theorem clamp_tcp_mss_exact (p : list Z) (max_mss : Z) :
  Forall is_u8 p → length_ok p →
  let options_end := (40 + get_tcp_data_offset (drop 40 p))%nat in
  let syn := negb (not_ipv6 p) && (p !!! 6%nat =? 6) && (60 <=? length p)%nat && is_tcp_syn (drop 40 p) &&
             (60 <=? options_end)%nat && (options_end <=? length p)%nat in
  (clamp_tcp_mss p max_mss = Ok (p, false) ∧
     (syn = true → ∀ k, walk p options_end 60 k → is_mss p options_end k → mss_at p k ≤ max_mss)) ∨
  (syn = true ∧ ∃ k p', walk p options_end 60 k ∧ is_mss p options_end k ∧ max_mss < mss_at p k ∧
     clamp_tcp_mss p max_mss = Ok (p', true) ∧ clamped_at p p' k max_mss).
Proof.
  intros Hu Hl options_end syn. unfold clamp_tcp_mss.
  destruct (not_ipv6 p) eqn:Hv6; [by left|].
  destruct (p !!! 6%nat =? 6) eqn:Htcp; cbn [negb]; [|by left].
  destruct (Nat.ltb_spec (length p) (40 + TCP_HEADER_MIN_LEN)) as [Hlen|Hlen].
  { left. split; [done|]. unfold syn. rewrite (proj2 (Nat.leb_gt 60 (length p))) by (unfold TCP_HEADER_MIN_LEN in *; lia). done. }
  destruct (is_tcp_syn (drop 40 p)) eqn:Hsyn; cbn [negb]; [|left; split; [done|]; unfold syn; by rewrite andb_false_r].
  unfold TCP_HEADER_MIN_LEN in *. rewrite length_drop. fold options_end.
  assert (syn = (60 <=? options_end)%nat && (options_end <=? length p)%nat) as ->.
  { unfold syn. by rewrite (proj2 (Nat.leb_le 60 (length p))) by lia. }
  destruct (Nat.leb_spec 60 options_end) as [H60|H60]; cbn [andb].
  2: { rewrite (proj2 (Nat.ltb_lt _ 20)) by (unfold options_end in *; lia). by left. }
  rewrite (proj2 (Nat.ltb_ge _ 20)) by (unfold options_end in *; lia). cbn [orb].
  destruct (Nat.leb_spec options_end (length p)) as [Hoe|Hoe].
  2: { rewrite (proj2 (Nat.ltb_lt _ _)) by (unfold options_end in *; lia). by left. }
  rewrite (proj2 (Nat.ltb_ge (length p - 40) _)) by (unfold options_end in *; lia).
  rewrite (proj2 (Nat.ltb_ge _ _)) by lia.
  destruct (options_loop _ _ _ _ _ _) as [r|] eqn:Hr; [|by apply options_loop_terminates in Hr].
  destruct (options_loop_spec p options_end max_mss _ Hu Hl Hoe _ r (le_n 60) Hr) as [[-> Hn]|(k & p' & H)].
  - left. split; [done|]. intros _. apply Hn.
  - right. split; [done|]. exists k, p'. destruct H as (?&?&?&->&?). done.
Qed.

(** A SYN with an MSS option of 1460, and the same with a length field that claims
    ten bytes more than the packet has. *)
Definition sample_syn (claimed_len : Z) : list Z :=
  [96; 0; 0; 0] ++ to_be_bytes 2 claimed_len ++ [6; 64] ++ (253 :: replicate 15 1) ++ (253 :: replicate 15 2) ++
  replicate 12 0 ++ [96; 2] ++ replicate 6 0 ++ [2; 4; 5; 180].

Lemma clamp_tcp_mss_exact_witness :
  ∃ p', clamp_tcp_mss (sample_syn 24) 1143 = Ok (p', true) ∧ clamped_at (sample_syn 24) p' 60 1143.
Proof.
  destruct (clamp_tcp_mss_exact (sample_syn 24) 1143) as [[Hc _]|(_ & k & p' & Hw & Hm & _ & Hc & Ha)].
  - repeat constructor; vm_compute; congruence.
  - split; vm_compute; [lia|congruence].
  - vm_compute in Hc. congruence.
  - exists p'. split; [exact Hc|]. inversion Hw; subst; [done|vm_compute in H0; congruence|].
    exfalso. apply H5. vm_compute. done.
Defined.

(** A flaw. The length field of the packet is trusted. A SYN whose IPv6
    payload length exceeds the packet, and whose MSS is above the ceiling, makes the
    checksum slice leave the buffer: clamping aborts. *)
Theorem clamp_trusts_length_field : clamp_tcp_mss (sample_syn 34) 1143 = Panic.
Proof. vm_compute. reflexivity. Qed.

Lemma packet_loops_terminate_witness :
  ∃ r, fold_loop 2 4294967295 = Some r ∧ 0 ≤ r ≤ U16_MAX.
Proof. apply (proj2 (packet_loops_terminate [] 0 0 0 0 4294967295)). vm_compute. split; congruence. Defined.
End tcp.

(** ** Header compression *)

Section shim.
Import Ipv6Shim Icmp.

(** A packet the shim can carry: IPv6, with the length field of its payload. *)
Definition ipv6_ok (p : list Z) : Prop :=
  Forall is_u8 p ∧ not_ipv6 p = false ∧ payload_len_of p = Z.of_nat (length p - 40) ∧ Z.of_nat (length p) ≤ 40 + U16_MAX.

Lemma version_nibble b : is_u8 b → Z.shiftr b 4 = 6 → Z.lor (Z.land b 15) 96 = b.
Proof.
  intros Hb Hs.
  assert (b = 96 + Z.land b 15) as Hd.
  { change 15 with (Z.ones 4). rewrite Z.land_ones by lia. rewrite Z.shiftr_div_pow2 in Hs by lia.
    change (2 ^ 4) with 16 in *. pose proof (Z.div_mod b 16). lia. }
  assert (Z.land (Z.land b 15) 96 = 0) as Hz.
  { rewrite <-Z.land_assoc. change (Z.land 15 96) with 0. apply Z.land_0_r. }
  pose proof (Z.add_lor_land (Z.land b 15) 96) as Ha. rewrite Hz in Ha. lia.
Qed.

(** A packet that long is its header bytes and its payload. *)
Lemma header_bytes (p : list Z) : (40 ≤ length p)%nat →
  ∃ b0 b1 b2 b3 l0 l1 nh hl src dst pay, p = b0 :: b1 :: b2 :: b3 :: l0 :: l1 :: nh :: hl :: src ++ dst ++ pay ∧
    length src = 16%nat ∧ length dst = 16%nat.
Proof.
  intros Hp. destruct p as [|b0 [|b1 [|b2 [|b3 [|l0 [|l1 [|nh [|hl p]]]]]]]]; try (cbn in Hp; lia).
  exists b0, b1, b2, b3, l0, l1, nh, hl, (take 16 p), (take 16 (drop 16 p)), (drop 32 p). cbn in Hp.
  rewrite !length_take, length_drop. split; [|lia]. do 8 f_equal.
  rewrite <-(take_drop 16 p) at 1. f_equal. rewrite <-(take_drop 16 (drop 16 p)) at 1. by rewrite drop_drop.
Qed.

Lemma not_ipv6_false p : not_ipv6 p = false ↔ (40 ≤ length p)%nat ∧ Z.shiftr (p !!! 0%nat) 4 = 6.
Proof.
  unfold not_ipv6, IPV6_HEADER_SIZE. rewrite orb_false_iff, negb_false_iff, Nat.ltb_ge, Z.eqb_eq. done.
Qed.

Lemma take_moved (H R pay : list Z) n k : length H = n → (length pay ≤ length R)%nat → k = (n + length pay)%nat →
  take k (splice (H ++ R) n pay) = H ++ pay.
Proof.
  intros <- HR ->. unfold splice. rewrite take_app_length, take_app_add. f_equal. apply take_app_length.
Qed.

Lemma compress_shape p : not_ipv6 p = false →
  ∃ c, compress_ipv6 p = Some c ∧ length c = (length p - 33)%nat ∧
    ∀ sp dp, compress_ipv6_with_port_header_in_place p sp dp = (to_le_bytes 2 sp ++ to_le_bytes 2 dp ++ c, true).
Proof.
  intros Hp. pose proof (proj1 (not_ipv6_false p) Hp) as [Hlen _].
  destruct (header_bytes p Hlen) as (b0 & b1 & b2 & b3 & l0 & l1 & nh & hl & src & dst & pay & -> & Hs & Hd).
  unfold compress_ipv6, compress_ipv6_with_port_header_in_place. rewrite Hp.
  assert (drop IPV6_HEADER_SIZE (b0 :: b1 :: b2 :: b3 :: l0 :: l1 :: nh :: hl :: src ++ dst ++ pay) = pay) as ->.
  { unfold IPV6_HEADER_SIZE. cbn [drop]. by rewrite app_assoc, drop_app_length' by (rewrite length_app; lia). }
  eexists. split; [done|]. split; [cbn; rewrite !length_app; lia|]. intros sp dp. f_equal.
  destruct (to_le_bytes 2 sp) as [|s0 [|s1 [|]]] eqn:Hsp; try (pose proof (length_to_le_bytes 2 sp); rewrite Hsp in *; done).
  destruct (to_le_bytes 2 dp) as [|d0 [|d1 [|]]] eqn:Hdp; try (pose proof (length_to_le_bytes 2 dp); rewrite Hdp in *; done).
  destruct src as [|x0 [|x1 [|x2 src]]]; try done.
  set (H := [s0; s1; d0; d1; 0; b0; b1; b2; b3; nh; hl]).
  match goal with |- take _ (splice ?q _ _) = _ => assert (q = H ++ src ++ dst ++ pay) as -> by done end.
  assert (drop IPV6_HEADER_SIZE (H ++ src ++ dst ++ pay) = pay) as ->.
  { unfold IPV6_HEADER_SIZE, H. cbn [drop app]. rewrite app_assoc, drop_app_length'; [done|].
    rewrite length_app. cbn in Hs. lia. }
  transitivity (H ++ pay); [|done]. apply take_moved; [done|rewrite !length_app; lia|].
  unfold IPV6_HEADER_SIZE, PORT_HEADER_SIZE, IPV6_SHIM_RESIDUAL_SIZE. cbn [length]. rewrite !length_app.
  cbn [length] in *. lia.
Qed.

Lemma decompress_shape p c : ipv6_ok p → compress_ipv6 p = Some c →
  decompress_ipv6 c (src_of p) (dst_of p) = Some p.
Proof.
  intros (Hu & Hp & Hpl & Hmax) Hc. pose proof (proj1 (not_ipv6_false p) Hp) as [Hlen Hv].
  unfold compress_ipv6 in Hc. rewrite Hp in Hc. injection Hc as <-.
  destruct (header_bytes p Hlen) as (b0 & b1 & b2 & b3 & l0 & l1 & nh & hl & src & dst & pay & -> & Hs & Hd).
  assert (drop IPV6_HEADER_SIZE (b0 :: b1 :: b2 :: b3 :: l0 :: l1 :: nh :: hl :: src ++ dst ++ pay) = pay) as ->.
  { unfold IPV6_HEADER_SIZE. cbn [drop]. by rewrite app_assoc, drop_app_length' by (rewrite length_app; lia). }
  unfold src_of, dst_of, decompress_ipv6. cbn [take drop app length Nat.add IPV6_SHIM_RESIDUAL_SIZE].
  change (_ !!! 0%nat) with IPV6_SHIM_FORMAT_COMPRESSED at 1. rewrite Z.eqb_refl. cbn [negb].
  rewrite (proj2 (Nat.ltb_ge _ _)) by (unfold IPV6_SHIM_RESIDUAL_SIZE; lia).
  rewrite take_0, !drop_0, take_app_length' by done.
  change (_ !!! 6%nat) with nh. change (_ !!! 7%nat) with hl.
  assert (take 16 (drop 16 (src ++ dst ++ pay)) = dst) as ->
    by (rewrite drop_app_length' by done; by apply take_app_length').
  assert (to_be_bytes 2 (Z.of_nat (length pay) mod 65536) = [l0; l1]) as Hl.
  { unfold payload_len_of in Hpl. change (_ !!! 4%nat) with l0 in Hpl. change (_ !!! 5%nat) with l1 in Hpl.
    rewrite Z.mod_small by (cbn [length] in Hmax; rewrite !length_app in Hmax; unfold U16_MAX in Hmax; lia).
    replace (Z.of_nat (length pay)) with (from_be_bytes [l0; l1])
      by (rewrite Hpl; cbn [length]; rewrite !length_app; lia).
    apply (to_from_be_bytes [l0; l1]). rewrite !Forall_cons in Hu. rewrite !Forall_cons, Forall_nil. tauto. }
  unfold ipv6_header. cbn [take drop app]. rewrite Hl. cbn [app].
  change ([b0; b1; b2; b3; nh; hl] !!! 0%nat) with b0. change ([b0; b1; b2; b3; nh; hl] !!! 4%nat) with nh.
  change ([b0; b1; b2; b3; nh; hl] !!! 5%nat) with hl.
  rewrite version_nibble by (done || by apply Forall_inv in Hu). by rewrite <-app_assoc.
Qed.
End shim.

Section shim_theorems.
Import Ipv6Shim Icmp.

(** A packet crosses the mesh unchanged. What the sender compresses in place
    is the port header and the allocating compressor's output; and the receiver,
    given the buffer with any bytes in front of it and the session's addresses,
    rebuilds in place exactly the packet that was sent, whatever the allocator does
    and without leaving the allocation. *)
Theorem shim_end_to_end (alloc : nat → list Z) (p inner : list Z) (src_port dst_port : Z) :
  (∀ n, (n ≤ length (alloc n))%nat) → ipv6_ok p →
  ∃ sent c self,
    compress_ipv6_with_port_header_in_place p src_port dst_port = (sent, true) ∧
    compress_ipv6 p = Some c ∧ sent = to_le_bytes 2 src_port ++ to_le_bytes 2 dst_port ++ c ∧
    decompress_ipv6 c (src_of p) (dst_of p) = Some p ∧
    decompress_ipv6_packet_buffer alloc (PacketBuffer.new (inner ++ sent)) (length inner + PORT_HEADER_SIZE)
      (src_of p) (dst_of p) = Ok (self, true) ∧
    PacketBuffer.as_slice self = p.
Proof.
  intros Ha Hok. pose proof Hok as (_ & Hp & _ & Hmax). pose proof (proj1 (not_ipv6_false p) Hp) as [Hlen _].
  destruct (compress_shape p Hp) as (c & Hc & Hlc & Hin). pose proof (decompress_shape p c Hok Hc) as Hd.
  set (sent := to_le_bytes 2 src_port ++ to_le_bytes 2 dst_port ++ c).
  set (buf := PacketBuffer.new (inner ++ sent)).
  assert (length c = (length p - 33)%nat) as Hlc' by done.
  assert (PacketBuffer.as_slice buf = (inner ++ to_le_bytes 2 src_port ++ to_le_bytes 2 dst_port) ++ c) as Hvis
    by (unfold PacketBuffer.as_slice, buf, sent; cbn; by rewrite <-!app_assoc).
  set (pre := inner ++ to_le_bytes 2 src_port ++ to_le_bytes 2 dst_port) in *.
  assert (length inner + PORT_HEADER_SIZE = length pre)%nat as Hpre
    by (unfold pre, PORT_HEADER_SIZE; rewrite !length_app, !length_to_le_bytes; lia).
  assert (length (PacketBuffer.as_slice buf) = (length pre + length c)%nat) as Hlv by (by rewrite Hvis, length_app).
  destruct (replace_ok alloc Ha buf (length pre + 7)
    (ipv6_header (take 6 (drop 1 c)) (Z.of_nat (length c - 7)) (src_of p) (dst_of p))) as (self & Hr & _ & Has);
    [unfold wf, buf; cbn; lia|lia|].
  exists sent, c, self. rewrite Hpre. split; [apply Hin|]. split; [done|]. split; [done|]. split; [done|].
  unfold decompress_ipv6 in Hd.
  rewrite (proj2 (Nat.ltb_ge _ _)) in Hd by (unfold IPV6_SHIM_RESIDUAL_SIZE; lia).
  destruct (c !!! 0%nat =? IPV6_SHIM_FORMAT_COMPRESSED) eqn:Hf; cbn [negb] in Hd; [|done].
  injection Hd as Hd. rewrite length_drop in Hd. split.
  - fold buf. unfold decompress_ipv6_packet_buffer. rewrite len_as_slice, Hlv.
    rewrite (proj2 (Nat.ltb_ge _ _)) by (unfold IPV6_SHIM_RESIDUAL_SIZE; lia).
    assert (PacketBuffer.as_slice buf !!! length pre = c !!! 0%nat) as ->
      by (rewrite Hvis, lookup_total_app_r, Nat.sub_diag by lia; done).
    rewrite Hf. cbn [negb]. rewrite (proj2 (Z.ltb_ge _ _)) by (unfold U16_MAX, IPV6_SHIM_RESIDUAL_SIZE in *; lia).
    rewrite Hvis, drop_app_add.
    replace (length pre + length c - (length pre + (1 + IPV6_SHIM_RESIDUAL_SIZE)))%nat with (length c - 7)%nat
      by (unfold IPV6_SHIM_RESIDUAL_SIZE; lia).
    exact Hr.
  - rewrite Has, Hvis, drop_app_add. exact Hd.
Qed.

Lemma shim_end_to_end_witness :
  ∃ self, decompress_ipv6_packet_buffer (λ n, replicate n 0)
      (PacketBuffer.new ([7; 7] ++ (compress_ipv6_with_port_header_in_place (sample_syn 24) 256 256).1)) 6
      (src_of (sample_syn 24)) (dst_of (sample_syn 24)) = Ok (self, true) ∧
    PacketBuffer.as_slice self = sample_syn 24.
Proof.
  destruct (shim_end_to_end (λ n, replicate n 0) (sample_syn 24) [7; 7] 256 256)
    as (sent & c & self & Hs & _ & _ & _ & Hd & Has).
  - intros n. by rewrite length_replicate.
  - split; [repeat constructor; vm_compute; congruence|]. split; [reflexivity|]. split; [reflexivity|].
    vm_compute. congruence.
  - exists self. rewrite Hs. split; [exact Hd|exact Has].
Defined.

(** The overhead constants are right. A packet of [n] bytes is carried in
    [n + 77] bytes of transport payload (its compressed form, the port header and
    the 106 bytes of the two encapsulations), so it fits the transport MTU exactly
    when it is no larger than [effective_ipv6_mtu]. *)
Theorem effective_mtu_exact (p sent : list Z) (src_port dst_port transport_mtu : Z) :
  compress_ipv6_with_port_header_in_place p src_port dst_port = (sent, true) → 77 ≤ transport_mtu →
  FIPS_OVERHEAD + Z.of_nat (length sent) = Z.of_nat (length p) + FIPS_IPV6_OVERHEAD ∧
  (FIPS_OVERHEAD + Z.of_nat (length sent) ≤ transport_mtu ↔ Z.of_nat (length p) ≤ effective_ipv6_mtu transport_mtu).
Proof.
  intros Hc Hm. destruct (not_ipv6 p) eqn:Hp.
  { unfold compress_ipv6_with_port_header_in_place in Hc. by rewrite Hp in Hc. }
  destruct (compress_shape p Hp) as (c & _ & Hl & Hin). rewrite Hin in Hc.
  apply (f_equal fst) in Hc. cbn [fst] in Hc. rewrite <-Hc.
  pose proof (proj1 (not_ipv6_false p) Hp) as [Hlen _].
  rewrite !length_app, !length_to_le_bytes, Hl. unfold FIPS_OVERHEAD, FIPS_IPV6_OVERHEAD, effective_ipv6_mtu, sat_sub, FIPS_IPV6_OVERHEAD.
  lia.
Qed.

Lemma effective_mtu_exact_witness :
  FIPS_OVERHEAD + Z.of_nat (length (compress_ipv6_with_port_header_in_place (sample_syn 24) 256 256).1) = 64 + 77.
Proof.
  apply (proj1 (effective_mtu_exact (sample_syn 24) _ 256 256 1280 (surjective_pairing _) ltac:(lia))).
Defined.

(** A full TCP segment of a clamped flow fits its path. The ceiling of a flow
    never exceeds the global one, and a segment of that many bytes under minimal
    IPv6 and TCP headers, once encapsulated, is within the learned path MTU, or
    within 1280 bytes when none is known. *)
Theorem clamped_segment_fits (lookup : option (gmap (list Z) Z)) (addr : list Z) (global_max_mss mss : Z) :
  let path_mtu := match lookup ≫= (λ m, m !! addr) with Some m => m | None => 1280 end in
  length addr = 16%nat → addr !!! 0%nat = FipsAddress.FIPS_ADDRESS_PREFIX → 137 ≤ path_mtu →
  0 ≤ mss ≤ Tun.per_flow_max_mss lookup addr global_max_mss →
  mss ≤ global_max_mss ∧ 40 + 20 + mss + FIPS_IPV6_OVERHEAD ≤ path_mtu.
Proof.
  intros path_mtu Hlen Hpre Hmtu. unfold Tun.per_flow_max_mss, FipsAddress.from_slice, FipsAddress.from_bytes.
  rewrite Hlen, Hpre, Z.eqb_refl. cbn [Nat.eqb negb FipsAddress.bytes]. unfold path_mtu in *.
  unfold effective_ipv6_mtu, FIPS_IPV6_OVERHEAD, sat_sub in *.
  destruct (lookup ≫= _) as [m|]; lia.
Qed.

Lemma clamped_segment_fits_witness :
  1143 ≤ 1500 ∧ 40 + 20 + 1143 + FIPS_IPV6_OVERHEAD ≤ 1280.
Proof.
  apply (clamped_segment_fits None (253 :: replicate 15 1) 1500 1143); [done|done|cbn; lia|].
  vm_compute. split; congruence.
Defined.
End shim_theorems.

(** ** ICMPv6 errors *)

Section icmp.
Import Checksum Icmp.

Lemma message_sum_tail l : ∀ i, (2 < i)%nat → message_sum i l = word_sum l.
Proof.
  induction l as [l IH] using (induction_ltof1 _ length). intros i Hi.
  destruct l as [|a [|b l]]; cbn [message_sum word_sum]; [done| |].
  - rewrite be2, Z.shiftl_mul_pow2 by lia. lia.
  - rewrite (proj2 (Nat.eqb_neq i 2)) by lia. rewrite IH; [done|unfold ltof; cbn; lia|lia].
Qed.

Lemma message_sum_header t c l : message_sum 0 (t :: c :: 0 :: 0 :: l) = word_sum (t :: c :: 0 :: 0 :: l).
Proof. cbn [message_sum word_sum Nat.eqb Nat.add]. rewrite message_sum_tail by lia. rewrite !be2. lia. Qed.

(** What a receiver sums to verify an ICMPv6 message. *)
Definition icmp_sum (packet : list Z) : Z :=
  word_sum (src_of packet) + word_sum (dst_of packet) + payload_len_of packet + IPPROTO_ICMPV6 +
  word_sum (drop 40 packet).

Section error.
Context (typ code : Z) (rest original our dest : list Z).
Context (Htyp : 0 ≤ typ < 128) (Hcode : is_u8 code) (Hrest : length rest = 4%nat) (Hrest8 : Forall is_u8 rest).
Context (Hor : Forall is_u8 original) (Hour : length our = 16%nat) (Hour8 : Forall is_u8 our).
Context (Hdest : length dest = 16%nat) (Hdest8 : Forall is_u8 dest).

(** The part of the packet that is quoted. *)
Definition quoted : list Z := take (Nat.min (length original) MAX_ORIGINAL_PACKET) original.

Lemma quoted_length : length quoted = Nat.min (length original) 1232.
Proof. unfold quoted. rewrite length_take. change MAX_ORIGINAL_PACKET with 1232%nat. lia. Qed.

(** The message before and after the checksum goes in. *)
Lemma error_packet_shape : ∃ ck, 0 ≤ ck < 2 ^ 16 ∧
  error_packet typ code rest original our dest =
    ([96; 0; 0; 0] ++ to_be_bytes 2 (Z.of_nat (8 + length quoted)) ++ [58; 64] ++ our ++ dest) ++
    [typ; code] ++ to_be_bytes 2 ck ++ rest ++ quoted ∧
  fold_sum (word_sum our + word_sum dest + Z.of_nat (8 + length quoted) + 58 +
            word_sum ([typ; code] ++ to_be_bytes 2 ck ++ rest ++ quoted)) = 65535.
Proof.
  pose proof quoted_length as Hbl. unfold error_packet. fold quoted.
  replace (length original `min` MAX_ORIGINAL_PACKET)%nat with (length quoted) by exact Hbl.
  unfold ICMPV6_HEADER_LEN, IPPROTO_ICMPV6, IPV6_HEADER_LEN.
  set (b := quoted) in *. assert (length b ≤ 1232)%nat as Hb by lia.
  assert (Forall is_u8 b) as Hb8 by (by apply Forall_take).
  clearbody b.
  rewrite Z.mod_small by lia.
  set (hdr := [96; 0; 0; 0] ++ to_be_bytes 2 (Z.of_nat (8 + length b)) ++ [58; 64] ++ our ++ dest).
  assert (length hdr = 40%nat) as Hh
    by (unfold hdr; rewrite !length_app, length_to_be_bytes, Hour, Hdest; reflexivity).
  match goal with |- context [drop 40 ?l] => assert (l = hdr ++ typ :: code :: 0 :: 0 :: rest ++ b) as -> end.
  { unfold hdr. by rewrite <-!app_assoc. }
  rewrite drop_app_length' by done. unfold icmpv6_checksum.
  set (m := typ :: code :: 0 :: 0 :: rest ++ b).
  assert (length m = (8 + length b)%nat) as Hm by (unfold m; cbn [length]; rewrite length_app, Hrest; lia).
  rewrite shiftr_16, land_16, Z.div_small, Z.mod_small by lia.
  replace (message_sum 0 m) with (word_sum m) by (symmetry; apply message_sum_header). rewrite Hm.
  set (s := word_sum our + word_sum dest + 0 + Z.of_nat (8 + length b) + IPPROTO_ICMPV6 + word_sum m).
  set (ck := complement_u16 (fold_sum s)). exists ck. split; [apply complement_u16_range|]. split.
  - change (hdr ++ m) with (hdr ++ [typ; code] ++ [0; 0] ++ rest ++ b). rewrite app_assoc.
    replace (40 + 2)%nat with (length (hdr ++ [typ; code])) by (rewrite length_app, Hh; done).
    rewrite splice_app by (by rewrite length_to_be_bytes). by rewrite <-app_assoc.
  - rewrite (word_sum_splice [typ; code] 0 0 (rest ++ b) ck) by ((by exists 1%nat) || apply complement_u16_range).
    change ([typ; code] ++ 0 :: 0 :: rest ++ b) with m. rewrite be2.
    replace (word_sum our + word_sum dest + Z.of_nat (8 + length b) + 58 + (word_sum m - (0 * 256 + 0) + ck))
      with (s + ck) by (unfold s, IPPROTO_ICMPV6; lia).
    assert (Forall is_u8 m) as Hm8.
    { unfold m. repeat (apply Forall_cons; split; [mlia|]). by apply Forall_app. }
    pose proof (word_sum_bound our Hour8) as B1. pose proof (word_sum_bound dest Hdest8) as B2.
    pose proof (word_sum_bound m Hm8) as B3. rewrite Hour in B1. rewrite Hdest in B2. rewrite Hm in B3.
    change (Z.of_nat (16 + 1) / 2) with 8 in B1, B2.
    assert (Z.of_nat (8 + length b + 1) / 2 ≤ 1000) by (apply Z.div_le_upper_bound; lia).
    apply complement_verifies; unfold s, IPPROTO_ICMPV6, U32_MAX; lia.
Qed.

(** Everything a receiver or a router checks of the error. *)
Lemma error_packet_ok : let r := error_packet typ code rest original our dest in
  length r = (48 + Nat.min (length original) 1232)%nat ∧
  Z.shiftr (r !!! 0%nat) 4 = 6 ∧ r !!! 6%nat = IPPROTO_ICMPV6 ∧ r !!! 40%nat = typ ∧ r !!! 41%nat = code ∧
  payload_len_of r = Z.of_nat (length r - 40) ∧ src_of r = our ∧ dst_of r = dest ∧
  take 4 (drop 44 r) = rest ∧ drop 48 r = take 1232 original ∧ fold_sum (icmp_sum r) = 65535.
Proof.
  intros r. destruct error_packet_shape as (ck & Hck & Hr & Hv). fold r in Hr.
  pose proof quoted_length as Hbl.
  assert (quoted = take 1232 original) as Hbody.
  { unfold quoted. change MAX_ORIGINAL_PACKET with 1232%nat.
    destruct (Nat.min_spec (length original) 1232) as [[? ->]|[? ->]]; [by rewrite !take_ge by lia|done]. }
  set (b := quoted) in *. clearbody b.
  destruct (to_be_bytes 2 (Z.of_nat (8 + length b))) as [|l0 [|l1 [|]]] eqn:Hl;
    try (pose proof (length_to_be_bytes 2 (Z.of_nat (8 + length b))) as Hx; rewrite Hl in Hx; done).
  destruct (to_be_bytes 2 ck) as [|c0 [|c1 [|]]] eqn:Hc;
    try (pose proof (length_to_be_bytes 2 ck) as Hx; rewrite Hc in Hx; done).
  assert (payload_len_of r = Z.of_nat (8 + length b)) as Hpl.
  { unfold payload_len_of. rewrite Hr. change (_ !!! 4%nat) with l0. change (_ !!! 5%nat) with l1.
    rewrite <-Hl. apply from_to_be_small. lia. }
  assert (src_of r = our ∧ dst_of r = dest ∧ drop 40 r = [typ; code] ++ [c0; c1] ++ rest ++ b) as (Hsrc & Hdst & Hmsg).
  { assert (r = 96 :: 0 :: 0 :: 0 :: l0 :: l1 :: 58 :: 64 :: our ++ dest ++ [typ; code] ++ [c0; c1] ++ rest ++ b) as ->
      by (rewrite Hr; cbn [app]; by rewrite <-app_assoc).
    unfold src_of, dst_of. cbn [drop]. rewrite ?drop_0. split; [by apply take_app_length'|]. split.
    - rewrite drop_app_length' by done. by apply take_app_length'.
    - rewrite app_assoc. apply drop_app_length'. rewrite length_app. lia. }
  assert (length r = (48 + length b)%nat) as Hlen
    by (rewrite Hr; cbn [app length]; rewrite !length_app; cbn [length]; rewrite !length_app, Hour, Hdest, Hrest; lia).
  split; [lia|]. split; [by rewrite Hr|]. split; [by rewrite Hr|].
  assert (∀ j, r !!! (40 + j)%nat = ([typ; code] ++ [c0; c1] ++ rest ++ b) !!! j) as Hat
    by (intros j; rewrite !list_lookup_total_alt, <-Hmsg, lookup_drop; done).
  split; [exact (Hat 0%nat)|]. split; [exact (Hat 1%nat)|].
  split; [rewrite Hpl, Hlen; lia|]. split; [done|]. split; [done|].
  split; [|split].
  - change 44%nat with (40 + 4)%nat. rewrite <-drop_drop, Hmsg. cbn [app drop]. by apply take_app_length'.
  - change 48%nat with (40 + 8)%nat. rewrite <-drop_drop, Hmsg. cbn [app drop]. by rewrite drop_app_length'.
  - unfold icmp_sum. rewrite Hsrc, Hdst, Hpl, Hmsg. exact Hv.
Qed.
End error.

Lemma src_of_ok p : Forall is_u8 p → (40 ≤ length p)%nat → length (src_of p) = 16%nat ∧ Forall is_u8 (src_of p).
Proof.
  intros Hu Hl. unfold src_of. rewrite length_take, length_drop. split; [lia|]. by apply Forall_take, Forall_drop.
Qed.

(** An ICMPv6 error is a valid packet that cannot start a storm. Whenever one
    is built, it is at most 1280 bytes, goes from this node to the source of the
    packet, has the length field and a checksum that verify, and quotes as much of
    the packet as fits; and neither [should_send_icmp_error] nor
    [build_packet_too_big] ever answers such an error with another one. *)
Theorem icmp_error_exact (original our r : list Z) (code : DestUnreachableCode) (mtu : Z) :
  Forall is_u8 original → length our = 16%nat → Forall is_u8 our →
  build_dest_unreachable original code our = Some r ∨ build_packet_too_big original mtu our = Some r →
  (length r ≤ 1280)%nat ∧ payload_len_of r = Z.of_nat (length r - 40) ∧ src_of r = our ∧ dst_of r = src_of original ∧
  drop 48 r = take 1232 original ∧ fold_sum (icmp_sum r) = 65535 ∧
  should_send_icmp_error r = false ∧ (∀ mtu' our', build_packet_too_big r mtu' our' = None).
Proof.
  intros Ho Hl Hu Hb.
  assert (∃ typ c rest, (40 ≤ length original)%nat ∧ 0 ≤ typ < 128 ∧ is_u8 c ∧ length rest = 4%nat ∧ Forall is_u8 rest ∧
    r = error_packet typ c rest original our (src_of original)) as (typ & c & rest & H40 & Ht & Hc & Hr4 & Hr8 & ->).
  { unfold build_dest_unreachable, build_packet_too_big in Hb. change IPV6_HEADER_LEN with 40%nat in Hb.
    destruct (Nat.ltb_spec (length original) 40); [by destruct Hb|]. destruct Hb as [[= <-]|Hb].
    - exists 1, (code_u8 code), [0; 0; 0; 0]. split_and!; try done; [destruct code; vm_compute; split; congruence|].
      repeat constructor; vm_compute; congruence.
    - destruct (negb _); [done|]. destruct (_ || _); [done|]. destruct (is_icmp_error original); [done|].
      injection Hb as <-. exists 2, 0, (to_be_bytes 4 mtu).
      split_and!; first [done|apply to_be_bytes_u8|mlia]. }
  destruct (src_of_ok original Ho H40) as [Hs Hs8].
  destruct (error_packet_ok typ c rest original our (src_of original)) as (L & V & N & T & _ & P & S & D & _ & Q & K);
    try done.
  set (r := error_packet typ c rest original our (src_of original)) in *. clearbody r.
  assert (is_icmp_error r = true) as He.
  { unfold is_icmp_error, IPV6_HEADER_LEN. rewrite N, T. rewrite (proj2 (Nat.ltb_lt _ _)) by lia.
    rewrite (proj2 (Z.ltb_lt _ _)) by lia. done. }
  split_and!; try done.
  - lia.
  - unfold should_send_icmp_error. rewrite He. by repeat case_match.
  - intros mtu' our'. unfold build_packet_too_big. rewrite He. by repeat case_match.
Qed.

Lemma icmp_error_exact_witness : ∃ r,
  build_dest_unreachable (sample_syn 24) NoRoute (253 :: replicate 15 9) = Some r ∧ should_send_icmp_error r = false ∧
  should_send_icmp_error (sample_syn 24) = true.
Proof.
  eexists. split; [reflexivity|]. split; [|reflexivity].
  refine (proj1 (proj2 (proj2 (proj2 (proj2 (proj2 (proj2
    (icmp_error_exact (sample_syn 24) (253 :: replicate 15 9) _ NoRoute 1280 _ _ _ (or_introl eq_refl))))))))).
  - repeat constructor; vm_compute; congruence.
  - reflexivity.
  - repeat constructor; vm_compute; congruence.
Defined.
End icmp.

(** ** Spacing of ICMP errors *)

Section limiter.
Import IcmpRateLimiter.

(** Calls in order of time; the errors sent, newest first. *)
Fixpoint icmp_sent (self : IcmpRateLimiter) (calls : list (list Z * Z)) (log : list (list Z * Z)) : list (list Z * Z) :=
  match calls with
  | [] => log
  | (src, now) :: calls =>
      let '(self, ok) := should_send self src now in
      icmp_sent self calls (if ok then (src, now) :: log else log)
  end.

Fixpoint spaced (gap : Z) (log : list (list Z * Z)) : Prop :=
  match log with
  | [] => True
  | (src, t) :: log => (∀ t', (src, t') ∈ log → gap ≤ t - t') ∧ spaced gap log
  end.

(** What is still too recent is remembered. *)
Definition remembers (self : IcmpRateLimiter) (now : Z) (log : list (list Z * Z)) : Prop :=
  ∀ src t, (src, t) ∈ log → t ≤ now ∧
    (now - t < min_interval self → ∃ t', last_sent self !! src = Some t' ∧ t ≤ t' ≤ now).

Lemma should_send_true self src now self' : should_send self src now = (self', true) →
  self' = cleanup (mkLimiter (<[src := now]> (last_sent self)) (min_interval self) (max_age self)) now ∧
  ∀ t, last_sent self !! src = Some t → min_interval self ≤ sat_sub now t.
Proof.
  unfold should_send. destruct (last_sent self !! src) as [t|] eqn:Hl.
  - destruct (Z.ltb_spec (sat_sub now t) (min_interval self)); intros [= <-]. split; [done|]. by intros ? [= <-].
  - by intros [= <-].
Qed.

Lemma should_send_false self src now self' : should_send self src now = (self', false) → self' = self.
Proof. unfold should_send. repeat case_match; by intros [= <-]. Qed.

Lemma remembers_send self self' src now now' log : min_interval self ≤ max_age self → 0 < min_interval self →
  now ≤ now' → remembers self now log → should_send self src now' = (self', true) →
  (∀ t, (src, t) ∈ log → min_interval self ≤ now' - t) ∧ remembers self' now' ((src, now') :: log).
Proof.
  intros Hage Hmin Hnow Hr Hs. destruct (should_send_true _ _ _ _ Hs) as [-> Hlast]. split.
  - intros t Ht. destruct (Hr src t Ht) as [Hle Hrec].
    destruct (decide (now - t < min_interval self)) as [Hlt|]; [|lia].
    destruct (Hrec Hlt) as (t' & Ht' & Hb). specialize (Hlast t' Ht'). mlia.
  - intros s t Ht. cbn [min_interval last_sent cleanup max_age]. apply elem_of_cons in Ht as [[= -> ->]|Ht].
    + split; [done|]. intros _. exists now'. split; [|lia].
      apply map_lookup_filter_Some. rewrite lookup_insert_eq. split; [done|]. mlia.
    + destruct (Hr s t Ht) as [Hle Hrec]. split; [lia|]. intros Hlt. destruct (decide (s = src)) as [->|Hne].
      * exists now'. split; [|lia]. apply map_lookup_filter_Some. rewrite lookup_insert_eq. split; [done|]. mlia.
      * destruct Hrec as (t' & Ht' & Hb); [lia|]. exists t'. split; [|lia].
        apply map_lookup_filter_Some. rewrite lookup_insert_ne by done. split; [done|]. mlia.
Qed.

Lemma icmp_sent_spaced calls : ∀ self now log, min_interval self ≤ max_age self → 0 < min_interval self →
  StronglySorted Z.le (now :: (snd <$> calls)) → remembers self now log → spaced (min_interval self) log →
  spaced (min_interval self) (icmp_sent self calls log).
Proof.
  induction calls as [|[src now'] calls IH]; intros self now log Hage Hmin Hsort Hr Hsp; cbn [icmp_sent]; [done|].
  apply StronglySorted_inv in Hsort as [Hsort Hnow]. apply Forall_cons in Hnow as [Hnow _]. cbn in Hnow.
  destruct (should_send self src now') as [self' []] eqn:Hs.
  - destruct (remembers_send _ _ _ _ _ _ Hage Hmin Hnow Hr Hs) as [Hgap Hr'].
    apply should_send_true in Hs as [-> _].
    match type of Hr' with remembers ?s _ _ => change (min_interval self) with (min_interval s) end.
    apply (IH _ now'); [done|done|exact Hsort|exact Hr'|]. by split.
  - apply should_send_false in Hs as ->. apply (IH self now'); [done|done|exact Hsort| |done].
    intros s t Ht. destruct (Hr s t Ht) as [Hle Hrec]. split; [lia|]. intros Hlt.
    destruct Hrec as (t' & Ht' & Hb); [lia|]. exists t'. split; [done|lia].
Qed.

(** One source draws at most one ICMP error per interval. Over any calls in
    order of time, two errors to one source are at least [min_interval] apart,
    even though old entries are forgotten: the limiter remembers a source for ten
    seconds, longer than the interval. *)
Theorem icmp_errors_spaced (self : IcmpRateLimiter) (calls : list (list Z * Z)) (start : Z) :
  0 < min_interval self ≤ max_age self →
  StronglySorted Z.le (start :: (snd <$> calls)) →
  spaced (min_interval self) (icmp_sent self calls []).
Proof.
  intros Hm Hs. apply (icmp_sent_spaced calls self start []); [lia|lia|done| |done].
  intros s t Ht. by apply elem_of_nil in Ht.
Qed.

Lemma icmp_errors_spaced_witness :
  spaced 100 (icmp_sent new [([1], 0); ([2], 10); ([1], 50); ([1], 120)] []) ∧
  length (icmp_sent new [([1], 0); ([2], 10); ([1], 50); ([1], 120)] []) = 3%nat.
Proof.
  split; [|vm_compute; reflexivity].
  apply (icmp_errors_spaced new _ 0); [cbn; lia|]. repeat constructor; cbn; lia.
Defined.
End limiter.
