(* ===== verification/ErrorBudget.v ===== *)
(** * Budgets of induced work
    ([crates/fips-core/src/node/peer_error_budget.rs], [node/rate_limit.rs],
    [node/handlers/forwarding.rs])

    What a remote party can make this node do. [PeerErrorBudget] bounds the
    routing errors one authenticated link peer can induce, and
    [Emission.admit_error_emission] composes it with the per-destination limiter
    of [RateLimit]. [HandshakeLimiter] is the gate in front of handshake
    processing: two token buckets and one shared ceiling of handshakes in
    flight, released by a guard. [SessionSetup] is the per-peer gate of
    end-to-end session setups. Instants and durations are nanoseconds. *)

From S2P Require Import Prelude Bytes F64 NodeAddr RateLimit.

Local Open Scope Z_scope.

(** [Duration::as_millis] of a duration in nanoseconds, cut to [u64] as the
    source does. *)
Definition elapsed_ms (now since : Z) : Z := Z.min (sat_sub now since / 1000000) U64_MAX.

(** ** The budget of one link peer *)

Module PeerErrorBudget.

Definition PEER_ERROR_RATE_PER_SEC : Z := 20.
Definition PEER_ERROR_BURST : Z := 50.
Definition MILLI : Z := 1000.
Definition SWEEP_INTERVAL : Z := 30 * 1000000000.

Record Bucket := mkBucket { milli_tokens : Z; last_refill : Z }.

Record PeerErrorBudget := mkBudget {
  buckets : gmap NodeAddr Bucket;
  milli_per_ms : Z;
  capacity : Z;
  last_sweep : Z
}.

Definition with_rate (per_sec burst now : Z) : PeerErrorBudget :=
  mkBudget ∅ per_sec (burst * MILLI) now.

Definition new (now : Z) : PeerErrorBudget := with_rate PEER_ERROR_RATE_PER_SEC PEER_ERROR_BURST now.

Definition set_buckets (self : PeerErrorBudget) (m : gmap NodeAddr Bucket) : PeerErrorBudget :=
  mkBudget m (milli_per_ms self) (capacity self) (last_sweep self).

(** The arithmetic of [refill] and [sweep]: the tokens a bucket is worth at [now]. *)
Definition topped (rate : Z) (bucket : Bucket) (now : Z) : Z :=
  sat_add_u64 (milli_tokens bucket) (sat_mul_u64 (elapsed_ms now (last_refill bucket)) rate).

Definition refill (self : PeerErrorBudget) (peer : NodeAddr) (now : Z) : PeerErrorBudget :=
  let bucket := default (mkBucket (capacity self) now) (buckets self !! peer) in
  let bucket :=
    if 0 <? elapsed_ms now (last_refill bucket)
    then mkBucket (Z.min (topped (milli_per_ms self) bucket now) (capacity self)) now
    else bucket in
  set_buckets self (<[peer := bucket]> (buckets self)).

Definition has_token (self : PeerErrorBudget) (peer : NodeAddr) (now : Z)
    : PeerErrorBudget * bool :=
  let self := refill self peer now in
  (self, match buckets self !! peer with
         | Some bucket => MILLI <=? milli_tokens bucket
         | None => false
         end).

Definition sweep (self : PeerErrorBudget) (now : Z) : PeerErrorBudget :=
  if sat_sub now (last_sweep self) <? SWEEP_INTERVAL then self
  else mkBudget
         (filter (λ pb, topped (milli_per_ms self) pb.2 now < capacity self) (buckets self))
         (milli_per_ms self) (capacity self) now.

Definition commit (self : PeerErrorBudget) (peer : NodeAddr) (now : Z) : PeerErrorBudget :=
  let self := refill self peer now in
  let self :=
    match buckets self !! peer with
    | Some bucket =>
        set_buckets self
          (<[peer := mkBucket (sat_sub (milli_tokens bucket) MILLI) (last_refill bucket)]>
             (buckets self))
    | None => self
    end in
  sweep self now.

End PeerErrorBudget.

(** ** The gate in front of a routing error *)

Module Emission.
Import RoutingErrorRateLimiter PeerErrorBudget.

(** The fields of [Node] the gate reads and writes, with its three counters of
    [stats().errors]. *)
Record Errors := mkErrors {
  emit_over_peer_budget : Z;
  emit_over_dest_interval : Z;
  emit_limiter_at_capacity : Z
}.

Record Gate := mkGate {
  peer_error_budget : PeerErrorBudget;
  routing_error_rate_limiter : RoutingErrorRateLimiter;
  errors : Errors
}.

Definition admit_error_emission (self : Gate) (from dest : NodeAddr) (now : Z) : Gate * bool :=
  let e := errors self in
  let '(budget, has) := has_token (peer_error_budget self) from now in
  if negb has then
    (mkGate budget (routing_error_rate_limiter self)
       (mkErrors (wrap_u64 (emit_over_peer_budget e + 1)) (emit_over_dest_interval e)
          (emit_limiter_at_capacity e)), false)
  else
    let '(limiter, verdict) := check (routing_error_rate_limiter self) dest now in
    match verdict with
    | Suppress =>
        (mkGate budget limiter
           (mkErrors (emit_over_peer_budget e) (wrap_u64 (emit_over_dest_interval e + 1))
              (emit_limiter_at_capacity e)), false)
    | AdmitAtCapacity =>
        (mkGate (commit budget from now) limiter
           (mkErrors (emit_over_peer_budget e) (emit_over_dest_interval e)
              (wrap_u64 (emit_limiter_at_capacity e + 1))), true)
    | Admit => (mkGate (commit budget from now) limiter e, true)
    end.

(** A history of calls: each datagram the node could not route, by the peer that
    delivered it, its destination and the instant. The log of what was emitted is
    kept newest first. *)
Record Call := mkCall { c_from : NodeAddr; c_dest : NodeAddr; c_now : Z }.

Definition step (s : Gate * list Call) (c : Call) : Gate * list Call :=
  let '(self, sent) := admit_error_emission s.1 (c_from c) (c_dest c) (c_now c) in
  (self, if sent then c :: s.2 else s.2).

Definition run (self : Gate) (calls : list Call) : Gate * list Call := foldl step (self, []) calls.

Definition start (now : Z) : Gate :=
  mkGate (PeerErrorBudget.new now) (RoutingErrorRateLimiter.new now) (mkErrors 0 0 0).

(** The emissions a peer induced at or after [s]. *)
Definition induced (p : NodeAddr) (s : Z) (log : list Call) : Z :=
  Z.of_nat (length (filter (λ c, c_from c = p ∧ s ≤ c_now c) log)).

(** The emissions a peer induced between [s] and [e]. *)
Definition induced_within (p : NodeAddr) (s e : Z) (log : list Call) : Z :=
  Z.of_nat (length (filter (λ c, c_from c = p ∧ s ≤ c_now c ≤ e) log)).

(** The instants of a history never go backwards. *)
Fixpoint clocked (now : Z) (calls : list Call) : Prop :=
  match calls with
  | [] => True
  | c :: calls => now ≤ c_now c ∧ clocked (c_now c) calls
  end.

End Emission.

(** ** Token buckets over [f64] *)

Module TokenBucket.

Definition DEFAULT_BURST_CAPACITY : Z := 100.
Definition DEFAULT_REFILL_RATE : f64 := f64_of_Z 10.

Record TokenBucket := mkTokenBucket {
  capacity : Z;
  tokens : f64;
  refill_rate : f64;
  last_refill : Z
}.

Definition with_params (capacity : Z) (refill_rate : f64) (now : Z) : TokenBucket :=
  mkTokenBucket capacity (f64_of_Z capacity) refill_rate now.

Definition new (now : Z) : TokenBucket := with_params DEFAULT_BURST_CAPACITY DEFAULT_REFILL_RATE now.

(** [Instant::duration_since] is zero for an earlier instant. *)
Definition refill (self : TokenBucket) (now : Z) : TokenBucket :=
  let elapsed_secs := as_secs_f64 (sat_sub now (last_refill self)) in
  let tokens := f64_add (tokens self) (f64_mul elapsed_secs (refill_rate self)) in
  let tokens := if f64_ltb (f64_of_Z (capacity self)) tokens then f64_of_Z (capacity self) else tokens in
  mkTokenBucket (capacity self) tokens (refill_rate self) now.

Definition try_acquire_n (self : TokenBucket) (n now : Z) : TokenBucket * bool :=
  let self := refill self now in
  if f64_leb (f64_of_Z n) (tokens self) then
    (mkTokenBucket (capacity self) (f64_sub (tokens self) (f64_of_Z n)) (refill_rate self)
       (last_refill self), true)
  else (self, false).

Definition try_acquire (self : TokenBucket) (now : Z) : TokenBucket * bool := try_acquire_n self 1 now.

End TokenBucket.

Definition ESTABLISHED_RATE_FLOOR : f64 := f64_of_Z 1.

Inductive Msg1Class := Stranger | EstablishedLink.
Inductive Msg1Refusal := PendingLimit | RateLimit.

Definition derive_established_bucket (max_established rekey_after_secs max_resends stranger_burst : Z)
    (stranger_rate : f64) : Z * f64 :=
  if max_established =? 0 then (stranger_burst, stranger_rate)
  else
    let burst := if max_established <=? U32_MAX then max_established else U32_MAX in
    let period := f64_of_Z (Z.max rekey_after_secs 1) in
    let rate := f64_mul (f64_div (f64_of_Z max_established) period)
                  (f64_add f64_one (f64_of_Z max_resends)) in
    (burst, f64_max (f64_max rate stranger_rate) ESTABLISHED_RATE_FLOOR).

(** ** The gate in front of handshake message 1 *)

Module HandshakeLimiter.
Import TokenBucket.

(** The shared atomic counter [pending] is a field: every access is one atomic
    operation of the step that makes it. *)
Record HandshakeRateLimiter := mkHandshakeLimiter {
  bucket : TokenBucket;
  established : TokenBucket;
  pending : Z;
  max_pending : Z
}.

Definition with_params (bucket established : TokenBucket) (max_pending : Z) : HandshakeRateLimiter :=
  mkHandshakeLimiter bucket established 0 max_pending.

Definition bucket_for (self : HandshakeRateLimiter) (class : Msg1Class) : TokenBucket :=
  match class with Stranger => bucket self | EstablishedLink => established self end.

Definition set_bucket_for (self : HandshakeRateLimiter) (class : Msg1Class) (b : TokenBucket)
    : HandshakeRateLimiter :=
  match class with
  | Stranger => mkHandshakeLimiter b (established self) (pending self) (max_pending self)
  | EstablishedLink => mkHandshakeLimiter (bucket self) b (pending self) (max_pending self)
  end.

Definition set_pending (self : HandshakeRateLimiter) (n : Z) : HandshakeRateLimiter :=
  mkHandshakeLimiter (bucket self) (established self) n (max_pending self).

(** [Ok] carries a [PendingHandshake] guard, which has no data of its own. *)
Definition start_handshake (self : HandshakeRateLimiter) (class : Msg1Class) (now : Z)
    : HandshakeRateLimiter * outcome Msg1Refusal () :=
  if max_pending self <=? pending self then (self, Err PendingLimit)
  else
    let '(b, acquired) := try_acquire (bucket_for self class) now in
    let self := set_bucket_for self class b in
    if negb acquired then (self, Err RateLimit)
    else (set_pending self (wrap_u64 (pending self + 1)), Ok ()).

(** [Drop for PendingHandshake]: [checked_sub], so never below zero. *)
Definition drop_guard (self : HandshakeRateLimiter) : HandshakeRateLimiter :=
  if 1 <=? pending self then set_pending self (pending self - 1) else self.

(** A run: handshakes begin, and the guard of one in flight is dropped when its
    processing returns. [live] counts the guards that exist. *)
Inductive Event := Begin (class : Msg1Class) (now : Z) | Finish.

Definition step (s : HandshakeRateLimiter * nat) (e : Event) : HandshakeRateLimiter * nat :=
  match e with
  | Begin class now =>
      let '(self, r) := start_handshake s.1 class now in
      (self, if is_ok r then S s.2 else s.2)
  | Finish => match s.2 with O => s | S live => (drop_guard s.1, live) end
  end.

Definition run (self : HandshakeRateLimiter) (es : list Event) : HandshakeRateLimiter * nat :=
  foldl step (self, O) es.

End HandshakeLimiter.

(** ** The gate in front of session setups *)

Module SessionSetup.
Import TokenBucket.

Definition SETUP_BUCKET_IDLE : Z := 300 * 1000000000.

Record SessionSetupBuckets := mkSetupBuckets {
  stranger : TokenBucket;
  established : TokenBucket;
  seen : Z
}.

Record SessionSetupRateLimiter := mkSetupLimiter {
  buckets : gmap NodeAddr SessionSetupBuckets;
  stranger_params : Z * f64;
  established_params : Z * f64
}.

Definition with_params (stranger established : Z * f64) : SessionSetupRateLimiter :=
  mkSetupLimiter ∅ stranger established.

Definition entry_or_insert (self : SessionSetupRateLimiter) (link_peer : NodeAddr) (now : Z)
    : SessionSetupBuckets :=
  default (mkSetupBuckets
             (TokenBucket.with_params (stranger_params self).1 (stranger_params self).2 now)
             (TokenBucket.with_params (established_params self).1 (established_params self).2 now) now)
    (buckets self !! link_peer).

Definition try_admit (self : SessionSetupRateLimiter) (link_peer : NodeAddr) (class : Msg1Class)
    (now : Z) : SessionSetupRateLimiter * bool :=
  let b := entry_or_insert self link_peer now in
  let '(b, admitted) :=
    match class with
    | Stranger =>
        let '(t, ok) := try_acquire (stranger b) now in (mkSetupBuckets t (established b) now, ok)
    | EstablishedLink =>
        let '(t, ok) := try_acquire (established b) now in (mkSetupBuckets (stranger b) t now, ok)
    end in
  let m := <[link_peer := b]> (buckets self) in
  let m := if admitted then filter (λ pb, sat_sub now (seen pb.2) < SETUP_BUCKET_IDLE) m else m in
  (mkSetupLimiter m (stranger_params self) (established_params self), admitted).

End SessionSetup.

(** ** Facts about the budget *)

Section budget.
Import PeerErrorBudget Emission.

(** What a bucket still allows peer [p], given what it already sent: in every
    window that starts at [s], the emissions and the tokens left are covered by
    the capacity and the refill since [s], up to the millisecond [refill] rounds. *)
Record credit (rate cap : Z) (b : Bucket) (now : Z) (p : NodeAddr) (log : list Call) : Prop := {
  credit_range : 0 ≤ milli_tokens b ≤ cap;
  credit_past : last_refill b ≤ now;
  credit_recent : ∀ c, c ∈ log → c_from c = p → c_now c < last_refill b + 1000000;
  credit_window : ∀ s, 1000000000 * induced p s log + 1000000 * milli_tokens b
    ≤ 1000000 * cap + rate * Z.max 0 (last_refill b - s + 1000000)
}.

(** A missing bucket is a full one. *)
Definition bucket_of (self : PeerErrorBudget) (p : NodeAddr) (now : Z) : Bucket :=
  default (mkBucket (capacity self) now) (buckets self !! p).

Record budget_ok (self : PeerErrorBudget) (now : Z) (log : list Call) : Prop := {
  budget_rate : 0 ≤ milli_per_ms self;
  budget_cap : 0 ≤ capacity self;
  budget_past : Forall (λ c, c_now c ≤ now) log;
  budget_credit : ∀ p, credit (milli_per_ms self) (capacity self) (bucket_of self p now) now p log
}.

Lemma induced_nonneg p s log : 0 ≤ induced p s log.
Proof. unfold induced. lia. Qed.

Lemma induced_none p s log : (∀ c, c ∈ log → c_from c = p → c_now c < s) → induced p s log = 0.
Proof.
  intros Hn. unfold induced. destruct (filter _ log) as [|c l] eqn:Hf; [done|].
  assert (c ∈ filter (λ c, c_from c = p ∧ s ≤ c_now c) log) as Hin by (rewrite Hf; left). revert Hin. intros [[Hp Hs] Hc]%list_elem_of_filter. specialize (Hn c Hc Hp). lia.
Qed.

Lemma induced_cons p s c log :
  induced p s (c :: log)
  = induced p s log + (if decide (c_from c = p ∧ s ≤ c_now c) then 1 else 0).
Proof. unfold induced. rewrite filter_cons. destruct (decide _); simpl length; lia. Qed.

Lemma topped_bound rate b now : 0 ≤ rate → last_refill b ≤ now →
  1000000 * topped rate b now ≤ 1000000 * milli_tokens b + rate * (now - last_refill b).
Proof.
  intros Hr Hp. unfold topped.
  assert (1000000 * elapsed_ms now (last_refill b) ≤ now - last_refill b) as Hel.
  { unfold elapsed_ms. replace (sat_sub now (last_refill b)) with (now - last_refill b) by mlia.
    pose proof (Z.mul_div_le (now - last_refill b) 1000000 ltac:(lia)). lia. }
  revert Hel. generalize (elapsed_ms now (last_refill b)) as el. intros el Hel.
  assert (rate * (1000000 * el) ≤ rate * (now - last_refill b)) by (by apply Z.mul_le_mono_nonneg_l).
  unfold sat_add_u64, sat_mul_u64. lia.
Qed.

Lemma topped_nonneg rate b now : 0 ≤ rate → 0 ≤ milli_tokens b → 0 ≤ topped rate b now.
Proof.
  intros Hr Hb. unfold topped, sat_add_u64, sat_mul_u64.
  assert (0 ≤ elapsed_ms now (last_refill b)).
  { unfold elapsed_ms. apply Z.min_glb; [apply Z.div_pos; mlia|mlia]. }
  assert (0 ≤ elapsed_ms now (last_refill b) * rate) by (by apply Z.mul_nonneg_nonneg). mlia.
Qed.

(** A bucket that is full by now can be forgotten, and one that is topped up to
    now covers everything the old one did. *)
Lemma credit_full rate cap b now p log t : 0 ≤ rate → 0 ≤ t ≤ cap →
  Forall (λ c, c_now c ≤ now) log → credit rate cap b now p log →
  1000000 * t ≤ 1000000 * milli_tokens b + rate * (now - last_refill b) →
  credit rate cap (mkBucket t now) now p log.
Proof.
  intros Hr Ht Hlog [Hb Hp Hrec Hw] Hle. rewrite Forall_forall in Hlog. split; simpl; [done|lia| |].
  { intros c Hc _. specialize (Hlog c Hc). lia. }
  intros s. specialize (Hw s). destruct (Z.le_gt_cases s (last_refill b + 1000000)).
  - replace (Z.max 0 (now - s + 1000000)) with (now - s + 1000000) by lia.
    replace (Z.max 0 (last_refill b - s + 1000000)) with (last_refill b - s + 1000000) in Hw by lia. lia.
  - rewrite induced_none; [pose proof (Z.mul_nonneg_nonneg rate (Z.max 0 (now - s + 1000000)) Hr); lia|]. intros c Hc Hf. specialize (Hrec c Hc Hf). lia.
Qed.

Lemma credit_later rate cap b now now' p log : now ≤ now' → credit rate cap b now p log →
  credit rate cap b now' p log.
Proof. intros Hle [???]. by split; [|lia| |]. Qed.

Lemma budget_later self now now' log : now ≤ now' → budget_ok self now log → budget_ok self now' log.
Proof.
  intros Hle [Hr Hc Hl Hcr]. split; [done|done| |].
  - eapply Forall_impl; [done|]. simpl. lia.
  - intros p. specialize (Hcr p). unfold bucket_of in *. destruct (buckets self !! p) as [b|]; simpl in *.
    + by eapply credit_later.
    + apply (credit_full _ _ (mkBucket (capacity self) now)); simpl;
        [done|lia| |by eapply credit_later|].
      * eapply Forall_impl; [done|]. simpl. lia.
      * pose proof (Z.mul_nonneg_nonneg _ (now' - now) Hr). lia.
Qed.

Lemma elapsed_none now since : since ≤ now → elapsed_ms now since ≤ 0 → now < since + 1000000.
Proof.
  intros Hle. unfold elapsed_ms. replace (sat_sub now since) with (now - since) by mlia.
  destruct (Z.le_gt_cases 1000000 (now - since)) as [Hge|]; [|lia].
  apply (Z.div_le_mono _ _ 1000000) in Hge; [|lia]. rewrite Z_div_same in Hge by lia. mlia.
Qed.

Lemma credit_refilled rate cap b now p log : 0 ≤ rate → Forall (λ c, c_now c ≤ now) log →
  credit rate cap b now p log → 0 < elapsed_ms now (last_refill b) →
  credit rate cap (mkBucket (Z.min (topped rate b now) cap) now) now p log.
Proof.
  intros Hr Hl Hb _. pose proof (credit_range _ _ _ _ _ _ Hb). pose proof (credit_past _ _ _ _ _ _ Hb).
  apply (credit_full _ _ b); [exact Hr| |exact Hl|exact Hb|].
  - pose proof (topped_nonneg rate b now Hr ltac:(lia)). lia.
  - pose proof (topped_bound rate b now Hr ltac:(lia)). lia.
Qed.

(** Replacing the bucket of one peer by another that covers the same log. *)
Lemma set_bucket_credit self p b now log : budget_ok self now log →
  credit (milli_per_ms self) (capacity self) b now p log →
  budget_ok (set_buckets self (<[p := b]> (buckets self))) now log.
Proof.
  intros [Hr Hc Hl Hcr] Hb. split; [exact Hr|exact Hc|exact Hl|]. intros q. unfold bucket_of.
  cbn [set_buckets buckets milli_per_ms capacity]. destruct (decide (q = p)) as [->|Hne].
  - by rewrite lookup_insert_eq.
  - rewrite lookup_insert_ne by done. apply Hcr.
Qed.

(** [refill] leaves a bucket that is at most a millisecond behind. *)
Lemma refill_ok self peer now log : budget_ok self now log →
  budget_ok (refill self peer now) now log
  ∧ ∃ b, buckets (refill self peer now) !! peer = Some b ∧ now < last_refill b + 1000000.
Proof.
  intros Hok. pose proof (budget_credit _ _ _ Hok peer) as Hp. unfold refill.
  change (default (mkBucket (capacity self) now) (buckets self !! peer)) with (bucket_of self peer now).
  revert Hp. generalize (bucket_of self peer now). intros b Hp.
  destruct (Z.ltb_spec 0 (elapsed_ms now (last_refill b))) as [Hel|Hel].
  - split; [|eexists; split; [apply lookup_insert_eq|cbn [last_refill]; lia]].
    apply set_bucket_credit; [done|]. apply credit_refilled; [apply Hok|apply Hok|done|done].
  - split; [by apply set_bucket_credit|]. eexists. split; [apply lookup_insert_eq|].
    apply elapsed_none; [apply Hp|done].
Qed.

Lemma sweep_ok self now log : budget_ok self now log → budget_ok (sweep self now) now log.
Proof.
  intros [Hr Hc Hl Hcr]. unfold sweep. destruct (_ <? _); [done|]. split; simpl; [done|done|done|].
  intros p. specialize (Hcr p). unfold bucket_of in *. simpl. rewrite map_lookup_filter.
  destruct (buckets self !! p) as [b|]; simpl in *; [|done].
  case_guard as Hfull; simpl; [done|]. destruct Hcr as [? ? ? ?] eqn:Hb.
  apply (credit_full _ _ b); [done|lia|done|done|].
  pose proof (topped_bound (milli_per_ms self) b now Hr ltac:(lia)). lia.
Qed.

Lemma refill_again self p now b : buckets self !! p = Some b → last_refill b ≤ now →
  now < last_refill b + 1000000 → refill self p now = self.
Proof.
  intros Hb Hp Hrec. unfold refill. rewrite Hb. cbn [default from_option id].
  assert (elapsed_ms now (last_refill b) = 0) as ->.
  { unfold elapsed_ms. rewrite Z.div_small by mlia. mlia. }
  cbn [Z.ltb Z.compare]. unfold set_buckets. rewrite insert_id by done. by destruct self.
Qed.

Lemma set_bucket_spent self b c log : budget_ok self (c_now c) log →
  buckets self !! c_from c = Some b → MILLI ≤ milli_tokens b → c_now c < last_refill b + 1000000 →
  budget_ok (set_buckets self (<[c_from c := mkBucket (sat_sub (milli_tokens b) MILLI) (last_refill b)]>
    (buckets self))) (c_now c) (c :: log).
Proof.
  intros [Hr Hc Hl Hcr] Hb Hm Hrec. split; [exact Hr|exact Hc|by constructor|].
  intros q. specialize (Hcr q). unfold bucket_of in *. cbn [set_buckets buckets milli_per_ms capacity].
  unfold MILLI in *. destruct (decide (q = c_from c)) as [->|Hne].
  - rewrite lookup_insert_eq. rewrite Hb in Hcr. destruct Hcr as [Hrg Hpast Hrc Hw]. cbn [default from_option id] in *.
    replace (sat_sub (milli_tokens b) 1000) with (milli_tokens b - 1000) by mlia.
    split; cbn [milli_tokens last_refill]; [lia|exact Hpast| |].
    + intros d [->|Hd]%elem_of_cons Hf; [exact Hrec|by apply Hrc].
    + intros s. specialize (Hw s). rewrite induced_cons. destruct (decide _); lia.
  - rewrite lookup_insert_ne by done. destruct Hcr as [Hrg Hpast Hrc Hw]. split; [exact Hrg|exact Hpast| |].
    + intros d [->|Hd]%elem_of_cons Hf; [by destruct Hne|by apply Hrc].
    + intros s. rewrite induced_cons. destruct (decide _) as [[Hf _]|]; [by destruct Hne|].
      specialize (Hw s). lia.
Qed.

(** Spending a token that was there. *)
Lemma budget_commit_ok self c log : budget_ok self (c_now c) log →
  (has_token self (c_from c) (c_now c)).2 = true →
  budget_ok (commit (has_token self (c_from c) (c_now c)).1 (c_from c) (c_now c)) (c_now c) (c :: log).
Proof.
  unfold has_token, commit. cbn [fst snd]. intros Hok Hhas.
  destruct (refill_ok _ (c_from c) _ _ Hok) as [Hok1 (b & Hb & Hrec)].
  revert Hok1 Hb Hhas. generalize (refill self (c_from c) (c_now c)). intros r Hok1 Hb Hhas.
  rewrite (refill_again r (c_from c) (c_now c) b);
    [|done|pose proof (budget_credit _ _ _ Hok1 (c_from c)) as Hp; unfold bucket_of in Hp; rewrite Hb in Hp; apply Hp|done]. rewrite Hb in Hhas |- *.
  apply sweep_ok, (set_bucket_spent _ _ _ _ Hok1 Hb); [|done]. by apply Z.leb_le.
Qed.

Lemma budget_commit_config self p now :
  milli_per_ms (commit self p now) = milli_per_ms self ∧ capacity (commit self p now) = capacity self.
Proof. unfold commit, sweep. by repeat case_match. Qed.

End budget.

Section emission.
Import RoutingErrorRateLimiter PeerErrorBudget Emission.

(** What holds after [n] calls of which [log] were admitted. *)
Record gate_ok (self : Gate) (now : Z) (n : nat) (log : list Call) : Prop := {
  gate_budget : budget_ok (peer_error_budget self) now log;
  gate_config : milli_per_ms (peer_error_budget self) = PEER_ERROR_RATE_PER_SEC
    ∧ capacity (peer_error_budget self) = PEER_ERROR_BURST * MILLI
    ∧ min_interval (routing_error_rate_limiter self) = 100 * 1000000;
  gate_windows : ∀ p s e, s ≤ e → 1000000000 * induced_within p s e log
    ≤ 1000000000 * PEER_ERROR_BURST + PEER_ERROR_RATE_PER_SEC * (e - s + 1000000);
  gate_counts : Z.of_nat n = emit_over_peer_budget (errors self) + emit_over_dest_interval (errors self)
    + Z.of_nat (length log);
  gate_nonneg : 0 ≤ emit_over_peer_budget (errors self) ∧ 0 ≤ emit_over_dest_interval (errors self)
    ∧ 0 ≤ emit_limiter_at_capacity (errors self) ≤ Z.of_nat n;
  gate_dest : emit_limiter_at_capacity (errors self) = 0 →
    limiter_ok (routing_error_rate_limiter self) now ((λ c, (c_dest c, c_now c)) <$> log)
}.

Lemma filter_agree {A} (P Q : A → Prop) `{!∀ x, Decision (P x), !∀ x, Decision (Q x)} l :
  Forall (λ x, P x ↔ Q x) l → filter P l = filter Q l.
Proof.
  induction 1 as [|x l Hx _ IH]; [done|]. rewrite !filter_cons, IH.
  destruct (decide (P x)), (decide (Q x)); naive_solver.
Qed.

Lemma check_interval self d now : min_interval (check self d now).1 = min_interval self.
Proof. unfold check, maybe_cleanup, cleanup. by repeat case_match. Qed.

Lemma windows_grow c log rate cap b :
  Forall (λ d, c_now d ≤ c_now c) log → 0 ≤ rate → credit rate cap b (c_now c) (c_from c) (c :: log) →
  (∀ p s e, s ≤ e → 1000000000 * induced_within p s e log ≤ 1000000 * cap + rate * (e - s + 1000000)) →
  ∀ p s e, s ≤ e → 1000000000 * induced_within p s e (c :: log) ≤ 1000000 * cap + rate * (e - s + 1000000).
Proof.
  intros Hl Hr [Hrg Hpast _ Hw] Hold p s e Hse. specialize (Hold p s e Hse).
  destruct (decide (c_from c = p ∧ s ≤ c_now c ≤ e)) as [[<- Hin]|Hout].
  - specialize (Hw s).
    replace (induced_within (c_from c) s e (c :: log)) with (induced (c_from c) s (c :: log)).
    + assert (rate * Z.max 0 (last_refill b - s + 1000000) ≤ rate * (e - s + 1000000)); [|lia].
      apply Z.mul_le_mono_nonneg_l; lia.
    + unfold induced, induced_within. f_equal. f_equal. apply filter_agree.
      constructor; [lia|]. eapply Forall_impl; [exact Hl|]. simpl. lia.
  - unfold induced_within. by rewrite filter_cons_False.
Qed.

Lemma has_token_config self p now :
  milli_per_ms (has_token self p now).1 = milli_per_ms self
  ∧ capacity (has_token self p now).1 = capacity self.
Proof. done. Qed.

Lemma step_ok self now n log c : gate_ok self now n log → now ≤ c_now c → Z.of_nat n < 2 ^ 64 - 1 →
  let '(self', log') := step (self, log) c in gate_ok self' (c_now c) (S n) log'.
Proof.
  intros [Hb (Hrate & Hcap & Hint) Hw Hn Hnn Hd] Hle Hlt.
  apply (budget_later _ _ (c_now c)) in Hb; [|done].
  assert (emit_limiter_at_capacity (errors self) = 0 →
    limiter_ok (routing_error_rate_limiter self) (c_now c) ((λ c, (c_dest c, c_now c)) <$> log)) as Hd'
    by (intros; eapply limiter_later; eauto). clear Hd.
  unfold step, admit_error_emission. cbn [fst snd].
  pose proof (budget_commit_ok _ c log Hb) as Hcommit.
  destruct (refill_ok _ (c_from c) _ _ Hb) as [Hb1 _]. destruct (has_token_config (peer_error_budget self) (c_from c) (c_now c)) as [Hc1 Hc2].
  change (refill (peer_error_budget self) (c_from c) (c_now c))
    with (has_token (peer_error_budget self) (c_from c) (c_now c)).1 in Hb1.
  revert Hcommit Hb1 Hc1 Hc2. generalize (has_token (peer_error_budget self) (c_from c) (c_now c)).
  intros [budget has] Hcommit Hb1 Hc1 Hc2. cbn [fst snd] in *. rewrite Hrate in Hc1. rewrite Hcap in Hc2.
  destruct has; cbn [negb].
  2:{ split; cbn; [done|done|done| | |done]; unfold wrap_u64; rewrite ?Z.mod_small; lia. }
  pose proof (λ z, check_ok (routing_error_rate_limiter self) (c_dest c) (c_now c) _ (Hd' z)) as Hcheck.
  pose proof (check_interval (routing_error_rate_limiter self) (c_dest c) (c_now c)) as Hi. rewrite Hint in Hi.
  destruct (check _ _ _) as [limiter v]. cbn [fst] in Hi.
  specialize (Hcommit eq_refl). destruct (budget_commit_config budget (c_from c) (c_now c)) as [Hc3 Hc4].
  rewrite Hc1 in Hc3. rewrite Hc2 in Hc4.
  assert (∀ p s e, s ≤ e → 1000000000 * induced_within p s e (c :: log)
    ≤ 1000000000 * PEER_ERROR_BURST + PEER_ERROR_RATE_PER_SEC * (e - s + 1000000)) as Hw'.
  { apply (windows_grow c log PEER_ERROR_RATE_PER_SEC (PEER_ERROR_BURST * MILLI)
      (bucket_of (commit budget (c_from c) (c_now c)) (c_from c) (c_now c)));
      [apply Hb|done| |exact Hw]. rewrite <- Hc3, <- Hc4. apply Hcommit. }
  destruct v; split; cbn [peer_error_budget routing_error_rate_limiter errors emit_over_peer_budget
    emit_over_dest_interval emit_limiter_at_capacity length]; try done;
    unfold wrap_u64; rewrite ?Z.mod_small; try lia.
  - intros Hz. apply (Hcheck Hz).
  - intros Hz. apply (Hcheck Hz).
Qed.

Lemma gate_run_ok calls self now n log : gate_ok self now n log → clocked now calls →
  Z.of_nat (n + length calls) < 2 ^ 64 →
  let '(self', log') := foldl step (self, log) calls in
  ∃ now', gate_ok self' now' (n + length calls) log'.
Proof.
  revert self now n log. induction calls as [|c calls IH]; intros self now n log Hok Hcl Hlen; cbn [foldl].
  { exists now. by rewrite Nat.add_0_r. }
  destruct Hcl as [Hle Hcl]. cbn [length] in *.
  pose proof (step_ok self now n log c Hok Hle ltac:(lia)) as Hok1.
  destruct (step (self, log) c) as [self1 log1].
  rewrite Nat.add_succ_r, <- Nat.add_succ_l in *. exact (IH _ _ _ _ Hok1 Hcl Hlen).
Qed.

Lemma start_ok now : gate_ok (start now) now 0 [].
Proof.
  assert (∀ p s, induced p s [] = 0) as Hz by done.
  split; cbn [start peer_error_budget routing_error_rate_limiter errors PeerErrorBudget.new]; try done.
  - split; [done|done|done|]. intros p. split; [done|done| |].
    + by intros c ?%elem_of_nil.
    + intros s. rewrite Hz. change (milli_tokens (bucket_of (new now) p now)) with (PEER_ERROR_BURST * MILLI).
      pose proof (Z.mul_nonneg_nonneg PEER_ERROR_RATE_PER_SEC (Z.max 0 (now - s + 1000000)) ltac:(done) ltac:(lia)).
      change (bucket_of _ p now) with (mkBucket (PEER_ERROR_BURST * MILLI) now). cbn [last_refill].
      change (capacity (new now)) with (PEER_ERROR_BURST * MILLI).
      change (milli_per_ms (new now)) with PEER_ERROR_RATE_PER_SEC. lia.
  - intros p s e Hse. unfold induced_within, PEER_ERROR_BURST, PEER_ERROR_RATE_PER_SEC. cbn [filter list_filter length]. lia.
  - intros _. split; cbn; [intros i j ?????|by intros ?? ?%elem_of_nil|done|done]. by rewrite lookup_nil in *.
Qed.

End emission.

(** ** Properties *)

(** C37: no link peer can make the node flood. Over any history of undeliverable
    datagrams on a clock that does not run backwards, the errors the node emits
    because of one peer in any window are at most the burst of 50 plus 20 per
    second of the window and of the millisecond [refill] rounds to, whatever
    sources and destinations the datagrams claim and although the buckets of idle
    peers are swept away. Every call is accounted for: it was emitted, or counted
    under exactly one of the two reasons to suppress it. And as long as the
    destination limiter never reported being full, errors about one destination
    are at least 100 ms apart. *)
Theorem error_emission_bounded now calls :
  Emission.clocked now calls → Z.of_nat (length calls) < 2 ^ 64 →
  let '(gate, log) := Emission.run (Emission.start now) calls in
  let e := Emission.errors gate in
  (∀ p s e, s ≤ e → 1000000000 * Emission.induced_within p s e log
     ≤ 1000000000 * PeerErrorBudget.PEER_ERROR_BURST
       + PeerErrorBudget.PEER_ERROR_RATE_PER_SEC * (e - s + 1000000))
  ∧ Z.of_nat (length calls) = Z.of_nat (length log) + Emission.emit_over_peer_budget e
      + Emission.emit_over_dest_interval e
  ∧ (Emission.emit_limiter_at_capacity e = 0 → ∀ i j c c', (i < j)%nat →
       log !! i = Some c' → log !! j = Some c → Emission.c_dest c = Emission.c_dest c' →
       100 * 1000000 ≤ Emission.c_now c' - Emission.c_now c).
Proof.
  intros Hcl Hlen. unfold Emission.run.
  pose proof (gate_run_ok calls _ _ _ _ (start_ok now) Hcl Hlen) as Hrun.
  destruct (foldl _ _ _) as [gate log]. destruct Hrun as [now' [_ (_ & _ & Hint) Hw Hn _ Hd]].
  split; [exact Hw|]. split; [cbn in Hn; lia|]. intros Hz i j c c' Hij Hi Hj Heq.
  destruct (Hd Hz) as [Hs _ _ _]. rewrite Hint in Hs.
  apply (Hs i j (Emission.c_dest c) _ _ Hij); rewrite list_lookup_fmap; [rewrite Hi, Heq|rewrite Hj]; done.
Qed.

Lemma error_emission_bounded_witness :
  let calls := [Emission.mkCall 7 1 0; Emission.mkCall 7 1 50000000; Emission.mkCall 7 2 60000000;
                Emission.mkCall 7 1 200000000] in
  (length (Emission.run (Emission.start 0) calls).2 = 3)%nat
  ∧ 1000000000 * Emission.induced_within 7 0 200000000 (Emission.run (Emission.start 0) calls).2
    ≤ 1000000000 * 50 + 20 * (200000000 - 0 + 1000000).
Proof.
  intros calls. split; [by vm_compute|].
  pose proof (error_emission_bounded 0 calls ltac:(cbn; lia) ltac:(done)) as H.
  destruct (Emission.run (Emission.start 0) calls) as [gate log]. destruct H as [H _]. by apply H.
Defined.

Section handshakes.
Import TokenBucket HandshakeLimiter.

Lemma start_handshake_shape self class now :
  let '(self', r) := start_handshake self class now in
  max_pending self' = max_pending self
  ∧ match r with
    | Ok _ => pending self < max_pending self ∧ pending self' = wrap_u64 (pending self + 1)
    | Err PendingLimit => max_pending self ≤ pending self ∧ self' = self
    | Err RateLimit => pending self < max_pending self ∧ pending self' = pending self
    | Panic => False
    end
  ∧ ∀ other, other ≠ class → bucket_for self' other = bucket_for self other.
Proof.
  unfold start_handshake. destruct (Z.leb_spec (max_pending self) (pending self)); [done|].
  destruct (try_acquire _ _) as [b []]; destruct class; (split; [done|]); (split; [done|]);
    intros [] ?; done.
Qed.

Lemma slots_ok es self live : is_u64 (max_pending self) → pending self = Z.of_nat live →
  pending self ≤ max_pending self →
  let '(self', live') := foldl HandshakeLimiter.step (self, live) es in
  max_pending self' = max_pending self ∧ pending self' = Z.of_nat live' ∧ pending self' ≤ max_pending self'.
Proof.
  revert self live. induction es as [|e es IH]; intros self live Hu Hp Hle; cbn [foldl]; [done|].
  assert (let '(s1, l1) := HandshakeLimiter.step (self, live) e in
    max_pending s1 = max_pending self ∧ pending s1 = Z.of_nat l1 ∧ pending s1 ≤ max_pending s1) as Hstep.
  { destruct e as [class now|]; cbn [HandshakeLimiter.step fst snd].
    - pose proof (start_handshake_shape self class now) as Hs.
      destruct (start_handshake self class now) as [s1 r]. destruct Hs as (Hm & Hr & _).
      destruct r as [[]|[]|]; cbn [is_ok]; [| | |done].
      + destruct Hr as [Hlt Hn]. unfold wrap_u64 in Hn. rewrite Z.mod_small in Hn by mlia. lia.
      + destruct Hr as [? ->]. done.
      + destruct Hr as [? Hn]. rewrite Hm, Hn. lia.
    - destruct live as [|live]; [done|]. unfold drop_guard. destruct (Z.leb_spec 1 (pending self)); [|lia].
      cbn. lia. }
  destruct (HandshakeLimiter.step (self, live) e) as [s1 l1]. destruct Hstep as (Hm & Hn & Hl).
  specialize (IH s1 l1). rewrite Hm in *. by apply IH.
Qed.

End handshakes.

(** The ceiling of handshakes in flight is exact. However handshakes begin and
    finish, the counter equals the number of guards alive and never exceeds the
    configured ceiling; the next message is refused for the ceiling exactly when
    every slot is taken, and then no token is spent; and a message of one class
    never touches the token bucket of the other, so that a flood from strangers
    leaves the rekey capacity of established links as it was. *)
Theorem handshake_slots_exact b est max es class now :
  is_u64 max →
  let '(limiter, live) := HandshakeLimiter.run (HandshakeLimiter.with_params b est max) es in
  let '(limiter', r) := HandshakeLimiter.start_handshake limiter class now in
  HandshakeLimiter.pending limiter = Z.of_nat live
  ∧ Z.of_nat live ≤ max
  ∧ (r = Err PendingLimit ↔ Z.of_nat live = max)
  ∧ (r = Err PendingLimit → limiter' = limiter)
  ∧ (r = Ok () → HandshakeLimiter.pending limiter' = Z.of_nat (S live))
  ∧ ∀ other, other ≠ class →
      HandshakeLimiter.bucket_for limiter' other = HandshakeLimiter.bucket_for limiter other.
Proof.
  intros Hmax. unfold HandshakeLimiter.run.
  pose proof (slots_ok es (HandshakeLimiter.with_params b est max) O Hmax eq_refl) as Hs.
  destruct (foldl _ _ _) as [limiter live]. destruct Hs as (Hm & Hp & Hle); [apply Hmax|].
  cbn in Hm. rewrite Hm in Hle.
  pose proof (start_handshake_shape limiter class now) as Hsh.
  destruct (HandshakeLimiter.start_handshake limiter class now) as [l' r].
  destruct Hsh as (_ & Hr & Hother). rewrite Hm, Hp in Hr. split; [done|]. split; [lia|].
  destruct r as [[]|[]|]; [| | |done].
  - destruct Hr as [Hlt Hn]. split; [split; [done|lia]|]. split; [done|]. split; [|done].
    intros _. rewrite Hn. unfold wrap_u64. rewrite Z.mod_small by mlia. lia.
  - destruct Hr as [Hge ->]. split; [split; [lia|done]|]. done.
  - destruct Hr as [Hlt Hn]. split; [split; [done|lia]|]. done.
Qed.

Lemma handshake_slots_exact_witness :
  let '(limiter, live) := HandshakeLimiter.run
    (HandshakeLimiter.with_params (TokenBucket.new 0) (TokenBucket.new 0) 2)
    [HandshakeLimiter.Begin Stranger 0; HandshakeLimiter.Begin Stranger 0;
     HandshakeLimiter.Begin Stranger 0; HandshakeLimiter.Finish; HandshakeLimiter.Begin EstablishedLink 0] in
  live = 2%nat ∧ HandshakeLimiter.pending limiter = 2.
Proof.
  pose proof (handshake_slots_exact (TokenBucket.new 0) (TokenBucket.new 0) 2
    [HandshakeLimiter.Begin Stranger 0; HandshakeLimiter.Begin Stranger 0;
     HandshakeLimiter.Begin Stranger 0; HandshakeLimiter.Finish; HandshakeLimiter.Begin EstablishedLink 0]
    Stranger 0 ltac:(mlia)) as H.
  assert ((HandshakeLimiter.run (HandshakeLimiter.with_params (TokenBucket.new 0) (TokenBucket.new 0) 2)
    [HandshakeLimiter.Begin Stranger 0; HandshakeLimiter.Begin Stranger 0;
     HandshakeLimiter.Begin Stranger 0; HandshakeLimiter.Finish; HandshakeLimiter.Begin EstablishedLink 0]).2
    = 2%nat) as Hl by (by vm_compute).
  destruct (HandshakeLimiter.run _ _) as [limiter live]. cbn [snd] in Hl. subst live. split; [done|].
  destruct (HandshakeLimiter.start_handshake _ _ _) as [l' r]. by destruct H as [H _].
Defined.

(** What a session setup of one peer does to the others: nothing, except that
    buckets idle for five minutes may be forgotten. *)
Lemma setup_isolated self p q class now : q ≠ p →
  let '(self', admitted) := SessionSetup.try_admit self p class now in
  match SessionSetup.buckets self !! q with
  | Some b => SessionSetup.buckets self' !! q = Some b
      ∨ (admitted = true ∧ SessionSetup.SETUP_BUCKET_IDLE ≤ sat_sub now (SessionSetup.seen b)
         ∧ SessionSetup.buckets self' !! q = None)
  | None => SessionSetup.buckets self' !! q = None
  end.
Proof.
  intros Hq. unfold SessionSetup.try_admit.
  set (r := match class with Stranger => _ | EstablishedLink => _ end). destruct r as [b ok].
  cbn [SessionSetup.buckets]. destruct ok.
  - rewrite map_lookup_filter, lookup_insert_ne by done.
    destruct (SessionSetup.buckets self !! q) as [b'|]; cbn; [|done].
    case_guard; cbn; [by left|]. right. split; [done|]. split; [lia|done].
  - rewrite lookup_insert_ne by done. destruct (SessionSetup.buckets self !! q); auto.
Qed.
