(* ===== verification/NodeTables.v ===== *)
(** * The node's tables
    ([crates/fips-core/src/node/identity_cache.rs], [node/path_mtu.rs],
    [node/link_registry.rs], [node/session_registry.rs],
    [node/support_state.rs])

    Small stores the handlers share. [IdentityCache] maps the 15-byte prefix of
    an address to the public key it is derived from. [PathMtuStore] is the public
    per-destination clamp with its private provenance. [LinkRegistry] holds the
    links and the reverse index from transport addresses. [PendingOutbound]
    matches a handshake reply to the attempt it answers. [DirectDegradation]
    decides when a direct path that was given up has proved itself again. *)

From S2P Require Import Prelude Bytes NodeAddr Upper.

Local Open Scope Z_scope.

(** ** Identities by address prefix *)

Section identity_cache.

(** The key type of the [secp256k1] crate, its x-only serialization, SHA-256 and
    the bech32 encoding of an x-only key. *)
Context {PublicKey : Type} `{EqDecision PublicKey}.
Context (x_only : PublicKey → list Z) (sha256 : list Z → list Z) {Npub : Type} (encode_npub : list Z → Npub).

Record IdentityCacheEntry := mkIdentity {
  node_addr : NodeAddr;
  pubkey : PublicKey;
  npub : Npub;
  last_seen_ms : Z;
  explicit_target : bool
}.

(** [IdentityCache] has the one field [entries]. *)
Local Abbreviation IdentityCache := (gmap (list Z) IdentityCacheEntry).

Definition prefix_for (a : NodeAddr) : list Z := take 15 (NodeAddrOps.as_bytes a).

Definition derive (k : PublicKey) : NodeAddr := NodeAddrOps.from_pubkey sha256 (x_only k).

Definition evict_lru (ord : MapOrder (list Z) IdentityCacheEntry) (self : IdentityCache)
    (max_entries : Z) : IdentityCache :=
  if max_entries <? Z.of_nat (size self) then
    match min_by_key (λ ke, last_seen_ms ke.2) (map_iter ord self) with
    | Some (oldest_key, _) => delete oldest_key self
    | None => self
    end
  else self.

Definition touch (e : IdentityCacheEntry) (k : PublicKey) (now_ms : Z) (explicit : bool)
    : IdentityCacheEntry :=
  mkIdentity (node_addr e) k (npub e) now_ms (explicit_target e || explicit).

Definition register_inner (ord : MapOrder (list Z) IdentityCacheEntry) (self : IdentityCache)
    (a : NodeAddr) (k : PublicKey) (now_ms max_entries : Z) (explicit : bool) : IdentityCache * bool :=
  let prefix := prefix_for a in
  let fresh :=
    let derived_node_addr := derive k in
    if negb (derived_node_addr =? a) then (self, false)
    else
      match self !! prefix with
      | Some entry =>
          if node_addr entry =? a then (<[prefix := touch entry k now_ms explicit]> self, true)
          else (evict_lru ord
                  (<[prefix := mkIdentity a k (encode_npub (x_only k)) now_ms explicit]> self)
                  max_entries, true)
      | None =>
          (evict_lru ord (<[prefix := mkIdentity a k (encode_npub (x_only k)) now_ms explicit]> self)
             max_entries, true)
      end in
  match self !! prefix with
  | Some entry =>
      if (node_addr entry =? a) && bool_decide (pubkey entry = k)
      then (<[prefix := touch entry (pubkey entry) now_ms explicit]> self, true)
      else fresh
  | None => fresh
  end.

Definition register (ord : MapOrder (list Z) IdentityCacheEntry) (self : IdentityCache) (a : NodeAddr)
    (k : PublicKey) (now_ms max_entries : Z) : IdentityCache * bool :=
  register_inner ord self a k now_ms max_entries false.

Definition register_explicit_target (ord : MapOrder (list Z) IdentityCacheEntry) (self : IdentityCache)
    (a : NodeAddr) (k : PublicKey) (now_ms max_entries : Z) : IdentityCache * bool :=
  register_inner ord self a k now_ms max_entries true.

Definition lookup_by_prefix (self : IdentityCache) (prefix : list Z) (now_ms : Z)
    : IdentityCache * option (NodeAddr * PublicKey) :=
  match self !! prefix with
  | Some e =>
      (<[prefix := mkIdentity (node_addr e) (pubkey e) (npub e) now_ms (explicit_target e)]> self,
       Some (node_addr e, pubkey e))
  | None => (self, None)
  end.

Definition has_prefix_for (self : IdentityCache) (a : NodeAddr) : bool :=
  bool_decide (is_Some (self !! prefix_for a)).

Definition is_explicit_target (self : IdentityCache) (a : NodeAddr) : bool :=
  match self !! prefix_for a with
  | Some e => (node_addr e =? a) && explicit_target e
  | None => false
  end.

Definition pubkey_for_node_addr (self : IdentityCache) (a : NodeAddr) : option PublicKey :=
  match self !! prefix_for a with
  | Some e => if node_addr e =? a then Some (pubkey e) else None
  | None => None
  end.

Definition npub_for_node_addr (self : IdentityCache) (a : NodeAddr) : option Npub :=
  match self !! prefix_for a with
  | Some e => if node_addr e =? a then Some (npub e) else None
  | None => None
  end.

(** A history of the cache: registrations and lookups. *)
Inductive IdentityOp :=
| OpRegister (a : NodeAddr) (k : PublicKey) (now_ms : Z) (explicit : bool)
| OpLookup (prefix : list Z) (now_ms : Z).

Definition identity_step (ord : MapOrder (list Z) IdentityCacheEntry) (max_entries : Z)
    (self : IdentityCache) (op : IdentityOp) : IdentityCache :=
  match op with
  | OpRegister a k now_ms explicit => (register_inner ord self a k now_ms max_entries explicit).1
  | OpLookup prefix now_ms => (lookup_by_prefix self prefix now_ms).1
  end.

Definition identity_run (ord : MapOrder (list Z) IdentityCacheEntry) (max_entries : Z) (ops : list IdentityOp) : IdentityCache :=
  foldl (identity_step ord max_entries) ∅ ops.

(** An entry is stored under its own prefix, and its address, key and encoded key
    belong together. *)
Definition identity_ok (prefix : list Z) (e : IdentityCacheEntry) : Prop :=
  prefix = prefix_for (node_addr e) ∧ derive (pubkey e) = node_addr e
  ∧ ((∀ k k', derive k = derive k' → x_only k = x_only k') → npub e = encode_npub (x_only (pubkey e))).

Lemma evict_lru_sub ord self max_entries : evict_lru ord self max_entries ⊆ self.
Proof. unfold evict_lru. repeat case_match; [|done|done]. apply delete_subseteq. Qed.

Lemma evict_lru_size ord self max_entries : 0 ≤ max_entries → Z.of_nat (size self) ≤ max_entries + 1 →
  Z.of_nat (size (evict_lru ord self max_entries)) ≤ max_entries.
Proof.
  intros H0 Hsz. unfold evict_lru. destruct (Z.ltb_spec max_entries (Z.of_nat (size self))); [|done].
  pose proof (min_by_key_spec (λ ke, last_seen_ms ke.2) (map_iter ord self)) as Hmin.
  destruct (min_by_key _ _) as [[k e]|].
  - destruct Hmin as [Hin _]. apply elem_of_map_iter in Hin.
    rewrite map_size_delete_Some by (by eexists). lia.
  - apply map_iter_nil in Hmin. subst self. by rewrite map_size_empty in *.
Qed.

(** An entry newer than every other one survives the eviction. *)
Lemma evict_lru_keeps ord self max_entries k e : self !! k = Some e →
  Z.of_nat (size self) ≤ max_entries
  ∨ (2 ≤ size self)%nat ∧ (∀ k' e', k' ≠ k → self !! k' = Some e' → last_seen_ms e' < last_seen_ms e) →
  evict_lru ord self max_entries !! k = Some e.
Proof.
  intros Hk Hor. unfold evict_lru. destruct (Z.ltb_spec max_entries (Z.of_nat (size self))); [|done].
  destruct Hor as [?|[H2 Hnew]]; [lia|].
  pose proof (min_by_key_spec (λ ke, last_seen_ms ke.2) (map_iter ord self)) as Hmin.
  destruct (min_by_key _ _) as [[k' e']|]; [|done]. destruct Hmin as [Hin Hle].
  destruct (decide (k' = k)) as [->|Hne]; [|by rewrite lookup_delete_ne].
  exfalso. assert (∃ k2 e2, k2 ≠ k ∧ self !! k2 = Some e2) as (k2 & e2 & Hk2 & He2).
  { destruct (decide (delete k self = ∅)) as [He|(k2 & e2 & Hl)%map_choose].
    - assert (size (delete k self) = pred (size self)) as Hs by (by rewrite map_size_delete_Some).
      rewrite He, map_size_empty in Hs. lia.
    - apply lookup_delete_Some in Hl as [? ?]. eauto. }
  apply elem_of_map_iter in Hin. assert (e' = e) as -> by congruence.
  specialize (Hnew _ _ Hk2 He2). specialize (Hle (k2, e2) ltac:(by apply elem_of_map_iter)). cbn in Hle. lia.
Qed.

Record cache_ok (self : IdentityCache) (max_entries : Z) : Prop := {
  cache_entries : map_Forall identity_ok self;
  cache_size : Z.of_nat (size self) ≤ max_entries
}.

Lemma touch_ok self a e k now_ms explicit max_entries : cache_ok self max_entries →
  self !! prefix_for a = Some e → node_addr e = a → derive k = a →
  cache_ok (<[prefix_for a := touch e k now_ms explicit]> self) max_entries
  ∧ pubkey_for_node_addr (<[prefix_for a := touch e k now_ms explicit]> self) a = Some k.
Proof.
  intros [Hok Hsz] He Ha Hd. destruct (Hok _ _ He) as (Hp & Hder & Hn). split.
  - split; [|rewrite map_size_insert_Some by (by eexists); done]. apply map_Forall_insert_2; [|done].
    split; [exact Hp|]. split; [cbn; congruence|]. cbn. intros Hinj. rewrite (Hn Hinj). f_equal. apply Hinj.
    congruence.
  - unfold pubkey_for_node_addr. rewrite lookup_insert_eq. cbn. by rewrite Ha, Z.eqb_refl.
Qed.

Lemma insert_new_ok ord self a k now_ms explicit max_entries : 0 ≤ max_entries →
  cache_ok self max_entries → derive k = a →
  let new := mkIdentity a k (encode_npub (x_only k)) now_ms explicit in
  let self' := evict_lru ord (<[prefix_for a := new]> self) max_entries in
  cache_ok self' max_entries
  ∧ (1 ≤ max_entries → (∀ p e, self !! p = Some e → last_seen_ms e < now_ms) →
       pubkey_for_node_addr self' a = Some k).
Proof.
  intros Hmax [Hok Hsz] Hd new self'.
  assert (Z.of_nat (size (<[prefix_for a := new]> self)) ≤ max_entries + 1) as Hs1.
  { destruct (self !! prefix_for a) as [e0|] eqn:He0.
    - rewrite map_size_insert_Some by (by eexists). lia.
    - rewrite map_size_insert_None by done. lia. }
  split; [split; [|by apply evict_lru_size]|].
  - intros p e Hp. apply (lookup_weaken _ (<[prefix_for a := new]> self)) in Hp; [|apply evict_lru_sub].
    revert p e Hp. by apply map_Forall_insert_2.
  - intros H1 Hold. unfold pubkey_for_node_addr, self'. rewrite (evict_lru_keeps _ _ _ _ new);
      [cbn; by rewrite Z.eqb_refl|apply lookup_insert_eq|].
    destruct (Z.le_gt_cases (Z.of_nat (size (<[prefix_for a := new]> self))) max_entries) as [|Hgt];
      [by left|right]. split; [lia|].
    intros k' e' Hne He'. rewrite lookup_insert_ne in He' by done. by eapply Hold.
Qed.

Lemma register_ok ord self a k now_ms max_entries explicit : 0 ≤ max_entries → cache_ok self max_entries →
  let '(self', ok) := register_inner ord self a k now_ms max_entries explicit in
  cache_ok self' max_entries
  ∧ (ok = true ↔ derive k = a)
  ∧ (ok = false → self' = self)
  ∧ (ok = true → 1 ≤ max_entries → (∀ p e, self !! p = Some e → last_seen_ms e < now_ms) →
       pubkey_for_node_addr self' a = Some k).
Proof.
  intros Hmax Hok. unfold register_inner.
  pose proof (insert_new_ok ord self a k now_ms explicit max_entries Hmax Hok) as Hnew.
  destruct (self !! prefix_for a) as [e|] eqn:He.
  - pose proof (touch_ok self a e k now_ms explicit max_entries Hok He) as Htouch.
    destruct (Hok.(cache_entries _ _) _ _ He) as (_ & Hder & _).
    destruct (Z.eqb_spec (node_addr e) a) as [Ha|Ha]; cbn [andb].
    + case_bool_decide as Hk.
      * subst k. destruct Htouch; [done|congruence|]. split; [done|]. split; [|done]. split; [congruence|done].
      * destruct (Z.eqb_spec (derive k) a) as [Hd|Hd]; cbn [negb]; [|done]. by destruct Htouch.
    + destruct (Z.eqb_spec (derive k) a) as [Hd|Hd]; cbn [negb]; [|done]. by destruct (Hnew Hd).
  - destruct (Z.eqb_spec (derive k) a) as [Hd|Hd]; cbn [negb]; [|done]. by destruct (Hnew Hd).
Qed.

Lemma lookup_ok self prefix now_ms max_entries : cache_ok self max_entries →
  cache_ok (lookup_by_prefix self prefix now_ms).1 max_entries.
Proof.
  intros [Hok Hsz]. unfold lookup_by_prefix. destruct (self !! prefix) as [e|] eqn:He; [|done].
  split; cbn; [|by rewrite map_size_insert_Some by (by eexists)].
  apply map_Forall_insert_2; [|done]. apply (Hok _ _ He).
Qed.

Lemma identity_run_ok ord max_entries ops : 0 ≤ max_entries →
  cache_ok (identity_run ord max_entries ops) max_entries.
Proof.
  intros Hmax. unfold identity_run. assert (cache_ok ∅ max_entries) as H0 by (split; [done|by rewrite map_size_empty]).
  revert H0. generalize (∅ : IdentityCache) as self. induction ops as [|op ops IH]; intros self Hok; [done|].
  cbn [foldl]. apply IH. destruct op as [a k now_ms explicit|prefix now_ms]; cbn [identity_step].
  - pose proof (register_ok ord self a k now_ms max_entries explicit Hmax Hok) as Hr.
    destruct (register_inner _ _ _ _ _ _ _). apply Hr.
  - by apply lookup_ok.
Qed.

(** The identity cache never lies. After any history of registrations and
    lookups it holds at most [max_entries] identities; the key it returns for an
    address hashes to that address and the encoded key it returns is that key's,
    so nobody can bind their key to another node's address; a registration
    succeeds exactly when the key hashes to the address, leaves the cache alone
    otherwise, and is visible afterwards unless entries at least as recent crowd
    it out. *)
Theorem identity_cache_sound ord max_entries ops a k now_ms explicit :
  0 ≤ max_entries → (∀ k k', derive k = derive k' → x_only k = x_only k') →
  let cache := identity_run ord max_entries ops in
  let '(cache', ok) := register_inner ord cache a k now_ms max_entries explicit in
  Z.of_nat (size cache) ≤ max_entries
  ∧ (∀ a' k', pubkey_for_node_addr cache a' = Some k' →
       derive k' = a' ∧ npub_for_node_addr cache a' = Some (encode_npub (x_only k')))
  ∧ (ok = true ↔ derive k = a) ∧ (ok = false → cache' = cache)
  ∧ (ok = true → 1 ≤ max_entries → (∀ p e, cache !! p = Some e → last_seen_ms e < now_ms) →
       pubkey_for_node_addr cache' a = Some k).
Proof.
  intros Hmax Hinj cache. pose proof (identity_run_ok ord max_entries ops Hmax) as Hok. fold cache in Hok.
  pose proof (register_ok ord cache a k now_ms max_entries explicit Hmax Hok) as Hr.
  destruct (register_inner _ _ _ _ _ _ _) as [cache' ok]. destruct Hr as (_ & Hr). destruct Hok as [He Hsz].
  split; [done|]. split; [|exact Hr]. intros a' k'. unfold pubkey_for_node_addr, npub_for_node_addr.
  destruct (cache !! prefix_for a') as [e|] eqn:Hl; [|done].
  destruct (Z.eqb_spec (node_addr e) a') as [<-|]; [|done]. intros [= <-].
  destruct (He _ _ Hl) as (_ & Hd & Hn). split; [done|]. by rewrite (Hn Hinj).
Qed.

End identity_cache.

Section identity_witness.

Definition toy_x_only (k : bool) : list Z := [if k then 1 else 0].
Definition toy_sha256 (l : list Z) : list Z := l ++ replicate 31 0.

Lemma identity_cache_sound_witness :
  let a := derive toy_x_only toy_sha256 true in
  let cache := identity_run toy_x_only toy_sha256 id canonical_order 2 [OpRegister a true 5 false] in
  pubkey_for_node_addr cache a = Some true
  ∧ (register_inner toy_x_only toy_sha256 id canonical_order cache a false 6 2 true).2 = false
  ∧ npub_for_node_addr cache a = Some [1].
Proof.
  intros a cache.
  assert (∀ k k', derive toy_x_only toy_sha256 k = derive toy_x_only toy_sha256 k' →
    toy_x_only k = toy_x_only k') as Hinj by (intros [] [] H; (reflexivity || (vm_compute in H; discriminate H))).
  pose proof (identity_cache_sound toy_x_only toy_sha256 id canonical_order 2 [OpRegister a true 5 false]
    a false 6 true ltac:(lia) Hinj) as H.
  assert (pubkey_for_node_addr cache a = Some true) as Hk by (by vm_compute).
  split; [done|]. split; [by vm_compute|]. fold cache in H.
  cbv zeta in H. revert H.
  destruct (register_inner toy_x_only toy_sha256 id canonical_order cache a false 6 2 true) as [c ok].
  intros (_ & H & _). apply (H a true Hk).
Defined.

End identity_witness.

(** ** The path-MTU store *)

Module PathMtuStore.

Record PathMtuProvenance := mkProvenance {
  p_learned_ms : option Z;
  p_seeded_by : option Z
}.

(** [#[derive(Default)]]. *)
Definition default_provenance : PathMtuProvenance := mkProvenance None None.

Record PathMtuEntry := mkEntry {
  mtu : Z;
  learned_ms : option Z;
  seeded_by : option Z
}.

Definition held (mtu : Z) (seeded_by : option Z) : PathMtuEntry := mkEntry mtu None seeded_by.
Definition learned (mtu learned_ms : Z) (seeded_by : option Z) : PathMtuEntry :=
  mkEntry mtu (Some learned_ms) seeded_by.
Definition provenance (self : PathMtuEntry) : PathMtuProvenance :=
  mkProvenance (learned_ms self) (seeded_by self).

Inductive PathMtuUpdate :=
| Unavailable
| Kept (current : PathMtuEntry)
| Updated (prior : option PathMtuEntry) (current : PathMtuEntry) (relinked : bool).

(** The two fields of [Node], the lookup behind its lock, which may be poisoned.
    The keys are the bytes of a [FipsAddress]; a transport is its number. *)
Record Store := mkStore {
  path_mtu_lookup : gmap (list Z) Z;
  poisoned : bool;
  path_mtu_provenance : gmap (list Z) PathMtuProvenance
}.

Definition release_path_mtu (self : Store) (addr : list Z) : Store * bool :=
  if poisoned self then (self, false)
  else
    (mkStore (delete addr (path_mtu_lookup self)) (poisoned self)
       (delete addr (path_mtu_provenance self)),
     bool_decide (is_Some (path_mtu_lookup self !! addr))).

(** The entry the three recording operations start from. *)
Definition prior_entry (self : Store) (addr : list Z) : option PathMtuEntry :=
  let p := default default_provenance (path_mtu_provenance self !! addr) in
  (λ mtu, mkEntry mtu (p_learned_ms p) (p_seeded_by p)) <$> path_mtu_lookup self !! addr.

(** [lookup.insert] and [path_mtu_provenance.insert] of the same entry. *)
Definition write_entry (self : Store) (addr : list Z) (current : PathMtuEntry) : Store :=
  mkStore (<[addr := mtu current]> (path_mtu_lookup self)) (poisoned self)
    (<[addr := provenance current]> (path_mtu_provenance self)).

Definition record_discovery_path_mtu (self : Store) (addr : list Z) (m learned_at : Z)
    : Store * PathMtuUpdate :=
  if poisoned self then (self, Unavailable)
  else
    let prior := prior_entry self addr in
    let write :=
      let current := learned m learned_at (prior ≫= seeded_by) in
      (write_entry self addr current, Updated prior current false) in
    match prior with
    | Some current => if mtu current <=? m then (self, Kept current) else write
    | None => write
    end.

Definition record_held_path_mtu (self : Store) (addr : list Z) (m : Z) : Store * PathMtuUpdate :=
  if poisoned self then (self, Unavailable)
  else
    let prior := prior_entry self addr in
    let write :=
      let current := held m (prior ≫= seeded_by) in
      (write_entry self addr current, Updated prior current false) in
    match prior with
    | Some current => if mtu current <=? m then (self, Kept current) else write
    | None => write
    end.

Definition record_seeded_path_mtu (self : Store) (addr : list Z) (m transport_id : Z)
    : Store * PathMtuUpdate :=
  if poisoned self then (self, Unavailable)
  else
    let prior := prior_entry self addr in
    let prior_seed := prior ≫= seeded_by in
    let relinked :=
      match prior_seed with Some prior => negb (prior =? transport_id) | None => false end in
    let write :=
      let current := held m (Some transport_id) in
      (write_entry self addr current, Updated prior current relinked) in
    match prior with
    | Some existing =>
        if negb relinked && (mtu existing <=? m) then
          let current := mkEntry (mtu existing) (learned_ms existing) (Some transport_id) in
          (mkStore (path_mtu_lookup self) (poisoned self)
             (<[addr := provenance current]> (path_mtu_provenance self)), Kept current)
        else write
    | None => write
    end.

Definition expired (now_ms ttl_ms : Z) (p : PathMtuProvenance) : bool :=
  match p_learned_ms p with
  | Some learned_ms => ttl_ms <=? sat_sub now_ms learned_ms
  | None => false
  end.

(** The loops over the expired addresses: each is removed from the lookup, and
    the provenance of those the lookup had. *)
Definition remove_expired_discovery_path_mtus (ord : MapOrder (list Z) PathMtuProvenance) (self : Store)
    (now_ms ttl_ms : Z) : Store * list (list Z) :=
  let expired :=
    (filter (λ ap, expired now_ms ttl_ms ap.2) (map_iter ord (path_mtu_provenance self))).*1 in
  match expired with
  | [] => (self, [])
  | _ =>
      if poisoned self then (self, [])
      else
        let '(lookup, removed) :=
          foldl (λ acc addr,
            (delete addr acc.1,
             if bool_decide (is_Some (acc.1 !! addr)) then acc.2 ++ [addr] else acc.2))
            (path_mtu_lookup self, []) expired in
        (mkStore lookup (poisoned self)
           (foldl (λ prov addr, delete addr prov) (path_mtu_provenance self) removed),
         removed)
  end.

(** A history of the store. *)
Inductive MtuOp :=
| Release (addr : list Z)
| Discovery (addr : list Z) (m learned_at : Z)
| Held (addr : list Z) (m : Z)
| Seeded (addr : list Z) (m transport_id : Z)
| Expire (now_ms ttl_ms : Z).

Definition step (ord : MapOrder (list Z) PathMtuProvenance) (self : Store) (op : MtuOp) : Store :=
  match op with
  | Release addr => (release_path_mtu self addr).1
  | Discovery addr m learned_at => (record_discovery_path_mtu self addr m learned_at).1
  | Held addr m => (record_held_path_mtu self addr m).1
  | Seeded addr m transport_id => (record_seeded_path_mtu self addr m transport_id).1
  | Expire now_ms ttl_ms => (remove_expired_discovery_path_mtus ord self now_ms ttl_ms).1
  end.

Definition empty : Store := mkStore ∅ false ∅.

Definition run (ord : MapOrder (list Z) PathMtuProvenance) (ops : list MtuOp) : Store :=
  foldl (step ord) empty ops.

End PathMtuStore.

(** What the two maps stand for: one map of entries. *)
Module PathMtuSpec.
Import PathMtuStore.

Definition tighten (m : gmap (list Z) PathMtuEntry) (addr : list Z) (x : Z) (new : option Z → PathMtuEntry)
    : gmap (list Z) PathMtuEntry :=
  match m !! addr with
  | Some c => if mtu c <=? x then m else <[addr := new (seeded_by c)]> m
  | None => <[addr := new None]> m
  end.

Definition step (m : gmap (list Z) PathMtuEntry) (op : MtuOp) : gmap (list Z) PathMtuEntry :=
  match op with
  | Release addr => delete addr m
  | Discovery addr x t => tighten m addr x (learned x t)
  | Held addr x => tighten m addr x (held x)
  | Seeded addr x tr =>
      match m !! addr with
      | Some (mkEntry x0 t0 tr0) =>
          if bool_decide (tr0 = None ∨ tr0 = Some tr) && (x0 <=? x)
          then <[addr := mkEntry x0 t0 (Some tr)]> m
          else <[addr := held x (Some tr)]> m
      | None => <[addr := held x (Some tr)]> m
      end
  | Expire now_ms ttl_ms => filter (λ ae, expired now_ms ttl_ms (provenance ae.2) = false) m
  end.

Definition run (ops : list MtuOp) : gmap (list Z) PathMtuEntry := foldl step ∅ ops.

End PathMtuSpec.

Section path_mtu.
Import PathMtuStore.

Record store_rel (s : Store) (m : gmap (list Z) PathMtuEntry) : Prop := {
  rel_open : poisoned s = false;
  rel_lookup : ∀ a, path_mtu_lookup s !! a = mtu <$> m !! a;
  rel_prov : ∀ a, path_mtu_provenance s !! a = provenance <$> m !! a
}.

Lemma prior_rel s m a : store_rel s m → prior_entry s a = m !! a.
Proof.
  intros [_ Hl Hp]. unfold prior_entry. rewrite Hl, Hp. by destruct (m !! a) as [[]|].
Qed.

Lemma write_rel s m a e : store_rel s m → store_rel (write_entry s a e) (<[a := e]> m).
Proof.
  intros [Ho Hl Hp]. split; [done| |]; intros b; cbn [write_entry path_mtu_lookup path_mtu_provenance];
    (destruct (decide (b = a)) as [->|]; [by rewrite !lookup_insert_eq|by rewrite !lookup_insert_ne]).
Qed.

Lemma delete_fold {V} (l : list (list Z)) (m : gmap (list Z) V) a :
  foldl (λ m a, delete a m) m l !! a = if decide (a ∈ l) then None else m !! a.
Proof.
  revert m. induction l as [|b l IH]; intros m; cbn [foldl].
  { destruct (decide _) as [?%elem_of_nil|]; done. }
  rewrite IH. destruct (decide (a ∈ l)) as [Hin|Hout]; [by rewrite decide_True by (by right)|].
  destruct (decide (a = b)) as [->|Hne].
  - rewrite lookup_delete_eq, decide_True; [done|left].
  - rewrite lookup_delete_ne, decide_False; [done| |done]. by intros [?|?]%elem_of_cons.
Qed.

Lemma remove_fold (l : list (list Z)) (m : gmap (list Z) Z) acc : NoDup l → (∀ a, a ∈ l → is_Some (m !! a)) →
  foldl (λ acc addr,
            (delete addr acc.1,
             if bool_decide (is_Some (acc.1 !! addr)) then acc.2 ++ [addr] else acc.2)) (m, acc) l
  = (foldl (λ m a, delete a m) m l, acc ++ l).
Proof.
  revert m acc. induction l as [|b l IH]; intros m acc Hnd Hall; cbn [foldl]; [by rewrite app_nil_r|].
  apply NoDup_cons in Hnd as [Hb Hnd]. cbn [fst snd]. rewrite bool_decide_true by (apply Hall; left).
  rewrite IH; [by rewrite <- app_assoc|done|].
  intros a Ha. rewrite lookup_delete_ne by (by intros <-). apply Hall. by right.
Qed.

Lemma expired_keys ord s m now ttl : store_rel s m →
  let l := (filter (λ ap, expired now ttl ap.2) (map_iter ord (path_mtu_provenance s))).*1 in
  NoDup l ∧ ∀ a, a ∈ l ↔ ∃ e, m !! a = Some e ∧ expired now ttl (provenance e) = true.
Proof.
  intros [_ _ Hp] l. split.
  - unfold l. eapply NoDup_fmap_fst.
    + intros a p1 p2 [_ H1]%list_elem_of_filter [_ H2]%list_elem_of_filter.
      apply elem_of_map_iter in H1, H2. congruence.
    + apply NoDup_filter. eapply NoDup_fmap_1. apply NoDup_map_iter_fst.
  - intros a. unfold l. rewrite list_elem_of_fmap. split.
    + intros ([b p] & -> & [He Hin]%list_elem_of_filter). apply elem_of_map_iter in Hin. rewrite Hp in Hin.
      apply fmap_Some in Hin as (e & He' & ->). exists e. split; [done|]. by apply Is_true_true.
    + intros (e & He & Hx). exists (a, provenance e). split; [done|]. apply list_elem_of_filter.
      split; [by apply Is_true_true|]. apply elem_of_map_iter. by rewrite Hp, He.
Qed.

Lemma expire_rel ord s m now ttl : store_rel s m →
  let '(s', removed) := remove_expired_discovery_path_mtus ord s now ttl in
  store_rel s' (PathMtuSpec.step m (Expire now ttl))
  ∧ NoDup removed ∧ ∀ a, a ∈ removed ↔ ∃ e, m !! a = Some e ∧ expired now ttl (provenance e) = true.
Proof.
  intros Hrel. destruct (expired_keys ord s m now ttl Hrel) as [Hnd Hin]. destruct Hrel as [Ho Hl Hp].
  unfold remove_expired_discovery_path_mtus.
  set (l := (filter (λ ap, expired now ttl ap.2) (map_iter ord (path_mtu_provenance s))).*1) in *.
  clearbody l. rewrite Ho.
  assert (store_rel (mkStore (foldl (λ m a, delete a m) (path_mtu_lookup s) l) false
    (foldl (λ m a, delete a m) (path_mtu_provenance s) l)) (PathMtuSpec.step m (Expire now ttl))) as Hdone.
  { assert (∀ a, PathMtuSpec.step m (Expire now ttl) !! a = if decide (a ∈ l) then None else m !! a) as Hs.
    { intros a. cbn [PathMtuSpec.step]. rewrite map_lookup_filter.
      destruct (m !! a) as [e|] eqn:He; cbn; [|by destruct (decide _)].
      destruct (expired now ttl (provenance e)) eqn:Hx; (case_guard; [|done || idtac]); try done.
      - rewrite decide_True; [done|]. apply Hin. eauto.
      - rewrite decide_False; [done|]. intros (e' & ? & ?)%Hin. congruence. }
    split; [done| |]; intros a; cbn [path_mtu_lookup path_mtu_provenance]; rewrite delete_fold, Hs;
      destruct (decide _); auto. }
  destruct l as [|b l]; [split; [by destruct s; cbn in *; subst|done]|].
  rewrite remove_fold; [cbn [app]; done|done|].
  intros a (e & He & _)%Hin. by rewrite Hl, He.
Qed.

Lemma step_rel ord s m op : store_rel s m → store_rel (step ord s op) (PathMtuSpec.step m op).
Proof.
  intros Hrel. pose proof (rel_open _ _ Hrel) as Ho.
  destruct op as [a|a x t|a x|a x tr|now ttl]; cbn [step].
  - unfold release_path_mtu. rewrite Ho. destruct Hrel as [_ Hl Hp]. split; [done| |]; intros b;
      cbn; (destruct (decide (b = a)) as [->|]; [by rewrite !lookup_delete_eq|by rewrite !lookup_delete_ne]).
  - unfold record_discovery_path_mtu. rewrite Ho, (prior_rel _ _ _ Hrel). cbn. unfold PathMtuSpec.tighten.
    destruct (m !! a) as [c|]; [destruct (_ <=? _)|]; [done|by apply write_rel|by apply write_rel].
  - unfold record_held_path_mtu. rewrite Ho, (prior_rel _ _ _ Hrel). cbn. unfold PathMtuSpec.tighten.
    destruct (m !! a) as [c|]; [destruct (_ <=? _)|]; [done|by apply write_rel|by apply write_rel].
  - unfold record_seeded_path_mtu. rewrite Ho, (prior_rel _ _ _ Hrel). cbn.
    destruct (m !! a) as [[x0 t0 tr0]|] eqn:Ha; cbn; [|by apply write_rel].
    assert (negb match tr0 with Some p => negb (p =? tr) | None => false end
      = bool_decide (tr0 = None ∨ tr0 = Some tr)) as ->.
    { destruct tr0 as [p|]; [|by rewrite bool_decide_true by auto].
      destruct (Z.eqb_spec p tr) as [->|]; [by rewrite bool_decide_true by auto|].
      rewrite bool_decide_false; [done|]. intros [?|?]; congruence. }
    destruct (bool_decide _ && _); [|by apply write_rel].
    destruct Hrel as [_ Hl Hp]. split; [done| |]; intros b; cbn;
      (destruct (decide (b = a)) as [->|]; [rewrite !lookup_insert_eq|by rewrite !lookup_insert_ne]); [|done].
    by rewrite Hl, Ha.
  - pose proof (expire_rel ord s m now ttl Hrel) as He.
    destruct (remove_expired_discovery_path_mtus _ _ _ _) as [s' l]. apply He.
Qed.

Lemma run_rel ord ops : store_rel (run ord ops) (PathMtuSpec.run ops).
Proof.
  unfold run, PathMtuSpec.run. assert (store_rel empty ∅) as H0 by (split; [done|intros; by rewrite !lookup_empty..]).
  revert H0. generalize empty (∅ : gmap (list Z) PathMtuEntry). induction ops as [|op ops IH]; intros s m Hrel; [done|].
  cbn [foldl]. by apply IH, step_rel.
Qed.

(** The values recorded for one address, and whether a history only records. *)
Definition recorded (a : list Z) (op : MtuOp) : option Z :=
  match op with
  | Discovery b x _ | Held b x | Seeded b x _ => if decide (b = a) then Some x else None
  | Release _ | Expire _ _ => None
  end.

Definition keeps_link (a : list Z) (tr : Z) (op : MtuOp) : Prop :=
  match op with
  | Discovery _ _ _ | Held _ _ => True
  | Seeded b _ tr' => b = a → tr' = tr
  | Release b => b ≠ a
  | Expire _ _ => False
  end.

Definition min_with (o o' : option Z) : option Z := union_with (λ x y, Some (Z.min x y)) o o'.

Definition seeded_only_by (tr : Z) (m : gmap (list Z) PathMtuEntry) (a : list Z) : Prop :=
  ∀ e, m !! a = Some e → seeded_by e = None ∨ seeded_by e = Some tr.

Lemma min_with_none o : min_with o None = o.
Proof. by destruct o. Qed.

Lemma tighten_min a b tr m x new : (∀ s, mtu (new s) = x ∧ seeded_by (new s) = s) → seeded_only_by tr m a →
  mtu <$> PathMtuSpec.tighten m b x new !! a
    = min_with (mtu <$> m !! a) (if decide (b = a) then Some x else None)
  ∧ seeded_only_by tr (PathMtuSpec.tighten m b x new) a.
Proof.
  intros Hnew Hs. unfold PathMtuSpec.tighten, seeded_only_by in *. destruct (decide (b = a)) as [->|Hne].
  - destruct (m !! a) as [c|] eqn:Ha; [destruct (Z.leb_spec (mtu c) x)|].
    + rewrite Ha. split; [cbn; f_equal; lia|]. intros e [= <-]. by apply Hs.
    + rewrite lookup_insert_eq. cbn. destruct (Hnew (seeded_by c)) as [-> Hsb]. split; [f_equal; lia|].
      intros e [= <-]. rewrite Hsb. by apply Hs.
    + rewrite lookup_insert_eq. cbn. destruct (Hnew None) as [-> Hsb]. split; [done|].
      intros e [= <-]. by left.
  - rewrite min_with_none. repeat case_match; rewrite ?lookup_insert_ne by done; done.
Qed.

Lemma spec_step_min a tr m op : keeps_link a tr op → seeded_only_by tr m a →
  mtu <$> PathMtuSpec.step m op !! a = min_with (mtu <$> m !! a) (recorded a op)
  ∧ seeded_only_by tr (PathMtuSpec.step m op) a.
Proof.
  intros Hk Hs. destruct op as [b|b x t|b x|b x tr'|now ttl]; cbn [keeps_link recorded PathMtuSpec.step] in *; [| | | |done].
  - unfold seeded_only_by. rewrite lookup_delete_ne by done. by rewrite min_with_none.
  - by apply tighten_min.
  - by apply tighten_min.
  - destruct (decide (b = a)) as [->|Hne].
    + specialize (Hk eq_refl) as ->. unfold seeded_only_by in *. destruct (m !! a) as [[x0 t0 tr0]|] eqn:Ha.
      * rewrite bool_decide_true by (by apply (Hs _ eq_refl)). cbn [andb].
        destruct (Z.leb_spec x0 x); rewrite lookup_insert_eq; cbn; (split; [f_equal; lia|]);
          intros e [= <-]; by right.
      * rewrite lookup_insert_eq. split; [done|]. intros e [= <-]. by right.
    + rewrite min_with_none. unfold seeded_only_by in *.
      repeat case_match; rewrite lookup_insert_ne by done; done.
Qed.

Lemma spec_run_min a tr ops m : Forall (keeps_link a tr) ops → seeded_only_by tr m a →
  mtu <$> foldl PathMtuSpec.step m ops !! a = foldl min_with (mtu <$> m !! a) (recorded a <$> ops)
  ∧ seeded_only_by tr (foldl PathMtuSpec.step m ops) a.
Proof.
  revert m. induction ops as [|op ops IH]; intros m Hall Hs; [done|]. apply Forall_cons in Hall as [Hk Hall].
  cbn [foldl fmap list_fmap]. destruct (spec_step_min a tr m op Hk Hs) as [<- Hs']. by apply IH.
Qed.

End path_mtu.

(** The segment size of a flow is that of its clamp, 1280 bytes without one. *)
Lemma per_flow_at lookup a global : length a = 16%nat → a !!! 0%nat = FipsAddress.FIPS_ADDRESS_PREFIX →
  Tun.per_flow_max_mss (Some lookup) a global
  = Z.min global (sat_sub (sat_sub (Icmp.effective_ipv6_mtu (default 1280 (lookup !! a))) 40) 20).
Proof.
  intros Hlen Hpre. unfold Tun.per_flow_max_mss, FipsAddress.from_slice, FipsAddress.from_bytes.
  rewrite Hlen, Hpre. cbn [negb Nat.eqb Z.eqb FipsAddress.FIPS_ADDRESS_PREFIX Pos.eqb FipsAddress.bytes].
  change (Some lookup ≫= λ map, map !! a) with (lookup !! a). by destruct (lookup !! a).
Qed.

(** The two halves of a path-MTU record stay one record. Over any history of
    releases, discovery, session and link reports and expiry sweeps, in any
    iteration order, the public lookup and the private provenance are the two
    projections of a single map of entries: tightened by every report, replaced
    only when the peer moved to another transport, and removed by a sweep exactly
    when they were learned by discovery at least the lifetime ago. Between
    releases, moves and sweeps the clamp of a destination is the smallest value
    reported for it. *)
Theorem path_mtu_store_refines ord ops now_ms ttl_ms :
  let s := PathMtuStore.run ord ops in
  let m := PathMtuSpec.run ops in
  let '(s', removed) := PathMtuStore.remove_expired_discovery_path_mtus ord s now_ms ttl_ms in
  (∀ a, PathMtuStore.path_mtu_lookup s !! a = PathMtuStore.mtu <$> m !! a
      ∧ PathMtuStore.path_mtu_provenance s !! a = PathMtuStore.provenance <$> m !! a)
  ∧ (∀ a, PathMtuStore.path_mtu_lookup s' !! a
      = if decide (a ∈ removed) then None else PathMtuStore.path_mtu_lookup s !! a)
  ∧ (∀ a, a ∈ removed ↔ ∃ e t, m !! a = Some e ∧ PathMtuStore.learned_ms e = Some t
      ∧ ttl_ms ≤ sat_sub now_ms t)
  ∧ (∀ a tr more, Forall (keeps_link a tr) more → m !! a = None →
       PathMtuStore.path_mtu_lookup (PathMtuStore.run ord (ops ++ more)) !! a
       = foldl min_with None (recorded a <$> more)).
Proof.
  intros s m. pose proof (run_rel ord ops) as Hrel. fold s m in Hrel.
  pose proof (expire_rel ord s m now_ms ttl_ms Hrel) as He.
  destruct (PathMtuStore.remove_expired_discovery_path_mtus _ _ _ _) as [s' removed].
  destruct He as (Hrel' & _ & Hin).
  assert (∀ e, PathMtuStore.expired now_ms ttl_ms (PathMtuStore.provenance e) = true ↔
    ∃ t, PathMtuStore.learned_ms e = Some t ∧ ttl_ms ≤ sat_sub now_ms t) as Hx.
  { intros [x [t|] tr]; cbn; rewrite ?Z.leb_le; naive_solver. }
  split; [intros a; split; apply Hrel|]. split; [|split].
  - intros a. rewrite (rel_lookup _ _ Hrel'), (rel_lookup _ _ Hrel). cbn [PathMtuSpec.step]. rewrite map_lookup_filter.
    destruct (m !! a) as [e|] eqn:Ha; cbn; [|by destruct (decide _)].
    destruct (decide (a ∈ removed)) as [(e' & ? & Hex)%Hin|Hout]; (case_guard; [|try done]); try done.
    + cbn in *. congruence.
    + exfalso. apply Hout, Hin. exists e. split; [done|]. by apply not_false_is_true.
  - intros a. rewrite Hin. setoid_rewrite Hx. naive_solver.
  - intros a tr more Hall Hnone. rewrite (rel_lookup _ _ (run_rel ord (ops ++ more))).
    unfold PathMtuSpec.run. rewrite foldl_app. fold (PathMtuSpec.run ops). fold m.
    destruct (spec_run_min a tr more m Hall) as [-> _]; [intros e; congruence|]. by rewrite Hnone.
Qed.

Lemma path_mtu_store_refines_witness :
  let a := 253 :: replicate 15 0 in
  PathMtuStore.path_mtu_lookup (PathMtuStore.run canonical_order
    [PathMtuStore.Held a 1400; PathMtuStore.Discovery a 1300 5; PathMtuStore.Seeded a 1350 1]) !! a = Some 1300.
Proof.
  intros a. pose proof (path_mtu_store_refines canonical_order [] 0 0) as H. cbv zeta in H. revert H.
  destruct (PathMtuStore.remove_expired_discovery_path_mtus _ _ _ _) as [s' removed].
  intros (_ & _ & _ & H). apply (H a 1 [PathMtuStore.Held a 1400; PathMtuStore.Discovery a 1300 5;
    PathMtuStore.Seeded a 1350 1]); [by repeat constructor|done].
Defined.

(** C32: a flaw. The expiry of a discovery estimate takes the session-held clamp
    under it along. A destination whose path was measured at [h] keeps that clamp
    through every sweep; but if discovery reported a smaller [d] in between, the
    sweep removes the record altogether, and a new flow falls back to the
    segment size of a 1280-byte path, larger than the path carries when [h] is
    below 1280. *)
Theorem discovery_erases_held_clamp ord a h d t now_ms ttl_ms global :
  d < h → ttl_ms ≤ sat_sub now_ms t → length a = 16%nat → a !!! 0%nat = FipsAddress.FIPS_ADDRESS_PREFIX →
  let held := PathMtuStore.run ord [PathMtuStore.Held a h; PathMtuStore.Expire now_ms ttl_ms] in
  let erased := PathMtuStore.run ord
    [PathMtuStore.Held a h; PathMtuStore.Discovery a d t; PathMtuStore.Expire now_ms ttl_ms] in
  let mss s := Tun.per_flow_max_mss (Some (PathMtuStore.path_mtu_lookup s)) a global in
  PathMtuStore.path_mtu_lookup held !! a = Some h
  ∧ PathMtuStore.path_mtu_lookup erased !! a = None
  ∧ mss held = Z.min global (sat_sub (sat_sub (Icmp.effective_ipv6_mtu h) 40) 20)
  ∧ mss erased = Z.min global (sat_sub (sat_sub (Icmp.effective_ipv6_mtu 1280) 40) 20).
Proof.
  intros Hd Ht Hlen Hpre held erased mss.
  assert (PathMtuStore.path_mtu_lookup held !! a = Some h) as Hh.
  { unfold held. rewrite (rel_lookup _ _ (run_rel _ _)). unfold PathMtuSpec.run. cbn [foldl PathMtuSpec.step].
    rewrite map_lookup_filter. unfold PathMtuSpec.tighten. by rewrite lookup_empty, lookup_insert_eq. }
  assert (PathMtuStore.path_mtu_lookup erased !! a = None) as He.
  { unfold erased. rewrite (rel_lookup _ _ (run_rel _ _)). unfold PathMtuSpec.run. cbn [foldl PathMtuSpec.step].
    rewrite map_lookup_filter. unfold PathMtuSpec.tighten. rewrite lookup_empty, lookup_insert_eq. cbn.
    destruct (Z.leb_spec h d); [lia|]. rewrite lookup_insert_eq. cbn.
    rewrite (proj2 (Z.leb_le _ _) Ht). done. }
  split; [done|]. split; [done|]. unfold mss.
  by rewrite !per_flow_at, Hh, He.
Qed.

Lemma discovery_erases_held_clamp_witness :
  let a := 253 :: replicate 15 0 in
  let s := PathMtuStore.run canonical_order
    [PathMtuStore.Held a 1000; PathMtuStore.Discovery a 900 0; PathMtuStore.Expire 5000 5000] in
  PathMtuStore.path_mtu_lookup s !! a = None
  ∧ Tun.per_flow_max_mss (Some (PathMtuStore.path_mtu_lookup s)) a 1360 = 1143.
Proof.
  intros a s.
  pose proof (discovery_erases_held_clamp canonical_order a 1000 900 0 5000 5000 1360
    ltac:(lia) ltac:(mlia) eq_refl eq_refl) as (_ & H1 & _ & H2). fold s in H1, H2.
  split; [exact H1|]. by rewrite H2.
Defined.

(** ** Links and their addresses *)

Module LinkRegistry.

(** [(TransportId, TransportAddr)]; an address is its bytes. *)
Abbreviation AddrKey := (Z * list Z)%type (only parsing).

Record LinkAddressIndex := mkIndex {
  entries : gmap AddrKey Z;
  revision : Z
}.

Definition bump (self : LinkAddressIndex) (m : gmap AddrKey Z) : LinkAddressIndex :=
  mkIndex m (wrap_u64 (revision self + 1)).

Definition index_insert (self : LinkAddressIndex) (key : AddrKey) (link_id : Z)
    : LinkAddressIndex * option Z :=
  let previous := entries self !! key in
  let m := <[key := link_id]> (entries self) in
  (if bool_decide (previous = Some link_id) then mkIndex m (revision self) else bump self m, previous).

Definition remove_if_points_to (self : LinkAddressIndex) (key : AddrKey) (link_id : Z)
    : LinkAddressIndex * bool :=
  if bool_decide (entries self !! key = Some link_id)
  then (bump self (delete key (entries self)), true)
  else (self, false).

Definition remove_all_pointing_to (self : LinkAddressIndex) (link_id : Z) : LinkAddressIndex :=
  let m := filter (λ kl, kl.2 ≠ link_id) (entries self) in
  if (size m =? size (entries self))%nat then mkIndex m (revision self) else bump self m.

Definition lookup (self : LinkAddressIndex) (transport_id : Z) (addr : list Z) : option Z :=
  entries self !! (transport_id, addr).

Section registry.

(** The fields of [Link] the registry does not look at. *)
Context {Rest : Type}.

Record Link := mkLink {
  link_id : Z;
  transport_id : Z;
  remote_addr : list Z;
  rest : Rest
}.

(** [Link::rebind_path]. *)
Definition link_rebind_path (self : Link) (transport_id : Z) (remote_addr : list Z) : Link :=
  mkLink (link_id self) transport_id remote_addr (rest self).

Record LinkRegistry := mkRegistry {
  links : gmap Z Link;
  by_addr : LinkAddressIndex
}.

Definition address_revision (self : LinkRegistry) : Z := revision (by_addr self).

Definition insert (self : LinkRegistry) (id : Z) (link : Link) : LinkRegistry * option Link :=
  let previous := links self !! id in
  let index :=
    match previous with
    | Some p => (remove_if_points_to (by_addr self) (transport_id p, remote_addr p) id).1
    | None => by_addr self
    end in
  (mkRegistry (<[id := link]> (links self))
     (index_insert index (transport_id link, remote_addr link) id).1, previous).

Definition insert_addr (self : LinkRegistry) (key : AddrKey) (id : Z) : LinkRegistry * option Z :=
  let '(index, previous) := index_insert (by_addr self) key id in
  (mkRegistry (links self) index, previous).

Definition rebind_path (self : LinkRegistry) (id tid : Z) (addr : list Z) : LinkRegistry * bool :=
  match links self !! id with
  | None => (self, false)
  | Some link =>
      if (transport_id link =? tid) && bool_decide (remote_addr link = addr) then (self, true)
      else
        (mkRegistry (<[id := link_rebind_path link tid addr]> (links self))
           (index_insert (remove_all_pointing_to (by_addr self) id) (tid, addr) id).1, true)
  end.

Definition remove (self : LinkRegistry) (id : Z) : LinkRegistry * option Link :=
  match links self !! id with
  | None => (self, None)
  | Some link =>
      (mkRegistry (delete id (links self)) (remove_all_pointing_to (by_addr self) id), Some link)
  end.

Definition lookup_addr (self : LinkRegistry) (tid : Z) (addr : list Z) : option Z :=
  lookup (by_addr self) tid addr.

(** A history. The handlers call [insert_addr] with a link the registry holds;
    [insert] asserts that the identifier is the link's own. *)
Inductive Op :=
| Insert (link : Link)
| InsertAddr (key : AddrKey) (id : Z)
| Rebind (id tid : Z) (addr : list Z)
| Remove (id : Z).

Definition step (self : LinkRegistry) (op : Op) : LinkRegistry :=
  match op with
  | Insert link => (insert self (link_id link) link).1
  | InsertAddr key id =>
      if bool_decide (is_Some (links self !! id)) then (insert_addr self key id).1 else self
  | Rebind id tid addr => (rebind_path self id tid addr).1
  | Remove id => (remove self id).1
  end.

Definition empty : LinkRegistry := mkRegistry ∅ (mkIndex ∅ 0).

Definition run (ops : list Op) : LinkRegistry := foldl step empty ops.

End registry.
End LinkRegistry.

Section links.
Import LinkRegistry.
Context {Rest : Type}.
Implicit Types (self : LinkRegistry (Rest := Rest)) (op : Op (Rest := Rest)).

Lemma filter_size_eq {K V} `{Countable K} (P : K * V → Prop) `{!∀ x, Decision (P x)} (m : gmap K V) :
  size (filter P m) = size m → filter P m = m.
Proof.
  intros Hs. assert (dom (filter P m) ≡ dom m) as Hd.
  { apply set_subseteq_size_equiv; [apply dom_filter_subseteq|]. rewrite !size_dom. lia. }
  apply map_eq. intros k. destruct (m !! k) as [v|] eqn:Hk.
  - assert (k ∈ dom (filter P m)) as [v' Hv']%elem_of_dom by (apply Hd, elem_of_dom; by eexists).
    apply map_lookup_filter_Some in Hv' as Hv''. destruct Hv'' as [? _]. congruence.
  - apply map_lookup_filter_None. by left.
Qed.

(** How the index moved: by [n] revisions, none only if nothing changed. *)
Definition moved (i i' : LinkAddressIndex) (n : Z) : Prop :=
  0 ≤ n ∧ (revision i' = (revision i + n) mod 2 ^ 64) ∧ (n = 0 → entries i' = entries i).

Lemma moved_trans i1 i2 i3 n m : moved i1 i2 n → moved i2 i3 m → moved i1 i3 (n + m).
Proof.
  intros (H1 & Hr1 & He1) (H2 & Hr2 & He2). split; [lia|]. split.
  - rewrite Hr2, Hr1. rewrite Zplus_mod_idemp_l. f_equal. lia.
  - intros. rewrite He2, He1 by lia. done.
Qed.

Lemma moved_refl i : is_u64 (revision i) → moved i i 0.
Proof. intros H. split; [lia|]. split; [|done]. rewrite Z.mod_small by mlia. lia. Qed.

Lemma moved_bump i m : moved i (bump i m) 1.
Proof. split; [lia|]. split; [done|lia]. Qed.

Definition index_step (i i' : LinkAddressIndex) : Prop := ∃ n, n ≤ 1 ∧ moved i i' n.

Lemma index_insert_step i key id : is_u64 (revision i) → index_step i (index_insert i key id).1.
Proof.
  intros Hu. unfold index_insert. cbn [fst]. case_bool_decide as Hp; [exists 0|exists 1; split; [lia|apply moved_bump]].
  split; [lia|]. rewrite insert_id by done. destruct i. by apply moved_refl.
Qed.

Lemma remove_if_step i key id : is_u64 (revision i) → index_step i (remove_if_points_to i key id).1.
Proof.
  intros Hu. unfold remove_if_points_to. case_bool_decide; cbn [fst].
  - exists 1. split; [lia|apply moved_bump].
  - exists 0. split; [lia|by apply moved_refl].
Qed.

Lemma remove_all_step i id : is_u64 (revision i) → index_step i (remove_all_pointing_to i id).
Proof.
  intros Hu. unfold remove_all_pointing_to. destruct (_ =? _)%nat eqn:Hs; [apply Nat.eqb_eq in Hs|].
  - exists 0. split; [lia|]. destruct (moved_refl i Hu) as (? & ? & _). split; [done|]. split; [done|].
    intros _. cbn. by apply filter_size_eq.
  - exists 1. split; [lia|apply moved_bump].
Qed.

Record registry_ok self : Prop := {
  reg_revision : is_u64 (address_revision self);
  reg_live : ∀ key id, entries (by_addr self) !! key = Some id → is_Some (links self !! id)
}.

Lemma moved_u64 i i' n : moved i i' n → is_u64 (revision i').
Proof. intros (_ & -> & _). pose proof (Z.mod_pos_bound (revision i + n) (2 ^ 64) ltac:(lia)). mlia. Qed.

Lemma entries_insert i key id :
  entries (index_insert i key id).1 = <[key := id]> (entries i).
Proof. unfold index_insert. cbn. by case_bool_decide. Qed.

Lemma entries_remove_if i key id k v : entries (remove_if_points_to i key id).1 !! k = Some v →
  entries i !! k = Some v.
Proof. unfold remove_if_points_to. case_bool_decide; cbn; [|done]. by intros [_ ?]%lookup_delete_Some. Qed.

Lemma entries_remove_all i id k v : entries (remove_all_pointing_to i id) !! k = Some v ↔
  entries i !! k = Some v ∧ v ≠ id.
Proof.
  unfold remove_all_pointing_to. by destruct (_ =? _)%nat; cbn; rewrite map_lookup_filter_Some.
Qed.

Definition registry_moves self self' : Prop :=
  registry_ok self' ∧ ∃ n, n ≤ 2 ∧ moved (by_addr self) (by_addr self') n.

Lemma registry_still self : registry_ok self → registry_moves self self.
Proof. intros Hok. split; [done|]. exists 0. split; [lia|]. apply moved_refl, Hok. Qed.

Lemma insert_moves self id link : registry_ok self → registry_moves self (insert self id link).1.
Proof.
  intros [Hu Hl]. unfold insert. cbn [fst]. set (p := links self !! id).
  set (i1 := match p with Some p => (remove_if_points_to (by_addr self) (transport_id p, remote_addr p) id).1
    | None => by_addr self end).
  assert (index_step (by_addr self) i1) as (n1 & Hn1 & Hm1).
  { subst i1. destruct p; [by apply remove_if_step|exists 0; split; [lia|by apply moved_refl]]. }
  destruct (index_insert_step i1 (transport_id link, remote_addr link) id (moved_u64 _ _ _ Hm1)) as (n2 & Hn2 & Hm2).
  pose proof (moved_trans _ _ _ _ _ Hm1 Hm2) as Hm.
  split; [split|exists (n1 + n2); split; [lia|exact Hm]]; [exact (moved_u64 _ _ _ Hm)|].
  intros key v. cbn [by_addr links]. rewrite entries_insert.
  intros [[<- <-]|[Hk He]]%lookup_insert_Some; [by rewrite lookup_insert_eq|].
  assert (entries (by_addr self) !! key = Some v) as Ho by (subst i1; destruct p; [by eapply entries_remove_if|done]).
  apply lookup_insert_is_Some'. right. by eapply Hl.
Qed.

Lemma registry_step self op : registry_ok self → registry_moves self (step self op).
Proof.
  intros Hok. pose proof (registry_still self Hok) as Hstill.
  destruct op as [link|key id|id tid addr|id]; cbn [step]; [by apply insert_moves|..]; destruct Hok as [Hu Hl].
  - case_bool_decide as Hid; [|exact Hstill].
    destruct (index_insert_step (by_addr self) key id Hu) as (n & Hn & Hm).
    split; [split|exists n; split; [lia|exact Hm]]; [exact (moved_u64 _ _ _ Hm)|].
    intros k v. cbn. change (entries _) with (entries (index_insert (by_addr self) key id).1).
    rewrite entries_insert. intros [[_ <-]|[_ He]]%lookup_insert_Some; [done|by eapply Hl].
  - unfold rebind_path. destruct (links self !! id) as [link|] eqn:Hlink; [|exact Hstill].
    destruct (_ && _); [exact Hstill|]. cbn [fst].
    destruct (remove_all_step (by_addr self) id Hu) as (n1 & Hn1 & Hm1).
    destruct (index_insert_step _ (tid, addr) id (moved_u64 _ _ _ Hm1)) as (n2 & Hn2 & Hm2).
    pose proof (moved_trans _ _ _ _ _ Hm1 Hm2) as Hm.
    split; [split|exists (n1 + n2); split; [lia|exact Hm]]; [exact (moved_u64 _ _ _ Hm)|].
    intros k v. cbn [by_addr links]. rewrite entries_insert.
    intros [[_ <-]|[_ [He _]%entries_remove_all]]%lookup_insert_Some; apply lookup_insert_is_Some'; [by left|].
    right. by eapply Hl.
  - unfold remove. destruct (links self !! id) as [link|] eqn:Hlink; [|exact Hstill]. cbn [fst].
    destruct (remove_all_step (by_addr self) id Hu) as (n & Hn & Hm).
    split; [split|exists n; split; [lia|exact Hm]]; [exact (moved_u64 _ _ _ Hm)|].
    intros k v [He Hne]%entries_remove_all. cbn [links]. rewrite lookup_delete_ne by done. by eapply Hl.
Qed.

Lemma registry_run ops self : registry_ok self →
  registry_ok (foldl step self ops)
  ∧ ∃ n, n ≤ 2 * Z.of_nat (length ops) ∧ moved (by_addr self) (by_addr (foldl step self ops)) n.
Proof.
  revert self. induction ops as [|op ops IH]; intros self Hok; cbn [foldl].
  { split; [done|]. exists 0. split; [done|]. apply moved_refl, Hok. }
  destruct (registry_step self op Hok) as [Hok1 (n1 & Hn1 & Hm1)].
  destruct (IH _ Hok1) as [Hok2 (n2 & Hn2 & Hm2)]. split; [done|]. exists (n1 + n2).
  split; [cbn [length]; lia|]. by eapply moved_trans.
Qed.

(** Addresses resolve to live links, and caches of the index can trust its
    revision. After any history of insertions, aliases, path changes and removals
    every indexed address names a link the registry holds; removing a link leaves
    no alias of it behind, and moving it to another path leaves exactly the new
    one. As long as fewer than 2^63 operations went by, an unchanged revision
    means that every address resolves as before, so that a table derived from the
    index need only be rebuilt when the revision moved. *)
Theorem link_registry_consistent (ops more : list (Op (Rest := Rest))) :
  let r := run ops in
  let r' := run (ops ++ more) in
  (∀ tid addr id, lookup_addr r tid addr = Some id → is_Some (links r !! id))
  ∧ (2 * Z.of_nat (length more) < 2 ^ 64 → address_revision r' = address_revision r →
       ∀ tid addr, lookup_addr r' tid addr = lookup_addr r tid addr)
  ∧ (∀ id tid addr, is_Some (remove r id).2 → lookup_addr (remove r id).1 tid addr ≠ Some id)
  ∧ (∀ id tid addr link, links r !! id = Some link → (transport_id link, remote_addr link) ≠ (tid, addr) →
       ∀ tid' addr', lookup_addr (rebind_path r id tid addr).1 tid' addr' = Some id
         ↔ (tid', addr') = (tid, addr)).
Proof.
  intros r r'. assert (registry_ok empty) as H0 by (split; [done|by intros ??]).
  destruct (registry_run ops empty H0) as [Hok _]. fold (run ops) in Hok. fold r in Hok.
  destruct (registry_run more r Hok) as [_ (n & Hn & Hm)].
  assert (foldl step r more = r') as Hr' by (unfold r', run; by rewrite foldl_app).
  rewrite Hr' in Hm. destruct Hm as (Hn0 & Hrev & Hsame). destruct Hok as [Hu Hlive].
  split; [|split; [|split]].
  - intros tid addr id. apply Hlive.
  - intros Hlen Heq tid addr. unfold lookup_addr, lookup. rewrite Hsame; [done|].
    unfold address_revision in *. rewrite Heq in Hrev. symmetry in Hrev.
    destruct (Z.eq_dec n 0) as [|Hne]; [done|exfalso].
    assert (n mod 2 ^ 64 = 0) as Hz.
    { replace n with (revision (by_addr r) + n - revision (by_addr r)) by lia.
      rewrite Zminus_mod, Hrev, (Z.mod_small (revision (by_addr r))) by mlia. by rewrite Z.sub_diag. }
    rewrite Z.mod_small in Hz by lia. lia.
  - intros id tid addr. unfold remove, lookup_addr, lookup. destruct (links r !! id); [|by intros []].
    cbn. by intros _ [_ ?]%entries_remove_all.
  - intros id tid addr link Hlink Hne tid' addr'. unfold rebind_path. rewrite Hlink.
    destruct ((transport_id link =? tid) && bool_decide (remote_addr link = addr)) eqn:Hc.
    { apply andb_true_iff in Hc as [Ht%Z.eqb_eq Ha%bool_decide_eq_true]. destruct Hne. congruence. }
    unfold lookup_addr, lookup. cbn [by_addr fst]. rewrite entries_insert, lookup_insert_Some.
    rewrite entries_remove_all. naive_solver.
Qed.

End links.

Lemma link_registry_consistent_witness :
  let l := LinkRegistry.mkLink 7 1 [10] () in
  let r := LinkRegistry.run [LinkRegistry.Insert l; LinkRegistry.InsertAddr (1, [11]) 7] in
  LinkRegistry.lookup_addr r 1 [11] = Some 7
  ∧ is_Some (LinkRegistry.links r !! 7)
  ∧ LinkRegistry.lookup_addr (LinkRegistry.rebind_path r 7 2 [12]).1 1 [11] ≠ Some 7.
Proof.
  intros l r.
  destruct (link_registry_consistent [LinkRegistry.Insert l; LinkRegistry.InsertAddr (1, [11]) 7] []) as (Hlive & _ & _ & Hre).
  fold r in Hlive, Hre. assert (LinkRegistry.lookup_addr r 1 [11] = Some 7) as Hl by done.
  split; [done|]. split; [exact (Hlive _ _ _ Hl)|]. by intros ?%(Hre 7 2 [12] l eq_refl ltac:(done)).
Defined.

(** ** Handshake replies *)

Module PendingOutbound.

(** [(TransportId, u32)] to [LinkId]. *)
Definition match_msg2 (ord : MapOrder (Z * Z) Z) (entries : gmap (Z * Z) Z) (transport_id receiver_idx : Z)
    : option ((Z * Z) * Z) :=
  match entries !! (transport_id, receiver_idx) with
  | Some link_id => Some ((transport_id, receiver_idx), link_id)
  | None =>
      match filter (λ kl, kl.1.2 = receiver_idx) (map_iter ord entries) with
      | [found] => Some found
      | _ => None
      end
  end.

End PendingOutbound.

(** ** Bookkeeping of failures and degraded paths *)

Module SupportState.

Definition DIRECT_PATH_VALIDATION_MIN_PACKETS : Z := 5.
Definition DIRECT_PATH_VALIDATION_MIN_SPAN_MS : Z := 750.
Definition DIRECT_PATH_VALIDATION_MAX_GAP_MS : Z := 1000.

Record DirectPathValidation := mkValidation {
  degraded_until_ms : Z;
  first_progress_ms : option Z;
  last_progress_ms : option Z;
  progress_packets : Z
}.

Definition default_validation : DirectPathValidation := mkValidation 0 None None 0.

Definition reset_progress (self : DirectPathValidation) : DirectPathValidation :=
  mkValidation (degraded_until_ms self) None None 0.

Definition record_progress (self : DirectPathValidation) (now_ms : Z) : DirectPathValidation * bool :=
  let restart :=
    match last_progress_ms self with
    | Some last_ms => DIRECT_PATH_VALIDATION_MAX_GAP_MS <? sat_sub now_ms last_ms
    | None => true
    end in
  let self :=
    if restart then
      let self := reset_progress self in
      mkValidation (degraded_until_ms self) (Some now_ms) (last_progress_ms self) (progress_packets self)
    else self in
  let self := mkValidation (degraded_until_ms self) (first_progress_ms self) (Some now_ms)
                (Z.min (progress_packets self + 1) U8_MAX) in
  (self,
   (DIRECT_PATH_VALIDATION_MIN_PACKETS <=? progress_packets self)
   && match first_progress_ms self with
      | Some first_ms => DIRECT_PATH_VALIDATION_MIN_SPAN_MS <=? sat_sub now_ms first_ms
      | None => false
      end).

(** [SessionDirectDegradation] has the one field [validations]. *)
Abbreviation Validations := (gmap NodeAddr DirectPathValidation) (only parsing).

Definition is_degraded_at (self : Validations) (dest : NodeAddr) (now_ms : Z) : bool :=
  match self !! dest with Some state => now_ms <? degraded_until_ms state | None => false end.

Definition has_pending_validation (self : Validations) (dest : NodeAddr) : bool :=
  bool_decide (is_Some (self !! dest)).

Definition release_hold_for_validation (self : Validations) (dest : NodeAddr) (now_ms : Z)
    : Validations * bool :=
  match self !! dest with
  | None => (self, false)
  | Some state =>
      (<[dest := mkValidation now_ms (first_progress_ms state) (last_progress_ms state)
                   (progress_packets state)]> self, true)
  end.

Definition mark_degraded (self : Validations) (dest : NodeAddr) (now_ms hold_ms : Z)
    : Validations * bool :=
  let until_ms := sat_add_u64 now_ms hold_ms in
  let entry := default default_validation (self !! dest) in
  let was_degraded := now_ms <? degraded_until_ms entry in
  let entry := if negb was_degraded then reset_progress entry else entry in
  let entry := mkValidation (Z.max (degraded_until_ms entry) until_ms) (first_progress_ms entry)
                 (last_progress_ms entry) (progress_packets entry) in
  (<[dest := entry]> self, negb was_degraded).

Definition restart_validation (self : Validations) (dest : NodeAddr) (now_ms hold_ms : Z) : Validations :=
  <[dest := mkValidation (sat_add_u64 now_ms hold_ms) None None 0]> self.

Definition record_authenticated_payload_progress (self : Validations) (dest : NodeAddr) (now_ms : Z)
    : Validations * bool :=
  match self !! dest with
  | None => (self, false)
  | Some state =>
      let '(state, proved) := record_progress state now_ms in (<[dest := state]> self, proved)
  end.

Definition clear (self : Validations) (dest : NodeAddr) : Validations * bool :=
  (delete dest self, bool_decide (is_Some (self !! dest))).

(** The packets of a destination, one after the other. *)
Definition progress_of (self : DirectPathValidation) (times : list Z) : DirectPathValidation :=
  foldl (λ st t, (record_progress st t).1) self times.

(** [DiscoveryFallbackTransit::allows_lookup_fallback_peer]. *)
Definition allows_lookup_fallback_peer (blocked_peers : gset NodeAddr) (peer_addr target : NodeAddr)
    (transport_id : option Z) (is_bootstrap_transport : Z → bool) : bool :=
  if peer_addr =? target then true
  else if bool_decide (peer_addr ∈ blocked_peers) then false
  else match transport_id with
       | Some transport_id => negb (is_bootstrap_transport transport_id)
       | None => true
       end.

(** [TransportDropTracker]: [prev_drops] and [dropping] by transport. *)
Record TransportDropState := mkDropState { prev_drops : Z; dropping : bool }.

Definition sample (states : gmap Z TransportDropState) (transport_id : Z) (recv_drops : option Z)
    : gmap Z TransportDropState * option Z :=
  let state := default (mkDropState 0 false) (states !! transport_id) in
  match recv_drops with
  | None => (<[transport_id := state]> states, None)
  | Some current =>
      let dropped := sat_sub current (prev_drops state) in
      let new_drops := 0 <? dropped in
      (<[transport_id := mkDropState current new_drops]> states, if new_drops then Some dropped else None)
  end.

Definition any_dropping (ord : MapOrder Z TransportDropState) (states : gmap Z TransportDropState) : bool :=
  existsb (λ ks, dropping ks.2) (map_iter ord states).

End SupportState.

Section support.
Import SupportState.

(** The packets of [hist] (newest first) up to position [k] follow each other
    without a gap of more than a second. *)
Definition unbroken (hist : list Z) (k : nat) : Prop :=
  ∀ i a b, (i < k)%nat → hist !! i = Some a → hist !! S i = Some b → a - b ≤ 1000.

Definition descending (hist : list Z) : Prop := StronglySorted (λ a b, b ≤ a) hist.

(** What the record remembers of a history: its current unbroken run. *)
Record validation_ok (st : DirectPathValidation) (hist : list Z) (k : nat) (t : Z) : Prop := {
  val_start : hist !! k = Some t;
  val_run : unbroken hist k;
  val_max : ∀ b, hist !! S k = Some b → 1000 < t - b;
  val_first : first_progress_ms st = Some t;
  val_last : last_progress_ms st = head hist;
  val_count : progress_packets st = Z.min (Z.of_nat (S k)) 255
}.

Lemma record_progress_ok st hist now : descending (now :: hist) →
  match hist with
  | [] => last_progress_ms st = None
  | _ => ∃ k t, validation_ok st hist k t
  end →
  ∃ k t, validation_ok (record_progress st now).1 (now :: hist) k t
    ∧ (record_progress st now).2 = (5 <=? Z.of_nat (S k)) && (750 <=? sat_sub now t).
Proof.
  intros Hd Hst. unfold record_progress, DIRECT_PATH_VALIDATION_MAX_GAP_MS, DIRECT_PATH_VALIDATION_MIN_PACKETS,
    DIRECT_PATH_VALIDATION_MIN_SPAN_MS.
  destruct hist as [|last hist].
  { rewrite Hst. cbn. exists 0%nat, now. split; [split; try done|done]. }
  destruct Hst as (k & t & [Hs Hr Hm Hf Hl Hc]). cbn in Hl. rewrite Hl.
  apply StronglySorted_inv in Hd as [_ [Hle _]%Forall_cons].
  replace (sat_sub now last) with (now - last) by mlia.
  destruct (Z.ltb_spec 1000 (now - last)); cbn [fst snd first_progress_ms progress_packets].
  - exists 0%nat, now. split; [|done]. split; try done; [intros i a b ?; lia|]. cbn. intros b [= <-]. lia.
  - exists (S k), t. rewrite Hf, Hc. split; [split; cbn; try done|].
    + intros [|i] a b Hi Ha Hb; cbn in Ha, Hb; [simplify_eq; lia|]. eapply (Hr i); [lia|done|done].
    + mlia.
    + f_equal. destruct (Z.leb_spec 5 (Z.min (Z.min (Z.of_nat (S k)) 255 + 1) U8_MAX)), (Z.leb_spec 5 (Z.of_nat (S (S k)))); mlia || done.
Qed.

Lemma descending_lt hist i j a b : descending hist → (i < j)%nat → hist !! i = Some a → hist !! j = Some b → b ≤ a.
Proof.
  intros Hd. revert i j. induction Hd as [|x l Hd IH Hall]; intros i j Hij Hi Hj; [done|].
  destruct j as [|j]; [lia|]. destruct i as [|i]; cbn in Hi, Hj.
  - simplify_eq. rewrite Forall_forall in Hall. apply Hall. by eapply list_elem_of_lookup_2.
  - apply (IH i j); [lia|done|done].
Qed.

Lemma progress_ok hist st : last_progress_ms st = None → descending hist →
  match hist with
  | [] => last_progress_ms (progress_of st (reverse hist)) = None
  | _ => ∃ k t, validation_ok (progress_of st (reverse hist)) hist k t
  end.
Proof.
  intros H0 Hd. induction hist as [|now hist IH]; [done|].
  unfold progress_of. rewrite reverse_cons, foldl_app. cbn [foldl]. fold (progress_of st (reverse hist)).
  apply StronglySorted_inv in Hd as Hd'. destruct Hd' as [Hd' _].
  destruct (record_progress_ok (progress_of st (reverse hist)) hist now Hd (IH Hd')) as (k & t & Hok & _). eauto.
Qed.

End support.

(** A direct path is trusted again exactly when it has proved itself. On a
    clock that does not run backwards, after any history of authenticated packets
    (newest first) since the path was marked, the next packet proves the path if
    and only if it ends a run of at least five packets that spans at least 750 ms
    and has no gap of more than a second. *)
Theorem direct_path_proved_exact hist now held :
  descending (now :: hist) →
  (SupportState.record_progress
     (SupportState.progress_of (SupportState.mkValidation held None None 0) (reverse hist)) now).2 = true ↔
  ∃ k first, (5 ≤ S k)%nat ∧ (now :: hist) !! k = Some first ∧ 750 ≤ now - first
    ∧ unbroken (now :: hist) k.
Proof.
  intros Hd. apply StronglySorted_inv in Hd as Hd'. destruct Hd' as [Hd' _].
  pose proof (progress_ok hist (SupportState.mkValidation held None None 0) eq_refl Hd') as Hst.
  destruct (record_progress_ok _ hist now Hd Hst) as (k & t & [Hs Hr Hm _ _ _] & ->).
  assert (∀ i a j b, (i ≤ j)%nat → (now :: hist) !! i = Some a → (now :: hist) !! j = Some b → b ≤ a) as Hle.
  { intros i a j b Hij Hi Hj. destruct (decide (i = j)) as [->|]; [simplify_eq; lia|].
    apply (descending_lt (now :: hist) i j a b); [done|lia|done|done]. }
  rewrite andb_true_iff, !Z.leb_le. split.
  - intros [Hk Hspan]. exists k, t. specialize (Hle 0%nat now k t ltac:(lia) eq_refl Hs).
    split; [lia|]. split; [done|]. split; [mlia|done].
  - intros (k' & first & Hk' & Hf & Hspan & Hun). assert (k' ≤ k)%nat as Hkk.
    { destruct (decide (k' ≤ k)%nat) as [|Hgt]; [done|exfalso].
      destruct ((now :: hist) !! S k) as [b|] eqn:Hb.
      - specialize (Hm b eq_refl). specialize (Hun k t b ltac:(lia) Hs Hb). lia.
      - apply lookup_ge_None in Hb. apply lookup_lt_Some in Hf. lia. }
    specialize (Hle k' first k t Hkk Hf Hs). split; [lia|mlia].
Qed.

Lemma direct_path_proved_exact_witness :
  (SupportState.record_progress
     (SupportState.progress_of (SupportState.mkValidation 0 None None 0) (reverse [700; 500; 300; 200; 0])) 800).2 = true
  ∧ ¬ (SupportState.record_progress
     (SupportState.progress_of (SupportState.mkValidation 0 None None 0) (reverse [2700; 2500; 300; 200; 0])) 2800).2 = true.
Proof.
  split.
  - apply (direct_path_proved_exact [700; 500; 300; 200; 0] 800 0); [repeat constructor; lia|].
    exists 5%nat, 0. split; [lia|]. split; [done|]. split; [lia|].
    intros i a b Hi Ha Hb. do 6 (destruct i as [|i]; [cbn in *; simplify_eq; lia|]). lia.
  - rewrite (direct_path_proved_exact [2700; 2500; 300; 200; 0] 2800 0); [|repeat constructor; lia].
    intros (k & first & Hk & _ & _ & Hun). specialize (Hun 2%nat 2500 300 ltac:(lia) eq_refl eq_refl). lia.
Defined.

(** A handshake reply is never attributed to the wrong attempt by accident of
    iteration. The match carries the receiver index of the reply and an attempt
    that is pending; on the transport it arrived on it wins outright, and from
    another transport it is accepted exactly when no second attempt has the same
    index. *)
Theorem reply_match_exact ord entries transport_id receiver_idx key link :
  PendingOutbound.match_msg2 ord entries transport_id receiver_idx = Some (key, link) ↔
  entries !! key = Some link ∧ key.2 = receiver_idx
  ∧ (key.1 = transport_id
     ∨ (∀ key' link', entries !! key' = Some link' → key'.2 = receiver_idx → key' = key)).
Proof.
  unfold PendingOutbound.match_msg2. destruct (entries !! (transport_id, receiver_idx)) as [l|] eqn:He.
  - split.
    + intros [= <- <-]. auto.
    + destruct key as [tid idx]. cbn. intros (Hk & -> & [->|Huniq]); [congruence|].
      specialize (Huniq _ _ He eq_refl). simplify_eq. congruence.
  - assert (∀ kl, kl ∈ filter (λ kl, kl.1.2 = receiver_idx) (map_iter ord entries)
      ↔ entries !! kl.1 = Some kl.2 ∧ kl.1.2 = receiver_idx) as Hin.
    { intros [k v]. rewrite list_elem_of_filter, elem_of_map_iter. naive_solver. }
    assert (NoDup (filter (λ kl, kl.1.2 = receiver_idx) (map_iter ord entries))) as Hnd.
    { apply NoDup_filter. eapply NoDup_fmap_1, NoDup_map_iter_fst. }
    destruct (filter _ _) as [|found [|other rest]].
    + split; [done|]. intros (Hk & Hi & _). pose proof (proj2 (Hin (key, link)) (conj Hk Hi)) as Hnil. by apply elem_of_nil in Hnil.
    + split.
      * intros [= ->]. destruct (proj1 (Hin (key, link)) ltac:(left)) as [Hk Hi]. split; [done|]. split; [done|].
        right. intros k' l' Hk' Hi'.
        pose proof (proj2 (Hin (k', l')) (conj Hk' Hi')) as Hs%list_elem_of_singleton. congruence.
      * intros (Hk & Hi & _). pose proof (proj2 (Hin (key, link)) (conj Hk Hi)) as Hf%list_elem_of_singleton. congruence.
    + split; [done|]. intros (Hk & Hi & [Ht|Huniq]); [destruct key as [tid idx]; cbn in Ht, Hi; subst; congruence|].
      destruct found as [k1 l1], other as [k2 l2].
      destruct (proj1 (Hin (k1, l1)) ltac:(left)) as [H1 H1']. destruct (proj1 (Hin (k2, l2)) ltac:(right; left)) as [H2 H2'].
      cbn [fst snd] in *. pose proof (Huniq _ _ H1 H1') as ->. pose proof (Huniq _ _ H2 H2') as ->.
      apply NoDup_cons in Hnd as [Hnd _]. destruct Hnd. rewrite H1 in H2. injection H2 as ->. left.
Qed.
