(* ===== verification/OwnerReplay.v ===== *)
(** * The dataplane's replay window
    ([crates/fips-core/src/dataplane/owner_replay.rs])

    The established fast path keeps its own sliding window: a ring of 128 blocks
    of 64 counters, of which the window spans 127. The ring is cleared block by
    block as the highest counter moves on. [OwnerWindow] translates it with its
    masks and shifts; [OwnerWindowSpec] is the set of accepted counters; the
    refinement says that the two answer alike. *)

From S2P Require Import Prelude Replay.

Local Open Scope Z_scope.

Module OwnerWindow.

Definition REPLAY_BLOCK_BITS_LOG : Z := 6.
Definition REPLAY_BLOCK_BITS : Z := Z.shiftl 1 REPLAY_BLOCK_BITS_LOG.
Definition REPLAY_RING_BLOCKS : Z := Z.shiftl 1 7.
Definition REPLAY_WINDOW_SIZE : Z := (REPLAY_RING_BLOCKS - 1) * REPLAY_BLOCK_BITS.
Definition REPLAY_BLOCK_MASK : Z := REPLAY_RING_BLOCKS - 1.
Definition REPLAY_BIT_MASK : Z := REPLAY_BLOCK_BITS - 1.

Record ReplayWindow := mkWindow {
  highest : option Z;
  ring : list Z
}.

Definition default_window : ReplayWindow := mkWindow None (replicate 128 0).

Definition counter_block (counter : Z) : Z := Z.shiftr counter REPLAY_BLOCK_BITS_LOG.
Definition ring_index (counter : Z) : nat := Z.to_nat (Z.land (counter_block counter) REPLAY_BLOCK_MASK).
Definition counter_bit (counter : Z) : Z := Z.shiftl 1 (Z.land counter REPLAY_BIT_MASK).

(** [for offset in 1..=diff]: [n] blocks from [block]. *)
Fixpoint clear_blocks (ring : list Z) (block : Z) (n : nat) : list Z :=
  match n with
  | O => ring
  | S n => clear_blocks (<[Z.to_nat (Z.land block REPLAY_BLOCK_MASK) := 0]> ring) (block + 1) n
  end.

Definition advance (ring : list Z) (highest counter : Z) : list Z :=
  let current := counter_block highest in
  let target := counter_block counter in
  let diff := target - current in
  let diff := if REPLAY_RING_BLOCKS <? diff then REPLAY_RING_BLOCKS else diff in
  clear_blocks ring (current + 1) (Z.to_nat diff).

Definition set_counter_bit (ring : list Z) (counter : Z) : list Z * bool :=
  let index := ring_index counter in
  let old := ring !!! index in
  let new := Z.lor old (counter_bit counter) in
  (<[index := new]> ring, negb (old =? new)).

Definition accept (self : ReplayWindow) (counter : Z) : ReplayWindow * bool :=
  if counter =? U64_MAX then (self, false)
  else
    match highest self with
    | None =>
        let '(r, fresh) := set_counter_bit (ring self) counter in
        (mkWindow (Some counter) r, fresh)
    | Some h =>
        if h <? counter then
          let '(r, fresh) := set_counter_bit (advance (ring self) h counter) counter in
          (mkWindow (Some counter) r, fresh)
        else if REPLAY_WINDOW_SIZE <? h - counter then (self, false)
        else
          let '(r, fresh) := set_counter_bit (ring self) counter in
          (mkWindow (highest self) r, fresh)
    end.

Definition can_accept (self : ReplayWindow) (counter : Z) : bool :=
  if counter =? U64_MAX then false
  else
    match highest self with
    | None => true
    | Some h =>
        if h <? counter then true
        else (h - counter <=? REPLAY_WINDOW_SIZE)
             && (Z.land (ring self !!! ring_index counter) (counter_bit counter) =? 0)
    end.

End OwnerWindow.

(** ** The mathematical window *)

Module OwnerWindowSpec.

Record State := mkState { top : option Z; seen : gset Z }.

Definition init : State := mkState None ∅.

Definition too_old (s : State) (c : Z) : bool :=
  match top s with Some h => 8128 <? h - c | None => false end.

Definition fresh (s : State) (c : Z) : bool :=
  negb (c =? U64_MAX) && negb (too_old s c) && bool_decide (c ∉ seen s).

Definition accept (s : State) (c : Z) : State :=
  if (c =? U64_MAX) || too_old s c then s
  else mkState (Some (match top s with Some h => Z.max h c | None => c end)) ({[c]} ∪ seen s).

End OwnerWindowSpec.

(** ** The ring holds the set *)

Section window.
Import OwnerWindow.

(** The bit of a counter in a ring. *)
Definition ring_bit (r : list Z) (c : Z) : bool := Z.testbit (r !!! ring_index c) (c mod 64).

Record holds_set (w : ReplayWindow) (s : OwnerWindowSpec.State) : Prop := {
  rep_len : length (ring w) = 128%nat;
  rep_top : highest w = OwnerWindowSpec.top s;
  rep_seen : ∀ c, c ∈ OwnerWindowSpec.seen s → ∃ h, OwnerWindowSpec.top s = Some h ∧ 0 ≤ c ≤ h;
  rep_bits : match OwnerWindowSpec.top s with
    | None => ring w = replicate 128 0
    | Some h => 0 ≤ h ∧ ∀ c, 0 ≤ c → h / 64 - 128 < c / 64 ≤ h / 64 →
        ring_bit (ring w) c = bool_decide (c ∈ OwnerWindowSpec.seen s)
    end
}.

Lemma block_div c : counter_block c = c / 64.
Proof. unfold counter_block. by rewrite Z.shiftr_div_pow2. Qed.

Lemma mask_mod b : Z.land b REPLAY_BLOCK_MASK = b mod 128.
Proof. change REPLAY_BLOCK_MASK with (Z.ones 7). by rewrite Z.land_ones. Qed.

Lemma bit_mod c : counter_bit c = Z.shiftl 1 (c mod 64).
Proof. unfold counter_bit. change REPLAY_BIT_MASK with (Z.ones 6). by rewrite Z.land_ones. Qed.

Lemma ring_index_mod c : ring_index c = Z.to_nat ((c / 64) mod 128).
Proof. unfold ring_index. by rewrite block_div, mask_mod. Qed.

Lemma slot_lt b : (Z.to_nat (b mod 128) < 128)%nat.
Proof. pose proof (Z.mod_pos_bound b 128 ltac:(lia)). lia. Qed.

Lemma slot_eq a b : Z.abs (a - b) < 128 → Z.to_nat (a mod 128) = Z.to_nat (b mod 128) → a = b.
Proof.
  intros Hab Heq. pose proof (Z.mod_pos_bound a 128 ltac:(lia)). pose proof (Z.mod_pos_bound b 128 ltac:(lia)).
  assert (a mod 128 = b mod 128) as Hm by lia. pose proof (Z.div_mod a 128 ltac:(lia)).
  pose proof (Z.div_mod b 128 ltac:(lia)). lia.
Qed.

Lemma length_clear_blocks r block n : length (clear_blocks r block n) = length r.
Proof. revert r block. induction n as [|n IH]; intros; cbn; [done|]. by rewrite IH, length_insert. Qed.

Lemma clear_blocks_other r block n slot :
  (∀ k, block ≤ k < block + Z.of_nat n → Z.to_nat (k mod 128) ≠ slot) →
  clear_blocks r block n !!! slot = r !!! slot.
Proof.
  revert r block. induction n as [|n IH]; intros r block Hne; cbn [clear_blocks]; [done|].
  rewrite IH by (intros k Hk; apply Hne; lia). rewrite mask_mod.
  rewrite list_lookup_total_insert_ne; [done|]. apply Hne. lia.
Qed.

Lemma clear_blocks_zero r block n slot : length r = 128%nat → (slot < 128)%nat → r !!! slot = 0 →
  clear_blocks r block n !!! slot = 0.
Proof.
  revert r block. induction n as [|n IH]; intros r block Hlen Hslot H0; cbn [clear_blocks]; [done|].
  apply IH; [by rewrite length_insert|done|]. rewrite mask_mod.
  destruct (decide (Z.to_nat (block mod 128) = slot)) as [->|Hne].
  - rewrite list_lookup_total_insert_eq; [done|]. by rewrite Hlen.
  - by rewrite list_lookup_total_insert_ne.
Qed.

Lemma clear_blocks_hit r block n k : length r = 128%nat → block ≤ k < block + Z.of_nat n →
  clear_blocks r block n !!! Z.to_nat (k mod 128) = 0.
Proof.
  revert r block. induction n as [|n IH]; intros r block Hlen Hk; cbn [clear_blocks]; [lia|]. rewrite mask_mod.
  destruct (decide (block + 1 ≤ k)) as [|]; [apply IH; [by rewrite length_insert|lia]|].
  replace k with block by lia. apply clear_blocks_zero; [by rewrite length_insert|apply slot_lt|].
  apply list_lookup_total_insert_eq. rewrite Hlen. apply slot_lt.
Qed.

(** Setting a bit answers whether it was clear, and sets no other bit nearby. *)
Lemma set_bit_fresh r c : (set_counter_bit r c).2 = negb (ring_bit r c).
Proof.
  unfold set_counter_bit, ring_bit. cbn [snd]. rewrite bit_mod. set (o := r !!! ring_index c).
  pose proof (Z.mod_pos_bound c 64 ltac:(lia)) as Hc. f_equal. apply eq_iff_eq_true. rewrite Z.eqb_eq. split.
  - intros Heq. apply (f_equal (λ z, Z.testbit z (c mod 64))) in Heq.
    rewrite Z.lor_spec, testbit_shiftl_1, bool_decide_true, orb_true_r in Heq by (done || lia). done.
  - intros Hb. apply Z.bits_inj'. intros n Hn. rewrite Z.lor_spec, testbit_shiftl_1 by lia.
    case_bool_decide; [subst; by rewrite Hb|by rewrite orb_false_r].
Qed.

Lemma set_bit_bits r c d : length r = 128%nat → 0 ≤ c → 0 ≤ d → Z.abs (c / 64 - d / 64) < 128 →
  ring_bit (set_counter_bit r d).1 c = ring_bit r c || bool_decide (c = d).
Proof.
  intros Hlen Hc Hd Hnear. unfold set_counter_bit, ring_bit. cbn [fst]. rewrite bit_mod, !ring_index_mod.
  pose proof (Z.mod_pos_bound c 64 ltac:(lia)). pose proof (Z.mod_pos_bound d 64 ltac:(lia)).
  destruct (decide (Z.to_nat ((d / 64) mod 128) = Z.to_nat ((c / 64) mod 128))) as [Heq|Hne].
  - rewrite Heq, list_lookup_total_insert_eq by (rewrite Hlen; apply slot_lt).
    rewrite Z.lor_spec, testbit_shiftl_1 by lia. f_equal. apply bool_decide_ext. split; [|by intros ->].
    intros. apply slot_eq in Heq; [|lia]. by apply same_bit.
  - rewrite list_lookup_total_insert_ne by done.
    rewrite (bool_decide_false (c = d)) by congruence. by rewrite orb_false_r.
Qed.

Lemma length_set_bit r c : length (set_counter_bit r c).1 = length r.
Proof. unfold set_counter_bit. cbn. by rewrite length_insert. Qed.

(** Moving the top from [h] to [c] clears exactly the blocks in between. *)
Lemma ring_advance_bits r h c d : length r = 128%nat → 0 ≤ h < c → 0 ≤ d → c / 64 - 128 < d / 64 ≤ c / 64 →
  ring_bit (advance r h c) d = if decide (h / 64 < d / 64) then false else ring_bit r d.
Proof.
  intros Hlen Hhc Hd Hw. unfold advance, ring_bit. rewrite !block_div, ring_index_mod.
  change REPLAY_RING_BLOCKS with 128. assert (h / 64 ≤ c / 64) by (apply Z.div_le_mono; lia).
  set (n := Z.to_nat (if 128 <? c / 64 - h / 64 then 128 else c / 64 - h / 64)).
  destruct (decide (h / 64 < d / 64)) as [Hnew|Hold].
  - destruct (Z.ltb_spec 128 (c / 64 - h / 64)) as [Hbig|Hsmall].
    + (* every block was cleared *)
      pose proof (Z.mod_pos_bound (d / 64 - (h / 64 + 1)) 128 ltac:(lia)) as Hm.
      rewrite <- (Z.mod_add (d / 64) (- ((d / 64 - (h / 64 + 1)) / 128)) 128) by lia.
      pose proof (Z.div_mod (d / 64 - (h / 64 + 1)) 128 ltac:(lia)).
      rewrite clear_blocks_hit; [apply Z.bits_0|done|]. subst n. lia.
    + rewrite clear_blocks_hit; [apply Z.bits_0|done|]. subst n. lia.
  - rewrite clear_blocks_other; [done|]. intros k Hk Heq.
    destruct (Z.ltb_spec 128 (c / 64 - h / 64)); [lia|]. subst n. apply slot_eq in Heq; lia.
Qed.

Lemma window_init : holds_set default_window OwnerWindowSpec.init.
Proof. split; [done|done|set_solver|done]. Qed.

Lemma ring_bit_zero c : ring_bit (replicate 128 0) c = false.
Proof. unfold ring_bit. rewrite ring_index_mod, lookup_total_replicate_2 by apply slot_lt. apply Z.bits_0. Qed.

(** Marking a counter within reach of the top [h]. *)
Lemma set_bit_holds s r h c : is_u64 c → length r = 128%nat → 0 ≤ h → c ≤ h → h / 64 - 128 < c / 64 ≤ h / 64 →
  (∀ d, 0 ≤ d → h / 64 - 128 < d / 64 ≤ h / 64 → ring_bit r d = bool_decide (d ∈ OwnerWindowSpec.seen s)) →
  (∀ d, d ∈ OwnerWindowSpec.seen s → 0 ≤ d ≤ h) →
  holds_set (mkWindow (Some h) (set_counter_bit r c).1)
    (OwnerWindowSpec.mkState (Some h) ({[c]} ∪ OwnerWindowSpec.seen s))
  ∧ (set_counter_bit r c).2 = bool_decide (c ∉ OwnerWindowSpec.seen s).
Proof.
  intros Hc Hr H0 Hle Hnear Hb Hs. split.
  - split; cbn [ring highest OwnerWindowSpec.top OwnerWindowSpec.seen]; [by rewrite length_set_bit|done| |].
    + intros d [->%elem_of_singleton|Hd]%elem_of_union; exists h; (split; [done|]); [mlia|by apply Hs].
    + split; [done|]. intros d Hd Hw. rewrite set_bit_bits by (done || mlia || lia). rewrite Hb by done.
      rewrite <- bool_decide_or. apply bool_decide_ext. set_solver.
  - rewrite set_bit_fresh, Hb by (mlia || lia). by rewrite bool_decide_not.
Qed.

Lemma accept_refines w s c : holds_set w s → is_u64 c →
  holds_set (accept w c).1 (OwnerWindowSpec.accept s c)
  ∧ (accept w c).2 = OwnerWindowSpec.fresh s c.
Proof.
  intros Hrep Hc. pose proof Hrep as [Hlen Htop Hseen Hbits].
  unfold accept, OwnerWindowSpec.accept, OwnerWindowSpec.fresh, OwnerWindowSpec.too_old. rewrite Htop.
  destruct (Z.eqb_spec c U64_MAX) as [->|Hmax]; [done|]. cbn [orb negb andb].
  pose proof (λ r h, set_bit_holds s r h c Hc) as Hset.
  destruct (OwnerWindowSpec.top s) as [h|] eqn:Hh.
  - destruct Hbits as [H0 Hbits]. assert (∀ d, d ∈ OwnerWindowSpec.seen s → 0 ≤ d ≤ h) as Hs
      by (intros d (h' & [= <-] & ?)%Hseen; done).
    destruct (Z.ltb_spec h c) as [Hgt|Hle].
    + assert ((8128 <? h - c) = false) as -> by (apply Z.ltb_ge; lia). cbn [orb negb andb]. rewrite Z.max_r by lia.
      assert (h / 64 ≤ c / 64) by (apply Z.div_le_mono; lia).
      specialize (Hset (advance (ring w) h c) c). destruct (set_counter_bit _ _) as [r' f]. cbn [fst snd] in *.
      apply Hset; [unfold advance; by rewrite length_clear_blocks|mlia|lia|lia| |intros d ?%Hs; lia].
      intros d Hd Hw. rewrite ring_advance_bits by (done || lia). destruct (decide (h / 64 < d / 64)) as [Hn|Ho].
      * rewrite bool_decide_false; [done|]. intros Hin%Hs. pose proof (Z.div_le_mono d h 64). lia.
      * apply Hbits; [done|lia].
    + change REPLAY_WINDOW_SIZE with 8128. destruct (Z.ltb_spec 8128 (h - c)) as [|Hin]; cbn [orb negb andb]; [done|].
      rewrite Z.max_l by lia. specialize (Hset (ring w) h).
      destruct (set_counter_bit (ring w) c) as [r' f]. cbn [fst snd] in *.
      apply Hset; [done|done|done| |done|done]. pose proof (Z.div_le_mono c h 64).
      pose proof (Z.div_mod h 64 ltac:(lia)). pose proof (Z.div_mod c 64 ltac:(lia)).
      pose proof (Z.mod_pos_bound h 64 ltac:(lia)). pose proof (Z.mod_pos_bound c 64 ltac:(lia)). lia.
  - cbn [orb negb andb]. specialize (Hset (ring w) c). destruct (set_counter_bit (ring w) c) as [r' f]. cbn [fst snd] in *.
    apply Hset; [done|mlia|lia|lia| |intros d (h & ? & _)%Hseen; congruence].
    intros d Hd Hw. rewrite Hbits, ring_bit_zero, bool_decide_false; [done|]. intros (h & ? & _)%Hseen. congruence.
Qed.

Lemma can_accept_refines w s c : holds_set w s → is_u64 c → can_accept w c = OwnerWindowSpec.fresh s c.
Proof.
  intros Hrep Hc. pose proof Hrep as [Hlen Htop Hseen Hbits].
  unfold can_accept, OwnerWindowSpec.fresh, OwnerWindowSpec.too_old. rewrite Htop.
  destruct (Z.eqb_spec c U64_MAX) as [->|Hmax]; [done|]. cbn [negb andb].
  destruct (OwnerWindowSpec.top s) as [h|] eqn:Hh.
  - destruct Hbits as [H0 Hbits]. destruct (Z.ltb_spec h c) as [Hgt|Hle].
    + assert ((8128 <? h - c) = false) as -> by (apply Z.ltb_ge; lia).
      rewrite bool_decide_true; [done|]. intros (h' & [= <-] & ?)%Hseen. lia.
    + change REPLAY_WINDOW_SIZE with 8128.
      destruct (Z.leb_spec (h - c) 8128), (Z.ltb_spec 8128 (h - c)); [lia| |done|lia]. cbn [negb andb].
      rewrite bit_mod, land_bit_zero by (pose proof (Z.mod_pos_bound c 64); lia).
      rewrite bool_decide_not. f_equal. apply Hbits; [mlia|].
      pose proof (Z.div_mod h 64 ltac:(lia)). pose proof (Z.div_mod c 64 ltac:(lia)).
      pose proof (Z.mod_pos_bound h 64 ltac:(lia)). pose proof (Z.mod_pos_bound c 64 ltac:(lia)). lia.
  - rewrite bool_decide_true; [done|]. intros (h & ? & _)%Hseen. congruence.
Qed.

End window.

(** ** Traffic through one window *)

Module OwnerWindowTrace.

Inductive event := CanAccept (c : Z) | Accept (c : Z) | Clear.

Definition event_counter (e : event) : Z := match e with CanAccept c | Accept c => c | Clear => 0 end.

Definition step (w : OwnerWindow.ReplayWindow) (e : event) : OwnerWindow.ReplayWindow * bool :=
  match e with
  | CanAccept c => (w, OwnerWindow.can_accept w c)
  | Accept c => OwnerWindow.accept w c
  | Clear => (OwnerWindow.default_window, true)
  end.

Definition spec_step (s : OwnerWindowSpec.State) (e : event) : OwnerWindowSpec.State * bool :=
  match e with
  | CanAccept c => (s, OwnerWindowSpec.fresh s c)
  | Accept c => (OwnerWindowSpec.accept s c, OwnerWindowSpec.fresh s c)
  | Clear => (OwnerWindowSpec.init, true)
  end.

Fixpoint answers {S : Type} (stepf : S → event → S * bool) (s : S) (es : list event) : list bool :=
  match es with
  | [] => []
  | e :: es => let '(s, b) := stepf s e in b :: answers stepf s es
  end.

End OwnerWindowTrace.

(** C14: the dataplane's ring of blocks is a sliding window over the set of
    accepted counters. On every sequence of probes, acceptances and resets it
    answers as the window that remembers every accepted counter does: fresh
    exactly when the counter is not the reserved ceiling, not more than 8128
    below the highest accepted one and not accepted before. *)
Theorem owner_window_refines (es : list OwnerWindowTrace.event) :
  Forall (λ e, is_u64 (OwnerWindowTrace.event_counter e)) es →
  OwnerWindowTrace.answers OwnerWindowTrace.step OwnerWindow.default_window es
  = OwnerWindowTrace.answers OwnerWindowTrace.spec_step OwnerWindowSpec.init es.
Proof.
  intros Hall. pose proof window_init as Hrep. revert Hrep Hall.
  generalize OwnerWindow.default_window OwnerWindowSpec.init. induction es as [|e es IH]; intros w s Hrep Hall; [done|].
  apply Forall_cons in Hall as [He Hall]. destruct e as [c|c|]; cbn in He |- *.
  - rewrite (can_accept_refines w s c) by done. f_equal. by apply IH.
  - destruct (accept_refines w s c Hrep He) as [Hrep' Hf].
    destruct (OwnerWindow.accept w c) as [w' b]. cbn in *. rewrite Hf. f_equal. by apply IH.
  - f_equal. apply IH; [apply window_init|done].
Qed.

Lemma owner_window_refines_witness :
  OwnerWindowTrace.answers OwnerWindowTrace.step OwnerWindow.default_window
    (OwnerWindowTrace.Accept <$> [10; 8; 10; 8138; 10; 9; 9; U64_MAX])
  = [true; true; false; true; false; false; false; false].
Proof.
  rewrite owner_window_refines; [by vm_compute|]. repeat constructor; cbn; mlia.
Defined.
