(* ===== verification/OwnerEpochs.v ===== *)
(** * Key epochs of a dataplane owner
    ([crates/fips-core/src/dataplane/owner_state.rs], [owner_io.rs],
    [owner_retire.rs])

    An owner is the receive state of one link (FMP) or session (FSP): the current
    key, during a rekey the pending next one, and while old packets drain the
    previous one, each with its own replay window. A packet is reserved under one
    of them, decrypted off-task, and completed later, when the epochs may have
    moved: the previous key dropped, the pending one promoted or replaced.
    [OwnerState] is the part of the source's record that decides which packet is
    delivered; [OwnerTrace] runs it through reservations, completions and rekeys
    in any order.

    An owner has one protocol for life, and of the fields the source has twice,
    for FMP and for FSP, only those of its protocol are ever set: the model has
    each once. A key is a number; the identity of a send-counter authority, which
    the source compares as a pointer, is a number. *)

From S2P Require Import Prelude OwnerReplay.

Local Open Scope Z_scope.

Inductive PacketProtocol := Fmp | Fsp.
Inductive DataplaneReceiveEpoch := Current | Previous | Pending.
Inductive Lane := Priority | Bulk | Background.

#[export] Instance PacketProtocol_eq_dec : EqDecision PacketProtocol.
Proof. solve_decision. Defined.
#[export] Instance DataplaneReceiveEpoch_eq_dec : EqDecision DataplaneReceiveEpoch.
Proof. solve_decision. Defined.
#[export] Instance DataplaneReceiveEpoch_countable : Countable DataplaneReceiveEpoch.
Proof.
  refine (inj_countable' (λ e, match e with Current => 0 | Previous => 1 | Pending => 2 end)
    (λ z, if z =? 0 then Current else if z =? 1 then Previous else Pending) _).
  by intros [].
Defined.
#[export] Instance Lane_eq_dec : EqDecision Lane.
Proof. solve_decision. Defined.

Module OwnerState.
Import OwnerWindow.

Inductive OwnerReserveError := StaleGeneration | InFlightFull | Replay.
Inductive OwnerReserveBlockReason := TotalInFlight | BulkLane.

(** [(DataplaneReceiveEpoch, u64)]: the epoch and, for a pending one, its instance. *)
Abbreviation EpochId := (DataplaneReceiveEpoch * Z)%type (only parsing).

Record OwnerState := mkOwner {
  protocol : PacketProtocol;
  generation : Z;
  in_flight_limit : Z;
  in_flight : Z;
  bulk_in_flight : Z;
  background_in_flight : Z;
  crypto_open : option Z;
  previous_open : option Z;
  draining_generation : option (Z * option Z);
  pending_open : option Z;
  pending_authority : option Z;
  pending_k_bit : option bool;
  pending_authenticated_k_bit : option bool;
  pending_replay_window : option ReplayWindow;
  current_k_bit : bool;
  previous_draining_k_bit : option bool;
  replay_window : ReplayWindow;
  pending_replay_counters : gset (EpochId * Z);
  pending_receive_epoch_instance : Z;
  previous_replay_window : option ReplayWindow
}.

Definition new (protocol : PacketProtocol) (generation in_flight_limit : Z) (current_k_bit : option bool)
    (previous_draining_k_bit : option bool) : OwnerState :=
  mkOwner protocol generation in_flight_limit 0 0 0 None None None None None None None None
    (default false current_k_bit) previous_draining_k_bit OwnerWindow.default_window ∅ 0 None.

(** ** Field updates *)

Definition set_flight (self : OwnerState) (total bulk background : Z) : OwnerState :=
  mkOwner (protocol self) (generation self) (in_flight_limit self) total bulk background
    (crypto_open self) (previous_open self) (draining_generation self) (pending_open self)
    (pending_authority self) (pending_k_bit self) (pending_authenticated_k_bit self)
    (pending_replay_window self) (current_k_bit self) (previous_draining_k_bit self)
    (replay_window self) (pending_replay_counters self) (pending_receive_epoch_instance self)
    (previous_replay_window self).

Definition set_crypto (self : OwnerState) (open : option Z) : OwnerState :=
  mkOwner (protocol self) (generation self) (in_flight_limit self) (in_flight self) (bulk_in_flight self)
    (background_in_flight self) open (previous_open self) (draining_generation self) (pending_open self)
    (pending_authority self) (pending_k_bit self) (pending_authenticated_k_bit self)
    (pending_replay_window self) (current_k_bit self) (previous_draining_k_bit self)
    (replay_window self) (pending_replay_counters self) (pending_receive_epoch_instance self)
    (previous_replay_window self).

Definition set_previous (self : OwnerState) (open : option Z) (window : option ReplayWindow)
    (draining : option (Z * option Z)) : OwnerState :=
  mkOwner (protocol self) (generation self) (in_flight_limit self) (in_flight self) (bulk_in_flight self)
    (background_in_flight self) (crypto_open self) open draining (pending_open self)
    (pending_authority self) (pending_k_bit self) (pending_authenticated_k_bit self)
    (pending_replay_window self) (current_k_bit self) (previous_draining_k_bit self)
    (replay_window self) (pending_replay_counters self) (pending_receive_epoch_instance self) window.

Definition set_pending (self : OwnerState) (open authority : option Z) (k_bit authenticated : option bool)
    (window : option ReplayWindow) : OwnerState :=
  mkOwner (protocol self) (generation self) (in_flight_limit self) (in_flight self) (bulk_in_flight self)
    (background_in_flight self) (crypto_open self) (previous_open self) (draining_generation self) open
    authority k_bit authenticated window (current_k_bit self) (previous_draining_k_bit self)
    (replay_window self) (pending_replay_counters self) (pending_receive_epoch_instance self)
    (previous_replay_window self).

Definition set_k_bits (self : OwnerState) (current : bool) (previous : option bool) : OwnerState :=
  mkOwner (protocol self) (generation self) (in_flight_limit self) (in_flight self) (bulk_in_flight self)
    (background_in_flight self) (crypto_open self) (previous_open self) (draining_generation self)
    (pending_open self) (pending_authority self) (pending_k_bit self) (pending_authenticated_k_bit self)
    (pending_replay_window self) current previous (replay_window self) (pending_replay_counters self)
    (pending_receive_epoch_instance self) (previous_replay_window self).

Definition set_window (self : OwnerState) (window : ReplayWindow) : OwnerState :=
  mkOwner (protocol self) (generation self) (in_flight_limit self) (in_flight self) (bulk_in_flight self)
    (background_in_flight self) (crypto_open self) (previous_open self) (draining_generation self)
    (pending_open self) (pending_authority self) (pending_k_bit self) (pending_authenticated_k_bit self)
    (pending_replay_window self) (current_k_bit self) (previous_draining_k_bit self) window
    (pending_replay_counters self) (pending_receive_epoch_instance self) (previous_replay_window self).

Definition set_counters (self : OwnerState) (counters : gset (EpochId * Z)) (instance : Z) : OwnerState :=
  mkOwner (protocol self) (generation self) (in_flight_limit self) (in_flight self) (bulk_in_flight self)
    (background_in_flight self) (crypto_open self) (previous_open self) (draining_generation self)
    (pending_open self) (pending_authority self) (pending_k_bit self) (pending_authenticated_k_bit self)
    (pending_replay_window self) (current_k_bit self) (previous_draining_k_bit self) (replay_window self)
    counters instance (previous_replay_window self).

(** ** Installing keys *)

(** The receive state [rekey] resets. *)
Definition rekey (self : OwnerState) (generation : Z) : OwnerState :=
  mkOwner (protocol self) generation (in_flight_limit self) (in_flight self) (bulk_in_flight self)
    (background_in_flight self) None None None None None None None None false None
    OwnerWindow.default_window ∅ (pending_receive_epoch_instance self) None.

Definition advance_pending_receive_epoch (self : OwnerState) : OwnerState :=
  set_counters self (filter (λ ec, ec.1.1 ≠ Pending) (pending_replay_counters self))
    (wrap_u64 (pending_receive_epoch_instance self + 1)).

Definition clear_pending_receive_epoch (self : OwnerState) : OwnerState :=
  set_pending (advance_pending_receive_epoch self) None None None None None.

(** [install_fmp_pending_receive_epoch] and [install_fsp_pending_epoch]. *)
Definition install_pending_epoch (self : OwnerState) (k_bit : bool) (open authority : Z)
    : OwnerState * bool :=
  if Bool.eqb k_bit (current_k_bit self) then (self, false)
  else (set_pending (advance_pending_receive_epoch self) (Some open) (Some authority) (Some k_bit) None
          (Some OwnerWindow.default_window), true).

(** [confirm_fmp_pending_receive_epoch]. *)
Definition confirm_pending_receive_epoch (self : OwnerState) (received_k_bit : bool) : OwnerState * bool :=
  if bool_decide (pending_authenticated_k_bit self ≠ Some received_k_bit) then (self, false)
  else
    let self := set_pending self (pending_open self) (pending_authority self) (Some received_k_bit)
                  (pending_authenticated_k_bit self) (pending_replay_window self) in
    (self, bool_decide (protocol self = Fmp) && bool_decide (is_Some (pending_open self))
           && bool_decide (is_Some (pending_replay_window self))).

(** [set_fmp_epoch] and [set_fsp_epoch]. *)
Definition set_epoch (self : OwnerState) (current : bool) (previous : option bool) : OwnerState :=
  let self := set_k_bits self current previous in
  let self := match previous with None => set_previous self None None None | Some _ => self end in
  if bool_decide (pending_k_bit self = Some current) then clear_pending_receive_epoch self else self.

(** The fields of [OwnerConfig] the receive state depends on. *)
Record OwnerConfig := mkConfig {
  c_generation : Z;
  c_authority : option Z;
  c_current_k_bit : option bool;
  c_previous_draining_k_bit : option bool
}.

Definition is_pending_session (self : OwnerState) (current : option Z) : bool :=
  match current, pending_authority self with
  | Some c, Some p => c =? p
  | _, _ => false
  end.

(** [rekey_preserving_fsp_path_activity] differs from [rekey] only in activity
    fields. *)
Definition apply_live_config (self : OwnerState) (config : OwnerConfig) : OwnerState :=
  let self := if negb (c_generation config =? generation self) then rekey self (c_generation config) else self in
  match c_current_k_bit config with
  | Some current => set_epoch self current (c_previous_draining_k_bit config)
  | None => self
  end.

Definition remap_draining_receive_epoch (self : OwnerState) (e : EpochId) : option EpochId :=
  match e.1 with
  | Current => Some (Previous, 0)
  | Pending =>
      match draining_generation self with
      | Some (_, Some promoted) => if promoted =? e.2 then Some (Current, 0) else None
      | _ => None
      end
  | Previous => None
  end.

(** [install_fmp_session] and [install_fsp_session]. The loop over the old
    reservations inserts the remapped ones into the set [rekey] emptied. *)
Definition install_session (self : OwnerState) (config : OwnerConfig) (open : Z) : OwnerState :=
  let generation_changed := negb (c_generation config =? generation self) in
  let previous_epoch := generation_changed && bool_decide (is_Some (c_previous_draining_k_bit config)) in
  let promoted_pending_replay :=
    if generation_changed && is_pending_session self (c_authority config)
    then pending_replay_window self else None in
  let taken := if generation_changed && is_pending_session self (c_authority config)
    then set_pending self (pending_open self) (pending_authority self) (pending_k_bit self)
           (pending_authenticated_k_bit self) None
    else self in
  let previous_open := if previous_epoch then crypto_open self else None in
  let previous_generation :=
    (λ _, (generation self, (λ _, pending_receive_epoch_instance self) <$> promoted_pending_replay))
      <$> previous_open in
  let old_window := replay_window self in
  let old_reservations := pending_replay_counters self in
  let taken := match previous_open with
    | Some _ => set_counters (set_window taken OwnerWindow.default_window) ∅ (pending_receive_epoch_instance self)
    | None => taken
    end in
  let self := set_crypto (apply_live_config taken config) (Some open) in
  let self := match promoted_pending_replay with
    | Some replay => set_pending (set_window self replay) None None None None None
    | None => self
    end in
  match previous_open with
  | Some old =>
      let self := set_previous self (Some old) (Some old_window) previous_generation in
      set_counters self
        (pending_replay_counters self
         ∪ set_omap (λ ec, (λ e, (e, ec.2)) <$> remap_draining_receive_epoch self ec.1) old_reservations)
        (pending_receive_epoch_instance self)
  | None =>
      match previous_draining_k_bit self with
      | None => set_previous self None None None
      | Some _ => self
      end
  end.

(** ** Reserving and completing a packet *)

Record SocketPacket := mkPacket {
  p_generation : Z;
  p_epoch : DataplaneReceiveEpoch;
  p_counter : Z;
  p_lane : Lane;
  p_k_bit : bool
}.

(** The fields of [OwnerReservation] that completion reads. [r_key] is the key
    the dispatcher looked up for it, [open_key] of the reserved epoch. *)
Record OwnerReservation := mkReservation {
  r_generation : Z;
  r_counter : Z;
  r_lane : Lane;
  r_epoch : EpochId;
  r_k_bit : bool;
  r_key : option Z
}.

Definition retains_draining_generation (self : OwnerState) (g : Z) : bool :=
  match draining_generation self with
  | Some (previous, _) => (previous =? g) && bool_decide (is_Some (previous_open self))
  | None => false
  end.

Definition open_key (self : OwnerState) (e : DataplaneReceiveEpoch) : option Z :=
  match e with
  | Previous => previous_open self
  | Pending => pending_open self
  | Current => crypto_open self
  end.

(** [uses_previous_fmp_receive_epoch] by the route's epoch,
    [uses_previous_fsp_receive_epoch] by the K bit of the packet. *)
Definition uses_previous (self : OwnerState) (e : DataplaneReceiveEpoch) (k_bit : bool) : bool :=
  match protocol self with
  | Fmp => bool_decide (e = Previous)
  | Fsp => bool_decide (previous_draining_k_bit self = Some k_bit) && negb (Bool.eqb k_bit (current_k_bit self))
  end && bool_decide (is_Some (previous_open self)) && bool_decide (is_Some (previous_replay_window self)).

Definition uses_pending (self : OwnerState) (e : DataplaneReceiveEpoch) (k_bit : bool) : bool :=
  match protocol self with
  | Fmp => bool_decide (e = Pending)
  | Fsp => bool_decide (pending_k_bit self = Some k_bit) && negb (Bool.eqb k_bit (current_k_bit self))
  end && bool_decide (is_Some (pending_open self)) && bool_decide (is_Some (pending_replay_window self)).

Definition bulk_lane_in_flight_limit (self : OwnerState) : Z :=
  Z.max (sat_sub (in_flight_limit self) (if 1 <? in_flight_limit self then 1 else 0)) 1.

Definition reserve_block_reason (self : OwnerState) (lane : Lane) : option OwnerReserveBlockReason :=
  if in_flight_limit self <=? in_flight self then Some TotalInFlight
  else if bool_decide (lane = Background) && (1 <=? background_in_flight self) then Some BulkLane
  else if bool_decide (lane ≠ Priority) && (bulk_lane_in_flight_limit self <=? bulk_in_flight self)
  then Some BulkLane
  else None.

Definition reserve_class (self : OwnerState) (lane : Lane) : OwnerState :=
  set_flight self (sat_add_u64 (in_flight self) 1)
    (if bool_decide (lane ≠ Priority) then sat_add_u64 (bulk_in_flight self) 1 else bulk_in_flight self)
    (if bool_decide (lane = Background) then sat_add_u64 (background_in_flight self) 1
     else background_in_flight self).

Definition replay_window_for_epoch (self : OwnerState) (e : DataplaneReceiveEpoch) : option ReplayWindow :=
  match e with
  | Current => Some (replay_window self)
  | Pending => pending_replay_window self
  | Previous => previous_replay_window self
  end.

Definition set_window_for_epoch (self : OwnerState) (e : DataplaneReceiveEpoch) (w : ReplayWindow) : OwnerState :=
  match e with
  | Current => set_window self w
  | Pending => set_pending self (pending_open self) (pending_authority self) (pending_k_bit self)
                 (pending_authenticated_k_bit self) (Some w)
  | Previous => set_previous self (previous_open self) (Some w) (draining_generation self)
  end.

Definition reserve (self : OwnerState) (packet : SocketPacket)
    : OwnerState * outcome OwnerReserveError OwnerReservation :=
  let epoch :=
    if p_generation packet =? generation self then Some (p_epoch packet)
    else if negb (retains_draining_generation self (p_generation packet)) then None
    else
      match protocol self with
      | Fmp =>
          let instance := default 0 (draining_generation self ≫= snd) in
          fst <$> remap_draining_receive_epoch self (p_epoch packet, instance)
      | Fsp => Some (p_epoch packet)
      end in
  match epoch with
  | None => (self, Err StaleGeneration)
  | Some epoch =>
      let receive_epoch :=
        if uses_previous self epoch (p_k_bit packet) then Previous
        else if uses_pending self epoch (p_k_bit packet) then Pending
        else Current in
      match reserve_block_reason self (p_lane packet) with
      | Some _ => (self, Err InFlightFull)
      | None =>
          match replay_window_for_epoch self receive_epoch with
          | None => (self, Panic)
          | Some window =>
              if negb (can_accept window (p_counter packet)) then (self, Err Replay)
              else
                let id := (receive_epoch, match receive_epoch with
                                          | Pending => pending_receive_epoch_instance self
                                          | _ => 0
                                          end) in
                if bool_decide ((id, p_counter packet) ∈ pending_replay_counters self)
                then (self, Err Replay)
                else
                  (reserve_class
                     (set_counters self ({[(id, p_counter packet)]} ∪ pending_replay_counters self)
                        (pending_receive_epoch_instance self)) (p_lane packet),
                   Ok (mkReservation (generation self) (p_counter packet) (p_lane packet) id
                         (p_k_bit packet) (open_key self receive_epoch)))
          end
      end
  end.

(** The epoch a reservation completes under: its own, or what became of it while
    its generation drains. *)
Definition completion_epoch (self : OwnerState) (r : OwnerReservation) : option EpochId :=
  if r_generation r =? generation self then Some (r_epoch r)
  else if retains_draining_generation self (r_generation r)
       then remap_draining_receive_epoch self (r_epoch r)
       else None.

Definition complete_replay_reservation (self : OwnerState) (r : OwnerReservation) (authenticated : bool)
    : OwnerState * bool :=
  match completion_epoch self r with
  | None => (self, false)
  | Some (receive_epoch, instance) =>
      let was_pending := bool_decide (((receive_epoch, instance), r_counter r) ∈ pending_replay_counters self) in
      let self := set_counters self (pending_replay_counters self ∖ {[((receive_epoch, instance), r_counter r)]})
                    (pending_receive_epoch_instance self) in
      if negb authenticated then (self, true)
      else if bool_decide (receive_epoch = Pending) && negb (instance =? pending_receive_epoch_instance self)
      then (self, false)
      else
        let '(self, accepted) :=
          if was_pending then
            match replay_window_for_epoch self receive_epoch with
            | Some w =>
                let '(w, fresh) := accept w (r_counter r) in (set_window_for_epoch self receive_epoch w, fresh)
            | None => (self, false)
            end
          else (self, false) in
        let self :=
          if accepted && bool_decide (protocol self = Fmp) && bool_decide (receive_epoch = Pending) then
            set_pending self (pending_open self) (pending_authority self) (pending_k_bit self)
              (Some (default (r_k_bit r) (pending_authenticated_k_bit self))) (pending_replay_window self)
          else self in
        (self, accepted)
  end.

(** One result of [retire_ready_slots_into]: a stale generation is dropped, any
    other completes; an opened packet is delivered when its reservation was
    accepted. The counters of packets in flight go down. *)
Definition retire (self : OwnerState) (r : OwnerReservation) (opened : bool) : OwnerState * bool :=
  let stale := negb (r_generation r =? generation self)
               && negb (retains_draining_generation self (r_generation r)) in
  let '(self, accepted) := if stale then (self, false) else complete_replay_reservation self r opened in
  (set_flight self (sat_sub (in_flight self) 1)
     (if bool_decide (r_lane r ≠ Priority) then sat_sub (bulk_in_flight self) 1 else bulk_in_flight self)
     (if bool_decide (r_lane r = Background) then sat_sub (background_in_flight self) 1
      else background_in_flight self),
   opened && accepted).

End OwnerState.

(** ** Histories *)

Module OwnerTrace.
Import OwnerState.

(** The owner, the packets in flight, what was delivered (the key that opened the
    packet and its counter, newest first), and the keys and generations that have
    been installed. *)
Record Sys := mkSys {
  own : OwnerState;
  flight : list OwnerReservation;
  delivered : list (Z * Z);
  used : gset Z;
  gens : gset Z
}.

Inductive event :=
| Reserve (packet : SocketPacket)
| Retire (i : nat) (opened : bool)
| InstallPending (k_bit : bool) (open authority : Z)
| ConfirmPending (k_bit : bool)
| ClearPending
| SetEpoch (current : bool) (previous : option bool)
| InstallSession (config : OwnerConfig) (open : Z).

(** A packet whose epoch has no key completes as a failure. *)
Definition step (s : Sys) (ev : event) : Sys :=
  match ev with
  | Reserve packet =>
      let '(o, r) := reserve (own s) packet in
      mkSys o (match r with Ok r => flight s ++ [r] | _ => flight s end) (delivered s) (used s) (gens s)
  | Retire i opened =>
      match flight s !! i with
      | None => s
      | Some r =>
          let opened := opened && bool_decide (is_Some (r_key r)) in
          let '(o, ok) := retire (own s) r opened in
          mkSys o (delete i (flight s))
            (if ok then (default 0 (r_key r), r_counter r) :: delivered s else delivered s)
            (used s) (gens s)
      end
  | InstallPending k_bit open authority =>
      mkSys (install_pending_epoch (own s) k_bit open authority).1 (flight s) (delivered s)
        ({[open]} ∪ used s) (gens s)
  | ConfirmPending k_bit =>
      mkSys (confirm_pending_receive_epoch (own s) k_bit).1 (flight s) (delivered s) (used s) (gens s)
  | ClearPending => mkSys (clear_pending_receive_epoch (own s)) (flight s) (delivered s) (used s) (gens s)
  | SetEpoch current previous =>
      mkSys (set_epoch (own s) current previous) (flight s) (delivered s) (used s) (gens s)
  | InstallSession config open =>
      mkSys (install_session (own s) config open) (flight s) (delivered s) ({[open]} ∪ used s)
        ({[c_generation config]} ∪ gens s)
  end.

(** What the callers guarantee: a pending key is new; a refresh of the same
    generation brings the same key; a new generation was never used before and
    brings the pending key when it confirms the pending session, a new key
    otherwise. *)
Definition allowed (s : Sys) (ev : event) : Prop :=
  match ev with
  | Reserve packet => is_u64 (p_counter packet)
  | InstallPending _ open _ => open ∉ used s
  | InstallSession config open =>
      if decide (c_generation config = generation (own s))
      then crypto_open (own s) = Some open ∨ (crypto_open (own s) = None ∧ open ∉ used s)
      else (c_generation config ∉ gens s)
           ∧ (if is_pending_session (own s) (c_authority config)
              then pending_open (own s) = Some open else open ∉ used s)
  | _ => True
  end.

Fixpoint valid (s : Sys) (evs : list event) : Prop :=
  match evs with
  | [] => True
  | ev :: evs => allowed s ev ∧ valid (step s ev) evs
  end.

Definition run (s : Sys) (evs : list event) : Sys := foldl step s evs.

Definition start (protocol : PacketProtocol) (generation limit : Z) (k_bit : option bool) : Sys :=
  mkSys (new protocol generation limit k_bit None) [] [] ∅ {[generation]}.

End OwnerTrace.

(** ** The invariant of keys and windows *)

Section epochs.
Import OwnerWindow OwnerState OwnerTrace.

(** Every window remembers what was delivered under its key. *)
Definition covers (o : OwnerState) (log : list (Z * Z)) (e : DataplaneReceiveEpoch) : Prop :=
  ∀ w, replay_window_for_epoch o e = Some w →
    ∃ sp, holds_set w sp ∧ ∀ k c, open_key o e = Some k → (k, c) ∈ log → c ∈ OwnerWindowSpec.seen sp.

(** A packet in flight completes under the key it was opened with, or not at all. *)
Definition follows_key (o : OwnerState) (r : OwnerReservation) : Prop :=
  ∀ k e i, r_key r = Some k → completion_epoch o r = Some (e, i) →
    (e = Pending → i = pending_receive_epoch_instance o) →
    is_Some (replay_window_for_epoch o e) → open_key o e = Some k.

Record inv (s : Sys) (n : Z) : Prop := {
  inv_covers : ∀ e, covers (own s) (delivered s) e;
  inv_distinct : ∀ e e' k, open_key (own s) e = Some k → open_key (own s) e' = Some k → e = e';
  inv_paired : ∀ e, e ≠ Current →
    is_Some (open_key (own s) e) ↔ is_Some (replay_window_for_epoch (own s) e);
  inv_used : (∀ e k, open_key (own s) e = Some k → k ∈ used s)
    ∧ (∀ k c, (k, c) ∈ delivered s → k ∈ used s)
    ∧ (∀ r k, r ∈ flight s → r_key r = Some k → k ∈ used s);
  inv_follows : ∀ r, r ∈ flight s → follows_key (own s) r;
  inv_flight : ∀ r, r ∈ flight s → is_u64 (r_counter r) ∧ r_generation r ∈ gens s
    ∧ ((r_epoch r).1 = Pending → (r_epoch r).2 ≤ pending_receive_epoch_instance (own s));
  inv_instance : 0 ≤ pending_receive_epoch_instance (own s) ≤ n;
  inv_gens : generation (own s) ∈ gens s
    ∧ ∀ g p, draining_generation (own s) = Some (g, p) → g ∈ gens s ∧ g ≠ generation (own s);
  inv_once : NoDup (delivered s)
}.

(** ** What each operation leaves of the keys *)

(** The part of the state the invariant reads. *)
Definition same_keys (o o' : OwnerState) : Prop :=
  generation o' = generation o ∧ draining_generation o' = draining_generation o
  ∧ pending_receive_epoch_instance o' = pending_receive_epoch_instance o
  ∧ (∀ e, open_key o' e = open_key o e) ∧ (∀ e, replay_window_for_epoch o' e = replay_window_for_epoch o e).

Lemma completion_epoch_same o o' r : same_keys o o' → completion_epoch o' r = completion_epoch o r.
Proof.
  intros (Hg & Hd & _ & Hk & _). unfold completion_epoch, retains_draining_generation, remap_draining_receive_epoch.
  pose proof (Hk Previous) as Hp. cbn in Hp. by rewrite Hg, Hd, Hp.
Qed.

Lemma covers_same o o' log e : same_keys o o' → covers o log e → covers o' log e.
Proof. intros (_ & _ & _ & Hk & Hw) Hc w. rewrite Hk, Hw. apply Hc. Qed.

Lemma follows_same o o' r : same_keys o o' → follows_key o r → follows_key o' r.
Proof.
  intros Hs Hf k e i. rewrite (completion_epoch_same o o' r Hs). destruct Hs as (_ & _ & Hi & Hk & Hw).
  rewrite Hi, Hk, Hw. apply Hf.
Qed.

Lemma inv_same s n o' : inv s n → same_keys (own s) o' →
  inv (mkSys o' (flight s) (delivered s) (used s) (gens s)) n.
Proof.
  intros [Hc Hd Hp Hu Hf Hfl Hi Hg Ho] Hs. pose proof Hs as (Hgen & Hdr & Hin & Hk & Hw).
  split; cbn [own flight delivered used gens].
  - intros e. by eapply covers_same.
  - intros e e' k. rewrite !Hk. apply Hd.
  - intros e He. rewrite Hk, Hw. by apply Hp.
  - destruct Hu as (Hu1 & Hu2 & Hu3). split; [|done]. intros e k. rewrite Hk. apply Hu1.
  - intros r Hr. eapply follows_same; [done|]. by apply Hf.
  - intros r Hr. rewrite Hin. by apply Hfl.
  - by rewrite Hin.
  - by rewrite Hgen, Hdr.
  - done.
Qed.

Lemma inv_later s n m : inv s n → n ≤ m → inv s m.
Proof. intros [Hc Hd Hp Hu Hf Hfl Hi Hg Ho] Hle. split; try done. lia. Qed.

Lemma inv_used_more s n u g : inv s n → used s ⊆ u → gens s ⊆ g →
  inv (mkSys (own s) (flight s) (delivered s) u g) n.
Proof.
  intros [Hc Hd Hp (Hu1 & Hu2 & Hu3) Hf Hfl Hi [Hg1 Hg2] Ho] Hu Hg. split; cbn; try done.
  - split; [|split]; intros; apply Hu; eauto.
  - intros r Hr. destruct (Hfl r Hr) as (? & ? & ?). auto.
  - split; [auto|]. intros g' p Hdr. destruct (Hg2 g' p Hdr). auto.
Qed.

Lemma inv_fewer s n fl : inv s n → fl ⊆ flight s →
  inv (mkSys (own s) fl (delivered s) (used s) (gens s)) n.
Proof.
  intros [Hc Hd Hp (Hu1 & Hu2 & Hu3) Hf Hfl Hi Hg Ho] Hsub. split; cbn; try done; [|by auto|by auto].
  split; [done|]. split; [done|]. intros r k Hr. by apply Hu3, Hsub.
Qed.

Lemma inv_reserve s n packet : inv s n → allowed s (Reserve packet) → inv (step s (Reserve packet)) n.
Proof.
  intros Hinv Hu. cbn in Hu. cbn [step]. destruct (reserve (own s) packet) as [o res] eqn:Hres.
  unfold reserve in Hres. destruct (if p_generation packet =? _ then _ else _) as [epoch|];
    [|simplify_eq; by destruct s].
  set (e := if uses_previous _ _ _ then _ else _) in Hres.
  destruct (reserve_block_reason _ _); [simplify_eq; by destruct s|].
  destruct (replay_window_for_epoch (own s) e) as [w|]; [|simplify_eq; by destruct s].
  destruct (negb _); [simplify_eq; by destruct s|].
  case_bool_decide as Hin; [simplify_eq; by destruct s|]. injection Hres as <- <-.
  assert (same_keys (own s) (reserve_class (set_counters (own s)
    ({[(e, match e with Pending => pending_receive_epoch_instance (own s) | _ => 0 end, p_counter packet)]}
     ∪ pending_replay_counters (own s)) (pending_receive_epoch_instance (own s))) (p_lane packet))) as Hsame by done.
  apply (inv_same _ _ _ Hinv) in Hsame as [Hc Hd Hp (Hu1 & Hu2 & Hu3) Hf Hfl Hi Hg Ho].
  split; try done; cbn [own flight delivered used gens] in *.
  - split; [done|]. split; [done|]. intros r k [Hr| ->%list_elem_of_singleton]%elem_of_app; [by apply Hu3|].
    cbn. apply (Hu1 e).
  - intros r [Hr| ->%list_elem_of_singleton]%elem_of_app; [by apply Hf|].
    intros k e' i Hk. unfold completion_epoch. cbn. rewrite Z.eqb_refl. intros [= <- <-] _ _. exact Hk.
  - intros r [Hr| ->%list_elem_of_singleton]%elem_of_app; [by apply Hfl|].
    split; [exact Hu|]. split; [exact (proj1 Hg)|]. cbn. clearbody e. intros ->. lia.
Qed.

(** Accepting a counter under the key [k] of epoch [e]. *)
Lemma inv_accept s n e w c k : inv s n → is_u64 c → replay_window_for_epoch (own s) e = Some w →
  open_key (own s) e = Some k →
  let '(w', fresh) := accept w c in
  inv (mkSys (set_window_for_epoch (own s) e w') (flight s)
    (if fresh then (k, c) :: delivered s else delivered s) (used s) (gens s)) n.
Proof.
  intros [Hc Hd Hp (Hu1 & Hu2 & Hu3) Hf Hfl Hi Hg Ho] Hcu Hw Hk.
  destruct (Hc e w Hw) as (sp & Hrep & Hseen). destruct (accept_refines w sp c Hrep Hcu) as [Hrep' Hfresh].
  destruct (accept w c) as [w' fresh]. cbn [fst snd] in *.
  assert (∀ e', open_key (set_window_for_epoch (own s) e w') e' = open_key (own s) e') as Hko by (by intros []; destruct e).
  assert (∀ e', replay_window_for_epoch (set_window_for_epoch (own s) e w') e'
    = if decide (e' = e) then Some w' else replay_window_for_epoch (own s) e') as Hwo by (by intros []; destruct e).
  assert (∀ e', is_Some (replay_window_for_epoch (set_window_for_epoch (own s) e w') e')
    ↔ is_Some (replay_window_for_epoch (own s) e')) as Hso.
  { intros e'. rewrite Hwo. destruct (decide _) as [->|]; [|done]. rewrite Hw. by split; eexists. }
  assert (∀ r, completion_epoch (set_window_for_epoch (own s) e w') r = completion_epoch (own s) r) as Hce
    by (by intros; destruct e).
  split; cbn [own flight delivered used gens].
  - intros e' w0. rewrite Hwo, Hko. destruct (decide (e' = e)) as [->|Hne].
    + intros [= <-]. exists (OwnerWindowSpec.accept sp c). split; [done|]. intros k' c' Hk' Hin.
      assert (k' = k) as -> by congruence.
      unfold OwnerWindowSpec.accept, OwnerWindowSpec.fresh in *. destruct (_ || _) eqn:Hold.
      * apply (Hseen k); [done|]. destruct fresh; [|done]. exfalso.
        apply orb_true_iff in Hold as [Ho1|Ho1]; rewrite Ho1 in Hfresh; cbn in Hfresh; [done|].
        by rewrite andb_false_r in Hfresh.
      * cbn. apply elem_of_union. destruct fresh; [|right; by apply (Hseen k)].
        apply elem_of_cons in Hin as [[= ->]|Hin]; [left; set_solver|right; by apply (Hseen k)].
    + intros Hw0. destruct (Hc e' w0 Hw0) as (sp0 & Hr0 & Hs0). exists sp0. split; [done|].
      intros k' c' Hk' Hin. apply (Hs0 k' c' Hk'). destruct fresh; [|done].
      apply elem_of_cons in Hin as [[= -> ->]|Hin]; [|done]. exfalso. apply Hne. by eapply Hd.
  - intros e1 e2 k'. rewrite !Hko. apply Hd.
  - intros e' He'. rewrite Hko, Hso. by apply Hp.
  - split; [intros e' k'; rewrite Hko; apply Hu1|]. split; [|done]. intros k' c' Hin.
    destruct fresh; [apply elem_of_cons in Hin as [[= -> ->]|Hin]|]; eauto.
  - intros r Hr k' e' i Hrk. rewrite Hce, Hko, Hso. replace (pending_receive_epoch_instance _)
      with (pending_receive_epoch_instance (own s)) by (by destruct e). by apply Hf.
  - intros r Hr. replace (pending_receive_epoch_instance _)
      with (pending_receive_epoch_instance (own s)) by (by destruct e). by apply Hfl.
  - by destruct e.
  - by destruct e.
  - destruct fresh; [|done]. apply NoDup_cons. split; [|done]. intros Hin%(Hseen k c Hk).
    unfold OwnerWindowSpec.fresh in Hfresh. rewrite (bool_decide_false (c ∉ _)) in Hfresh by auto.
    by rewrite andb_false_r in Hfresh.
Qed.

Lemma inv_complete s n r opened : inv s n → r ∈ flight s → (opened = true → is_Some (r_key r)) →
  let '(o, ok) := complete_replay_reservation (own s) r opened in
  inv (mkSys o (flight s) (if opened && ok then (default 0 (r_key r), r_counter r) :: delivered s else delivered s)
    (used s) (gens s)) n.
Proof.
  intros Hinv Hr Hkey. unfold complete_replay_reservation.
  destruct (completion_epoch (own s) r) as [[e i]|] eqn:Hce; [|rewrite andb_false_r; by destruct s].
  set (o1 := set_counters (own s) _ _).
  assert (same_keys (own s) o1) as Hsame by done. pose proof (inv_same _ _ _ Hinv Hsame) as Hinv1.
  destruct opened; cbn [negb andb]; [|exact Hinv1]. destruct (Hkey eq_refl) as [k Hk]. rewrite Hk. cbn [default from_option id].
  destruct (bool_decide (e = Pending) && negb (i =? pending_receive_epoch_instance o1)) eqn:Hstale; [exact Hinv1|].
  destruct (bool_decide ((e, i, r_counter r) ∈ pending_replay_counters (own s))); [|exact Hinv1].
  destruct (replay_window_for_epoch o1 e) as [w|] eqn:Hw; [|exact Hinv1].
  assert (open_key o1 e = Some k) as Hek.
  { destruct Hsame as (_ & _ & _ & Hk1 & Hw1). rewrite Hk1. rewrite Hw1 in Hw.
    apply (inv_follows _ _ Hinv r Hr k e i Hk Hce); [|by rewrite Hw].
    intros ->. rewrite bool_decide_true in Hstale by done. cbn in Hstale. apply negb_false_iff, Z.eqb_eq in Hstale. done. }
  destruct (inv_flight _ _ Hinv r Hr) as (Hcu & _ & _).
  pose proof (inv_accept _ _ e w (r_counter r) k Hinv1 Hcu Hw Hek) as Hacc. cbn [own flight delivered used gens] in Hacc.
  destruct (accept w (r_counter r)) as [w' fresh].
  destruct (fresh && _ && _); [|exact Hacc]. by apply (inv_same _ _ _ Hacc).
Qed.

Lemma inv_retire s n i opened : inv s n → inv (step s (Retire i opened)) n.
Proof.
  intros Hinv. cbn [step]. destruct (flight s !! i) as [r|] eqn:Hi; [|done].
  set (opened' := opened && _). assert (opened' = true → is_Some (r_key r)) as Hkey.
  { unfold opened'. intros [_ ?%bool_decide_eq_true]%andb_true_iff. done. }
  clearbody opened'. apply list_elem_of_lookup_2 in Hi as Hr. unfold retire.
  assert (∀ o ok, inv (mkSys o (flight s) (if opened' && ok then (default 0 (r_key r), r_counter r) :: delivered s
      else delivered s) (used s) (gens s)) n →
    inv (mkSys (set_flight o (sat_sub (in_flight o) 1)
     (if bool_decide (r_lane r ≠ Priority) then sat_sub (bulk_in_flight o) 1 else bulk_in_flight o)
     (if bool_decide (r_lane r = Background) then sat_sub (background_in_flight o) 1
      else background_in_flight o)) (delete i (flight s)) (if opened' && ok then (default 0 (r_key r), r_counter r) :: delivered s
      else delivered s) (used s) (gens s)) n) as Hdone.
  { intros o ok Ho. apply (inv_fewer _ _ (delete i (flight s))) in Ho;
      [|intros x; apply (sublist_subseteq (delete i (flight s))), sublist_delete].
    by eapply (inv_same _ _ _ Ho). }
  destruct (_ && _).
  - apply (Hdone (own s) false). rewrite andb_false_r. by destruct s.
  - pose proof (inv_complete s n r opened' Hinv Hr Hkey) as Hc.
    destruct (complete_replay_reservation (own s) r opened') as [o ok]. by apply Hdone.
Qed.

(** Forgetting the previous key. *)
Lemma inv_drop_previous s n : inv s n →
  inv (mkSys (set_previous (own s) None None None) (flight s) (delivered s) (used s) (gens s)) n.
Proof.
  intros [Hc Hd Hp (Hu1 & Hu2 & Hu3) Hf Hfl Hi [Hg _] Ho]. split; cbn [own flight delivered used gens]; try done.
  - intros [] w Hw; [apply (Hc Current w Hw)|done|apply (Hc Pending w Hw)].
  - intros e e' k. destruct e, e'; cbn; try done; intros H1 H2;
      first [exact (Hd Current Pending _ H1 H2)|exact (Hd Pending Current _ H1 H2)].
  - intros [] ?; [done|by split; intros []|by apply (Hp Pending)].
  - split; [|done]. intros [] k Hk; [by eapply (Hu1 Current)|done|by eapply (Hu1 Pending)].
  - intros r Hr k e i Hk Hce Hinst Hw. unfold completion_epoch in Hce. cbn in Hce.
    destruct (r_generation r =? generation (own s)) eqn:Hgen; [|done].
    assert (completion_epoch (own s) r = Some (e, i)) as Hce' by (unfold completion_epoch; by rewrite Hgen).
    pose proof (Hf r Hr k e i Hk Hce' Hinst) as Hfk.
    destruct e; [by apply Hfk|by destruct Hw|by apply Hfk].
Qed.

Lemma completion_pending o r e i : completion_epoch o r = Some (e, i) → e = Pending → r_epoch r = (Pending, i).
Proof.
  unfold completion_epoch, remap_draining_receive_epoch. intros Hce ->.
  repeat case_match; simplify_eq; done.
Qed.

(** Replacing the pending key by [open], or by none, under a new instance. *)
Lemma inv_new_pending s n open authority k_bit auth : inv s n → n < 2 ^ 64 - 1 →
  (∀ k, open = Some k → k ∉ used s) →
  inv (mkSys (set_pending (advance_pending_receive_epoch (own s)) open authority k_bit auth
        (const OwnerWindow.default_window <$> open)) (flight s) (delivered s)
      (match open with Some k => {[k]} ∪ used s | None => used s end) (gens s)) (n + 1).
Proof.
  intros [Hc Hd Hp (Hu1 & Hu2 & Hu3) Hf Hfl Hi Hg Ho] Hn Hfresh.
  assert (wrap_u64 (pending_receive_epoch_instance (own s) + 1) = pending_receive_epoch_instance (own s) + 1) as Hinst.
  { unfold wrap_u64. rewrite Z.mod_small; lia. }
  assert (∀ k, k ∈ used s → k ∈ match open with Some k => {[k]} ∪ used s | None => used s end) as Hmore
    by (intros k ?; destruct open; set_solver).
  split; cbn [own flight delivered used gens]; try done.
  - intros [] w Hw; [apply (Hc Current w Hw)|apply (Hc Previous w Hw)|]. cbn in Hw.
    destruct open as [k0|]; [|done]. injection Hw as <-. exists OwnerWindowSpec.init. split; [apply window_init|].
    cbn. intros k c [= <-] Hin%Hu2. exfalso. by apply (Hfresh k0).
  - intros e e' k. destruct e, e'; cbn; try done; intros H1 H2; try (exfalso; eapply Hfresh; [eassumption|]);
      first [exact (Hd Current Previous _ H1 H2)|exact (Hd Previous Current _ H1 H2)|
             exact (Hu1 Current _ H1)|exact (Hu1 Previous _ H1)|exact (Hu1 Current _ H2)|exact (Hu1 Previous _ H2)].
  - intros [] ?; [done|by apply (Hp Previous)|]. cbn. destruct open; (split; intros []; try done; by eexists).
  - split; [|split; [intros k c Hin; by eapply Hmore, Hu2|intros r k Hr Hk; by eapply Hmore, Hu3]].
    intros [] k Hk; cbn in Hk; [by eapply Hmore, (Hu1 Current)|by eapply Hmore, (Hu1 Previous)|]. subst. set_solver.
  - intros r Hr k e i Hk Hce Hi' Hw. change (completion_epoch (own s) r = Some (e, i)) in Hce.
    destruct e.
    + by apply (Hf r Hr k Current i).
    + by apply (Hf r Hr k Previous i).
    + pose proof (completion_pending _ _ _ _ Hce eq_refl) as Hre. destruct (Hfl r Hr) as (_ & _ & Hle).
      rewrite Hre in Hle. specialize (Hle eq_refl). specialize (Hi' eq_refl). cbn in Hle, Hi'. lia.
  - intros r Hr. destruct (Hfl r Hr) as (? & ? & Hle). split; [done|]. split; [done|]. intros He.
    specialize (Hle He). cbn. lia.
  - cbn. lia.
Qed.

Lemma inv_set_epoch s n current previous : inv s n → n < 2 ^ 64 - 1 →
  inv (step s (SetEpoch current previous)) (n + 1).
Proof.
  intros Hinv Hn. cbn [step]. unfold set_epoch.
  pose proof (inv_same s n (set_k_bits (own s) current previous) Hinv ltac:(done)) as H1.
  set (o1 := match previous with None => _ | Some _ => _ end).
  assert (inv (mkSys o1 (flight s) (delivered s) (used s) (gens s)) n) as H2.
  { subst o1. destruct previous; [exact H1|]. exact (inv_drop_previous _ _ H1). }
  case_bool_decide; [|eapply inv_later; [exact H2|lia]].
  exact (inv_new_pending _ _ None None None None H2 Hn ltac:(done)).
Qed.

Lemma set_epoch_frame o current previous :
  crypto_open (set_epoch o current previous) = crypto_open o
  ∧ generation (set_epoch o current previous) = generation o.
Proof. unfold set_epoch. destruct previous; case_bool_decide; done. Qed.

(** Installing a first key, or the same key again. *)
Lemma inv_set_crypto s n open : inv s n →
  crypto_open (own s) = Some open ∨ (crypto_open (own s) = None ∧ open ∉ used s) →
  inv (mkSys (set_crypto (own s) (Some open)) (flight s) (delivered s) ({[open]} ∪ used s) (gens s)) n.
Proof.
  intros Hinv [Hsame|[Hnone Hfresh]].
  - apply (inv_used_more _ _ ({[open]} ∪ used s) (gens s)) in Hinv; [|set_solver|done].
    apply (inv_same _ _ _ Hinv). split; [done|]. split; [done|]. split; [done|]. split; [|by intros []].
    intros []; cbn; [by rewrite Hsame|done|done].
  - destruct Hinv as [Hc Hd Hp (Hu1 & Hu2 & Hu3) Hf Hfl Hi Hg Ho].
    split; cbn [own flight delivered used gens]; try done.
    + intros [] w Hw; [|apply (Hc Previous w Hw)|apply (Hc Pending w Hw)].
      destruct (Hc Current w Hw) as (sp & Hrep & _). exists sp. split; [done|]. cbn. intros k c [= <-] Hin%Hu2. done.
    + intros e e' k. destruct e, e'; cbn; try done; intros H1 H2; simplify_eq;
        first [exact (Hd Previous Pending _ H1 H2)|exact (Hd Pending Previous _ H1 H2)|
               exfalso; first [exact (Hfresh (Hu1 Previous _ H1))|exact (Hfresh (Hu1 Pending _ H1))|
                 exact (Hfresh (Hu1 Previous _ H2))|exact (Hfresh (Hu1 Pending _ H2))]].
    + intros e He. destruct e; [done|by apply (Hp Previous)|by apply (Hp Pending)].
    + split; [|split; [intros k c Hin%Hu2; set_solver|intros r k Hr Hk%Hu3; set_solver]].
      intros [] k Hk; cbn in Hk; [simplify_eq; set_solver|apply (Hu1 Previous) in Hk; set_solver|
        apply (Hu1 Pending) in Hk; set_solver].
    + intros r Hr k e i Hk Hce Hinst Hw. pose proof (Hf r Hr k e i Hk Hce Hinst) as Hfk.
      destruct e; [|by apply Hfk|by apply Hfk]. specialize (Hfk Hw). cbn in Hfk. congruence.
Qed.

(** The state after a cutover to a new generation. *)
Lemma install_new o config open : c_generation config ≠ generation o →
  let promoted := if is_pending_session o (c_authority config) then pending_replay_window o else None in
  let old := if bool_decide (is_Some (c_previous_draining_k_bit config)) then crypto_open o else None in
  let o' := install_session o config open in
  generation o' = c_generation config
  ∧ pending_receive_epoch_instance o' = pending_receive_epoch_instance o
  ∧ open_key o' Current = Some open ∧ open_key o' Pending = None ∧ open_key o' Previous = old
  ∧ replay_window_for_epoch o' Current = Some (default OwnerWindow.default_window promoted)
  ∧ replay_window_for_epoch o' Pending = None
  ∧ replay_window_for_epoch o' Previous = const (replay_window o) <$> old
  ∧ draining_generation o' =
      (λ _, (generation o, const (pending_receive_epoch_instance o) <$> promoted)) <$> old.
Proof.
  intros Hne promoted old. unfold install_session. rewrite (proj2 (Z.eqb_neq _ _) Hne). cbn [negb andb].
  fold promoted old. cbv zeta.
  set (base := if is_pending_session o (c_authority config) then set_pending o _ _ _ _ _ else o).
  set (taken := match old with
    | Some _ => set_counters (set_window base OwnerWindow.default_window) ∅ (pending_receive_epoch_instance o)
    | None => base end).
  assert (generation taken = generation o ∧ pending_receive_epoch_instance taken = pending_receive_epoch_instance o)
    as [Hg Hi] by (subst taken base; destruct old; by destruct (is_pending_session o (c_authority config))).
  unfold apply_live_config. rewrite Hg, (proj2 (Z.eqb_neq _ _) Hne). cbn [negb].
  assert (old = match c_previous_draining_k_bit config with Some _ => crypto_open o | None => None end) as Hold.
  { subst old. destruct (c_previous_draining_k_bit config); [by rewrite bool_decide_true|].
    by rewrite bool_decide_false by (intros []; done). }
  clearbody taken. clearbody base promoted old. destruct config as [g authority [cur|] previous];
    cbn [c_generation c_authority c_current_k_bit c_previous_draining_k_bit] in *; unfold set_epoch;
    destruct previous as [pb|]; cbn; destruct promoted, old; cbn; rewrite ?Hi;
    try case_bool_decide; done.
Qed.

Lemma install_refresh o config open : c_generation config = generation o →
  install_session o config open =
  let o1 := set_crypto (match c_current_k_bit config with
      | Some current => set_epoch o current (c_previous_draining_k_bit config) | None => o end) (Some open) in
  match previous_draining_k_bit o1 with None => set_previous o1 None None None | Some _ => o1 end.
Proof.
  intros Hg. unfold install_session, apply_live_config. rewrite Hg, Z.eqb_refl. cbn [negb andb fmap option_fmap option_map].
  by rewrite Z.eqb_refl.
Qed.

Lemma inv_refresh s n config open : inv s n → n < 2 ^ 64 - 1 → allowed s (InstallSession config open) →
  c_generation config = generation (own s) → inv (step s (InstallSession config open)) (n + 1).
Proof.
  intros Hinv Hn Hal Hg. cbn in Hal. rewrite decide_True in Hal by done.
  assert (inv (mkSys (match c_current_k_bit config with
      | Some current => set_epoch (own s) current (c_previous_draining_k_bit config) | None => own s end)
      (flight s) (delivered s) (used s) (gens s)) (n + 1)
    ∧ crypto_open (match c_current_k_bit config with
      | Some current => set_epoch (own s) current (c_previous_draining_k_bit config) | None => own s end)
      = crypto_open (own s)) as [H1 Hco].
  { destruct (c_current_k_bit config) as [cur|].
    - split; [exact (inv_set_epoch s n cur _ Hinv Hn)|]. apply set_epoch_frame.
    - split; [|done]. destruct s. eapply inv_later; [done|lia]. }
  pose proof (inv_set_crypto _ _ open H1) as H2. cbn [own flight delivered used gens] in H2. rewrite Hco in H2.
  specialize (H2 Hal). apply (inv_used_more _ _ ({[open]} ∪ used s) ({[c_generation config]} ∪ gens s)) in H2;
    [|done|cbn; set_solver]. cbn [own flight delivered used gens] in H2.
  cbn [step]. rewrite install_refresh by done. cbv zeta.
  destruct (previous_draining_k_bit _); [exact H2|]. exact (inv_drop_previous _ _ H2).
Qed.

(** What the callers guarantee about the key of a new generation. *)
Definition cutover_key (o : OwnerState) (log : list (Z * Z)) (config : OwnerConfig) (open : Z) : Prop :=
  if is_pending_session o (c_authority config)
  then pending_open o = Some open ∧ is_Some (pending_replay_window o)
  else ∀ c, (open, c) ∉ log.

Lemma cutover_covers o log config open : c_generation config ≠ generation o → cutover_key o log config open →
  (∀ e, covers o log e) → ∀ e, covers (install_session o config open) log e.
Proof.
  intros Hg Hkey Hc. pose proof (install_new o config open Hg) as (_ & _ & Nc & Np & Nv & Wc & Wp & Wv & _).
  unfold cutover_key in Hkey. intros [] w Hw.
  - rewrite Wc in Hw. injection Hw as <-. destruct (is_pending_session _ _).
    + destruct Hkey as [Hk0 [w Hw]]. rewrite Hw. destruct (Hc Pending w Hw) as (sp & Hrep & Hs).
      exists sp. split; [done|]. intros k c Hk Hin. apply (Hs k c); [|done]. rewrite Nc in Hk. injection Hk as <-. exact Hk0.
    + exists OwnerWindowSpec.init. split; [apply window_init|]. rewrite Nc. intros k c [= <-] Hin. by destruct (Hkey c).
  - rewrite Wv in Hw. destruct (bool_decide _); [|done]. destruct (crypto_open o) as [k0|] eqn:Hk0; [|done].
    injection Hw as <-. destruct (Hc Current _ eq_refl) as (sp & Hrep & Hs). exists sp. split; [done|]. rewrite Nv.
    intros k c [= <-] Hin. by apply (Hs k0 c).
  - by rewrite Wp in Hw.
Qed.

Lemma cutover_follows o log config open r : c_generation config ≠ generation o → cutover_key o log config open →
  r_generation r ≠ c_generation config → follows_key o r → follows_key (install_session o config open) r.
Proof.
  intros Hg Hkey Hrg Hf k e i Hk Hce Hinst Hw.
  pose proof (install_new o config open Hg) as (Ng & _ & Nc & _ & Nv & _ & _ & _ & Nd). unfold cutover_key in Hkey.
  unfold completion_epoch, retains_draining_generation, remap_draining_receive_epoch in Hce. rewrite Ng, Nd in Hce.
  rewrite (proj2 (Z.eqb_neq _ _) Hrg) in Hce. destruct (bool_decide (is_Some (c_previous_draining_k_bit config))); [|done].
  destruct (crypto_open o) as [k0|] eqn:Hk0; cbn in Hce; [|done].
  destruct (Z.eqb_spec (generation o) (r_generation r)) as [Heq|]; [|done]. cbn in Hce.
  change (previous_open ?o') with (open_key o' Previous) in Hce. rewrite Nv, bool_decide_true in Hce by done.
  assert (completion_epoch o r = Some (r_epoch r)) as Hce0 by (unfold completion_epoch; by rewrite <- Heq, Z.eqb_refl).
  destruct (r_epoch r) as [re ri] eqn:Hre. cbn in Hce. destruct re; [| done |].
  - injection Hce as <- <-. rewrite Nv, <- Hk0. by apply (Hf k Current ri).
  - destruct (is_pending_session _ _); [|done]. destruct Hkey as [Hpo [w Hpw]]. rewrite Hpw in Hce. cbn in Hce.
    destruct (Z.eqb_spec (pending_receive_epoch_instance o) ri) as [Hri|]; [|done].
    injection Hce as <- <-. rewrite Nc. rewrite <- Hpo. apply (Hf k Pending ri Hk Hce0); [done|cbn; by rewrite Hpw].
Qed.

Lemma inv_cutover s n config open : inv s n → allowed s (InstallSession config open) →
  c_generation config ≠ generation (own s) → inv (step s (InstallSession config open)) (n + 1).
Proof.
  intros [Hc Hd Hp (Hu1 & Hu2 & Hu3) Hf Hfl Hi [Hg1 Hg2] Ho] Hal Hg. cbn in Hal. rewrite decide_False in Hal by done.
  destruct Hal as [Hgen Hkey]. cbn [step].
  assert (cutover_key (own s) (delivered s) config open) as Hck.
  { unfold cutover_key. destruct (is_pending_session _ _); [|by intros c Hin%Hu2].
    split; [done|]. apply (Hp Pending); [done|]. cbn. by rewrite Hkey. }
  pose proof (cutover_covers (own s) (delivered s) config open Hg Hck Hc) as Hc'.
  pose proof (λ r, cutover_follows (own s) (delivered s) config open r Hg Hck) as Hf'.
  pose proof (install_new (own s) config open Hg) as (Ng & Ni & Nc & Np & Nv & Wc & Wp & Wv & Nd).
  set (o' := install_session (own s) config open) in *.
  set (old := if bool_decide (is_Some (c_previous_draining_k_bit config)) then crypto_open (own s) else None) in *.
  assert (∀ k, old = Some k → open_key (own s) Current = Some k ∧ k ≠ open) as Hold.
  { intros k Hk. assert (open_key (own s) Current = Some k) as Hk' by (subst old; by destruct (bool_decide _)).
    split; [done|]. intros ->. destruct (is_pending_session _ _); [by discriminate (Hd Current Pending open Hk' Hkey)|].
    by apply Hkey, (Hu1 Current). }
  clearbody old o'. split; cbn [own flight delivered used gens]; [exact Hc'|..].
  - intros e e' k. destruct e, e'; rewrite ?Nc, ?Nv, ?Np; intros H1 H2; try done; exfalso.
    + injection H1 as <-. by apply (Hold open).
    + injection H2 as <-. by apply (Hold open).
  - intros [] ?; [done| |by rewrite Np, Wp]. rewrite Nv, Wv. destruct old as [k0|]; cbn; [|by split; intros []].
    split; intros _; [by exists (replay_window (own s))|by exists k0].
  - split; [|split; [intros k c Hin%Hu2; set_solver|intros r k Hr Hk%Hu3; set_solver]].
    intros [] k; rewrite ?Nc, ?Nv, ?Np; [intros [= <-]; set_solver| |done].
    intros [Hk%(Hu1 Current) _]%Hold. set_solver.
  - intros r Hr. destruct (Hfl r Hr) as (_ & Hrg & _). apply Hf'; [by intros Heq; rewrite Heq in Hrg|by apply Hf].
  - intros r Hr. destruct (Hfl r Hr) as (? & ? & ?). rewrite Ni. split; [done|]. split; [set_solver|done].
  - rewrite Ni. lia.
  - rewrite Ng, Nd. split; [set_solver|]. intros g p Hdr. destruct old; [|done]. cbn in Hdr. simplify_eq.
    split; [set_solver|done].
  - done.
Qed.

Lemma inv_step s n ev : inv s n → n < 2 ^ 64 - 1 → allowed s ev → inv (step s ev) (n + 1).
Proof.
  intros Hinv Hn Hal. assert (inv s (n + 1)) as Hl by (eapply inv_later; [done|lia]).
  destruct ev as [packet|i opened|k_bit open authority|k_bit| |current previous|config open].
  - by apply inv_reserve.
  - by apply inv_retire.
  - cbn [step]. unfold install_pending_epoch. destruct (Bool.eqb _ _).
    + by apply (inv_used_more _ _ ({[open]} ∪ used s) (gens s)) in Hl; [|set_solver|].
    + apply (inv_new_pending s n (Some open) _ _ _ Hinv Hn). intros k [= <-]. exact Hal.
  - cbn [step]. unfold confirm_pending_receive_epoch. case_bool_decide; [by destruct s|]. by apply (inv_same _ _ _ Hl).
  - exact (inv_new_pending s n None None None None Hinv Hn ltac:(done)).
  - by apply inv_set_epoch.
  - destruct (decide (c_generation config = generation (own s))); [by apply inv_refresh|by apply inv_cutover].
Qed.

Lemma inv_run evs s n : inv s n → n + Z.of_nat (length evs) < 2 ^ 64 → valid s evs →
  inv (run s evs) (n + Z.of_nat (length evs)).
Proof.
  revert s n. induction evs as [|ev evs IH]; intros s n Hinv Hn Hv; cbn [length] in *.
  { by replace (n + Z.of_nat 0) with n by lia. }
  destruct Hv as [Hal Hv]. unfold run. cbn [foldl]. fold (run (step s ev) evs).
  replace (n + Z.of_nat (S (length evs))) with ((n + 1) + Z.of_nat (length evs)) by lia.
  apply IH; [apply inv_step; [done|lia|done]|lia|done].
Qed.

Lemma inv_start protocol generation limit k_bit : inv (start protocol generation limit k_bit) 0.
Proof.
  split; cbn [start own flight delivered used gens].
  - intros [] w Hw; [|done|done]. injection Hw as <-. exists OwnerWindowSpec.init. split; [apply window_init|by intros ???].
  - by intros [] e' k.
  - intros [] ?; [done|by split; intros []|by split; intros []].
  - split; [by intros []|]. split; [by intros k c ?%elem_of_nil|by intros r k ?%elem_of_nil].
  - by intros r ?%elem_of_nil.
  - by intros r ?%elem_of_nil.
  - done.
  - split; [cbn; set_solver|done].
  - constructor.
Qed.

(** ** Packets in flight are not lost *)





End epochs.

(** ** Bounds on the packets in flight *)

Section flight.
Import OwnerState OwnerTrace.

Definition lane_count (P : Lane → bool) (l : list OwnerReservation) : Z :=
  Z.of_nat (length (filter (λ r, P (r_lane r)) l)).

Definition not_priority (l : Lane) : bool := bool_decide (l ≠ Priority).
Definition is_background (l : Lane) : bool := bool_decide (l = Background).

Record flight_ok (s : Sys) (limit : Z) : Prop := {
  fl_limit : in_flight_limit (own s) = limit;
  fl_total : in_flight (own s) = Z.of_nat (length (flight s)) ∧ in_flight (own s) ≤ limit;
  fl_bulk : bulk_in_flight (own s) = lane_count not_priority (flight s)
    ∧ bulk_in_flight (own s) ≤ bulk_lane_in_flight_limit (own s);
  fl_background : background_in_flight (own s) = lane_count is_background (flight s)
    ∧ background_in_flight (own s) ≤ 1
}.

(** The counters of packets in flight and their limit. *)
Definition flight_view (o : OwnerState) : Z * Z * Z * Z :=
  (in_flight_limit o, in_flight o, bulk_in_flight o, background_in_flight o).

Lemma flight_same s o' limit d u g : flight_ok s limit → flight_view o' = flight_view (own s) →
  flight_ok (mkSys o' (flight s) d u g) limit.
Proof.
  intros [Hl Ht Hb Hg] Hv. unfold flight_view in Hv. injection Hv as H1 H2 H3 H4.
  split; cbn [own flight]; unfold bulk_lane_in_flight_limit in *; rewrite ?H1, ?H2, ?H3, ?H4; done.
Qed.

Lemma set_epoch_view o current previous : flight_view (set_epoch o current previous) = flight_view o.
Proof. unfold set_epoch. destruct previous; case_bool_decide; done. Qed.

Lemma install_view o config open : flight_view (install_session o config open) = flight_view o.
Proof.
  assert (∀ o1, flight_view (apply_live_config o1 config) = flight_view o1) as Hl.
  { intros o1. unfold apply_live_config. destruct (negb _), (c_current_k_bit config); rewrite ?set_epoch_view; done. }
  unfold install_session. cbv zeta.
  set (base := if negb (c_generation config =? generation o) && is_pending_session o (c_authority config)
    then set_pending o _ _ _ _ _ else o).
  set (prom := if _ && _ then pending_replay_window o else None).
  set (old := if _ && _ then crypto_open o else None).
  assert (flight_view base = flight_view o) as Hb by (subst base; by destruct (negb _ && is_pending_session _ _)). clearbody base prom old.
  destruct old; [|set (oo := set_crypto _ _)].
  - transitivity (flight_view (set_crypto (apply_live_config (set_counters (set_window base OwnerWindow.default_window) ∅
      (pending_receive_epoch_instance o)) config) (Some open))); [by destruct prom|].
    transitivity (flight_view (apply_live_config (set_counters (set_window base OwnerWindow.default_window) ∅
      (pending_receive_epoch_instance o)) config)); [done|]. by rewrite Hl.
  - transitivity (flight_view oo); [destruct prom; by destruct (previous_draining_k_bit _)|].
    transitivity (flight_view (apply_live_config base config)); [done|]. by rewrite Hl.
Qed.

Lemma complete_view o r opened : flight_view (complete_replay_reservation o r opened).1 = flight_view o.
Proof.
  unfold complete_replay_reservation. destruct (completion_epoch o r) as [[e i]|]; [|done].
  set (o1 := set_counters _ _ _). assert (flight_view o1 = flight_view o) as H1 by done. clearbody o1.
  destruct opened; [|done]. cbn [negb]. destruct (_ && _); [done|].
  set (p := if bool_decide _ then _ else (o1, false)).
  assert (flight_view p.1 = flight_view o) as Hp.
  { subst p. case_bool_decide; [|done]. destruct (replay_window_for_epoch o1 e); [|done].
    destruct (OwnerWindow.accept _ _). by destruct e. }
  destruct p as [o2 acc]. cbn in *. by destruct (_ && _ && _).
Qed.

Lemma lane_count_delete P l i r : l !! i = Some r →
  lane_count P (delete i l) = lane_count P l - (if P (r_lane r) then 1 else 0).
Proof.
  intros Hi. unfold lane_count. rewrite (delete_Permutation l i r Hi) at 2. rewrite filter_cons.
  destruct (P (r_lane r)) eqn:HP; [rewrite decide_True by done|rewrite decide_False by auto]; cbn [length]; lia.
Qed.

Lemma lane_count_snoc P l r : lane_count P (l ++ [r]) = lane_count P l + (if P (r_lane r) then 1 else 0).
Proof.
  unfold lane_count. rewrite filter_app, length_app, filter_cons, filter_nil.
  destruct (P (r_lane r)) eqn:HP; [rewrite decide_True by done|rewrite decide_False by auto]; cbn [length]; lia.
Qed.

Lemma lane_count_le P l : 0 ≤ lane_count P l ≤ Z.of_nat (length l).
Proof.
  unfold lane_count. induction l as [|r l IH]; [done|]. rewrite filter_cons. destruct (decide _); cbn [length]; lia.
Qed.

Lemma flight_reserve s limit packet : is_u64 limit → flight_ok s limit → flight_ok (step s (Reserve packet)) limit.
Proof.
  intros Hlim Hok. cbn [step]. destruct (reserve (own s) packet) as [o res] eqn:Hres. unfold reserve in Hres.
  destruct (if p_generation packet =? _ then _ else _) as [epoch|]; [|simplify_eq; by destruct s].
  set (e := if uses_previous _ _ _ then _ else _) in Hres.
  destruct (reserve_block_reason (own s) (p_lane packet)) eqn:Hblock; [simplify_eq; by destruct s|].
  destruct (replay_window_for_epoch (own s) e); [|simplify_eq; by destruct s].
  destruct (negb _); [simplify_eq; by destruct s|]. case_bool_decide; [simplify_eq; by destruct s|].
  injection Hres as <- <-. destruct Hok as [Hl [Ht Htl] [Hb Hbl] [Hg Hgl]].
  unfold reserve_block_reason in Hblock. destruct (Z.leb_spec (in_flight_limit (own s)) (in_flight (own s))); [done|].
  destruct (bool_decide (p_lane packet = Background) && _) eqn:Hbg; [done|].
  destruct (bool_decide (p_lane packet ≠ Priority) && _) eqn:Hbk; [done|].
  unfold reserve_class, set_flight. split; cbn; [done|..].
  - rewrite length_app. cbn. split; mlia.
  - change (bulk_lane_in_flight_limit _) with (bulk_lane_in_flight_limit (own s)). rewrite lane_count_snoc, Hb. cbn.
    change (bool_decide (p_lane packet ≠ Priority)) with (not_priority (p_lane packet)) in *.
    destruct (not_priority (p_lane packet)); [|split; lia]. cbn in Hbk. apply Z.leb_gt in Hbk.
    rewrite Hb in Hbk, Hbl. pose proof (lane_count_le not_priority (flight s)). split; mlia.
  - rewrite lane_count_snoc, Hg. cbn.
    change (bool_decide (p_lane packet = Background)) with (is_background (p_lane packet)) in *.
    destruct (is_background (p_lane packet)); [|split; lia]. cbn in Hbg. apply Z.leb_gt in Hbg. split; mlia.
Qed.

Lemma flight_retire s limit i opened : flight_ok s limit → flight_ok (step s (Retire i opened)) limit.
Proof.
  intros Hok. cbn [step]. destruct (flight s !! i) as [r|] eqn:Hi; [|done]. unfold retire.
  set (p := if negb _ && negb _ then (own s, false) else _).
  assert (flight_view p.1 = flight_view (own s)) as Hv by (subst p; destruct (_ && _); [done|apply complete_view]).
  destruct p as [o ok]. unfold flight_view in Hv. cbn [fst] in Hv. injection Hv as H1 H2 H3 H4.
  destruct Hok as [Hl [Ht Htl] [Hb Hbl] [Hg Hgl]]. pose proof (lookup_lt_Some _ _ _ Hi).
  pose proof (lane_count_delete not_priority _ _ _ Hi) as Hd1. pose proof (lane_count_delete is_background _ _ _ Hi) as Hd2.
  assert (∀ P, 0 ≤ lane_count P (delete i (flight s))) as Hpos by (intros; unfold lane_count; lia).
  pose proof (Hpos not_priority). pose proof (Hpos is_background).
  unfold set_flight, bulk_lane_in_flight_limit in *. split; cbn; rewrite ?H1, ?H2, ?H3, ?H4; [done|..].
  - rewrite length_delete by (by eexists). clear Hd1 Hd2 Hpos Hb Hbl Hg Hgl. unfold sat_sub. split; lia.
  - change (bool_decide (r_lane r ≠ Priority)) with (not_priority (r_lane r)).
    destruct (not_priority (r_lane r)); cbn in Hd1; (split; [mlia|]); (eapply Z.le_trans; [|exact Hbl]); mlia.
  - change (bool_decide (r_lane r = Background)) with (is_background (r_lane r)).
    destruct (is_background (r_lane r)); cbn in Hd2; split; mlia.
Qed.

Lemma flight_run evs s limit : is_u64 limit → flight_ok s limit → flight_ok (run s evs) limit.
Proof.
  intros Hlim. revert s. induction evs as [|ev evs IH]; intros s Hok; [done|]. unfold run. cbn [foldl]. apply IH.
  destruct ev as [packet|i opened|k_bit open authority|k_bit| |current previous|config open].
  - by apply flight_reserve.
  - by apply flight_retire.
  - cbn [step]. eapply flight_same; [done|]. unfold install_pending_epoch. by destruct (Bool.eqb _ _).
  - cbn [step]. eapply flight_same; [done|]. unfold confirm_pending_receive_epoch. by case_bool_decide.
  - by eapply flight_same.
  - cbn [step]. eapply flight_same; [done|]. apply set_epoch_view.
  - cbn [step]. eapply flight_same; [done|]. apply install_view.
Qed.

End flight.

(** ** Properties *)

(** C1: no packet is delivered twice, through any rekey. Over any history of
    reservations, completions in any order, pending keys installed, confirmed,
    replaced or dropped, and cutovers to a new generation with or without
    draining, a counter is delivered at most once under each key: although a
    packet may be reserved in one epoch and completed when that epoch has become
    another, although two copies may be in flight at once, and although the
    previous key drains under a window of its own. The callers' part is that a new
    generation brings the pending key or one never used. *)
Theorem owner_delivers_once protocol generation limit k_bit evs :
  let s0 := OwnerTrace.start protocol generation limit k_bit in
  OwnerTrace.valid s0 evs → Z.of_nat (length evs) < 2 ^ 64 →
  NoDup (OwnerTrace.delivered (OwnerTrace.run s0 evs)).
Proof.
  intros s0 Hv Hlen. apply (inv_once _ (0 + Z.of_nat (length evs))).
  apply inv_run; [apply inv_start|lia|done].
Qed.

(** A link that receives counter 7 under its first key, twice, and once under the
    pending key, before and after the cutover. *)
Definition sample_history : list OwnerTrace.event :=
  let packet e c g := OwnerState.mkPacket g e c Bulk false in
  [OwnerTrace.InstallSession (OwnerState.mkConfig 5 (Some 90) (Some false) None) 11;
   OwnerTrace.Reserve (packet Current 7 5); OwnerTrace.Reserve (packet Current 7 5);
   OwnerTrace.InstallPending true 12 91; OwnerTrace.Reserve (packet Pending 7 5);
   OwnerTrace.InstallSession (OwnerState.mkConfig 6 (Some 91) (Some true) (Some false)) 12;
   OwnerTrace.Retire 0 true; OwnerTrace.Retire 0 true; OwnerTrace.Reserve (packet Current 7 6)].

Lemma sample_history_valid : OwnerTrace.valid (OwnerTrace.start Fmp 5 4 (Some false)) sample_history.
Proof.
  cbn [sample_history OwnerTrace.valid]. split.
  { unfold OwnerTrace.allowed. rewrite decide_True by done. right. split; [done|]. apply not_elem_of_empty. }
  assert (is_u64 7) by mlia. split; [done|]. split; [done|].
  split; [apply (bool_decide_unpack _); by vm_compute|]. split; [done|].
  split; [|done].
  unfold OwnerTrace.allowed. rewrite decide_False by (by vm_compute). split; [|by vm_compute].
  apply (bool_decide_unpack _). by vm_compute.
Qed.

Lemma owner_delivers_once_witness :
  OwnerTrace.delivered (OwnerTrace.run (OwnerTrace.start Fmp 5 4 (Some false)) sample_history) = [(12, 7); (11, 7)]
  ∧ NoDup (OwnerTrace.delivered (OwnerTrace.run (OwnerTrace.start Fmp 5 4 (Some false)) sample_history)).
Proof.
  split; [by vm_compute|]. apply (owner_delivers_once Fmp 5 4 (Some false) sample_history); [|done].
  apply sample_history_valid.
Defined.




(** The work an owner has in flight is bounded, and control traffic keeps a
    slot. After any history the number of reserved packets is at most the limit,
    at most one of them is background traffic, and with a limit above one the
    bulk and background packets together stay below it, so that as long as the
    limit is not reached a control packet is never refused for lack of room. *)
Theorem owner_in_flight_bounded protocol generation limit k_bit evs :
  is_u64 limit →
  let s := OwnerTrace.run (OwnerTrace.start protocol generation limit k_bit) evs in
  Z.of_nat (length (OwnerTrace.flight s)) ≤ limit
  ∧ lane_count is_background (OwnerTrace.flight s) ≤ 1
  ∧ (1 < limit → lane_count not_priority (OwnerTrace.flight s) < limit)
  ∧ (Z.of_nat (length (OwnerTrace.flight s)) < limit →
       OwnerState.reserve_block_reason (OwnerTrace.own s) Priority = None).
Proof.
  intros Hlim s. assert (flight_ok s limit) as [Hl [Ht Htl] [Hb Hbl] [Hg Hgl]].
  { apply flight_run; [done|]. assert (0 ≤ limit) by apply Hlim.
    split; [done|by split|split; [done|]|by split]. unfold OwnerState.bulk_lane_in_flight_limit. cbn. lia. }
  split; [lia|]. split; [lia|]. split.
  - intros H1. rewrite <- Hb. unfold OwnerState.bulk_lane_in_flight_limit in Hbl. rewrite Hl in Hbl.
    rewrite (proj2 (Z.ltb_lt _ _) H1) in Hbl. mlia.
  - intros Hlt. unfold OwnerState.reserve_block_reason. rewrite Hl, (proj2 (Z.leb_gt _ _)) by lia. done.
Qed.

Lemma owner_in_flight_bounded_witness :
  let s := OwnerTrace.run (OwnerTrace.start Fmp 5 4 (Some false)) (take 5 sample_history) in
  length (OwnerTrace.flight s) = 2%nat ∧ lane_count not_priority (OwnerTrace.flight s) < 4.
Proof.
  intros s. split; [by vm_compute|].
  destruct (owner_in_flight_bounded Fmp 5 4 (Some false) (take 5 sample_history) ltac:(mlia)) as (_ & _ & H & _). by apply H.
Defined.
