(* ===== verification/AdmissionQueue.v ===== *)
(** * Admission queues of the dataplane
    ([crates/fips-core/src/dataplane/admission.rs])

    Packets wait per owner and lane; each lane has a list of owners that are
    ready to be served. A dispatch turn takes a run of packets of the first ready
    owner and either finishes with it, in which case an owner with more packets
    goes to the back of the line, or puts back what the owner could not accept,
    which parks it until it is woken. Local bulk traffic may cut into the bulk
    line, at the price of a debt of two turns. [AdmissionTrace] runs the queues
    through such turns ([owner_shard.rs], [dispatch_ingress_prepared_into]). *)

From S2P Require Import Prelude OwnerEpochs.

Local Open Scope Z_scope.

(** [OwnerId]: the protocol and the node. *)
Abbreviation OwnerId := (PacketProtocol * Z)%type (only parsing).

#[export] Instance PacketProtocol_countable : Countable PacketProtocol.
Proof.
  refine (inj_countable' (λ p, match p with Fmp => true | Fsp => false end)
    (λ b, if (b : bool) then Fmp else Fsp) _). by intros [].
Defined.

#[export] Instance Lane_countable : Countable Lane.
Proof.
  refine (inj_countable' (λ l, match l with Priority => 0 | Bulk => 1 | Background => 2 end)
    (λ z, if z =? 0 then Priority else if z =? 1 then Bulk else Background) _). by intros [].
Defined.

(** The source's [priority_x], [bulk_x] and [background_x] fields. *)
Record PerLane (A : Type) := mkPerLane { priority : A; bulk : A; background : A }.
Arguments mkPerLane {A}.
Arguments priority {A}.
Arguments bulk {A}.
Arguments background {A}.

Definition at_lane {A} (p : PerLane A) (lane : Lane) : A :=
  match lane with Priority => priority p | Bulk => bulk p | Background => background p end.

Definition set_lane {A} (p : PerLane A) (lane : Lane) (a : A) : PerLane A :=
  match lane with
  | Priority => mkPerLane a (bulk p) (background p)
  | Bulk => mkPerLane (priority p) a (background p)
  | Background => mkPerLane (priority p) (bulk p) a
  end.

Module AdmissionQueues.
Section queues.

(** The queued packets; [owner()] and [lane()] of each are the queue it is in. *)
Context {T : Type}.

(** [OwnerLaneQueues]. *)
Abbreviation LaneQueues := (PerLane (list T)) (only parsing).

Record OwnerAdmissionQueues := mkQueues {
  lens : PerLane Z;
  ready : PerLane (list OwnerId);
  bulk_cut_in_debt : Z;
  owners : gmap OwnerId LaneQueues
}.

Record OwnerAdmissionCursor := mkCursor {
  c_owner : OwnerId;
  c_lane : Lane;
  owner_has_more : bool
}.

Definition no_queues : LaneQueues := mkPerLane [] [] [].

Definition new : OwnerAdmissionQueues := mkQueues (mkPerLane 0 0 0) (mkPerLane [] [] []) 0 ∅.

(** [engine_support.rs]. *)
Definition dataplane_local_bulk (owner : OwnerId) (lane : Lane) : bool :=
  bool_decide (lane = Bulk) && bool_decide (owner.1 = Fsp).

(** The queue of an owner and lane. *)
Definition queue_of (self : OwnerAdmissionQueues) (owner : OwnerId) (lane : Lane) : list T :=
  at_lane (default no_queues (owners self !! owner)) lane.

(** [self.owners.entry(owner).or_default().lane_mut(lane)], written back. *)
Definition set_queue (self : OwnerAdmissionQueues) (owner : OwnerId) (lane : Lane) (q : list T)
    : OwnerAdmissionQueues :=
  mkQueues (lens self) (ready self) (bulk_cut_in_debt self)
    (<[owner := set_lane (default no_queues (owners self !! owner)) lane q]> (owners self)).

Definition add_len (self : OwnerAdmissionQueues) (lane : Lane) (count : Z) : OwnerAdmissionQueues :=
  mkQueues (set_lane (lens self) lane (sat_add_u64 (at_lane (lens self) lane) count)) (ready self)
    (bulk_cut_in_debt self) (owners self).

Definition decrement_lane_len (self : OwnerAdmissionQueues) (lane : Lane) : OwnerAdmissionQueues :=
  mkQueues (set_lane (lens self) lane (sat_sub (at_lane (lens self) lane) 1)) (ready self)
    (bulk_cut_in_debt self) (owners self).

Definition push_ready (self : OwnerAdmissionQueues) (lane : Lane) (owner : OwnerId) (front : bool)
    : OwnerAdmissionQueues :=
  let r := at_lane (ready self) lane in
  if bool_decide (owner ∈ r) then self
  else if front && negb (bool_decide (r = [])) && (bulk_cut_in_debt self =? 0) then
    mkQueues (lens self) (set_lane (ready self) lane (owner :: r)) 2 (owners self)
  else mkQueues (lens self) (set_lane (ready self) lane (r ++ [owner])) (bulk_cut_in_debt self) (owners self).

Definition push_run_back (self : OwnerAdmissionQueues) (owner : OwnerId) (lane : Lane) (items : list T)
    : OwnerAdmissionQueues * bool :=
  let q := queue_of self owner lane in
  let was_empty := bool_decide (length q = 0%nat) in
  let self := set_queue self owner lane (q ++ items) in
  if bool_decide (length items = 0%nat) then (self, false)
  else
    let self := add_len self lane (Z.min (Z.of_nat (length items)) U64_MAX) in
    (if was_empty then push_ready self lane owner (dataplane_local_bulk owner lane) else self, was_empty).

Definition push (self : OwnerAdmissionQueues) (owner : OwnerId) (lane : Lane) (item : T) (front : bool)
    : OwnerAdmissionQueues * bool :=
  let q := queue_of self owner lane in
  let was_empty := bool_decide (length q = 0%nat) in
  let self := set_queue self owner lane (if front then item :: q else q ++ [item]) in
  let self := add_len self lane 1 in
  (if was_empty then push_ready self lane owner (dataplane_local_bulk owner lane) else self, was_empty).

Definition lanes_empty (q : LaneQueues) : bool :=
  match priority q, bulk q, background q with [], [], [] => true | _, _, _ => false end.

Definition pop_owner_lane (self : OwnerAdmissionQueues) (owner : OwnerId) (lane : Lane)
    : OwnerAdmissionQueues * option (T * bool * bool) :=
  match owners self !! owner with
  | None => (self, None)
  | Some queues =>
      match at_lane queues lane with
      | [] => (self, None)
      | item :: q =>
          let queues := set_lane queues lane q in
          (mkQueues (lens self) (ready self) (bulk_cut_in_debt self) (<[owner := queues]> (owners self)),
           Some (item, negb (bool_decide (length q = 0%nat)), lanes_empty queues))
      end
  end.

Definition remove_owner (self : OwnerAdmissionQueues) (owner : OwnerId) : OwnerAdmissionQueues :=
  mkQueues (lens self) (ready self) (bulk_cut_in_debt self) (delete owner (owners self)).

(** The common tail of [pop_lane] and [pop_owner_continue]. *)
Definition finish_pop (self : OwnerAdmissionQueues) (owner : OwnerId) (lane : Lane)
    (p : T * bool * bool) : OwnerAdmissionQueues * (T * OwnerAdmissionCursor) :=
  let '(item, more, owner_empty) := p in
  let self := decrement_lane_len self lane in
  (if owner_empty then remove_owner self owner else self, (item, mkCursor owner lane more)).

Definition pop_owner_continue (self : OwnerAdmissionQueues) (cursor : OwnerAdmissionCursor)
    : OwnerAdmissionQueues * option (T * OwnerAdmissionCursor) :=
  if negb (owner_has_more cursor) then (self, None)
  else
    match pop_owner_lane self (c_owner cursor) (c_lane cursor) with
    | (self, None) => (self, None)
    | (self, Some p) => let '(self, r) := finish_pop self (c_owner cursor) (c_lane cursor) p in (self, Some r)
    end.

(** [pop_ready_front] on a ready list that starts with [owner]. *)
Definition drop_ready (self : OwnerAdmissionQueues) (lane : Lane) (rest : list OwnerId) : OwnerAdmissionQueues :=
  mkQueues (lens self) (set_lane (ready self) lane rest)
    (match lane with Bulk => sat_sub (bulk_cut_in_debt self) 1 | _ => bulk_cut_in_debt self end) (owners self).

(** The loop of [pop_lane] takes one owner off the ready list per round. *)
Fixpoint pop_lane_loop (self : OwnerAdmissionQueues) (lane : Lane) (line : list OwnerId)
    : OwnerAdmissionQueues * option (T * OwnerAdmissionCursor) :=
  match line with
  | [] => (self, None)
  | owner :: rest =>
      let self := drop_ready self lane rest in
      match pop_owner_lane self owner lane with
      | (self, None) => pop_lane_loop self lane rest
      | (self, Some p) => let '(self, r) := finish_pop self owner lane p in (self, Some r)
      end
  end.

Definition pop_lane (self : OwnerAdmissionQueues) (lane : Lane)
    : OwnerAdmissionQueues * option (T * OwnerAdmissionCursor) :=
  pop_lane_loop self lane (at_lane (ready self) lane).

(** The [while] of [pop_next_run_into] with [n] more items allowed. *)
Fixpoint continue_run (self : OwnerAdmissionQueues) (cursor : OwnerAdmissionCursor) (items : list T) (n : nat)
    : OwnerAdmissionQueues * OwnerAdmissionCursor * list T :=
  match n with
  | O => (self, cursor, items)
  | S n =>
      if negb (owner_has_more cursor) then (self, cursor, items)
      else
        match pop_owner_continue self cursor with
        | (self, None) => (self, mkCursor (c_owner cursor) (c_lane cursor) false, items)
        | (self, Some (item, cursor)) => continue_run self cursor (items ++ [item]) n
        end
  end.

Definition pop_next_run_into (self : OwnerAdmissionQueues) (lane : Lane) (limit : nat)
    : OwnerAdmissionQueues * option (OwnerAdmissionCursor * list T) :=
  match limit with
  | O => (self, None)
  | S n =>
      match pop_lane self lane with
      | (self, None) => (self, None)
      | (self, Some (item, cursor)) =>
          let '(self, cursor, items) := continue_run self cursor [item] n in (self, Some (cursor, items))
      end
  end.

Definition continue_owner_lane (self : OwnerAdmissionQueues) (cursor : OwnerAdmissionCursor)
    : OwnerAdmissionQueues :=
  if owner_has_more cursor then push_ready self (c_lane cursor) (c_owner cursor) false else self.

Definition defer_owner_run (self : OwnerAdmissionQueues) (cursor : OwnerAdmissionCursor) (items : list T)
    : OwnerAdmissionQueues :=
  if bool_decide (length items = 0%nat) then self
  else
    add_len (set_queue self (c_owner cursor) (c_lane cursor)
               (items ++ queue_of self (c_owner cursor) (c_lane cursor)))
      (c_lane cursor) (Z.of_nat (length items)).

Definition wake_owner (self : OwnerAdmissionQueues) (owner : OwnerId) : OwnerAdmissionQueues :=
  match owners self !! owner with
  | None => self
  | Some queues =>
      let wake self lane q front :=
        if bool_decide (length q = 0%nat) then self else push_ready self lane owner front in
      let self := wake self Priority (priority queues) false in
      let self := wake self Bulk (bulk queues) (dataplane_local_bulk owner Bulk) in
      wake self Background (background queues) false
  end.

End queues.
Arguments OwnerAdmissionQueues : clear implicits.
End AdmissionQueues.

(** ** Dispatch turns *)

Module AdmissionTrace.
Import AdmissionQueues.
Section trace.
Context {T : Type}.

(** The queues, every packet admitted and every packet served (with its owner and
    lane, oldest first), and the owners parked by a deferral. *)
Record Sys := mkSys {
  q : OwnerAdmissionQueues T;
  admitted : list (OwnerId * Lane * T);
  served : list (OwnerId * Lane * T);
  parked : gset (OwnerId * Lane)
}.

Inductive event :=
| AdmitRun (owner : OwnerId) (lane : Lane) (items : list T)
| Admit (owner : OwnerId) (lane : Lane) (item : T)
| Turn (lane : Lane) (limit : nat) (accepted : nat)
| Wake (owner : OwnerId).

Definition tag (owner : OwnerId) (lane : Lane) (items : list T) : list (OwnerId * Lane * T) :=
  (λ t, (owner, lane, t)) <$> items.

(** One round of the dispatch loop: the owner accepts the first [accepted]
    packets of the run; the rest is deferred. *)
Definition step (s : Sys) (ev : event) : Sys :=
  match ev with
  | AdmitRun owner lane items =>
      mkSys (push_run_back (q s) owner lane items).1 (admitted s ++ tag owner lane items) (served s) (parked s)
  | Admit owner lane item =>
      mkSys (push (q s) owner lane item false).1 (admitted s ++ tag owner lane [item]) (served s) (parked s)
  | Turn lane limit accepted =>
      match pop_next_run_into (q s) lane limit with
      | (q', None) => mkSys q' (admitted s) (served s) (parked s)
      | (q', Some (cursor, items)) =>
          let done := take accepted items in
          let rest := drop accepted items in
          let key := (c_owner cursor, c_lane cursor) in
          match rest with
          | [] => mkSys (continue_owner_lane q' cursor) (admitted s)
                    (served s ++ tag (c_owner cursor) (c_lane cursor) done) (parked s)
          | _ => mkSys (defer_owner_run q' cursor rest) (admitted s)
                   (served s ++ tag (c_owner cursor) (c_lane cursor) done) ({[key]} ∪ parked s)
          end
      end
  | Wake owner =>
      mkSys (wake_owner (q s) owner) (admitted s) (served s)
        (filter (λ ol, ol.1 ≠ owner) (parked s))
  end.

Definition start : Sys := mkSys new [] [] ∅.
Definition run (s : Sys) (evs : list event) : Sys := foldl step s evs.

(** The packets of one queue in a log. *)
Definition of_queue (owner : OwnerId) (lane : Lane) (log : list (OwnerId * Lane * T)) : list T :=
  (filter (λ x, x.1 = (owner, lane)) log).*2.

End trace.
Arguments Sys : clear implicits.
Arguments event : clear implicits.
End AdmissionTrace.

(** ** What the operations do to queues and lines *)

Section queues.
Import AdmissionQueues.
Context {T : Type}.
Implicit Types (s : OwnerAdmissionQueues T).

Lemma at_set_lane {A} (p : PerLane A) l l' a :
  at_lane (set_lane p l a) l' = if decide (l' = l) then a else at_lane p l'.
Proof. by destruct l, l'. Qed.

Lemma set_set_lane {A} (p : PerLane A) l a b : set_lane (set_lane p l a) l b = set_lane p l b.
Proof. by destruct l. Qed.

Lemma set_at_lane {A} (p : PerLane A) l : set_lane p l (at_lane p l) = p.
Proof. by destruct p, l. Qed.

Lemma queue_set s o l x o' l' :
  queue_of (set_queue s o l x) o' l' = if decide ((o', l') = (o, l)) then x else queue_of s o' l'.
Proof.
  unfold queue_of, set_queue. cbn [owners]. destruct (decide (o' = o)) as [->|Hne].
  - rewrite lookup_insert_eq. cbn. rewrite at_set_lane.
    destruct (decide (l' = l)) as [->|]; [by rewrite decide_True|by rewrite decide_False by congruence].
  - rewrite lookup_insert_ne by done. by rewrite decide_False by congruence.
Qed.

(** The packets waiting in a lane. *)
Definition sum_len (m : gmap OwnerId (PerLane (list T))) (l : Lane) : Z :=
  map_sum (λ _ qs, Z.of_nat (length (at_lane qs l))) m.

Lemma sum_len_insert_new m o x l : m !! o = None →
  sum_len (<[o := x]> m) l = Z.of_nat (length (at_lane x l)) + sum_len m l.
Proof. apply map_sum_insert_new. Qed.

Lemma sum_len_delete m o l :
  sum_len m l = Z.of_nat (length (at_lane (default no_queues (m !! o)) l)) + sum_len (delete o m) l.
Proof.
  destruct (m !! o) as [x|] eqn:Ho; cbn [default from_option id].
  - rewrite <- (insert_delete_id m o x Ho) at 1. apply sum_len_insert_new. apply lookup_delete_eq.
  - rewrite delete_id by done. by destruct l.
Qed.

Lemma sum_len_insert m o x l :
  sum_len (<[o := x]> m) l
  = sum_len m l - Z.of_nat (length (at_lane (default no_queues (m !! o)) l)) + Z.of_nat (length (at_lane x l)).
Proof.
  rewrite (sum_len_delete (<[o := x]> m) o), lookup_insert_eq, delete_insert_eq, (sum_len_delete m o l).
  cbn [default from_option id]. lia.
Qed.

Lemma sum_len_nonneg m l : 0 ≤ sum_len m l.
Proof. apply map_sum_nonneg. lia. Qed.

Lemma queue_le_sum s o l : Z.of_nat (length (queue_of s o l)) ≤ sum_len (owners s) l.
Proof. rewrite (sum_len_delete (owners s) o). pose proof (sum_len_nonneg (delete o (owners s)) l). unfold queue_of. lia. Qed.

(** The lengths kept are the lengths. *)
Definition lens_ok s : Prop := ∀ l, at_lane (lens s) l = sum_len (owners s) l.

(** How an operation that leaves the lines alone moves the queue of [o] and [l]. *)
Record requeued s s' (o : OwnerId) (l : Lane) (x : list T) : Prop := {
  rq_queue : ∀ o' l', queue_of s' o' l' = if decide ((o', l') = (o, l)) then x else queue_of s o' l';
  rq_ready : ready s' = ready s;
  rq_debt : bulk_cut_in_debt s' = bulk_cut_in_debt s;
  rq_lens : lens_ok s → lens_ok s'
}.

Lemma pop_one s o l : 
  match queue_of s o l with
  | [] => pop_owner_lane s o l = (s, None)
  | item :: x => ∃ s1 p s', pop_owner_lane s o l = (s1, Some p)
      ∧ finish_pop s1 o l p = (s', (item, mkCursor o l (negb (bool_decide (length x = 0%nat)))))
      ∧ requeued s s' o l x
  end.
Proof.
  unfold queue_of, pop_owner_lane. destruct (owners s !! o) as [qs|] eqn:Ho; cbn [default from_option id]; [|by destruct l].
  destruct (at_lane qs l) as [|item x] eqn:Hq; [done|]. eexists _, _, _. split; [done|]. unfold finish_pop. split; [done|].
  set (s1 := decrement_lane_len _ l). set (s2 := if lanes_empty _ then _ else s1).
  assert (∀ o', default no_queues (owners s2 !! o') = default no_queues (<[o := set_lane qs l x]> (owners s) !! o')) as Hown.
  { intros o'. subst s2. destruct (lanes_empty (set_lane qs l x)) eqn:He; [|done]. cbn [remove_owner owners s1 decrement_lane_len].
    destruct (decide (o' = o)) as [->|Hne]; [rewrite lookup_delete_eq, lookup_insert_eq|by rewrite lookup_delete_ne].
    unfold lanes_empty in He. destruct (set_lane qs l x) as [[] [] []]; done. }
  split.
  - intros o' l'. unfold queue_of. rewrite Hown. destruct (decide (o' = o)) as [->|Hne].
    + rewrite lookup_insert_eq. cbn. rewrite at_set_lane.
      destruct (decide (l' = l)) as [->|]; [by rewrite decide_True|by rewrite decide_False, Ho by congruence].
    + rewrite lookup_insert_ne by done. by rewrite decide_False by congruence.
  - subst s2. by destruct (lanes_empty _).
  - subst s2. by destruct (lanes_empty _).
  - intros Hl l'. assert (sum_len (owners s2) l' = sum_len (<[o := set_lane qs l x]> (owners s)) l') as ->.
    { subst s2. destruct (lanes_empty (set_lane qs l x)) eqn:He; [|done].
      rewrite (sum_len_delete (<[o := set_lane qs l x]> (owners s)) o), lookup_insert_eq. cbn [default from_option id].
      unfold lanes_empty in He. destruct (set_lane qs l x) as [[] [] []]; try done. by destruct l'. }
    rewrite sum_len_insert, Ho, <- Hl. cbn [default from_option id]. rewrite at_set_lane.
    assert (at_lane (lens s2) l' = at_lane (set_lane (lens s) l (sat_sub (at_lane (lens s) l) 1)) l') as ->
      by (subst s2; by destruct (lanes_empty _)). rewrite at_set_lane.
    destruct (decide (l' = l)) as [->|]; [|lia]. rewrite Hq. cbn [length].
    assert (Z.of_nat (S (length x)) ≤ at_lane (lens s) l) as Hge.
    { rewrite Hl. pose proof (queue_le_sum s o l) as Hle. unfold queue_of in Hle. rewrite Ho in Hle. cbn in Hle.
      rewrite Hq in Hle. done. }
    mlia.
Qed.

Lemma requeued_trans s1 s2 s3 o l x y : requeued s1 s2 o l x → requeued s2 s3 o l y → requeued s1 s3 o l y.
Proof.
  intros [Hq1 Hr1 Hd1 Hl1] [Hq2 Hr2 Hd2 Hl2]. split; [|congruence|congruence|auto].
  intros o' l'. rewrite Hq2, Hq1. by destruct (decide _).
Qed.

Lemma continue_run_spec s o l items n x : queue_of s o l = x →
  ∃ s', continue_run s (mkCursor o l (negb (bool_decide (length x = 0%nat)))) items n
    = (s', mkCursor o l (negb (bool_decide (length (drop n x) = 0%nat))), items ++ take n x)
    ∧ requeued s s' o l (drop n x).
Proof.
  revert s items x. induction n as [|n IH]; intros s items x Hx; cbn [continue_run].
  - exists s. rewrite take_0, drop_0, app_nil_r. split; [done|]. split; [|done|done|done].
    intros o' l'. destruct (decide _); [by simplify_eq|done].
  - cbn [owner_has_more]. destruct x as [|item x].
    { rewrite bool_decide_true by done. cbn [negb]. exists s. rewrite drop_nil, take_nil, app_nil_r. split; [done|].
      split; [|done|done|done]. intros o' l'. destruct (decide _); [by simplify_eq|done]. }
    rewrite bool_decide_false by done. cbn [negb]. unfold pop_owner_continue. cbn [owner_has_more negb c_owner c_lane].
    pose proof (pop_one s o l) as Hp. rewrite Hx in Hp. destruct Hp as (s1 & p & s' & -> & -> & Hrq).
    destruct (IH s' (items ++ [item]) x) as (s'' & -> & Hrq').
    { rewrite (rq_queue _ _ _ _ _ Hrq). by rewrite decide_True. }
    exists s''. rewrite <- app_assoc. split; [done|]. by eapply requeued_trans.
Qed.

(** [pop_lane] serves the first owner in line that has packets. *)
Lemma pop_lane_loop_spec s l line : at_lane (ready s) l = line → 0 ≤ bulk_cut_in_debt s →
  match pop_lane_loop s l line with
  | (s', None) => (∀ o, o ∈ line → queue_of s o l = []) ∧ (∀ o' l', queue_of s' o' l' = queue_of s o' l')
      ∧ ready s' = set_lane (ready s) l [] ∧ (0 ≤ bulk_cut_in_debt s' ∧ (l ≠ Bulk → bulk_cut_in_debt s' = bulk_cut_in_debt s))
      ∧ (lens_ok s → lens_ok s')
  | (s', Some (item, cursor)) => ∃ pre o rest x,
      line = pre ++ o :: rest ∧ (∀ o', o' ∈ pre → queue_of s o' l = []) ∧ queue_of s o l = item :: x
      ∧ cursor = mkCursor o l (negb (bool_decide (length x = 0%nat)))
      ∧ (∀ o' l', queue_of s' o' l' = if decide ((o', l') = (o, l)) then x else queue_of s o' l')
      ∧ ready s' = set_lane (ready s) l rest
      ∧ bulk_cut_in_debt s' = match l with
          | Bulk => Z.max 0 (bulk_cut_in_debt s - Z.of_nat (S (length pre))) | _ => bulk_cut_in_debt s end
      ∧ (lens_ok s → lens_ok s')
  end.
Proof.
  revert s. induction line as [|o rest IH]; intros s Hline Hd; cbn [pop_lane_loop].
  { split; [intros o Ho; by apply elem_of_nil in Ho|]. rewrite <- Hline, set_at_lane. done. }
  pose proof (pop_one (drop_ready s l rest) o l) as Hp. change (queue_of (drop_ready s l rest) o l) with (queue_of s o l) in Hp.
  destruct (queue_of s o l) as [|item x] eqn:Hq.
  - rewrite Hp. specialize (IH (drop_ready s l rest)). cbn [ready drop_ready bulk_cut_in_debt] in IH.
    rewrite at_set_lane, decide_True in IH by done.
    assert (0 ≤ match l with Bulk => sat_sub (bulk_cut_in_debt s) 1 | _ => bulk_cut_in_debt s end) as Hd' by (destruct l; mlia).
    specialize (IH eq_refl Hd').
    destruct (pop_lane_loop (drop_ready s l rest) l rest) as [s' [[item cursor]|]].
    + destruct IH as (pre & o' & rest' & x & -> & Hpre & Hx & Hc & Hqs & Hr & Hdebt & Hlens).
      exists (o :: pre), o', rest', x. repeat split; try done.
      * intros o'' [->|Hin]%elem_of_cons; [done|by apply Hpre].
      * by rewrite Hr, set_set_lane.
      * rewrite Hdebt. clear -Hd. destruct l; cbn [length]; mlia.
    + destruct IH as (Hall & Hqs & Hr & [Hd'' Hsame] & Hlens). split_and!; try done.
      * intros o' [->|Hin]%elem_of_cons; [done|by apply Hall].
      * by rewrite Hr, set_set_lane.
      * intros Hl. rewrite (Hsame Hl). by destruct l.
  - destruct Hp as (s1 & p & s' & -> & -> & [Hrq Hrr Hrd Hrl]).
    exists [], o, rest, x. repeat split; try done.
    intros o' Ho'. by apply elem_of_nil in Ho'.
Qed.

(** [pop_next_run_into] takes up to [limit] packets of that owner, oldest first. *)
Lemma pop_run_spec s l limit : 0 ≤ bulk_cut_in_debt s →
  match pop_next_run_into s l limit with
  | (s', None) => limit = 0%nat ∧ s' = s ∨
      (∀ o, o ∈ at_lane (ready s) l → queue_of s o l = []) ∧ (∀ o' l', queue_of s' o' l' = queue_of s o' l')
      ∧ ready s' = set_lane (ready s) l [] ∧ (0 ≤ bulk_cut_in_debt s' ∧ (l ≠ Bulk → bulk_cut_in_debt s' = bulk_cut_in_debt s))
      ∧ (lens_ok s → lens_ok s')
  | (s', Some (cursor, items)) => ∃ pre o rest,
      at_lane (ready s) l = pre ++ o :: rest ∧ (∀ o', o' ∈ pre → queue_of s o' l = []) ∧ queue_of s o l ≠ []
      ∧ cursor = mkCursor o l (negb (bool_decide (length (drop limit (queue_of s o l)) = 0%nat)))
      ∧ items = take limit (queue_of s o l) ∧ items ≠ []
      ∧ (∀ o' l', queue_of s' o' l'
           = if decide ((o', l') = (o, l)) then drop limit (queue_of s o l) else queue_of s o' l')
      ∧ ready s' = set_lane (ready s) l rest
      ∧ bulk_cut_in_debt s' = match l with
          | Bulk => Z.max 0 (bulk_cut_in_debt s - Z.of_nat (S (length pre))) | _ => bulk_cut_in_debt s end
      ∧ (lens_ok s → lens_ok s')
  end.
Proof.
  intros Hd. unfold pop_next_run_into. destruct limit as [|n]; [by left|]. unfold pop_lane.
  pose proof (pop_lane_loop_spec s l _ eq_refl Hd) as Hp.
  destruct (pop_lane_loop s l (at_lane (ready s) l)) as [s1 [[item cursor]|]]; [|by right].
  destruct Hp as (pre & o & rest & x & Hline & Hpre & Hq & -> & Hqs & Hr & Hdebt & Hlens).
  destruct (continue_run_spec s1 o l [item] n x) as (s' & -> & [Hq' Hr' Hd' Hl']).
  { rewrite Hqs. by rewrite decide_True. }
  exists pre, o, rest. rewrite Hq. cbn [take drop]. split_and!; try done.
  - intros o' l'. rewrite Hq', Hqs. by destruct (decide _).
  - congruence.
  - congruence.
  - auto.
Qed.

Lemma queue_push_ready s l o f o' l' : queue_of (push_ready s l o f) o' l' = queue_of s o' l'.
Proof. unfold push_ready. destruct (bool_decide _); [done|]. by destruct (_ && _ && _). Qed.

Lemma push_ready_owners s l o f : owners (push_ready s l o f) = owners s ∧ lens (push_ready s l o f) = lens s.
Proof. unfold push_ready. destruct (bool_decide _); [done|]. by destruct (_ && _ && _). Qed.

(** The line of [l] after [push_ready]: the owner is in it, once, and nobody lost
    a place to anyone but an owner that cut in. *)
Lemma push_ready_line s l o f :
  ∃ r, ready (push_ready s l o f) = set_lane (ready s) l r
    ∧ ((o ∈ at_lane (ready s) l) ∧ r = at_lane (ready s) l ∧ push_ready s l o f = s
       ∨ (o ∉ at_lane (ready s) l) ∧ r = at_lane (ready s) l ++ [o]
         ∧ bulk_cut_in_debt (push_ready s l o f) = bulk_cut_in_debt s
       ∨ (o ∉ at_lane (ready s) l) ∧ r = o :: at_lane (ready s) l ∧ f = true
         ∧ bulk_cut_in_debt s = 0 ∧ bulk_cut_in_debt (push_ready s l o f) = 2).
Proof.
  unfold push_ready. destruct (bool_decide_reflect (o ∈ at_lane (ready s) l)) as [Hin|Hni].
  { exists (at_lane (ready s) l). rewrite set_at_lane. auto. }
  destruct (f && negb (bool_decide (at_lane (ready s) l = [])) && (bulk_cut_in_debt s =? 0)) eqn:Hc.
  - apply andb_prop in Hc as [[-> _]%andb_prop Hd%Z.eqb_eq]. eexists. split; [done|]. right; right. done.
  - eexists. split; [done|]. right; left. done.
Qed.

(** Every line names an owner once. *)
Definition lines_ok s : Prop := ∀ l, NoDup (at_lane (ready s) l).

Lemma push_ready_lines s l o f : lines_ok s → lines_ok (push_ready s l o f).
Proof.
  intros Hn l'. destruct (push_ready_line s l o f) as (r & -> & H). rewrite at_set_lane. destruct (decide (l' = l)) as [->|]; [|apply Hn].
  specialize (Hn l). destruct H as [(_ & -> & _)|[(Hni & -> & _)|(Hni & -> & _)]]; [done| |by constructor].
  apply NoDup_app. split_and!; [done| |apply NoDup_singleton]. intros x Hx Hx'. apply list_elem_of_singleton in Hx' as ->. done.
Qed.

Lemma push_ready_in s l o f : o ∈ at_lane (ready (push_ready s l o f)) l.
Proof.
  destruct (push_ready_line s l o f) as (r & -> & H). rewrite at_set_lane, decide_True by done.
  destruct H as [(? & -> & _)|[(_ & -> & _)|(_ & -> & _)]]; set_solver.
Qed.

Lemma push_ready_mono s l o f o' l' : o' ∈ at_lane (ready s) l' → o' ∈ at_lane (ready (push_ready s l o f)) l'.
Proof.
  destruct (push_ready_line s l o f) as (r & -> & H). rewrite at_set_lane. destruct (decide (l' = l)) as [->|]; [|done].
  destruct H as [(? & -> & _)|[(_ & -> & _)|(_ & -> & _)]]; set_solver.
Qed.

Lemma push_ready_debt s l o f : 0 ≤ bulk_cut_in_debt s → 0 ≤ bulk_cut_in_debt (push_ready s l o f).
Proof. destruct (push_ready_line s l o f) as (r & _ & [(_ & _ & ->)|[(_ & _ & ->)|(_ & _ & _ & _ & ->)]]); lia. Qed.

(** Adding [k] packets to a queue and to the length of its lane. *)
Lemma add_len_ok s o l x k :
  0 ≤ k → Z.of_nat (length x) = Z.of_nat (length (queue_of s o l)) + k →
  at_lane (lens s) l + k ≤ U64_MAX → lens_ok s → lens_ok (add_len (set_queue s o l x) l k).
Proof.
  intros Hk Hx Hmax Hl l'. cbn [add_len set_queue lens owners]. rewrite sum_len_insert, at_set_lane, <- Hl.
  rewrite at_set_lane. unfold queue_of in Hx. destruct (decide (l' = l)) as [->|]; [|lia].
  rewrite Hx. mlia.
Qed.

End queues.

(** ** Nothing is lost, reordered or stranded *)

Section conservation.
Import AdmissionQueues AdmissionTrace.
Context {T : Type}.
Implicit Types (s : OwnerAdmissionQueues T) (y : Sys T).

Lemma push_as_run s o l item : push s o l item false = push_run_back s o l [item].
Proof. reflexivity. Qed.

(** The queues after packets were added at the back: the line is the old one, or
    [push_ready]'s when the queue was empty. *)
Lemma push_run_back_spec s o l items : 
  (∀ o' l', queue_of (push_run_back s o l items).1 o' l'
     = if decide ((o', l') = (o, l)) then queue_of s o l ++ items else queue_of s o' l')
  ∧ (lens_ok s → at_lane (lens s) l + Z.of_nat (length items) ≤ U64_MAX → lens_ok (push_run_back s o l items).1)
  ∧ ∃ s0, ready s0 = ready s ∧ bulk_cut_in_debt s0 = bulk_cut_in_debt s ∧
      (queue_of s o l ++ items ≠ [] → queue_of s o l ≠ [] ∨
         (push_run_back s o l items).1 = push_ready s0 l o (dataplane_local_bulk o l))
      ∧ ((push_run_back s o l items).1 = s0 ∨
         (push_run_back s o l items).1 = push_ready s0 l o (dataplane_local_bulk o l)).
Proof.
  unfold push_run_back. destruct (bool_decide_reflect (length items = 0%nat)) as [H0|H0]; cbn [fst].
  { apply nil_length_inv in H0 as ->. rewrite app_nil_r. split_and!.
    - intros o' l'. apply queue_set.
    - intros Hl _ l'. cbn [set_queue lens owners]. rewrite sum_len_insert, at_set_lane, Hl. unfold queue_of.
      destruct (decide (l' = l)) as [->|]; lia.
    - eexists. split_and!; [..|by left]; [done|done|]. intros Hne. by left. }
  set (s0 := add_len _ l _).
  assert (∀ o' l', queue_of s0 o' l' = if decide ((o', l') = (o, l)) then queue_of s o l ++ items else queue_of s o' l') as Hq
    by (intros o' l'; apply (queue_set s)).
  assert (lens_ok s → at_lane (lens s) l + Z.of_nat (length items) ≤ U64_MAX → lens_ok s0) as Hlens.
  { intros Hl Hm. assert (0 ≤ at_lane (lens s) l) by (rewrite Hl; apply sum_len_nonneg).
    apply add_len_ok; [lia| |lia|done]. rewrite length_app. lia. }
  destruct (bool_decide_reflect (length (queue_of s o l) = 0%nat)) as [He|He]; cbn [fst].
  - split_and!.
    + intros o' l'. rewrite queue_push_ready. apply Hq.
    + intros Hl Hm l'. destruct (push_ready_owners s0 l o (dataplane_local_bulk o l)) as [-> ->]. by apply Hlens.
    + exists s0. split_and!; [done|done|auto|auto].
  - split_and!; [done|done|]. exists s0. split_and!; [done|done| |by left]. intros _. left. intros Hnil. apply He. by rewrite Hnil.
Qed.

(** [wake_owner] puts the owner in the line of each lane in which it has packets. *)
Lemma wake_owner_spec s o : lines_ok s → 0 ≤ bulk_cut_in_debt s →
  (∀ o' l', queue_of (wake_owner s o) o' l' = queue_of s o' l')
  ∧ (lens_ok s → lens_ok (wake_owner s o)) ∧ lens (wake_owner s o) = lens s ∧ lines_ok (wake_owner s o)
  ∧ 0 ≤ bulk_cut_in_debt (wake_owner s o)
  ∧ (∀ o' l', o' ∈ at_lane (ready s) l' → o' ∈ at_lane (ready (wake_owner s o)) l')
  ∧ (∀ l, queue_of s o l ≠ [] → o ∈ at_lane (ready (wake_owner s o)) l).
Proof.
  intros Hn Hd. unfold wake_owner. destruct (owners s !! o) as [qs|] eqn:Ho.
  2: { split_and!; try done. intros l. unfold queue_of. rewrite Ho. by destruct l. }
  set (w := λ (s : OwnerAdmissionQueues T) l (x : list T) f, if bool_decide (length x = 0%nat) then s else push_ready s l o f).
  assert (∀ s l x f, lines_ok s → 0 ≤ bulk_cut_in_debt s →
    (∀ o' l', queue_of (w s l x f) o' l' = queue_of s o' l') ∧ (lens_ok s → lens_ok (w s l x f))
    ∧ lens (w s l x f) = lens s ∧ lines_ok (w s l x f) ∧ 0 ≤ bulk_cut_in_debt (w s l x f)
    ∧ (∀ o' l', o' ∈ at_lane (ready s) l' → o' ∈ at_lane (ready (w s l x f)) l')
    ∧ (x ≠ [] → o ∈ at_lane (ready (w s l x f)) l)) as Hw.
  { intros s1 l x f Hn1 Hd1. unfold w. destruct (bool_decide_reflect (length x = 0%nat)) as [Hx|Hx].
    - apply nil_length_inv in Hx as ->. done.
    - destruct (push_ready_owners s1 l o f) as [Hown Hlen]. split_and!.
      + intros. apply queue_push_ready.
      + intros Hl l'. rewrite Hown, Hlen. apply Hl.
      + done.
      + by apply push_ready_lines.
      + by apply push_ready_debt.
      + intros. by apply push_ready_mono.
      + intros _. apply push_ready_in. }
  destruct (Hw s Priority (priority qs) false Hn Hd) as (Q1 & L1 & E1 & N1 & D1 & M1 & I1).
  destruct (Hw _ Bulk (bulk qs) (dataplane_local_bulk o Bulk) N1 D1) as (Q2 & L2 & E2 & N2 & D2 & M2 & I2).
  destruct (Hw _ Background (background qs) false N2 D2) as (Q3 & L3 & E3 & N3 & D3 & M3 & I3).
  fold (w s Priority (priority qs) false).
  fold (w (w s Priority (priority qs) false) Bulk (bulk qs) (dataplane_local_bulk o Bulk)).
  fold (w (w (w s Priority (priority qs) false) Bulk (bulk qs) (dataplane_local_bulk o Bulk)) Background (background qs) false).
  split_and!; auto.
  - intros. by rewrite Q3, Q2, Q1.
  - congruence.
  - intros l. unfold queue_of. rewrite Ho. destruct l; intros Hne; [apply M3, M2, I1|apply M3, I2|apply I3]; done.
Qed.

Lemma of_queue_app o l (a b : list (OwnerId * Lane * T)) : of_queue o l (a ++ b) = of_queue o l a ++ of_queue o l b.
Proof. unfold of_queue. by rewrite filter_app, fmap_app. Qed.

Lemma of_queue_tag o l o' l' (x : list T) :
  of_queue o l (tag o' l' x) = if decide ((o, l) = (o', l')) then x else [].
Proof.
  unfold of_queue, tag. destruct (decide _) as [He|Hne].
  - injection He as -> ->. induction x as [|t x IH]; [done|]. cbn [fmap list_fmap]. rewrite filter_cons_True by done.
    cbn. by f_equal.
  - induction x as [|t x IH]; [done|]. cbn [fmap list_fmap]. rewrite filter_cons_False; [done|]. cbn. congruence.
Qed.

Record inv y : Prop := {
  inv_fifo : ∀ o l, of_queue o l (served y) ++ queue_of (q y) o l = of_queue o l (admitted y);
  inv_lines : lines_ok (q y);
  inv_debt : 0 ≤ bulk_cut_in_debt (q y);
  inv_reach : ∀ o l, queue_of (q y) o l ≠ [] → o ∈ at_lane (ready (q y)) l ∨ (o, l) ∈ parked y;
  inv_lens : lens_ok (q y);
  inv_total : ∀ l, at_lane (lens (q y)) l ≤ Z.of_nat (length (admitted y))
}.

Lemma sum_len_mono (m' m : gmap OwnerId (PerLane (list T))) l :
  (∀ o, (length (at_lane (default no_queues (m' !! o)) l) ≤ length (at_lane (default no_queues (m !! o)) l))%nat) →
  sum_len m' l ≤ sum_len m l.
Proof.
  revert m. induction m' as [|o x m' Ho IH] using map_ind; intros m Hle; [apply sum_len_nonneg|].
  rewrite sum_len_insert_new, (sum_len_delete m o) by done.
  pose proof (Hle o) as Hx. rewrite lookup_insert_eq in Hx. cbn in Hx. enough (sum_len m' l ≤ sum_len (delete o m) l) by lia.
  apply IH. intros o'. destruct (decide (o' = o)) as [->|Hne].
  - rewrite Ho. cbn. destruct l; cbn; lia.
  - rewrite lookup_delete_ne by done. specialize (Hle o'). by rewrite lookup_insert_ne in Hle.
Qed.

Lemma admit_inv y o l items : inv y → Z.of_nat (length (admitted y ++ tag o l items)) ≤ U64_MAX →
  inv (mkSys (push_run_back (q y) o l items).1 (admitted y ++ tag o l items) (served y) (parked y)).
Proof.
  intros [Hf Hn Hd Hr Hl Ht] Hmax. rewrite length_app in Hmax. unfold tag in Hmax. rewrite length_fmap in Hmax.
  destruct (push_run_back_spec (q y) o l items) as (Hq & Hlens & s0 & Hs0 & Hs1 & Hsome & Hcase).
  assert (lens_ok (push_run_back (q y) o l items).1) as Hl' by (apply Hlens; [done|]; specialize (Ht l); lia).
  split; cbn [q served admitted parked].
  - intros o' l'. rewrite Hq, of_queue_app, of_queue_tag, <- Hf. destruct (decide _) as [He|]; [|by rewrite app_nil_r].
    injection He as -> ->. by rewrite app_assoc.
  - destruct Hcase as [-> | ->]; [|apply push_ready_lines]; intros l'; rewrite Hs0; apply Hn.
  - destruct Hcase as [-> | ->]; [|apply push_ready_debt]; by rewrite Hs1.
  - intros o' l'. rewrite Hq. destruct (decide _) as [He|].
    + injection He as -> ->. intros [Hne| ->]%Hsome; [|left; apply push_ready_in].
      destruct (Hr o l Hne) as [Hin|]; [left|by right].
      destruct Hcase as [-> | ->]; [|apply push_ready_mono]; by rewrite Hs0.
    + intros Hne. destruct (Hr o' l' Hne) as [Hin|]; [left|by right].
      destruct Hcase as [-> | ->]; [|apply push_ready_mono]; by rewrite Hs0.
  - done.
  - intros l'. rewrite length_app. unfold tag. rewrite length_fmap, Hl'.
    trans (sum_len (owners (set_queue (q y) o l (queue_of (q y) o l ++ items))) l').
    { apply sum_len_mono. intros o'. specialize (Hq o' l'). pose proof (queue_set (q y) o l (queue_of (q y) o l ++ items) o' l') as Hq'.
      unfold queue_of in Hq, Hq' |- *. rewrite Hq, Hq'. done. }
    cbn [set_queue owners]. rewrite sum_len_insert, at_set_lane, <- Hl. specialize (Ht l'). unfold queue_of.
    destruct (decide (l' = l)) as [->|]; [rewrite length_app; lia|lia].
Qed.

(** A turn that served [n] packets of [o]: what must be known of the queues after it. *)
Lemma turn_inv y o l n s' pk : inv y →
  (∀ o' l', queue_of s' o' l' = if decide ((o', l') = (o, l)) then drop n (queue_of (q y) o l) else queue_of (q y) o' l') →
  lines_ok s' → 0 ≤ bulk_cut_in_debt s' → lens_ok s' →
  (∀ o' l', queue_of s' o' l' ≠ [] → o' ∈ at_lane (ready s') l' ∨ (o', l') ∈ pk) →
  inv (mkSys s' (admitted y) (served y ++ tag o l (take n (queue_of (q y) o l))) pk).
Proof.
  intros [Hf Hn Hd Hr Hl Ht] Hq Hn' Hd' Hl' Hr'. split; cbn [q served admitted parked]; try done.
  - intros o' l'. rewrite Hq, of_queue_app, of_queue_tag, <- Hf. destruct (decide _) as [He|]; [|by rewrite app_nil_r].
    injection He as -> ->. by rewrite <- app_assoc, take_drop.
  - intros l'. rewrite Hl'. etrans; [|apply Ht]. rewrite Hl. apply sum_len_mono. intros o'. specialize (Hq o' l').
    unfold queue_of in Hq. rewrite Hq. destruct (decide _) as [He|]; [|done]. injection He as -> ->. rewrite length_drop. lia.
Qed.

(** Owners that stayed in line, or were parked, cover every queue but the one served. *)
Lemma reach_after y l pre o rest s' pk : inv y →
  at_lane (ready (q y)) l = pre ++ o :: rest → (∀ o', o' ∈ pre → queue_of (q y) o' l = []) →
  (∀ o' l', o' ∈ at_lane (set_lane (ready (q y)) l rest) l' → o' ∈ at_lane (ready s') l') → parked y ⊆ pk →
  ∀ o' l', (o', l') ≠ (o, l) → queue_of (q y) o' l' ≠ [] → o' ∈ at_lane (ready s') l' ∨ (o', l') ∈ pk.
Proof.
  intros Hi Hline Hpre Hmono Hpk o' l' Hne Hq. destruct (inv_reach y Hi o' l' Hq) as [Hin|Hp]; [left|right; by apply Hpk].
  apply Hmono. rewrite at_set_lane. destruct (decide (l' = l)) as [->|]; [|done].
  rewrite Hline in Hin. apply elem_of_app in Hin as [Hin|[->|Hin]%elem_of_cons]; [by apply Hpre in Hin|done|done].
Qed.

Lemma lines_after y l pre o rest s' : inv y → at_lane (ready (q y)) l = pre ++ o :: rest →
  ready s' = set_lane (ready (q y)) l rest → lines_ok s'.
Proof.
  intros Hi Hline Hr l'. rewrite Hr, at_set_lane. pose proof (inv_lines y Hi l') as Hn. destruct (decide (l' = l)) as [->|]; [|done].
  rewrite Hline in Hn. apply NoDup_app in Hn as (_ & _ & Hn). by inversion Hn.
Qed.

Lemma continue_inv y l pre o rest s' limit : inv y →
  at_lane (ready (q y)) l = pre ++ o :: rest → (∀ o', o' ∈ pre → queue_of (q y) o' l = []) →
  (∀ o' l', queue_of s' o' l'
     = if decide ((o', l') = (o, l)) then drop limit (queue_of (q y) o l) else queue_of (q y) o' l') →
  ready s' = set_lane (ready (q y)) l rest → 0 ≤ bulk_cut_in_debt s' → lens_ok s' →
  inv (mkSys (continue_owner_lane s' (mkCursor o l (negb (bool_decide (length (drop limit (queue_of (q y) o l)) = 0%nat)))))
         (admitted y) (served y ++ tag o l (take limit (queue_of (q y) o l))) (parked y)).
Proof.
  intros Hi Hline Hpre Hq Hr Hd Hl. pose proof (lines_after y l pre o rest s' Hi Hline Hr) as Hn.
  unfold continue_owner_lane. cbn [owner_has_more c_lane c_owner].
  destruct (bool_decide_reflect (length (drop limit (queue_of (q y) o l)) = 0%nat)) as [H0|H0]; cbn [negb];
    (apply turn_inv; [done|..]).
  - done.
  - done.
  - done.
  - done.
  - intros o' l'. rewrite Hq. destruct (decide _) as [He|Hne]; [by apply nil_length_inv in H0 as ->|].
    eapply reach_after; try done. intros o'' l''. by rewrite Hr.
  - intros o' l'. by rewrite queue_push_ready.
  - by apply push_ready_lines.
  - by apply push_ready_debt.
  - intros l'. destruct (push_ready_owners s' l o false) as [-> ->]. apply Hl.
  - intros o' l'. rewrite queue_push_ready, Hq. destruct (decide _) as [He|Hne].
    + injection He as -> ->. intros _. left. apply push_ready_in.
    + eapply reach_after; try done. intros o'' l'' Hin. apply push_ready_mono. by rewrite Hr.
Qed.

Lemma defer_inv y l pre o rest s' limit acc more : inv y → Z.of_nat (length (admitted y)) ≤ U64_MAX →
  at_lane (ready (q y)) l = pre ++ o :: rest → (∀ o', o' ∈ pre → queue_of (q y) o' l = []) →
  (∀ o' l', queue_of s' o' l'
     = if decide ((o', l') = (o, l)) then drop limit (queue_of (q y) o l) else queue_of (q y) o' l') →
  ready s' = set_lane (ready (q y)) l rest → 0 ≤ bulk_cut_in_debt s' → lens_ok s' →
  (acc < length (take limit (queue_of (q y) o l)))%nat →
  inv (mkSys (defer_owner_run s' (mkCursor o l more) (drop acc (take limit (queue_of (q y) o l))))
         (admitted y) (served y ++ tag o l (take acc (take limit (queue_of (q y) o l)))) ({[(o, l)]} ∪ parked y)).
Proof.
  intros Hi Hmax Hline Hpre Hq Hr Hd Hl Hacc. pose proof (lines_after y l pre o rest s' Hi Hline Hr) as Hn.
  set (Q := queue_of (q y) o l) in *. pose proof Hacc as Hacc'. rewrite length_take in Hacc'.
  assert (take acc (take limit Q) = take acc Q) as Ht by (rewrite take_take; f_equal; lia).
  assert (drop acc (take limit Q) ++ drop limit Q = drop acc Q) as Happ.
  { rewrite <- (take_drop limit Q) at 3. rewrite drop_app. f_equal. by replace (acc - length (take limit Q))%nat with 0%nat by lia. }
  unfold defer_owner_run. rewrite bool_decide_false by (rewrite length_drop; lia). cbn [c_owner c_lane].
  assert (queue_of s' o l = drop limit Q) as Hmine by (rewrite Hq; by rewrite decide_True).
  rewrite Hmine, Happ, Ht.
  assert (∀ o' l', queue_of (set_queue s' o l (drop acc Q)) o' l' = if decide ((o', l') = (o, l)) then drop acc Q else queue_of (q y) o' l') as Hq'.
  { intros o' l'. rewrite queue_set, Hq. by destruct (decide _). }
  assert (Z.of_nat (length (drop acc Q)) = Z.of_nat (length (drop limit Q)) + Z.of_nat (length (drop acc (take limit Q)))) as Hlen
    by (rewrite <- Happ, length_app; lia).
  apply turn_inv; [done|exact Hq'|exact Hn|exact Hd| |].
  - apply add_len_ok; [lia|by rewrite Hmine| |done]. etrans; [|exact Hmax]. etrans; [|apply (inv_total y Hi l)].
    rewrite Hl, (inv_lens y Hi). trans (sum_len (owners (set_queue s' o l (drop acc Q))) l).
    + cbn [set_queue owners]. rewrite sum_len_insert, at_set_lane, decide_True by done.
      unfold queue_of in Hmine. rewrite Hmine. lia.
    + apply sum_len_mono. intros o'. specialize (Hq' o' l). unfold queue_of in Hq'. rewrite Hq'.
      destruct (decide _) as [He|]; [|done]. injection He as ->. rewrite length_drop. unfold Q, queue_of. lia.
  - intros o' l' Hne. change (queue_of (set_queue s' o l (drop acc Q)) o' l' ≠ []) in Hne. rewrite Hq' in Hne.
    destruct (decide _) as [He|Hne']; [rewrite He; right; set_solver|].
    eapply reach_after; try done; [|set_solver]. intros o'' l''. cbn [add_len set_queue ready]. by rewrite Hr.
Qed.

Lemma queue_step_inv y ev : inv y → Z.of_nat (length (admitted (step y ev))) ≤ U64_MAX → inv (step y ev).
Proof.
  intros Hi. destruct ev as [o l items|o l item|l limit acc|o]; cbn [step].
  - intros Hmax. by apply admit_inv.
  - rewrite push_as_run. intros Hmax. by apply admit_inv.
  - pose proof (pop_run_spec (q y) l limit (inv_debt y Hi)) as Hp.
    destruct (pop_next_run_into (q y) l limit) as [s' [[cursor items]|]].
    + destruct Hp as (pre & o & rest & Hline & Hpre & Hne & -> & -> & Hne' & Hq & Hr & Hd & Hl).
      assert (0 ≤ bulk_cut_in_debt s') as Hd' by (rewrite Hd; pose proof (inv_debt y Hi); destruct l; lia).
      specialize (Hl (inv_lens y Hi)). cbn [c_owner c_lane].
      destruct (drop acc (take limit (queue_of (q y) o l))) as [|t r] eqn:Hrest; intros Hmax.
      * rewrite (take_ge (take limit _) acc); [by eapply continue_inv|].
        apply (f_equal length) in Hrest. rewrite length_drop in Hrest. cbn in Hrest. lia.
      * rewrite <- Hrest. eapply defer_inv; try done. apply (f_equal length) in Hrest. rewrite length_drop in Hrest. cbn in Hrest. lia.
    + intros _. destruct Hp as [[_ ->]|(Hall & Hq & Hr & [Hd _] & Hl)]; [by destruct y|].
      replace (served y) with (served y ++ tag (Fmp, 0) l (take 0 (queue_of (q y) (Fmp, 0) l))) by (rewrite take_0; apply app_nil_r).
      apply turn_inv; [done| | |done|by apply Hl, inv_lens|].
      * intros o' l'. rewrite Hq, drop_0. destruct (decide _) as [He|]; [by injection He as -> ->|done].
      * intros l'. rewrite Hr, at_set_lane. destruct (decide _); [apply NoDup_nil_2|apply (inv_lines y Hi)].
      * intros o' l'. rewrite Hq, Hr, at_set_lane. intros Hne. destruct (inv_reach y Hi o' l' Hne) as [Hin|]; [|by right].
        destruct (decide (l' = l)) as [->|]; [by apply Hall in Hin|by left].
  - intros _. destruct (wake_owner_spec (q y) o (inv_lines y Hi) (inv_debt y Hi)) as (Q & L & E & N & D & M & I).
    split; cbn [q served admitted parked]; try done.
    + intros o' l'. rewrite Q. apply (inv_fifo y Hi).
    + intros o' l'. rewrite Q. intros Hne. destruct (decide (o' = o)) as [->|Hno]; [left; by apply I|].
      destruct (inv_reach y Hi o' l' Hne) as [Hin|Hp]; [left; by apply M|right]. apply elem_of_filter. done.
    + by apply L, inv_lens.
    + intros l'. rewrite E. apply (inv_total y Hi).
Qed.

Lemma start_inv : inv (start (T := T)).
Proof.
  split; try done.
  - intros o []; done.
  - intros []; apply NoDup_nil_2.
  - intros o []; done.
  - intros []; done.
  - intros []; done.
Qed.

Lemma step_admitted y ev : admitted y `prefix_of` admitted (step y ev).
Proof.
  destruct ev as [o l items|o l item|l limit acc|o]; cbn [step]; try (by apply prefix_app_r); try done.
  destruct (pop_next_run_into (q y) l limit) as [s' [[cursor items]|]]; [|done]. by destruct (drop acc items).
Qed.

Lemma queue_run_inv evs : Z.of_nat (length (admitted (run start evs))) ≤ U64_MAX → inv (run (start (T := T)) evs).
Proof.
  induction evs as [|ev evs IH] using rev_ind; [intros _; apply start_inv|].
  unfold run. rewrite foldl_snoc. fold (run (start (T := T)) evs). intros Hmax. apply queue_step_inv; [|done]. apply IH.
  etrans; [|exact Hmax]. apply inj_le, prefix_length, step_admitted.
Qed.

End conservation.

(** C17: after any history of admissions, dispatch turns and wake-ups, every queue
    holds exactly the packets admitted to it and not yet served, in the order they
    were admitted, also when runs were only partly accepted and put back; the length
    kept for a lane is the number of packets waiting in it; and no packet is
    stranded: an owner that has some is in the lane's line, or was parked by a
    deferral and not woken since. *)
Theorem admission_queues_exact (T : Type) (evs : list (AdmissionTrace.event T)) (o : OwnerId) (l : Lane) :
  let y := AdmissionTrace.run AdmissionTrace.start evs in
  Z.of_nat (length (AdmissionTrace.admitted y)) ≤ U64_MAX →
  AdmissionTrace.of_queue o l (AdmissionTrace.served y) ++ AdmissionQueues.queue_of (AdmissionTrace.q y) o l
    = AdmissionTrace.of_queue o l (AdmissionTrace.admitted y)
  ∧ at_lane (AdmissionQueues.lens (AdmissionTrace.q y)) l
    = sum_len (AdmissionQueues.owners (AdmissionTrace.q y)) l
  ∧ (AdmissionQueues.queue_of (AdmissionTrace.q y) o l ≠ [] →
     o ∈ at_lane (AdmissionQueues.ready (AdmissionTrace.q y)) l ∨ (o, l) ∈ AdmissionTrace.parked y).
Proof.
  intros y Hmax. pose proof (queue_run_inv evs Hmax) as Hi. split_and!.
  - apply (inv_fifo _ Hi).
  - apply (inv_lens _ Hi).
  - apply (inv_reach _ Hi).
Qed.

Lemma admission_queues_exact_witness :
  AdmissionQueues.queue_of (AdmissionTrace.q (AdmissionTrace.run AdmissionTrace.start
    [AdmissionTrace.AdmitRun (Fsp, 1) Bulk [10; 11; 12]; AdmissionTrace.Turn Bulk 2 1;
     AdmissionTrace.Admit (Fsp, 1) Bulk 13])) (Fsp, 1) Bulk = [11; 12; 13].
Proof.
  destruct (admission_queues_exact Z [AdmissionTrace.AdmitRun (Fsp, 1) Bulk [10; 11; 12]; AdmissionTrace.Turn Bulk 2 1;
     AdmissionTrace.Admit (Fsp, 1) Bulk 13] (Fsp, 1) Bulk) as (Hf & _ & _); [by vm_compute|].
  assert (10 :: AdmissionQueues.queue_of (AdmissionTrace.q (AdmissionTrace.run AdmissionTrace.start
    [AdmissionTrace.AdmitRun (Fsp, 1) Bulk [10; 11; 12]; AdmissionTrace.Turn Bulk 2 1;
     AdmissionTrace.Admit (Fsp, 1) Bulk 13])) (Fsp, 1) Bulk = [10; 11; 12; 13]) as H; [exact Hf|]. exact (f_equal (@tail Z) H).
Defined.

(** ** Fairness *)

Section fairness.
Import AdmissionQueues AdmissionTrace.
Context {T : Type}.
Implicit Types (s : OwnerAdmissionQueues T) (y : Sys T).

Definition is_turn (l : Lane) (ev : event T) : bool :=
  match ev with Turn l' limit _ => bool_decide (l' = l) && negb (bool_decide (limit = 0%nat)) | _ => false end.

Definition turns (l : Lane) (evs : list (event T)) : Z := Z.of_nat (length (filter (λ ev, is_turn l ev = true) evs)).

(** The turns a lane may take before the owner at place [i] of the line is served,
    with the debt [d] of the bulk lane. *)
Definition cost (l : Lane) (i : nat) (d : Z) : Z :=
  match l with Bulk => Z.max 1 (2 * Z.of_nat i + 2 - d) | _ => Z.of_nat i + 1 end.

Definition debt_ok s : Prop := 0 ≤ bulk_cut_in_debt s ≤ 2.

(** [o] waits in line with [h] its oldest packet, at most [n] turns away. *)
Record waits s (o : OwnerId) (l : Lane) (h : T) (n : Z) : Prop := {
  w_place : ∃ i, at_lane (ready s) l !! i = Some o ∧ cost l i (bulk_cut_in_debt s) ≤ n;
  w_queue : ∃ tl, queue_of s o l = h :: tl;
  w_debt : debt_ok s
}.

Lemma waits_pos s o l h n : waits s o l h n → 1 ≤ n.
Proof. intros [(i & _ & Hc) _ _]. destruct l; cbn in Hc; lia. Qed.

Lemma push_ready_waits s o l h n o' l' f : (f = true → l' = Bulk) → waits s o l h n → waits (push_ready s l' o' f) o l h n.
Proof.
  intros Hf [(i & Hi & Hc) Hq Hd]. unfold debt_ok in Hd. destruct (push_ready_line s l' o' f) as (r & Hr & H). split.
  2: { setoid_rewrite queue_push_ready. done. }
  - rewrite Hr, at_set_lane. destruct (decide (l = l')) as [<-|Hne].
    + destruct H as [(_ & -> & ->)|[(_ & -> & ->)|(_ & -> & -> & Hd0 & ->)]].
      * eauto.
      * exists i. by rewrite lookup_app_l by (by eapply lookup_lt_Some).
      * exists (S i). split; [done|]. rewrite Hf in Hc |- * by done. cbn in Hc |- *. lia.
    + exists i. split; [done|]. destruct H as [(_ & _ & ->)|[(_ & _ & ->)|(_ & _ & -> & _)]]; [done|done|].
      rewrite Hf in Hne by done. by destruct l.
  - unfold debt_ok. destruct H as [(_ & _ & ->)|[(_ & _ & ->)|(_ & _ & _ & _ & ->)]]; lia.
Qed.

Lemma local_bulk_lane o l : dataplane_local_bulk o l = true → l = Bulk.
Proof. unfold dataplane_local_bulk. by intros [H%bool_decide_eq_true _]%andb_prop. Qed.

Lemma push_ready_debt_ok s o l f : debt_ok s → debt_ok (push_ready s l o f).
Proof.
  unfold debt_ok. destruct (push_ready_line s l o f) as (r & _ & [(_ & _ & ->)|[(_ & _ & ->)|(_ & _ & _ & _ & ->)]]); lia.
Qed.

Lemma pop_run_debt_ok s l limit : debt_ok s → debt_ok (pop_next_run_into s l limit).1.
Proof.
  unfold debt_ok, pop_next_run_into. intros Hd. destruct limit as [|n]; [done|]. unfold pop_lane. generalize (at_lane (ready s) l) as line.
  intros line. revert s Hd. induction line as [|o rest IH]; intros s Hd; cbn [pop_lane_loop]; [done|].
  assert (0 ≤ bulk_cut_in_debt (drop_ready s l rest) ≤ 2) as Hd' by (cbn [drop_ready bulk_cut_in_debt]; destruct l; mlia).
  pose proof (pop_one (drop_ready s l rest) o l) as Hp. destruct (queue_of (drop_ready s l rest) o l) as [|item x].
  - rewrite Hp. by apply IH.
  - destruct Hp as (s1 & p & s' & -> & -> & [Hq Hr Hd1 Hl]).
    destruct (continue_run_spec s' o l [item] n x) as (s'' & -> & [_ _ Hd2 _]); [rewrite Hq; by rewrite decide_True|].
    cbn [fst]. congruence.
Qed.

Lemma wake_owner_waits s o l h n o' : waits s o l h n → waits (wake_owner s o') o l h n.
Proof.
  intros Hw. unfold wake_owner. destruct (owners s !! o') as [qs|]; [|done].
  repeat match goal with |- context [bool_decide (length ?x = 0%nat)] => destruct (bool_decide (length x = 0%nat)) end;
    repeat (apply push_ready_waits; [by auto using local_bulk_lane|]); done.
Qed.

Lemma wake_owner_debt_ok s o' : debt_ok s → debt_ok (wake_owner s o').
Proof.
  intros Hw. unfold wake_owner. destruct (owners s !! o') as [qs|]; [|done].
  repeat match goal with |- context [bool_decide (length ?x = 0%nat)] => destruct (bool_decide (length x = 0%nat)) end;
    auto using push_ready_debt_ok.
Qed.

Lemma push_run_back_waits s o l h n o' l' items :
  waits s o l h n → waits (push_run_back s o' l' items).1 o l h n.
Proof.
  intros [Hp [tl Hq] Hd]. destruct (push_run_back_spec s o' l' items) as (Hqs & _ & s0 & Hr & Hd0 & _ & Hcase).
  assert (∃ tl', queue_of (push_run_back s o' l' items).1 o l = h :: tl') as Hq'.
  { rewrite Hqs. destruct (decide _) as [He|]; [|by eauto]. injection He as -> ->. rewrite Hq. by eexists. }
  assert (waits s0 o l h n) as Hs0.
  { split; [by rewrite Hr, Hd0| |unfold debt_ok; by rewrite Hd0].
    destruct Hcase as [<-|He]; [done|]. rewrite He in Hq'. by setoid_rewrite queue_push_ready in Hq'. }
  destruct Hcase as [->| ->]; [done|]. apply push_ready_waits; [apply local_bulk_lane|done].
Qed.

Lemma push_run_back_debt_ok s o' l' items : debt_ok s → debt_ok (push_run_back s o' l' items).1.
Proof.
  intros Hd. destruct (push_run_back_spec s o' l' items) as (_ & _ & s0 & _ & Hd0 & _ & Hcase).
  assert (debt_ok s0) by (unfold debt_ok; by rewrite Hd0). destruct Hcase as [->| ->]; auto using push_ready_debt_ok.
Qed.

Lemma step_debt_ok y ev : debt_ok (q y) → debt_ok (q (step y ev)).
Proof.
  intros Hd. destruct ev as [o l items|o l item|l limit acc|o]; cbn [step].
  - by apply push_run_back_debt_ok.
  - rewrite push_as_run. by apply push_run_back_debt_ok.
  - pose proof (pop_run_debt_ok (q y) l limit Hd) as Hp.
    destruct (pop_next_run_into (q y) l limit) as [s' [[cursor items]|]]; [|done]. cbn [fst] in Hp.
    destruct (drop acc items); cbn [q].
    + unfold continue_owner_lane. destruct (owner_has_more cursor); auto using push_ready_debt_ok.
    + unfold defer_owner_run. by destruct (bool_decide _).
  - by apply wake_owner_debt_ok.
Qed.

Lemma run_debt_ok y evs : debt_ok (q y) → debt_ok (q (run y evs)).
Proof. revert y. induction evs as [|ev evs IH]; intros y Hd; [done|]. by apply IH, step_debt_ok. Qed.

(** A turn serves [o], or brings it one turn closer. *)
Lemma turn_waits s o l h n l' limit : waits s o l h n →
  match pop_next_run_into s l' limit with
  | (s', None) => waits s' o l h n ∧ (l' = l → limit = 0%nat)
  | (s', Some (cursor, items)) =>
      (c_owner cursor, l') = (o, l) ∧ head items = Some h
      ∨ (c_owner cursor, c_lane cursor) ≠ (o, l)
        ∧ waits s' o l h (n - if bool_decide (l' = l) then 1 else 0)
  end.
Proof.
  intros [(i & Hi & Hc) [tl Hq] Hd]. pose proof Hd as [Hd0 Hd2]. pose proof (pop_run_spec s l' limit Hd0) as Hp.
  pose proof (pop_run_debt_ok s l' limit Hd) as Hdp.
  destruct (pop_next_run_into s l' limit) as [s' [[cursor items]|]]; cbn [fst] in Hdp.
  - destruct Hp as (pre & o1 & rest & Hline & Hpre & Hne & -> & -> & Hne' & Hqs & Hr & Hdebt & _). cbn [c_owner c_lane].
    destruct (decide ((o1, l') = (o, l))) as [He|Hno].
    { left. split; [done|]. injection He as -> ->. rewrite Hq in Hne' |- *. by destruct limit. }
    right. split; [done|]. split; [| |done].
    2: { rewrite Hqs, decide_False by congruence. eauto. }
    rewrite Hr, at_set_lane. destruct (decide (l = l')) as [<-|Hl].
    + rewrite bool_decide_true by done. rewrite Hline in Hi.
      assert (i > length pre)%nat as Hgt.
      { destruct (lt_eq_lt_dec i (length pre)) as [[Hlt|Heq]|]; [| |lia].
        - rewrite lookup_app_l in Hi by done. apply list_elem_of_lookup_2 in Hi. apply Hpre in Hi. congruence.
        - rewrite lookup_app_r, Heq, Nat.sub_diag in Hi by lia. cbn in Hi. congruence. }
      exists (i - S (length pre))%nat. rewrite lookup_app_r in Hi by lia. split.
      * destruct (i - length pre)%nat as [|k] eqn:Hk; [lia|]. cbn in Hi. by replace (i - S (length pre))%nat with k by lia.
      * rewrite Hdebt. unfold cost in Hc |- *. clear -Hc Hgt Hd0 Hd2. destruct l; lia.
    + rewrite bool_decide_false by done. exists i. split; [done|]. rewrite Hdebt. unfold cost in Hc |- *.
      clear -Hc Hl. destruct l; try lia. destruct l'; try done; lia.
  - destruct Hp as [[-> ->]|(Hall & Hqs & Hr & [_ Hsame] & _)].
    { split; [|done]. split; eauto. }
    destruct (decide (l' = l)) as [->|Hl].
    { apply list_elem_of_lookup_2 in Hi. apply Hall in Hi. congruence. }
    split; [|done]. split; [|rewrite Hqs; eauto|done].
    exists i. rewrite Hr, at_set_lane, decide_False by done. split; [done|].
    assert (l = Bulk → bulk_cut_in_debt s' = bulk_cut_in_debt s) as He.
    { intros ->. by apply Hsame. }
    unfold cost in Hc |- *. destruct l; try done. by rewrite He.
Qed.

Lemma turns_cons l ev evs : turns l (ev :: evs) = (if is_turn l ev then 1 else 0) + turns l evs.
Proof.
  unfold turns. rewrite filter_cons. destruct (is_turn l ev) eqn:He; [rewrite decide_True by done|rewrite decide_False by done].
  - cbn [length]. lia.
  - lia.
Qed.

(** The event serves [o] a run that starts with [h]. *)
Definition serves y (ev : event T) (o : OwnerId) (l : Lane) (h : T) : Prop :=
  ∃ limit acc cursor items, ev = Turn l limit acc ∧ (pop_next_run_into (q y) l limit).2 = Some (cursor, items)
    ∧ c_owner cursor = o ∧ head items = Some h.

Lemma waits_le s o l h n m : waits s o l h n → n ≤ m → waits s o l h m.
Proof. intros [(i & Hi & Hc) Hq Hd] Hle. split; [|done|done]. exists i. split; [done|lia]. Qed.

Lemma step_waits y ev o l h n : waits (q y) o l h n →
  serves y ev o l h ∨ waits (q (step y ev)) o l h (n - if is_turn l ev then 1 else 0).
Proof.
  intros Hw. destruct ev as [o' l' items|o' l' item|l' limit acc|o']; cbn [step is_turn q]; rewrite ?Z.sub_0_r.
  - right. by apply push_run_back_waits.
  - right. rewrite push_as_run. by apply push_run_back_waits.
  - pose proof (turn_waits (q y) o l h n l' limit Hw) as Ht.
    destruct (pop_next_run_into (q y) l' limit) as [s' [[cursor items]|]] eqn:Hp.
    + destruct Ht as [[He Hh]|[Hne Hw']].
      { injection He as Ho ->. left. exists limit, acc, cursor, items. by rewrite Hp. }
      right. apply (waits_le _ _ _ _ _ (n - if bool_decide (l' = l) && negb (bool_decide (limit = 0%nat)) then 1 else 0)) in Hw';
        [|by destruct (bool_decide (l' = l)), (bool_decide (limit = 0%nat)); cbn; lia]. revert Hw'. generalize (n - if bool_decide (l' = l) && negb (bool_decide (limit = 0%nat)) then 1 else 0).
      intros m Hw'. destruct (drop acc items); cbn [q].
      * unfold continue_owner_lane. destruct (owner_has_more cursor); [|done]. by apply push_ready_waits.
      * unfold defer_owner_run. destruct (bool_decide _); [done|]. destruct Hw' as [Hpl [tl Hq] Hd]. split; [done| |done].
        exists tl. etrans; [apply queue_set|]. by rewrite decide_False by congruence.
    + destruct Ht as [Hw' Hz]. right. cbn [q]. destruct (bool_decide_reflect (l' = l)) as [He|]; [|by rewrite Z.sub_0_r].
      rewrite (Hz He). by rewrite Z.sub_0_r.
  - right. by apply wake_owner_waits.
Qed.

Lemma run_waits y evs o l h n : waits (q y) o l h n → n ≤ turns l evs →
  ∃ pre ev post, evs = pre ++ ev :: post ∧ turns l pre < n ∧ serves (run y pre) ev o l h.
Proof.
  revert y n. induction evs as [|ev evs IH]; intros y n Hw Hn.
  { pose proof (waits_pos _ _ _ _ _ Hw). unfold turns in Hn. cbn in Hn. lia. }
  rewrite turns_cons in Hn. destruct (step_waits y ev o l h n Hw) as [Hs|Hw'].
  { exists [], ev, evs. split; [done|]. split; [|done]. pose proof (waits_pos _ _ _ _ _ Hw). unfold turns. cbn. lia. }
  destruct (IH _ _ Hw') as (pre & ev' & post & -> & Hlt & Hs); [lia|].
  exists (ev :: pre), ev', post. split; [done|]. split; [|done]. rewrite turns_cons. lia.
Qed.

End fairness.

(** C18: no owner starves. In every reachable state an owner at place [i] of a
    lane's line is served within [i + 1] of the lane's dispatch turns, whatever is
    admitted, deferred and woken meanwhile; in the bulk lane, where local traffic
    may cut in, within [2 i + 2] turns. The run it is given starts with its
    oldest packet. *)
Theorem line_is_fair (T : Type) (evs0 evs : list (AdmissionTrace.event T)) (o : OwnerId) (l : Lane) (i : nat)
    (h : T) (tl : list T) :
  let y := AdmissionTrace.run AdmissionTrace.start evs0 in
  let bound := match l with Bulk => 2 * Z.of_nat i + 2 | _ => Z.of_nat i + 1 end in
  at_lane (AdmissionQueues.ready (AdmissionTrace.q y)) l !! i = Some o →
  AdmissionQueues.queue_of (AdmissionTrace.q y) o l = h :: tl →
  bound ≤ turns l evs →
  ∃ pre limit accepted post cursor items,
    evs = pre ++ AdmissionTrace.Turn l limit accepted :: post ∧ turns l pre < bound
    ∧ (AdmissionQueues.pop_next_run_into (AdmissionTrace.q (AdmissionTrace.run y pre)) l limit).2 = Some (cursor, items)
    ∧ AdmissionQueues.c_owner cursor = o ∧ head items = Some h.
Proof.
  intros y bound Hi Hq Hb.
  assert (debt_ok (AdmissionTrace.q y)) as Hd by (apply run_debt_ok; unfold debt_ok; cbn; lia).
  destruct (run_waits y evs o l h bound) as (pre & ev & post & -> & Hlt & limit & acc & cursor & items & -> & Hp & Ho & Hh);
    [|done|by exists pre, limit, acc, post, cursor, items].
  split; [|by eauto|done]. exists i. split; [done|]. unfold debt_ok in Hd. unfold cost, bound. destruct l; lia.
Qed.

Lemma line_is_fair_witness :
  let evs := [AdmissionTrace.Admit (Fsp, 9) Bulk 7; AdmissionTrace.Turn Bulk 1 1; AdmissionTrace.Turn Bulk 1 1] in
  ∃ pre limit accepted post cursor items,
    evs = pre ++ AdmissionTrace.Turn Bulk limit accepted :: post ∧ turns Bulk pre < 2
    ∧ (AdmissionQueues.pop_next_run_into (AdmissionTrace.q (AdmissionTrace.run
         (AdmissionTrace.run AdmissionTrace.start [AdmissionTrace.AdmitRun (Fmp, 1) Bulk [5; 6]]) pre)) Bulk limit).2
        = Some (cursor, items)
    ∧ AdmissionQueues.c_owner cursor = (Fmp, 1) ∧ head items = Some 5.
Proof.
  intros evs. apply (line_is_fair Z [AdmissionTrace.AdmitRun (Fmp, 1) Bulk [5; 6]] evs (Fmp, 1) Bulk 0 5 [6]);
    by vm_compute.
Defined.
