(* ===== verification/Ledger.v ===== *)
(** * The relay's payment ledger
    ([crates/fips-relay/src/ledger.rs], [ledger/admission.rs],
    [ledger/history.rs], [ledger/channel_history.rs], [ledger/retirement.rs])

    A relay sells forwarding to a neighbour. A channel holds what the neighbour
    has paid; a contract under it sells one destination at a price per byte; an
    admitted packet reserves its price until its outcome is known. Closed
    contracts are rolled up into their channel, and expired channels into a
    history that keeps each buyer's debt. [RelayLedger] has the operations;
    operations that lock the state run one at a time, and each leaves the state
    alone when it fails, so a result carries a new state only when it is [Ok].

    [String] keys are strings and the 32-byte keys of attempts byte lists; the
    order in which maps are listed is the argument [ord]. *)

From Stdlib Require Import Ascii.
From stdpp Require Import strings.
From S2P Require Import Prelude Bytes NodeAddr SessionWire.

Local Open Scope Z_scope.

(** ** Checked arithmetic on [u64] *)

Definition checked_add (a b : Z) : option Z := if a + b <=? U64_MAX then Some (a + b) else None.
Definition checked_sub (a b : Z) : option Z := if b <=? a then Some (a - b) else None.
Definition checked_mul (a b : Z) : option Z := if a * b <=? U64_MAX then Some (a * b) else None.

(** ** Data *)

Record ChannelTerms := mkTerms {
  terms_id : string;
  buyer : NodeAddr;
  mint_url : string;
  terms_expires_unix : Z;
  capacity_sat : Z;
  grace_msat : Z
}.

Record BytePrice := mkPrice { msat : Z; per_bytes : Z }.

Inductive BillingBasis := UniqueSessionEnvelope | ForwardingAttempt | ForwardingData.

Record Contract := mkContract {
  contract_id : string;
  channel_id : string;
  destination : NodeAddr;
  next_hop : NodeAddr;
  expires_unix : Z;
  price : BytePrice;
  max_units : Z;
  billing : BillingBasis
}.

Record Limits := mkLimits {
  max_channels : Z;
  max_contracts : Z;
  max_packets_per_contract : Z;
  max_pending : Z
}.

Record Usage := mkUsage { reserved_units : Z; submitted_units : Z; unconfirmed_units : Z }.

Record ChannelUsage := mkChannelUsage {
  reserved_msat : Z;
  submitted_msat : Z;
  lost_msat : Z;
  paid_msat : Z
}.

Inductive AttemptState := Pending | Submitted | Unconfirmed.

Record Attempt := mkAttempt { token : Z; units : Z; attempt_state : AttemptState }.

Record Account := mkAccount {
  contract : Contract;
  usage : Usage;
  attempts : gmap (list Z) Attempt;
  completed : Usage;
  account_active : bool
}.

Record RetiredRouteEvidence := mkRetired {
  through_unix : Z;
  contracts : Z;
  retired_units : Usage;
  retired_reserved_msat : Z;
  retired_submitted_msat : Z
}.

Record Channel := mkChannel {
  terms : ChannelTerms;
  retired : RetiredRouteEvidence;
  channel_usage : ChannelUsage;
  channel_active : bool
}.

Record Debt := mkDebt { debt_buyer : NodeAddr; debt_mint : string; debt_msat : Z }.

Record History := mkHistory {
  history_channels : Z;
  expires_through_unix : Z;
  history_capacity_sat : Z;
  history_usage : ChannelUsage;
  routes : RetiredRouteEvidence;
  debts : list Debt
}.

Record ChannelSnapshot := mkChannelSnapshot {
  cs_retired : option RetiredRouteEvidence;
  cs_terms : ChannelTerms;
  cs_usage : ChannelUsage;
  cs_active : bool
}.

Record Plan := mkPlan { before : History; after : History; plan_channels : list ChannelSnapshot }.

Record RouteRetirementPlan := mkRoutePlan {
  rp_channel : string;
  rp_through_unix : Z;
  rp_contracts : list Contract;
  rp_before : RetiredRouteEvidence;
  rp_after : RetiredRouteEvidence
}.

Record State := mkState {
  history : option History;
  seen : gset (NodeAddr * list Z);
  channels : gmap string Channel;
  accounts : gmap string Account;
  pending : gmap Z (string * list Z);
  next_token : Z
}.

Inductive LedgerError :=
  InvalidContract | AlreadyBound | UnsettledChannel | Capacity | UnknownContract | InvalidPayment | InvalidSnapshot.

Inductive ForwardingOutcome := OutSubmitted | OutUnconfirmed.

Record ForwardingRequest := mkRequest {
  ingress : NodeAddr;
  req_next_hop : NodeAddr;
  source : NodeAddr;
  req_destination : NodeAddr;
  session_payload : list Z
}.

#[export] Instance BytePrice_eq_dec : EqDecision BytePrice.
Proof. solve_decision. Defined.
#[export] Instance BillingBasis_eq_dec : EqDecision BillingBasis.
Proof. solve_decision. Defined.
#[export] Instance ChannelTerms_eq_dec : EqDecision ChannelTerms.
Proof. solve_decision. Defined.
#[export] Instance Contract_eq_dec : EqDecision Contract.
Proof. solve_decision. Defined.
#[export] Instance Usage_eq_dec : EqDecision Usage.
Proof. solve_decision. Defined.
#[export] Instance ChannelUsage_eq_dec : EqDecision ChannelUsage.
Proof. solve_decision. Defined.
#[export] Instance AttemptState_eq_dec : EqDecision AttemptState.
Proof. solve_decision. Defined.
#[export] Instance RetiredRouteEvidence_eq_dec : EqDecision RetiredRouteEvidence.
Proof. solve_decision. Defined.
#[export] Instance Debt_eq_dec : EqDecision Debt.
Proof. solve_decision. Defined.
#[export] Instance History_eq_dec : EqDecision History.
Proof. solve_decision. Defined.

Definition no_usage : Usage := mkUsage 0 0 0.
Definition no_channel_usage : ChannelUsage := mkChannelUsage 0 0 0 0.

Definition has_free_handshakes (b : BillingBasis) : bool := bool_decide (b = ForwardingData).
Definition is_legacy (b : BillingBasis) : bool := bool_decide (b = UniqueSessionEnvelope).

(** The product of two [u64] fits the [u128] it is computed in. *)
Definition amount_due_msat (self : BytePrice) (bytes : Z) : option Z :=
  if per_bytes self =? 0 then None
  else
    let due := (bytes * msat self + (per_bytes self - 1)) / per_bytes self in
    if due <=? U64_MAX then Some due else None.

(** ** Roll-ups of retired contracts ([ledger/history.rs]) *)

Module RetiredRoutes.

Definition default : RetiredRouteEvidence := mkRetired 0 0 no_usage 0 0.

Definition add_usage (a b : Usage) : option Usage :=
  r ← checked_add (reserved_units a) (reserved_units b);
  s ← checked_add (submitted_units a) (submitted_units b);
  u ← checked_add (unconfirmed_units a) (unconfirmed_units b);
  Some (mkUsage r s u).

Definition merged (self other : RetiredRouteEvidence) : option RetiredRouteEvidence :=
  n ← checked_add (contracts self) (contracts other);
  u ← add_usage (retired_units self) (retired_units other);
  r ← checked_add (retired_reserved_msat self) (retired_reserved_msat other);
  s ← checked_add (retired_submitted_msat self) (retired_submitted_msat other);
  Some (mkRetired (Z.max (through_unix self) (through_unix other)) n u r s).

Definition added (self : RetiredRouteEvidence) (c : Contract) (u : Usage) : option RetiredRouteEvidence :=
  n ← checked_add (contracts self) 1;
  us ← add_usage (retired_units self) u;
  dr ← amount_due_msat (price c) (reserved_units u);
  r ← checked_add (retired_reserved_msat self) dr;
  ds ← amount_due_msat (price c) (submitted_units u);
  s ← checked_add (retired_submitted_msat self) ds;
  Some (mkRetired (Z.max (through_unix self) (expires_unix c)) n us r s).

Definition rejects (self : RetiredRouteEvidence) (expiry : Z) : bool :=
  negb (contracts self =? 0) && (expiry <=? through_unix self).

Definition valid (self : RetiredRouteEvidence) (channel_expiry : Z) : bool :=
  if contracts self =? 0 then bool_decide (self = default)
  else
    (through_unix self <=? channel_expiry)
    && bool_decide (checked_add (submitted_units (retired_units self)) (unconfirmed_units (retired_units self))
                    = Some (reserved_units (retired_units self)))
    && (retired_submitted_msat self <=? retired_reserved_msat self).

Definition recovered (saved : option RetiredRouteEvidence) (modern : bool) (expiry : Z)
    : option RetiredRouteEvidence :=
  match saved with
  | Some value => if valid value expiry && (modern || bool_decide (value = default)) then Some value else None
  | None => if modern then None else Some default
  end.

End RetiredRoutes.

(** ** Validation of terms *)

Fixpoint ends_with_slash (s : string) : bool :=
  match s with
  | EmptyString => false
  | String c EmptyString => bool_decide (c = "/"%char)
  | String _ s => ends_with_slash s
  end.

Definition str_len (s : string) : Z := Z.of_nat (String.length s).

Definition validate_channel (c : ChannelTerms) : outcome LedgerError Z :=
  match checked_mul (capacity_sat c) 1000 with
  | None => Err InvalidContract
  | Some cap =>
      if (str_len (terms_id c) =? 0) || (128 <? str_len (terms_id c)) || (str_len (mint_url c) =? 0)
         || (512 <? str_len (mint_url c)) || ends_with_slash (mint_url c) || (cap =? 0) || (cap <? grace_msat c)
      then Err InvalidContract else Ok cap
  end.

Definition validate_contract (c : Contract) (channel : ChannelTerms) : outcome LedgerError () :=
  if (str_len (contract_id c) =? 0) || (128 <? str_len (contract_id c)) || (max_units c =? 0)
     || (msat (price c) =? 0) || bool_decide (amount_due_msat (price c) (max_units c) = None)
     || (next_hop c =? buyer channel) || (terms_expires_unix channel <? expires_unix c)
  then Err InvalidContract else Ok ().

(** ** Debts of retired channels ([ledger/channel_history.rs]) *)

(** [a.checked_add(b).ok_or(LedgerError::Capacity)]. *)
Definition add (a b : Z) : outcome LedgerError Z :=
  match checked_add a b with Some c => Ok c | None => Err Capacity end.

Module Histories.

Definition default : History := mkHistory 0 0 0 no_channel_usage RetiredRoutes.default [].

Definition owes (t : ChannelTerms) (d : Debt) : bool :=
  (debt_buyer d =? buyer t) && bool_decide (debt_mint d = mint_url t).

Definition debt (self : History) (t : ChannelTerms) : Z :=
  match filter (λ d, owes t d = true) (debts self) with d :: _ => debt_msat d | [] => 0 end.

(** The [try_fold] of [valid]: the sum, if every debt is proper and named once. *)
Fixpoint sum_debts (seen : gset (NodeAddr * string)) (sum : Z) (ds : list Debt) : option Z :=
  match ds with
  | [] => Some sum
  | d :: ds =>
      if (debt_msat d =? 0) || (str_len (debt_mint d) =? 0) || (512 <? str_len (debt_mint d))
         || bool_decide ((debt_buyer d, debt_mint d) ∈ seen)
      then None
      else sum ← checked_add sum (debt_msat d); sum_debts ({[(debt_buyer d, debt_mint d)]} ∪ seen) sum ds
  end.

Definition valid (self : History) (max_debts : Z) : bool :=
  if history_channels self =? 0 then bool_decide (self = default)
  else
    let u := history_usage self in
    let n := Z.of_nat (length (debts self)) in
    (n <=? max_debts) && (n <=? history_channels self)
    && (history_channels self <=? history_capacity_sat self) && negb (expires_through_unix self =? 0)
    && (paid_msat u <=? history_capacity_sat self * 1000) && (reserved_msat u <=? history_capacity_sat self * 1000)
    && RetiredRoutes.valid (routes self) (expires_through_unix self)
    && bool_decide (checked_add (retired_reserved_msat (routes self)) (lost_msat u) = Some (reserved_msat u))
    && (retired_submitted_msat (routes self) =? submitted_msat u)
    && match sum_debts ∅ 0 (debts self) with
       | Some d => (d <=? reserved_msat u) && (sat_sub (reserved_msat u) (paid_msat u) <=? d)
       | None => false
       end.

(** [sort_by] the buyer's bytes, then the mint: an insertion sort, which like
    Rust's keeps equal entries in order. *)
Definition debt_leb (a b : Debt) : bool :=
  if debt_buyer a =? debt_buyer b then
    match String.compare (debt_mint a) (debt_mint b) with Gt => false | _ => true end
  else NodeAddrOps.lt_bytes (debt_buyer a) (debt_buyer b).

Fixpoint insert_debt (d : Debt) (l : list Debt) : list Debt :=
  match l with
  | [] => [d]
  | x :: l' => if debt_leb d x then d :: l else x :: insert_debt d l'
  end.

Definition sort_debts (l : list Debt) : list Debt := foldr insert_debt [] l.

(** [iter_mut().find(..)]: the first debt of the buyer and mint is raised. *)
Fixpoint raise_debt (t : ChannelTerms) (msat : Z) (l : list Debt) : outcome LedgerError (list Debt) :=
  match l with
  | [] => Ok []
  | d :: l =>
      if owes t d then
        m ← add (debt_msat d) msat; Ok (mkDebt (debt_buyer d) (debt_mint d) m :: l)
      else l ← raise_debt t msat l; Ok (d :: l)
  end.

Definition added_debts (ds : list Debt) (t : ChannelTerms) (msat : Z) : outcome LedgerError (list Debt) :=
  if msat =? 0 then Ok ds
  else if existsb (owes t) ds then raise_debt t msat ds
  else Ok (sort_debts (ds ++ [mkDebt (buyer t) (mint_url t) msat])).

Definition added (self : History) (c : ChannelSnapshot) : outcome LedgerError History :=
  n ← add (history_channels self) 1;
  cap ← add (history_capacity_sat self) (capacity_sat (cs_terms c));
  let u := history_usage self in
  r ← add (reserved_msat u) (reserved_msat (cs_usage c));
  s ← add (submitted_msat u) (submitted_msat (cs_usage c));
  l ← add (lost_msat u) (lost_msat (cs_usage c));
  p ← add (paid_msat u) (paid_msat (cs_usage c));
  match cs_retired c with
  | None => Err InvalidSnapshot
  | Some e =>
      match RetiredRoutes.merged (routes self) e with
      | None => Err Capacity
      | Some rt =>
          ds ← added_debts (debts self) (cs_terms c) (sat_sub (reserved_msat (cs_usage c)) (paid_msat (cs_usage c)));
          Ok (mkHistory n (Z.max (expires_through_unix self) (terms_expires_unix (cs_terms c))) cap
                (mkChannelUsage r s l p) rt ds)
      end
  end.

(** The loop of [Plan::validate]. *)
Fixpoint validate_channels (ids : gset string) (after : History) (cs : list ChannelSnapshot)
    : outcome LedgerError History :=
  match cs with
  | [] => Ok after
  | c :: cs =>
      capacity ← validate_channel (cs_terms c);
      match cs_retired c with
      | None => Err InvalidSnapshot
      | Some rt =>
          let u := cs_usage c in
          if cs_active c || bool_decide (terms_id (cs_terms c) ∈ ids)
             || negb (RetiredRoutes.valid rt (terms_expires_unix (cs_terms c)))
             || (capacity <? paid_msat u) || (capacity <? reserved_msat u)
             || (sat_add_u64 (paid_msat u) (grace_msat (cs_terms c)) <? reserved_msat u)
             || negb (bool_decide (checked_add (retired_reserved_msat rt) (lost_msat u) = Some (reserved_msat u)))
             || negb (retired_submitted_msat rt =? submitted_msat u)
          then Err InvalidSnapshot
          else after ← added after c; validate_channels ({[terms_id (cs_terms c)]} ∪ ids) after cs
      end
  end.

Definition validate (self : Plan) (limit : Z) : outcome LedgerError () :=
  a ← validate_channels ∅ (before self) (plan_channels self);
  if (Z.of_nat (length (plan_channels self)) =? 0) || (limit <? Z.of_nat (length (plan_channels self)))
     || negb (bool_decide (a = after self)) || negb (valid (before self) limit) || negb (valid (after self) limit)
  then Err Capacity else Ok ().

End Histories.

(** What is still owed on earlier channels of the same buyer and mint counts
    against the grace of this one. *)
Definition relationship_reservation_limit (t : ChannelTerms) (paid : Z) (cs : list (ChannelTerms * ChannelUsage))
    (h : option History) : option Z :=
  let same (old : ChannelTerms) :=
    negb (bool_decide (terms_id old = terms_id t)) && (buyer old =? buyer t)
    && bool_decide (mint_url old = mint_url t) in
  carried ← foldl (λ sum cu,
      match sum with
      | None => None
      | Some sum => if same cu.1 then checked_add sum (sat_sub (reserved_msat cu.2) (paid_msat cu.2)) else Some sum
      end) (Some (match h with Some h => Histories.debt h t | None => 0 end)) cs;
  cap ← checked_mul (capacity_sat t) 1000;
  Some (Z.min cap (sat_sub (sat_add_u64 paid (grace_msat t)) carried)).

(** ** Orders of iteration *)
Record Orders := mkOrders {
  channels_order : MapOrder string Channel;
  accounts_order : MapOrder string Account;
  attempts_order : MapOrder (list Z) Attempt
}.

Definition canonical_orders : Orders := mkOrders canonical_order canonical_order canonical_order.

(** [attempt_key]. *)
Definition attempt_key (token : Z) : list Z := to_be_bytes 8 token ++ repeat 0 24.

(** ** The ledger *)

Module RelayLedger.
Section ledger.
Context (ord : Orders) (sha256 : list Z → list Z) (limits : Limits).

Definition new : State := mkState None ∅ ∅ ∅ ∅ 0.

Definition set_channels (s : State) (m : gmap string Channel) : State :=
  mkState (history s) (seen s) m (accounts s) (pending s) (next_token s).
Definition set_accounts (s : State) (m : gmap string Account) : State :=
  mkState (history s) (seen s) (channels s) m (pending s) (next_token s).
Definition set_pending (s : State) (m : gmap Z (string * list Z)) : State :=
  mkState (history s) (seen s) (channels s) (accounts s) m (next_token s).

Definition set_channel_active (c : Channel) (b : bool) : Channel :=
  mkChannel (terms c) (retired c) (channel_usage c) b.
Definition set_channel_usage (c : Channel) (u : ChannelUsage) : Channel :=
  mkChannel (terms c) (retired c) u (channel_active c).
Definition set_account_active (a : Account) (b : bool) : Account :=
  mkAccount (contract a) (usage a) (attempts a) (completed a) b.

(** The channels as [relationship_reservation_limit] is given them. *)
Definition channel_pairs (s : State) : list (ChannelTerms * ChannelUsage) :=
  (λ kc, (terms kc.2, channel_usage kc.2)) <$> map_iter (channels_order ord) (channels s).

Definition limit_of (s : State) (t : ChannelTerms) (paid : Z) : option Z :=
  relationship_reservation_limit t paid (channel_pairs s) (history s).

(** The first active account for a destination whose channel is of [who]; a
    missing channel would abort. *)
Fixpoint find_account {E} (s : State) (who dest : NodeAddr) (l : list (string * Account))
    : outcome E (option (string * Account)) :=
  match l with
  | [] => Ok None
  | (id, a) :: l =>
      if account_active a && (destination (contract a) =? dest) then
        match channels s !! channel_id (contract a) with
        | None => Panic
        | Some c => if buyer (terms c) =? who then Ok (Some (id, a)) else find_account s who dest l
        end
      else find_account s who dest l
  end.

Definition open_channel_verified (s : State) (t : ChannelTerms) (paid : Z) : outcome LedgerError State :=
  capacity ← validate_channel t;
  if capacity <? paid then Err InvalidPayment
  else
    match channels s !! terms_id t with
    | Some existing =>
        if bool_decide (terms existing = t) && (paid <=? paid_msat (channel_usage existing)) then Ok s
        else Err AlreadyBound
    | None =>
        if match history s with Some h => terms_expires_unix t <=? expires_through_unix h | None => false end
        then Err InvalidContract
        else
          let old := filter (λ kc, buyer (terms kc.2) = buyer t ∧ mint_url (terms kc.2) = mint_url t)
                       (map_iter (channels_order ord) (channels s)) in
          if existsb (λ kc, channel_active kc.2) old then Err AlreadyBound
          else
            let unpaid :=
              match history s with Some h => 0 <? Histories.debt h t | None => false end
              || existsb (λ kc, paid_msat (channel_usage kc.2) <? reserved_msat (channel_usage kc.2)) old in
            match limit_of s t paid with
            | None => Err Capacity
            | Some available =>
                if unpaid && (available =? 0) then Err UnsettledChannel
                else if max_channels limits <=? Z.of_nat (size (channels s)) then Err Capacity
                else
                  Ok (set_channels s (<[terms_id t :=
                        mkChannel t RetiredRoutes.default (mkChannelUsage 0 0 0 paid) true]> (channels s)))
            end
    end.

Definition add_contract (s : State) (c : Contract) : outcome LedgerError State :=
  match channels s !! channel_id c with
  | None => Err UnknownContract
  | Some channel =>
      _ ← validate_contract c (terms channel);
      if RetiredRoutes.rejects (retired channel) (expires_unix c) then Err InvalidContract
      else
        match accounts s !! contract_id c with
        | Some existing => if bool_decide (contract existing = c) then Ok s else Err AlreadyBound
        | None =>
            if negb (channel_active channel) then Err InvalidContract
            else
              bound ← find_account s (buyer (terms channel)) (destination c)
                        (map_iter (accounts_order ord) (accounts s));
              match bound with
              | Some _ => Err AlreadyBound
              | None =>
                  if max_contracts limits <=? Z.of_nat (size (accounts s)) then Err Capacity
                  else Ok (set_accounts s (<[contract_id c := mkAccount c no_usage ∅ no_usage true]> (accounts s)))
              end
        end
  end.

Definition apply_verified_balance (s : State) (id : string) (paid : Z) : outcome LedgerError State :=
  match channels s !! id with
  | None => Err UnknownContract
  | Some c =>
      let u := channel_usage c in
      if paid <? paid_msat u then Err InvalidPayment
      else
        capacity ← validate_channel (terms c);
        if capacity <? paid then Err InvalidPayment
        else Ok (set_channels s (<[id := set_channel_usage c
               (mkChannelUsage (reserved_msat u) (submitted_msat u) (lost_msat u) paid)]> (channels s)))
  end.

Definition close_contract (s : State) (id : string) : outcome LedgerError (State * Usage) :=
  match accounts s !! id with
  | None => Err UnknownContract
  | Some a => Ok (set_accounts s (<[id := set_account_active a false]> (accounts s)), usage a)
  end.

Definition close_channel (s : State) (id : string) : outcome LedgerError (State * ChannelUsage) :=
  match channels s !! id with
  | None => Err UnknownContract
  | Some c =>
      let s := set_channels s (<[id := set_channel_active c false]> (channels s)) in
      let close a := if bool_decide (channel_id (contract a) = id) then set_account_active a false else a in
      Ok (set_accounts s (close <$> accounts s), channel_usage c)
  end.

(** The inner loop of [seal_channel]: every pending attempt becomes unconfirmed. *)
Definition seal_attempt (t : Attempt) : Attempt :=
  if bool_decide (attempt_state t = Pending) then mkAttempt (token t) (units t) Unconfirmed else t.

Definition sealed_units (a : Account) : Z :=
  foldl (λ n kt, if bool_decide (attempt_state kt.2 = Pending) then wrap_u64 (n + units kt.2) else n)
    (unconfirmed_units (usage a)) (map_iter (attempts_order ord) (attempts a)).

Definition seal_account (a : Account) : Account :=
  let u := mkUsage (reserved_units (usage a)) (submitted_units (usage a)) (sealed_units a) in
  if is_legacy (billing (contract a))
  then mkAccount (contract a) u (seal_attempt <$> attempts a) (completed a) (account_active a)
  else mkAccount (contract a) u ∅ u (account_active a).

Definition pending_tokens (a : Account) : list Z :=
  (λ kt, token kt.2) <$> filter (λ kt, attempt_state kt.2 = Pending) (map_iter (attempts_order ord) (attempts a)).

Definition seal_channel (s : State) (id : string) : outcome LedgerError (State * ChannelUsage) :=
  '(s, u) ← close_channel s id;
  let mine := filter (λ ka, channel_id (contract ka.2) = id) (map_iter (accounts_order ord) (accounts s)) in
  let sealed := mine ≫= λ ka, pending_tokens ka.2 in
  let accounts' := (λ a, if bool_decide (channel_id (contract a) = id) then seal_account a else a) <$> accounts s in
  let s := set_pending (set_accounts s accounts') (foldl (λ p t, delete t p) (pending s) sealed) in
  match channels s !! id with None => Panic | Some c => Ok (s, channel_usage c) end.

(** ** Admission ([ledger/admission.rs]) *)

(** [?] on an [Option] in a function that returns one. *)
Definition ask {A} (o : option A) : outcome () A := match o with Some a => Ok a | None => Err () end.

Definition session_fingerprint (source destination : NodeAddr) (payload : list Z) : list Z :=
  sha256 ([102; 105; 112; 115; 45; 114; 101; 108; 97; 121; 47; 115; 101; 115; 115; 105; 111; 110; 45; 97; 116;
           116; 101; 109; 112; 116; 47; 49]
          ++ NodeAddrOps.as_bytes source ++ NodeAddrOps.as_bytes destination ++ payload).

Definition fingerprint (r : ForwardingRequest) : list Z :=
  session_fingerprint (source r) (req_destination r) (session_payload r).

(** [bootstrap.rs]. *)
Definition is_handshake (payload : list Z) (source destination : NodeAddr) : outcome () bool :=
  match SessionHandshake.classify payload source destination with
  | Ok o => Ok (bool_decide (is_Some o))
  | _ => Panic
  end.

(** [None] is [Err ()]. *)
Definition admit_with_windows (s : State) (r : ForwardingRequest) (now_unix : Z)
    (windows : option (gmap string Z)) : outcome () (State * Z) :=
  let units := Z.of_nat (length (session_payload r)) in
  if units =? 0 then Err ()
  else if max_pending limits <=? Z.of_nat (size (pending s)) then Err ()
  else
    found ← find_account s (ingress r) (req_destination r) (map_iter (accounts_order ord) (accounts s));
    '(id, a) ← ask found;
    tok ← ask (checked_add (next_token s) 1);
    handshake ← (if has_free_handshakes (billing (contract a))
                 then is_handshake (session_payload r) (source r) (req_destination r) else Ok false);
    if (handshake : bool) then Err ()
    else
      let legacy := is_legacy (billing (contract a)) in
      if negb (next_hop (contract a) =? req_next_hop r) || (expires_unix (contract a) <=? now_unix)
         || (legacy && (max_packets_per_contract limits <=? Z.of_nat (size (attempts a))))
      then Err ()
      else
        let digest := if legacy then fingerprint r else attempt_key tok in
        if legacy && bool_decide ((ingress r, digest) ∈ seen s) then Err ()
        else
          prospective ← ask (checked_add (reserved_units (usage a)) units);
          if max_units (contract a) <? prospective then Err ()
          else
            new_cost ← ask (amount_due_msat (price (contract a)) prospective);
            old_cost ← ask (amount_due_msat (price (contract a)) (reserved_units (usage a)));
            incremental_cost ← ask (checked_sub new_cost old_cost);
            let cid := channel_id (contract a) in
            match channels s !! cid with
            | None => Panic
            | Some c =>
                let u := channel_usage c in
                if negb (channel_active c) || (terms_expires_unix (terms c) <=? now_unix) then Err ()
                else
                  channel_reserved ← ask (checked_add (reserved_msat u) incremental_cost);
                  limit ← ask (limit_of s (terms c) (paid_msat u));
                  let limit := Z.min limit (match windows with
                                            | None => U64_MAX
                                            | Some w => default 0 (w !! cid)
                                            end) in
                  if limit <? channel_reserved then Err ()
                  else
                    let us := usage a in
                    let a' := mkAccount (contract a)
                                (mkUsage prospective (submitted_units us) (unconfirmed_units us))
                                (<[digest := mkAttempt tok units Pending]> (attempts a))
                                (completed a) (account_active a) in
                    let c' := set_channel_usage c
                                (mkChannelUsage channel_reserved (submitted_msat u) (lost_msat u) (paid_msat u)) in
                    Ok (mkState (history s)
                          (if legacy then {[(ingress r, digest)]} ∪ seen s else seen s)
                          (<[cid := c']> (channels s)) (<[id := a']> (accounts s))
                          (<[tok := (id, digest)]> (pending s)) tok, tok)
            end.

(** An [expect] that fails aborts; the ledger's never return an error. *)
Definition complete (s : State) (tok : Z) (out : ForwardingOutcome) : outcome LedgerError State :=
  match pending s !! tok with
  | None => Ok s
  | Some (id, digest) =>
      match accounts s !! id with
      | None => Panic
      | Some a =>
          match attempts a !! digest, amount_due_msat (price (contract a)) (submitted_units (usage a)) with
          | Some t, Some old_cost =>
              let us := usage a in
              let us := match out with
                | OutSubmitted =>
                    mkUsage (reserved_units us) (wrap_u64 (submitted_units us + units t)) (unconfirmed_units us)
                | OutUnconfirmed =>
                    mkUsage (reserved_units us) (submitted_units us) (wrap_u64 (unconfirmed_units us + units t))
                end in
              let t' := mkAttempt (token t) (units t)
                          (match out with OutSubmitted => Submitted | OutUnconfirmed => Unconfirmed end) in
              let cm := completed a in
              let a' :=
                if is_legacy (billing (contract a))
                then mkAccount (contract a) us (<[digest := t']> (attempts a)) cm (account_active a)
                else
                  mkAccount (contract a) us (delete digest (attempts a))
                    (match out with
                     | OutSubmitted => mkUsage (wrap_u64 (reserved_units cm + units t))
                                         (wrap_u64 (submitted_units cm + units t)) (unconfirmed_units cm)
                     | OutUnconfirmed => mkUsage (wrap_u64 (reserved_units cm + units t)) (submitted_units cm)
                                           (wrap_u64 (unconfirmed_units cm + units t))
                     end) (account_active a) in
              match amount_due_msat (price (contract a)) (submitted_units us),
                    channels s !! channel_id (contract a) with
              | Some new_cost, Some c =>
                  let delta := wrap_u64 (new_cost - old_cost) in
                  let u := channel_usage c in
                  let c' := set_channel_usage c (mkChannelUsage (reserved_msat u)
                              (wrap_u64 (submitted_msat u + delta)) (lost_msat u) (paid_msat u)) in
                  Ok (mkState (history s) (seen s) (<[channel_id (contract a) := c']> (channels s))
                        (<[id := a']> (accounts s)) (delete tok (pending s)) (next_token s))
              | _, _ => Panic
              end
          | _, _ => Panic
          end
      end
  end.

(** ** Retiring contracts and channels ([ledger/retirement.rs]) *)

(** The loop over the channel's accounts that expire by [through]. *)
Fixpoint retire_accounts (id : string) (through : Z) (p : list Contract * RetiredRouteEvidence)
    (l : list (string * Account)) : outcome LedgerError (list Contract * RetiredRouteEvidence) :=
  match l with
  | [] => Ok p
  | (_, a) :: l =>
      if bool_decide (channel_id (contract a) = id) && (expires_unix (contract a) <=? through) then
        if account_active a || is_legacy (billing (contract a)) || negb (bool_decide (size (attempts a) = 0%nat))
        then Err InvalidContract
        else
          match RetiredRoutes.added p.2 (contract a) (usage a) with
          | None => Err Capacity
          | Some after => retire_accounts id through (p.1 ++ [contract a], after) l
          end
      else retire_accounts id through p l
  end.

Fixpoint retire_uninstalled (s : State) (id : string) (t : ChannelTerms) (through : Z)
    (before : RetiredRouteEvidence) (ids : gset string) (p : list Contract * RetiredRouteEvidence)
    (l : list Contract) : outcome LedgerError (list Contract * RetiredRouteEvidence) :=
  match l with
  | [] => Ok p
  | c :: l =>
      _ ← validate_contract c t;
      if negb (bool_decide (channel_id c = id)) || (through <? expires_unix c) || is_legacy (billing c)
         || bool_decide (contract_id c ∈ ids) || bool_decide (is_Some (accounts s !! contract_id c))
      then Err InvalidContract
      else
        let ids := {[contract_id c]} ∪ ids in
        if RetiredRoutes.rejects before (expires_unix c) then retire_uninstalled s id t through before ids p l
        else
          match RetiredRoutes.added p.2 c no_usage with
          | None => Err Capacity
          | Some after => retire_uninstalled s id t through before ids (p.1 ++ [c], after) l
          end
  end.

Definition retirement_plan_with_uninstalled (s : State) (id : string) (through : Z) (uninstalled : list Contract)
    : outcome LedgerError RouteRetirementPlan :=
  match channels s !! id with
  | None => Err UnknownContract
  | Some c =>
      p ← retire_accounts id through ([], retired c) (map_iter (accounts_order ord) (accounts s));
      p ← retire_uninstalled s id (terms c) through (retired c) ∅ p uninstalled;
      Ok (mkRoutePlan id through p.1 (retired c) p.2)
  end.

Definition retire_closed_routes_with_uninstalled (s : State) (id : string) (through : Z)
    (uninstalled : list Contract) : outcome LedgerError (State * nat) :=
  if max_contracts limits <? Z.of_nat (length uninstalled) then Err Capacity
  else
    plan ← retirement_plan_with_uninstalled s id through uninstalled;
    let s := set_accounts s (foldl (λ m c, delete (contract_id c) m) (accounts s) (rp_contracts plan)) in
    match channels s !! id with
    | None => Panic
    | Some c =>
        Ok (set_channels s (<[id := mkChannel (terms c) (rp_after plan) (channel_usage c) (channel_active c)]>
              (channels s)), length (rp_contracts plan))
    end.

Definition has_account (s : State) (id : string) : bool :=
  existsb (λ ka, bool_decide (channel_id (contract ka.2) = id)) (map_iter (accounts_order ord) (accounts s)).

Fixpoint plan_loop (s : State) (now : Z) (p : History * list ChannelSnapshot) (ids : list string)
    : outcome LedgerError (History * list ChannelSnapshot) :=
  match ids with
  | [] => Ok p
  | id :: ids =>
      match channels s !! id with
      | None => Err UnknownContract
      | Some c =>
          if channel_active c || (now <=? terms_expires_unix (terms c)) || has_account s id
          then Err InvalidContract
          else
            let snap := mkChannelSnapshot (Some (retired c)) (terms c) (channel_usage c) false in
            after ← Histories.added p.1 snap;
            plan_loop s now (after, p.2 ++ [snap]) ids
      end
  end.

Definition channel_retirement_plan (s : State) (ids : list string) (now : Z) : outcome LedgerError Plan :=
  let before := default Histories.default (history s) in
  p ← plan_loop s now (before, []) ids;
  let plan := mkPlan before p.1 p.2 in
  _ ← Histories.validate plan (max_channels limits);
  Ok plan.

Definition retire_channels (s : State) (plan : Plan) : outcome LedgerError (State * bool) :=
  _ ← Histories.validate plan (max_channels limits);
  if bool_decide (history s = Some (after plan))
     && forallb (λ c, negb (bool_decide (is_Some (channels s !! terms_id (cs_terms c))))) (plan_channels plan)
  then Ok (s, false)
  else if negb (bool_decide (default Histories.default (history s) = before plan))
          || existsb (λ c,
               match channels s !! terms_id (cs_terms c) with
               | None => true
               | Some st => channel_active st || negb (bool_decide (terms st = cs_terms c))
                            || negb (bool_decide (channel_usage st = cs_usage c))
                            || negb (bool_decide (Some (retired st) = cs_retired c))
               end || has_account s (terms_id (cs_terms c))) (plan_channels plan)
  then Err InvalidSnapshot
  else
    Ok (mkState (Some (after plan)) (seen s)
          (foldl (λ m c, delete (terms_id (cs_terms c)) m) (channels s) (plan_channels plan))
          (accounts s) (pending s) (next_token s), true).

End ledger.
End RelayLedger.
