(* ===== verification/LedgerBooks.v ===== *)
(** * The books of the relay balance

    [LedgerTrace] runs the ledger through any sequence of operations. The
    invariant [books] says what every reachable state satisfies: amounts are the
    sums they stand for, credit stays within capacity, payment and grace, and every
    pending packet has its account. *)

From stdpp Require Import strings.
From S2P Require Import Prelude Bytes NodeAddr SessionWire Ledger.

Local Open Scope Z_scope.

(** ** Histories of operations *)

Module LedgerTrace.
Section trace.
Context (ord : Orders) (sha256 : list Z → list Z) (limits : Limits).

Inductive op :=
| OpenChannel (t : ChannelTerms) (paid : Z)
| AddContract (c : Contract)
| ApplyBalance (id : string) (paid : Z)
| CloseContract (id : string)
| CloseChannel (id : string)
| SealChannel (id : string)
| Admit (r : ForwardingRequest) (now : Z) (windows : option (gmap string Z))
| Complete (tok : Z) (out : ForwardingOutcome)
| RetireRoutes (id : string) (through : Z) (uninstalled : list Contract)
| RetireChannels (plan : Plan).

(** The state after a call; one that fails or refuses leaves it alone. *)
Definition kept {E} (s : State) (m : outcome E State) : outcome Empty_set State :=
  match m with Ok s' => Ok s' | Err _ => Ok s | Panic => Panic end.

Definition fst_ok {E A} (m : outcome E (State * A)) : outcome E State :=
  match m with Ok p => Ok p.1 | Err e => Err e | Panic => Panic end.

Definition step (s : State) (o : op) : outcome Empty_set State :=
  match o with
  | OpenChannel t paid => kept s (RelayLedger.open_channel_verified ord limits s t paid)
  | AddContract c => kept s (RelayLedger.add_contract ord limits s c)
  | ApplyBalance id paid => kept s (RelayLedger.apply_verified_balance s id paid)
  | CloseContract id => kept s (fst_ok (RelayLedger.close_contract s id))
  | CloseChannel id => kept s (fst_ok (RelayLedger.close_channel s id))
  | SealChannel id => kept s (fst_ok (RelayLedger.seal_channel ord s id))
  | Admit r now w => kept s (fst_ok (RelayLedger.admit_with_windows ord sha256 limits s r now w))
  | Complete tok out => kept s (RelayLedger.complete s tok out)
  | RetireRoutes id through l =>
      kept s (fst_ok (RelayLedger.retire_closed_routes_with_uninstalled ord limits s id through l))
  | RetireChannels plan => kept s (fst_ok (RelayLedger.retire_channels ord limits s plan))
  end.

Definition run (s : State) (os : list op) : outcome Empty_set State :=
  foldl (λ m o, s ← m; step s o) (Ok s) os.

End trace.
End LedgerTrace.

(** ** Prices *)

Definition terms_ok (t : ChannelTerms) : Prop :=
  is_u64 (terms_expires_unix t) ∧ is_u64 (capacity_sat t) ∧ is_u64 (grace_msat t).

Definition contract_ok (c : Contract) : Prop :=
  is_u64 (expires_unix c) ∧ is_u64 (max_units c) ∧ is_u64 (msat (price c)) ∧ is_u64 (per_bytes (price c)).

(** What [n] bytes cost, rounded up. *)
Definition due (p : BytePrice) (n : Z) : Z := (n * msat p + (per_bytes p - 1)) / per_bytes p.

Lemma checked_add_some a b c : checked_add a b = Some c → c = a + b ∧ a + b ≤ U64_MAX.
Proof. unfold checked_add. destruct (Z.leb_spec (a + b) U64_MAX); intros; by simplify_eq. Qed.

Lemma checked_add_ok a b : a + b ≤ U64_MAX → checked_add a b = Some (a + b).
Proof. intros H. unfold checked_add. by rewrite (proj2 (Z.leb_le _ _) H). Qed.

Lemma due_mono p a b : 1 ≤ per_bytes p → 0 ≤ msat p → a ≤ b → due p a ≤ due p b.
Proof. intros. unfold due. apply Z.div_le_mono; [lia|]. nia. Qed.

Lemma due_0 p : 1 ≤ per_bytes p → due p 0 = 0.
Proof. intros. unfold due. apply Z.div_small. lia. Qed.

Lemma due_pos p n : 1 ≤ per_bytes p → 1 ≤ msat p → 1 ≤ n → 1 ≤ due p n.
Proof. intros. unfold due. apply Z.div_le_lower_bound; [lia|]. nia. Qed.

Lemma amount_due_some p n d : amount_due_msat p n = Some d → d = due p n ∧ d ≤ U64_MAX ∧ per_bytes p ≠ 0.
Proof.
  unfold amount_due_msat. destruct (Z.eqb_spec (per_bytes p) 0); [done|]. fold (due p n).
  destruct (Z.leb_spec (due p n) U64_MAX); intros; by simplify_eq.
Qed.

(** A validated contract prices every amount it allows. *)
Record priced (c : Contract) : Prop := {
  priced_ok : contract_ok c;
  priced_per : 1 ≤ per_bytes (price c);
  priced_msat : 1 ≤ msat (price c);
  priced_units : 1 ≤ max_units c;
  priced_max : due (price c) (max_units c) ≤ U64_MAX
}.

Lemma validate_contract_priced c t : contract_ok c → validate_contract c t = Ok () →
  priced c ∧ next_hop c ≠ buyer t ∧ expires_unix c ≤ terms_expires_unix t.
Proof.
  intros Hok. unfold validate_contract. destruct (_ || _) eqn:Hv; [done|]. intros _.
  repeat (apply orb_false_elim in Hv as [Hv ?]). rewrite ?Z.eqb_neq, ?Z.ltb_ge, ?bool_decide_eq_false in *.
  destruct Hok as (He & Hu & Hm & Hp).
  destruct (amount_due_msat (price c) (max_units c)) as [d|] eqn:Hd; [|done].
  apply amount_due_some in Hd as (-> & Hd & Hper).
  split; [|split; lia]. split; [done|unfold is_u64 in *; lia|unfold is_u64 in *; lia|unfold is_u64 in *; lia|done].
Qed.

Lemma amount_due_ok c n : priced c → 0 ≤ n ≤ max_units c →
  amount_due_msat (price c) n = Some (due (price c) n) ∧ 0 ≤ due (price c) n ≤ U64_MAX.
Proof.
  intros [_ Hp Hm Hu Hx] [Hn0 Hn].
  assert (due (price c) n ≤ due (price c) (max_units c)) by (apply due_mono; lia).
  assert (due (price c) 0 ≤ due (price c) n) by (apply due_mono; lia). rewrite due_0 in * by lia.
  split; [|lia]. unfold amount_due_msat. rewrite (proj2 (Z.eqb_neq _ 0)) by lia. fold (due (price c) n).
  by rewrite (proj2 (Z.leb_le _ _)) by lia.
Qed.

Lemma validate_channel_ok t cap : validate_channel t = Ok cap →
  cap = capacity_sat t * 1000 ∧ cap ≤ U64_MAX ∧ cap ≠ 0 ∧ grace_msat t ≤ cap.
Proof.
  unfold validate_channel, checked_mul. destruct (Z.leb_spec (capacity_sat t * 1000) U64_MAX); [|done].
  destruct (_ || _) eqn:Hv; [done|]. intros [= <-].
  repeat (apply orb_false_elim in Hv as [Hv ?]). rewrite ?Z.eqb_neq, ?Z.ltb_ge in *. done.
Qed.

(** ** The invariant *)

(** The units of the attempts in a given state. *)
Definition units_in (st : AttemptState) (m : gmap (list Z) Attempt) : Z :=
  map_sum (λ _ t, if bool_decide (attempt_state t = st) then units t else 0) m.

Definition units_all (m : gmap (list Z) Attempt) : Z := map_sum (λ _ t, units t) m.

Record account_ok (limits : Limits) (next : Z) (a : Account) : Prop := {
  ao_attempt : ∀ d t, attempts a !! d = Some t → 0 < units t ∧ 1 ≤ token t ≤ next;
  ao_modern : is_legacy (billing (contract a)) = false →
    ∀ d t, attempts a !! d = Some t → d = attempt_key (token t) ∧ attempt_state t = Pending;
  ao_legacy : is_legacy (billing (contract a)) = true →
    completed a = no_usage ∧ Z.of_nat (size (attempts a)) ≤ max_packets_per_contract limits;
  ao_completed : 0 ≤ submitted_units (completed a) ∧ 0 ≤ unconfirmed_units (completed a)
    ∧ reserved_units (completed a) = submitted_units (completed a) + unconfirmed_units (completed a);
  ao_reserved : reserved_units (usage a) = reserved_units (completed a) + units_all (attempts a);
  ao_submitted : submitted_units (usage a) = submitted_units (completed a) + units_in Submitted (attempts a);
  ao_unconfirmed : unconfirmed_units (usage a) = unconfirmed_units (completed a) + units_in Unconfirmed (attempts a);
  ao_max : reserved_units (usage a) ≤ max_units (contract a)
}.

(** The attempts: every one has its own token, the pending ones are the tokens the
    ledger waits for, and no packet of a buyer is sold twice under the first
    billing scheme. *)
Record tries (limits : Limits) (s : State) : Prop := {
  tr_account : ∀ k a, accounts s !! k = Some a → account_ok limits (next_token s) a;
  tr_tokens : ∀ k a d t k' a' d' t', accounts s !! k = Some a → attempts a !! d = Some t →
    accounts s !! k' = Some a' → attempts a' !! d' = Some t' → token t = token t' → k = k' ∧ d = d';
  tr_pending : ∀ tok id d, pending s !! tok = Some (id, d) ↔
    ∃ a t, accounts s !! id = Some a ∧ attempts a !! d = Some t ∧ token t = tok ∧ attempt_state t = Pending;
  tr_seen : ∀ k a c d, accounts s !! k = Some a → is_legacy (billing (contract a)) = true →
    channels s !! channel_id (contract a) = Some c → is_Some (attempts a !! d) → (buyer (terms c), d) ∈ seen s;
  tr_digests : ∀ k a c k' a' c' d, accounts s !! k = Some a → accounts s !! k' = Some a' →
    is_legacy (billing (contract a)) = true → is_legacy (billing (contract a')) = true →
    channels s !! channel_id (contract a) = Some c → channels s !! channel_id (contract a') = Some c' →
    buyer (terms c) = buyer (terms c') → is_Some (attempts a !! d) → is_Some (attempts a' !! d) → k = k';
  tr_size : Z.of_nat (size (pending s)) ≤ max_pending limits;
  tr_token : 0 ≤ next_token s ≤ U64_MAX
}.

Definition retired_ok (r : RetiredRouteEvidence) (expires : Z) : Prop :=
  RetiredRoutes.valid r expires = true ∧ 0 ≤ through_unix r ∧ 0 ≤ contracts r
  ∧ 0 ≤ submitted_units (retired_units r) ∧ 0 ≤ unconfirmed_units (retired_units r)
  ∧ 0 ≤ retired_submitted_msat r ∧ 0 ≤ retired_reserved_msat r.

(** The agreements: valid, each under its own name and channel; one active channel
    per buyer and mint, one active contract per buyer and destination. *)
Record shape (limits : Limits) (s : State) : Prop := {
  sh_channel : ∀ k c, channels s !! k = Some c → terms_id (terms c) = k ∧ terms_ok (terms c)
    ∧ validate_channel (terms c) = Ok (capacity_sat (terms c) * 1000)
    ∧ retired_ok (retired c) (terms_expires_unix (terms c));
  sh_account : ∀ k a, accounts s !! k = Some a → contract_id (contract a) = k ∧ contract_ok (contract a);
  sh_home : ∀ k a, accounts s !! k = Some a → ∃ c, channels s !! channel_id (contract a) = Some c
    ∧ validate_contract (contract a) (terms c) = Ok ()
    ∧ RetiredRoutes.rejects (retired c) (expires_unix (contract a)) = false
    ∧ (account_active a = true → channel_active c = true);
  sh_one_channel : ∀ k c k' c', channels s !! k = Some c → channels s !! k' = Some c' →
    channel_active c = true → channel_active c' = true → buyer (terms c) = buyer (terms c') →
    mint_url (terms c) = mint_url (terms c') → k = k';
  sh_one_account : ∀ k a c k' a' c', accounts s !! k = Some a → accounts s !! k' = Some a' →
    account_active a = true → account_active a' = true →
    channels s !! channel_id (contract a) = Some c → channels s !! channel_id (contract a') = Some c' →
    buyer (terms c) = buyer (terms c') → destination (contract a) = destination (contract a') → k = k';
  sh_sizes : Z.of_nat (size (channels s)) ≤ max_channels limits ∧ Z.of_nat (size (accounts s)) ≤ max_contracts limits
}.

(** What the accounts of channel [k] cost, for a column [f] of their usage. *)
Definition booked (f : Usage → Z) (k : string) (m : gmap string Account) : Z :=
  map_sum (λ _ a, if bool_decide (channel_id (contract a) = k) then due (price (contract a)) (f (usage a)) else 0) m.

(** The amounts. *)
Record money (s : State) : Prop := {
  mo_paid : ∀ k c, channels s !! k = Some c → 0 ≤ paid_msat (channel_usage c) ≤ capacity_sat (terms c) * 1000;
  mo_cap : ∀ k c, channels s !! k = Some c → reserved_msat (channel_usage c) ≤ capacity_sat (terms c) * 1000;
  mo_grace : ∀ k c, channels s !! k = Some c →
    reserved_msat (channel_usage c) ≤ paid_msat (channel_usage c) + grace_msat (terms c);
  mo_lost : ∀ k c, channels s !! k = Some c → 0 ≤ lost_msat (channel_usage c);
  mo_reserved : ∀ k c, channels s !! k = Some c →
    reserved_msat (channel_usage c)
    = lost_msat (channel_usage c) + retired_reserved_msat (retired c) + booked reserved_units k (accounts s);
  mo_submitted : ∀ k c, channels s !! k = Some c →
    submitted_msat (channel_usage c) = retired_submitted_msat (retired c) + booked submitted_units k (accounts s)
}.

Definition debt_key (d : Debt) : NodeAddr * string := (debt_buyer d, debt_mint d).

Definition history_ok (limits : Limits) (h : History) : Prop :=
  Histories.valid h (max_channels limits) = true ∧ (∀ d, d ∈ debts h → 0 ≤ debt_msat d) ∧ NoDup (debt_key <$> debts h).

Record books (limits : Limits) (s : State) : Prop := {
  bk_shape : shape limits s;
  bk_tries : tries limits s;
  bk_money : money s;
  bk_history : ∀ h, history s = Some h → history_ok limits h
}.

(** ** Facts about accounts *)

Definition limits_ok (l : Limits) : Prop :=
  is_u64 (max_channels l) ∧ is_u64 (max_contracts l) ∧ is_u64 (max_packets_per_contract l) ∧ is_u64 (max_pending l).

Lemma units_in_nonneg st m : (∀ d t, m !! d = Some t → 0 < units t) → 0 ≤ units_in st m.
Proof. intros H. apply map_sum_nonneg. intros d t Hd. apply H in Hd. case_bool_decide; lia. Qed.

Lemma units_all_split m : units_all m = units_in Pending m + units_in Submitted m + units_in Unconfirmed m.
Proof.
  unfold units_all, units_in. induction m as [|d t m Hd IH] using map_ind; [done|]. rewrite !map_sum_insert_new by done.
  destruct (attempt_state t); repeat first [rewrite bool_decide_true by done|rewrite bool_decide_false by done]; lia.
Qed.

Section account.
Context {limits : Limits} {next : Z} {a : Account} (Ha : account_ok limits next a).

Lemma ao_parts : 0 ≤ submitted_units (usage a) ∧ 0 ≤ unconfirmed_units (usage a)
  ∧ reserved_units (usage a)
    = submitted_units (usage a) + unconfirmed_units (usage a) + units_in Pending (attempts a)
  ∧ 0 ≤ units_in Pending (attempts a).
Proof.
  destruct (ao_completed _ _ _ Ha) as (Hs & Hu & Hr).
  assert (∀ st, 0 ≤ units_in st (attempts a)) as Hn.
  { intros st. apply units_in_nonneg. intros d t Hd. by apply (ao_attempt _ _ _ Ha) in Hd as [? _]. }
  pose proof (Hn Submitted). pose proof (Hn Unconfirmed). pose proof (Hn Pending).
  rewrite (ao_submitted _ _ _ Ha), (ao_unconfirmed _ _ _ Ha), (ao_reserved _ _ _ Ha), units_all_split, Hr. lia.
Qed.

Lemma ao_range : 0 ≤ submitted_units (usage a) ≤ max_units (contract a)
  ∧ 0 ≤ reserved_units (usage a) ≤ max_units (contract a) ∧ submitted_units (usage a) ≤ reserved_units (usage a).
Proof. pose proof ao_parts. pose proof (ao_max _ _ _ Ha). lia. Qed.

Lemma ao_pending_le d t : attempts a !! d = Some t → attempt_state t = Pending →
  0 < units t ≤ units_in Pending (attempts a).
Proof.
  intros Hd Hp. destruct (ao_attempt _ _ _ Ha d t Hd) as [Hu _]. split; [done|].
  assert ((if bool_decide (attempt_state t = Pending) then units t else 0) ≤ units_in Pending (attempts a)) as Hle.
  { apply (map_sum_elem (λ _ t, if bool_decide (attempt_state t = Pending) then units t else 0) (attempts a) d t); [|done].
    intros d' t' Hd'. apply (ao_attempt _ _ _ Ha) in Hd' as [? _]. case_bool_decide; lia. }
  by rewrite bool_decide_true in Hle.
Qed.
End account.

(** The price of an account's usage is what its channel booked. *)
Section booked.
Context {limits : Limits} {s : State} (Hsh : shape limits s) (Htr : tries limits s).

Lemma account_priced k a : accounts s !! k = Some a → priced (contract a).
Proof.
  intros Hk. destruct (sh_account _ _ Hsh k a Hk) as [_ Hc]. destruct (sh_home _ _ Hsh k a Hk) as (c & _ & Hv & _).
  by apply (validate_contract_priced _ _ Hc) in Hv as [? _].
Qed.

Lemma account_due k a n : accounts s !! k = Some a → 0 ≤ n ≤ max_units (contract a) →
  amount_due_msat (price (contract a)) n = Some (due (price (contract a)) n)
  ∧ 0 ≤ due (price (contract a)) n ≤ U64_MAX.
Proof. intros Hk. apply amount_due_ok. by eapply account_priced. Qed.

Lemma booked_nonneg k : 0 ≤ booked submitted_units k (accounts s) ≤ booked reserved_units k (accounts s).
Proof.
  split.
  - apply map_sum_nonneg. intros k' a Ha. case_bool_decide; [|lia].
    apply (account_due k' a _ Ha). by apply (ao_range (tr_account _ _ Htr k' a Ha)).
  - apply map_sum_le. intros k' a Ha. case_bool_decide; [|lia].
    destruct (account_priced k' a Ha). apply due_mono; [lia|lia|]. apply (ao_range (tr_account _ _ Htr k' a Ha)).
Qed.

Lemma booked_elem f k k' a : accounts s !! k' = Some a → channel_id (contract a) = k →
  (∀ k a, accounts s !! k = Some a → 0 ≤ f (usage a) ≤ max_units (contract a)) →
  due (price (contract a)) (f (usage a)) ≤ booked f k (accounts s).
Proof.
  intros Ha Hk Hf. unfold booked.
  pose proof (map_sum_elem (λ _ a, if bool_decide (channel_id (contract a) = k) then due (price (contract a)) (f (usage a)) else 0)
    (accounts s) k' a) as Hle. cbn beta in Hle. rewrite (bool_decide_true (channel_id (contract a) = k)) in Hle by done.
  apply Hle; [|done]. intros k2 a2 Ha2. case_bool_decide; [|lia]. by apply (account_due k2 a2 _ Ha2), (Hf k2).
Qed.
End booked.

(** Changing one account changes its channel's column by the difference. *)
Lemma booked_insert f k id a a' (m : gmap string Account) : m !! id = Some a → contract a' = contract a →
  booked f k (<[id := a']> m) = booked f k m
    + if bool_decide (channel_id (contract a) = k)
      then due (price (contract a)) (f (usage a')) - due (price (contract a)) (f (usage a)) else 0.
Proof.
  intros Hm Hc. unfold booked. rewrite (map_sum_insert _ _ _ _ _ Hm), Hc. case_bool_decide; lia.
Qed.

(** A change of the accounts that keeps agreements and usage keeps the columns. *)
Lemma booked_fmap f k (g : Account → Account) (m : gmap string Account) :
  (∀ id a, m !! id = Some a → contract (g a) = contract a ∧ f (usage (g a)) = f (usage a)) →
  booked f k (g <$> m) = booked f k m.
Proof.
  intros Hg. unfold booked. rewrite map_sum_fmap. apply map_sum_ext. intros id a Ha. cbn.
  destruct (Hg id a Ha) as [-> ->]. done.
Qed.

(** ** Transporting the invariant *)

(** Two maps with the same keys and related values. *)
Definition agree {A} (R : A → A → Prop) (m m' : gmap string A) : Prop := ∀ k, option_Forall2 R (m !! k) (m' !! k).

Lemma agree_refl {A} (R : A → A → Prop) m : (∀ x, R x x) → agree R m m.
Proof. intros HR k. destruct (m !! k); by constructor. Qed.

Lemma agree_insert {A} (R : A → A → Prop) m k a a' :
  (∀ x, R x x) → m !! k = Some a → R a a' → agree R m (<[k := a']> m).
Proof.
  intros HR Hk Ha j. destruct (decide (j = k)) as [->|Hne].
  - rewrite lookup_insert_eq, Hk. by constructor.
  - rewrite lookup_insert_ne by done. destruct (m !! j); by constructor.
Qed.

Lemma agree_fmap {A} (R : A → A → Prop) (g : A → A) m : (∀ x, R x (g x)) → agree R m (g <$> m).
Proof. intros HR k. rewrite lookup_fmap. destruct (m !! k); by constructor. Qed.

Lemma agree_inv {A} (R : A → A → Prop) m m' k a' : agree R m m' → m' !! k = Some a' → ∃ a, m !! k = Some a ∧ R a a'.
Proof. intros H Hk. specialize (H k). rewrite Hk in H. inversion H; subst; eauto. Qed.

Lemma agree_fwd {A} (R : A → A → Prop) m m' k a : agree R m m' → m !! k = Some a → ∃ a', m' !! k = Some a' ∧ R a a'.
Proof. intros H Hk. specialize (H k). rewrite Hk in H. inversion H; subst; eauto. Qed.

Lemma agree_size {A} (R : A → A → Prop) m m' : agree R m m' → size m' = size m.
Proof.
  intros H. rewrite <- !size_dom. f_equal. apply leibniz_equiv. intros k. rewrite !elem_of_dom. specialize (H k).
  inversion H; subst; split; intros [? ?]; eauto; congruence.
Qed.

Definition acc_sub (a a' : Account) : Prop :=
  contract a' = contract a ∧ (account_active a' = true → account_active a = true).
Definition ch_sub (c c' : Channel) : Prop :=
  terms c' = terms c ∧ retired c' = retired c ∧ (channel_active c' = true → channel_active c = true).

Lemma acc_sub_refl a : acc_sub a a.
Proof. done. Qed.
Lemma ch_sub_refl c : ch_sub c c.
Proof. done. Qed.

Lemma shape_agree limits s s' : shape limits s →
  agree acc_sub (accounts s) (accounts s') → agree ch_sub (channels s) (channels s') →
  (∀ k a c, accounts s' !! k = Some a → account_active a = true → channels s' !! channel_id (contract a) = Some c →
     channel_active c = true) →
  shape limits s'.
Proof.
  intros [Hc Ha Hh H1c H1a [Hs1 Hs2]] Hacc Hch Hact. split.
  - intros k c' Hk. destruct (agree_inv _ _ _ _ _ Hch Hk) as (c & Hk' & -> & -> & _). eauto.
  - intros k a' Hk. destruct (agree_inv _ _ _ _ _ Hacc Hk) as (a & Hk' & -> & _). eauto.
  - intros k a' Hk. destruct (agree_inv _ _ _ _ _ Hacc Hk) as (a & Hk' & He & _).
    destruct (Hh k a Hk') as (c & Hcid & Hv & Hrj & _). destruct (agree_fwd _ _ _ _ _ Hch Hcid) as (c' & Hc' & Ht & Hr & _).
    exists c'. rewrite He, Ht, Hr. split_and!; [done|done|done|]. intros Hon. apply (Hact k a' c' Hk Hon). by rewrite He.
  - intros k c k' c' Hk Hk' Hon Hon'. destruct (agree_inv _ _ _ _ _ Hch Hk) as (c0 & Hk0 & -> & _ & Hi).
    destruct (agree_inv _ _ _ _ _ Hch Hk') as (c1 & Hk1 & -> & _ & Hi'). apply (H1c k c0 k' c1); auto.
  - intros k a c k' a' c' Hk Hk' Hon Hon'. destruct (agree_inv _ _ _ _ _ Hacc Hk) as (a0 & Hk0 & -> & Hi).
    destruct (agree_inv _ _ _ _ _ Hacc Hk') as (a1 & Hk1 & -> & Hi'). intros Hc0 Hc1.
    destruct (agree_inv _ _ _ _ _ Hch Hc0) as (c0 & Hc0' & -> & _). destruct (agree_inv _ _ _ _ _ Hch Hc1) as (c1 & Hc1' & -> & _).
    apply (H1a k a0 c0 k' a1 c1); auto.
  - by rewrite (agree_size _ _ _ Hacc), (agree_size _ _ _ Hch).
Qed.

(** An account whose attempts and usage are unchanged. *)
Definition acc_same (a a' : Account) : Prop :=
  contract a' = contract a ∧ usage a' = usage a ∧ attempts a' = attempts a ∧ completed a' = completed a.

Lemma account_ok_same limits next a a' : acc_same a a' → account_ok limits next a → account_ok limits next a'.
Proof.
  destruct a as [c u t m b], a' as [c' u' t' m' b']. intros (Hc & Hu & Ht & Hm). cbn in *. subst. by intros [].
Qed.

Lemma tries_agree limits s s' : tries limits s →
  agree acc_same (accounts s) (accounts s') →
  (∀ k c', channels s' !! k = Some c' → (∃ a id, accounts s !! id = Some a ∧ channel_id (contract a) = k) →
     ∃ c, channels s !! k = Some c ∧ terms c' = terms c) →
  pending s' = pending s → next_token s' = next_token s → seen s' = seen s → tries limits s'.
Proof.
  intros [Ha Ht Hp Hs Hd Hz Hn] Hacc Hch Epend Enext Eseen. split; rewrite ?Epend, ?Enext, ?Eseen; try done.
  - intros k a' Hk. destruct (agree_inv _ _ _ _ _ Hacc Hk) as (a & Hk' & He). eapply account_ok_same; eauto.
  - intros k a d t k' a' d' t' Hk Hd1 Hk' Hd2. destruct (agree_inv _ _ _ _ _ Hacc Hk) as (a0 & Hk0 & _ & _ & He & _).
    destruct (agree_inv _ _ _ _ _ Hacc Hk') as (a1 & Hk1 & _ & _ & He' & _). rewrite He in Hd1. rewrite He' in Hd2. eauto.
  - intros tok id d. rewrite Hp. split; intros (a & t & Hk & Hat & Htok).
    + destruct (agree_fwd _ _ _ _ _ Hacc Hk) as (a' & Hk' & _ & _ & He & _). exists a', t. by rewrite He.
    + destruct (agree_inv _ _ _ _ _ Hacc Hk) as (a' & Hk' & _ & _ & He & _). exists a', t. by rewrite <- He.
  - intros k a' c' d Hk. destruct (agree_inv _ _ _ _ _ Hacc Hk) as (a & Hk' & -> & _ & -> & _). intros Hleg Hcid Hat.
    destruct (Hch _ _ Hcid) as (c & Hc & ->); eauto.
  - intros k a c k' a' c' d Hk Hk'. destruct (agree_inv _ _ _ _ _ Hacc Hk) as (a0 & Hk0 & -> & _ & -> & _).
    destruct (agree_inv _ _ _ _ _ Hacc Hk') as (a1 & Hk1 & -> & _ & -> & _). intros Hl Hl' Hc Hc'.
    destruct (Hch _ _ Hc) as (c0 & Hc0 & ->); [by eauto|]. destruct (Hch _ _ Hc') as (c1 & Hc1 & ->); [by eauto|]. eauto.
Qed.

(** A channel whose amounts are unchanged, apart from a larger payment. *)
Definition ch_same (c c' : Channel) : Prop :=
  terms c' = terms c ∧ retired c' = retired c
  ∧ reserved_msat (channel_usage c') = reserved_msat (channel_usage c)
  ∧ submitted_msat (channel_usage c') = submitted_msat (channel_usage c)
  ∧ lost_msat (channel_usage c') = lost_msat (channel_usage c)
  ∧ paid_msat (channel_usage c) ≤ paid_msat (channel_usage c')
  ∧ (paid_msat (channel_usage c') = paid_msat (channel_usage c)
     ∨ paid_msat (channel_usage c') ≤ capacity_sat (terms c) * 1000).

Lemma ch_same_refl c : ch_same c c.
Proof. repeat split; auto; lia. Qed.

Lemma booked_agree f k m m' : agree acc_same m m' → booked f k m' = booked f k m.
Proof.
  revert m'. induction m as [|id a m Hid IH] using map_ind; intros m' Hag.
  - assert (m' = ∅) as ->; [|done]. apply map_empty. intros j. specialize (Hag j). rewrite lookup_empty in Hag. by inversion Hag.
  - destruct (agree_fwd _ _ _ id a Hag) as (a' & Ha' & Hc & Hu & _ & _); [apply lookup_insert_eq|].
    unfold booked. rewrite (map_sum_delete _ m' id a' Ha'), map_sum_insert_new by done. fold (booked f k (delete id m')) (booked f k m).
    rewrite (IH (delete id m')), Hc, Hu; [done|]. intros j. specialize (Hag j). destruct (decide (j = id)) as [->|Hne].
    + rewrite lookup_delete_eq, Hid. constructor.
    + by rewrite lookup_delete_ne, lookup_insert_ne in * by done.
Qed.

Lemma money_agree s s' : money s →
  agree acc_same (accounts s) (accounts s') → agree ch_same (channels s) (channels s') → money s'.
Proof.
  intros [Hp Hcap Hg Hl Hr Hs] Hacc Hch.
  split; intros k c' Hk; destruct (agree_inv _ _ _ _ _ Hch Hk) as (c & Hk' & Ht & Hre & Er & Es & El & Hle & Hpaid);
    rewrite ?Ht, ?Hre, ?Er, ?Es, ?El, ?(booked_agree _ _ _ _ Hacc); eauto.
  - specialize (Hp k c Hk'). destruct Hpaid as [->|]; lia.
  - specialize (Hg k c Hk'). lia.
Qed.

(** ** Operations on agreements *)

Section agreements.
Context (ord : Orders) (limits : Limits) (Hlim : limits_ok limits).
Import RelayLedger.

Lemma find_account_spec {E} s who dest : shape limits s →
  match find_account (E := E) s who dest (map_iter (accounts_order ord) (accounts s)) with
  | Ok None => ∀ k a c, accounts s !! k = Some a → account_active a = true → destination (contract a) = dest →
      channels s !! channel_id (contract a) = Some c → buyer (terms c) ≠ who
  | Ok (Some (id, a)) => accounts s !! id = Some a ∧ account_active a = true ∧ destination (contract a) = dest
      ∧ ∃ c, channels s !! channel_id (contract a) = Some c ∧ buyer (terms c) = who
  | _ => False
  end.
Proof.
  intros Hsh.
  assert (∀ l, (∀ k a, (k, a) ∈ l → accounts s !! k = Some a) →
    match find_account (E := E) s who dest l with
    | Ok None => ∀ k a c, (k, a) ∈ l → account_active a = true → destination (contract a) = dest →
        channels s !! channel_id (contract a) = Some c → buyer (terms c) ≠ who
    | Ok (Some (id, a)) => accounts s !! id = Some a ∧ account_active a = true ∧ destination (contract a) = dest
        ∧ ∃ c, channels s !! channel_id (contract a) = Some c ∧ buyer (terms c) = who
    | _ => False
    end) as Hl.
  { induction l as [|[k a] l IH]; intros Hin; cbn [find_account]; [intros ? ? ? []%elem_of_nil|].
    assert (accounts s !! k = Some a) as Hk by (apply Hin; left).
    specialize (IH (λ k a H, Hin k a (list_elem_of_further _ _ _ H))).
    destruct (account_active a && (destination (contract a) =? dest)) eqn:Hm.
    - apply andb_prop in Hm as [Hon Hde%Z.eqb_eq]. destruct (sh_home _ _ Hsh k a Hk) as (c & Hc & _).
      rewrite Hc. destruct (Z.eqb_spec (buyer (terms c)) who) as [Hw|Hw]; [by eauto 6|].
      destruct (find_account s who dest l) as [[[id b]|]| |]; [done| |done|done].
      intros k' a' c' [[= -> ->]|Hi]%elem_of_cons; [|by eauto]. intros _ _ Hc'. by simplify_eq.
    - destruct (find_account s who dest l) as [[[id b]|]| |]; [done| |done|done].
      intros k' a' c' [[= -> ->]|Hi]%elem_of_cons; [|by eauto]. intros Hon Hde. rewrite Hon, Hde in Hm.
      by rewrite Z.eqb_refl in Hm. }
  specialize (Hl (map_iter (accounts_order ord) (accounts s)) (λ k a, proj1 (elem_of_map_iter _ _ k a))).
  destruct (find_account _ _ _ _) as [[[id b]|]| |]; try done. intros k a c Hk. apply (Hl k). by apply elem_of_map_iter.
Qed.

Lemma apply_balance_books s id paid : books limits s → is_u64 paid →
  match apply_verified_balance s id paid with Ok s' => books limits s' | Err _ => True | Panic => False end.
Proof.
  intros [Hsh Htr Hmo Hhi] Hu. unfold apply_verified_balance. destruct (channels s !! id) as [c|] eqn:Hid; [|done].
  destruct (Z.ltb_spec paid (paid_msat (channel_usage c))); [done|].
  destruct (sh_channel _ _ Hsh id c Hid) as (_ & _ & Hv & _). rewrite Hv. cbn [mbind outcome_bind].
  destruct (Z.ltb_spec (capacity_sat (terms c) * 1000) paid); [done|].
  set (c' := set_channel_usage _ _). split.
  - apply (shape_agree _ s); [done|apply agree_refl, acc_sub_refl|by eapply agree_insert; [apply ch_sub_refl|..]|].
    cbn [channels accounts set_channels]. intros k a c0 Hk Hon. destruct (sh_home _ _ Hsh k a Hk) as (c1 & Hc1 & _ & _ & Ha).
    destruct (decide (channel_id (contract a) = id)) as [He|Hne].
    + rewrite He, lookup_insert_eq. intros [= <-]. rewrite He, Hid in Hc1. simplify_eq. by apply Ha.
    + rewrite lookup_insert_ne by done. rewrite Hc1. intros [= <-]. by apply Ha.
  - apply (tries_agree _ s); [done|by apply agree_refl| |done|done|done]. cbn [channels set_channels]. intros k c0.
    destruct (decide (k = id)) as [->|Hne]; [rewrite lookup_insert_eq; intros [= <-] _; by exists c|].
    rewrite lookup_insert_ne by done. eauto.
  - apply (money_agree s); [done|by apply agree_refl|]. eapply agree_insert; [apply ch_same_refl|done|].
    repeat split; cbn; auto.
  - done.
Qed.

Lemma close_contract_books s id : books limits s →
  match close_contract s id with Ok (s', _) => books limits s' | Err _ => True | Panic => False end.
Proof.
  intros [Hsh Htr Hmo Hhi]. unfold close_contract. destruct (accounts s !! id) as [a|] eqn:Hid; [|done]. split.
  - apply (shape_agree _ s); [done|by eapply agree_insert|by apply agree_refl|].
    cbn [channels accounts set_accounts]. intros k a0 c Hk Hon Hc. destruct (decide (k = id)) as [->|Hne].
    + rewrite lookup_insert_eq in Hk. by simplify_eq.
    + rewrite lookup_insert_ne in Hk by done. destruct (sh_home _ _ Hsh k a0 Hk) as (c1 & Hc1 & _ & _ & Ha). simplify_eq. auto.
  - apply (tries_agree _ s); [done|by eapply agree_insert| |done|done|done]. eauto.
  - apply (money_agree s); [done|by eapply agree_insert|apply agree_refl, ch_same_refl].
  - done.
Qed.

Lemma close_channel_books s id : books limits s →
  match close_channel s id with
  | Ok (s', _) => books limits s'
      ∧ (∃ c, channels s !! id = Some c ∧ channels s' !! id = Some (set_channel_active c false))
      ∧ (∀ k a, accounts s' !! k = Some a → channel_id (contract a) = id → account_active a = false)
  | Err _ => True | Panic => False end.
Proof.
  intros [Hsh Htr Hmo Hhi]. unfold close_channel. destruct (channels s !! id) as [c|] eqn:Hid; [|done].
  set (close := λ a : Account, _).
  assert (∀ a, acc_same a (close a) ∧ acc_sub a (close a)) as Hclose.
  { intros a. unfold close. by case_bool_decide. }
  split; [|split].
  - split.
    + apply (shape_agree _ s); [done|by apply agree_fmap, Hclose|by eapply agree_insert|].
      cbn [channels accounts set_channels set_accounts]. intros k a c0 Hk Hon Hc. rewrite lookup_fmap in Hk.
      destruct (accounts s !! k) as [a0|] eqn:Hk0; [|done]. injection Hk as <-.
      destruct (Hclose a0) as [(Ec & _) [_ Hsub]]. rewrite Ec in Hc. destruct (sh_home _ _ Hsh k a0 Hk0) as (c1 & Hc1 & _ & _ & Ha).
      destruct (decide (channel_id (contract a0) = id)) as [He|Hne].
      * unfold close in Hon. by rewrite bool_decide_true in Hon.
      * rewrite lookup_insert_ne, Hc1 in Hc by done. simplify_eq. auto.
    + apply (tries_agree _ s); [done|by apply agree_fmap, Hclose| |done|done|done]. cbn [channels set_channels set_accounts].
      intros k c0. destruct (decide (k = id)) as [->|Hne]; [rewrite lookup_insert_eq; intros [= <-] _; by exists c|].
      rewrite lookup_insert_ne by done. eauto.
    + apply (money_agree s); [done|by apply agree_fmap, Hclose|]. eapply agree_insert; [apply ch_same_refl|done|].
      repeat split; cbn; auto; lia.
    + done.
  - exists c. split; [done|]. apply lookup_insert_eq.
  - cbn [accounts set_channels set_accounts]. intros k a Hk He. rewrite lookup_fmap in Hk.
    destruct (accounts s !! k) as [a0|] eqn:Hk0; [|done]. injection Hk as <-. destruct (Hclose a0) as [(Ec & _) _].
    rewrite Ec in He. unfold close. by rewrite bool_decide_true.
Qed.

Lemma booked_zero f k (m : gmap string Account) :
  (∀ id a, m !! id = Some a → channel_id (contract a) ≠ k) → booked f k m = 0.
Proof. intros H. apply map_sum_zero. intros id a Ha. rewrite bool_decide_false; [done|by eapply H]. Qed.

Lemma open_channel_books s t paid : books limits s → terms_ok t → is_u64 paid →
  match open_channel_verified ord limits s t paid with Ok s' => books limits s' | Err _ => True | Panic => False end.
Proof.
  intros Hbk Ht Hu. pose proof Hbk as [Hsh Htr Hmo Hhi]. unfold open_channel_verified.
  destruct (validate_channel t) as [cap|e|] eqn:Hv; cbn [mbind outcome_bind]; [|done|].
  2: { unfold validate_channel in Hv. destruct (checked_mul _ _); [|done]. by destruct (_ || _). }
  pose proof (validate_channel_ok t cap Hv) as (-> & Hcap & Hcap0 & Hgr).
  destruct (Z.ltb_spec (capacity_sat t * 1000) paid); [done|].
  destruct (channels s !! terms_id t) as [existing|] eqn:Hid; [by destruct (_ && _)|].
  destruct (match history s with Some h => _ | None => false end); [done|].
  set (old := filter _ _). destruct (existsb _ old) eqn:Hact; [done|].
  destruct (limit_of ord s t paid) as [available|]; [|done].
  destruct (_ && (available =? 0)); [done|].
  destruct (Z.leb_spec (max_channels limits) (Z.of_nat (size (channels s)))); [done|].
  set (c := mkChannel _ _ _ _).
  assert (∀ k a, accounts s !! k = Some a → channel_id (contract a) ≠ terms_id t) as Hnone.
  { intros k a Hk He. destruct (sh_home _ _ Hsh k a Hk) as (c1 & Hc1 & _). rewrite He, Hid in Hc1. done. }
  assert (∀ k c1, channels s !! k = Some c1 → channel_active c1 = true → buyer (terms c1) = buyer t →
    mint_url (terms c1) = mint_url t → False) as Hfree.
  { intros k c1 Hk Hon Hb Hm. apply not_true_iff_false in Hact. apply Hact, existsb_exists. exists (k, c1).
    split; [|done]. apply list_elem_of_In, list_elem_of_filter. split; [done|]. by apply elem_of_map_iter. }
  split.
  - destruct Hsh as [Hc Ha Hh H1c H1a [Hs1 Hs2]]. split; cbn [channels accounts set_channels]; try done.
    + intros k c1. destruct (decide (k = terms_id t)) as [->|Hne]; [|rewrite lookup_insert_ne by done; apply Hc].
      rewrite lookup_insert_eq. intros [= <-]. cbn. split_and!; done.
    + intros k a Hk. destruct (Hh k a Hk) as (c1 & Hc1 & Hrest). exists c1. split; [|done].
      rewrite lookup_insert_ne; [done|]. intros He. by apply (Hnone k a Hk).
    + intros k c1 k' c1'. destruct (decide (k = terms_id t)) as [->|Hne], (decide (k' = terms_id t)) as [->|Hne']; [done|..];
        rewrite ?lookup_insert_eq, ?lookup_insert_ne by done.
      * intros [= <-] Hk' _ Hon Hb Hm. exfalso. by eapply Hfree.
      * intros Hk' [= <-] Hon _ Hb Hm. exfalso. by eapply Hfree.
      * apply H1c.
    + intros k a c1 k' a' c1' Hk Hk' Hon Hon' Hc1 Hc1'.
      rewrite lookup_insert_ne in Hc1 by (intros He; by apply (Hnone k a Hk)).
      rewrite lookup_insert_ne in Hc1' by (intros He; by apply (Hnone k' a' Hk')). eauto.
    + rewrite map_size_insert_None by done. lia.
  - apply (tries_agree _ s); [done|by apply agree_refl| |done|done|done]. cbn [channels set_channels].
    intros k c1 Hc1 (a & id & Ha & <-). rewrite lookup_insert_ne in Hc1 by (intros He; by apply (Hnone id a Ha)). eauto.
  - destruct Hmo as [Hp Hcp Hg Hl Hr Hs]. unfold terms_ok in Ht.
    split; cbn [channels accounts set_channels]; intros k c1; (destruct (decide (k = terms_id t)) as [->|Hne];
      [rewrite lookup_insert_eq; intros [= <-]; cbn; rewrite ?booked_zero by (intros; by eapply Hnone)|
       rewrite lookup_insert_ne by done; eauto]); mlia.
  - done.
Qed.

Lemma add_contract_books s c : books limits s → contract_ok c →
  match add_contract ord limits s c with Ok s' => books limits s' | Err _ => True | Panic => False end.
Proof.
  intros Hbk Hok. pose proof Hbk as [Hsh Htr Hmo Hhi]. unfold add_contract.
  destruct (channels s !! channel_id c) as [ch|] eqn:Hch; [|done].
  destruct (validate_contract c (terms ch)) as [[]|e|] eqn:Hv; cbn [mbind outcome_bind]; [|done|].
  2: { unfold validate_contract in Hv. by destruct (_ || _). }
  destruct (RetiredRoutes.rejects (retired ch) (expires_unix c)) eqn:Hrj; [done|].
  destruct (accounts s !! contract_id c) as [existing|] eqn:Hid; [by case_bool_decide|].
  destruct (channel_active ch) eqn:Hon; [|done]. cbn [negb].
  pose proof (find_account_spec (E := LedgerError) s (buyer (terms ch)) (destination c) Hsh) as Hf.
  destruct (find_account s _ _ _) as [[[id b]|]| |]; cbn [mbind outcome_bind]; [done| |done|done].
  destruct (Z.leb_spec (max_contracts limits) (Z.of_nat (size (accounts s)))); [done|].
  pose proof (validate_contract_priced c _ Hok Hv) as (Hpr & _ & _).
  set (a := mkAccount _ _ _ _ _). split.
  - destruct Hsh as [Hc Ha Hh H1c H1a [Hs1 Hs2]]. split; cbn [channels accounts set_accounts]; try done.
    + intros k a1. destruct (decide (k = contract_id c)) as [->|Hne]; [|rewrite lookup_insert_ne by done; apply Ha].
      rewrite lookup_insert_eq. by intros [= <-].
    + intros k a1. destruct (decide (k = contract_id c)) as [->|Hne]; [|rewrite lookup_insert_ne by done; apply Hh].
      rewrite lookup_insert_eq. intros [= <-]. cbn. by exists ch.
    + intros k a1 c1 k' a1' c1'. destruct (decide (k = contract_id c)) as [->|Hne], (decide (k' = contract_id c)) as [->|Hne']; [done|..];
        rewrite ?lookup_insert_eq, ?lookup_insert_ne by done.
      * intros [= <-] Hk' _ Hon' Hc1 Hc1' Hb Hd. cbn in Hc1, Hd. simplify_eq. exfalso. by apply (Hf k' a1' c1').
      * intros Hk' [= <-] Hon' _ Hc1 Hc1' Hb Hd. cbn in Hc1', Hd. simplify_eq. exfalso. by apply (Hf k a1 c1).
      * apply H1a.
    + rewrite map_size_insert_None by done. lia.
  - destruct Htr as [Ha Ht Hp Hse Hd Hz Hn]. split; cbn [channels accounts set_accounts pending next_token seen]; try done.
    + intros k a1. destruct (decide (k = contract_id c)) as [->|Hne]; [|rewrite lookup_insert_ne by done; apply Ha].
      rewrite lookup_insert_eq. intros [= <-]. unfold limits_ok, is_u64 in Hlim. destruct Hpr.
      split; cbn; try done; try lia. intros _. split; [done|]. rewrite map_size_empty. lia.
    + intros k a1 d t k' a1' d' t'. destruct (decide (k = contract_id c)) as [->|Hne];
        [rewrite lookup_insert_eq; intros [= <-]; done|rewrite lookup_insert_ne by done].
      intros Hk Hat. destruct (decide (k' = contract_id c)) as [->|Hne'];
        [rewrite lookup_insert_eq; intros [= <-]; done|rewrite lookup_insert_ne by done]. eauto.
    + intros tok id d. rewrite Hp. split; intros (a1 & t & Hk & Hat & Hrest).
      * exists a1, t. rewrite lookup_insert_ne; [done|]. intros <-. congruence.
      * destruct (decide (id = contract_id c)) as [->|Hne]; [rewrite lookup_insert_eq in Hk; by simplify_eq|].
        rewrite lookup_insert_ne in Hk by done. eauto.
    + intros k a1 c1 d. destruct (decide (k = contract_id c)) as [->|Hne];
        [rewrite lookup_insert_eq; intros [= <-] _ _ [? ?]; done|rewrite lookup_insert_ne by done]. eauto.
    + intros k a1 c1 k' a1' c1' d. destruct (decide (k = contract_id c)) as [->|Hne];
        [rewrite lookup_insert_eq; intros [= <-] _ _ _ _ _ _ [? ?]; done|rewrite lookup_insert_ne by done].
      intros Hk. destruct (decide (k' = contract_id c)) as [->|Hne'];
        [rewrite lookup_insert_eq; intros [= <-] _ _ _ _ _ _ [? ?]; done|rewrite lookup_insert_ne by done]. eauto.
  - assert (∀ f k, f no_usage = 0 → booked f k (<[contract_id c := a]> (accounts s)) = booked f k (accounts s)) as Hb.
    { intros f k Hf0. unfold booked. rewrite map_sum_insert_new by done. cbn. rewrite Hf0, due_0 by (destruct Hpr; lia). by case_bool_decide. }
    destruct Hmo as [Hp Hcp Hg Hl Hr Hs].
    split; cbn [channels accounts set_accounts]; intros k c1 Hk; rewrite ?Hb by done; eauto.
  - done.
Qed.

End agreements.
