(* ===== verification/LedgerSales.v ===== *)
(** * Selling forwarding: admission and completion keep the books

    What an admitted request satisfies ([admit_spec]), what a completion changes
    ([complete_spec]), and that both preserve [books] of LedgerBooks. *)

From stdpp Require Import strings.
From S2P Require Import Prelude Bytes NodeAddr LinkWire SessionWire Ledger LedgerBooks.

Local Open Scope Z_scope.

(** ** Admission and completion *)

Lemma classify_total payload source destination : SessionHandshake.classify payload source destination ≠ Panic.
Proof.
  unfold SessionHandshake.classify.
  destruct (Nat.leb_spec FspWire.FSP_COMMON_PREFIX_SIZE (length payload)) as [H4|]; [|done].
  destruct (length payload <=? _)%nat; [|done]. cbn [andb negb].
  unfold slice_from. rewrite (proj2 (Nat.leb_le _ _) H4). cbn [mbind outcome_bind].
  destruct (index_ok (E := Empty_set) payload 0) as [b ->]; [unfold FspWire.FSP_COMMON_PREFIX_SIZE in H4; lia|]. cbn [mbind outcome_bind].
  pose proof (wire_total (M := SessionSetup.SessionSetup) (drop FspWire.FSP_COMMON_PREFIX_SIZE payload)) as H1.
  pose proof (wire_total (M := SessionAck.SessionAck) (drop FspWire.FSP_COMMON_PREFIX_SIZE payload)) as H2.
  pose proof (wire_total (M := SessionMsg3.SessionMsg3) (drop FspWire.FSP_COMMON_PREFIX_SIZE payload)) as H3.
  change (SessionSetup.decode (drop FspWire.FSP_COMMON_PREFIX_SIZE payload) ≠ Panic) in H1.
  change (SessionAck.decode (drop FspWire.FSP_COMMON_PREFIX_SIZE payload) ≠ Panic) in H2.
  change (SessionMsg3.decode (drop FspWire.FSP_COMMON_PREFIX_SIZE payload) ≠ Panic) in H3.
  unfold SessionHandshake.ok_or_none.
  destruct (b =? _); [by destruct (SessionSetup.decode _)|]. destruct (b =? _); [by destruct (SessionAck.decode _)|].
  destruct (b =? _); [by destruct (SessionMsg3.decode _)|done].
Qed.

Section admission.
Context (ord : Orders) (sha256 : list Z → list Z) (limits : Limits).
Import RelayLedger.

(** The state after [n] bytes under [digest] were admitted for account [id], which
    brings the reservations of its channel to [total]. *)
Definition admitted_state (s : State) (who : NodeAddr) (id : string) (a : Account) (c : Channel) (digest : list Z)
    (n total : Z) : State :=
  let tok := next_token s + 1 in
  let us := usage a in
  let u := channel_usage c in
  mkState (history s) (if is_legacy (billing (contract a)) then {[(who, digest)]} ∪ seen s else seen s)
    (<[channel_id (contract a) := set_channel_usage c
         (mkChannelUsage total (submitted_msat u) (lost_msat u) (paid_msat u))]> (channels s))
    (<[id := mkAccount (contract a) (mkUsage (reserved_units us + n) (submitted_units us) (unconfirmed_units us))
               (<[digest := mkAttempt tok n Pending]> (attempts a)) (completed a) (account_active a)]> (accounts s))
    (<[tok := (id, digest)]> (pending s)) tok.

Record admitted (s : State) (who : NodeAddr) (windows : option (gmap string Z)) (id : string) (a : Account)
    (c : Channel) (digest : list Z) (n total : Z) : Prop := {
  ad_account : accounts s !! id = Some a;
  ad_active : account_active a = true;
  ad_channel : channels s !! channel_id (contract a) = Some c;
  ad_channel_active : channel_active c = true;
  ad_buyer : buyer (terms c) = who;
  ad_token : next_token s + 1 ≤ U64_MAX;
  ad_units : 1 ≤ n;
  ad_pending : Z.of_nat (size (pending s)) < max_pending limits;
  ad_legacy : is_legacy (billing (contract a)) = true →
    ((who, digest) ∉ seen s) ∧ Z.of_nat (size (attempts a)) < max_packets_per_contract limits;
  ad_modern : is_legacy (billing (contract a)) = false → digest = attempt_key (next_token s + 1);
  ad_max : reserved_units (usage a) + n ≤ max_units (contract a);
  ad_total : total = reserved_msat (channel_usage c) + due (price (contract a)) (reserved_units (usage a) + n)
    - due (price (contract a)) (reserved_units (usage a));
  ad_limit : ∃ limit, limit_of ord s (terms c) (paid_msat (channel_usage c)) = Some limit ∧ total ≤ limit;
  ad_window : ∀ w, windows = Some w → total ≤ default 0 (w !! channel_id (contract a))
}.

Lemma ask_ok {A} (o : option A) : ask o = match o with Some a => Ok a | None => Err () end.
Proof. done. Qed.

Lemma admit_spec s r now windows : shape limits s →
  match admit_with_windows ord sha256 limits s r now windows with
  | Ok (s', tok) => ∃ id a c digest n total, admitted s (ingress r) windows id a c digest n total
      ∧ s' = admitted_state s (ingress r) id a c digest n total ∧ tok = next_token s + 1
  | Err _ => True
  | Panic => False
  end.
Proof.
  intros Hsh. unfold admit_with_windows. set (n := Z.of_nat (length (session_payload r))).
  destruct (Z.eqb_spec n 0) as [|Hn]; [done|].
  destruct (Z.leb_spec (max_pending limits) (Z.of_nat (size (pending s)))) as [|Hpend]; [done|].
  pose proof (find_account_spec ord limits (E := ()) s (ingress r) (req_destination r) Hsh) as Hf.
  destruct (find_account s _ _ _) as [[[id a]|]| |]; cbn [mbind outcome_bind ask]; try done.
  destruct Hf as (Hid & Hact & _ & c & Hc & Hb).
  destruct (checked_add (next_token s) 1) as [tok|] eqn:Htok; [|done]. apply checked_add_some in Htok as [-> Htok]. cbn [ask mbind outcome_bind].
  set (hs := if has_free_handshakes _ then _ else _).
  assert (∃ b, hs = Ok b) as [b ->].
  { unfold hs. destruct (has_free_handshakes _); [|by eexists]. unfold is_handshake.
    pose proof (classify_total (session_payload r) (source r) (req_destination r)) as Ht.
    destruct (SessionHandshake.classify _ _ _) as [o|[]|]; [by eexists|done]. }
  cbn [mbind outcome_bind]. destruct b; [done|].
  set (legacy := is_legacy (billing (contract a))).
  destruct (_ || (legacy && _)) eqn:Hg; [done|]. apply orb_false_elim in Hg as [_ Hpk].
  set (digest := if legacy then _ else _).
  destruct (legacy && bool_decide _) eqn:Hseen; [done|].
  destruct (checked_add (reserved_units (usage a)) n) as [pr|] eqn:Hpr; [|done]. apply checked_add_some in Hpr as [-> Hpr]. cbn [ask mbind outcome_bind].
  destruct (Z.ltb_spec (max_units (contract a)) (reserved_units (usage a) + n)); [done|].
  destruct (amount_due_msat _ (reserved_units (usage a) + n)) as [nc|] eqn:Hnc; [|done]. apply amount_due_some in Hnc as [-> _]. cbn [ask mbind outcome_bind].
  destruct (amount_due_msat _ (reserved_units (usage a))) as [oc|] eqn:Hoc; [|done]. apply amount_due_some in Hoc as [-> _]. cbn [ask mbind outcome_bind].
  unfold checked_sub. destruct (Z.leb_spec (due (price (contract a)) (reserved_units (usage a))) (due (price (contract a)) (reserved_units (usage a) + n))); [|done].
  cbn [ask mbind outcome_bind]. rewrite Hc. destruct (channel_active c) eqn:Hcact; [|done]. cbn [negb orb].
  destruct (terms_expires_unix (terms c) <=? now); [done|].
  destruct (checked_add (reserved_msat (channel_usage c)) _) as [total|] eqn:Htot; [|done]. apply checked_add_some in Htot as [-> Htot]. cbn [ask mbind outcome_bind].
  destruct (limit_of ord s (terms c) (paid_msat (channel_usage c))) as [limit|] eqn:Hlimit; [|done]. cbn [ask mbind outcome_bind].
  set (total := reserved_msat (channel_usage c) + _).
  set (window := match windows with Some w => _ | None => _ end).
  destruct (Z.ltb_spec (Z.min limit window) total) as [|Hle]; [done|].
  exists id, a, c, digest, n, total.
  split; [|done]. split; try done; try lia.
  - intros Hl. subst legacy. rewrite Hl in *. cbn [andb] in *. apply bool_decide_eq_false in Hseen. apply Z.leb_gt in Hpk. done.
  - intros Hl. unfold digest, legacy. by rewrite Hl.
  - exists limit. split; [done|]. lia.
  - intros w ->. unfold window in Hle. lia.
Qed.

End admission.

(** ** Credit *)

(** What is owed on a channel. *)
Definition owed (c : Channel) : Z := sat_sub (reserved_msat (channel_usage c)) (paid_msat (channel_usage c)).

Definition same_party (t old : ChannelTerms) : bool :=
  negb (bool_decide (terms_id old = terms_id t)) && (buyer old =? buyer t) && bool_decide (mint_url old = mint_url t).

Definition past_debt (s : State) (t : ChannelTerms) : Z :=
  match history s with Some h => Histories.debt h t | None => 0 end.

(** What the buyer still owes on other channels of the same mint. *)
Definition carried (s : State) (t : ChannelTerms) : Z :=
  past_debt s t + map_sum (λ _ c, if same_party t (terms c) then owed c else 0) (channels s).

Lemma owed_nonneg c : 0 ≤ owed c.
Proof. unfold owed. mlia. Qed.

Lemma history_debt_nonneg limits h t : history_ok limits h → 0 ≤ Histories.debt h t.
Proof.
  intros (_ & Hd & _). unfold Histories.debt. destruct (filter _ _) as [|d l] eqn:Hf; [done|].
  apply Hd. assert (d ∈ d :: l) as Hin by left. rewrite <- Hf in Hin. by apply list_elem_of_filter in Hin as [_ ?].
Qed.

Section credit.
Context (ord : Orders) (limits : Limits).
Import RelayLedger.

Lemma limit_of_eq s t paid : 0 ≤ past_debt s t ≤ U64_MAX → capacity_sat t * 1000 ≤ U64_MAX →
  limit_of ord s t paid
  = if carried s t <=? U64_MAX
    then Some (Z.min (capacity_sat t * 1000) (sat_sub (sat_add_u64 paid (grace_msat t)) (carried s t))) else None.
Proof.
  intros Hpd Hcap. unfold limit_of, relationship_reservation_limit. fold (past_debt s t).
  set (f := λ (sum : option Z) (cu : ChannelTerms * ChannelUsage), _).
  assert (∀ l x, 0 ≤ x ≤ U64_MAX →
    let total := x + foldr (λ kc n, (if same_party t (terms kc.2) then owed kc.2 else 0) + n) 0 l in
    0 ≤ total - x ∧
    foldl f (Some x) ((λ kc : string * Channel, (terms kc.2, channel_usage kc.2)) <$> l)
    = if total <=? U64_MAX then Some total else None) as Hfold.
  { assert (∀ l, foldl f None l = None) as Hnone by (induction l; [done|]; done).
    induction l as [|[k c] l IH]; intros x Hx total.
    { cbn. unfold total. cbn. rewrite Z.add_0_r, (proj2 (Z.leb_le _ _)) by lia. split; [lia|done]. }
    pose proof (owed_nonneg c) as Ho. cbn [fmap list_fmap foldl]. unfold f at 2. cbn [fst snd].
    change (negb (bool_decide (terms_id (terms c) = terms_id t)) && (buyer (terms c) =? buyer t) &&
      bool_decide (mint_url (terms c) = mint_url t)) with (same_party t (terms c)).
    unfold total. cbn [foldr fst snd]. destruct (same_party t (terms c)).
    - unfold checked_add. fold (owed c). destruct (Z.leb_spec (x + owed c) U64_MAX) as [Hle|Hgt].
      + destruct (IH (x + owed c)) as [Hn ->]; [lia|]. split; [lia|]. by rewrite <- !Z.add_assoc.
      + rewrite Hnone. destruct (IH 0) as [Hn _]; [lia|]. split; [lia|]. by rewrite (proj2 (Z.leb_gt _ _)) by lia.
    - destruct (IH x) as [Hn ->]; [lia|]. split; [lia|]. by rewrite Z.add_0_l. }
  destruct (Hfold (map_iter (channels_order ord) (channels s)) (past_debt s t) Hpd) as [_ Heq].
  unfold channel_pairs. rewrite Heq, <- (map_sum_iter (λ _ c, if same_party t (terms c) then owed c else 0)). fold (carried s t).
  destruct (carried s t <=? U64_MAX); [|done]. cbn [mbind option_bind]. unfold checked_mul.
  by rewrite (proj2 (Z.leb_le _ _) Hcap).
Qed.

Lemma carried_nonneg s t : 0 ≤ past_debt s t → 0 ≤ carried s t.
Proof.
  intros. unfold carried. enough (0 ≤ map_sum (λ _ c, if same_party t (terms c) then owed c else 0) (channels s)) by lia.
  apply map_sum_nonneg. intros k c _. pose proof (owed_nonneg c). destruct (same_party _ _); lia.
Qed.

End credit.

Lemma sum_debts_bound seen sum ds d : Histories.sum_debts seen sum ds = Some d →
  (∀ x, x ∈ ds → 0 ≤ debt_msat x) → 0 ≤ sum → sum ≤ U64_MAX →
  sum ≤ d ≤ U64_MAX ∧ (∀ x, x ∈ ds → debt_msat x ≤ d - sum).
Proof.
  revert seen sum. induction ds as [|y ds IH]; intros seen sum; cbn [Histories.sum_debts].
  - intros [= <-] _ ? ?. split; [lia|]. by intros x []%elem_of_nil.
  - destruct (_ || _); [done|]. unfold checked_add.
    destruct (Z.leb_spec (sum + debt_msat y) U64_MAX) as [Hle|]; [|done]. cbn [mbind option_bind]. intros Hd Hn Hs Hm.
    assert (0 ≤ debt_msat y) by (apply Hn; left).
    destruct (IH _ _ Hd) as [Hb Hx]; [intros x Hx; apply Hn; by right|lia|lia|]. split; [lia|].
    intros x [->|Hin]%elem_of_cons; [lia|]. specialize (Hx x Hin). lia.
Qed.

Lemma past_debt_bound limits s t : books limits s → 0 ≤ past_debt s t ≤ U64_MAX.
Proof.
  intros Hb. unfold past_debt. destruct (history s) as [h|] eqn:Hh; [|done].
  pose proof (bk_history _ _ Hb h Hh) as Hok. split; [by eapply history_debt_nonneg|].
  destruct Hok as (Hv & Hn & _). unfold Histories.debt. destruct (filter _ (debts h)) as [|d l] eqn:Hf; [done|].
  assert (d ∈ debts h) as Hin.
  { assert (d ∈ d :: l) as Hin by left. rewrite <- Hf in Hin. by apply list_elem_of_filter in Hin as [_ ?]. }
  unfold Histories.valid in Hv. destruct (history_channels h =? 0); [apply bool_decide_eq_true in Hv; subst; by apply elem_of_nil in Hin|].
  apply andb_prop in Hv as [_ Hv]. destruct (Histories.sum_debts ∅ 0 (debts h)) as [x|] eqn:Hs; [|done].
  destruct (sum_debts_bound _ _ _ _ Hs) as [Hb1 Hb2]; [done|done|done|]. specialize (Hb2 d Hin). lia.
Qed.

(** ** Admission keeps the books *)

Lemma attempt_key_inj a b : is_u64 a → is_u64 b → attempt_key a = attempt_key b → a = b.
Proof.
  unfold attempt_key. intros Ha Hb Heq%app_inj_1; [|by rewrite !length_to_be_bytes]. destruct Heq as [Heq _].
  apply (f_equal from_be_bytes) in Heq.
  rewrite !from_to_be_small in Heq by (change (8 * Z.of_nat 8) with 64; unfold is_u64, U64_MAX in *; lia). done.
Qed.

Lemma account_ok_next limits n n' a : n ≤ n' → account_ok limits n a → account_ok limits n' a.
Proof. intros Hn [Hat]. split; try done. intros d t Hd. destruct (Hat d t Hd). lia. Qed.

Lemma units_insert_new m d t : m !! d = None →
  units_all (<[d := t]> m) = units t + units_all m
  ∧ ∀ st, units_in st (<[d := t]> m) = (if bool_decide (attempt_state t = st) then units t else 0) + units_in st m.
Proof. intros Hd. unfold units_all, units_in. split; [|intros st]; by rewrite map_sum_insert_new. Qed.

Lemma account_ok_add limits next a digest n : account_ok limits next a → attempts a !! digest = None →
  1 ≤ n → reserved_units (usage a) + n ≤ max_units (contract a) → 0 ≤ next →
  (is_legacy (billing (contract a)) = true → Z.of_nat (size (attempts a)) < max_packets_per_contract limits) →
  (is_legacy (billing (contract a)) = false → digest = attempt_key (next + 1)) →
  account_ok limits (next + 1)
    (mkAccount (contract a) (mkUsage (reserved_units (usage a) + n) (submitted_units (usage a)) (unconfirmed_units (usage a)))
       (<[digest := mkAttempt (next + 1) n Pending]> (attempts a)) (completed a) (account_active a)).
Proof.
  intros [Hat Hmod Hleg Hcomp Hr Hs Hu Hm] Hd Hn Hmax H0 Hpk Hkey.
  destruct (units_insert_new (attempts a) digest (mkAttempt (next + 1) n Pending) Hd) as [Eall Ein].
  split; cbn; try done.
  - intros d t. destruct (decide (d = digest)) as [->|Hne].
    + rewrite lookup_insert_eq. intros [= <-]. cbn. lia.
    + rewrite lookup_insert_ne by done. intros H. destruct (Hat d t H). lia.
  - intros Hl d t. destruct (decide (d = digest)) as [->|Hne].
    + rewrite lookup_insert_eq. intros [= <-]. cbn. auto.
    + rewrite lookup_insert_ne by done. by apply Hmod.
  - intros Hl. split; [by apply Hleg|]. rewrite map_size_insert_None by done. specialize (Hpk Hl). lia.
  - rewrite Eall. cbn. lia.
  - rewrite Ein, bool_decide_false by done. lia.
  - rewrite Ein, bool_decide_false by done. lia.
Qed.

Section admission_books.
Context (ord : Orders) (sha256 : list Z → list Z) (limits : Limits).
Import RelayLedger.
Context {s : State} {who : NodeAddr} {w : option (gmap string Z)} {id : string} {a : Account} {c : Channel}
  {digest : list Z} {n total : Z}
  (Hbk : books limits s) (Had : admitted ord limits s who w id a c digest n total).

Lemma admitted_fresh : attempts a !! digest = None.
Proof.
  destruct Hbk as [Hsh Htr _ _], Had. destruct (attempts a !! digest) as [t|] eqn:Hd; [|done]. exfalso.
  destruct (is_legacy (billing (contract a))) eqn:Hl.
  - destruct ad_legacy0 as [Hni _]; [done|]. apply Hni. subst who. by apply (tr_seen _ _ Htr id a c digest).
  - specialize (ad_modern0 eq_refl). destruct (ao_modern _ _ _ (tr_account _ _ Htr id a ad_account0) Hl digest t Hd) as [He _].
    destruct (ao_attempt _ _ _ (tr_account _ _ Htr id a ad_account0) digest t Hd) as [_ Ht]. pose proof (tr_token _ _ Htr).
    rewrite ad_modern0 in He. apply attempt_key_inj in He; unfold is_u64 in *; lia.
Qed.

(** Every account after the admission is an old one, or the one that grew. *)
Lemma admitted_accounts k b : accounts (admitted_state s who id a c digest n total) !! k = Some b →
  (k = id ∧ contract b = contract a ∧ account_active b = account_active a
   ∧ attempts b = <[digest := mkAttempt (next_token s + 1) n Pending]> (attempts a))
  ∨ (k ≠ id ∧ accounts s !! k = Some b).
Proof.
  cbn [accounts admitted_state]. destruct (decide (k = id)) as [->|Hne].
  - rewrite lookup_insert_eq. intros [= <-]. left. done.
  - rewrite lookup_insert_ne by done. by right.
Qed.

Lemma admitted_channels k c' : channels (admitted_state s who id a c digest n total) !! k = Some c' →
  ∃ c0, channels s !! k = Some c0 ∧ terms c' = terms c0 ∧ retired c' = retired c0 ∧ channel_active c' = channel_active c0
    ∧ lost_msat (channel_usage c') = lost_msat (channel_usage c0)
    ∧ submitted_msat (channel_usage c') = submitted_msat (channel_usage c0)
    ∧ paid_msat (channel_usage c') = paid_msat (channel_usage c0)
    ∧ (k = channel_id (contract a) ∧ c0 = c ∧ reserved_msat (channel_usage c') = total
       ∨ k ≠ channel_id (contract a) ∧ c' = c0).
Proof.
  cbn [channels admitted_state]. destruct (decide (k = channel_id (contract a))) as [->|Hne].
  - rewrite lookup_insert_eq. intros [= <-]. exists c. split; [apply Had|]. cbn. auto 10.
  - rewrite lookup_insert_ne by done. intros Hk. exists c'. auto 10.
Qed.

Lemma admitted_shape : shape limits (admitted_state s who id a c digest n total).
Proof.
  destruct Hbk as [Hsh _ _ _], Had. apply (shape_agree _ s); [done|by eapply agree_insert|by eapply agree_insert|].
  intros k b c' Hk Hon Hc'. destruct (admitted_channels _ _ Hc') as (c0 & Hc0 & _ & _ & -> & _).
  destruct (admitted_accounts k b Hk) as [(_ & Ec & Ea & _)|[_ Hk']].
  - rewrite Ec in Hc0. congruence.
  - destruct (sh_home _ _ Hsh k b Hk') as (c1 & Hc1 & _ & _ & Hact). simplify_eq. auto.
Qed.

Lemma admitted_attempt k b d t : accounts (admitted_state s who id a c digest n total) !! k = Some b →
  attempts b !! d = Some t →
  (k = id ∧ d = digest ∧ t = mkAttempt (next_token s + 1) n Pending)
  ∨ ∃ b0, accounts s !! k = Some b0 ∧ attempts b0 !! d = Some t ∧ contract b = contract b0.
Proof.
  intros Hk. destruct (admitted_accounts k b Hk) as [(-> & Ec & _ & ->)|[_ Hk']]; [|by eauto].
  destruct (decide (d = digest)) as [->|Hne].
  - rewrite lookup_insert_eq. intros [= <-]. by left.
  - rewrite lookup_insert_ne by done. intros Hd. right. exists a. split; [apply Had|done].
Qed.

Lemma admitted_old k b : accounts s !! k = Some b →
  ∃ b', accounts (admitted_state s who id a c digest n total) !! k = Some b' ∧ contract b' = contract b
    ∧ (∀ d t, attempts b !! d = Some t → attempts b' !! d = Some t).
Proof.
  intros Hk. cbn [accounts admitted_state]. destruct (decide (k = id)) as [->|Hne].
  - rewrite lookup_insert_eq. rewrite (ad_account _ _ _ _ _ _ _ _ _ _ _ Had) in Hk. injection Hk as <-.
    eexists. split; [done|]. split; [done|]. intros d t Hd. cbn. rewrite lookup_insert_ne; [done|].
    intros <-. by rewrite admitted_fresh in Hd.
  - rewrite lookup_insert_ne by done. eauto.
Qed.

Lemma admitted_tries : tries limits (admitted_state s who id a c digest n total).
Proof.
  destruct Hbk as [Hsh Htr _ _]. pose proof (tr_token _ _ Htr) as Hnt. pose proof admitted_fresh as Hfr.
  assert (∀ k b d t, accounts s !! k = Some b → attempts b !! d = Some t → token t ≠ next_token s + 1) as Hnew.
  { intros k b d t Hk Hd. destruct (ao_attempt _ _ _ (tr_account _ _ Htr k b Hk) d t Hd). lia. }
  split.
  - intros k b Hk. cbn [next_token admitted_state]. cbn [accounts admitted_state] in Hk. destruct (decide (k = id)) as [->|Hne].
    + rewrite lookup_insert_eq in Hk. injection Hk as <-. destruct Had. apply account_ok_add; try done; try lia.
      * by apply (tr_account _ _ Htr id).
      * intros Hl. by apply ad_legacy0.
    + rewrite lookup_insert_ne in Hk by done. eapply account_ok_next; [|by apply (tr_account _ _ Htr k)]. lia.
  - intros k b d t k' b' d' t' Hk Hd Hk' Hd' Htok.
    destruct (admitted_attempt _ _ _ _ Hk Hd) as [(-> & -> & ->)|(b0 & Hk0 & Hd0 & _)],
      (admitted_attempt _ _ _ _ Hk' Hd') as [(-> & -> & ->)|(b1 & Hk1 & Hd1 & _)]; cbn in Htok; [done|..].
    + exfalso. by eapply (Hnew k' b1).
    + exfalso. by eapply (Hnew k b0).
    + by eapply (tr_tokens _ _ Htr).
  - intros tok i d. cbn [pending admitted_state]. destruct (decide (tok = next_token s + 1)) as [->|Hne].
    + rewrite lookup_insert_eq. split.
      * intros [= <- <-]. eexists _, _. cbn [accounts admitted_state]. rewrite lookup_insert_eq. split; [done|]. cbn.
        rewrite lookup_insert_eq. done.
      * intros (b & t & Hk & Hd & Ht & _). destruct (admitted_attempt _ _ _ _ Hk Hd) as [(-> & -> & _)|(b0 & Hk0 & Hd0 & _)]; [done|].
        exfalso. by eapply (Hnew i b0).
    + rewrite lookup_insert_ne by done. rewrite (tr_pending _ _ Htr). split; intros (b & t & Hk & Hd & Ht & Hp).
      * destruct (admitted_old i b Hk) as (b' & Hk' & _ & Hd'). exists b', t. auto.
      * destruct (admitted_attempt _ _ _ _ Hk Hd) as [(_ & _ & ->)|(b0 & Hk0 & Hd0 & _)]; [by cbn in Ht|]. by exists b0, t.
  - intros k b c' d Hk Hl Hc' [t Hd]. destruct (admitted_channels _ _ Hc') as (c0 & Hc0 & -> & _). cbn [seen admitted_state].
    destruct (admitted_attempt _ _ _ _ Hk Hd) as [(-> & -> & ->)|(b0 & Hk0 & Hd0 & Ec)].
    + destruct (admitted_accounts _ _ Hk) as [(_ & Ec & _)|[? _]]; [|done]. rewrite Ec in Hl, Hc0. rewrite Hl.
      destruct Had. simplify_eq. set_solver.
    + rewrite Ec in Hl, Hc0. assert ((buyer (terms c0), d) ∈ seen s) by (by eapply (tr_seen _ _ Htr)).
      destruct (is_legacy (billing (contract a))); set_solver.
  - intros k b c1 k' b' c1' d Hk Hk' Hl Hl' Hc1 Hc1' Hb [t Hd] [t' Hd'].
    destruct (admitted_channels _ _ Hc1) as (c0 & Hc0 & Et & _). destruct (admitted_channels _ _ Hc1') as (c0' & Hc0' & Et' & _).
    rewrite Et, Et' in Hb.
    assert (∀ k0 b0 c2, accounts s !! k0 = Some b0 → is_legacy (billing (contract b0)) = true →
      channels s !! channel_id (contract b0) = Some c2 → is_Some (attempts b0 !! digest) → is_legacy (billing (contract a)) = true →
      buyer (terms c2) ≠ who) as Hfresh.
    { intros k0 b0 c2 Hk0 Hl0 Hc2 Hd0 Hla He. destruct Had. apply (ad_legacy0 Hla). rewrite <- He. by apply (tr_seen _ _ Htr k0 b0 c2 digest). }
    pose proof (ad_buyer _ _ _ _ _ _ _ _ _ _ _ Had) as Hbuy. pose proof (ad_channel _ _ _ _ _ _ _ _ _ _ _ Had) as Hch.
    destruct (admitted_attempt _ _ _ _ Hk Hd) as [(-> & -> & ->)|(b0 & Hk0 & Hd0 & Ec)],
      (admitted_attempt _ _ _ _ Hk' Hd') as [(-> & Ed & ->)|(b1 & Hk1 & Hd1 & Ec')]; [done|..].
    + destruct (admitted_accounts _ _ Hk) as [(_ & Ec & _)|[? _]]; [|done]. rewrite Ec in Hl, Hc0. rewrite Ec' in Hl', Hc0'.
      rewrite Hch in Hc0. injection Hc0 as <-. exfalso. apply (Hfresh k' b1 c0'); first [done|by eexists|congruence].
    + subst d. destruct (admitted_accounts _ _ Hk') as [(_ & Ec' & _)|[? _]]; [|done]. rewrite Ec' in Hl', Hc0'. rewrite Ec in Hl, Hc0.
      rewrite Hch in Hc0'. injection Hc0' as <-. exfalso. apply (Hfresh k b0 c0); first [done|by eexists|congruence].
    + rewrite Ec in Hl, Hc0. rewrite Ec' in Hl', Hc0'. apply (tr_digests _ _ Htr k b0 c0 k' b1 c0' d); try done; by eexists.
  - cbn [pending admitted_state]. destruct Had. rewrite map_size_insert_None; [lia|].
    destruct (pending s !! (next_token s + 1)) as [[i d]|] eqn:Hp; [|done]. exfalso.
    apply (tr_pending _ _ Htr) in Hp as (b & t & Hk & Hd & Ht & _). by apply (Hnew i b d t).
  - cbn [next_token admitted_state]. destruct Had. lia.
Qed.

Lemma admitted_money : money (admitted_state s who id a c digest n total).
Proof.
  pose proof Hbk as [Hsh Htr Hmo Hhi]. destruct Hmo as [Hp Hcp Hg Hl Hr Hs]. pose proof Had as Had'. destruct Had'.
  assert (total ≤ capacity_sat (terms c) * 1000 ∧ total ≤ paid_msat (channel_usage c) + grace_msat (terms c)) as [Ht1 Ht2].
  { destruct ad_limit0 as (limit & Hlim & Hle). destruct (sh_channel _ _ Hsh _ c ad_channel0) as (_ & (_ & _ & Hgr) & Hv & _).
    pose proof (validate_channel_ok _ _ Hv) as (_ & Hcap & _ & _). pose proof (past_debt_bound limits s (terms c) Hbk) as Hpd.
    rewrite limit_of_eq in Hlim by done. destruct (carried s (terms c) <=? U64_MAX); [|done]. injection Hlim as <-.
    specialize (Hp _ c ad_channel0). pose proof (carried_nonneg s (terms c) (proj1 Hpd)).
    unfold sat_sub, sat_add_u64, is_u64 in *. lia. }
  assert (∀ f k, booked f k (accounts (admitted_state s who id a c digest n total))
    = booked f k (accounts s) + if bool_decide (channel_id (contract a) = k)
        then due (price (contract a)) (f (mkUsage (reserved_units (usage a) + n) (submitted_units (usage a)) (unconfirmed_units (usage a))))
             - due (price (contract a)) (f (usage a)) else 0) as Hbook.
  { intros f k. cbn [accounts admitted_state]. by rewrite (booked_insert f k id a). }
  split; intros k c' Hk; destruct (admitted_channels k c' Hk) as (c0 & Hc0 & Et & Er & _ & El & Es & Ep & Hcase);
    rewrite ?Et, ?Er, ?El, ?Es, ?Ep, ?Hbook; cbn [reserved_units submitted_units].
  - eauto.
  - destruct Hcase as [(-> & -> & ->)|[_ ->]]; [done|eauto].
  - destruct Hcase as [(-> & -> & ->)|[_ ->]]; [done|eauto].
  - eauto.
  - specialize (Hr k c0 Hc0). destruct Hcase as [(-> & -> & ->)|[Hne ->]].
    + rewrite bool_decide_true by done. lia.
    + rewrite bool_decide_false by done. lia.
  - specialize (Hs k c0 Hc0). case_bool_decide; lia.
Qed.

Lemma admitted_books : books limits (admitted_state s who id a c digest n total).
Proof. split; [apply admitted_shape|apply admitted_tries|apply admitted_money|apply Hbk]. Qed.

End admission_books.

(** ** Completion *)

(** Attempts only settle or disappear. *)
Definition settled (a a' : Account) : Prop :=
  contract a' = contract a ∧
  ∀ d t', attempts a' !! d = Some t' → ∃ t, attempts a !! d = Some t ∧ token t' = token t.

Lemma tries_settle limits s s' : tries limits s →
  (∀ k a', accounts s' !! k = Some a' → ∃ a, accounts s !! k = Some a ∧ settled a a' ∧ account_ok limits (next_token s) a') →
  (∀ k c', channels s' !! k = Some c' → ∃ c, channels s !! k = Some c ∧ terms c' = terms c) →
  (∀ tok id d, pending s' !! tok = Some (id, d) ↔
    ∃ a t, accounts s' !! id = Some a ∧ attempts a !! d = Some t ∧ token t = tok ∧ attempt_state t = Pending) →
  (size (pending s') ≤ size (pending s))%nat → next_token s' = next_token s → seen s' = seen s → tries limits s'.
Proof.
  intros [Ha Ht Hp Hs Hd Hz Hn] Hacc Hch Hpend Hsize Enext Eseen. split; rewrite ?Enext, ?Eseen; try done; try lia.
  - intros k a' Hk. by destruct (Hacc k a' Hk) as (a & _ & _ & ?).
  - intros k a d t k' a' d' t' Hk Hd1 Hk' Hd2 Htok. destruct (Hacc _ _ Hk) as (a0 & Hk0 & [_ Hat] & _).
    destruct (Hacc _ _ Hk') as (a1 & Hk1 & [_ Hat'] & _). destruct (Hat d t Hd1) as (t0 & Hd0 & E0).
    destruct (Hat' d' t' Hd2) as (t1 & Hd1' & E1). apply (Ht k a0 d t0 k' a1 d' t1); try done. congruence.
  - intros k a' c' d Hk Hl Hc [t Hd']. destruct (Hacc _ _ Hk) as (a & Hk0 & [Ec Hat] & _). rewrite Ec in Hl, Hc.
    destruct (Hch _ _ Hc) as (c & Hc0 & ->). destruct (Hat d t Hd') as (t0 & Hd0 & _). by eapply (Hs k a).
  - intros k a c k' a' c' d Hk Hk' Hl Hl' Hc Hc' Hb [t Hd1] [t' Hd2]. destruct (Hacc _ _ Hk) as (a0 & Hk0 & [Ec Hat] & _).
    destruct (Hacc _ _ Hk') as (a1 & Hk1 & [Ec' Hat'] & _). rewrite Ec in Hl, Hc. rewrite Ec' in Hl', Hc'.
    destruct (Hch _ _ Hc) as (c0 & Hc0 & Et). destruct (Hch _ _ Hc') as (c1 & Hc1 & Et'). rewrite Et, Et' in Hb.
    destruct (Hat d t Hd1) as (t0 & Hd0 & _). destruct (Hat' d t' Hd2) as (t1 & Hd1' & _).
    apply (Hd k a0 c0 k' a1 c1 d); try done; by eexists.
Qed.

Lemma units_insert_old m d t t' : m !! d = Some t → units t' = units t →
  units_all (<[d := t']> m) = units_all m
  ∧ ∀ st, units_in st (<[d := t']> m)
      = units_in st m - (if bool_decide (attempt_state t = st) then units t else 0)
        + (if bool_decide (attempt_state t' = st) then units t else 0).
Proof.
  intros Hd Hu. unfold units_all, units_in.
  split; [|intros st]; rewrite (map_sum_insert _ m d t t' Hd), Hu; lia.
Qed.

Lemma units_delete m d t : m !! d = Some t →
  units_all (delete d m) = units_all m - units t
  ∧ ∀ st, units_in st (delete d m) = units_in st m - (if bool_decide (attempt_state t = st) then units t else 0).
Proof.
  intros Hd. unfold units_all, units_in. split; [|intros st]; rewrite (map_sum_delete _ m d t Hd); lia.
Qed.

(** What [complete] makes of the account. *)
Definition completed_account (a : Account) (d : list Z) (t : Attempt) (out : ForwardingOutcome) : Account :=
  let us := usage a in
  let cm := completed a in
  let sub := match out with OutSubmitted => units t | OutUnconfirmed => 0 end in
  let us' := mkUsage (reserved_units us) (submitted_units us + sub) (unconfirmed_units us + (units t - sub)) in
  if is_legacy (billing (contract a))
  then mkAccount (contract a) us'
         (<[d := mkAttempt (token t) (units t) (match out with OutSubmitted => Submitted | OutUnconfirmed => Unconfirmed end)]>
            (attempts a)) cm (account_active a)
  else mkAccount (contract a) us' (delete d (attempts a))
         (mkUsage (reserved_units cm + units t) (submitted_units cm + sub) (unconfirmed_units cm + (units t - sub)))
         (account_active a).

Definition completed_channel (a : Account) (c : Channel) (t : Attempt) (out : ForwardingOutcome) : Channel :=
  let sub := match out with OutSubmitted => units t | OutUnconfirmed => 0 end in
  let u := channel_usage c in
  RelayLedger.set_channel_usage c (mkChannelUsage (reserved_msat u)
    (submitted_msat u + (due (price (contract a)) (submitted_units (usage a) + sub)
                         - due (price (contract a)) (submitted_units (usage a)))) (lost_msat u) (paid_msat u)).

Definition completed_state (s : State) (tok : Z) (id : string) (a : Account) (d : list Z) (t : Attempt) (c : Channel)
    (out : ForwardingOutcome) : State :=
  mkState (history s) (seen s) (<[channel_id (contract a) := completed_channel a c t out]> (channels s))
    (<[id := completed_account a d t out]> (accounts s)) (delete tok (pending s)) (next_token s).

Lemma wrap_u64_small z : 0 ≤ z ≤ U64_MAX → wrap_u64 z = z.
Proof. intros. unfold wrap_u64. apply Z.mod_small. change (2 ^ 64) with (U64_MAX + 1). lia. Qed.

Section completion.
Context (limits : Limits) {s : State} (Hbk : books limits s).
Import RelayLedger.

Lemma submitted_bound k a c : accounts s !! k = Some a → channels s !! channel_id (contract a) = Some c →
  0 ≤ submitted_msat (channel_usage c) ∧
  ∀ n, submitted_units (usage a) ≤ n ≤ reserved_units (usage a) →
    submitted_msat (channel_usage c) + (due (price (contract a)) n - due (price (contract a)) (submitted_units (usage a)))
    ≤ reserved_msat (channel_usage c) - lost_msat (channel_usage c)
  ∧ due (price (contract a)) (submitted_units (usage a)) ≤ due (price (contract a)) n.
Proof.
  intros Hk Hc. destruct Hbk as [Hsh Htr Hmo _].
  rewrite (mo_reserved _ Hmo _ c Hc), (mo_submitted _ Hmo _ c Hc).
  destruct (sh_channel _ _ Hsh _ c Hc) as (_ & _ & _ & (Hv & _ & _ & _ & _ & Hn1 & Hn2)).
  pose proof (booked_nonneg Hsh Htr (channel_id (contract a))) as [Hb0 Hb1]. split; [lia|]. intros n Hn.
  assert (retired_submitted_msat (retired c) ≤ retired_reserved_msat (retired c)) as Hret.
  { unfold RetiredRoutes.valid in Hv. destruct (contracts (retired c) =? 0).
    - apply bool_decide_eq_true in Hv. rewrite Hv. done.
    - apply andb_prop in Hv as [_ Hv%Z.leb_le]. done. }
  destruct (account_priced Hsh k a Hk). pose proof (tr_account _ _ Htr k a Hk) as Hok.
  pose proof (ao_range Hok) as ([Hs0 _] & _ & _).
  assert (due (price (contract a)) n ≤ due (price (contract a)) (reserved_units (usage a))) by (apply due_mono; lia).
  assert (due (price (contract a)) (submitted_units (usage a)) ≤ due (price (contract a)) n) by (apply due_mono; lia).
  split; [|done].
  (* the other accounts keep their submitted at most their reserved *)
  assert (booked submitted_units (channel_id (contract a)) (delete k (accounts s))
    ≤ booked reserved_units (channel_id (contract a)) (delete k (accounts s))) as Hrest.
  { apply map_sum_le. intros k' a' [_ Ha']%lookup_delete_Some. case_bool_decide; [|lia].
    destruct (account_priced Hsh k' a' Ha'). apply due_mono; [lia|lia|]. apply (ao_range (tr_account _ _ Htr k' a' Ha')). }
  unfold booked in *. rewrite !(map_sum_delete _ (accounts s) k a Hk). rewrite bool_decide_true by done. lia.
Qed.

Lemma complete_spec tok out :
  match complete s tok out with
  | Ok s' => s' = s ∧ pending s !! tok = None ∨
      ∃ id a d t c, pending s !! tok = Some (id, d) ∧ accounts s !! id = Some a ∧ attempts a !! d = Some t
        ∧ attempt_state t = Pending ∧ token t = tok ∧ channels s !! channel_id (contract a) = Some c
        ∧ s' = completed_state s tok id a d t c out
  | _ => False
  end.
Proof.
  destruct Hbk as [Hsh Htr Hmo _]. unfold complete. destruct (pending s !! tok) as [[id d]|] eqn:Hp; [|by left].
  pose proof (proj1 (tr_pending _ _ Htr tok id d) Hp) as (a & t & Hid & Hd & Htok & Hst). rewrite Hid, Hd.
  pose proof (tr_account _ _ Htr id a Hid) as Hok. pose proof (ao_parts Hok) as (Hs & Hu & Hr & Hpn).
  pose proof (ao_range Hok) as (_ & [_ Hmax] & _). pose proof (ao_pending_le Hok d t Hd Hst) as Hun.
  destruct (sh_account _ _ Hsh id a Hid) as (_ & (_ & Humax & _)). unfold is_u64 in Humax.
  destruct (account_due Hsh id a (submitted_units (usage a)) Hid) as [-> Hd0]; [lia|].
  destruct (sh_home _ _ Hsh id a Hid) as (c & Hc & _). rewrite Hc.
  destruct (submitted_bound id a c Hid Hc) as [Hsm0 Hsm].
  assert (reserved_msat (channel_usage c) ≤ U64_MAX ∧ 0 ≤ lost_msat (channel_usage c)) as [Hrm Hlm].
  { pose proof (mo_cap _ Hmo _ c Hc). pose proof (mo_lost _ Hmo _ c Hc).
    destruct (sh_channel _ _ Hsh _ c Hc) as (_ & _ & Hv & _). pose proof (validate_channel_ok _ _ Hv) as (_ & ? & _ & _). lia. }
  pose proof (ao_completed _ _ _ Hok) as (Hcs & Hcu & Hcr).
  assert (reserved_units (completed a) ≤ submitted_units (usage a) + unconfirmed_units (usage a)) as Hcle.
  { pose proof (ao_reserved _ _ _ Hok) as E. rewrite Hr in E. rewrite units_all_split in E.
    assert (∀ st, 0 ≤ units_in st (attempts a)) as Hn.
    { intros st. apply units_in_nonneg. intros d' t' Hd'. by apply (ao_attempt _ _ _ Hok) in Hd' as [? _]. }
    pose proof (Hn Submitted). pose proof (Hn Unconfirmed). lia. }
  set (us' := match out with OutSubmitted => _ | OutUnconfirmed => _ end).
  set (sub := match out with OutSubmitted => units t | OutUnconfirmed => 0 end).
  assert (us' = mkUsage (reserved_units (usage a)) (submitted_units (usage a) + sub) (unconfirmed_units (usage a) + (units t - sub))) as Eus.
  { unfold us', sub. destruct out; rewrite wrap_u64_small by lia; f_equal; lia. }
  assert (0 ≤ sub ≤ units t) as Hsub by (unfold sub; destruct out; lia).
  rewrite Eus. cbn [submitted_units].
  destruct (account_due Hsh id a (submitted_units (usage a) + sub) Hid) as [-> Hd1]; [lia|].
  destruct (Hsm (submitted_units (usage a) + sub)) as [Hsm1 Hsm2]; [lia|].
  rewrite (wrap_u64_small (due _ _ - _)) by lia. rewrite (wrap_u64_small (submitted_msat _ + _)) by lia.
  right. exists id, a, d, t, c. split_and!; try done. unfold completed_state. f_equal; [f_equal].
  f_equal. unfold completed_account. fold sub. destruct (is_legacy _); [done|]. f_equal.
  unfold sub. destruct out; rewrite !wrap_u64_small by lia; f_equal; lia.
Qed.

End completion.

Lemma map_size_delete_le {A} (m : gmap Z A) k : (size (delete k m) ≤ size m)%nat.
Proof. rewrite map_size_delete. destruct (m !! k); simpl; lia. Qed.

Lemma completed_account_ok limits next a d t out : account_ok limits next a → attempts a !! d = Some t →
  attempt_state t = Pending → account_ok limits next (completed_account a d t out) ∧ settled a (completed_account a d t out)
  ∧ (∀ d' t', attempts (completed_account a d t out) !! d' = Some t' → attempt_state t' = Pending → d' ≠ d)
  ∧ (∀ d', d' ≠ d → attempts (completed_account a d t out) !! d' = attempts a !! d').
Proof.
  intros [Hat Hmod Hleg Hcomp Hr Hs Hu Hm] Hd Hst. destruct (Hat d t Hd) as [Hpos Htok].
  set (sub := match out with OutSubmitted => units t | OutUnconfirmed => 0 end).
  assert (0 ≤ sub ≤ units t) as Hsub by (unfold sub; destruct out; lia).
  unfold completed_account. fold sub. destruct (is_legacy (billing (contract a))) eqn:Hl.
  - destruct (Hleg eq_refl) as [Hc0 Hsize]. set (st := match out with OutSubmitted => Submitted | OutUnconfirmed => Unconfirmed end).
    destruct (units_insert_old (attempts a) d t (mkAttempt (token t) (units t) st) Hd eq_refl) as [Eall Ein].
    assert (st ≠ Pending) as Hnp by (unfold st; by destruct out). split_and!.
    + split; cbn; try done.
      * intros d' t'. destruct (decide (d' = d)) as [->|Hne]; [rewrite lookup_insert_eq; intros [= <-]; cbn; lia|].
        rewrite lookup_insert_ne by done. apply Hat.
      * by rewrite Hl.
      * intros _. split; [done|]. rewrite map_size_insert_Some by (by rewrite Hd). done.
      * by rewrite Eall.
      * rewrite Ein, Hst, bool_decide_false by done. cbn. unfold st, sub. destruct out; [rewrite bool_decide_true by done|rewrite bool_decide_false by done]; lia.
      * rewrite Ein, Hst, bool_decide_false by done. cbn. unfold st, sub. destruct out; [rewrite bool_decide_false by done|rewrite bool_decide_true by done]; lia.
    + split; [done|]. cbn. intros d' t'. destruct (decide (d' = d)) as [->|Hne]; [rewrite lookup_insert_eq; intros [= <-]; by exists t|].
      rewrite lookup_insert_ne by done. eauto.
    + cbn. intros d' t' Hd' Hp ->. rewrite lookup_insert_eq in Hd'. injection Hd' as <-. done.
    + cbn. intros d' Hne. by rewrite lookup_insert_ne.
  - destruct (units_delete (attempts a) d t Hd) as [Eall Ein]. split_and!.
    + split; cbn; try done; try lia.
      * intros d' t' [_ Hd']%lookup_delete_Some. eauto.
      * intros _ d' t' [_ Hd']%lookup_delete_Some. by apply Hmod.
      * intros. congruence.
      * rewrite Ein, Hst, bool_decide_false by done. lia.
      * rewrite Ein, Hst, bool_decide_false by done. lia.
    + split; [done|]. cbn. intros d' t' [_ Hd']%lookup_delete_Some. eauto.
    + cbn. intros d' t' Hd' _ ->. by rewrite lookup_delete_eq in Hd'.
    + cbn. intros d' Hne. by rewrite lookup_delete_ne.
Qed.

Section complete_books.
Context (limits : Limits) {s : State} (Hbk : books limits s).
Import RelayLedger.

Lemma completed_books id a d t c out : accounts s !! id = Some a → attempts a !! d = Some t → attempt_state t = Pending →
  channels s !! channel_id (contract a) = Some c → books limits (completed_state s (token t) id a d t c out).
Proof.
  intros Hid Hd Hst Hc. pose proof Hbk as [Hsh Htr Hmo Hhi]. pose proof (tr_account _ _ Htr id a Hid) as Hok.
  destruct (completed_account_ok limits _ a d t out Hok Hd Hst) as (Hok' & Hset & Hgone & Hothers).
  assert (contract (completed_account a d t out) = contract a) as Econ by apply Hset.
  assert (account_active (completed_account a d t out) = account_active a) as Eact by (unfold completed_account; by destruct (is_legacy _)).
  split.
  - apply (shape_agree _ s); [done| |by eapply agree_insert|].
    + eapply agree_insert; [done|done|]. split; [done|]. by rewrite Eact.
    + intros k b c' Hk Hon Hc'. cbn [accounts channels completed_state] in Hk, Hc'.
      assert (∃ b0, accounts s !! k = Some b0 ∧ contract b = contract b0 ∧ account_active b = account_active b0) as (b0 & Hk0 & Ec & Ea).
      { destruct (decide (k = id)) as [->|Hne].
        - rewrite lookup_insert_eq in Hk. injection Hk as <-. eauto.
        - rewrite lookup_insert_ne in Hk by done. eauto. }
      rewrite Ec in Hc'. rewrite Ea in Hon. destruct (sh_home _ _ Hsh k b0 Hk0) as (c1 & Hc1 & _ & _ & Hact).
      destruct (decide (channel_id (contract b0) = channel_id (contract a))) as [He|Hne].
      * rewrite He, lookup_insert_eq in Hc'. injection Hc' as <-. rewrite He, Hc in Hc1. injection Hc1 as <-. by apply Hact.
      * rewrite lookup_insert_ne in Hc' by done. simplify_eq. auto.
  - apply (tries_settle _ s); [done| | | |apply map_size_delete_le|done|done].
    + intros k b Hk. cbn [accounts completed_state] in Hk. destruct (decide (k = id)) as [->|Hne].
      * rewrite lookup_insert_eq in Hk. injection Hk as <-. eauto.
      * rewrite lookup_insert_ne in Hk by done. exists b. split; [done|]. split; [split; [done|]; eauto|by apply (tr_account _ _ Htr k)].
    + intros k c'. cbn [channels completed_state]. destruct (decide (k = channel_id (contract a))) as [->|Hne].
      * rewrite lookup_insert_eq. intros [= <-]. eauto.
      * rewrite lookup_insert_ne by done. eauto.
    + intros tok i d'. cbn [pending accounts completed_state]. destruct (decide (tok = token t)) as [->|Hne].
      * rewrite lookup_delete_eq. split; [done|]. intros (b & t' & Hk & Hd' & Htok & Hp). exfalso.
        destruct (decide (i = id)) as [->|Hne].
        -- rewrite lookup_insert_eq in Hk. injection Hk as <-. pose proof (Hgone d' t' Hd' Hp) as Hne.
           rewrite (Hothers d' Hne) in Hd'. by destruct (tr_tokens _ _ Htr id a d' t' id a d t).
        -- rewrite lookup_insert_ne in Hk by done. by destruct (tr_tokens _ _ Htr i b d' t' id a d t).
      * rewrite lookup_delete_ne, (tr_pending _ _ Htr) by done. destruct (decide (i = id)) as [->|Hni].
        -- rewrite lookup_insert_eq. split; intros (b & t' & Hk & Hd' & Htok & Hp).
           ++ rewrite Hid in Hk. injection Hk as <-. exists (completed_account a d t out), t'. split; [done|].
              rewrite Hothers; [done|]. intros ->. rewrite Hd in Hd'. by simplify_eq.
           ++ injection Hk as <-. exists a, t'. split; [done|]. rewrite <- (Hothers d'); [done|]. by apply (Hgone d' t').
        -- rewrite lookup_insert_ne by done. done.
  - destruct Hmo as [Hp Hcp Hg Hl Hr Hs].
    assert (∀ f k, booked f k (accounts (completed_state s (token t) id a d t c out))
      = booked f k (accounts s) + if bool_decide (channel_id (contract a) = k)
          then due (price (contract a)) (f (usage (completed_account a d t out))) - due (price (contract a)) (f (usage a)) else 0) as Hbook.
    { intros f k. cbn [accounts completed_state]. by rewrite (booked_insert f k id a). }
    set (sub := match out with OutSubmitted => units t | OutUnconfirmed => 0 end).
    assert (usage (completed_account a d t out) = mkUsage (reserved_units (usage a)) (submitted_units (usage a) + sub)
      (unconfirmed_units (usage a) + (units t - sub))) as Eus by (unfold completed_account; by destruct (is_legacy _)).
    assert (∀ k c', channels (completed_state s (token t) id a d t c out) !! k = Some c' →
      ∃ c0, channels s !! k = Some c0 ∧ terms c' = terms c0 ∧ retired c' = retired c0
        ∧ reserved_msat (channel_usage c') = reserved_msat (channel_usage c0)
        ∧ lost_msat (channel_usage c') = lost_msat (channel_usage c0) ∧ paid_msat (channel_usage c') = paid_msat (channel_usage c0)
        ∧ submitted_msat (channel_usage c') = submitted_msat (channel_usage c0)
          + if bool_decide (channel_id (contract a) = k)
            then due (price (contract a)) (submitted_units (usage a) + sub) - due (price (contract a)) (submitted_units (usage a)) else 0) as Hch.
    { intros k c'. cbn [channels completed_state]. destruct (decide (k = channel_id (contract a))) as [->|Hne].
      - rewrite lookup_insert_eq. intros [= <-]. exists c. rewrite bool_decide_true by done. done.
      - rewrite lookup_insert_ne by done. intros Hk. exists c'. rewrite bool_decide_false by done. rewrite Z.add_0_r. done. }
    split; intros k c' Hk; destruct (Hch k c' Hk) as (c0 & Hc0 & Et & Er & Ere & El & Ep & Es);
      rewrite ?Et, ?Er, ?Ere, ?El, ?Es, ?Ep, ?Hbook, ?Eus; cbn [reserved_units submitted_units]; eauto.
    + specialize (Hr k c0 Hc0). case_bool_decide; lia.
    + specialize (Hs k c0 Hc0). lia.
  - done.
Qed.

Lemma complete_books tok out : match complete s tok out with Ok s' => books limits s' | _ => False end.
Proof.
  pose proof (complete_spec limits Hbk tok out) as Hc. destruct (complete s tok out) as [s'| |]; try done.
  destruct Hc as [[-> _]|(id & a & d & t & c & _ & Hid & Hd & Hst & <- & Hc & ->)]; [done|]. by apply completed_books.
Qed.

End complete_books.
