(* ===== verification/LedgerClosing.v ===== *)
(** * Closing channels and retiring what is closed

    Sealing a channel settles its pending packets as unconfirmed; retiring folds
    closed contracts into their channel's evidence and closed channels into the
    history. All of it preserves [books], so every reachable state of the ledger
    satisfies it. *)

From stdpp Require Import strings.
From S2P Require Import Prelude Bytes NodeAddr LinkWire SessionWire Ledger LedgerBooks LedgerSales.

Local Open Scope Z_scope.

(** ** Sealing a channel *)

Section seal.
Context (ord : Orders) (limits : Limits).
Import RelayLedger.

Definition pending_units (l : list (list Z * Attempt)) : Z :=
  foldr (λ ka n, (if bool_decide (attempt_state ka.2 = Pending) then units ka.2 else 0) + n) 0 l.

Lemma pending_units_nonneg l : (∀ k t, (k, t) ∈ l → 0 < units t) → 0 ≤ pending_units l.
Proof.
  induction l as [|[k t] l IH]; intros Hpos; cbn; [lia|]. assert (0 < units t) by (apply (Hpos k); left).
  assert (0 ≤ pending_units l) by (apply IH; intros k2 t2 Hin; apply (Hpos k2); by right).
  unfold pending_units in *. case_bool_decide; lia.
Qed.

Lemma fold_pending l x : (∀ k t, (k, t) ∈ l → 0 < units t) → 0 ≤ x → x + pending_units l ≤ U64_MAX →
  foldl (λ n kt, if bool_decide (attempt_state kt.2 = Pending) then wrap_u64 (n + units kt.2) else n) x l = x + pending_units l.
Proof.
  revert x. induction l as [|[k t] l IH]; intros x Hpos Hx; cbn [foldl pending_units foldr snd]; [lia|].
  fold (pending_units l). intros Hb.
  assert (0 < units t) by (apply (Hpos k); left).
  assert (∀ k t, (k, t) ∈ l → 0 < units t) as Hpos' by (intros k2 t2 Hin; apply (Hpos k2); by right).
  pose proof (pending_units_nonneg l Hpos').
  case_bool_decide; [rewrite wrap_u64_small by lia|]; rewrite IH by (done || lia); lia.
Qed.

Lemma sealed_units_eq next a : account_ok limits next a → is_u64 (max_units (contract a)) →
  sealed_units ord a = unconfirmed_units (usage a) + units_in Pending (attempts a).
Proof.
  intros Hok Hmax. pose proof (ao_parts Hok) as (Hs & Hu & Hr & Hp). pose proof (ao_max _ _ _ Hok) as Hm.
  assert (units_in Pending (attempts a) = pending_units (map_iter (attempts_order ord) (attempts a))) as E
    by apply (map_sum_iter (λ _ t, if bool_decide (attempt_state t = Pending) then units t else 0)).
  unfold sealed_units. rewrite E. apply fold_pending; [|lia|unfold is_u64 in Hmax; lia].
  intros k t Hin. apply elem_of_map_iter in Hin. by destruct (ao_attempt _ _ _ Hok k t Hin).
Qed.

Lemma units_in_empty st : units_in st ∅ = 0.
Proof. done. Qed.

Lemma units_in_seal m st : units_in st (seal_attempt <$> m)
  = match st with Pending => 0 | Submitted => units_in Submitted m | Unconfirmed => units_in Unconfirmed m + units_in Pending m end.
Proof.
  induction m as [|d t m Hd IH] using map_ind; [by destruct st|].
  unfold units_in in *. rewrite fmap_insert, map_sum_insert_new, IH by (by rewrite lookup_fmap, Hd).
  unfold seal_attempt. destruct t as [tok n []], st; rewrite ?map_sum_insert_new by done; cbn;
    repeat case_bool_decide; cbn in *; try done; lia.
Qed.

Lemma seal_account_ok next a : account_ok limits next a → is_u64 (max_units (contract a)) →
  account_ok limits next (seal_account ord a) ∧ settled a (seal_account ord a)
  ∧ (∀ d t, attempts (seal_account ord a) !! d = Some t → attempt_state t ≠ Pending)
  ∧ reserved_units (usage (seal_account ord a)) = reserved_units (usage a)
  ∧ submitted_units (usage (seal_account ord a)) = submitted_units (usage a).
Proof.
  intros Hok Hmax. pose proof (sealed_units_eq next a Hok Hmax) as Esu. pose proof (ao_parts Hok) as (Hs & Hu & Hr & Hp).
  destruct Hok as [Hat Hmod Hleg Hcomp Er Es Eu Hm]. unfold seal_account. rewrite Esu.
  destruct (is_legacy (billing (contract a))) eqn:Hl.
  - destruct (Hleg eq_refl) as [Hc0 Hsize].
    pose proof (units_in_seal (attempts a)) as Ein.
    assert (units_all (seal_attempt <$> attempts a) = units_all (attempts a)) as Eall.
    { unfold units_all. rewrite map_sum_fmap. apply map_sum_ext. intros d t _. unfold seal_attempt. by case_bool_decide. }
    split_and!; cbn [usage attempts reserved_units submitted_units]; try done.
    + split; cbn; try done; try lia.
      * intros d t. rewrite lookup_fmap. destruct (attempts a !! d) as [t0|] eqn:Hd; [|done]. intros [= <-].
        destruct (Hat d t0 Hd). unfold seal_attempt. by case_bool_decide.
      * by rewrite Hl.
      * intros _. split; [done|]. by rewrite map_size_fmap.
      * by rewrite (Ein Submitted).
      * rewrite (Ein Unconfirmed). lia.
    + split; [done|]. cbn. intros d t'. rewrite lookup_fmap. destruct (attempts a !! d) as [t0|] eqn:Hd; [|done]. intros [= <-].
      exists t0. split; [done|]. unfold seal_attempt. by case_bool_decide.
    + intros d t. rewrite lookup_fmap. destruct (attempts a !! d) as [t0|]; [|done]. intros [= <-]. unfold seal_attempt.
      case_bool_decide; done.
  - split_and!; cbn [usage attempts reserved_units submitted_units]; try done.
    split; cbn; rewrite ?units_in_empty; try done; try lia; [by intros; congruence|].
    change (units_all ∅) with 0. lia.
Qed.

Lemma elem_of_pending_tokens tok a : tok ∈ pending_tokens ord a ↔
  ∃ d t, attempts a !! d = Some t ∧ attempt_state t = Pending ∧ token t = tok.
Proof.
  unfold pending_tokens. rewrite list_elem_of_fmap. split.
  - intros ([d t] & -> & [Hp Hin]%list_elem_of_filter). apply elem_of_map_iter in Hin. eauto.
  - intros (d & t & Hd & Hp & <-). exists (d, t). split; [done|]. apply list_elem_of_filter. split; [done|]. by apply elem_of_map_iter.
Qed.

Lemma lookup_foldl_delete {V} (l : list Z) (m : gmap Z V) k :
  foldl (λ p t, delete t p) m l !! k = if decide (k ∈ l) then None else m !! k.
Proof.
  revert m. induction l as [|t l IH]; intros m; cbn [foldl]; [by rewrite decide_False by apply not_elem_of_nil|].
  rewrite IH. destruct (decide (k ∈ l)) as [Hin|Hni]; [rewrite decide_True by (by right); done|].
  destruct (decide (k = t)) as [->|Hne].
  - rewrite decide_True by left. apply lookup_delete_eq.
  - rewrite decide_False by (by rewrite elem_of_cons; intros [?|?]). by rewrite lookup_delete_ne.
Qed.

Lemma size_foldl_delete {V} (l : list Z) (m : gmap Z V) : (size (foldl (λ p t, delete t p) m l) ≤ size m)%nat.
Proof.
  revert m. induction l as [|t l IH]; intros m; cbn [foldl]; [done|]. etrans; [apply IH|]. apply map_size_delete_le.
Qed.

Definition seal_if (id : string) (a : Account) : Account :=
  if bool_decide (channel_id (contract a) = id) then seal_account ord a else a.

Lemma seal_channel_books s id : books limits s →
  match seal_channel ord s id with Ok (s', _) => books limits s' | Err _ => True | Panic => False end.
Proof.
  intros Hbk. unfold seal_channel. pose proof (close_channel_books limits s id Hbk) as Hcl.
  destruct (close_channel s id) as [[s1 u]| |]; cbn [mbind outcome_bind]; [|done|done].
  destruct Hcl as (Hbk1 & (c & _ & Hc) & Hoff). clear Hbk s. set (c0 := set_channel_active c false) in *. rename s1 into s.
  cbn [channels set_pending set_accounts]. rewrite Hc. pose proof Hbk1 as [Hsh Htr Hmo Hhi].
  fold (seal_if id). set (toks := _ ≫= _).
  assert (∀ k a, accounts s !! k = Some a →
    account_ok limits (next_token s) (seal_if id a) ∧ settled a (seal_if id a)
    ∧ account_active (seal_if id a) = account_active a
    ∧ reserved_units (usage (seal_if id a)) = reserved_units (usage a)
    ∧ submitted_units (usage (seal_if id a)) = submitted_units (usage a)
    ∧ (∀ d t, attempts (seal_if id a) !! d = Some t → attempt_state t = Pending →
         channel_id (contract a) ≠ id ∧ attempts a !! d = Some t)) as Hseal.
  { intros k a Hk. pose proof (tr_account _ _ Htr k a Hk) as Hok. destruct (sh_account _ _ Hsh k a Hk) as (_ & (_ & Hm & _)).
    destruct (seal_account_ok _ a Hok Hm) as (H1 & H2 & H3 & H4 & H5). unfold seal_if. case_bool_decide as Hid.
    - split_and!; try done; [unfold seal_account; by destruct (is_legacy _)|]. intros d t Hd Hp. exfalso. by eapply H3.
    - split_and!; try done. split; [done|]. eauto. }
  assert (∀ tok, tok ∈ toks ↔ ∃ k a d t, accounts s !! k = Some a ∧ channel_id (contract a) = id ∧ attempts a !! d = Some t
    ∧ attempt_state t = Pending ∧ token t = tok) as Htoks.
  { intros tok. unfold toks. rewrite list_elem_of_bind. split.
    - intros ([k a] & Hin & [Hid Hk]%list_elem_of_filter). apply elem_of_map_iter in Hk. apply elem_of_pending_tokens in Hin as (d & t & ? & ? & ?).
      eauto 10.
    - intros (k & a & d & t & Hk & Hid & Hd & Hp & Ht). exists (k, a). split; [apply elem_of_pending_tokens; eauto|].
      apply list_elem_of_filter. split; [done|]. by apply elem_of_map_iter. }
  split.
  - apply (shape_agree _ s); [done| |by apply agree_refl|].
    + intros k. cbn [accounts set_pending set_accounts]. rewrite lookup_fmap. destruct (accounts s !! k) as [a|] eqn:Hk; constructor.
      destruct (Hseal k a Hk) as (_ & [Ec _] & Ea & _). split; [done|]. by rewrite Ea.
    + cbn [accounts channels set_pending set_accounts]. intros k a' c1 Hk Hon Hc1. rewrite lookup_fmap in Hk.
      destruct (accounts s !! k) as [a|] eqn:Hk0; [|done]. injection Hk as <-. destruct (Hseal k a Hk0) as (_ & [Ec _] & Ea & _).
      rewrite Ea in Hon. rewrite Ec in Hc1. destruct (sh_home _ _ Hsh k a Hk0) as (c2 & Hc2 & _ & _ & Hact). simplify_eq. auto.
  - apply (tries_settle _ s); [done| |by eauto| |apply size_foldl_delete|done|done].
    + cbn [accounts set_pending set_accounts]. intros k a' Hk. rewrite lookup_fmap in Hk. destruct (accounts s !! k) as [a|] eqn:Hk0; [|done].
      injection Hk as <-. destruct (Hseal k a Hk0) as (H1 & H2 & _). eauto.
    + cbn [accounts pending set_pending set_accounts]. intros tok i d. rewrite lookup_foldl_delete.
      destruct (decide (tok ∈ toks)) as [Hin|Hni].
      * split; [done|]. intros (a' & t & Hk & Hd & Ht & Hp). exfalso. rewrite lookup_fmap in Hk.
        destruct (accounts s !! i) as [a|] eqn:Hk0; [|done]. injection Hk as <-.
        destruct (Hseal i a Hk0) as (_ & _ & _ & _ & _ & Hpend). destruct (Hpend d t Hd Hp) as [Hno Hd0].
        apply Htoks in Hin as (k2 & a2 & d2 & t2 & Hk2 & Hid2 & Hd2 & _ & Ht2).
        destruct (tr_tokens _ _ Htr i a d t k2 a2 d2 t2) as [-> _]; try done; [congruence|]. by simplify_eq.
      * rewrite (tr_pending _ _ Htr). split; intros (a & t & Hk & Hd & Ht & Hp).
        -- assert (channel_id (contract a) ≠ id) as Hno.
           { intros Hid. apply Hni, Htoks. eauto 10. }
           exists a, t. rewrite lookup_fmap, Hk. cbn. unfold seal_if. by rewrite bool_decide_false.
        -- rewrite lookup_fmap in Hk. destruct (accounts s !! i) as [a0|] eqn:Hk0; [|done]. injection Hk as <-.
           destruct (Hseal i a0 Hk0) as (_ & _ & _ & _ & _ & Hpend). destruct (Hpend d t Hd Hp) as [_ Hd0]. by exists a0, t.
  - assert (∀ f k, (∀ k a, accounts s !! k = Some a → f (usage (seal_if id a)) = f (usage a)) →
      booked f k (seal_if id <$> accounts s) = booked f k (accounts s)) as Hb.
    { intros f k Hf. apply booked_fmap. intros i a Ha. split; [by destruct (Hseal i a Ha) as (_ & [? _] & _)|by eapply Hf]. }
    destruct Hmo as [Hp Hcp Hg Hl Hr Hs]. split; cbn [accounts channels set_pending set_accounts]; intros k c1 Hk;
      rewrite ?Hb by (intros i a Ha; by destruct (Hseal i a Ha) as (_ & _ & _ & ? & ? & _)); eauto.
  - done.
Qed.

End seal.

(** ** Retiring closed contracts *)

(** [r'] is [r] with contracts that expired by [through] folded in, which cost
    [dr] reserved and [ds] submitted. *)
Record grown (expires through : Z) (r r' : RetiredRouteEvidence) (dr ds : Z) : Prop := {
  gr_ok : retired_ok r' expires;
  gr_reserved : retired_reserved_msat r' = retired_reserved_msat r + dr;
  gr_submitted : retired_submitted_msat r' = retired_submitted_msat r + ds;
  gr_rejects : ∀ e, through < e → RetiredRoutes.rejects r e = false → RetiredRoutes.rejects r' e = false
}.

Lemma grown_refl expires through r : retired_ok r expires → grown expires through r r 0 0.
Proof. intros. split; auto; lia. Qed.

Lemma grown_trans expires through r1 r2 r3 dr ds dr' ds' :
  grown expires through r1 r2 dr ds → grown expires through r2 r3 dr' ds' → grown expires through r1 r3 (dr + dr') (ds + ds').
Proof. intros [H1 H2 H3 H4] [G1 G2 G3 G4]. split; auto; lia. Qed.

Lemma valid_through r expires : RetiredRoutes.valid r expires = true → 0 ≤ expires →
  through_unix r ≤ expires ∧ (contracts r = 0 → through_unix r = 0)
  ∧ reserved_units (retired_units r) = submitted_units (retired_units r) + unconfirmed_units (retired_units r)
  ∧ retired_submitted_msat r ≤ retired_reserved_msat r.
Proof.
  unfold RetiredRoutes.valid. destruct (Z.eqb_spec (contracts r) 0) as [E|E].
  - intros ->%bool_decide_eq_true ?. by cbn.
  - rewrite !andb_true_iff, bool_decide_eq_true, !Z.leb_le. intros [[? ?%checked_add_some] ?] ?. split_and!; lia.
Qed.

Lemma add_usage_some u v w : RetiredRoutes.add_usage u v = Some w →
  w = mkUsage (reserved_units u + reserved_units v) (submitted_units u + submitted_units v)
        (unconfirmed_units u + unconfirmed_units v)
  ∧ reserved_units u + reserved_units v ≤ U64_MAX.
Proof.
  unfold RetiredRoutes.add_usage. intros H. destruct (checked_add (reserved_units u) _) eqn:E1; [|done].
  destruct (checked_add (submitted_units u) _) eqn:E2; [|done]. cbn in H.
  destruct (checked_add (unconfirmed_units u) _) eqn:E3; [|done]. cbn in H. simplify_eq.
  apply checked_add_some in E1 as [-> ?], E2 as [-> _], E3 as [-> _]. done.
Qed.

Lemma added_grown expires through r c u r' : retired_ok r expires → 0 ≤ expires →
  0 ≤ expires_unix c ≤ through → expires_unix c ≤ expires → 1 ≤ per_bytes (price c) → 0 ≤ msat (price c) →
  0 ≤ submitted_units u → 0 ≤ unconfirmed_units u → reserved_units u = submitted_units u + unconfirmed_units u →
  RetiredRoutes.added r c u = Some r' →
  grown expires through r r' (due (price c) (reserved_units u)) (due (price c) (submitted_units u)).
Proof.
  intros (Hv & Ht & Hn & Hs & Hu & Hms & Hmr) He Hex Hexp Hper Hmsat Hus Huu Hur Hadd.
  destruct (valid_through r expires Hv He) as (Hth & Hz & Hru & Hle).
  unfold RetiredRoutes.added in Hadd. destruct (checked_add (contracts r) 1) as [n|] eqn:E1; [|done].
  destruct (RetiredRoutes.add_usage _ _) as [us|] eqn:E2; [|done]. cbn in Hadd.
  destruct (amount_due_msat (price c) (reserved_units u)) as [dr|] eqn:E3; [|done]. cbn in Hadd.
  destruct (checked_add (retired_reserved_msat r) dr) as [mr|] eqn:E4; [|done]. cbn in Hadd.
  destruct (amount_due_msat (price c) (submitted_units u)) as [ds|] eqn:E5; [|done]. cbn in Hadd.
  destruct (checked_add (retired_submitted_msat r) ds) as [ms|] eqn:E6; [|done]. cbn in Hadd. injection Hadd as <-.
  apply checked_add_some in E1 as [-> _], E4 as [-> _], E6 as [-> _]. apply add_usage_some in E2 as [-> Hb].
  apply amount_due_some in E3 as (-> & _), E5 as (-> & _).
  assert (due (price c) (submitted_units u) ≤ due (price c) (reserved_units u)) by (apply due_mono; lia).
  assert (0 ≤ due (price c) (submitted_units u)) by (rewrite <- (due_0 (price c) Hper); apply due_mono; lia).
  split; cbn; [|done|done|].
  - split_and!; cbn; try lia. unfold RetiredRoutes.valid. cbn. rewrite (proj2 (Z.eqb_neq _ 0)) by lia.
    rewrite !andb_true_iff, bool_decide_eq_true, !Z.leb_le, checked_add_ok by lia. split_and!; [lia|f_equal; lia|lia].
  - intros e Hlt. unfold RetiredRoutes.rejects. cbn. rewrite !andb_false_iff, !negb_false_iff, !Z.eqb_eq, !Z.leb_gt.
    intros Hr. right. destruct Hr; [rewrite Hz by done|]; lia.
Qed.

Section retire.
Context (ord : Orders) (limits : Limits).
Import RelayLedger.

Definition retires (id : string) (through : Z) (a : Account) : bool :=
  bool_decide (channel_id (contract a) = id) && (expires_unix (contract a) <=? through).

Definition retired_due (f : Usage → Z) (id : string) (through : Z) (l : list (string * Account)) : Z :=
  foldr (λ ka n, (if retires id through ka.2 then due (price (contract ka.2)) (f (usage ka.2)) else 0) + n) 0 l.

(** What retiring needs to know of an account. *)
Definition retirable (expires : Z) (a : Account) : Prop :=
  priced (contract a) ∧ expires_unix (contract a) ≤ expires ∧ 0 ≤ submitted_units (usage a)
  ∧ 0 ≤ unconfirmed_units (usage a)
  ∧ (attempts a = ∅ → reserved_units (usage a) = submitted_units (usage a) + unconfirmed_units (usage a)).

Lemma retire_accounts_spec id through expires l p : 0 ≤ expires → retired_ok p.2 expires →
  (∀ k a, (k, a) ∈ l → channel_id (contract a) = id → retirable expires a) →
  match retire_accounts id through p l with
  | Ok p' => p'.1 = p.1 ++ (contract ∘ snd <$> filter (λ ka, retires id through ka.2 = true) l)
      ∧ grown expires through p.2 p'.2 (retired_due reserved_units id through l) (retired_due submitted_units id through l)
      ∧ (∀ k a, (k, a) ∈ l → retires id through a = true → attempts a = ∅)
  | Err _ => True | Panic => False end.
Proof.
  intros He. revert p. induction l as [|[k a] l IH]; intros p Hok Hl; cbn [retire_accounts].
  { split_and!; [by rewrite app_nil_r|by apply grown_refl|]. intros k a []%elem_of_nil. }
  assert (∀ k a, (k, a) ∈ l → channel_id (contract a) = id → retirable expires a) as Hl'.
  { intros k' a' Hin. apply (Hl k'). by right. }
  fold (retires id through a). cbn [retired_due foldr snd]. fold (retired_due reserved_units id through l) (retired_due submitted_units id through l).
  destruct (retires id through a) eqn:Hr.
  - destruct (account_active a || _ || _) eqn:Hg; [done|]. destruct (RetiredRoutes.added _ _ _) as [r|] eqn:Hadd; [|done].
    repeat (apply orb_false_elim in Hg as [Hg ?]). rewrite negb_false_iff, bool_decide_eq_true, map_size_empty_iff in *.
    pose proof Hr as [Hid%bool_decide_eq_true Hth%Z.leb_le]%andb_prop.
    destruct (Hl k a) as (Hp & Hexp & H1 & H2 & H3); [by left|done|]. destruct Hp as [(Hu & _) Hper Hms _ _].
    pose proof (added_grown expires through p.2 (contract a) (usage a) r Hok He) as Hgr. unfold is_u64 in Hu.
    specialize (Hgr ltac:(lia) Hexp Hper ltac:(lia) H1 H2 (H3 ltac:(done)) Hadd).
    specialize (IH (p.1 ++ [contract a], r) (gr_ok _ _ _ _ _ _ Hgr) Hl').
    destruct (retire_accounts _ _ _ l) as [p'| |]; [|done|done]. destruct IH as (Ep & Hg' & Hat). cbn [fst snd] in *. split_and!.
    + rewrite filter_cons_True by done. cbn. by rewrite Ep, <- app_assoc.
    + by eapply grown_trans.
    + intros k' a' [Heq|Hin]%elem_of_cons; [by simplify_eq|by eapply Hat].
  - specialize (IH p Hok Hl'). destruct (retire_accounts _ _ _ l) as [p'| |]; [|done|done]. destruct IH as (Ep & Hg' & Hat). split_and!.
    + rewrite filter_cons_False by (cbn; congruence). done.
    + rewrite !Z.add_0_l. done.
    + intros k' a' [Heq|Hin]%elem_of_cons; [simplify_eq; congruence|by eapply Hat].
Qed.

Lemma validate_contract_total c t : validate_contract c t ≠ Panic.
Proof. unfold validate_contract. by destruct (_ || _). Qed.

Lemma retire_uninstalled_spec s id t through before ids l p : 0 ≤ terms_expires_unix t → retired_ok p.2 (terms_expires_unix t) →
  Forall contract_ok l →
  match retire_uninstalled s id t through before ids p l with
  | Ok p' => grown (terms_expires_unix t) through p.2 p'.2 0 0
      ∧ ∃ cs, p'.1 = p.1 ++ cs ∧ Forall (λ c, accounts s !! contract_id c = None) cs
  | Err _ => True | Panic => False end.
Proof.
  intros He. revert ids p. induction l as [|c l IH]; intros ids p Hok Hl; cbn [retire_uninstalled].
  { split; [by apply grown_refl|]. exists []. by rewrite app_nil_r. }
  apply Forall_cons in Hl as [Hc Hl]. pose proof (validate_contract_total c t) as Htot.
  destruct (validate_contract c t) as [[]| |] eqn:Hv; cbn [mbind outcome_bind]; [|done|done].
  apply (validate_contract_priced c t Hc) in Hv as (Hp & _ & Hexp). destruct Hp as [(Hu & _) Hper Hms _ _].
  destruct (negb _ || _ || _ || _ || _) eqn:Hg; [done|]. repeat (apply orb_false_elim in Hg as [Hg ?]).
  rewrite bool_decide_eq_false, <- eq_None_not_Some, Z.ltb_ge in *. destruct (RetiredRoutes.rejects before _); [by apply IH|].
  destruct (RetiredRoutes.added p.2 c no_usage) as [r|] eqn:Hadd; [|done]. unfold is_u64 in Hu.
  pose proof (added_grown (terms_expires_unix t) through p.2 c no_usage r Hok He ltac:(lia) Hexp Hper ltac:(lia)
    ltac:(cbn; lia) ltac:(cbn; lia) ltac:(cbn; lia) Hadd) as Hgr. cbn in Hgr. rewrite due_0 in Hgr by done.
  specialize (IH ({[contract_id c]} ∪ ids) (p.1 ++ [c], r) (gr_ok _ _ _ _ _ _ Hgr) Hl).
  destruct (retire_uninstalled _ _ _ _ _ _ _ l) as [p'| |]; [|done|done]. destruct IH as (Hg' & cs & Ep & Hcs). cbn [fst snd] in *. split.
  - by apply (grown_trans _ _ _ _ _ 0 0 0 0 Hgr).
  - exists (c :: cs). rewrite Ep, <- app_assoc. split; [done|]. by constructor.
Qed.

End retire.

Section retire_state.
Context (ord : Orders) (limits : Limits).
Import RelayLedger.

Lemma lookup_foldl_delete_by {A V} (f : A → string) (l : list A) (m : gmap string V) k :
  foldl (λ m c, delete (f c) m) m l !! k = if decide (k ∈ f <$> l) then None else m !! k.
Proof.
  revert m. induction l as [|t l IH]; intros m; cbn [foldl fmap list_fmap]; [by rewrite decide_False by apply not_elem_of_nil|].
  rewrite IH. destruct (decide (k ∈ f <$> l)) as [Hin|Hni]; [rewrite decide_True by (by right); done|].
  destruct (decide (k = f t)) as [->|Hne].
  - rewrite decide_True by left. apply lookup_delete_eq.
  - rewrite decide_False by (by rewrite elem_of_cons; intros [?|?]). by rewrite lookup_delete_ne.
Qed.

Definition staying (id : string) (through : Z) (m : gmap string Account) : gmap string Account :=
  filter (λ ka, retires id through ka.2 = false) m.

Lemma lookup_staying id through m k a : staying id through m !! k = Some a ↔ m !! k = Some a ∧ retires id through a = false.
Proof. unfold staying. by rewrite map_lookup_filter_Some. Qed.

Lemma booked_staying f id through k m : booked f k (staying id through m)
  = booked f k m - (if bool_decide (k = id) then retired_due f id through (map_iter (accounts_order ord) m) else 0).
Proof.
  unfold retired_due. rewrite <- (map_sum_iter (λ _ a, if retires id through a then due (price (contract a)) (f (usage a)) else 0)).
  unfold booked, staying. rewrite map_sum_filter.
  case_bool_decide as Hk; [|rewrite Z.sub_0_r].
  - apply Z.add_move_r. rewrite <- map_sum_add. apply map_sum_ext. intros k' a _. cbn. unfold retires. subst.
    repeat case_bool_decide; destruct (_ <=? _); repeat case_decide; cbn in *; try done; lia.
  - apply map_sum_ext. intros k' a _. cbn. unfold retires.
    repeat case_bool_decide; destruct (_ <=? _); repeat case_decide; cbn in *; try done; congruence.
Qed.

Lemma accounts_retirable s id c : shape limits s → tries limits s → channels s !! id = Some c →
  ∀ k a, (k, a) ∈ map_iter (accounts_order ord) (accounts s) → channel_id (contract a) = id →
  retirable (terms_expires_unix (terms c)) a.
Proof.
  intros Hsh Htr Hid k a Hin Ha. apply elem_of_map_iter in Hin. destruct (sh_home _ _ Hsh k a Hin) as (c' & Hc' & Hv & _).
  rewrite Ha, Hid in Hc'. injection Hc' as <-. destruct (sh_account _ _ Hsh k a Hin) as [_ Hcok].
  destruct (validate_contract_priced _ _ Hcok Hv) as (Hp & _ & He).
  pose proof (ao_parts (tr_account _ _ Htr k a Hin)) as (? & ? & Er & _).
  split_and!; try done; try lia. intros Ee. rewrite Ee, units_in_empty in Er. lia.
Qed.

(** What a retirement makes of the state. *)
Lemma retire_routes_spec s id through l : books limits s → Forall contract_ok l →
  match retire_closed_routes_with_uninstalled ord limits s id through l with
  | Ok (s', _) => ∃ c r, channels s !! id = Some c
      ∧ s' = mkState (history s) (seen s) (<[id := mkChannel (terms c) r (channel_usage c) (channel_active c)]> (channels s))
               (staying id through (accounts s)) (pending s) (next_token s)
      ∧ grown (terms_expires_unix (terms c)) through (retired c) r
          (retired_due reserved_units id through (map_iter (accounts_order ord) (accounts s)))
          (retired_due submitted_units id through (map_iter (accounts_order ord) (accounts s)))
      ∧ (∀ k a, accounts s !! k = Some a → retires id through a = true → attempts a = ∅)
  | Err _ => True | Panic => False end.
Proof.
  intros [Hsh Htr Hmo _] Hl. unfold retire_closed_routes_with_uninstalled. destruct (max_contracts limits <? _); [done|].
  unfold retirement_plan_with_uninstalled. cbn [channels set_accounts]. destruct (channels s !! id) as [c|] eqn:Hid; [|done].
  destruct (sh_channel _ _ Hsh id c Hid) as (_ & (Hexp & _) & _ & Hrok). unfold is_u64 in Hexp.
  set (it := map_iter (accounts_order ord) (accounts s)).
  pose proof (retire_accounts_spec id through (terms_expires_unix (terms c)) it ([], retired c) ltac:(lia) Hrok
    (accounts_retirable s id c Hsh Htr Hid)) as Hra.
  destruct (retire_accounts _ _ _ it) as [p| |]; cbn [mbind outcome_bind]; [|done|done].
  destruct Hra as (Ep & Hg1 & Hat). cbn [fst app] in Ep.
  pose proof (retire_uninstalled_spec s id (terms c) through (retired c) ∅ l p ltac:(lia) (gr_ok _ _ _ _ _ _ Hg1) Hl) as Hru.
  destruct (retire_uninstalled _ _ _ _ _ _ _ l) as [p'| |]; cbn [mbind outcome_bind]; [|done|done].
  destruct Hru as (Hg2 & cs & Ep' & Hcs). cbn [rp_contracts rp_after].
  exists c, p'.2. split_and!; [done| | |].
  - unfold set_channels, set_accounts. cbn. f_equal. apply map_eq. intros k. rewrite (lookup_foldl_delete_by contract_id).
    apply option_eq. intros a. rewrite lookup_staying. case_decide as Hin; rewrite Ep', Ep, fmap_app, elem_of_app in Hin; split.
    + done.
    + intros [Hk Hr]. exfalso. destruct Hin as [Hin|Hin].
      * rewrite <- list_fmap_compose in Hin. apply list_elem_of_fmap in Hin as ([k' a'] & -> & [Hr' Hin]%list_elem_of_filter).
        apply elem_of_map_iter in Hin. cbn in *. destruct (sh_account _ _ Hsh k' a' Hin) as [E _]. rewrite E in Hk. congruence.
      * apply list_elem_of_fmap in Hin as (c' & -> & Hin). rewrite Forall_forall in Hcs. rewrite (Hcs c' Hin) in Hk. done.
    + intros Hk. split; [done|]. destruct (retires id through a) eqn:Hr; [|done]. exfalso. apply Hin. left.
      rewrite <- list_fmap_compose. apply list_elem_of_fmap. exists (k, a). split.
      * cbn. by destruct (sh_account _ _ Hsh k a Hk).
      * apply list_elem_of_filter. split; [done|]. by apply elem_of_map_iter.
    + by intros [? _].
  - pose proof (grown_trans _ _ _ _ _ _ _ _ _ Hg1 Hg2) as Hg. by rewrite !Z.add_0_r in Hg.
  - intros k a Hk. apply (Hat k). by apply elem_of_map_iter.
Qed.

End retire_state.

Section retire_books.
Context (ord : Orders) (limits : Limits).
Import RelayLedger.

Lemma staying_size id through m : (size (staying id through m) ≤ size m)%nat.
Proof. apply map_subseteq_size, map_filter_subseteq. Qed.

Lemma retire_routes_books s id through l : books limits s → Forall contract_ok l →
  match retire_closed_routes_with_uninstalled ord limits s id through l with
  | Ok (s', _) => books limits s' | Err _ => True | Panic => False end.
Proof.
  intros Hbk Hl. pose proof (retire_routes_spec ord limits s id through l Hbk Hl) as Hspec.
  destruct (retire_closed_routes_with_uninstalled _ _ _ _ _ _) as [[s' n]| |]; [|done|done].
  destruct Hspec as (c & r & Hid & -> & [Hok Er Es Hrej] & Hat). destruct Hbk as [Hsh Htr Hmo Hhi].
  set (c' := mkChannel _ r _ _).
  assert (∀ k x, <[id := c']> (channels s) !! k = Some x → ∃ y, channels s !! k = Some y ∧ terms x = terms y
    ∧ channel_usage x = channel_usage y ∧ channel_active x = channel_active y
    ∧ retired x = if bool_decide (k = id) then r else retired y) as Hch.
  { intros k x. destruct (decide (k = id)) as [->|Hne].
    - rewrite lookup_insert_eq. intros [= <-]. exists c. rewrite bool_decide_true by done. done.
    - rewrite lookup_insert_ne by done. rewrite bool_decide_false by done. eauto 10. }
  split; cbn.
  - destruct Hsh as [Hc Ha Hh H1c H1a [Hs1 Hs2]]. split; cbn [accounts channels].
    + intros k x Hk. destruct (Hch k x Hk) as (y & Hy & -> & _ & _ & ->). destruct (Hc k y Hy) as (? & ? & ? & ?).
      split_and!; try done. case_bool_decide; [by simplify_eq|done].
    + intros k a [Hk _]%lookup_staying. eauto.
    + intros k a [Hk Hr]%lookup_staying. destruct (Hh k a Hk) as (y & Hy & Hv & Hrj & Hact).
      destruct (decide (channel_id (contract a) = id)) as [Heq|Hne].
      * exists c'. rewrite Heq, lookup_insert_eq. rewrite Heq, Hid in Hy. injection Hy as <-. split_and!; try done.
        apply Hrej; [|done]. unfold retires in Hr. rewrite bool_decide_true in Hr by done. by apply Z.leb_gt in Hr.
      * exists y. by rewrite lookup_insert_ne.
    + intros k x k' x' Hk Hk'. destruct (Hch k x Hk) as (y & Hy & -> & _ & -> & _), (Hch k' x' Hk') as (y' & Hy' & -> & _ & -> & _). eauto.
    + intros k a x k' a' x' [Hk _]%lookup_staying [Hk' _]%lookup_staying Hon Hon' Hx Hx'.
      destruct (Hch _ x Hx) as (y & Hy & -> & _), (Hch _ x' Hx') as (y' & Hy' & -> & _). eauto.
    + rewrite map_size_insert_Some by eauto. pose proof (staying_size id through (accounts s)). lia.
  - apply (tries_settle _ s); try done; cbn [accounts channels pending].
    + intros k a [Hk _]%lookup_staying. exists a. split_and!; [done| |by eapply (tr_account _ _ Htr)]. split; [done|]. eauto.
    + intros k x Hk. destruct (Hch k x Hk) as (y & Hy & E & _). eauto.
    + intros tok i d. rewrite (tr_pending _ _ Htr). split; intros (a & t & Hk & Hd & Ht).
      * exists a, t. split; [|done]. apply lookup_staying. split; [done|]. destruct (retires id through a) eqn:Hr; [|done].
        by rewrite (Hat i a Hk Hr) in Hd.
      * apply lookup_staying in Hk as [Hk _]. eauto.
  - destruct Hmo as [Hp Hcp Hg Hlo Hr Hs]. split; cbn [accounts channels]; intros k x Hk;
      destruct (Hch k x Hk) as (y & Hy & Et & Eu & _ & Ere); rewrite ?Et, ?Eu; eauto;
      rewrite Ere, (booked_staying ord); [rewrite (Hr k y Hy)|rewrite (Hs k y Hy)];
      case_bool_decide; simplify_eq; rewrite ?Er, ?Es; lia.
  - done.
Qed.

End retire_books.

(** ** Retiring channels into the history *)

(** What a buyer owes at a mint: in a list of debts, on a channel snapshot, and
    altogether. *)
Definition debt_sum (who : NodeAddr) (mint : string) (ds : list Debt) : Z :=
  foldr (λ d n, (if bool_decide (debt_key d = (who, mint)) then debt_msat d else 0) + n) 0 ds.

Definition snapshot_owed (who : NodeAddr) (mint : string) (c : ChannelSnapshot) : Z :=
  if bool_decide (buyer (cs_terms c) = who ∧ mint_url (cs_terms c) = mint)
  then sat_sub (reserved_msat (cs_usage c)) (paid_msat (cs_usage c)) else 0.

Definition party_owed (who : NodeAddr) (mint : string) (c : Channel) : Z :=
  if bool_decide (buyer (terms c) = who ∧ mint_url (terms c) = mint) then owed c else 0.

Definition exposure (s : State) (who : NodeAddr) (mint : string) : Z :=
  debt_sum who mint (debts (default Histories.default (history s))) + map_sum (λ _ c, party_owed who mint c) (channels s).

Lemma owes_key t d : Histories.owes t d = bool_decide (debt_key d = (buyer t, mint_url t)).
Proof.
  unfold Histories.owes, debt_key. destruct (Z.eqb_spec (debt_buyer d) (buyer t)); cbn; repeat case_bool_decide; congruence.
Qed.

Lemma debt_sum_absent who mint ds : (who, mint) ∉ debt_key <$> ds → debt_sum who mint ds = 0.
Proof.
  induction ds as [|d ds IH]; [done|]. cbn. rewrite not_elem_of_cons. intros [Hne Hni].
  rewrite bool_decide_false by congruence. by apply IH.
Qed.

Lemma history_debt_sum h t : NoDup (debt_key <$> debts h) →
  Histories.debt h t = debt_sum (buyer t) (mint_url t) (debts h).
Proof.
  unfold Histories.debt. induction (debts h) as [|d ds IH]; [done|]. cbn [fmap list_fmap]. rewrite NoDup_cons. intros [Hni Hnd].
  cbn [debt_sum foldr]. fold (debt_sum (buyer t) (mint_url t) ds). destruct (Histories.owes t d) eqn:Ho.
  - rewrite filter_cons_True by done. rewrite owes_key, bool_decide_eq_true in Ho.
    rewrite bool_decide_true by done. rewrite debt_sum_absent; [lia|]. by rewrite <- Ho.
  - rewrite filter_cons_False by congruence. rewrite owes_key, bool_decide_eq_false in Ho. by rewrite bool_decide_false, IH.
Qed.

Lemma debt_sum_perm who mint ds ds' : ds ≡ₚ ds' → debt_sum who mint ds = debt_sum who mint ds'.
Proof. induction 1; cbn; unfold debt_sum in *; lia. Qed.

Lemma insert_debt_perm d l : Histories.insert_debt d l ≡ₚ d :: l.
Proof. induction l as [|x l IH]; cbn; [done|]. destruct (Histories.debt_leb d x); [done|]. rewrite IH. by constructor. Qed.

Lemma sort_debts_perm l : Histories.sort_debts l ≡ₚ l.
Proof. induction l as [|x l IH]; cbn; [done|]. fold (Histories.sort_debts l). by rewrite insert_debt_perm, IH. Qed.

Lemma debt_sum_app who mint a b : debt_sum who mint (a ++ b) = debt_sum who mint a + debt_sum who mint b.
Proof. induction a as [|d a IH]; cbn; [done|]. unfold debt_sum in *. lia. Qed.

Lemma add_ok a b c : Ledger.add a b = Ok c → c = a + b.
Proof. unfold Ledger.add. destruct (checked_add a b) eqn:E; intros; simplify_eq. by apply checked_add_some in E as [-> _]. Qed.

Lemma raise_debt_sum who mint t msat ds : existsb (Histories.owes t) ds = true →
  match Histories.raise_debt t msat ds with
  | Ok ds' => debt_sum who mint ds' = debt_sum who mint ds + if bool_decide (buyer t = who ∧ mint_url t = mint) then msat else 0
  | Err _ => True | Panic => False end.
Proof.
  induction ds as [|d ds IH]; cbn [Histories.raise_debt existsb]; [done|]. destruct (Histories.owes t d) eqn:Ho; cbn [orb].
  - intros _. unfold Ledger.add. destruct (checked_add (debt_msat d) msat) as [m|] eqn:E; [|done].
    apply checked_add_some in E as [-> _]. cbn. rewrite owes_key, bool_decide_eq_true in Ho. unfold debt_key in *. cbn.
    destruct d as [b mi x]. cbn in *. simplify_eq. repeat case_bool_decide; naive_solver lia.
  - intros Hex. specialize (IH Hex). destruct (Histories.raise_debt t msat ds) as [ds'| |]; [|done|done].
    cbn. unfold debt_sum in *. lia.
Qed.

Lemma added_debts_sum who mint ds t msat : match Histories.added_debts ds t msat with
  | Ok ds' => debt_sum who mint ds' = debt_sum who mint ds + if bool_decide (buyer t = who ∧ mint_url t = mint) then msat else 0
  | Err _ => True | Panic => False end.
Proof.
  unfold Histories.added_debts. destruct (Z.eqb_spec msat 0) as [->|_]; [case_bool_decide; lia|].
  destruct (existsb _ ds) eqn:He; [by apply raise_debt_sum|].
  rewrite (debt_sum_perm _ _ _ _ (sort_debts_perm _)), debt_sum_app. cbn. unfold debt_key. cbn.
  repeat case_bool_decide; naive_solver lia.
Qed.

Lemma added_debt_sum who mint h c : match Histories.added h c with
  | Ok h' => debt_sum who mint (debts h') = debt_sum who mint (debts h) + snapshot_owed who mint c
  | Err _ => True | Panic => False end.
Proof.
  unfold Histories.added, Ledger.add.
  repeat (match goal with |- context [checked_add ?a ?b] => destruct (checked_add a b); cbn [mbind outcome_bind]; [|done] end).
  destruct (cs_retired c); [|done]. destruct (RetiredRoutes.merged _ _); [|done].
  pose proof (added_debts_sum who mint (debts h) (cs_terms c) (sat_sub (reserved_msat (cs_usage c)) (paid_msat (cs_usage c)))) as H.
  by destruct (Histories.added_debts _ _ _).
Qed.

Definition snapshot_ids (cs : list ChannelSnapshot) : list string := (λ c, terms_id (cs_terms c)) <$> cs.

Definition owed_sum (who : NodeAddr) (mint : string) (cs : list ChannelSnapshot) : Z :=
  foldr (λ c n, snapshot_owed who mint c + n) 0 cs.

Lemma validate_channels_spec who mint ids h cs : match Histories.validate_channels ids h cs with
  | Ok h' => debt_sum who mint (debts h') = debt_sum who mint (debts h) + owed_sum who mint cs
      ∧ NoDup (snapshot_ids cs) ∧ (∀ k, k ∈ snapshot_ids cs → k ∉ ids)
  | Err _ => True | Panic => False end.
Proof.
  revert ids h. induction cs as [|c cs IH]; intros ids h; cbn [Histories.validate_channels].
  { split_and!; [cbn; lia|constructor|]. by intros k []%elem_of_nil. }
  assert (validate_channel (cs_terms c) ≠ Panic) as Hp by (unfold validate_channel; destruct (checked_mul _ _); [by destruct (_ || _)|done]).
  destruct (validate_channel (cs_terms c)) as [cap| |]; cbn [mbind outcome_bind]; [|done|done].
  destruct (cs_retired c); [|done]. destruct (cs_active c || _ || _ || _ || _ || _ || _ || _) eqn:Hg; [done|].
  repeat (apply orb_false_elim in Hg as [Hg ?]).
  pose proof (added_debt_sum who mint h c) as Ha. destruct (Histories.added h c) as [h1| |]; cbn [mbind outcome_bind]; [|done|done].
  specialize (IH ({[terms_id (cs_terms c)]} ∪ ids) h1). destruct (Histories.validate_channels _ h1 cs) as [h2| |]; [|done|done].
  destruct IH as (E & Hnd & Hni). split_and!.
  - cbn. unfold owed_sum in E. lia.
  - cbn. constructor; [|done]. intros Hin. apply (Hni _ Hin). set_solver.
  - intros k [->|Hin]%elem_of_cons; [by eapply bool_decide_eq_false_1|]. specialize (Hni k Hin). set_solver.
Qed.

Lemma sum_debts_nodup seen sum ds d : Histories.sum_debts seen sum ds = Some d →
  NoDup (debt_key <$> ds) ∧ ∀ k, k ∈ debt_key <$> ds → k ∉ seen.
Proof.
  revert seen sum. induction ds as [|x ds IH]; intros seen sum; cbn [Histories.sum_debts].
  { intros _. split; [constructor|]. by intros k []%elem_of_nil. }
  destruct (_ || _) eqn:Hg; [done|]. destruct (checked_add _ _) as [y|]; [|done]. cbn [mbind option_bind]. intros [Hnd Hni]%IH.
  apply orb_false_elim in Hg as [_ Hx%bool_decide_eq_false]. cbn. split.
  - constructor; [|done]. intros Hin. apply (Hni _ Hin). unfold debt_key. set_solver.
  - intros k [->|Hin]%elem_of_cons; [done|]. specialize (Hni k Hin). set_solver.
Qed.

Lemma valid_nodup h n : Histories.valid h n = true → NoDup (debt_key <$> debts h).
Proof.
  unfold Histories.valid. destruct (history_channels h =? 0); [intros ->%bool_decide_eq_true; constructor|].
  intros [_ Hs]%andb_prop. destruct (Histories.sum_debts ∅ 0 (debts h)) eqn:E; [|done]. by apply sum_debts_nodup in E as [? _].
Qed.

Section retire_channels.
Context (ord : Orders) (limits : Limits).
Import RelayLedger.

Lemma has_account_false s id : has_account ord s id = false → ∀ k a, accounts s !! k = Some a → channel_id (contract a) ≠ id.
Proof.
  unfold has_account. intros He k a Hk Hid.
  assert (existsb (λ ka : string * Account, bool_decide (channel_id (contract ka.2) = id))
    (map_iter (accounts_order ord) (accounts s)) = true) as Ht; [|congruence].
  apply existsb_exists. exists (k, a). split; [apply list_elem_of_In; by apply elem_of_map_iter|]. by apply bool_decide_eq_true.
Qed.

(** The channels of a plan are the closed ones it was made from. *)
Definition planned (s : State) (c : ChannelSnapshot) : Prop :=
  ∃ st, channels s !! terms_id (cs_terms c) = Some st ∧ terms st = cs_terms c ∧ channel_usage st = cs_usage c
    ∧ channel_active st = false ∧ Some (retired st) = cs_retired c
    ∧ ∀ k a, accounts s !! k = Some a → channel_id (contract a) ≠ terms_id (cs_terms c).

Definition retired_state (s : State) (plan : Plan) : State :=
  mkState (Some (after plan)) (seen s)
    (foldl (λ m c, delete (terms_id (cs_terms c)) m) (channels s) (plan_channels plan))
    (accounts s) (pending s) (next_token s).

Lemma retire_channels_spec s plan :
  match retire_channels ord limits s plan with
  | Ok (s', false) => s' = s
  | Ok (s', true) => s' = retired_state s plan ∧ Forall (planned s) (plan_channels plan)
      ∧ NoDup (snapshot_ids (plan_channels plan)) ∧ Histories.valid (after plan) (max_channels limits) = true
      ∧ ∀ who mint, debt_sum who mint (debts (after plan))
          = debt_sum who mint (debts (default Histories.default (history s))) + owed_sum who mint (plan_channels plan)
  | Err _ => True | Panic => False end.
Proof.
  unfold retire_channels, Histories.validate.
  pose proof (λ who mint, validate_channels_spec who mint ∅ (before plan) (plan_channels plan)) as Hv.
  destruct (Histories.validate_channels _ _ _) as [h| |]; cbn [mbind outcome_bind]; [|done|by apply (Hv 0 EmptyString)].
  destruct ((_ =? 0) || _ || _ || _ || _) eqn:Hg; cbn [mbind outcome_bind]; [done|]. repeat (apply orb_false_elim in Hg as [Hg ?]).
  rewrite ?negb_false_iff, ?bool_decide_eq_true in *. subst h. destruct (bool_decide _ && _); [done|].
  destruct (negb (bool_decide (default _ _ = _)) || _) eqn:Hex; [done|].
  apply orb_false_elim in Hex as [Hb%negb_false_iff%bool_decide_eq_true Hex]. split_and!; [done| |by destruct (Hv 0 EmptyString) as (_ & ? & _)|done|].
  - apply Forall_forall. intros c Hin.
    destruct (match channels s !! terms_id (cs_terms c) with
               | None => true
               | Some st => channel_active st || negb (bool_decide (terms st = cs_terms c))
                            || negb (bool_decide (channel_usage st = cs_usage c))
                            || negb (bool_decide (Some (retired st) = cs_retired c))
               end || has_account ord s (terms_id (cs_terms c))) eqn:Hc.
    { exfalso. rewrite <- not_true_iff_false in Hex. apply Hex, existsb_exists. exists c. split; [by apply list_elem_of_In|done]. }
    apply orb_false_elim in Hc as [Hc Hno]. unfold planned. destruct (channels s !! terms_id (cs_terms c)) as [st|]; [|done].
    repeat (apply orb_false_elim in Hc as [Hc ?]). rewrite ?negb_false_iff, ?bool_decide_eq_true in *.
    exists st. split_and!; try done. by apply has_account_false.
  - intros who mint. rewrite Hb. by destruct (Hv who mint) as (? & _).
Qed.

(** Deleting the channels of a plan takes out what they owe. *)
Lemma party_owed_delete who mint (m : gmap string Channel) cs : NoDup (snapshot_ids cs) →
  Forall (λ c, ∃ st, m !! terms_id (cs_terms c) = Some st ∧ terms st = cs_terms c ∧ channel_usage st = cs_usage c) cs →
  map_sum (λ _ c, party_owed who mint c) (foldl (λ m c, delete (terms_id (cs_terms c)) m) m cs)
  = map_sum (λ _ c, party_owed who mint c) m - owed_sum who mint cs.
Proof.
  revert m. induction cs as [|c cs IH]; intros m Hnd Hall; cbn [foldl owed_sum foldr]; [lia|].
  fold (owed_sum who mint cs). cbn in Hnd. apply NoDup_cons in Hnd as [Hni Hnd]. apply Forall_cons in Hall as [(st & Hst & Ht & Hu) Hall].
  rewrite IH; [|done|].
  - rewrite (map_sum_delete _ m _ st Hst).
    assert (party_owed who mint st = snapshot_owed who mint c) as -> by (unfold party_owed, snapshot_owed, owed; by rewrite Ht, Hu). lia.
  - rewrite Forall_forall in Hall |- *. intros c' Hin. destruct (Hall c' Hin) as (st' & Hst' & ?). exists st'. split; [|done].
    rewrite lookup_delete_ne; [done|]. intros E. apply Hni. rewrite E. apply list_elem_of_fmap. eauto.
Qed.

Lemma retire_channels_exposure s plan s' b who mint : retire_channels ord limits s plan = Ok (s', b) →
  exposure s' who mint = exposure s who mint.
Proof.
  intros He. pose proof (retire_channels_spec s plan) as Hs. rewrite He in Hs. destruct b; [|by subst].
  destruct Hs as (-> & Hp & Hnd & _ & Hd). unfold exposure. cbn. rewrite Hd, party_owed_delete; [lia|done|].
  eapply Forall_impl; [done|]. intros c (st & ? & ? & ? & _). eauto.
Qed.

Lemma retire_channels_books s plan : books limits s → (∀ d, d ∈ debts (after plan) → 0 ≤ debt_msat d) →
  match retire_channels ord limits s plan with
  | Ok (s', _) => books limits s' | Err _ => True | Panic => False end.
Proof.
  intros [Hsh Htr Hmo Hhi] Hpos. pose proof (retire_channels_spec s plan) as Hs.
  destruct (retire_channels ord limits s plan) as [[s' []]| |]; [|by subst|done|done].
  destruct Hs as (-> & Hp & Hnd & Hv & _). unfold retired_state. set (m := foldl _ _ _).
  assert (∀ k c, m !! k = Some c → channels s !! k = Some c) as Hsub.
  { intros k c. unfold m. rewrite (lookup_foldl_delete_by (λ c, terms_id (cs_terms c))). by case_decide. }
  assert (∀ k a, accounts s !! k = Some a → m !! channel_id (contract a) = channels s !! channel_id (contract a)) as Hkeep.
  { intros k a Ha. unfold m. rewrite (lookup_foldl_delete_by (λ c, terms_id (cs_terms c))). rewrite decide_False; [done|].
    intros (c & E & Hin)%list_elem_of_fmap. rewrite Forall_forall in Hp. destruct (Hp c Hin) as (_ & _ & _ & _ & _ & _ & Hno). by apply (Hno k a Ha). }
  split.
  - destruct Hsh as [Hc Ha Hh H1c H1a [Hs1 Hs2]]. split; cbn; [by eauto|done| |by eauto|by eauto|].
    + intros k a Hk. rewrite (Hkeep k a Hk). eauto.
    + split; [|done]. etrans; [|apply Hs1]. apply inj_le. apply map_subseteq_size. intros k. specialize (Hsub k).
      destruct (m !! k) as [c|]; [by rewrite (Hsub c)|]. by destruct (channels s !! k).
  - apply (tries_settle _ s); try done; cbn.
    + intros k a Hk. exists a. split_and!; [done| |by eapply (tr_account _ _ Htr)]. split; [done|]. eauto.
    + intros k c Hk. eauto.
    + apply (tr_pending _ _ Htr).
  - destruct Hmo. split; cbn; eauto.
  - intros h [= <-]. split_and!; [done|done|by eapply valid_nodup].
Qed.

End retire_channels.
