(* ===== verification/LedgerCredit.v ===== *)
(** * Every reachable ledger balances, and credit is granted once

    Any sequence of ledger operations keeps [books] (LedgerBooks), and what one
    buyer can owe at one mint, over all the channels it ever opened there, stays
    within the grace of a single channel. *)

From stdpp Require Import strings.
From S2P Require Import Prelude Bytes NodeAddr LinkWire SessionWire Ledger LedgerBooks LedgerSales LedgerClosing.

Local Open Scope Z_scope.

(** The arguments of an operation are of their Rust types. *)
Definition op_ok (o : LedgerTrace.op) : Prop :=
  match o with
  | LedgerTrace.OpenChannel t paid => terms_ok t ∧ is_u64 paid
  | LedgerTrace.AddContract c => contract_ok c
  | LedgerTrace.ApplyBalance _ paid => is_u64 paid
  | LedgerTrace.RetireRoutes _ _ l => Forall contract_ok l
  | LedgerTrace.RetireChannels plan => Forall (λ d, is_u64 (debt_msat d)) (debts (after plan))
  | _ => True
  end.

Section steps.
Context (ord : Orders) (sha256 : list Z → list Z) (limits : Limits).
Import LedgerTrace RelayLedger.

Lemma new_books : limits_ok limits → books limits new.
Proof.
  intros ([] & [] & [] & []). split; [split|split|split|]; cbn; try done; try (intros; by simplify_map_eq).
  intros tok id d. rewrite lookup_empty. split; [done|]. intros (a & t & Hk & _). by rewrite lookup_empty in Hk.
Qed.

Lemma kept_ok {E} (P : State → Prop) s (m : outcome E State) : P s →
  match m with Ok s' => P s' | Err _ => True | Panic => False end → ∃ s', kept s m = Ok s' ∧ P s'.
Proof. intros Hs Hm. destruct m; cbn; eauto; done. Qed.

Lemma fst_ok_ok {E A} (P : State → Prop) (m : outcome E (State * A)) :
  match m with Ok (s', _) => P s' | Err _ => True | Panic => False end →
  match fst_ok m with Ok s' => P s' | Err _ => True | Panic => False end.
Proof. by destruct m as [[]| |]. Qed.

Lemma step_books s o : limits_ok limits → books limits s → op_ok o → ∃ s', step ord sha256 limits s o = Ok s' ∧ books limits s'.
Proof.
  intros Hl Hb Ho. destruct o; cbn [step op_ok] in *; apply kept_ok; try done.
  - destruct Ho. by apply open_channel_books.
  - by apply add_contract_books.
  - by apply apply_balance_books.
  - by apply fst_ok_ok, close_contract_books.
  - apply fst_ok_ok. pose proof (close_channel_books limits s id Hb) as H. by destruct (close_channel s id) as [[? ?]| |]; [destruct H| |].
  - by apply fst_ok_ok, seal_channel_books.
  - apply fst_ok_ok. pose proof (admit_spec ord sha256 limits s r now windows (bk_shape _ _ Hb)) as H.
    destruct (admit_with_windows _ _ _ _ _ _ _) as [[s' tok]| |]; [|done|done].
    destruct H as (id & a & c & digest & n & total & Had & -> & _). by eapply admitted_books.
  - pose proof (complete_books limits Hb tok out) as H. by destruct (complete s tok out).
  - by apply fst_ok_ok, retire_routes_books.
  - apply fst_ok_ok, retire_channels_books; [done|]. rewrite Forall_forall in Ho. intros d Hd. by apply (Ho d Hd).
Qed.

Lemma run_ind (P : State → Prop) s os : P s →
  (∀ s o, P s → o ∈ os → ∃ s', step ord sha256 limits s o = Ok s' ∧ P s') →
  ∃ s', run ord sha256 limits s os = Ok s' ∧ P s'.
Proof.
  unfold run. revert s. induction os as [|o os IH]; intros s Hs Hstep; cbn [foldl mbind outcome_bind]; [eauto|].
  destruct (Hstep s o Hs) as (s1 & -> & H1); [left|].
  apply IH; [done|]. intros s2 o2 H2 Hin. apply Hstep; [done|by right].
Qed.

Lemma run_books os : limits_ok limits → Forall op_ok os → ∃ s, run ord sha256 limits new os = Ok s ∧ books limits s.
Proof.
  intros Hl Hos. apply run_ind; [by apply new_books|]. intros s o Hb Hin. rewrite Forall_forall in Hos. by apply step_books, Hos.
Qed.

(** C7: Whatever the order of openings, contracts, payments, packets, completions,
    closings, seals and retirements, no call of the ledger panics and the books
    balance: what a channel has reserved is what was lost, what was retired and the
    rounded price of what each of its contracts reserved, and likewise for what was
    submitted; it never exceeds the channel's capacity nor payment plus grace; each
    contract's units are the sum of its packets' and stay within its maximum; the
    waiting tokens are exactly the pending packets. *)
Theorem ledger_books_balance os : limits_ok limits → Forall op_ok os →
  ∃ s, run ord sha256 limits new os = Ok s ∧ books limits s.
Proof. apply run_books. Qed.

End steps.

(** ** How channels change *)

(** Paid or submitted more, or closed; nothing more reserved. *)
Definition channel_steps (c c' : Channel) : Prop :=
  terms c' = terms c ∧ reserved_msat (channel_usage c') = reserved_msat (channel_usage c)
  ∧ submitted_msat (channel_usage c) ≤ submitted_msat (channel_usage c')
  ∧ paid_msat (channel_usage c) ≤ paid_msat (channel_usage c') ∧ (channel_active c' = true → channel_active c = true).

Definition advances (s s' : State) : Prop :=
  history s' = history s ∧ ∀ k c', channels s' !! k = Some c' → ∃ c, channels s !! k = Some c ∧ channel_steps c c'.

Lemma channel_steps_refl c : channel_steps c c.
Proof. by unfold channel_steps. Qed.

Lemma channel_steps_owed c c' : channel_steps c c' → owed c' ≤ owed c.
Proof. intros (_ & Hr & _ & Hp & _). unfold owed. mlia. Qed.

Lemma advances_same s s' : history s' = history s → channels s' = channels s → advances s s'.
Proof. intros Hh Hc. split; [done|]. rewrite Hc. intros k c Hk. exists c. split; [done|apply channel_steps_refl]. Qed.

Lemma advances_insert s s' id c c' : channels s !! id = Some c → history s' = history s →
  channels s' = <[id := c']> (channels s) → channel_steps c c' → advances s s'.
Proof.
  intros Hc Hh Hm Ho. split; [done|]. intros k x. rewrite Hm. destruct (decide (k = id)) as [->|Hne].
  - rewrite lookup_insert_eq. intros [= <-]. eauto.
  - rewrite lookup_insert_ne by done. intros Hk. exists x. split; [done|apply channel_steps_refl].
Qed.

Section changes.
Context (ord : Orders) (limits : Limits).
Import RelayLedger.

Lemma close_channel_advances s id : match close_channel s id with Ok (s', _) => advances s s' | _ => True end.
Proof.
  unfold close_channel. destruct (channels s !! id) as [c|] eqn:Hid; [|done].
  by apply (advances_insert s _ id c (set_channel_active c false)).
Qed.

Lemma add_contract_advances s c : match add_contract ord limits s c with Ok s' => advances s s' | _ => True end.
Proof.
  unfold add_contract. destruct (channels s !! _); [|done]. destruct (validate_contract _ _); cbn [mbind outcome_bind]; [|done|done].
  destruct (RetiredRoutes.rejects _ _); [done|]. destruct (accounts s !! _).
  { case_bool_decide; [|done]. by apply advances_same. }
  destruct (negb _); [done|]. destruct (find_account _ _ _ _) as [[]| |]; cbn [mbind outcome_bind]; try done.
  destruct (_ <=? _); [done|]. by apply advances_same.
Qed.

Lemma apply_balance_advances s id paid : match apply_verified_balance s id paid with Ok s' => advances s s' | _ => True end.
Proof.
  unfold apply_verified_balance. destruct (channels s !! id) as [c|] eqn:Hid; [|done].
  destruct (Z.ltb_spec paid (paid_msat (channel_usage c))); [done|]. destruct (validate_channel _); cbn [mbind outcome_bind]; [|done|done].
  destruct (_ <? _); [done|]. by eapply (advances_insert s _ id c).
Qed.

Lemma close_contract_advances s id : match close_contract s id with Ok (s', _) => advances s s' | _ => True end.
Proof. unfold close_contract. destruct (accounts s !! id); [|done]. by apply advances_same. Qed.

Lemma seal_channel_advances s id : match seal_channel ord s id with Ok (s', _) => advances s s' | _ => True end.
Proof.
  unfold seal_channel. pose proof (close_channel_advances s id) as Hc.
  destruct (close_channel s id) as [[s1 u]| |]; cbn [mbind outcome_bind]; [|done|done].
  cbn [channels set_pending set_accounts]. by destruct (channels s1 !! id).
Qed.

Lemma complete_advances s tok out : books limits s → match complete s tok out with Ok s' => advances s s' | _ => True end.
Proof.
  intros Hb. pose proof (complete_spec limits Hb tok out) as H. destruct (complete _ _ _) as [s1| |]; [|done|done].
  destruct H as [[-> _]|(id & a & d & t & c & _ & Hid & Hd & _ & _ & Hc & ->)]; [by apply advances_same|].
  eapply (advances_insert s _ _ c); [done|done|done|]. destruct (account_priced (bk_shape _ _ Hb) id a Hid) as [_ Hper Hms _ _].
  destruct (ao_attempt _ _ _ (tr_account _ _ (bk_tries _ _ Hb) id a Hid) d t Hd) as [Hu _]. split_and!; cbn; try done.
  set (sub := match out with OutSubmitted => _ | OutUnconfirmed => _ end).
  assert (due (price (contract a)) (submitted_units (usage a)) ≤ due (price (contract a)) (submitted_units (usage a) + sub)); [|lia].
  apply due_mono; [done|lia|]. unfold sub. destruct out; lia.
Qed.

Lemma retire_routes_advances s id through l : books limits s → Forall contract_ok l →
  match retire_closed_routes_with_uninstalled ord limits s id through l with Ok (s', _) => advances s s' | _ => True end.
Proof.
  intros Hb Hl. pose proof (retire_routes_spec ord limits s id through l Hb Hl) as H.
  destruct (retire_closed_routes_with_uninstalled _ _ _ _ _ _) as [[s1 n]| |]; [|done|done].
  destruct H as (c & r & Hc & -> & _). by eapply (advances_insert s _ _ c).
Qed.

End changes.

(** ** Credit *)

Section credit.
Context (ord : Orders) (sha256 : list Z → list Z) (limits : Limits).
Import LedgerTrace RelayLedger.
Context (who : NodeAddr) (mint : string) (G : Z).

Definition of_party (t : ChannelTerms) : Prop := buyer t = who ∧ mint_url t = mint.

Lemma party_owed_nonneg c : 0 ≤ party_owed who mint c.
Proof. unfold party_owed. pose proof (owed_nonneg c). case_bool_decide; lia. Qed.

Lemma advances_exposure s s' : advances s s' → exposure s' who mint ≤ exposure s who mint.
Proof.
  intros [Hh Hc]. unfold exposure. rewrite Hh. apply Z.add_le_mono_l, map_sum_dominated; [|intros; apply party_owed_nonneg].
  intros k c' Hk. destruct (Hc k c' Hk) as (c & Hm & Hst). pose proof (channel_steps_owed c c' Hst). exists c. split; [done|].
  unfold party_owed. destruct Hst as (-> & _). case_bool_decide; lia.
Qed.

(** What holds of the credit of the party: every channel's grace and everything
    owed stay within [G]. *)
Definition within (s : State) : Prop :=
  exposure s who mint ≤ G ∧ ∀ k c, channels s !! k = Some c → of_party (terms c) → grace_msat (terms c) ≤ G.

Lemma advances_within s s' : advances s s' → within s → within s'.
Proof.
  intros Hl [He Hg]. split; [pose proof (advances_exposure s s' Hl); lia|].
  intros k c' Hk. destruct (proj2 Hl k c' Hk) as (c & Hc & -> & _). eauto.
Qed.

Lemma exposure_carried s k c : books limits s → channels s !! k = Some c → of_party (terms c) →
  exposure s who mint = carried s (terms c) + owed c.
Proof.
  intros [Hsh _ _ Hhi] Hk [Hw Hm]. unfold exposure, carried. rewrite (map_sum_delete _ _ k c Hk).
  assert (debt_sum who mint (debts (default Histories.default (history s))) = past_debt s (terms c)) as ->.
  { unfold past_debt. destruct (history s) as [h|] eqn:Hh; [|done]. destruct (Hhi h eq_refl) as (_ & _ & Hnd).
    by rewrite (history_debt_sum h (terms c) Hnd), Hw, Hm. }
  rewrite (map_sum_delete (λ _ c0, if same_party (terms c) (terms c0) then owed c0 else 0) _ k c Hk).
  assert (same_party (terms c) (terms c) = false) as -> by (unfold same_party; by rewrite bool_decide_true).
  assert (party_owed who mint c = owed c) as -> by (unfold party_owed; by rewrite bool_decide_true).
  rewrite (map_sum_ext _ (λ _ c0, if same_party (terms c) (terms c0) then owed c0 else 0) (delete k (channels s))); [lia|].
  intros k' c' [Hne Hk']%lookup_delete_Some. unfold party_owed, same_party.
  destruct (sh_channel _ _ Hsh k c Hk) as (E & _), (sh_channel _ _ Hsh k' c' Hk') as (E' & _).
  rewrite (bool_decide_false (terms_id _ = _)) by congruence. cbn. rewrite <- Hw, <- Hm.
  destruct (Z.eqb_spec (buyer (terms c')) (buyer (terms c))); cbn; repeat case_bool_decide; naive_solver.
Qed.

Lemma credit_arith grace paid carried cap total reserved :
  is_u64 grace → 0 ≤ paid → 0 ≤ carried → total ≤ Z.min cap (sat_sub (sat_add_u64 paid grace) carried) →
  carried + sat_sub reserved paid ≤ G → grace ≤ G →
  carried + sat_sub reserved paid - sat_sub reserved paid + sat_sub total paid ≤ G.
Proof. mlia. Qed.

Lemma admitted_within s id a c digest n total w i : books limits s → within s →
  admitted ord limits s w i id a c digest n total → within (admitted_state s w id a c digest n total).
Proof.
  intros Hb [He Hg] Had. destruct Had as [_ _ Hc _ _ _ _ _ _ _ _ _ (limit & Hlim & Hle) _].
  set (c' := set_channel_usage c (mkChannelUsage total (submitted_msat (channel_usage c)) (lost_msat (channel_usage c))
    (paid_msat (channel_usage c)))). split.
  - assert (exposure (admitted_state s w id a c digest n total) who mint
      = exposure s who mint - party_owed who mint c + party_owed who mint c') as ->.
    { unfold exposure. cbn. fold c'. rewrite (map_sum_insert _ _ _ _ _ Hc). lia. }
    unfold party_owed. cbn [terms c' set_channel_usage]. case_bool_decide as Hp; [|lia].
    rewrite (exposure_carried s _ c Hb Hc Hp) in *. specialize (Hg _ c Hc Hp).
    destruct (sh_channel _ _ (bk_shape _ _ Hb) _ c Hc) as (_ & (_ & _ & Hgr) & Hv & _).
    apply validate_channel_ok in Hv as (_ & Hcap & _). pose proof (past_debt_bound limits s (terms c) Hb) as Hpd.
    rewrite (limit_of_eq ord s (terms c) _ Hpd Hcap) in Hlim. pose proof (carried_nonneg s (terms c) (proj1 Hpd)).
    destruct (mo_paid _ (bk_money _ _ Hb) _ c Hc) as [Hpaid _]. destruct (_ <=? _); [|done]. injection Hlim as <-.
    eapply credit_arith; [exact Hgr|exact Hpaid|done|exact Hle|exact He|exact Hg].
  - cbn. fold c'. intros k x. destruct (decide (k = channel_id (contract a))) as [->|Hne].
    + rewrite lookup_insert_eq. intros [= <-]. by apply (Hg (channel_id (contract a)) c).
    + rewrite lookup_insert_ne by done. eauto.
Qed.

End credit.

Section bound.
Context (ord : Orders) (sha256 : list Z → list Z) (limits : Limits).
Import LedgerTrace RelayLedger.
Context (who : NodeAddr) (mint : string) (G : Z).

Lemma open_within s t paid : books limits s → within who mint G s → (of_party who mint t → grace_msat t ≤ G) → is_u64 paid →
  match open_channel_verified ord limits s t paid with Ok s' => within who mint G s' | Err _ => True | Panic => True end.
Proof.
  intros Hb [He Hg] Ht Hu. unfold open_channel_verified. destruct (validate_channel t) as [cap| |]; cbn [mbind outcome_bind]; try done.
  destruct (cap <? paid); [done|]. destruct (channels s !! terms_id t) as [c|] eqn:Hid.
  { destruct (_ && _); [|done]. by split. }
  destruct (match history s with Some _ => _ | None => _ end); [done|]. destruct (existsb _ _); [done|].
  destruct (limit_of _ _ _ _) as [av|]; [|done]. destruct (_ && _); [done|]. destruct (_ <=? _); [done|].
  set (c' := mkChannel _ _ _ _). split.
  - enough (exposure (set_channels s (<[terms_id t := c']> (channels s))) who mint = exposure s who mint) by lia.
    unfold exposure. cbn [history channels set_channels]. rewrite map_sum_insert_new by done.
    assert (party_owed who mint c' = 0) as ->; [|lia]. unfold party_owed, owed. cbn. case_bool_decide; mlia.
  - intros k x. cbn [channels set_channels]. destruct (decide (k = terms_id t)) as [->|Hne].
    + rewrite lookup_insert_eq. by intros [= <-].
    + rewrite lookup_insert_ne by done. eauto.
Qed.

Lemma kept_within {E} s (m : outcome E State) : within who mint G s →
  match m with Ok s' => within who mint G s' | Err _ => True | Panic => True end →
  ∀ s', kept s m = Ok s' → within who mint G s'.
Proof. intros Hs Hm s'. by destruct m; intros [= <-]. Qed.

Lemma step_within s o s' : books limits s → op_ok o → within who mint G s →
  (∀ t paid, o = OpenChannel t paid → of_party who mint t → grace_msat t ≤ G) →
  step ord sha256 limits s o = Ok s' → within who mint G s'.
Proof.
  intros Hb Hok Hw Hopen. destruct o; cbn [step op_ok] in *; apply kept_within; try done.
  - apply open_within; eauto. by destruct Hok.
  - pose proof (add_contract_advances ord limits s c) as H. destruct (add_contract _ _ _ _); [|done|done]. by eapply advances_within.
  - pose proof (apply_balance_advances s id paid) as H. destruct (apply_verified_balance _ _ _); [|done|done]. by eapply advances_within.
  - pose proof (close_contract_advances s id) as H. destruct (close_contract _ _) as [[]| |]; [|done|done]. by eapply advances_within.
  - pose proof (close_channel_advances s id) as H. destruct (close_channel _ _) as [[]| |]; [|done|done]. by eapply advances_within.
  - pose proof (seal_channel_advances ord s id) as H. destruct (seal_channel _ _ _) as [[]| |]; [|done|done]. by eapply advances_within.
  - pose proof (admit_spec ord sha256 limits s r now windows (bk_shape _ _ Hb)) as H.
    destruct (admit_with_windows _ _ _ _ _ _ _) as [[s1 tok]| |]; [|done|done].
    destruct H as (id & a & c & digest & n & total & Had & -> & _). by eapply admitted_within.
  - pose proof (complete_advances limits s tok out Hb) as H. destruct (complete _ _ _); [|done|done]. by eapply advances_within.
  - pose proof (retire_routes_advances ord limits s id through uninstalled Hb Hok) as H.
    destruct (retire_closed_routes_with_uninstalled _ _ _ _ _ _) as [[]| |]; [|done|done]. by eapply advances_within.
  - pose proof (retire_channels_spec ord limits s plan) as Hs. destruct (retire_channels _ _ _ _) as [[s1 b]| |] eqn:E; [|done|done].
    cbn. split; [rewrite (retire_channels_exposure _ _ _ _ _ _ _ _ E); apply Hw|]. destruct b; [|subst; apply Hw].
    destruct Hs as (-> & _). intros k c. cbn. rewrite (lookup_foldl_delete_by (λ c, terms_id (cs_terms c))).
    case_decide; [done|]. apply Hw.
Qed.

(** C6: Credit is granted once. Whatever one buyer owes at one mint (what its live and
    closed channels reserved beyond their payments, and the debts kept of the
    channels retired long ago) never exceeds [G], where no single channel it opened
    there allows more unpaid credit than [G]: closing a channel, opening another,
    letting contracts or whole channels retire creates no further allowance. *)
Theorem unpaid_credit_granted_once os : limits_ok limits → Forall op_ok os → 0 ≤ G →
  (∀ t paid, OpenChannel t paid ∈ os → buyer t = who → mint_url t = mint → grace_msat t ≤ G) →
  ∃ s, run ord sha256 limits new os = Ok s ∧ exposure s who mint ≤ G.
Proof.
  intros Hl Hos HG Hgr.
  destruct (run_ind ord sha256 limits (λ s, books limits s ∧ within who mint G s) new os) as (s & Hs & _ & [He _]); [| |by eauto].
  - split; [by apply new_books|]. split; [done|]. intros k c Hk. by simplify_map_eq.
  - intros s o [Hb Hw] Hin. rewrite Forall_forall in Hos. destruct (step_books ord sha256 limits s o Hl Hb (Hos o Hin)) as (s' & Hs' & Hb').
    exists s'. split_and!; [done|done|]. eapply (step_within s o); eauto. intros t paid -> [? ?]. by eapply Hgr.
Qed.

End bound.

(** ** A relay and a buyer who renews a channel *)

Module Renewal.
Import LedgerTrace.

Definition limits : Limits := mkLimits 4 4 4 4.
Definition terms_of (id : string) : ChannelTerms := mkTerms id 7 "https://mint" 100 10 3000.
Definition contract_of (id channel : string) : Contract :=
  mkContract id channel 9 8 90 (mkPrice 1000 1) 100 ForwardingAttempt.
Definition packet (n : nat) : ForwardingRequest := mkRequest 7 8 7 9 (repeat 0 n).

(** Two bytes on credit, then a second channel: of its grace of three bytes, one is left. *)
Definition story : list op :=
  [OpenChannel (terms_of "a") 0; AddContract (contract_of "r" "a"); Admit (packet 2) 10 None; Complete 1 OutSubmitted;
   SealChannel "a"; RetireRoutes "a" 95 []; OpenChannel (terms_of "b") 0; AddContract (contract_of "q" "b");
   Admit (packet 2) 20 None; Admit (packet 1) 20 None].

Definition no_hash (l : list Z) : list Z := repeat 0 32.

Lemma story_ok : limits_ok limits ∧ Forall op_ok story.
Proof. split; [by vm_compute|]. unfold story. repeat constructor; by vm_compute. Qed.

End Renewal.

Lemma ledger_books_balance_witness : ∃ s,
  LedgerTrace.run canonical_orders Renewal.no_hash Renewal.limits RelayLedger.new Renewal.story = Ok s ∧ books Renewal.limits s.
Proof. apply ledger_books_balance; apply Renewal.story_ok. Defined.

Lemma unpaid_credit_granted_once_witness :
  (∃ s, LedgerTrace.run canonical_orders Renewal.no_hash Renewal.limits RelayLedger.new Renewal.story = Ok s
    ∧ exposure s 7 "https://mint" ≤ 3000)
  ∧ match LedgerTrace.run canonical_orders Renewal.no_hash Renewal.limits RelayLedger.new Renewal.story with
    | Ok s => exposure s 7 "https://mint" | _ => 0 end = 3000.
Proof.
  split; [|by vm_compute].
  apply unpaid_credit_granted_once; [apply Renewal.story_ok|apply Renewal.story_ok|done|].
  intros t paid Hin _ _. cut (Forall (λ o, match o with LedgerTrace.OpenChannel t _ => grace_msat t ≤ 3000 | _ => True end) Renewal.story).
  - intros Hall. by apply (proj1 (Forall_forall _ _) Hall (LedgerTrace.OpenChannel t paid)).
  - unfold Renewal.story. repeat constructor; done.
Defined.
