(* ===== verification/LedgerRecovery.v ===== *)
(** * Snapshots of the relay ledger and their recovery

    [ledger/recovery.rs] of fips-relay ([snapshot], [restore]), the
    [recover_windows] of [ledger/admission.rs] and [Snapshot::reservation_limit] of
    [ledger.rs]. A snapshot of a balanced ledger always restores, to the ledger in
    which every packet in flight is unconfirmed and nothing is active. *)

From stdpp Require Import strings.
From S2P Require Import Prelude Bytes NodeAddr LinkWire SessionWire Ledger LedgerBooks LedgerSales LedgerClosing LedgerCredit.

Local Open Scope Z_scope.

(** ** Data *)

Record AccountSnapshot := mkAccountSnapshot {
  as_contract : Contract;
  as_usage : Usage;
  as_active : bool;
  as_attempts : list (list Z * Attempt);
  as_completed : Usage
}.

Record Snapshot := mkSnapshot {
  version : Z;
  snap_limits : Limits;
  snap_next_token : Z;
  snap_history : option History;
  snap_channels : list ChannelSnapshot;
  snap_accounts : list AccountSnapshot
}.

Module Recovery.

(** [ok_or(LedgerError::InvalidSnapshot)?] and the [map_err] to it. *)
Definition snapshot_some {A} (o : option A) : outcome LedgerError A :=
  match o with Some a => Ok a | None => Err InvalidSnapshot end.
Definition snapshot_err {A} (m : outcome LedgerError A) : outcome LedgerError A :=
  match m with Err _ => Err InvalidSnapshot | m => m end.

Definition reservation_limit (self : Snapshot) (id : string) : option Z :=
  match filter (λ c, terms_id (cs_terms c) = id) (snap_channels self) with
  | [] => None
  | c :: _ =>
      relationship_reservation_limit (cs_terms c) (paid_msat (cs_usage c))
        ((λ c, (cs_terms c, cs_usage c)) <$> snap_channels self) (snap_history self)
  end.

Section recovery.
Context (ord : Orders).

Definition save_channel (c : Channel) : ChannelSnapshot :=
  mkChannelSnapshot (Some (retired c)) (terms c) (channel_usage c) (channel_active c).

Definition save_account (a : Account) : AccountSnapshot :=
  mkAccountSnapshot (contract a) (usage a) (account_active a) (map_iter (attempts_order ord) (attempts a)) (completed a).

Definition snapshot (limits : Limits) (s : State) : Snapshot :=
  mkSnapshot (match history s with Some _ => 6 | None => 5 end) limits (next_token s) (history s)
    ((λ kc, save_channel kc.2) <$> map_iter (channels_order ord) (channels s))
    ((λ ka, save_account ka.2) <$> map_iter (accounts_order ord) (accounts s)).

(** ** Restoring *)

(** The first loop: the channels, with the usage they are expected to end with. *)
Fixpoint restore_channels (v : Z) (p : gmap string Channel * gmap string ChannelUsage) (l : list ChannelSnapshot)
    : outcome LedgerError (gmap string Channel * gmap string ChannelUsage) :=
  match l with
  | [] => Ok p
  | saved :: l =>
      let t := cs_terms saved in
      let u := cs_usage saved in
      r ← snapshot_some (RetiredRoutes.recovered (cs_retired saved) (5 <=? v) (terms_expires_unix t));
      cap ← snapshot_err (validate_channel t);
      if (cap <? paid_msat u) || (cap <? reserved_msat u)
         || (sat_add_u64 (paid_msat u) (grace_msat t) <? reserved_msat u) || (reserved_msat u <? lost_msat u)
         || bool_decide (is_Some (p.1 !! terms_id t))
      then Err InvalidSnapshot
      else
        reserved ← snapshot_some (checked_add (lost_msat u) (retired_reserved_msat r));
        restore_channels v
          (<[terms_id t := mkChannel t r
               (mkChannelUsage reserved (retired_submitted_msat r) (lost_msat u) (paid_msat u)) false]> p.1,
           <[terms_id t := u]> p.2) l
  end.

(** What the loop over an account's attempts accumulates. *)
Record Tally := mkTally {
  ta_reserved : Z;
  ta_submitted : Z;
  ta_unconfirmed : Z;
  ta_previous : Z;
  ta_attempts : gmap (list Z) Attempt;
  ta_seen : gset (NodeAddr * list Z);
  ta_tokens : gset Z;
  ta_outstanding : Z
}.

Section account.
Context (limits : Limits) (next : Z) (legacy : bool) (who : NodeAddr).

Definition restore_attempt (y : Tally) (d : list Z) (t : Attempt) : outcome LedgerError Tally :=
  if (token t =? 0) || (next <? token t) || bool_decide (token t ∈ ta_tokens y) || (units t =? 0)
     || bool_decide (is_Some (ta_attempts y !! d))
     || (negb legacy && (negb (bool_decide (d = attempt_key (token t))) || negb (bool_decide (attempt_state t = Pending))))
  then Err InvalidSnapshot
  else
    reserved ← snapshot_some (checked_add (ta_reserved y) (units t));
    if legacy && bool_decide ((who, d) ∈ ta_seen y) then Err InvalidSnapshot
    else
      outstanding ← (if bool_decide (attempt_state t = Pending) then
                       n ← snapshot_some (checked_add (ta_outstanding y) 1);
                       if max_pending limits <? n then Err InvalidSnapshot else Ok n
                     else Ok (ta_outstanding y));
      let sub := match attempt_state t with Submitted => wrap_u64 (ta_submitted y + units t) | _ => ta_submitted y end in
      let unc := match attempt_state t with Submitted => ta_unconfirmed y | _ => wrap_u64 (ta_unconfirmed y + units t) end in
      let prev := match attempt_state t with Unconfirmed => wrap_u64 (ta_previous y + units t) | _ => ta_previous y end in
      let t' := match attempt_state t with Pending => mkAttempt (token t) (units t) Unconfirmed | _ => t end in
      Ok (mkTally reserved sub unc prev
            (if legacy then <[d := t']> (ta_attempts y) else ta_attempts y)
            (if legacy then {[(who, d)]} ∪ ta_seen y else ta_seen y)
            ({[token t]} ∪ ta_tokens y) outstanding).

Fixpoint restore_attempts (y : Tally) (l : list (list Z * Attempt)) : outcome LedgerError Tally :=
  match l with
  | [] => Ok y
  | (d, t) :: l => y ← restore_attempt y d t; restore_attempts y l
  end.

End account.

(** What the loop over the accounts accumulates besides the state. *)
Definition Progress : Type := State * gset Z * Z.

Definition restore_account (v : Z) (limits : Limits) (p : Progress) (saved : AccountSnapshot)
    : outcome LedgerError Progress :=
  let '(s, tokens, outstanding) := p in
  let ct := as_contract saved in
  let cm := as_completed saved in
  let legacy := is_legacy (billing ct) in
  if bool_decide (is_Some (accounts s !! contract_id ct))
     || (legacy && (max_packets_per_contract limits <? Z.of_nat (length (as_attempts saved))))
     || ((v =? 3) && negb legacy)
     || negb (bool_decide (checked_add (submitted_units cm) (unconfirmed_units cm) = Some (reserved_units cm)))
     || (legacy && negb (reserved_units cm =? 0))
  then Err InvalidSnapshot
  else
    channel ← snapshot_some (channels s !! channel_id ct);
    if RetiredRoutes.rejects (retired channel) (expires_unix ct) then Err InvalidSnapshot
    else
      _ ← snapshot_err (validate_contract ct (terms channel));
      y ← restore_attempts limits (next_token s) legacy (buyer (terms channel))
            (mkTally (reserved_units cm) (submitted_units cm) (unconfirmed_units cm) (unconfirmed_units cm) ∅
               (seen s) tokens outstanding) (as_attempts saved);
      if negb (ta_reserved y =? reserved_units (as_usage saved))
         || negb (ta_submitted y =? submitted_units (as_usage saved))
         || negb (unconfirmed_units (as_usage saved) =? ta_previous y) || (max_units ct <? ta_reserved y)
      then Err InvalidSnapshot
      else
        reserved_cost ← snapshot_some (amount_due_msat (price ct) (ta_reserved y));
        submitted_cost ← snapshot_some (amount_due_msat (price ct) (ta_submitted y));
        let u := channel_usage channel in
        r ← snapshot_some (checked_add (reserved_msat u) reserved_cost);
        sb ← snapshot_some (checked_add (submitted_msat u) submitted_cost);
        let channel' := RelayLedger.set_channel_usage channel (mkChannelUsage r sb (lost_msat u) (paid_msat u)) in
        let us := as_usage saved in
        let a := mkAccount ct (mkUsage (reserved_units us) (submitted_units us) (ta_unconfirmed y)) (ta_attempts y)
                   (if legacy then no_usage else mkUsage (ta_reserved y) (ta_submitted y) (ta_unconfirmed y)) false in
        Ok (mkState (history s) (ta_seen y) (<[channel_id ct := channel']> (channels s))
              (<[contract_id ct := a]> (accounts s)) (pending s) (next_token s), ta_tokens y, ta_outstanding y).

Fixpoint restore_accounts (v : Z) (limits : Limits) (p : Progress) (l : list AccountSnapshot)
    : outcome LedgerError Progress :=
  match l with
  | [] => Ok p
  | a :: l => p ← restore_account v limits p a; restore_accounts v limits p l
  end.

(** The last loop: every channel ends with the usage it was saved with. *)
Fixpoint check_channels (m : gmap string Channel) (l : list (string * ChannelUsage)) : outcome LedgerError () :=
  match l with
  | [] => Ok ()
  | (id, expected) :: l =>
      match m !! id with
      | None => Panic
      | Some c => if bool_decide (channel_usage c = expected) then check_channels m l else Err InvalidSnapshot
      end
  end.

Definition restore (sn : Snapshot) : outcome LedgerError State :=
  if negb ((3 <=? version sn) && (version sn <=? 6))
     || (max_channels (snap_limits sn) <? Z.of_nat (length (snap_channels sn)))
     || (max_contracts (snap_limits sn) <? Z.of_nat (length (snap_accounts sn)))
  then Err InvalidSnapshot
  else if negb match snap_history sn with
               | Some h => (version sn =? 6) && Histories.valid h (max_channels (snap_limits sn))
               | None => version sn <? 6
               end
  then Err InvalidSnapshot
  else
    p ← restore_channels (version sn) (∅, ∅) (snap_channels sn);
    let s := mkState (snap_history sn) ∅ p.1 ∅ ∅ (snap_next_token sn) in
    q ← restore_accounts (version sn) (snap_limits sn) (s, ∅, 0) (snap_accounts sn);
    _ ← check_channels (channels q.1.1) (map_to_list p.2);
    Ok q.1.1.

(** ** Consuming the windows of a crashed run *)

Fixpoint activate_channels (m : gmap string Channel) (buyers : gset (NodeAddr * string)) (l : list ChannelSnapshot)
    : outcome LedgerError (gmap string Channel) :=
  match l with
  | [] => Ok m
  | saved :: l =>
      let t := cs_terms saved in
      match m !! terms_id t with
      | None => Panic
      | Some c =>
          if cs_active saved && bool_decide ((buyer t, mint_url t) ∈ buyers) then Err InvalidSnapshot
          else
            activate_channels (<[terms_id t := RelayLedger.set_channel_active c (cs_active saved)]> m)
              (if cs_active saved then {[(buyer t, mint_url t)]} ∪ buyers else buyers) l
      end
  end.

Fixpoint activate_accounts (channels : gmap string Channel) (m : gmap string Account)
    (destinations : gset (NodeAddr * NodeAddr)) (l : list AccountSnapshot) : outcome LedgerError (gmap string Account) :=
  match l with
  | [] => Ok m
  | saved :: l =>
      let ct := as_contract saved in
      match channels !! channel_id ct with
      | None => Panic
      | Some c =>
          let key := (buyer (terms c), destination ct) in
          if as_active saved && (negb (channel_active c) || bool_decide (key ∈ destinations)) then Err InvalidSnapshot
          else
            match m !! contract_id ct with
            | None => Panic
            | Some a =>
                activate_accounts channels (<[contract_id ct := RelayLedger.set_account_active a (as_active saved)]> m)
                  (if as_active saved then {[key]} ∪ destinations else destinations) l
            end
      end
  end.

Definition has_quote (s : State) (id : string) : bool :=
  existsb (λ ka, account_active ka.2 && bool_decide (channel_id (contract ka.2) = id))
    (map_iter (accounts_order ord) (accounts s)).

Fixpoint consume_windows (s : State) (l : list (string * Z)) : outcome LedgerError State :=
  match l with
  | [] => Ok s
  | (id, ceiling) :: l =>
      c ← snapshot_some (channels s !! id);
      let u := channel_usage c in
      mx ← snapshot_some (RelayLedger.limit_of ord s (terms c) (paid_msat u));
      if negb (channel_active c) || negb (has_quote s id) || (ceiling <? reserved_msat u) || (mx <? ceiling)
      then Err InvalidSnapshot
      else
        let lost := ceiling - reserved_msat u in
        consume_windows (RelayLedger.set_channels s (<[id := RelayLedger.set_channel_usage c
          (mkChannelUsage ceiling (submitted_msat u) (wrap_u64 (lost_msat u + lost)) (paid_msat u))]> (channels s))) l
  end.

Definition recover_windows (windows_order : MapOrder string Z) (sn : Snapshot) (windows : gmap string Z)
    : outcome LedgerError State :=
  s ← restore sn;
  m ← activate_channels (channels s) ∅ (snap_channels sn);
  let s := RelayLedger.set_channels s m in
  m ← activate_accounts (channels s) (accounts s) ∅ (snap_accounts sn);
  let s := RelayLedger.set_accounts s m in
  s ← consume_windows s (map_iter windows_order windows);
  if existsb (λ ka, account_active ka.2 && negb (bool_decide (is_Some (windows !! channel_id (contract ka.2)))))
       (map_iter (accounts_order ord) (accounts s))
  then Err InvalidSnapshot else Ok s.

End recovery.
End Recovery.

(** ** Restoring the attempts of an account *)

Section attempts.
Context (limits : Limits) (next : Z) (legacy : bool) (who : NodeAddr).
Context (cm : Usage) (seen0 : gset (NodeAddr * list Z)) (tokens0 : gset Z) (waiting : gset Z).
Import Recovery.

(** The tally after the attempts [m]: [P] are the tokens of those outstanding. *)
Record tallied (m : gmap (list Z) Attempt) (P : gset Z) (y : Tally) : Prop := {
  tl_reserved : ta_reserved y = reserved_units cm + units_all m;
  tl_submitted : ta_submitted y = submitted_units cm + units_in Submitted m;
  tl_unconfirmed : ta_unconfirmed y = unconfirmed_units cm + units_in Unconfirmed m + units_in Pending m;
  tl_previous : ta_previous y = unconfirmed_units cm + units_in Unconfirmed m;
  tl_attempts : ta_attempts y = if legacy then RelayLedger.seal_attempt <$> m else ∅;
  tl_seen : ∀ x, x ∈ ta_seen y ↔ x ∈ seen0 ∨ legacy = true ∧ ∃ d, is_Some (m !! d) ∧ x = (who, d);
  tl_tokens : ∀ n, n ∈ ta_tokens y ↔ n ∈ tokens0 ∨ ∃ d t, m !! d = Some t ∧ token t = n;
  tl_outstanding : ta_outstanding y = Z.of_nat (size P);
  tl_waiting : P ⊆ ta_tokens y ∧ P ⊆ waiting
}.

Lemma units_in_insert m d t st : m !! d = None →
  units_in st (<[d := t]> m) = (if bool_decide (attempt_state t = st) then units t else 0) + units_in st m.
Proof. intros Hd. by apply (units_insert_new m d t Hd). Qed.

Lemma units_all_insert m d t : m !! d = None → units_all (<[d := t]> m) = units t + units_all m.
Proof. intros Hd. by apply (units_insert_new m d t Hd). Qed.

(** What the attempt must satisfy, given those before it. *)
Record fits (m : gmap (list Z) Attempt) (d : list Z) (t : Attempt) : Prop := {
  ft_new : m !! d = None;
  ft_units : 0 < units t;
  ft_token : 1 ≤ token t ≤ next;
  ft_fresh : (token t ∉ tokens0) ∧ ∀ d' t', m !! d' = Some t' → token t' ≠ token t;
  ft_modern : legacy = false → d = attempt_key (token t) ∧ attempt_state t = Pending;
  ft_seen : legacy = true → (who, d) ∉ seen0;
  ft_waiting : attempt_state t = Pending → token t ∈ waiting;
  ft_room : reserved_units cm + units_all m + units t ≤ U64_MAX
}.

Lemma outstanding_ok (P : gset Z) n y : Z.of_nat (size waiting) ≤ max_pending limits ≤ U64_MAX → P ⊆ waiting → n ∉ P → n ∈ waiting →
  ta_outstanding y = Z.of_nat (size P) →
  checked_add (ta_outstanding y) 1 = Some (Z.of_nat (size ({[n]} ∪ P)))
  ∧ (max_pending limits <? Z.of_nat (size ({[n]} ∪ P))) = false.
Proof.
  intros Hw HP Hn Hin ->. assert (size ({[n]} ∪ P) = S (size P)) as E by (rewrite size_union by set_solver; by rewrite size_singleton).
  assert (size ({[n]} ∪ P) ≤ size waiting)%nat by (apply subseteq_size; set_solver).
  unfold checked_add. rewrite (proj2 (Z.leb_le _ _)) by lia. split; [f_equal; lia|apply Z.ltb_ge; lia].
Qed.

Lemma restore_attempt_ok m P y d t : 0 ≤ submitted_units cm → 0 ≤ unconfirmed_units cm →
  reserved_units cm = submitted_units cm + unconfirmed_units cm → (∀ d t, m !! d = Some t → 0 < units t) →
  Z.of_nat (size waiting) ≤ max_pending limits ≤ U64_MAX →
  tallied m P y → fits m d t →
  ∃ y' P', restore_attempt limits next legacy who y d t = Ok y' ∧ tallied (<[d := t]> m) P' y'.
Proof.
  intros Hs Hu Hr Hpos Hw [Er Es Eu Ep Ea Ese Eto Eo [Hw1 Hw2]] [Hd Hun Htk [Hf1 Hf2] Hmod Hse Hwt Hroom].
  assert (token t ∉ ta_tokens y) as Hnt by (rewrite Eto; intros [?|(d' & t' & ? & ?)]; [done|by eapply Hf2]).
  pose proof (units_in_nonneg Pending m Hpos). pose proof (units_in_nonneg Submitted m Hpos). pose proof (units_in_nonneg Unconfirmed m Hpos).
  pose proof (units_all_split m). unfold restore_attempt.
  rewrite (proj2 (Z.eqb_neq (token t) 0)), (proj2 (Z.ltb_ge next (token t))), (bool_decide_false (token t ∈ _)),
    (proj2 (Z.eqb_neq (units t) 0)) by (done || lia).
  rewrite (bool_decide_false (is_Some _)) by (rewrite Ea; destruct legacy; rewrite ?lookup_fmap, ?Hd, ?lookup_empty; by intros [? ?]).
  assert (negb legacy && (negb (bool_decide (d = attempt_key (token t))) || negb (bool_decide (attempt_state t = Pending))) = false) as ->.
  { destruct legacy eqn:Hl; [done|]. destruct (Hmod eq_refl). by rewrite !bool_decide_true. }
  assert (legacy && bool_decide ((who, d) ∈ ta_seen y) = false) as Hsn.
  { destruct legacy eqn:Hl; [|done]. apply bool_decide_eq_false. rewrite Ese. intros [?|(_ & d' & [? ?] & ?)]; [by apply Hse|]. simplify_eq. }
  cbn [orb]. rewrite (checked_add_ok (ta_reserved y) (units t)) by (rewrite Er; lia). cbn [snapshot_some mbind outcome_bind]. rewrite Hsn. clear Hsn.
  set (P' := if bool_decide (attempt_state t = Pending) then {[token t]} ∪ P else P).
  assert ((if bool_decide (attempt_state t = Pending)
     then n ← snapshot_some (checked_add (ta_outstanding y) 1); if max_pending limits <? n then Err InvalidSnapshot else Ok n
     else Ok (ta_outstanding y)) = Ok (Z.of_nat (size P'))) as ->.
  { unfold P'. destruct (bool_decide (attempt_state t = Pending)) eqn:Hp; [|by rewrite Eo]. apply bool_decide_eq_true in Hp.
    destruct (outstanding_ok P (token t) y Hw Hw2 ltac:(set_solver) (Hwt Hp) Eo) as [-> Hlt]. cbn [snapshot_some mbind outcome_bind]. by rewrite Hlt. }
  cbn [mbind outcome_bind]. eexists _, P'. split; [done|].
  split; cbn.
  - rewrite units_all_insert by done. lia.
  - rewrite units_in_insert by done. destruct (attempt_state t); repeat case_bool_decide; try done; rewrite ?wrap_u64_small; lia.
  - rewrite !units_in_insert by done. destruct (attempt_state t); repeat case_bool_decide; try done; rewrite ?wrap_u64_small; lia.
  - rewrite !units_in_insert by done. destruct (attempt_state t); repeat case_bool_decide; try done; rewrite ?wrap_u64_small; lia.
  - rewrite Ea. destruct legacy; [|done]. rewrite fmap_insert. f_equal. unfold RelayLedger.seal_attempt.
    destruct (attempt_state t); by case_bool_decide.
  - intros x. destruct legacy; [|rewrite Ese; naive_solver]. rewrite elem_of_union, elem_of_singleton, Ese. split.
    + intros [->|[?|(_ & d' & [t' ?] & ->)]]; [right|by left|right]; (split; [done|]); eexists; (split; [|done]).
      * rewrite lookup_insert_eq. by eexists.
      * assert (d' ≠ d) by congruence. rewrite lookup_insert_ne by done. by eexists.
    + intros [?|(_ & d' & Hd' & ->)]; [by right; left|]. destruct (decide (d' = d)) as [->|Hne]; [by left|].
      rewrite lookup_insert_ne in Hd' by done. right. right. eauto.
  - intros n. rewrite elem_of_union, elem_of_singleton, Eto. split.
    + intros [->|[?|(d' & t' & Hd' & ?)]]; [right|by left|right].
      * exists d, t. by rewrite lookup_insert_eq.
      * exists d', t'. rewrite lookup_insert_ne; [done|congruence].
    + intros [?|(d' & t' & Hd' & <-)]; [by right; left|]. destruct (decide (d' = d)) as [->|Hne].
      * rewrite lookup_insert_eq in Hd'. simplify_eq. by left.
      * rewrite lookup_insert_ne in Hd' by done. right. right. eauto.
  - done.
  - unfold P'. case_bool_decide as Hp; [pose proof (Hwt Hp)|]; set_solver.
Qed.

(** The attempts [M] of an account, given those of the accounts before it. *)
Record fitting (M : gmap (list Z) Attempt) : Prop := {
  fg_units : ∀ d t, M !! d = Some t → 0 < units t;
  fg_token : ∀ d t, M !! d = Some t → 1 ≤ token t ≤ next;
  fg_fresh : ∀ d t, M !! d = Some t → token t ∉ tokens0;
  fg_inj : ∀ d t d' t', M !! d = Some t → M !! d' = Some t' → token t = token t' → d = d';
  fg_modern : legacy = false → ∀ d t, M !! d = Some t → d = attempt_key (token t) ∧ attempt_state t = Pending;
  fg_seen : legacy = true → ∀ d t, M !! d = Some t → (who, d) ∉ seen0;
  fg_waiting : ∀ d t, M !! d = Some t → attempt_state t = Pending → token t ∈ waiting;
  fg_room : reserved_units cm + units_all M ≤ U64_MAX
}.

Lemma restore_attempts_ok M l m P y : 0 ≤ submitted_units cm → 0 ≤ unconfirmed_units cm →
  reserved_units cm = submitted_units cm + unconfirmed_units cm →
  Z.of_nat (size waiting) ≤ max_pending limits ≤ U64_MAX → fitting M →
  map_splits M m l → tallied m P y → ∃ y' P', restore_attempts limits next legacy who y l = Ok y' ∧ tallied M P' y'.
Proof.
  intros Hs Hu Hr Hw HM. revert m P y. induction l as [|[d t] l IH]; intros m P y Hsp Hy; cbn [restore_attempts].
  { exists y, P. split; [done|]. by rewrite <- (map_splits_nil _ _ Hsp). }
  apply map_splits_cons in Hsp as (Hmd & HMd & Hsub & Hsp).
  assert (fits m d t) as Hf.
  { split; [done|by eapply (fg_units _ HM)|by eapply (fg_token _ HM)| | | |by eapply (fg_waiting _ HM)|].
    - split; [by eapply (fg_fresh _ HM)|]. intros d' t' Hd' E.
      assert (d' = d) as -> by (eapply (fg_inj _ HM); eauto using lookup_weaken). congruence.
    - intros Hl. by apply (fg_modern _ HM Hl).
    - intros Hl. by apply (fg_seen _ HM Hl d t).
    - pose proof (fg_room _ HM). enough (units_all (<[d := t]> m) ≤ units_all M) by (rewrite units_all_insert in * by done; lia).
      apply map_sum_dominated; [|intros k b Hk; apply (fg_units _ HM) in Hk; lia].
      intros k a Hk. exists a. split; [|lia]. eapply lookup_weaken; [done|]. by apply insert_subseteq_l. }
  destruct (restore_attempt_ok m P y d t Hs Hu Hr) as (y1 & P1 & E1 & Hy1); [|done|done|done|].
  { intros d' t' Hd'. eapply (fg_units _ HM), lookup_weaken; done. }
  rewrite E1. cbn [mbind outcome_bind]. by apply (IH (<[d := t]> m) P1).
Qed.

End attempts.

(** ** Restoring a snapshot *)

Section restore.
Context (ord : Orders) (limits : Limits) (Hlim : limits_ok limits) (s : State) (Hbk : books limits s).
Import Recovery.

(** An account as it is restored: sealed, and not active. *)
Definition restored_account (a : Account) : Account := RelayLedger.set_account_active (RelayLedger.seal_account ord a) false.

(** A channel when the accounts [m] have been restored. *)
Definition partial_channel (m : gmap string Account) (k : string) (c : Channel) : Channel :=
  let u := channel_usage c in
  mkChannel (terms c) (retired c)
    (mkChannelUsage (lost_msat u + retired_reserved_msat (retired c) + booked reserved_units k m)
       (retired_submitted_msat (retired c) + booked submitted_units k m) (lost_msat u) (paid_msat u)) false.

Definition legacy_digests (m : gmap string Account) (x : NodeAddr * list Z) : Prop :=
  ∃ k a c d, m !! k = Some a ∧ is_legacy (billing (contract a)) = true ∧ channels s !! channel_id (contract a) = Some c
    ∧ is_Some (attempts a !! d) ∧ x = (buyer (terms c), d).

Record progress (m : gmap string Account) (p : Progress) : Prop := {
  pg_history : history p.1.1 = history s;
  pg_next : next_token p.1.1 = next_token s;
  pg_pending : pending p.1.1 = ∅;
  pg_channels : ∀ k, channels p.1.1 !! k = partial_channel m k <$> channels s !! k;
  pg_accounts : accounts p.1.1 = restored_account <$> m;
  pg_seen : ∀ x, x ∈ seen p.1.1 ↔ legacy_digests m x;
  pg_tokens : ∀ n, n ∈ p.1.2 ↔ ∃ k a d t, m !! k = Some a ∧ attempts a !! d = Some t ∧ token t = n;
  pg_waiting : ∃ P : gset Z, p.2 = Z.of_nat (size P) ∧ P ⊆ p.1.2 ∧ P ⊆ dom (pending s)
}.

Lemma booked_sub f k m : m ⊆ accounts s → (∀ k a, accounts s !! k = Some a → 0 ≤ f (usage a) ≤ max_units (contract a)) →
  booked f k m ≤ booked f k (accounts s).
Proof.
  intros Hm Hf. destruct Hbk as [Hsh _ _ _]. apply map_sum_dominated.
  - intros k' a Ha. exists a. split; [by eapply lookup_weaken|lia].
  - intros k' a Ha. case_bool_decide; [|lia]. apply (account_due Hsh k' a); eauto.
Qed.

Lemma waiting_bound : Z.of_nat (size (dom (pending s))) ≤ max_pending limits ≤ U64_MAX.
Proof. rewrite size_dom. pose proof (tr_size _ _ (bk_tries _ _ Hbk)). destruct Hlim as (_ & _ & _ & []). lia. Qed.

(** The attempts of the next account fit behind those of [m]. *)
Lemma account_fitting m p k a c : m ⊆ accounts s → m !! k = None → accounts s !! k = Some a →
  channels s !! channel_id (contract a) = Some c → progress m p →
  fitting (next_token s) (is_legacy (billing (contract a))) (buyer (terms c)) (completed a) (seen p.1.1) p.1.2 (dom (pending s)) (attempts a).
Proof.
  intros Hm Hk Ha Hc Hp. destruct Hbk as [Hsh Htr _ _]. pose proof (tr_account _ _ Htr k a Ha) as Hok. split.
  - intros d t Hd. by apply (ao_attempt _ _ _ Hok d t).
  - intros d t Hd. by apply (ao_attempt _ _ _ Hok d t).
  - intros d t Hd. rewrite (pg_tokens _ _ Hp). intros (k' & a' & d' & t' & Hk' & Hd' & E).
    destruct (tr_tokens _ _ Htr k a d t k' a' d' t') as [-> _]; try done; [by eapply lookup_weaken|congruence].
  - intros d t d' t' Hd Hd' E. by apply (tr_tokens _ _ Htr k a d t k a d' t').
  - intros Hl. by apply (ao_modern _ _ _ Hok).
  - intros Hl d t Hd. rewrite (pg_seen _ _ Hp). intros (k' & a' & c' & d' & Hk' & Hl' & Hc' & Hd' & [= E ->]).
    assert (k = k') as ->; [|congruence].
    apply (tr_digests _ _ Htr k a c k' a' c' d'); try done. by eapply lookup_weaken.
  - intros d t Hd Hst. apply elem_of_dom. exists (k, d). apply (tr_pending _ _ Htr). eauto 10.
  - rewrite <- (ao_reserved _ _ _ Hok). pose proof (ao_max _ _ _ Hok). destruct (sh_account _ _ Hsh k a Ha) as (_ & _ & [_ Hu] & _). lia.
Qed.

Lemma booked_insert_new f k' m k a : m !! k = None →
  booked f k' (<[k := a]> m) = (if bool_decide (channel_id (contract a) = k') then due (price (contract a)) (f (usage a)) else 0) + booked f k' m.
Proof. intros Hk. unfold booked. by rewrite map_sum_insert_new. Qed.

(** The account and its tally make the restored account. *)
Lemma tallied_account k a P y seen0 tokens0 who waiting : accounts s !! k = Some a →
  tallied (is_legacy (billing (contract a))) who (completed a) seen0 tokens0 waiting (attempts a) P y →
  ta_reserved y = reserved_units (usage a) ∧ ta_submitted y = submitted_units (usage a) ∧ ta_previous y = unconfirmed_units (usage a)
  ∧ mkAccount (contract a) (mkUsage (reserved_units (usage a)) (submitted_units (usage a)) (ta_unconfirmed y)) (ta_attempts y)
      (if is_legacy (billing (contract a)) then no_usage else mkUsage (ta_reserved y) (ta_submitted y) (ta_unconfirmed y)) false
    = restored_account a.
Proof.
  intros Ha [Er Es Eu Ep Ea _ _ _ _]. destruct Hbk as [Hsh Htr _ _]. pose proof (tr_account _ _ Htr k a Ha) as Hok.
  destruct (sh_account _ _ Hsh k a Ha) as (_ & _ & Hmax & _). pose proof (sealed_units_eq ord limits _ a Hok Hmax) as Esu.
  destruct Hok as [_ _ Hleg _ Hre Hsu Hun _]. rewrite Er, Es, Ep, <- Hre, <- Hsu, <- Hun. split_and!; [done|done|done|].
  assert (ta_unconfirmed y = RelayLedger.sealed_units ord a) as Eq by (rewrite Eu, Esu, Hun; lia).
  unfold restored_account, RelayLedger.set_account_active, RelayLedger.seal_account. rewrite Eq, Ea.
  destruct (is_legacy (billing (contract a))) eqn:Hl; cbn; [|done]. by destruct (Hleg eq_refl) as [-> _].
Qed.

Lemma partial_insert m k a c k' : m !! k = None → channels s !! channel_id (contract a) = Some c →
  partial_channel (<[k := a]> m) k' <$> channels s !! k'
  = if bool_decide (k' = channel_id (contract a))
    then Some (RelayLedger.set_channel_usage (partial_channel m k' c) (let u := channel_usage (partial_channel m k' c) in
      mkChannelUsage (reserved_msat u + due (price (contract a)) (reserved_units (usage a)))
        (submitted_msat u + due (price (contract a)) (submitted_units (usage a))) (lost_msat u) (paid_msat u)))
    else partial_channel m k' <$> channels s !! k'.
Proof.
  intros Hk Hc. case_bool_decide as E.
  - subst. rewrite Hc. cbn. unfold partial_channel, RelayLedger.set_channel_usage. cbn. rewrite !booked_insert_new by done.
    rewrite !bool_decide_true by done. do 3 f_equal; lia.
  - destruct (channels s !! k') as [c'|]; [|done]. cbn. unfold partial_channel. rewrite !booked_insert_new by done.
    by rewrite !bool_decide_false by done.
Qed.

End restore.

Lemma units_all_nonneg m : (∀ d t, m !! d = Some t → 0 < units t) → 0 ≤ units_all m.
Proof. intros H. apply map_sum_nonneg. intros d t Hd. apply H in Hd. lia. Qed.

Section restore_accounts.
Context (ord : Orders) (limits : Limits) (Hlim : limits_ok limits) (s : State) (Hbk : books limits s).
Import Recovery.

(** The costs of an account fit in its channel. *)
Lemma costs_fit m k a c : m ⊆ accounts s → m !! k = None → accounts s !! k = Some a →
  channels s !! channel_id (contract a) = Some c →
  let pc := channel_usage (partial_channel m (channel_id (contract a)) c) in
  reserved_msat pc + due (price (contract a)) (reserved_units (usage a)) ≤ U64_MAX
  ∧ submitted_msat pc + due (price (contract a)) (submitted_units (usage a)) ≤ U64_MAX.
Proof.
  intros Hm Hk Ha Hc pc. pose proof Hbk as [Hsh Htr Hmo _].
  assert (<[k := a]> m ⊆ accounts s) as Hsub.
  { apply insert_subseteq_l; done. }
  pose proof (booked_sub limits s Hbk reserved_units (channel_id (contract a)) _ Hsub) as B1.
  pose proof (booked_sub limits s Hbk submitted_units (channel_id (contract a)) _ Hsub) as B2.
  specialize (B1 ltac:(intros k' a' Hk'; apply (ao_range (tr_account _ _ Htr k' a' Hk')))).
  specialize (B2 ltac:(intros k' a' Hk'; apply (ao_range (tr_account _ _ Htr k' a' Hk')))).
  rewrite booked_insert_new, bool_decide_true in B1, B2 by done.
  destruct (sh_channel _ _ Hsh _ c Hc) as (_ & _ & Hv & (Hrv & _ & _ & _ & _ & Hrs & Hrr)).
  apply validate_channel_ok in Hv as (_ & Hcap & _). pose proof (mo_cap _ Hmo _ c Hc). pose proof (mo_reserved _ Hmo _ c Hc).
  pose proof (mo_lost _ Hmo _ c Hc). pose proof (booked_nonneg Hsh Htr (channel_id (contract a))).
  assert (retired_submitted_msat (retired c) ≤ retired_reserved_msat (retired c)).
  { unfold RetiredRoutes.valid in Hrv. destruct (_ =? 0); [apply bool_decide_eq_true in Hrv; by rewrite Hrv|].
    apply andb_prop in Hrv as [_ Hrv]. by apply Z.leb_le in Hrv. }
  unfold pc, partial_channel. cbn. lia.
Qed.

Lemma progress_insert m p k a c y P : m ⊆ accounts s → m !! k = None → accounts s !! k = Some a →
  channels s !! channel_id (contract a) = Some c → progress ord s m p →
  tallied (is_legacy (billing (contract a))) (buyer (terms c)) (completed a) (seen p.1.1) p.1.2 (dom (pending s)) (attempts a) P y →
  let pc := partial_channel m (channel_id (contract a)) c in
  let u := channel_usage pc in
  progress ord s (<[k := a]> m)
    (mkState (history p.1.1) (ta_seen y)
       (<[channel_id (contract a) := RelayLedger.set_channel_usage pc
          (mkChannelUsage (reserved_msat u + due (price (contract a)) (reserved_units (usage a)))
             (submitted_msat u + due (price (contract a)) (submitted_units (usage a))) (lost_msat u) (paid_msat u))]> (channels p.1.1))
       (<[k := restored_account ord a]> (accounts p.1.1)) (pending p.1.1) (next_token p.1.1), ta_tokens y, ta_outstanding y).
Proof.
  intros Hm Hk Ha Hc [Hh Hn Hpe Hch Hac Hse Hto _] [_ _ _ _ _ Ese Eto Eo Hw] pc u. split; cbn; try done.
  - intros k'. rewrite (partial_insert s m k a c k' Hk Hc). case_bool_decide as E; [subst; by rewrite lookup_insert_eq|].
    rewrite lookup_insert_ne by done. apply Hch.
  - by rewrite Hac, fmap_insert.
  - intros x. rewrite Ese, Hse. unfold legacy_digests. split.
    + intros [(k' & a' & c' & d & Hk' & ?)|(Hl & d & Hd & ->)].
      * exists k', a', c', d. rewrite lookup_insert_ne by congruence. done.
      * exists k, a, c, d. by rewrite lookup_insert_eq.
    + intros (k' & a' & c' & d & Hk' & Hl & Hc' & Hd & ->). destruct (decide (k' = k)) as [->|Hne].
      * rewrite lookup_insert_eq in Hk'. simplify_eq. right. eauto.
      * rewrite lookup_insert_ne in Hk' by done. left. by exists k', a', c', d.
  - intros n. rewrite Eto, Hto. split.
    + intros [(k' & a' & d & t & Hk' & ?)|(d & t & Hd & <-)].
      * exists k', a', d, t. rewrite lookup_insert_ne by congruence. done.
      * exists k, a, d, t. by rewrite lookup_insert_eq.
    + intros (k' & a' & d & t & Hk' & Hd & <-). destruct (decide (k' = k)) as [->|Hne].
      * rewrite lookup_insert_eq in Hk'. simplify_eq. right. eauto.
      * rewrite lookup_insert_ne in Hk' by done. left. by exists k', a', d, t.
  - by exists P.
Qed.

Lemma restore_account_ok v m p k a : 5 ≤ v → m ⊆ accounts s → m !! k = None → accounts s !! k = Some a → progress ord s m p →
  ∃ p', restore_account v limits p (save_account ord a) = Ok p' ∧ progress ord s (<[k := a]> m) p'.
Proof.
  intros Hv Hm Hk Ha Hp. pose proof Hbk as [Hsh Htr Hmo _]. pose proof (tr_account _ _ Htr k a Ha) as Hok.
  destruct (sh_account _ _ Hsh k a Ha) as (Eid & Hcok). destruct (sh_home _ _ Hsh k a Ha) as (c & Hc & Hvc & Hrej & _).
  destruct (ao_completed _ _ _ Hok) as (Hc1 & Hc2 & Hc3). pose proof (ao_reserved _ _ _ Hok) as Ere.
  pose proof (ao_range Hok) as (Hrs & Hrr & _). destruct Hcok as (_ & [_ Hmax] & _).
  pose proof (account_fitting ord limits s Hbk m p k a c Hm Hk Ha Hc Hp) as Hfit. pose proof (pg_waiting _ _ _ _ Hp) as (P0 & Eo & HP1 & HP2).
  pose proof (costs_fit m k a c Hm Hk Ha Hc) as [Hf1 Hf2].
  destruct (restore_attempts_ok limits (next_token s) (is_legacy (billing (contract a))) (buyer (terms c)) (completed a) (seen p.1.1) p.1.2
    (dom (pending s)) (attempts a) (map_iter (attempts_order ord) (attempts a)) ∅ P0
    (mkTally (reserved_units (completed a)) (submitted_units (completed a)) (unconfirmed_units (completed a)) (unconfirmed_units (completed a))
       ∅ (seen p.1.1) p.1.2 p.2)) as (y & P & Ey & Hy);
    [done|done|done|by apply waiting_bound|done|apply map_splits_iter| |].
  { split; cbn; rewrite ?units_in_empty; try done; try (change (units_all ∅) with 0; lia); try lia.
    - by destruct (is_legacy _); rewrite ?fmap_empty.
    - intros x. split; [by left|]. intros [?|(_ & d & [? Hd] & _)]; [done|]. by rewrite lookup_empty in Hd.
    - intros n. split; [by left|]. intros [?|(d & t & Hd & _)]; [done|]. by rewrite lookup_empty in Hd. }
  destruct (tallied_account ord limits s Hbk k a P y _ _ _ _ Ha Hy) as (Tr & Ts & Tp & Ta).
  pose proof (pg_channels _ _ _ _ Hp (channel_id (contract a))) as Hch. rewrite Hc in Hch. cbn in Hch.
  pose proof (progress_insert m p k a c y P Hm Hk Ha Hc Hp Hy) as Hins. cbn zeta in Hins.
  pose proof (pg_accounts _ _ _ _ Hp) as Hacc. pose proof (pg_next _ _ _ _ Hp) as Hnx.
  destruct p as [[s' tokens] out]. cbn [fst snd] in *. unfold restore_account. cbn [as_contract as_usage as_completed as_attempts save_account].
  rewrite (bool_decide_false (is_Some _)) by (rewrite Hacc, Eid, lookup_fmap; cbn; rewrite Hk; by intros [? ?]).
  assert (is_legacy (billing (contract a)) && (max_packets_per_contract limits <? Z.of_nat (length (map_iter (attempts_order ord) (attempts a)))) = false) as ->.
  { destruct (is_legacy _) eqn:Hl; [|done]. destruct (ao_legacy _ _ _ Hok Hl). rewrite length_map_iter. apply Z.ltb_ge. lia. }
  rewrite (proj2 (Z.eqb_neq v 3)) by lia. cbn [andb orb].
  rewrite bool_decide_true by (rewrite checked_add_ok by (unfold units_all in *; pose proof (fg_room _ _ _ _ _ _ _ _ Hfit);
    pose proof (units_all_nonneg (attempts a) (fg_units _ _ _ _ _ _ _ _ Hfit)); unfold units_all in *; lia); f_equal; lia).
  assert (is_legacy (billing (contract a)) && negb (reserved_units (completed a) =? 0) = false) as ->.
  { destruct (is_legacy _) eqn:Hl; [|done]. by destruct (ao_legacy _ _ _ Hok Hl) as [-> _]. }
  cbn [negb orb]. rewrite Hch. cbn [snapshot_some mbind outcome_bind]. cbn [retired partial_channel terms]. rewrite Hrej.
  rewrite Hvc. cbn [snapshot_err mbind outcome_bind]. rewrite Hnx, Ey. cbn [mbind outcome_bind].
  rewrite Tr, Ts, Tp, !Z.eqb_refl, (proj2 (Z.ltb_ge _ _)) by lia. cbn [negb orb].
  destruct (account_due Hsh k a _ Ha Hrr) as [-> _]. destruct (account_due Hsh k a _ Ha Hrs) as [-> _]. cbn [snapshot_some mbind outcome_bind].
  rewrite !checked_add_ok by done. cbn [snapshot_some mbind outcome_bind]. eexists. split; [done|].
  rewrite Tr, Ts in Ta. rewrite Ta, Eid. rewrite Hnx in Hins. done.
Qed.

End restore_accounts.

Section restore_snapshot.
Context (ord : Orders) (limits : Limits) (Hlim : limits_ok limits) (s : State) (Hbk : books limits s).
Import Recovery.

Lemma recovered_retired v r expires : 5 ≤ v → retired_ok r expires →
  RetiredRoutes.recovered (Some r) (5 <=? v) expires = Some r.
Proof. intros Hv [Hr _]. unfold RetiredRoutes.recovered. by rewrite Hr, (proj2 (Z.leb_le _ _) Hv). Qed.

Lemma restore_channels_ok v p L : 5 ≤ v → NoDup L.*1 → (∀ k c, (k, c) ∈ L → channels s !! k = Some c) →
  (∀ k, k ∈ L.*1 → p.1 !! k = None) →
  restore_channels v p ((λ kc, save_channel kc.2) <$> L)
  = Ok (list_to_map ((λ kc, (kc.1, partial_channel ∅ kc.1 kc.2)) <$> L) ∪ p.1,
        list_to_map ((λ kc, (kc.1, channel_usage kc.2)) <$> L) ∪ p.2).
Proof.
  intros Hv. pose proof Hbk as [Hsh Htr Hmo _]. revert p. induction L as [|[k c] L IH]; intros p Hnd HL Hnew.
  { cbn. rewrite !(left_id_L ∅ (∪)). by destruct p. }
  cbn in Hnd. apply NoDup_cons in Hnd as [Hni Hnd]. assert (channels s !! k = Some c) as Hk by (apply HL; left).
  destruct (sh_channel _ _ Hsh k c Hk) as (Eid & (_ & _ & Hg) & Hvc & Hr). apply validate_channel_ok in Hvc as Hcap.
  pose proof (mo_cap _ Hmo k c Hk). pose proof (mo_paid _ Hmo k c Hk) as Hpd. pose proof (mo_grace _ Hmo k c Hk). pose proof (mo_lost _ Hmo k c Hk).
  pose proof (mo_reserved _ Hmo k c Hk). pose proof (booked_nonneg Hsh Htr k). assert (0 ≤ retired_reserved_msat (retired c)) by apply Hr.
  cbn [fmap list_fmap restore_channels fst snd save_channel cs_terms cs_usage cs_retired].
  rewrite (recovered_retired v _ _ Hv Hr), Hvc. cbn [snapshot_some snapshot_err mbind outcome_bind].
  rewrite !(proj2 (Z.ltb_ge _ _)) by mlia. rewrite bool_decide_false by (rewrite Eid, (Hnew k) by left; by intros [? ?]).
  cbn [orb]. rewrite checked_add_ok by lia. cbn [snapshot_some mbind outcome_bind]. rewrite Eid.
  rewrite IH; [|done|intros; apply HL; by right|].
  - cbn [list_to_map foldr fst snd fmap list_fmap]. f_equal. assert (∀ A (f : string * Channel → A), (list_to_map ((λ kc, (kc.1, f kc)) <$> L) : gmap string A) !! k = None) as Hno.
    { intros A f. apply not_elem_of_list_to_map. intros ([k' x] & -> & Hin)%list_elem_of_fmap.
      apply list_elem_of_fmap in Hin as ([k1 c1] & [= <- ->] & Hin). apply Hni. apply list_elem_of_fmap. by exists (k', c1). }
    f_equal.
    + rewrite <- insert_union_r by apply (Hno _ (λ kc, partial_channel ∅ kc.1 kc.2)). cbn [list_to_map foldr fst snd]. rewrite <- insert_union_l. f_equal. unfold partial_channel. cbn.
      rewrite !Z.add_0_r. done.
    + rewrite <- insert_union_r by apply (Hno _ (λ kc, channel_usage kc.2)). cbn [list_to_map foldr fst snd]. by rewrite <- insert_union_l.
  - intros k' Hin. cbn. rewrite lookup_insert_ne by (intros ->; done). apply Hnew. by right.
Qed.

Lemma restore_accounts_ok v L m p : 5 ≤ v → map_splits (accounts s) m L → progress ord s m p →
  ∃ p', restore_accounts v limits p ((λ ka, save_account ord ka.2) <$> L) = Ok p' ∧ progress ord s (accounts s) p'.
Proof.
  intros Hv. revert m p. induction L as [|[k a] L IH]; intros m p Hsp Hp.
  { exists p. split; [done|]. by rewrite <- (map_splits_nil _ _ Hsp). }
  apply map_splits_cons in Hsp as (Hk & Ha & Hsub & Hsp).
  destruct (restore_account_ok ord limits Hlim s Hbk v m p k a) as (p1 & E1 & Hp1); [done..|].
  cbn [fmap list_fmap restore_accounts snd]. rewrite E1. cbn [mbind outcome_bind]. by apply (IH (<[k := a]> m)).
Qed.

(** All accounts restored, a channel has its saved usage again. *)
Lemma partial_full k c : channels s !! k = Some c → partial_channel (accounts s) k c = RelayLedger.set_channel_active c false.
Proof.
  intros Hk. pose proof (mo_reserved _ (bk_money _ _ Hbk) k c Hk) as E1. pose proof (mo_submitted _ (bk_money _ _ Hbk) k c Hk) as E2.
  unfold partial_channel, RelayLedger.set_channel_active. rewrite <- E1, <- E2. by destruct c as [? ? []].
Qed.

Lemma check_channels_ok (m : gmap string Channel) l : (∀ k u, (k, u) ∈ l → ∃ c, m !! k = Some c ∧ channel_usage c = u) →
  check_channels m l = Ok ().
Proof.
  induction l as [|[k u] l IH]; intros H; [done|]. cbn. destruct (H k u) as (c & -> & <-); [left|]. rewrite bool_decide_true by done.
  apply IH. intros k' u' Hin. apply H. by right.
Qed.

(** What is kept, and what is not: nothing is active or pending. *)
Record restored (s' : State) : Prop := {
  re_history : history s' = history s;
  re_seen : ∀ x, x ∈ seen s' ↔ legacy_digests s (accounts s) x;
  re_channels : channels s' = (λ c, RelayLedger.set_channel_active c false) <$> channels s;
  re_accounts : accounts s' = restored_account ord <$> accounts s;
  re_pending : pending s' = ∅;
  re_next : next_token s' = next_token s
}.

Lemma restore_snapshot : ∃ s', restore (snapshot ord limits s) = Ok s' ∧ restored s'.
Proof.
  pose proof Hbk as [Hsh Htr Hmo Hhi]. unfold restore. set (sn := snapshot ord limits s).
  assert (5 ≤ version sn ≤ 6) as Hv by (cbn; by destruct (history s)).
  destruct (sh_sizes _ _ Hsh) as [Hs1 Hs2]. cbn [snap_limits snap_channels snap_accounts sn snapshot].
  rewrite !length_fmap, !length_map_iter. rewrite (proj2 (Z.leb_le 3 _)), (proj2 (Z.leb_le _ 6)), !(proj2 (Z.ltb_ge _ _)) by lia. cbn [negb andb orb].
  assert (negb match snap_history sn with Some h => (version sn =? 6) && Histories.valid h (max_channels limits) | None => version sn <? 6 end = false) as ->.
  { cbn. destruct (history s) as [h|]; [|done]. by destruct (Hhi h eq_refl) as [-> _]. }
  rewrite restore_channels_ok; [|lia|apply NoDup_map_iter_fst|intros k c; apply elem_of_map_iter|intros; apply lookup_empty].
  cbn [mbind outcome_bind fst snd]. rewrite !(right_id_L ∅ (∪)).
  set (m0 := list_to_map ((λ kc, (kc.1, partial_channel ∅ kc.1 kc.2)) <$> _)).
  assert (∀ k, m0 !! k = partial_channel ∅ k <$> channels s !! k) as Em0.
  { intros k. apply option_eq. intros x. unfold m0. rewrite <- elem_of_list_to_map.
    2: { rewrite <- list_fmap_compose. apply NoDup_map_iter_fst. }
    rewrite list_elem_of_fmap, fmap_Some. split.
    - intros ([k' c] & [= -> ->] & Hin%elem_of_map_iter). eauto.
    - intros (c & Hc & ->). exists (k, c). split; [done|]. by apply elem_of_map_iter. }
  destruct (restore_accounts_ok (version sn) (map_iter (accounts_order ord) (accounts s)) ∅
    (mkState (snap_history sn) ∅ m0 ∅ ∅ (snap_next_token sn), ∅, 0)) as (p & Ep & Hp);
    [lia|apply map_splits_iter| |].
  { split; cbn; try done.
    - intros x. split; [set_solver|]. intros (k & a & c & d & Hk & _). by rewrite lookup_empty in Hk.
    - intros n. split; [set_solver|]. intros (k & a & d & t & Hk & _). by rewrite lookup_empty in Hk.
    - exists ∅. split_and!; [by rewrite size_empty|set_solver|set_solver]. }
  rewrite Ep. cbn [mbind outcome_bind].
  assert (channels p.1.1 = (λ c, RelayLedger.set_channel_active c false) <$> channels s) as Ech.
  { apply map_eq. intros k. rewrite (pg_channels _ _ _ _ Hp), lookup_fmap. destruct (channels s !! k) as [c|] eqn:Hc; [|done].
    cbn. by rewrite (partial_full k c Hc). }
  rewrite check_channels_ok.
  - exists p.1.1. split; [done|]. destruct Hp. by split.
  - intros k u Hin%elem_of_map_to_list. apply elem_of_list_to_map_2 in Hin. apply list_elem_of_fmap in Hin as ([k' c] & [= -> ->] & Hin%elem_of_map_iter).
    exists (RelayLedger.set_channel_active c false). rewrite Ech, lookup_fmap, Hin. done.
Qed.

End restore_snapshot.

(** ** What is restored balances *)

Section resealed.
Context (ord : Orders) (limits : Limits) (s : State) (Hbk : books limits s).
Context (fa : Account → bool) (fc : Channel → bool).

(** [s] with every packet in flight unconfirmed and activity cut down to [fa], [fc]. *)
Record resealed (s' : State) : Prop := {
  rs_history : history s' = history s;
  rs_seen : ∀ x, x ∈ seen s' ↔ legacy_digests s (accounts s) x;
  rs_channels : channels s' = (λ c, RelayLedger.set_channel_active c (fc c)) <$> channels s;
  rs_accounts : accounts s' = (λ a, RelayLedger.set_account_active (RelayLedger.seal_account ord a) (fa a)) <$> accounts s;
  rs_pending : pending s' = ∅;
  rs_next : next_token s' = next_token s
}.

Context (Hfa : ∀ a, fa a = true → account_active a = true) (Hfc : ∀ c, fc c = true → channel_active c = true).
Context (Hact : ∀ k a c, accounts s !! k = Some a → fa a = true → channels s !! channel_id (contract a) = Some c → fc c = true).

Lemma resealed_account k a : accounts s !! k = Some a →
  let a' := RelayLedger.set_account_active (RelayLedger.seal_account ord a) (fa a) in
  account_ok limits (next_token s) a' ∧ settled a a' ∧ (∀ d t, attempts a' !! d = Some t → attempt_state t ≠ Pending)
  ∧ reserved_units (usage a') = reserved_units (usage a) ∧ submitted_units (usage a') = submitted_units (usage a).
Proof.
  intros Hk. destruct Hbk as [Hsh Htr _ _]. destruct (sh_account _ _ Hsh k a Hk) as (_ & _ & Hm & _).
  destruct (seal_account_ok ord limits _ a (tr_account _ _ Htr k a Hk) Hm) as (H1 & H2 & H3 & H4 & H5). cbn. split_and!; try done.
  by apply (account_ok_same _ _ (RelayLedger.seal_account ord a)).
Qed.

Lemma legacy_settled k a c d t : accounts s !! k = Some a → is_legacy (billing (contract a)) = true →
  channels s !! channel_id (contract a) = Some c →
  attempts (RelayLedger.seal_account ord a) !! d = Some t → legacy_digests s (accounts s) (buyer (terms c), d).
Proof.
  intros Hk Hl Hc Hd. destruct (resealed_account k a Hk) as (_ & [_ Hs] & _). destruct (Hs d t Hd) as (t0 & Hd0 & _).
  exists k, a, c, d. eauto 10.
Qed.

Lemma resealed_tries s' : resealed s' → tries limits s'.
Proof.
  intros [Eh Es Ec Ea Ep En]. pose proof Hbk as [Hsh Htr _ _].
  assert (∀ k a', accounts s' !! k = Some a' → ∃ a, accounts s !! k = Some a
    ∧ a' = RelayLedger.set_account_active (RelayLedger.seal_account ord a) (fa a)) as Hacc.
  { intros k a'. rewrite Ea, lookup_fmap. destruct (accounts s !! k); [|done]. intros [= <-]. eauto. }
  assert (∀ k c', channels s' !! k = Some c' → ∃ c, channels s !! k = Some c ∧ terms c' = terms c) as Hch.
  { intros k c'. rewrite Ec, lookup_fmap. destruct (channels s !! k); [|done]. intros [= <-]. eauto. }
  assert (tries limits (mkState (history s') (seen s) (channels s') (accounts s') (pending s') (next_token s'))) as [T1 T2 T3 T4 T5 T6 T7].
  { apply (tries_settle _ s); cbn; try done.
    - intros k a' Hk. destruct (Hacc k a' Hk) as (a & Ha & ->). exists a. destruct (resealed_account k a Ha) as (H1 & H2 & _). done.
    - intros tok i d. rewrite Ep, lookup_empty. split; [done|]. intros (a' & t & Hk & Hd & _ & Hp). exfalso.
      destruct (Hacc i a' Hk) as (a & Ha & ->). destruct (resealed_account i a Ha) as (_ & _ & H3 & _). by eapply H3.
    - rewrite Ep, map_size_empty. lia. }
  split; cbn in *; try done. intros k a' c' d Hk Hl Hc [t Hd]. apply Es. destruct (Hacc k a' Hk) as (a & Ha & ->). destruct (resealed_account k a Ha) as (_ & [Eco _] & _).
  cbn in Eco. destruct (Hch _ c' Hc) as (c & Hc0 & ->). cbn in Hl, Hc0, Hd. rewrite Eco in *. eapply legacy_settled; eauto.
Qed.

Lemma resealed_books s' : resealed s' → books limits s'.
Proof.
  intros Hre. pose proof Hre as [Eh Es Ec Ea Ep En]. pose proof Hbk as [Hsh Htr Hmo Hhi]. split.
  - apply (shape_agree _ s); [done| | |].
    + rewrite Ea. intros k. rewrite lookup_fmap. destruct (accounts s !! k) as [a|] eqn:Hk; constructor.
      destruct (resealed_account k a Hk) as (_ & [E _] & _). split; [done|]. cbn. apply Hfa.
    + rewrite Ec. intros k. rewrite lookup_fmap. destruct (channels s !! k) as [c|] eqn:Hk; constructor. split_and!; cbn; auto.
    + intros k a' c'. rewrite Ea, Ec, !lookup_fmap. destruct (accounts s !! k) as [a|] eqn:Hk; [|done]. intros [= <-] Hon.
      destruct (resealed_account k a Hk) as (_ & [E _] & _). rewrite E. destruct (channels s !! channel_id (contract a)) as [c|] eqn:Hc; [|done].
      intros [= <-]. cbn in *. by eapply Hact.
  - by apply resealed_tries.
  - assert (∀ f k, (∀ k a, accounts s !! k = Some a → f (usage (RelayLedger.seal_account ord a)) = f (usage a)) →
      booked f k (accounts s') = booked f k (accounts s)) as Hb.
    { intros f k Hf. rewrite Ea. apply booked_fmap. intros i a Ha. split; [by destruct (resealed_account i a Ha) as (_ & [? _] & _)|by eapply Hf]. }
    destruct Hmo as [Hp Hcp Hg Hl Hr Hs].
    split; rewrite Ec; intros k c'; rewrite lookup_fmap; (destruct (channels s !! k) as [c|] eqn:Hk; [|done]); intros [= <-]; cbn;
      rewrite ?Hb by (intros i a Ha; by destruct (resealed_account i a Ha) as (_ & _ & _ & ? & ?)); eauto.
  - rewrite Eh. apply Hhi.
Qed.

End resealed.

(** ** The round trip *)

Section roundtrip.
Context (ord : Orders) (sha256 : list Z → list Z) (limits : Limits).

(** C8: After any history of operations, a snapshot of the ledger restores without
    error: every channel and contract comes back with the terms, totals, payments
    and evidence it had, each packet in flight now unconfirmed (so still reserved
    and never billed), the packets already sold under the first billing scheme are
    still known, no token is reused, nothing is active, and the books balance. *)
Theorem snapshot_restores os s : limits_ok limits → Forall op_ok os →
  LedgerTrace.run ord sha256 limits RelayLedger.new os = Ok s →
  ∃ s', Recovery.restore (Recovery.snapshot ord limits s) = Ok s' ∧ restored ord s s' ∧ books limits s'.
Proof.
  intros Hl Hos Hrun. destruct (run_books ord sha256 limits os Hl Hos) as (s1 & Hs1 & Hb). rewrite Hrun in Hs1. simplify_eq.
  destruct (restore_snapshot ord limits Hl s1 Hb) as (s' & Hs' & Hr). exists s'. split_and!; [done|done|].
  apply (resealed_books ord limits s1 Hb (λ _, false) (λ _, false)); [done|done|done|]. destruct Hr. by split.
Qed.

End roundtrip.

Lemma snapshot_restores_witness : ∃ s s',
  LedgerTrace.run canonical_orders Renewal.no_hash Renewal.limits RelayLedger.new Renewal.story = Ok s
  ∧ Recovery.restore (Recovery.snapshot canonical_orders Renewal.limits s) = Ok s' ∧ books Renewal.limits s'.
Proof.
  destruct Renewal.story_ok as [Hl Hos].
  destruct (run_books canonical_orders Renewal.no_hash Renewal.limits Renewal.story Hl Hos) as (s & E & _).
  destruct (snapshot_restores canonical_orders Renewal.no_hash Renewal.limits Renewal.story s Hl Hos E) as (s' & H1 & _ & H2).
  exists s, s'. exact (conj E (conj H1 H2)).
Defined.
