(* ===== verification/LedgerWindows.v ===== *)
(** * Recovering a ledger from its snapshot and the windows granted since

    [recover_windows] of [ledger/admission.rs]: on a snapshot of a balanced ledger
    and windows that its reservation limits allow, recovery succeeds and every
    window is consumed in full, as lost. *)

From stdpp Require Import strings.
From S2P Require Import Prelude Bytes NodeAddr LinkWire SessionWire Ledger LedgerBooks LedgerSales LedgerClosing LedgerCredit.
From S2P Require Import LedgerRecovery.

Local Open Scope Z_scope.

(** ** Recovery after a crash *)

Lemma set_channel_active_id c : RelayLedger.set_channel_active c (channel_active c) = c.
Proof. by destruct c. Qed.

Lemma seal_account_active ord a : account_active (RelayLedger.seal_account ord a) = account_active a.
Proof. unfold RelayLedger.seal_account. by destruct (is_legacy _). Qed.

Lemma seal_account_contract ord a : contract (RelayLedger.seal_account ord a) = contract a.
Proof. unfold RelayLedger.seal_account. by destruct (is_legacy _). Qed.

Section activate.
Context (ord : Orders) (limits : Limits) (s : State) (Hbk : books limits s).
Import Recovery.

Lemma activate_channels_ok L m buyers : NoDup L.*1 → (∀ k c, (k, c) ∈ L → channels s !! k = Some c) →
  (∀ k, m !! k = if decide (k ∈ L.*1) then (λ c, RelayLedger.set_channel_active c false) <$> channels s !! k else channels s !! k) →
  (∀ x, x ∈ buyers → ∃ k c, (k ∉ L.*1) ∧ channels s !! k = Some c ∧ channel_active c = true ∧ x = (buyer (terms c), mint_url (terms c))) →
  activate_channels m buyers ((λ kc, save_channel kc.2) <$> L) = Ok (channels s).
Proof.
  pose proof (bk_shape _ _ Hbk) as Hsh. revert m buyers. induction L as [|[k c] L IH]; intros m buyers Hnd HL Hm Hb.
  { cbn. f_equal. apply map_eq. intros k. rewrite Hm. by rewrite decide_False by apply not_elem_of_nil. }
  cbn in Hnd. apply NoDup_cons in Hnd as [Hni Hnd]. assert (channels s !! k = Some c) as Hk by (apply HL; left).
  destruct (sh_channel _ _ Hsh k c Hk) as (Eid & _). cbn [fmap list_fmap activate_channels snd save_channel cs_terms cs_active]. rewrite Eid.
  rewrite (Hm k), decide_True by left. rewrite Hk. cbn [fmap option_fmap option_map].
  assert (channel_active c && bool_decide ((buyer (terms c), mint_url (terms c)) ∈ buyers) = false) as ->.
  { destruct (channel_active c) eqn:Hon; [|done]. apply bool_decide_eq_false. intros (k' & c' & Hk'1 & Hk' & Hon' & [= E1 E2])%Hb.
    apply Hk'1. assert (k' = k) as -> by (eapply (sh_one_channel _ _ Hsh k' c' k c); eauto). left. }
  assert (RelayLedger.set_channel_active (RelayLedger.set_channel_active c false) (channel_active c) = c) as -> by (by destruct c).
  apply IH; [done|intros; apply HL; by right| |].
  - intros k'. destruct (decide (k' = k)) as [->|Hne].
    + rewrite lookup_insert_eq, decide_False by done. done.
    + rewrite lookup_insert_ne, Hm by done. cbn. destruct (decide (k' ∈ L.*1)) as [Hin|Hno].
      * by rewrite decide_True by (by right).
      * by rewrite decide_False by (rewrite elem_of_cons; intros [?|?]; done).
  - intros x Hx. assert (x ∈ buyers ∨ channel_active c = true ∧ x = (buyer (terms c), mint_url (terms c))) as [Hx'|[Hon ->]].
    { destruct (channel_active c); [|by left]. apply elem_of_union in Hx as [->%elem_of_singleton|?]; auto. }
    + destruct (Hb x Hx') as (k' & c' & Hk'1 & ?). exists k', c'. split; [|done]. intros ?. apply Hk'1. by right.
    + exists k, c. done.
Qed.

Lemma activate_accounts_ok L m dests : NoDup L.*1 → (∀ k a, (k, a) ∈ L → accounts s !! k = Some a) →
  (∀ k, m !! k = if decide (k ∈ L.*1) then restored_account ord <$> accounts s !! k else RelayLedger.seal_account ord <$> accounts s !! k) →
  (∀ x, x ∈ dests → ∃ k a c, (k ∉ L.*1) ∧ accounts s !! k = Some a ∧ account_active a = true
     ∧ channels s !! channel_id (contract a) = Some c ∧ x = (buyer (terms c), destination (contract a))) →
  activate_accounts (channels s) m dests ((λ ka, save_account ord ka.2) <$> L) = Ok (RelayLedger.seal_account ord <$> accounts s).
Proof.
  pose proof (bk_shape _ _ Hbk) as Hsh. revert m dests. induction L as [|[k a] L IH]; intros m dests Hnd HL Hm Hb.
  { cbn. f_equal. apply map_eq. intros k. rewrite Hm, lookup_fmap. by rewrite decide_False by apply not_elem_of_nil. }
  cbn in Hnd. apply NoDup_cons in Hnd as [Hni Hnd]. assert (accounts s !! k = Some a) as Hk by (apply HL; left).
  destruct (sh_account _ _ Hsh k a Hk) as (Eid & _). destruct (sh_home _ _ Hsh k a Hk) as (c & Hc & _ & _ & Hact).
  cbn [fmap list_fmap activate_accounts snd save_account as_contract as_active]. rewrite Eid, Hc.
  assert (account_active a && (negb (channel_active c) || bool_decide ((buyer (terms c), destination (contract a)) ∈ dests)) = false) as ->.
  { destruct (account_active a) eqn:Hon; [|done]. rewrite (Hact eq_refl). apply bool_decide_eq_false.
    intros (k' & a' & c' & Hk'1 & Hk' & Hon' & Hc' & [= E1 E2])%Hb. apply Hk'1.
    assert (k' = k) as -> by (eapply (sh_one_account _ _ Hsh k' a' c' k a c); eauto). left. }
  rewrite (Hm k), decide_True by left. rewrite Hk. cbn [fmap option_fmap option_map].
  assert (RelayLedger.set_account_active (restored_account ord a) (account_active a) = RelayLedger.seal_account ord a) as ->.
  { rewrite <- (seal_account_active ord a). unfold restored_account. by destruct (RelayLedger.seal_account ord a). }
  apply IH; [done|intros; apply HL; by right| |].
  - intros k'. destruct (decide (k' = k)) as [->|Hne].
    + rewrite lookup_insert_eq, decide_False by done. by rewrite Hk.
    + rewrite lookup_insert_ne, Hm by done. cbn. destruct (decide (k' ∈ L.*1)) as [Hin|Hno].
      * by rewrite decide_True by (by right).
      * by rewrite decide_False by (rewrite elem_of_cons; intros [?|?]; done).
  - intros x Hx. assert (x ∈ dests ∨ account_active a = true ∧ x = (buyer (terms c), destination (contract a))) as [Hx'|[Hon ->]].
    { destruct (account_active a); [|by left]. apply elem_of_union in Hx as [->%elem_of_singleton|?]; auto. }
    + destruct (Hb x Hx') as (k' & a' & c' & Hk'1 & ?). exists k', a', c'. split; [|done]. intros ?. apply Hk'1. by right.
    + exists k, a, c. done.
Qed.

End activate.

(** ** Room for what an active channel has reserved *)

(** The limit of a channel, when the sums fit. *)
Definition room (s : State) (c : Channel) : Z :=
  Z.min (capacity_sat (terms c) * 1000)
    (sat_sub (sat_add_u64 (paid_msat (channel_usage c)) (grace_msat (terms c))) (carried s (terms c))).

(** Every active channel is within its limit. *)
Definition headroom (s : State) : Prop := ∀ k c, channels s !! k = Some c → channel_active c = true →
  carried s (terms c) ≤ U64_MAX ∧ reserved_msat (channel_usage c) ≤ room s c.

Lemma limit_of_room ord limits s k c : books limits s → channels s !! k = Some c → carried s (terms c) ≤ U64_MAX →
  RelayLedger.limit_of ord s (terms c) (paid_msat (channel_usage c)) = Some (room s c).
Proof.
  intros Hb Hk Hc. destruct (sh_channel _ _ (bk_shape _ _ Hb) k c Hk) as (_ & _ & Hv & _). apply validate_channel_ok in Hv as (_ & Hcap & _).
  rewrite (limit_of_eq ord s (terms c) _ (past_debt_bound limits s (terms c) Hb) Hcap). by rewrite (proj2 (Z.leb_le _ _) Hc).
Qed.

(** ** Windows *)

(** The windows [C] suit the ledger: each is of an active channel with an active
    contract and between what is reserved and the limit, and no active contract is
    without one. *)
Definition quoted (s : State) (k : string) : Prop :=
  ∃ i a, accounts s !! i = Some a ∧ account_active a = true ∧ channel_id (contract a) = k.

Record suits (s : State) (C : gmap string Z) : Prop := {
  su_window : ∀ k v, C !! k = Some v → quoted s k ∧ ∃ c, channels s !! k = Some c ∧ channel_active c = true
    ∧ carried s (terms c) ≤ U64_MAX ∧ reserved_msat (channel_usage c) ≤ v ≤ room s c;
  su_active : ∀ k, quoted s k → is_Some (C !! k)
}.

(** A channel whose window is consumed. *)
Definition consumed (w : option Z) (c : Channel) : Channel :=
  match w with
  | None => c
  | Some v =>
      let u := channel_usage c in
      RelayLedger.set_channel_usage c
        (mkChannelUsage v (submitted_msat u) (lost_msat u + (v - reserved_msat u)) (paid_msat u))
  end.

Lemma consumed_terms w c : terms (consumed w c) = terms c ∧ retired (consumed w c) = retired c
  ∧ channel_active (consumed w c) = channel_active c ∧ paid_msat (channel_usage (consumed w c)) = paid_msat (channel_usage c).
Proof. by destruct w. Qed.

Section consume.
Context (ord : Orders) (limits : Limits) (s : State) (Hbk : books limits s) (C : gmap string Z) (HC : suits s C).
Import Recovery.

(** [s'] is [s] with some of the windows consumed. *)
Definition consuming (W : gmap string Z) (s' : State) : Prop :=
  history s' = history s ∧ accounts s' = accounts s ∧ ∀ k, channels s' !! k = consumed (W !! k) <$> channels s !! k.

(** A window is of an active channel, and a buyer has one of those per mint. *)
Lemma other_party W k c k' c' : W ⊆ C → channels s !! k = Some c → channel_active c = true → channels s !! k' = Some c' →
  same_party (terms c) (terms c') = true → W !! k' = None.
Proof.
  intros HW Hk Hon Hk' Hp. pose proof (bk_shape _ _ Hbk) as Hsh. destruct (W !! k') as [v|] eqn:Hv; [|done]. exfalso.
  destruct (su_window _ _ HC k' v) as (_ & c1 & Hc1 & Hon1 & _); [by eapply lookup_weaken|].
  rewrite Hk' in Hc1. injection Hc1 as <-. unfold same_party in Hp. apply andb_prop in Hp as [[Hp1 Hp2%Z.eqb_eq]%andb_prop Hp3%bool_decide_eq_true].
  destruct (sh_channel _ _ Hsh k c Hk) as (E & _), (sh_channel _ _ Hsh k' c' Hk') as (E' & _).
  assert (k' = k) as -> by (eapply (sh_one_channel _ _ Hsh k' c' k c); eauto). by rewrite E, E', bool_decide_true in Hp1.
Qed.

Lemma consuming_carried W s' k c : W ⊆ C → consuming W s' → channels s !! k = Some c → channel_active c = true →
  carried s' (terms c) = carried s (terms c).
Proof.
  intros HW (Eh & _ & Ech) Hk Hon. unfold carried, past_debt. rewrite Eh. f_equal.
  apply Z.le_antisymm; (apply map_sum_dominated; [|intros k' c' _; pose proof (owed_nonneg c'); destruct (same_party _ _); lia]).
  - intros k' c'. rewrite Ech. destruct (channels s !! k') as [c0|] eqn:Hk'; [|done]. intros [= <-]. exists c0. split; [done|].
    destruct (consumed_terms (W !! k') c0) as (-> & _). destruct (same_party (terms c) (terms c0)) eqn:Hp; [|done].
    by rewrite (other_party W k c k' c0).
  - intros k' c0 Hk'. exists (consumed (W !! k') c0). rewrite Ech, Hk'. split; [done|].
    destruct (consumed_terms (W !! k') c0) as (-> & _). destruct (same_party (terms c) (terms c0)) eqn:Hp; [|done].
    by rewrite (other_party W k c k' c0).
Qed.

Lemma has_quote_quoted k : has_quote ord s k = true ↔ quoted s k.
Proof.
  unfold has_quote, quoted. rewrite existsb_exists. split.
  - intros ([i a] & Hin & [Hon Hid%bool_decide_eq_true]%andb_prop). apply list_elem_of_In, elem_of_map_iter in Hin. eauto.
  - intros (i & a & Hi & Hon & Hid). exists (i, a). split; [by apply list_elem_of_In, elem_of_map_iter|]. cbn. by rewrite Hon, bool_decide_true.
Qed.

Lemma consume_windows_ok L W s' : map_splits C W L → consuming W s' →
  ∃ s2, consume_windows ord s' L = Ok s2 ∧ consuming C s2 ∧ seen s2 = seen s' ∧ pending s2 = pending s' ∧ next_token s2 = next_token s'.
Proof.
  pose proof Hbk as [Hsh Htr Hmo _]. revert W s'. induction L as [|[k v] L IH]; intros W s' Hsp Hs'; cbn [consume_windows].
  { exists s'. split_and!; try done. by rewrite <- (map_splits_nil _ _ Hsp). }
  apply map_splits_cons in Hsp as (HWk & HCk & HW & Hsp).
  destruct (su_window _ _ HC k v) as (Hq & c & Hc & Hon & Hca & Hrv & Hvr); [done|].
  pose proof (consuming_carried W s' k c HW Hs' Hc Hon) as Ecar. destruct Hs' as (Eh & Ea & Ech).
  pose proof (Ech k) as Ek. rewrite HWk, Hc in Ek. cbn in Ek. rewrite Ek. cbn [snapshot_some mbind outcome_bind].
  destruct (sh_channel _ _ Hsh k c Hc) as (_ & _ & Hv & _). apply validate_channel_ok in Hv as (_ & Hcap & _).
  rewrite (limit_of_eq ord s' (terms c)); [|unfold past_debt; rewrite Eh; by apply (past_debt_bound limits)|done].
  rewrite Ecar, (proj2 (Z.leb_le _ _) Hca). fold (room s c). cbn [snapshot_some mbind outcome_bind]. rewrite Hon.
  assert (has_quote ord s' k = true) as -> by (unfold has_quote; rewrite Ea; by apply has_quote_quoted).
  rewrite !(proj2 (Z.ltb_ge _ _)) by lia. cbn [negb orb].
  pose proof (mo_lost _ Hmo k c Hc). pose proof (mo_reserved _ Hmo k c Hc). pose proof (booked_nonneg Hsh Htr k).
  destruct (sh_channel _ _ Hsh k c Hc) as (_ & _ & _ & (_ & _ & _ & _ & _ & _ & Hrr)).
  rewrite wrap_u64_small by (unfold room in Hvr; lia).
  edestruct (IH (<[k := v]> W)) as (s2 & E2 & Hs2 & E3 & E4 & E5); [done| |exists s2; split_and!; [exact E2|exact Hs2|exact E3|exact E4|exact E5]].
  split_and!; [done|done|]. intros k'. cbn. destruct (decide (k' = k)) as [->|Hne].
  - by rewrite !lookup_insert_eq, Hc.
  - by rewrite !lookup_insert_ne by done.
Qed.

End consume.

Section recovered.
Context (ord : Orders) (limits : Limits).
Import Recovery.

Lemma room_grace cap v paid grace carried : 0 ≤ carried → 0 ≤ paid →
  v ≤ Z.min cap (sat_sub (sat_add_u64 paid grace) carried) → 0 ≤ grace → v ≤ paid + grace.
Proof. mlia. Qed.

Lemma consuming_books s C s' : books limits s → suits s C → consuming s C s' → seen s' = seen s → pending s' = pending s →
  next_token s' = next_token s → books limits s'.
Proof.
  intros [Hsh Htr Hmo Hhi] HC (Eh & Ea & Ech) Es Ep En.
  assert (∀ k c', channels s' !! k = Some c' → ∃ c, channels s !! k = Some c ∧ c' = consumed (C !! k) c) as Hch.
  { intros k c'. rewrite Ech. destruct (channels s !! k); [|done]. intros [= <-]. eauto. }
  split.
  - apply (shape_agree _ s); [done| | |].
    + rewrite Ea. by apply agree_refl.
    + intros k. rewrite Ech. destruct (channels s !! k) as [c|]; constructor. destruct (consumed_terms (C !! k) c) as (? & ? & E & _).
      split_and!; [done|done|]. by rewrite E.
    + intros k a c' Hk Hon Hc'. destruct (Hch _ c' Hc') as (c & Hc & ->). destruct (consumed_terms (C !! channel_id (contract a)) c) as (_ & _ & -> & _).
      rewrite Ea in Hk. destruct (sh_home _ _ Hsh k a Hk) as (c1 & Hc1 & _ & _ & Hact). simplify_eq. auto.
  - apply (tries_agree _ s); try done.
    + rewrite Ea. apply agree_refl. done.
    + intros k c' Hk _. destruct (Hch k c' Hk) as (c & Hc & ->). exists c. split; [done|]. apply consumed_terms.
  - destruct Hmo as [Hp Hcp Hg Hl Hr Hs]. split; rewrite ?Ea; intros k c' Hk; destruct (Hch k c' Hk) as (c & Hc & ->);
      destruct (C !! k) as [v|] eqn:Hv; cbn; eauto; destruct (su_window _ _ HC k v Hv) as (_ & c1 & Hc1 & _ & Hca & Hlo & Hhi');
      rewrite Hc in Hc1; injection Hc1 as <-; unfold room in Hhi'.
    + lia.
    + assert (0 ≤ carried s (terms c)) as Hn by (apply carried_nonneg, (past_debt_bound limits); by split).
      apply (room_grace (capacity_sat (terms c) * 1000) _ _ _ _ Hn (proj1 (Hp k c Hc)) Hhi').
      destruct (sh_channel _ _ Hsh k c Hc) as (_ & (_ & _ & []) & _). done.
    + pose proof (Hl k c Hc). lia.
    + rewrite (Hr k c Hc). lia.
  - by rewrite Eh.
Qed.

(** What recovery makes of a ledger [s] with the windows [C]. *)
Record recovered (s : State) (C : gmap string Z) (s' : State) : Prop := {
  rw_history : history s' = history s;
  rw_seen : ∀ x, x ∈ seen s' ↔ legacy_digests s (accounts s) x;
  rw_channels : ∀ k, channels s' !! k = consumed (C !! k) <$> channels s !! k;
  rw_accounts : accounts s' = RelayLedger.seal_account ord <$> accounts s;
  rw_pending : pending s' = ∅;
  rw_next : next_token s' = next_token s
}.

(** Sealing the accounts changes nothing that windows depend on. *)
Lemma suits_sealed s s1 C : history s1 = history s → channels s1 = channels s →
  accounts s1 = RelayLedger.seal_account ord <$> accounts s → suits s C → suits s1 C.
Proof.
  intros Eh Ec Ea [Hw Hac].
  assert (∀ k, quoted s1 k ↔ quoted s k) as Hq.
  { intros k. unfold quoted. rewrite Ea. split.
    - intros (i & a' & Hi & Hon & Hid). rewrite lookup_fmap in Hi. destruct (accounts s !! i) as [a|] eqn:E; [|done]. injection Hi as <-.
      rewrite seal_account_active in Hon. rewrite seal_account_contract in Hid. eauto.
    - intros (i & a & Hi & Hon & Hid). exists i, (RelayLedger.seal_account ord a). rewrite lookup_fmap, Hi, seal_account_active, seal_account_contract. done. }
  assert (∀ t, carried s1 t = carried s t) as Hca by (intros t; unfold carried, past_debt; by rewrite Eh, Ec).
  split; [|intros k; rewrite Hq; apply Hac]. intros k v Hv. destruct (Hw k v Hv) as (Hqk & c & Hc & Hrest). split; [by apply Hq|].
  exists c. unfold room in *. by rewrite Ec, Hca.
Qed.

Lemma recover_windows_ok word s C : limits_ok limits → books limits s → suits s C →
  ∃ s', recover_windows ord word (snapshot ord limits s) C = Ok s' ∧ recovered s C s' ∧ books limits s'.
Proof.
  intros Hl Hb HC. destruct (restore_snapshot ord limits Hl s Hb) as (s0 & E0 & [Rh Rs Rc Ra Rp Rn]).
  unfold recover_windows. rewrite E0. cbn [mbind outcome_bind snap_channels snap_accounts snapshot].
  rewrite (activate_channels_ok limits s Hb); [|apply NoDup_map_iter_fst|intros k c; apply elem_of_map_iter| |set_solver].
  2: { intros k. rewrite Rc, lookup_fmap. destruct (decide (k ∈ _)) as [|Hni]; [done|]. destruct (channels s !! k) as [c|] eqn:Hk; [|done]. exfalso. apply Hni.
       apply list_elem_of_fmap. exists (k, c). split; [done|]. by apply elem_of_map_iter. }
  cbn [mbind outcome_bind RelayLedger.set_channels channels accounts].
  rewrite (activate_accounts_ok ord limits s Hb); [|apply NoDup_map_iter_fst|intros k a; apply elem_of_map_iter| |set_solver].
  2: { intros k. rewrite Ra, lookup_fmap. destruct (decide (k ∈ _)) as [|Hni]; [done|]. destruct (accounts s !! k) as [a|] eqn:Hk; [|done]. exfalso. apply Hni.
       apply list_elem_of_fmap. exists (k, a). split; [done|]. by apply elem_of_map_iter. }
  cbn [mbind outcome_bind]. set (s1 := RelayLedger.set_accounts _ _).
  assert (resealed ord s account_active channel_active s1) as Hre.
  { split; cbn; try done.
    - apply map_eq. intros k. rewrite lookup_fmap. destruct (channels s !! k) as [c|]; [|done]. cbn. by rewrite set_channel_active_id.
    - apply map_fmap_ext. intros k a _. rewrite <- (seal_account_active ord a). by destruct (RelayLedger.seal_account ord a). }
  pose proof Hb as [Hsh _ _ _].
  assert (books limits s1) as Hb1.
  { apply (resealed_books ord limits s Hb account_active channel_active); try done. intros k a c Hk Hon Hc.
    destruct (sh_home _ _ Hsh k a Hk) as (c1 & Hc1 & _ & _ & Hact). simplify_eq. auto. }
  assert (suits s1 C) as HC1 by (by apply (suits_sealed s)).
  destruct (consume_windows_ok ord limits s1 Hb1 C HC1 (map_iter word C) ∅ s1) as (s2 & E2 & Hs2 & F1 & F2 & F3); [apply map_splits_iter| |].
  { split_and!; [done|done|]. intros k. rewrite lookup_empty. cbn. by destruct (channels s !! k). }
  rewrite E2. cbn [mbind outcome_bind]. destruct Hs2 as (G1 & G2 & G3).
  destruct (existsb _ _) eqn:Hex.
  { exfalso. apply existsb_exists in Hex as ([i a] & Hin%list_elem_of_In%elem_of_map_iter & [Hon Hno%negb_true_iff%bool_decide_eq_false]%andb_prop).
    apply Hno, (su_active _ _ HC1). exists i, a. by rewrite <- G2. }
  exists s2. split_and!; [done| |by apply (consuming_books s1 C s2)]. split; [by rewrite G1|by rewrite F1|done|by rewrite G2|by rewrite F2|by rewrite F3].
Qed.

Lemma recovered_headroom s C s' : books limits s → headroom s → suits s C → recovered s C s' → headroom s'.
Proof.
  intros Hb Hh HC [Eh _ Ech Ea _ _] k c' Hk Hon. rewrite Ech in Hk. destruct (channels s !! k) as [c|] eqn:Hc; [|done]. injection Hk as <-.
  destruct (consumed_terms (C !! k) c) as (Et & _ & Eon & Ep). rewrite Eon in Hon.
  set (s1 := mkState (history s') (seen s') (channels s') (accounts s) (pending s') (next_token s')).
  assert (carried s1 (terms c) = carried s (terms c)) as Ecar by (by apply (consuming_carried limits s Hb C HC C s1 k c)).
  change (carried s1 (terms c)) with (carried s' (terms c)) in Ecar. unfold room. rewrite Et, Ep, Ecar. fold (room s c).
  destruct (Hh k c Hc Hon) as [Hca Hr]. split; [done|]. destruct (C !! k) as [v|] eqn:Hv; [|done].
  destruct (su_window _ _ HC k v Hv) as (_ & c1 & Hc1 & _ & _ & Hlo & Hhi). rewrite Hc in Hc1. injection Hc1 as <-. by cbn.
Qed.

End recovered.
