(* ===== verification/DurableRelay.v ===== *)
(** * The durable relay

    [durable.rs] of fips-relay: the ledger behind a journal on disk. Forwarding is
    admitted only within windows that the journal already holds, while the
    controller changes the ledger, writes the next journal and publishes its
    windows. The operations are those of the source; [System] interleaves them with
    forwarding, failing writes and crashes. *)

From stdpp Require Import strings.
From S2P Require Import Prelude Bytes NodeAddr LinkWire SessionWire Ledger LedgerBooks LedgerSales LedgerClosing LedgerCredit.
From S2P Require Import LedgerRecovery LedgerWindows.

Local Open Scope Z_scope.

Definition MAX_JOURNAL_BYTES : Z := 32 * 1024 * 1024.

Inductive DurableError := LedgerFailed (e : LedgerError) | Io | Format | InUse | IsSuspended.

Record Journal := mkJournal {
  j_version : Z;
  j_window_msat : Z;
  j_ledger : Snapshot;
  j_ceilings : gmap string Z
}.

Record PublishedWindows := mkWindows {
  ceilings : gmap string Z;
  reserved_at_checkpoint : gmap string Z;
  ready : bool
}.

(** The [RelayLedger] is its limits and its state. *)
Record Relay := mkRelay {
  ledger : State;
  ledger_limits : Limits;
  window_msat : Z;
  windows : PublishedWindows
}.

Module DurableRelay.
Section durable.
Context (ord : Orders) (windows_order : MapOrder string Z) (sha256 : list Z → list Z).

(** [serde_json::to_vec] and [from_slice] on the journal. *)
Context (to_vec : Journal → option (list Z)) (from_slice : list Z → option Journal).

Definition no_windows : PublishedWindows := mkWindows ∅ ∅ false.

Definition set_ledger (self : Relay) (s : State) : Relay :=
  mkRelay s (ledger_limits self) (window_msat self) (windows self).
Definition set_windows (self : Relay) (w : PublishedWindows) : Relay :=
  mkRelay (ledger self) (ledger_limits self) (window_msat self) w.
Definition set_ready (self : Relay) (b : bool) : Relay :=
  set_windows self (mkWindows (ceilings (windows self)) (reserved_at_checkpoint (windows self)) b).

(** The loop of [persist_next]. *)
Fixpoint next_windows (self : Relay) (allow_next_window : bool) (sn : Snapshot)
    (p : gmap string Z * gmap string ChannelUsage) (l : list ChannelSnapshot)
    : outcome DurableError (gmap string Z * gmap string ChannelUsage) :=
  match l with
  | [] => Ok p
  | channel :: l =>
      let id := terms_id (cs_terms channel) in
      let usage := <[id := cs_usage channel]> p.2 in
      if cs_active channel
         && existsb (λ a, as_active a && bool_decide (channel_id (as_contract a) = id)) (snap_accounts sn)
      then
        match Recovery.reservation_limit sn id with
        | None => Err Format
        | Some maximum =>
            let window := if allow_next_window then window_msat self else 0 in
            let ceiling := Z.min (sat_add_u64 (reserved_msat (cs_usage channel)) window) maximum in
            let ceiling := if allow_next_window
                           then Z.max ceiling (default 0 (ceilings (windows self) !! id)) else ceiling in
            if allow_next_window && (maximum <? ceiling) then Err Format
            else next_windows self allow_next_window sn (<[id := ceiling]> p.1, usage) l
        end
      else next_windows self allow_next_window sn (p.1, usage) l
  end.

(** [persist_next] up to the write: the bytes, the windows and the usage. *)
Definition prepare (self : Relay) (allow_next_window : bool)
    : outcome DurableError (list Z * gmap string Z * gmap string ChannelUsage) :=
  let sn := Recovery.snapshot ord (ledger_limits self) (ledger self) in
  '(c, u) ← next_windows self allow_next_window sn (∅, ∅) (snap_channels sn);
  match to_vec (mkJournal 1 (window_msat self) sn c) with
  | None => Err Format
  | Some bytes => if MAX_JOURNAL_BYTES <? Z.of_nat (length bytes) then Err Format else Ok (bytes, c, u)
  end.

(** [persist_next] after the write. *)
Definition publish (self : Relay) (allow_next_window : bool) (c : gmap string Z) (u : gmap string ChannelUsage) : Relay :=
  set_windows self (mkWindows c (reserved_msat <$> u) allow_next_window).

(** The journal file is replaced, or the write fails: [io]. *)
Definition persist_next (self : Relay) (allow_next_window : bool) (io : outcome DurableError ())
    : outcome DurableError (Relay * list Z * gmap string ChannelUsage) :=
  '(bytes, c, u) ← prepare self allow_next_window;
  _ ← io;
  Ok (publish self allow_next_window c u, bytes, u).

(** The relay in either case, and what is returned. *)
Definition persist (self : Relay) (allow_next_window : bool) (io : outcome DurableError ())
    : Relay * outcome DurableError (gmap string ChannelUsage) :=
  match persist_next self allow_next_window io with
  | Ok (self', _, u) => (self', Ok u)
  | Err e => (set_ready self false, Err e)
  | Panic => (self, Panic)
  end.

(** [mutate] with a change of the ledger that returns the new state and a result. *)
Definition mutate {T} (self : Relay) (change : State → outcome LedgerError (State * T)) (io : outcome DurableError ())
    : Relay * outcome DurableError (T * gmap string ChannelUsage) :=
  if negb (ready (windows self)) then (self, Err IsSuspended)
  else
    match change (ledger self) with
    | Err e => (self, Err (LedgerFailed e))
    | Panic => (self, Panic)
    | Ok (s, result) =>
        let '(self', r) := persist (set_ledger self s) true io in
        (self', u ← r; Ok (result, u))
    end.

Definition checkpoint (self : Relay) (io : outcome DurableError ())
    : Relay * outcome DurableError (gmap string ChannelUsage) :=
  let '(self', r) := mutate self (λ s, Ok (s, ())) io in (self', p ← r; Ok p.2).

(** The controller's operations on the ledger. *)
Definition unit_result (m : outcome LedgerError State) : outcome LedgerError (State * ()) := s ← m; Ok (s, ()).

Definition open_channel_verified (self : Relay) (t : ChannelTerms) (paid : Z) (io : outcome DurableError ())
    : Relay * outcome DurableError () :=
  let '(self', r) := mutate self (λ s, unit_result (RelayLedger.open_channel_verified ord (ledger_limits self) s t paid)) io in
  (self', _ ← r; Ok ()).

Definition add_contract (self : Relay) (c : Contract) (io : outcome DurableError ()) : Relay * outcome DurableError () :=
  let '(self', r) := mutate self (λ s, unit_result (RelayLedger.add_contract ord (ledger_limits self) s c)) io in
  (self', _ ← r; Ok ()).

Definition apply_verified_balance (self : Relay) (id : string) (paid : Z) (io : outcome DurableError ())
    : Relay * outcome DurableError () :=
  let '(self', r) := mutate self (λ s, unit_result (RelayLedger.apply_verified_balance s id paid)) io in
  (self', _ ← r; Ok ()).

Definition close_contract (self : Relay) (id : string) (io : outcome DurableError ()) : Relay * outcome DurableError Usage :=
  let '(self', r) := mutate self (λ s, RelayLedger.close_contract s id) io in (self', p ← r; Ok p.1).

Definition close_channel (self : Relay) (id : string) (io : outcome DurableError ())
    : Relay * outcome DurableError ChannelUsage :=
  let '(self', r) := mutate self (λ s, RelayLedger.close_channel s id) io in (self', p ← r; Ok p.1).

Definition seal_channel (self : Relay) (id : string) (io : outcome DurableError ())
    : Relay * outcome DurableError ChannelUsage :=
  let '(self', r) := mutate self (λ s, RelayLedger.seal_channel ord s id) io in (self', p ← r; Ok p.1).

Definition retire_closed_routes_with_uninstalled (self : Relay) (id : string) (through : Z) (uninstalled : list Contract)
    (io : outcome DurableError ()) : Relay * outcome DurableError nat :=
  let '(self', r) := mutate self
    (λ s, RelayLedger.retire_closed_routes_with_uninstalled ord (ledger_limits self) s id through uninstalled) io in
  (self', p ← r; Ok p.1).

Definition retire_channels (self : Relay) (plan : Plan) (io : outcome DurableError ())
    : Relay * outcome DurableError () :=
  if negb (ready (windows self)) then (self, Err IsSuspended)
  else
    match RelayLedger.retire_channels ord (ledger_limits self) (ledger self) plan with
    | Err e => (self, Err (LedgerFailed e))
    | Panic => (self, Panic)
    | Ok (s, changed) =>
        if (changed : bool) then let '(self', r) := persist (set_ledger self s) true io in (self', _ ← r; Ok ())
        else (set_ledger self s, Ok ())
    end.

Definition suspend (self : Relay) (io : outcome DurableError ())
    : Relay * outcome DurableError (gmap string ChannelUsage) :=
  if negb (ready (windows self)) then (self, Err IsSuspended)
  else persist (set_ready self false) false io.

Fixpoint due_windows (self : Relay) (l : list (string * Z)) : outcome DurableError bool :=
  match l with
  | [] => Ok false
  | (id, ceiling) :: l =>
      match channels (ledger self) !! id with
      | None => Err Format
      | Some c =>
          let reserved := reserved_msat (channel_usage c) in
          let recorded := default 0 (reserved_at_checkpoint (windows self) !! id) in
          if (recorded <? reserved) && (sat_sub ceiling reserved <=? window_msat self / 2) then Ok true
          else due_windows self l
      end
  end.

Definition checkpoint_due (self : Relay) : outcome DurableError bool :=
  if negb (ready (windows self)) then Err IsSuspended
  else due_windows self (map_iter windows_order (ceilings (windows self))).

(** [create] and [load] up to [initialize], which persists a first journal. *)
Definition create (limits : Limits) (window : Z) (journal_exists : bool) : outcome DurableError Relay :=
  if window =? 0 then Err Format
  else if journal_exists then Err InUse
  else Ok (mkRelay RelayLedger.new limits window no_windows).

Definition load (bytes : list Z) : outcome DurableError Relay :=
  if MAX_JOURNAL_BYTES <? Z.of_nat (length bytes) then Err Format
  else
    match from_slice bytes with
    | None => Err Format
    | Some j =>
        if negb (j_version j =? 1) || (j_window_msat j =? 0) then Err Format
        else
          match Recovery.recover_windows ord windows_order (j_ledger j) (j_ceilings j) with
          | Ok s => Ok (mkRelay s (snap_limits (j_ledger j)) (j_window_msat j) no_windows)
          | Err e => Err (LedgerFailed e)
          | Panic => Panic
          end
    end.

Definition initialize (self : Relay) (io : outcome DurableError ()) : Relay * outcome DurableError () :=
  let '(self', r) := persist self true io in (self', _ ← r; Ok ()).

(** The forwarding policy. The clock may be before the epoch. *)
Definition admit_request (self : Relay) (r : ForwardingRequest) (now : option Z) : outcome () (Relay * Z) :=
  if negb (ready (windows self)) then Err ()
  else
    now ← RelayLedger.ask now;
    '(s, tok) ← RelayLedger.admit_with_windows ord sha256 (ledger_limits self) (ledger self) r now
                  (Some (ceilings (windows self)));
    Ok (set_ledger self s, tok).

Definition complete (self : Relay) (tok : Z) (out : ForwardingOutcome) : outcome LedgerError Relay :=
  s ← RelayLedger.complete (ledger self) tok out;
  Ok (set_ledger self s).

End durable.
End DurableRelay.

(** ** The relay, its disk and its clients *)

Module System.
Section system.
Context (ord : Orders) (windows_order : MapOrder string Z) (sha256 : list Z → list Z).
Context (to_vec : Journal → option (list Z)) (from_slice : list Z → option Journal).

(** What the controller, who holds the writer lock, is doing. *)
Inductive Phase :=
| Idle
| Changed (allow : bool)
| Writing (bytes : list Z) (c : gmap string Z) (u : gmap string ChannelUsage) (allow : bool)
| Synced (c : gmap string Z) (u : gmap string ChannelUsage) (allow : bool)
| Failing
| Down.

Record Sys := mkSys { relay : Relay; disk : option (list Z); phase : Phase }.

(** What is on disk after a crash: a write in progress may be there or not. *)
Definition survives (y : Sys) (d : option (list Z)) : Prop :=
  d = disk y ∨ match phase y with Writing b _ _ _ => d = Some b | _ => False end.

(** The operations of the controller; forwarding has its own steps. *)
Definition controller (o : LedgerTrace.op) : bool :=
  match o with LedgerTrace.Admit _ _ _ | LedgerTrace.Complete _ _ => false | _ => true end.

Inductive step : Sys → Sys → Prop :=
| step_admit r d ph req now r' tok :
    ph ≠ Down → DurableRelay.admit_request ord sha256 r req now = Ok (r', tok) →
    step (mkSys r d ph) (mkSys r' d ph)
| step_complete r d ph tok out r' :
    ph ≠ Down → DurableRelay.complete r tok out = Ok r' →
    step (mkSys r d ph) (mkSys r' d ph)
| step_change r d o s :
    ready (windows r) = true → controller o = true → op_ok o →
    LedgerTrace.step ord sha256 (ledger_limits r) (ledger r) o = Ok s →
    step (mkSys r d Idle) (mkSys (DurableRelay.set_ledger r s) d (Changed true))
| step_suspend r d :
    ready (windows r) = true →
    step (mkSys r d Idle) (mkSys (DurableRelay.set_ready r false) d (Changed false))
| step_prepare r d allow b c u :
    DurableRelay.prepare ord to_vec r allow = Ok (b, c, u) →
    step (mkSys r d (Changed allow)) (mkSys r d (Writing b c u allow))
| step_prepare_fails r d allow e :
    DurableRelay.prepare ord to_vec r allow = Err e →
    step (mkSys r d (Changed allow)) (mkSys (DurableRelay.set_ready r false) d Idle)
| step_write r d b c u allow :
    step (mkSys r d (Writing b c u allow)) (mkSys r (Some b) (Synced c u allow))
| step_write_fails r d d' b c u allow :
    d' = d ∨ d' = Some b →
    step (mkSys r d (Writing b c u allow)) (mkSys r d' Failing)
| step_fail r d : step (mkSys r d Failing) (mkSys (DurableRelay.set_ready r false) d Idle)
| step_publish r d c u allow :
    step (mkSys r d (Synced c u allow)) (mkSys (DurableRelay.publish r allow c u) d Idle)
| step_crash y d : survives y d → step y (mkSys (relay y) d Down)
| step_create r limits window r' :
    limits_ok limits → 0 ≤ window → DurableRelay.create limits window false = Ok r' →
    step (mkSys r None Down) (mkSys r' None (Changed true))
| step_load r b r' :
    DurableRelay.load ord windows_order from_slice b = Ok r' →
    step (mkSys r (Some b) Down) (mkSys r' (Some b) (Changed true)).

(** Nothing has been created yet. *)
Definition init : Sys :=
  mkSys (mkRelay RelayLedger.new (mkLimits 0 0 0 0) 0 DurableRelay.no_windows) None Down.

Inductive reachable : Sys → Prop :=
| reach_init : reachable init
| reach_step y y' : reachable y → step y y' → reachable y'.

End system.
End System.
