(* ===== verification/DurableSafety.v ===== *)
(** * A crash loses no accounting

    Whatever the interleaving of forwarding, ledger changes, journal writes, write
    failures and crashes, the journal on disk recovers, and the recovered ledger
    covers the live one. *)

From stdpp Require Import strings.
From S2P Require Import Prelude Bytes NodeAddr LinkWire SessionWire Ledger LedgerBooks LedgerSales LedgerClosing LedgerCredit.
From S2P Require Import LedgerRecovery LedgerWindows DurableRelay.

Local Open Scope Z_scope.

(** ** Room never shrinks under a channel *)

Lemma advances_carried s s' t : advances s s' → carried s' t ≤ carried s t.
Proof.
  intros [Hh Hc]. unfold carried, past_debt. rewrite Hh. apply Z.add_le_mono_l, map_sum_dominated.
  - intros k c' Hk. destruct (Hc k c' Hk) as (c & Hm & Hst). pose proof (channel_steps_owed c c' Hst). exists c. split; [done|].
    destruct Hst as (-> & _). destruct (same_party _ _); lia.
  - intros k c _. pose proof (owed_nonneg c). destruct (same_party _ _); lia.
Qed.

Lemma room_mono s s' c c' : terms c' = terms c → paid_msat (channel_usage c) ≤ paid_msat (channel_usage c') →
  carried s' (terms c) ≤ carried s (terms c) → room s c ≤ room s' c'.
Proof. intros Ht Hp Hc. unfold room. rewrite Ht. mlia. Qed.

Lemma room_nonneg s c : 0 ≤ capacity_sat (terms c) → 0 ≤ room s c.
Proof. intros. unfold room. mlia. Qed.

(** ** What the controller changes *)

Definition changes (s s' : State) : Prop := ∀ k c', channels s' !! k = Some c' →
  (∃ c, channels s !! k = Some c ∧ channel_steps c c'
     ∧ (channel_active c' = true → carried s' (terms c) ≤ carried s (terms c)))
  ∨ channels s !! k = None ∧ reserved_msat (channel_usage c') = 0 ∧ carried s' (terms c') ≤ U64_MAX.

Lemma advances_changes s s' : advances s s' → changes s s'.
Proof.
  intros Ha k c' Hk. left. destruct (proj2 Ha k c' Hk) as (c & Hc & Hst). exists c. split_and!; [done|done|]. intros _. by apply advances_carried.
Qed.

Lemma changes_headroom limits s s' : books limits s' → changes s s' → headroom s → headroom s'.
Proof.
  intros Hb Hc Hh k c' Hk Hon. destruct (Hc k c' Hk) as [(c & Hk0 & Hst & Hca)|(_ & -> & Hca)].
  - destruct Hst as (Ht & Hr & _ & Hp & Hact). destruct (Hh k c Hk0 (Hact Hon)) as [H1 H2]. specialize (Hca Hon). rewrite Ht, Hr.
    pose proof (room_mono s s' c c' Ht Hp Hca). lia.
  - split; [done|]. apply room_nonneg. destruct (sh_channel _ _ (bk_shape _ _ Hb) k c' Hk) as (_ & (_ & [? _] & _) & _). done.
Qed.

Section controller.
Context (ord : Orders) (sha256 : list Z → list Z) (limits : Limits).
Import RelayLedger.

Lemma open_changes s t paid : books limits s → is_u64 paid →
  match open_channel_verified ord limits s t paid with Ok s' => changes s s' | _ => True end.
Proof.
  intros Hb Hu. unfold open_channel_verified. destruct (validate_channel t) as [cap| |] eqn:Hv; cbn [mbind outcome_bind]; try done.
  apply validate_channel_ok in Hv as (-> & Hcap & _). destruct (_ <? paid); [done|]. destruct (channels s !! terms_id t) as [c|] eqn:Hid.
  { destruct (_ && _); [|done]. by apply advances_changes, advances_same. }
  destruct (match history s with Some _ => _ | None => _ end); [done|]. destruct (existsb _ _); [done|].
  destruct (limit_of _ _ _ _) as [av|] eqn:Hlim; [|done]. destruct (_ && _); [done|]. destruct (_ <=? _); [done|].
  set (c0 := mkChannel _ _ _ _). set (s' := set_channels _ _).
  assert (∀ t', carried s' t' = carried s t') as Hca.
  { intros t'. unfold carried, past_debt. cbn. rewrite map_sum_insert_new by done. assert (owed c0 = 0) as -> by (unfold owed; cbn; mlia).
    by destruct (same_party _ _). }
  intros k c'. cbn. destruct (decide (k = terms_id t)) as [->|Hne].
  - rewrite lookup_insert_eq. intros [= <-]. right. split_and!; [done|done|]. rewrite Hca. cbn.
    rewrite (limit_of_eq ord s t paid (past_debt_bound limits s t Hb)) in Hlim by lia. destruct (Z.leb_spec (carried s t) U64_MAX); [done|done].
  - rewrite lookup_insert_ne by done. intros Hk. left. exists c'. split_and!; [done|apply channel_steps_refl|]. intros _. by rewrite Hca.
Qed.

Lemma retire_channels_changes s plan : books limits s → (∀ d, d ∈ debts (after plan) → 0 ≤ debt_msat d) →
  match RelayLedger.retire_channels ord limits s plan with Ok (s', _) => changes s s' | _ => True end.
Proof.
  intros Hb Hd. pose proof (retire_channels_spec ord limits s plan) as Hs. pose proof (retire_channels_books ord limits s plan Hb Hd) as Hb'.
  pose proof (λ s' b who mint, retire_channels_exposure ord limits s plan s' b who mint) as Hex.
  destruct (retire_channels _ _ _ _) as [[s1 b]| |]; [|done|done]. destruct b; [|subst; by apply advances_changes, advances_same].
  destruct Hs as (-> & _). intros k c Hk. left. exists c.
  assert (channels s !! k = Some c) as Hk0.
  { cbn in Hk. rewrite (lookup_foldl_delete_by (λ c, terms_id (cs_terms c))) in Hk. by destruct (decide _). }
  split_and!; [done|apply channel_steps_refl|]. intros _. specialize (Hex _ true (buyer (terms c)) (mint_url (terms c)) eq_refl).
  rewrite (exposure_carried limits _ _ _ k c Hb' Hk), (exposure_carried limits _ _ _ k c Hb Hk0) in Hex by done. lia.
Qed.

Lemma step_changes s o s' : books limits s → op_ok o → System.controller o = true →
  LedgerTrace.step ord sha256 limits s o = Ok s' → changes s s'.
Proof.
  intros Hb Hok Hco. assert (changes s s) as Hrefl by (by apply advances_changes, advances_same).
  assert (∀ E (m : outcome E State), match m with Ok s1 => changes s s1 | _ => True end → LedgerTrace.kept s m = Ok s' → changes s s') as Hk.
  { intros E m Hm. destruct m; intros [= <-]; done. }
  destruct o; try done; cbn [LedgerTrace.step op_ok] in *; apply Hk.
  - destruct Hok. by apply open_changes.
  - pose proof (add_contract_advances ord limits s c) as H. destruct (add_contract _ _ _ _); [|done|done]. by apply advances_changes.
  - pose proof (apply_balance_advances s id paid) as H. destruct (apply_verified_balance _ _ _); [|done|done]. by apply advances_changes.
  - pose proof (close_contract_advances s id) as H. destruct (close_contract _ _) as [[]| |]; [|done|done]. by apply advances_changes.
  - pose proof (close_channel_advances s id) as H. destruct (close_channel _ _) as [[]| |]; [|done|done]. by apply advances_changes.
  - pose proof (seal_channel_advances ord s id) as H. destruct (seal_channel _ _ _) as [[]| |]; [|done|done]. by apply advances_changes.
  - pose proof (retire_routes_advances ord limits s id through uninstalled Hb Hok) as H.
    destruct (retire_closed_routes_with_uninstalled _ _ _ _ _ _) as [[]| |]; [|done|done]. by apply advances_changes.
  - pose proof (retire_channels_changes s plan Hb) as H. destruct (retire_channels _ _ _ _) as [[]| |]; [|done|done].
    apply H. rewrite Forall_forall in Hok. intros d Hd. by apply (Hok d Hd).
Qed.

End controller.

(** ** What forwarding changes *)

(** Only amounts move, and a reservation grows only within its window [P]. *)
Record forwards (P : gmap string Z) (s s' : State) : Prop := {
  fw_channels : ∀ k c', channels s' !! k = Some c' → ∃ c, channels s !! k = Some c ∧ terms c' = terms c
    ∧ channel_active c' = channel_active c ∧ paid_msat (channel_usage c') = paid_msat (channel_usage c)
    ∧ submitted_msat (channel_usage c) ≤ submitted_msat (channel_usage c')
    ∧ (reserved_msat (channel_usage c') = reserved_msat (channel_usage c)
       ∨ quoted s k ∧ channel_active c = true ∧ reserved_msat (channel_usage c') ≤ default 0 (P !! k));
  fw_dom : ∀ k, is_Some (channels s !! k) ↔ is_Some (channels s' !! k);
  fw_quoted : ∀ k, quoted s' k ↔ quoted s k;
  fw_carried : ∀ k c, channels s !! k = Some c → channel_active c = true → carried s' (terms c) ≤ carried s (terms c)
}.

(** Replacing an account by one of the same contract and activity. *)
Lemma quoted_insert s s' id a a' : accounts s !! id = Some a → accounts s' = <[id := a']> (accounts s) →
  contract a' = contract a → account_active a' = account_active a → ∀ k, quoted s' k ↔ quoted s k.
Proof.
  intros Hid Ha Hc Hon k. unfold quoted. rewrite Ha. split.
  - intros (i & x & Hi & Hx & Hk). destruct (decide (i = id)) as [->|Hne].
    + rewrite lookup_insert_eq in Hi. injection Hi as <-. exists id, a. rewrite <- Hc, <- Hon. done.
    + rewrite lookup_insert_ne in Hi by done. by exists i, x.
  - intros (i & x & Hi & Hx & Hk). destruct (decide (i = id)) as [->|Hne].
    + exists id, a'. rewrite lookup_insert_eq. rewrite Hid in Hi. injection Hi as <-. by rewrite Hc, Hon.
    + exists i, x. by rewrite lookup_insert_ne.
Qed.

Lemma dom_insert_old {A} (m : gmap string A) id a a' : m !! id = Some a → ∀ k, is_Some (m !! k) ↔ is_Some (<[id := a']> m !! k).
Proof.
  intros Hid k. destruct (decide (k = id)) as [->|Hne]; [rewrite lookup_insert_eq, Hid; split; by eexists|by rewrite lookup_insert_ne].
Qed.

Section forwarding.
Context (ord : Orders) (sha256 : list Z → list Z) (limits : Limits).
Import RelayLedger.

Lemma complete_forwards P s tok out s' : books limits s → RelayLedger.complete s tok out = Ok s' → forwards P s s'.
Proof.
  intros Hb He. pose proof (complete_advances limits s tok out Hb) as Hadv. pose proof (complete_spec limits Hb tok out) as H. rewrite He in *.
  pose proof (λ t, advances_carried s s' t Hadv) as Hca. destruct Hadv as [_ Hadv].
  assert (∀ k c', channels s' !! k = Some c' → ∃ c, channels s !! k = Some c ∧ channel_active c' = channel_active c
    ∧ paid_msat (channel_usage c') = paid_msat (channel_usage c)) as Hsame.
  { destruct H as [[-> _]|(id & a & d & t & c & _ & _ & _ & _ & _ & Hc & ->)]; [eauto|]. intros k c'. cbn.
    destruct (decide (k = channel_id (contract a))) as [->|Hne]; [rewrite lookup_insert_eq; intros [= <-]; eauto|rewrite lookup_insert_ne by done; eauto]. }
  split.
  - intros k c' Hk. destruct (Hadv k c' Hk) as (c & Hc & (Ht & Hr & Hs & _)). destruct (Hsame k c' Hk) as (c1 & Hc1 & Hon & Hp).
    rewrite Hc in Hc1. injection Hc1 as <-. exists c. split_and!; auto.
  - destruct H as [[-> _]|(id & a & d & t & c & _ & _ & _ & _ & _ & Hc & ->)]; [done|]. by eapply dom_insert_old.
  - destruct H as [[-> _]|(id & a & d & t & c & _ & Hid & _ & _ & _ & Hc & ->)]; [done|].
    eapply (quoted_insert _ _ id a); [done|done|..]; unfold completed_account; by destruct (is_legacy _).
  - intros k c _ _. apply Hca.
Qed.

Lemma admitted_forwards P s who id a c digest n total : books limits s →
  admitted ord limits s who (Some P) id a c digest n total → forwards P s (admitted_state s who id a c digest n total).
Proof.
  intros Hb [Hid Hon Hc Hact _ _ _ _ _ _ _ _ _ Hw]. specialize (Hw P eq_refl). pose proof (bk_shape _ _ Hb) as Hsh.
  set (cid := channel_id (contract a)) in *. split.
  - intros k c'. cbn. fold cid. destruct (decide (k = cid)) as [->|Hne].
    + rewrite lookup_insert_eq. intros [= <-]. exists c. split_and!; cbn; try done. right. split_and!; [|done|done]. by exists id, a.
    + rewrite lookup_insert_ne by done. intros Hk. exists c'. split_and!; auto. done.
  - by eapply dom_insert_old.
  - by eapply (quoted_insert _ _ id a).
  - intros k c1 Hk Hon1. unfold carried, past_debt. cbn. apply Z.add_le_mono_l, map_sum_dominated.
    + intros k' c'. destruct (decide (k' = cid)) as [->|Hne]; [|rewrite lookup_insert_ne by done; intros Hk'; exists c'; split; [done|lia]].
      rewrite lookup_insert_eq. intros [= <-]. exists c. split; [done|]. cbn. destruct (same_party (terms c1) (terms c)) eqn:Hp; [|done]. exfalso.
      unfold same_party in Hp. apply andb_prop in Hp as [[Hp1 Hp2%Z.eqb_eq]%andb_prop Hp3%bool_decide_eq_true].
      destruct (sh_channel _ _ Hsh k c1 Hk) as (E & _), (sh_channel _ _ Hsh cid c Hc) as (E' & _).
      assert (cid = k) as Heq by (eapply (sh_one_channel _ _ Hsh cid c k c1); eauto). by rewrite E, E', Heq, bool_decide_true in Hp1.
    + intros k' c' _. pose proof (owed_nonneg c'). destruct (same_party _ _); lia.
Qed.

(** The headroom after forwarding: a reservation that grew is within the limit. *)
Lemma admitted_headroom P s who id a c digest n total : books limits s → headroom s →
  admitted ord limits s who (Some P) id a c digest n total → headroom (admitted_state s who id a c digest n total).
Proof.
  intros Hb Hh Had. pose proof (admitted_forwards P s who id a c digest n total Hb Had) as [Hch _ _ Hca].
  intros k c' Hk Hon. destruct (Hch k c' Hk) as (c1 & Hc1 & Ht & Hon1 & Hp & _). rewrite Hon1 in Hon. destruct (Hh k c1 Hc1 Hon) as [H1 H2].
  specialize (Hca k c1 Hc1 Hon). rewrite Ht. split; [lia|]. pose proof (room_mono s (admitted_state s who id a c digest n total) c1 c' Ht ltac:(lia) Hca).
  enough (reserved_msat (channel_usage c') ≤ room s c1) by lia. cbn in Hk.
  destruct (decide (k = channel_id (contract a))) as [->|Hne]; [|rewrite lookup_insert_ne in Hk by done; by simplify_eq].
  rewrite lookup_insert_eq in Hk. injection Hk as <-. cbn. destruct Had as [_ _ Hc _ _ _ _ _ _ _ _ _ (limit & Hlim & Hle) _].
  rewrite Hc in Hc1. injection Hc1 as <-. rewrite (limit_of_room ord limits s _ c Hb Hc H1) in Hlim. injection Hlim as <-. done.
Qed.

Lemma complete_headroom s tok out s' : books limits s → headroom s → RelayLedger.complete s tok out = Ok s' → headroom s'.
Proof.
  intros Hb Hh He. pose proof (complete_books limits Hb tok out) as Hb'. pose proof (complete_advances limits s tok out Hb) as Hadv. rewrite He in *.
  apply (changes_headroom limits s s'); [done|by apply advances_changes|done].
Qed.

End forwarding.

(** ** The next windows *)

Definition capped (P : gmap string Z) (s : State) : Prop := ∀ k v c,
  P !! k = Some v → channels s !! k = Some c → channel_active c = true → v ≤ room s c.

Section windows.
Context (ord : Orders) (limits : Limits) (s : State) (Hbk : books limits s) (Hroom : headroom s).
Import DurableRelay.

Lemma reservation_limit_room k c : channels s !! k = Some c → channel_active c = true →
  Recovery.reservation_limit (Recovery.snapshot ord limits s) k = Some (room s c).
Proof.
  intros Hk Hon. destruct (Hroom k c Hk Hon) as [Hca _]. rewrite <- (limit_of_room ord limits s k c Hbk Hk Hca).
  unfold Recovery.reservation_limit. cbn [snap_channels Recovery.snapshot snap_history].
  set (L := (λ kc, Recovery.save_channel kc.2) <$> map_iter (channels_order ord) (channels s)).
  assert (∀ x, x ∈ L → terms_id (cs_terms x) = k → x = Recovery.save_channel c) as Hone.
  { intros x ([k1 c1] & -> & Hin%elem_of_map_iter)%list_elem_of_fmap E. cbn in *.
    destruct (sh_channel _ _ (bk_shape _ _ Hbk) k1 c1 Hin) as (E1 & _). congruence. }
  assert (Recovery.save_channel c ∈ L) as Hc.
  { apply list_elem_of_fmap. exists (k, c). split; [done|]. by apply elem_of_map_iter. }
  destruct (sh_channel _ _ (bk_shape _ _ Hbk) k c Hk) as (E & _).
  destruct (filter (λ c, terms_id (cs_terms c) = k) L) as [|x l] eqn:Hf.
  { exfalso. assert (Recovery.save_channel c ∈ filter (λ c, terms_id (cs_terms c) = k) L) as Hin by (by apply list_elem_of_filter).
    rewrite Hf in Hin. by apply elem_of_nil in Hin. }
  assert (x ∈ filter (λ c, terms_id (cs_terms c) = k) L) as [Ex Hx]%list_elem_of_filter by (rewrite Hf; left).
  rewrite (Hone x Hx Ex). unfold RelayLedger.limit_of, RelayLedger.channel_pairs. cbn [cs_terms cs_usage Recovery.save_channel].
  f_equal. unfold L. rewrite <- list_fmap_compose. done.
Qed.

Lemma snapshot_quoted k :
  existsb (λ a, as_active a && bool_decide (channel_id (as_contract a) = k)) (snap_accounts (Recovery.snapshot ord limits s)) = true
  ↔ quoted s k.
Proof.
  cbn. rewrite existsb_exists. unfold quoted. split.
  - intros (x & Hin%list_elem_of_In & [Hon Hk%bool_decide_eq_true]%andb_prop). apply list_elem_of_fmap in Hin as ([i a] & -> & Hin%elem_of_map_iter).
    eauto.
  - intros (i & a & Hi & Hon & Hk). exists (Recovery.save_account ord a). split.
    + apply list_elem_of_In, list_elem_of_fmap. exists (i, a). split; [done|]. by apply elem_of_map_iter.
    + cbn. by rewrite Hon, bool_decide_true.
Qed.

Context (w : Z) (P : gmap string Z) (allow : bool) (Hw : 0 ≤ w) (HP : allow = true → capped P s).

(** The window of a channel, when it gets one. *)
Definition next_ceiling (k : string) (c : Channel) : Z :=
  let x := Z.min (sat_add_u64 (reserved_msat (channel_usage c)) (if allow then w else 0)) (room s c) in
  if allow then Z.max x (default 0 (P !! k)) else x.

Lemma next_ceiling_bounds k c : channels s !! k = Some c → channel_active c = true →
  reserved_msat (channel_usage c) ≤ next_ceiling k c ≤ room s c ∧ (allow = true → default 0 (P !! k) ≤ next_ceiling k c).
Proof.
  intros Hk Hon. destruct (Hroom k c Hk Hon) as [_ Hr]. pose proof (mo_cap _ (bk_money _ _ Hbk) k c Hk) as Hcap.
  destruct (sh_channel _ _ (bk_shape _ _ Hbk) k c Hk) as (_ & (_ & [Hc0 _] & _) & Hv & _). apply validate_channel_ok in Hv as (_ & Hmax & _).
  pose proof (room_nonneg s c Hc0) as H0. unfold next_ceiling. destruct allow.
  - assert (default 0 (P !! k) ≤ room s c) as Hp by (destruct (P !! k) as [v|] eqn:Hv; [by eapply HP|done]).
    revert Hr Hcap Hmax H0 Hp. generalize (room s c), (default 0 (P !! k)), (capacity_sat (terms c) * 1000). clear -Hw. intros. mlia.
  - revert Hr Hcap Hmax H0. generalize (room s c), (capacity_sat (terms c) * 1000). clear. intros. split; [mlia|done].
Qed.

Definition windows_of (m : gmap string Channel) (C : gmap string Z) : Prop := ∀ k v,
  C !! k = Some v ↔ quoted s k ∧ ∃ c, m !! k = Some c ∧ channel_active c = true ∧ v = next_ceiling k c.

Lemma next_windows_ok r L m C u : window_msat r = w → ceilings (windows r) = P → map_splits (channels s) m L → windows_of m C →
  u = channel_usage <$> m →
  ∃ C', next_windows r allow (Recovery.snapshot ord limits s) (C, u) ((λ kc, Recovery.save_channel kc.2) <$> L)
    = Ok (C', channel_usage <$> channels s) ∧ windows_of (channels s) C'.
Proof.
  intros Ew EP. revert m C u. induction L as [|[k c] L IH]; intros m C u Hsp HC ->.
  { exists C. cbn. rewrite (map_splits_nil _ _ Hsp) in *. done. }
  apply map_splits_cons in Hsp as (Hmk & Hk & _ & Hsp). destruct (sh_channel _ _ (bk_shape _ _ Hbk) k c Hk) as (Eid & _).
  cbn [fmap list_fmap next_windows snd Recovery.save_channel cs_terms cs_active cs_usage fst]. rewrite Eid.
  assert (<[k := channel_usage c]> (channel_usage <$> m) = channel_usage <$> <[k := c]> m) as -> by (by rewrite fmap_insert).
  set (q := existsb _ _). destruct (channel_active c && q) eqn:Hq.
  - apply andb_prop in Hq as [Hon Hq%snapshot_quoted]. rewrite (reservation_limit_room k c Hk Hon), Ew, EP. fold (next_ceiling k c).
    destruct (next_ceiling_bounds k c Hk Hon) as [[_ Hle] _]. rewrite (proj2 (Z.ltb_ge _ _) Hle), andb_false_r. apply (IH (<[k := c]> m)); [done| |done].
    intros k' v. destruct (decide (k' = k)) as [->|Hne].
    + rewrite !lookup_insert_eq. split; [intros [= <-]; eauto 10|]. intros (_ & c1 & [= <-] & _ & ->). done.
    + rewrite !lookup_insert_ne by done. apply HC.
  - apply (IH (<[k := c]> m)); [done| |done]. intros k' v. rewrite (HC k' v). destruct (decide (k' = k)) as [->|Hne].
    + rewrite Hmk, lookup_insert_eq. split; [intros (_ & c1 & ? & _); done|]. intros (Hqk%snapshot_quoted & c1 & [= <-] & Hon & _).
      unfold q in Hq. by rewrite Hon, Hqk in Hq.
    + by rewrite lookup_insert_ne.
Qed.

Lemma windows_suit C : windows_of (channels s) C → suits s C ∧ capped C s
  ∧ (allow = true → ∀ k, quoted s k → default 0 (P !! k) ≤ default 0 (C !! k)).
Proof.
  intros HC. pose proof (bk_shape _ _ Hbk) as Hsh.
  assert (∀ k, quoted s k → ∃ c, channels s !! k = Some c ∧ channel_active c = true) as Hq.
  { intros k (i & a & Hi & Hon & <-). destruct (sh_home _ _ Hsh i a Hi) as (c & Hc & _ & _ & Hact). eauto. }
  split_and!.
  - split.
    + intros k v (Hqk & c & Hc & Hon & ->)%HC. split; [done|]. exists c. destruct (Hroom k c Hc Hon) as [Hca _].
      destruct (next_ceiling_bounds k c Hc Hon) as [? _]. done.
    + intros k Hqk. destruct (Hq k Hqk) as (c & Hc & Hon). exists (next_ceiling k c). apply HC. eauto.
  - intros k v c (_ & c1 & Hc1 & Hon & ->)%HC Hc _. rewrite Hc1 in Hc. injection Hc as <-. by apply (next_ceiling_bounds k c1).
  - intros Hal k Hqk. destruct (Hq k Hqk) as (c & Hc & Hon). assert (C !! k = Some (next_ceiling k c)) as -> by (apply HC; eauto).
    cbn. by apply (next_ceiling_bounds k c Hc Hon).
Qed.

End windows.

(** ** What a journal on disk guarantees *)

(** What a channel has reserved after recovery. *)
Definition cover (S : State) (C : gmap string Z) (k : string) : Z :=
  match C !! k with
  | Some v => v
  | None => match channels S !! k with Some c => reserved_msat (channel_usage c) | None => 0 end
  end.

Definition covers (S : State) (C : gmap string Z) (L : State) : Prop := ∀ k c, channels L !! k = Some c →
  match channels S !! k with
  | None => reserved_msat (channel_usage c) ≤ 0
  | Some c0 => terms c = terms c0 ∧ submitted_msat (channel_usage c0) ≤ submitted_msat (channel_usage c)
      ∧ paid_msat (channel_usage c0) ≤ paid_msat (channel_usage c) ∧ reserved_msat (channel_usage c) ≤ cover S C k
  end.

(** The windows [P] that forwarding uses are within those of the journal. *)
Definition bounded (S : State) (C : gmap string Z) (L : State) (P : gmap string Z) : Prop := ∀ k c,
  channels L !! k = Some c → channel_active c = true → quoted L k → default 0 (P !! k) ≤ cover S C k.

Definition same_dom (S L : State) : Prop := ∀ k, is_Some (channels S !! k) ↔ is_Some (channels L !! k).

Lemma reserved_nonneg limits s k c : books limits s → channels s !! k = Some c → 0 ≤ reserved_msat (channel_usage c).
Proof.
  intros [Hsh Htr Hmo _] Hk. rewrite (mo_reserved _ Hmo k c Hk). pose proof (mo_lost _ Hmo k c Hk). pose proof (booked_nonneg Hsh Htr k).
  destruct (sh_channel _ _ Hsh k c Hk) as (_ & _ & _ & (_ & _ & _ & _ & _ & _ & ?)). lia.
Qed.

Section journal.
Context (limits : Limits) (S : State) (C : gmap string Z) (Hb : books limits S) (HC : suits S C).

Lemma cover_nonneg k : 0 ≤ cover S C k.
Proof.
  unfold cover. destruct (C !! k) as [v|] eqn:Hv.
  - destruct (su_window _ _ HC k v Hv) as (_ & c & Hc & _ & _ & Hlo & _). pose proof (reserved_nonneg _ _ _ _ Hb Hc). lia.
  - destruct (channels S !! k) as [c|] eqn:Hc; [|done]. by eapply reserved_nonneg.
Qed.

Lemma cover_absent k : channels S !! k = None → cover S C k = 0.
Proof.
  intros Hk. unfold cover. rewrite Hk. destruct (C !! k) as [v|] eqn:Hv; [|done].
  destruct (su_window _ _ HC k v Hv) as (_ & c & Hc & _). congruence.
Qed.

Lemma bounded_own L : bounded S C L C.
Proof.
  intros k c _ _ _. pose proof (cover_nonneg k) as H. unfold cover in *. by destruct (C !! k).
Qed.

Lemma covers_self : covers S C S.
Proof.
  intros k c Hk. rewrite Hk. split_and!; [done|done|done|]. unfold cover. rewrite Hk. destruct (C !! k) as [v|] eqn:Hv; [|done].
  destruct (su_window _ _ HC k v Hv) as (_ & c1 & Hc1 & _ & _ & Hlo & _). rewrite Hk in Hc1. by injection Hc1 as <-.
Qed.

Lemma covers_recovered ord L : recovered ord S C L → covers S C L.
Proof.
  intros [_ _ Hch _ _ _] k c. rewrite Hch. destruct (channels S !! k) as [c0|] eqn:Hc0; [|done]. intros [= <-]. unfold cover. rewrite Hc0.
  by destruct (C !! k).
Qed.

Lemma forwards_covers P L L' : bounded S C L P → forwards P L L' → covers S C L → covers S C L'.
Proof.
  intros Hbd [Hch _ _ _] Hcov k c' Hk. destruct (Hch k c' Hk) as (c & Hc & Ht & Hon & Hp & Hs & Hr). specialize (Hcov k c Hc).
  pose proof (cover_nonneg k) as Hn.
  assert (reserved_msat (channel_usage c') = reserved_msat (channel_usage c) ∨ reserved_msat (channel_usage c') ≤ cover S C k) as Hr'.
  { destruct Hr as [Hr|(Hq & Ha & Hle)]; [by left|right]. specialize (Hbd k c Hc Ha Hq). lia. }
  destruct (channels S !! k) as [c0|] eqn:Hc0.
  - destruct Hcov as (? & ? & ? & ?). rewrite Ht, Hp. split_and!; [done|lia|lia|lia].
  - assert (cover S C k = 0) as E by (by apply cover_absent). lia.
Qed.

Lemma changes_covers L L' : same_dom S L → changes L L' → covers S C L → covers S C L'.
Proof.
  intros Hd Hch Hcov k c' Hk. destruct (Hch k c' Hk) as [(c & Hc & (Ht & Hr & Hs & Hp & _) & _)|(Hnew & Hr & _)].
  - specialize (Hcov k c Hc). rewrite Ht, Hr. destruct (channels S !! k); [|done]. destruct Hcov as (? & ? & ? & ?). split_and!; [done|lia|lia|done].
  - destruct (channels S !! k) as [c0|] eqn:Hc0; [|lia]. destruct (proj1 (Hd k)) as [x Hx]; [by eexists|]. congruence.
Qed.

End journal.

Lemma forwards_bounded P Q S C L L' : forwards P L L' → bounded S C L Q → bounded S C L' Q.
Proof.
  intros [Hch _ Hq _] Hbd k c' Hk Hon Hqk. destruct (Hch k c' Hk) as (c & Hc & _ & Ha & _). apply (Hbd k c Hc); [congruence|by apply Hq].
Qed.

Lemma forwards_capped P Q L L' : forwards P L L' → capped Q L → capped Q L'.
Proof.
  intros [Hch _ _ Hca] Hcap k v c' Hv Hk Hon. destruct (Hch k c' Hk) as (c & Hc & Ht & Ha & Hp & _). rewrite Ha in Hon.
  specialize (Hcap k v c Hv Hc Hon). pose proof (room_mono L L' c c' Ht ltac:(lia) (Hca k c Hc Hon)). lia.
Qed.

Lemma forwards_dom P S L L' : forwards P L L' → same_dom S L → same_dom S L'.
Proof. intros [_ Hd _ _] H k. etrans; [apply H|apply Hd]. Qed.

Lemma changes_capped Q L L' : (∀ k v, Q !! k = Some v → is_Some (channels L !! k)) → changes L L' → capped Q L → capped Q L'.
Proof.
  intros Hkeys Hch Hcap k v c' Hv Hk Hon. destruct (Hch k c' Hk) as [(c & Hc & (Ht & _ & _ & Hp & Ha) & Hca)|(Hnew & _)].
  - specialize (Hcap k v c Hv Hc (Ha Hon)). pose proof (room_mono L L' c c' Ht Hp (Hca Hon)). lia.
  - destruct (Hkeys k v Hv) as [x Hx]. congruence.
Qed.

(** ** The invariant of the system *)

Section safety.
Context (ord : Orders) (windows_order : MapOrder string Z) (sha256 : list Z → list Z).
Context (to_vec : Journal → option (list Z)) (from_slice : list Z → option Journal).
Import System.

(** The bytes of a journal that recovers to a ledger [S] with the windows [C]. *)
Record good (b : list Z) (S : State) (C : gmap string Z) : Prop := {
  gd_read : ∃ limits w, from_slice b = Some (mkJournal 1 w (Recovery.snapshot ord limits S) C)
    ∧ limits_ok limits ∧ 0 < w ∧ books limits S;
  gd_size : Z.of_nat (length b) ≤ MAX_JOURNAL_BYTES;
  gd_room : headroom S;
  gd_suits : suits S C
}.

(** A journal that covers the live relay. *)
Record safe (b : list Z) (S : State) (C : gmap string Z) (r : Relay) : Prop := {
  sf_good : good b S C;
  sf_covers : covers S C (ledger r);
  sf_bounded : ready (windows r) = true → bounded S C (ledger r) (ceilings (windows r))
}.

Record relay_ok (r : Relay) : Prop := {
  ro_limits : limits_ok (ledger_limits r);
  ro_window : 0 < window_msat r;
  ro_books : books (ledger_limits r) (ledger r);
  ro_room : headroom (ledger r)
}.

(** The journal on disk, by phase. *)
Definition disk_ok (y : Sys) : Prop :=
  match disk y with
  | None => ledger (relay y) = RelayLedger.new ∧ ready (windows (relay y)) = false
      ∧ match phase y with Synced _ _ _ => False | _ => True end
  | Some b => ∃ S C, safe b S C (relay y) ∧
      match phase y with
      | Idle => ready (windows (relay y)) = true →
          ceilings (windows (relay y)) = C ∧ same_dom S (ledger (relay y)) ∧ capped C (ledger (relay y))
      | Synced c _ _ => c = C ∧ same_dom S (ledger (relay y)) ∧ capped C (ledger (relay y))
      | _ => True
      end
  end.

(** What the controller has in hand, by phase. *)
Definition work_ok (y : Sys) : Prop :=
  match phase y with
  | Changed allow => if allow then capped (ceilings (windows (relay y))) (ledger (relay y))
                     else ready (windows (relay y)) = false
  | Writing b c _ _ => ∃ S, safe b S c (relay y) ∧ same_dom S (ledger (relay y)) ∧ capped c (ledger (relay y))
  | _ => True
  end.

Definition invariant (y : Sys) : Prop := (phase y ≠ Down → relay_ok (relay y)) ∧ disk_ok y ∧ work_ok y.

Lemma safe_books b S C r : safe b S C r → ∃ limits, books limits S.
Proof. intros [[(limits & w & _ & _ & _ & Hb) _ _ _] _ _]. eauto. Qed.

(** Forwarding keeps a journal safe. *)
Lemma forwards_safe P b S C r s' : forwards P (ledger r) s' → (ready (windows r) = true → P = ceilings (windows r)) →
  (ready (windows r) = false → P = ∅) → safe b S C r → safe b S C (DurableRelay.set_ledger r s').
Proof.
  intros Hf HP HP' Hs. destruct (safe_books b S C r Hs) as [limits Hb]. destruct Hs as [Hg Hc Hbd]. pose proof (gd_suits _ _ _ Hg) as HC. split; [done| |].
  - cbn. destruct (ready (windows r)) eqn:Hr.
    + apply (forwards_covers limits S C Hb HC P (ledger r)); [rewrite HP by done; by apply Hbd|done|done].
    + apply (forwards_covers limits S C Hb HC P (ledger r)); [|done|done]. rewrite HP' by done. intros k c _ _ _. rewrite lookup_empty.
      by apply (cover_nonneg limits S C Hb HC).
  - cbn. intros Hr. by eapply forwards_bounded, Hbd.
Qed.

Lemma forwards_invariant P r d ph s' : forwards P (ledger r) s' → (ready (windows r) = true → P = ceilings (windows r)) →
  (ready (windows r) = false → P = ∅) → ph ≠ Down → books (ledger_limits r) s' → headroom s' →
  (ledger r = RelayLedger.new → ready (windows r) = false → s' = ledger r) →
  invariant (mkSys r d ph) → invariant (mkSys (DurableRelay.set_ledger r s') d ph).
Proof.
  intros Hf HP HP' Hph Hb Hh Hnew (Hro & Hdisk & Hwork). split_and!.
  - intros _. destruct (Hro Hph). by split.
  - unfold disk_ok in *. cbn in *. destruct d as [b|].
    + destruct Hdisk as (S & C & Hs & Hrest). exists S, C. split; [by eapply forwards_safe|].
      destruct ph; try done.
      * intros Hr. destruct (Hrest Hr) as (? & ? & ?). split_and!; [done|by eapply forwards_dom|by eapply forwards_capped].
      * destruct Hrest as (? & ? & ?). split_and!; [done|by eapply forwards_dom|by eapply forwards_capped].
    + destruct Hdisk as (Hl & Hr & Hs). split; [|done]. by rewrite Hnew.
  - unfold work_ok in *. cbn in *. destruct ph as [|[]|? ? ? ?|? ? ?| |]; try done.
    + by eapply forwards_capped.
    + destruct Hwork as (S & Hs & ? & ?). exists S. split_and!; [by eapply forwards_safe|by eapply forwards_dom|by eapply forwards_capped].
Qed.

Lemma admit_invariant r d ph req now r' tok : ph ≠ Down → DurableRelay.admit_request ord sha256 r req now = Ok (r', tok) →
  invariant (mkSys r d ph) → invariant (mkSys r' d ph).
Proof.
  intros Hph He Hinv. pose proof (proj1 Hinv Hph) as [_ _ Hb Hh]. cbn in *. unfold DurableRelay.admit_request in He.
  destruct (ready (windows r)) eqn:Hr; [|done]. destruct now as [t|]; [|done]. cbn [negb RelayLedger.ask mbind outcome_bind] in He.
  pose proof (admit_spec ord sha256 (ledger_limits r) (ledger r) req t (Some (ceilings (windows r))) (bk_shape _ _ Hb)) as Hspec.
  destruct (RelayLedger.admit_with_windows _ _ _ _ _ _ _) as [[s tk]| |]; cbn [mbind outcome_bind] in He; [|done|done]. injection He as <- <-.
  destruct Hspec as (id & a & c & digest & n & total & Had & -> & _).
  eapply forwards_invariant; [by eapply admitted_forwards|done|congruence|done|by eapply admitted_books|by eapply admitted_headroom|congruence|done].
Qed.

Lemma complete_invariant r d ph tok out r' : ph ≠ Down → DurableRelay.complete r tok out = Ok r' →
  invariant (mkSys r d ph) → invariant (mkSys r' d ph).
Proof.
  intros Hph He Hinv. pose proof (proj1 Hinv Hph) as [_ _ Hb Hh]. cbn in *. unfold DurableRelay.complete in He.
  destruct (RelayLedger.complete (ledger r) tok out) as [s| |] eqn:Hs; cbn [mbind outcome_bind] in He; [|done|done]. injection He as <-.
  pose proof (complete_books _ Hb tok out) as Hb'. rewrite Hs in Hb'.
  eapply (forwards_invariant (if ready (windows r) then ceilings (windows r) else ∅));
    [by eapply complete_forwards|by intros ->|by intros ->|done|done|by apply (complete_headroom (ledger_limits r) (ledger r) tok out)| |done].
  intros Hn _. rewrite Hn in Hs |- *. by injection Hs as <-.
Qed.

Lemma good_load b S C : good b S C → ∃ r, DurableRelay.load ord windows_order from_slice b = Ok r ∧ recovered ord S C (ledger r)
  ∧ relay_ok r ∧ windows r = DurableRelay.no_windows.
Proof.
  intros [(limits & w & Hread & Hl & Hw & Hb) Hsz Hh HC]. unfold DurableRelay.load. rewrite (proj2 (Z.ltb_ge _ _) Hsz), Hread. cbn.
  rewrite (proj2 (Z.eqb_neq w 0)) by lia. cbn [orb].
  destruct (recover_windows_ok ord limits windows_order S C Hl Hb HC) as (s' & -> & Hrec & Hb'). eexists. split; [done|]. cbn.
  split_and!; [done| |done]. split; [done|done|done|by apply (recovered_headroom ord limits S C)].
Qed.

(** Turning the relay off keeps a journal safe. *)
Lemma unready_safe b S C r : safe b S C r → safe b S C (DurableRelay.set_ready r false).
Proof. intros [Hg Hc _]. by split. Qed.

Lemma unready_ok r : relay_ok r → relay_ok (DurableRelay.set_ready r false).
Proof. intros []. by split. Qed.

Lemma unready_disk r d ph ph' : ph' = Idle ∨ ph' = Changed false → disk_ok (mkSys r d ph) →
  disk_ok (mkSys (DurableRelay.set_ready r false) d ph').
Proof.
  intros Hph Hd. unfold disk_ok in *. cbn in *. destruct d as [b|].
  - destruct Hd as (S & C & Hs & _). exists S, C. split; [by apply unready_safe|]. by destruct Hph as [-> | ->].
  - destruct Hd as (? & _). split_and!; [done|done|]. by destruct Hph as [-> | ->].
Qed.

Context (Hcodec : ∀ j b, to_vec j = Some b → from_slice b = Some j).

Lemma prepare_succeeds r allow : relay_ok r → (allow = true → capped (ceilings (windows r)) (ledger r)) →
  ∃ c, DurableRelay.next_windows r allow (Recovery.snapshot ord (ledger_limits r) (ledger r)) (∅, ∅)
         (snap_channels (Recovery.snapshot ord (ledger_limits r) (ledger r))) = Ok (c, channel_usage <$> channels (ledger r))
    ∧ suits (ledger r) c ∧ capped c (ledger r)
    ∧ (allow = true → ∀ k, quoted (ledger r) k → default 0 (ceilings (windows r) !! k) ≤ default 0 (c !! k)).
Proof.
  intros [Hl Hw Hb Hh] Hcap.
  destruct (next_windows_ok ord (ledger_limits r) (ledger r) Hb Hh (window_msat r) (ceilings (windows r)) allow ltac:(lia) Hcap r
    (map_iter (channels_order ord) (channels (ledger r))) ∅ ∅ ∅) as (c & E & HC); [done|done|apply map_splits_iter| |by rewrite fmap_empty|].
  { intros k v. rewrite lookup_empty. split; [done|]. intros (_ & x & Hx & _). by rewrite lookup_empty in Hx. }
  exists c. split; [done|]. by apply (windows_suit (ledger_limits r) (ledger r) Hb Hh (window_msat r) _ allow ltac:(lia) Hcap).
Qed.

Lemma prepare_invariant r d allow b c u : DurableRelay.prepare ord to_vec r allow = Ok (b, c, u) →
  invariant (mkSys r d (Changed allow)) → invariant (mkSys r d (Writing b c u allow)).
Proof.
  intros He (Hro & Hdisk & Hwork). pose proof (Hro ltac:(done)) as Hok. unfold work_ok in Hwork. cbn in Hwork.
  destruct (prepare_succeeds r allow Hok ltac:(by intros ->)) as (c' & En & HC & Hcap & Hge).
  unfold DurableRelay.prepare in He. cbv zeta in He. rewrite En in He. cbn [mbind outcome_bind] in He.
  destruct (to_vec _) as [bytes|] eqn:Hv; [|done]. destruct (Z.ltb_spec MAX_JOURNAL_BYTES (Z.of_nat (length bytes))); [done|]. injection He as <- <- <-.
  destruct Hok as [Hl Hw Hb Hh]. split_and!; [by intros _|done|]. unfold work_ok. cbn. exists (ledger r). split_and!; [|done|done]. split.
  - split; [|done|done|done]. exists (ledger_limits r), (window_msat r). split_and!; [by apply Hcodec|done|done|done].
  - by apply covers_self.
  - intros Hr k ch Hk Hon Hq. destruct allow; [|congruence]. specialize (Hge eq_refl k Hq). destruct (su_active _ _ HC k Hq) as [v Hv']. 
    unfold cover. rewrite Hv' in *. done.
Qed.

Lemma change_invariant r d o s : ready (windows r) = true → controller o = true → op_ok o →
  LedgerTrace.step ord sha256 (ledger_limits r) (ledger r) o = Ok s → invariant (mkSys r d Idle) →
  invariant (mkSys (DurableRelay.set_ledger r s) d (Changed true)).
Proof.
  intros Hr Hco Hok Hst (Hro & Hdisk & _). pose proof (Hro ltac:(done)) as [Hl Hw Hb Hh]. unfold disk_ok in Hdisk. cbn in *.
  destruct d as [b|]; [|destruct Hdisk as (_ & ? & _); congruence]. destruct Hdisk as (S & C & Hs & Hidle). destruct (Hidle Hr) as (EP & Hdom & Hcap).
  destruct (safe_books b S C r Hs) as [limits HbS]. destruct Hs as [Hg Hc Hbd]. pose proof (gd_suits _ _ _ Hg) as HC.
  pose proof (step_changes ord sha256 (ledger_limits r) (ledger r) o s Hb Hok Hco Hst) as Hch.
  destruct (step_books ord sha256 (ledger_limits r) (ledger r) o Hl Hb Hok) as (s1 & Hs1 & Hb1). rewrite Hst in Hs1. injection Hs1 as <-. split_and!.
  - intros _. split; cbn; [done|done|done|]. by apply (changes_headroom (ledger_limits r) (ledger r)).
  - unfold disk_ok. cbn. exists S, C. split; [|done]. split; cbn; [done|by apply (changes_covers S C (ledger r))|]. intros _. rewrite EP. by apply (bounded_own limits).
  - unfold work_ok. cbn. rewrite EP. eapply changes_capped; [|done|done]. intros k v Hv. destruct (su_window _ _ HC k v Hv) as (_ & c0 & Hc0 & _).
    apply Hdom. by eexists.
Qed.

Lemma step_invariant y y' : invariant y → step ord windows_order sha256 to_vec from_slice y y' → invariant y'.
Proof.
  intros Hinv Hstep. destruct Hstep as [r d ph req now r' tok Hph He|r d ph tok out r' Hph He|r d o s Hr Hco Hok Hst|r d Hr|r d allow b c u He
    |r d allow e He|r d b c u allow|r d d' b c u allow Hd|r d|r d c u allow|y d Hsv|r limits window r' Hl Hw He|r b r' He].
  - by eapply admit_invariant.
  - by eapply complete_invariant.
  - by eapply change_invariant.
  - destruct Hinv as (Hro & Hdisk & _). split_and!; [intros _; by apply unready_ok, Hro|by eapply unready_disk; [|done]; auto|done].
  - by eapply prepare_invariant.
  - destruct Hinv as (Hro & Hdisk & _). split_and!; [intros _; by apply unready_ok, Hro|by eapply unready_disk; [|done]; auto|done].
  - destruct Hinv as (Hro & _ & (S & Hs & Hdom & Hcap)). split_and!; [by intros _; apply Hro| |done]. unfold disk_ok. cbn. exists S, c. done.
  - destruct Hinv as (Hro & Hdisk & (S & Hs & _)). split_and!; [by intros _; apply Hro| |done]. unfold disk_ok in *. cbn in *.
    destruct Hd as [->| ->]; [|by exists S, c]. destruct d as [b'|]; [|by destruct Hdisk as (? & ? & _)].
    destruct Hdisk as (S' & C & Hs' & _). by exists S', C.
  - destruct Hinv as (Hro & Hdisk & _). split_and!; [intros _; by apply unready_ok, Hro|by eapply unready_disk; [|done]; auto|done].
  - destruct Hinv as (Hro & Hdisk & _). destruct (Hro ltac:(done)) as [Hl Hw Hb Hh]. split_and!; [intros _; by split| |done].
    unfold disk_ok in *. cbn in *. destruct d as [b|].
    + destruct Hdisk as (S & C & Hs & -> & Hdom & Hcap). exists S, C. split; [|done]. destruct (safe_books b S C r Hs) as [limits HbS].
      destruct Hs as [Hg Hc _]. split; cbn; [done|done|]. intros _. eapply bounded_own; [done|apply (gd_suits _ _ _ Hg)].
    + by destruct Hdisk as (_ & _ & []).
  - destruct Hinv as (Hro & Hdisk & Hwork). split_and!; [done| |done]. unfold disk_ok, work_ok in *. cbn in *. destruct Hsv as [->|Hsv].
    + destruct (disk y) as [b|]; [|by destruct Hdisk as (? & ? & _)]. destruct Hdisk as (S & C & Hs & _). by exists S, C.
    + destruct (phase y) as [| |b c u allow| | |]; try done. subst d. destruct Hwork as (S & Hs & _). by exists S, c.
  - unfold DurableRelay.create in He. destruct (Z.eqb_spec window 0); [done|]. injection He as <-. split_and!; [|done|].
    + intros _. split; cbn; [done|lia|by apply new_books|]. intros k c Hk. by simplify_map_eq.
    + unfold work_ok. cbn. intros k v c Hv. by simplify_map_eq.
  - destruct Hinv as (_ & Hdisk & _). unfold disk_ok in Hdisk. cbn in *. destruct Hdisk as (S & C & Hs & _).
    destruct (safe_books b S C r Hs) as [limits HbS]. destruct Hs as [Hg _ _]. destruct (good_load b S C Hg) as (r1 & E1 & Hrec & Hok & Hwin).
    rewrite He in E1. injection E1 as <-. split_and!; [by intros _| |].
    + unfold disk_ok. cbn. exists S, C. split; [|done]. split; [done|by eapply covers_recovered|]. by rewrite Hwin.
    + unfold work_ok. cbn. rewrite Hwin. intros k v c Hv. by simplify_map_eq.
Qed.

End safety.

(** ** Recovery *)

Section theorems.
Context (ord : Orders) (windows_order : MapOrder string Z) (sha256 : list Z → list Z).
Context (to_vec : Journal → option (list Z)) (from_slice : list Z → option Journal).
Import System.

Lemma reachable_invariant y : (∀ j b, to_vec j = Some b → from_slice b = Some j) →
  reachable ord windows_order sha256 to_vec from_slice y →
  invariant ord from_slice y ∧ books (ledger_limits (relay y)) (ledger (relay y)).
Proof.
  intros Hcodec. induction 1 as [|y y' _ [IH IHb] Hstep].
  - split; [|by apply new_books]. split_and!; [done|done|done].
  - pose proof (step_invariant ord windows_order sha256 to_vec from_slice Hcodec y y' IH Hstep) as Hinv. split; [done|].
    assert (phase y' = Down ∨ phase y' ≠ Down) as [Hd|Hd] by (destruct (phase y'); auto); [|by destruct (proj1 Hinv Hd)].
    destruct Hstep; cbn in *; done.
Qed.

(** A [mutate] that returns is a change, a preparation, a write and a publication
    with nothing in between. *)
Lemma mutate_reaches r b o s r' u : reachable ord windows_order sha256 to_vec from_slice (mkSys r (Some b) Idle) →
  controller o = true → op_ok o → LedgerTrace.step ord sha256 (ledger_limits r) (ledger r) o = Ok s →
  DurableRelay.mutate ord to_vec r (λ _, Ok (s, ())) (Ok ()) = (r', Ok ((), u)) →
  ∃ b', reachable ord windows_order sha256 to_vec from_slice (mkSys r' (Some b') Idle).
Proof.
  intros Hr Hco Hok Hst Hm. unfold DurableRelay.mutate in Hm. destruct (ready (windows r)) eqn:Hon; [|done]. cbn [negb] in Hm.
  unfold DurableRelay.persist, DurableRelay.persist_next in Hm.
  destruct (DurableRelay.prepare _ _ _ _) as [[[b' c] u']| |] eqn:Hp; cbn in Hm; [|done|done]. injection Hm as <- _.
  exists b'. eapply reach_step; [eapply reach_step; [eapply reach_step; [eapply reach_step; [exact Hr|]|]|]|].
  - by eapply step_change.
  - by eapply step_prepare.
  - apply step_write.
  - apply step_publish.
Qed.

(** C5: Crash safety. At any moment of any run of the relay (forwarding and completions
    interleaved with ledger changes, journal writes that may fail half way, earlier
    crashes and recoveries), whatever journal a crash leaves on disk loads: the
    ledger it recovers balances, and knows every channel of the live ledger that ever
    reserved anything, under the same terms, with at least as much reserved (so no
    credit is given twice) and at most as much submitted or paid (so nothing is
    billed that was not forwarded, and no payment is invented). *)
Theorem crash_recovery_covers y b : (∀ j b, to_vec j = Some b → from_slice b = Some j) →
  reachable ord windows_order sha256 to_vec from_slice y → survives y (Some b) →
  ∃ r, DurableRelay.load ord windows_order from_slice b = Ok r ∧ books (ledger_limits r) (ledger r)
    ∧ ∀ k c, channels (ledger (relay y)) !! k = Some c →
      reserved_msat (channel_usage c) = 0 ∨
      ∃ c', channels (ledger r) !! k = Some c' ∧ terms c' = terms c
        ∧ reserved_msat (channel_usage c) ≤ reserved_msat (channel_usage c')
        ∧ submitted_msat (channel_usage c') ≤ submitted_msat (channel_usage c)
        ∧ paid_msat (channel_usage c') ≤ paid_msat (channel_usage c).
Proof.
  intros Hcodec Hreach Hsv. destruct (reachable_invariant y Hcodec Hreach) as [(_ & Hdisk & Hwork) Hbooks].
  assert (∃ S C, safe ord from_slice b S C (relay y)) as (S & C & [Hg Hc _]).
  { unfold disk_ok, work_ok in *. destruct Hsv as [E|Hsv].
    - rewrite <- E in Hdisk. destruct Hdisk as (S & C & Hs & _). eauto.
    - destruct (phase y); try done. injection Hsv as <-. destruct Hwork as (S & Hs & _). eauto. }
  destruct (good_load ord windows_order from_slice b S C Hg) as (r & Hl & Hrec & [_ _ Hb _] & _). exists r. split_and!; [done|done|].
  intros k c Hk. specialize (Hc k c Hk). pose proof (reserved_nonneg _ _ k c Hbooks Hk). pose proof (rw_channels _ _ _ _ Hrec k) as Hch.
  destruct (channels S !! k) as [c0|] eqn:Hc0; [right|left; lia]. destruct Hc as (Ht & Hs & Hp & Hr). exists (consumed (C !! k) c0).
  destruct (consumed_terms (C !! k) c0) as (-> & _ & _ & ->). split_and!; [done|done| |by destruct (C !! k)|done].
  unfold cover in Hr. rewrite Hc0 in Hr. by destruct (C !! k).
Qed.


End theorems.

(** ** A lawful codec, and a crash with a packet in flight *)

Module Codec.

#[local] Instance Limits_eq_dec : EqDecision Limits.
Proof. solve_decision. Defined.
#[local] Instance Attempt_eq_dec : EqDecision Attempt.
Proof. solve_decision. Defined.
#[local] Instance ChannelSnapshot_eq_dec : EqDecision ChannelSnapshot.
Proof. solve_decision. Defined.
#[local] Instance AccountSnapshot_eq_dec : EqDecision AccountSnapshot.
Proof. solve_decision. Defined.
#[local] Instance Snapshot_eq_dec : EqDecision Snapshot.
Proof. solve_decision. Defined.
#[local] Instance Journal_eq_dec : EqDecision Journal.
Proof. solve_decision. Defined.

#[local] Instance Terms_countable : Countable ChannelTerms.
Proof.
  apply (inj_countable' (λ t, (terms_id t, buyer t, mint_url t, terms_expires_unix t, capacity_sat t, grace_msat t))
    (λ '(a, b, c, d, e, f), mkTerms a b c d e f)). by intros [].
Defined.
#[local] Instance Price_countable : Countable BytePrice.
Proof. apply (inj_countable' (λ p, (msat p, per_bytes p)) (λ '(a, b), mkPrice a b)). by intros []. Defined.
#[local] Instance Billing_countable : Countable BillingBasis.
Proof.
  apply (inj_countable' (λ b, match b with UniqueSessionEnvelope => 0 | ForwardingAttempt => 1 | ForwardingData => 2 end)
    (λ n, if n =? 0 then UniqueSessionEnvelope else if n =? 1 then ForwardingAttempt else ForwardingData)). by intros [].
Defined.
#[local] Instance State_countable : Countable AttemptState.
Proof.
  apply (inj_countable' (λ b, match b with Pending => 0 | Submitted => 1 | Unconfirmed => 2 end)
    (λ n, if n =? 0 then Pending else if n =? 1 then Submitted else Unconfirmed)). by intros [].
Defined.
#[local] Instance Contract_countable : Countable Contract.
Proof.
  apply (inj_countable' (λ c, (contract_id c, channel_id c, destination c, next_hop c, expires_unix c, price c, max_units c, billing c))
    (λ '(a, b, c, d, e, f, g, h), mkContract a b c d e f g h)). by intros [].
Defined.
#[local] Instance Limits_countable : Countable Limits.
Proof.
  apply (inj_countable' (λ l, (max_channels l, max_contracts l, max_packets_per_contract l, max_pending l))
    (λ '(a, b, c, d), mkLimits a b c d)). by intros [].
Defined.
#[local] Instance Usage_countable : Countable Usage.
Proof.
  apply (inj_countable' (λ u, (reserved_units u, submitted_units u, unconfirmed_units u)) (λ '(a, b, c), mkUsage a b c)). by intros [].
Defined.
#[local] Instance ChannelUsage_countable : Countable ChannelUsage.
Proof.
  apply (inj_countable' (λ u, (reserved_msat u, submitted_msat u, lost_msat u, paid_msat u))
    (λ '(a, b, c, d), mkChannelUsage a b c d)). by intros [].
Defined.
#[local] Instance Attempt_countable : Countable Attempt.
Proof. apply (inj_countable' (λ t, (token t, units t, attempt_state t)) (λ '(a, b, c), mkAttempt a b c)). by intros []. Defined.
#[local] Instance Retired_countable : Countable RetiredRouteEvidence.
Proof.
  apply (inj_countable' (λ r, (through_unix r, contracts r, retired_units r, retired_reserved_msat r, retired_submitted_msat r))
    (λ '(a, b, c, d, e), mkRetired a b c d e)). by intros [].
Defined.
#[local] Instance Debt_countable : Countable Debt.
Proof. apply (inj_countable' (λ d, (debt_buyer d, debt_mint d, debt_msat d)) (λ '(a, b, c), mkDebt a b c)). by intros []. Defined.
#[local] Instance History_countable : Countable History.
Proof.
  apply (inj_countable' (λ h, (history_channels h, expires_through_unix h, history_capacity_sat h, history_usage h, routes h, debts h))
    (λ '(a, b, c, d, e, f), mkHistory a b c d e f)). by intros [].
Defined.
#[local] Instance ChannelSnapshot_countable : Countable ChannelSnapshot.
Proof.
  apply (inj_countable' (λ c, (cs_retired c, cs_terms c, cs_usage c, cs_active c)) (λ '(a, b, c, d), mkChannelSnapshot a b c d)). by intros [].
Defined.
#[local] Instance AccountSnapshot_countable : Countable AccountSnapshot.
Proof.
  apply (inj_countable' (λ c, (as_contract c, as_usage c, as_active c, as_attempts c, as_completed c))
    (λ '(a, b, c, d, e), mkAccountSnapshot a b c d e)). by intros [].
Defined.
#[local] Instance Snapshot_countable : Countable Snapshot.
Proof.
  apply (inj_countable' (λ s, (version s, snap_limits s, snap_next_token s, snap_history s, snap_channels s, snap_accounts s))
    (λ '(a, b, c, d, e, f), mkSnapshot a b c d e f)). by intros [].
Defined.
#[local] Instance Journal_countable : Countable Journal.
Proof.
  apply (inj_countable' (λ j, (j_version j, j_window_msat j, j_ledger j, j_ceilings j)) (λ '(a, b, c, d), mkJournal a b c d)). by intros [].
Defined.

Definition bytes (j : Journal) : list Z := [Z.pos (encode j)].
Definition to_vec (j : Journal) : option (list Z) := Some (bytes j).
Definition from_slice (b : list Z) : option Journal := match b with [Z.pos p] => decode p | _ => None end.

Lemma from_slice_to_vec j b : to_vec j = Some b → from_slice b = Some j.
Proof. unfold to_vec. intros [= <-]. apply decode_encode. Qed.

End Codec.

Module Outage.
Import System.
Definition reach : Sys → Prop := reachable canonical_orders canonical_order Renewal.no_hash Codec.to_vec Codec.from_slice.

(** With this codec a journal is always written. *)
Lemma persisted r d c u :
  let sn := Recovery.snapshot canonical_orders (ledger_limits r) (ledger r) in
  reach (mkSys r d (Changed true)) → DurableRelay.next_windows r true sn (∅, ∅) (snap_channels sn) = Ok (c, u) →
  ∃ b, reach (mkSys (DurableRelay.publish r true c u) (Some b) Idle).
Proof.
  intros sn Hr Hn. exists (Codec.bytes (mkJournal 1 (window_msat r) sn c)).
  eapply reach_step; [eapply reach_step; [eapply reach_step; [exact Hr|]|]|].
  - apply (step_prepare _ _ _ _ _ r d true (Codec.bytes (mkJournal 1 (window_msat r) sn c)) c u).
    unfold DurableRelay.prepare. fold sn. rewrite Hn. reflexivity.
  - apply step_write.
  - apply step_publish.
Qed.

(** A change of the ledger while the relay is ready. *)
Lemma changed r b o s : reach (mkSys r (Some b) Idle) → ready (windows r) = true → controller o = true → op_ok o →
  LedgerTrace.step canonical_orders Renewal.no_hash (ledger_limits r) (ledger r) o = Ok s →
  reach (mkSys (DurableRelay.set_ledger r s) (Some b) (Changed true)).
Proof. intros Hr Hon Hco Hok Hst. eapply reach_step; [exact Hr|]. by eapply step_change. Qed.

Definition get {E} (m : outcome E State) : State := match m with Ok s => s | _ => RelayLedger.new end.
Definition run (s : State) (o : LedgerTrace.op) : State := get (LedgerTrace.step canonical_orders Renewal.no_hash Renewal.limits s o).

(** The ledger with a channel, then with a contract; the window of the channel. *)
Definition opened : State := run RelayLedger.new (LedgerTrace.OpenChannel (Renewal.terms_of "a") 0).
Definition agreed : State := run opened (LedgerTrace.AddContract (Renewal.contract_of "r" "a")).
Definition granted (s : State) (P : gmap string Z) : gmap string Z * gmap string ChannelUsage :=
  let r := mkRelay s Renewal.limits 2500 (mkWindows P ∅ true) in
  let sn := Recovery.snapshot canonical_orders Renewal.limits s in
  match DurableRelay.next_windows r true sn (∅, ∅) (snap_channels sn) with Ok p => p | _ => (∅, ∅) end.

Definition relay_at (s : State) (c : gmap string Z) (u : gmap string ChannelUsage) : Relay :=
  mkRelay s Renewal.limits 2500 (mkWindows c (reserved_msat <$> u) true).

(** A packet of two bytes is admitted within the window. *)
Definition serving : Relay :=
  let p := granted agreed ∅ in
  match DurableRelay.admit_request canonical_orders Renewal.no_hash (relay_at agreed p.1 p.2) (Renewal.packet 2) (Some 10) with
  | Ok (r, _) => r
  | _ => relay_at agreed p.1 p.2
  end.

Lemma serving_reached : ∃ b, reach (mkSys serving (Some b) Idle).
Proof.
  assert (reach init) as H0 by apply reach_init.
  assert (reach (mkSys (mkRelay RelayLedger.new Renewal.limits 2500 DurableRelay.no_windows) None (Changed true))) as H1.
  { eapply reach_step; [exact H0|]. by apply (step_create _ _ _ _ _ _ Renewal.limits 2500). }
  destruct (persisted _ _ ∅ ∅ H1) as [b1 H2]; [by vm_compute|].
  eapply (changed _ b1 (LedgerTrace.OpenChannel (Renewal.terms_of "a") 0) opened) in H2; [|done|done|by vm_compute|by vm_compute].
  destruct (persisted _ _ (granted opened ∅).1 (granted opened ∅).2 H2) as [b2 H3]; [by vm_compute|].
  eapply (changed _ b2 (LedgerTrace.AddContract (Renewal.contract_of "r" "a")) agreed) in H3; [|done|done|by vm_compute|by vm_compute].
  destruct (persisted _ _ (granted agreed ∅).1 (granted agreed ∅).2 H3) as [b3 H4]; [by vm_compute|].
  exists b3. eapply reach_step; [exact H4|]. eapply (step_admit _ _ _ _ _ _ _ _ (Renewal.packet 2) (Some 10) _ 1); [done|by vm_compute].
Qed.

End Outage.

Lemma crash_recovery_covers_witness : ∃ b r c', DurableRelay.load canonical_orders canonical_order Codec.from_slice b = Ok r
  ∧ channels (ledger r) !! "a"%string = Some c' ∧ 2000 ≤ reserved_msat (channel_usage c').
Proof.
  destruct Outage.serving_reached as [b Hb].
  destruct (crash_recovery_covers canonical_orders canonical_order Renewal.no_hash Codec.to_vec Codec.from_slice
    (System.mkSys Outage.serving (Some b) System.Idle) b Codec.from_slice_to_vec Hb (or_introl eq_refl)) as (r & Hl & _ & Hc).
  destruct (channels (ledger Outage.serving) !! "a"%string) as [c|] eqn:Ec; [|exfalso; revert Ec; by vm_compute].
  assert (reserved_msat (channel_usage c) = 2000) as Er.
  { enough ((λ c, reserved_msat (channel_usage c)) <$> channels (ledger Outage.serving) !! "a"%string = Some 2000) as E by (rewrite Ec in E; by injection E).
    by vm_compute. }
  destruct (Hc "a"%string c Ec) as [H0|(c' & Hc' & _ & Hle & _)]; [rewrite Er in H0; discriminate|].
  exists b, r, c'. rewrite Er in Hle. exact (conj Hl (conj Hc' Hle)).
Defined.

