(* ===== verification/HandshakeWire.v ===== *)
(** * Link-layer packets ([crates/fips-core/src/node/wire.rs])

    The common prefix and the two handshake messages that carry a Noise message
    and session indexes, built and parsed. Indexing is in range by the length
    checks that precede it. *)

From S2P Require Import Prelude Bytes StateErr Noise.

Local Open Scope Z_scope.

Module Wire.

Definition FMP_VERSION : Z := 0.
Definition PHASE_ESTABLISHED : Z := 0.
Definition PHASE_MSG1 : Z := 1.
Definition PHASE_MSG2 : Z := 2.
Definition COMMON_PREFIX_SIZE : nat := 4.
Definition ESTABLISHED_HEADER_SIZE : nat := 16.
Definition MSG1_WIRE_SIZE : nat := COMMON_PREFIX_SIZE + 4 + HANDSHAKE_MSG1_SIZE.
Definition MSG2_WIRE_SIZE : nat := COMMON_PREFIX_SIZE + 4 + 4 + HANDSHAKE_MSG2_SIZE.

Definition checked_sub_nat (a b : nat) : option nat := if (b <=? a)%nat then Some (a - b)%nat else None.

Definition expected_payload_len (phase : Z) (frame_len : nat) : option Z :=
  payload_len ←
    (if phase =? PHASE_ESTABLISHED then checked_sub_nat frame_len (ESTABLISHED_HEADER_SIZE + TAG_SIZE)
     else if (phase =? PHASE_MSG1) || (phase =? PHASE_MSG2) then checked_sub_nat frame_len COMMON_PREFIX_SIZE
     else None);
  if Z.of_nat payload_len <=? U16_MAX then Some (Z.of_nat payload_len) else None.

(** The fields kept outside tests. *)
Record CommonPrefix := mkPrefix { version : Z; phase : Z }.

Definition parse_prefix (data : list Z) : option CommonPrefix :=
  if (length data <? COMMON_PREFIX_SIZE)%nat then None
  else Some (mkPrefix (Z.shiftr (data !!! 0%nat) 4) (Z.land (data !!! 0%nat) 15)).

Definition ver_phase_byte (version phase : Z) : Z := Z.lor (Z.shiftl version 4 mod 256) (Z.land phase 15).

Record Msg1Header := mkMsg1 { m1_sender_idx : Z; noise_msg1_offset : nat }.
Record Msg2Header := mkMsg2 { m2_sender_idx : Z; receiver_idx : Z; noise_msg2_offset : nat }.

(** What both parsers check before they read the indexes. *)
Definition well_framed (size : nat) (want_phase : Z) (data : list Z) : bool :=
  if negb (length data =? size)%nat then false
  else
    let version := Z.shiftr (data !!! 0%nat) 4 in
    let phase := Z.land (data !!! 0%nat) 15 in
    if negb (version =? FMP_VERSION) || negb (phase =? want_phase) then false
    else if negb (data !!! 1%nat =? 0) then false
    else
      let declared := from_le_bytes [data !!! 2%nat; data !!! 3%nat] in
      bool_decide (Some declared = expected_payload_len phase (length data)).

Definition parse_msg1 (data : list Z) : option Msg1Header :=
  if well_framed MSG1_WIRE_SIZE PHASE_MSG1 data then
    Some (mkMsg1 (from_le_bytes [data !!! 4%nat; data !!! 5%nat; data !!! 6%nat; data !!! 7%nat])
            (COMMON_PREFIX_SIZE + 4))
  else None.

Definition parse_msg2 (data : list Z) : option Msg2Header :=
  if well_framed MSG2_WIRE_SIZE PHASE_MSG2 data then
    Some (mkMsg2 (from_le_bytes [data !!! 4%nat; data !!! 5%nat; data !!! 6%nat; data !!! 7%nat])
            (from_le_bytes [data !!! 8%nat; data !!! 9%nat; data !!! 10%nat; data !!! 11%nat])
            (COMMON_PREFIX_SIZE + 4 + 4))
  else None.

Definition build_msg1 (sender_idx : Z) (noise_msg1 : list Z) : list Z :=
  let payload_len := Z.of_nat (4 + length noise_msg1) mod 65536 in
  [ver_phase_byte FMP_VERSION PHASE_MSG1; 0] ++ to_le_bytes 2 payload_len ++ to_le_bytes 4 sender_idx ++ noise_msg1.

Definition build_msg2 (sender_idx receiver_idx : Z) (noise_msg2 : list Z) : list Z :=
  let payload_len := Z.of_nat (4 + 4 + length noise_msg2) mod 65536 in
  [ver_phase_byte FMP_VERSION PHASE_MSG2; 0] ++ to_le_bytes 2 payload_len ++ to_le_bytes 4 sender_idx
    ++ to_le_bytes 4 receiver_idx ++ noise_msg2.

End Wire.

Section wire.
Import Wire.

Lemma from_to_le_4 z : is_u32 z → from_le_bytes (to_le_bytes 4 z) = z.
Proof. intros. apply from_to_le_small. mlia. Qed.

Lemma parse_build_msg1 i m : is_u32 i → length m = HANDSHAKE_MSG1_SIZE →
  parse_msg1 (build_msg1 i m) = Some (mkMsg1 i 8) ∧ drop 8 (build_msg1 i m) = m.
Proof.
  intros Hi Hm. unfold parse_msg1, well_framed, build_msg1. rewrite Hm.
  split; [|reflexivity]. simpl length. rewrite Hm. cbn -[from_le_bytes to_le_bytes].
  rewrite bool_decide_true by reflexivity. simpl. do 2 f_equal. exact (from_to_le_4 i Hi).
Qed.

Lemma parse_build_msg2 i j m : is_u32 i → is_u32 j → length m = HANDSHAKE_MSG2_SIZE →
  parse_msg2 (build_msg2 i j m) = Some (mkMsg2 i j 12) ∧ drop 12 (build_msg2 i j m) = m.
Proof.
  intros Hi Hj Hm. unfold parse_msg2, well_framed, build_msg2. rewrite Hm.
  split; [|reflexivity]. simpl length. rewrite Hm. cbn -[from_le_bytes to_le_bytes].
  rewrite bool_decide_true by reflexivity. simpl. f_equal. f_equal; [exact (from_to_le_4 i Hi)|exact (from_to_le_4 j Hj)].
Qed.

End wire.
