(* ===== verification/Peers.v ===== *)
(** * Peers ([crates/fips-core/src/peer/{connection,active}.rs], [peer/active/rekey.rs])

    A connection is a peer during its Noise handshake, an active peer one that has
    authenticated: its current session, the session it is draining, the one pending
    after a rekey and the rekey in progress. The fields are grouped as the source
    groups them. Times of the monotonic clock are milliseconds; the random jitter of
    the rekey timer and the randomness of ephemeral keys are arguments. The frame that
    signals readiness before promotion and the derived link estimates (round-trip
    time, loss, throughput) are left out. *)

From stdpp Require Import strings.
From S2P Require Import Prelude Bytes NodeAddr Bloom Coordinate TreeState StateErr Noise NoiseTransport.

Local Open Scope Z_scope.

(** [Instant::elapsed().as_secs()] *)
Definition elapsed_secs (now t : Z) : Z := sat_sub now t / 1000.

(** [LinkStats] of [transport/mod.rs], the counters. *)
Record LinkStats := mkStats {
  packets_sent : Z; packets_recv : Z; bytes_sent : Z; bytes_recv : Z; last_recv_ms : Z
}.

Definition new_stats : LinkStats := mkStats 0 0 0 0 0.

Definition record_sent (s : LinkStats) (bytes : Z) : LinkStats :=
  mkStats (wrap_u64 (packets_sent s + 1)) (packets_recv s) (wrap_u64 (bytes_sent s + bytes)) (bytes_recv s)
    (last_recv_ms s).

Definition record_recv (s : LinkStats) (bytes timestamp_ms : Z) : LinkStats :=
  mkStats (packets_sent s) (wrap_u64 (packets_recv s + 1)) (bytes_sent s) (wrap_u64 (bytes_recv s + bytes)) timestamp_ms.

Inductive LinkDirection := Outbound | Inbound.

#[export] Instance LinkDirection_eq_dec : EqDecision LinkDirection.
Proof. solve_decision. Defined.

(** A datagram with its carrier. *)
Record ReceivedPacket := mkPacket {
  packet_transport_id : Z; packet_remote_addr : list Z; packet_data : list Z; packet_timestamp_ms : Z
}.

(** The address is the hash of the key; [from_pubkey_full] of [fips-identity]. *)
Record PeerIdentity `{NoiseCrypto} := mkPeerIdentity { id_node_addr : NodeAddr; pubkey_full : PublicKey }.

Definition from_pubkey_full `{NoiseCrypto} (k : PublicKey) : PeerIdentity :=
  mkPeerIdentity _ (NodeAddrOps.from_pubkey sha256 (drop 1 (serialize k))) k.

(** [cross_connection_winner] of [peer/mod.rs] *)
Definition cross_connection_winner (our_node_addr their_node_addr : NodeAddr) (this_is_outbound : bool) : bool :=
  if our_node_addr <? their_node_addr then this_is_outbound else negb this_is_outbound.

(** ** Active peers *)

Module ActivePeer.

Inductive ConnectivityState := Connected | Stale | Reconnecting | Disconnected.

#[export] Instance ConnectivityState_eq_dec : EqDecision ConnectivityState.
Proof. solve_decision. Defined.

Section peer.
Context `{NoiseCrypto}.

(** The current session. *)
Record Session := mkCurrent {
  noise_session : option NoiseSession.NoiseSession;
  our_index : option Z;
  their_index : option Z;
  current_k_bit : bool;
  session_established_at : Z;
  session_start : Z;
  pending_fmp_timestamp_origin : option Z;
  session_generation : Z;
  rekey_jitter_secs : Z
}.

Record Path := mkPath {
  transport_id : option Z;
  current_addr : option (list Z);
  preferred_send_addr : option (list Z)
}.

(** The previous session, kept until it has drained. *)
Record Drain := mkDrain {
  previous_session : option NoiseSession.NoiseSession;
  previous_k_bit : option bool;
  previous_our_index : option Z;
  previous_transport_id : option Z;
  drain_started : option Z
}.

(** The session of a completed rekey, before the cutover. *)
Record Pending := mkPending {
  pending_new_session : option NoiseSession.NoiseSession;
  pending_our_index : option Z;
  pending_their_index : option Z;
  pending_rekey_initiator : bool;
  pending_rekey_completed_at : option Z
}.

(** A rekey this node has begun. *)
Record Rekey := mkRekey {
  rekey_in_progress : bool;
  rekey_handshake : option HandshakeState.HandshakeState;
  rekey_our_index : option Z;
  rekey_msg1 : option (list Z);
  rekey_msg1_next_resend : Z;
  rekey_msg1_resend_count : Z
}.

Record Tree := mkTree {
  declaration : option ParentDeclaration.ParentDeclaration;
  ancestry : option TreeCoordinate;
  tree_announce_min_interval_ms : Z;
  last_tree_announce_sent_ms : Z;
  pending_tree_announce : bool
}.

Record Filter := mkFilter {
  inbound_filter : option BloomFilter.BloomFilter;
  filter_sequence : Z;
  filter_received_at : Z;
  pending_filter_update : bool
}.

Record Roles := mkRoles {
  client_only_supported : bool;
  client_support_sent : bool;
  client_only : bool;
  routing_role_sequence : option Z
}.

Record Activity := mkActivity {
  link_stats : LinkStats;
  authenticated_at : Z;
  last_seen : Z;
  last_transit_demand_ms : option Z;
  last_heartbeat_sent : option Z;
  handshake_msg2 : option (list Z * Z);
  replay_suppressed_count : Z;
  consecutive_decrypt_failures : Z;
  last_rekey_dampening_at : option Z
}.

Record ActivePeer := mkPeer {
  identity : PeerIdentity;
  link_id : Z;
  connectivity : ConnectivityState;
  session : Session;
  path : Path;
  drain : Drain;
  pending : Pending;
  rekey : Rekey;
  tree : Tree;
  filter : Filter;
  roles : Roles;
  activity : Activity;
  remote_epoch : option (list Z);
  fmp_mmp_is_initiator : bool
}.

Definition set_connectivity (p : ActivePeer) (x : ConnectivityState) : ActivePeer :=
  mkPeer (identity p) (link_id p) x (session p) (path p) (drain p) (pending p) (rekey p) (tree p) (filter p)
    (roles p) (activity p) (remote_epoch p) (fmp_mmp_is_initiator p).
Definition set_session (p : ActivePeer) (x : Session) : ActivePeer :=
  mkPeer (identity p) (link_id p) (connectivity p) x (path p) (drain p) (pending p) (rekey p) (tree p) (filter p)
    (roles p) (activity p) (remote_epoch p) (fmp_mmp_is_initiator p).
Definition set_path (p : ActivePeer) (x : Path) : ActivePeer :=
  mkPeer (identity p) (link_id p) (connectivity p) (session p) x (drain p) (pending p) (rekey p) (tree p) (filter p)
    (roles p) (activity p) (remote_epoch p) (fmp_mmp_is_initiator p).
Definition set_drain (p : ActivePeer) (x : Drain) : ActivePeer :=
  mkPeer (identity p) (link_id p) (connectivity p) (session p) (path p) x (pending p) (rekey p) (tree p) (filter p)
    (roles p) (activity p) (remote_epoch p) (fmp_mmp_is_initiator p).
Definition set_pending (p : ActivePeer) (x : Pending) : ActivePeer :=
  mkPeer (identity p) (link_id p) (connectivity p) (session p) (path p) (drain p) x (rekey p) (tree p) (filter p)
    (roles p) (activity p) (remote_epoch p) (fmp_mmp_is_initiator p).
Definition set_rekey (p : ActivePeer) (x : Rekey) : ActivePeer :=
  mkPeer (identity p) (link_id p) (connectivity p) (session p) (path p) (drain p) (pending p) x (tree p) (filter p)
    (roles p) (activity p) (remote_epoch p) (fmp_mmp_is_initiator p).
Definition set_tree (p : ActivePeer) (x : Tree) : ActivePeer :=
  mkPeer (identity p) (link_id p) (connectivity p) (session p) (path p) (drain p) (pending p) (rekey p) x (filter p)
    (roles p) (activity p) (remote_epoch p) (fmp_mmp_is_initiator p).
Definition set_filter (p : ActivePeer) (x : Filter) : ActivePeer :=
  mkPeer (identity p) (link_id p) (connectivity p) (session p) (path p) (drain p) (pending p) (rekey p) (tree p) x
    (roles p) (activity p) (remote_epoch p) (fmp_mmp_is_initiator p).
Definition set_activity (p : ActivePeer) (x : Activity) : ActivePeer :=
  mkPeer (identity p) (link_id p) (connectivity p) (session p) (path p) (drain p) (pending p) (rekey p) (tree p)
    (filter p) (roles p) x (remote_epoch p) (fmp_mmp_is_initiator p).
Definition set_remote_epoch (p : ActivePeer) (x : option (list Z)) : ActivePeer :=
  mkPeer (identity p) (link_id p) (connectivity p) (session p) (path p) (drain p) (pending p) (rekey p) (tree p)
    (filter p) (roles p) (activity p) x (fmp_mmp_is_initiator p).
Definition set_link_id (p : ActivePeer) (x : Z) : ActivePeer :=
  mkPeer (identity p) x (connectivity p) (session p) (path p) (drain p) (pending p) (rekey p) (tree p)
    (filter p) (roles p) (activity p) (remote_epoch p) (fmp_mmp_is_initiator p).
Definition set_fmp_mmp_is_initiator (p : ActivePeer) (x : bool) : ActivePeer :=
  mkPeer (identity p) (link_id p) (connectivity p) (session p) (path p) (drain p) (pending p) (rekey p) (tree p)
    (filter p) (roles p) (activity p) (remote_epoch p) x.

Definition node_addr (p : ActivePeer) : NodeAddr := id_node_addr (identity p).

(** *** Connectivity *)

Definition can_send (p : ActivePeer) : bool := match connectivity p with Connected | Stale => true | _ => false end.
Definition is_healthy (p : ActivePeer) : bool := bool_decide (connectivity p = Connected).
Definition is_disconnected (p : ActivePeer) : bool := bool_decide (connectivity p = Disconnected).
Definition has_session (p : ActivePeer) : bool := bool_decide (is_Some (noise_session (session p))).

Definition set_last_seen (a : Activity) (t : Z) : Activity :=
  mkActivity (link_stats a) (authenticated_at a) t (last_transit_demand_ms a) (last_heartbeat_sent a)
    (handshake_msg2 a) (replay_suppressed_count a) (consecutive_decrypt_failures a) (last_rekey_dampening_at a).

Definition touch (p : ActivePeer) (current_time_ms : Z) : ActivePeer :=
  let p := set_activity p (set_last_seen (activity p) current_time_ms) in
  if bool_decide (connectivity p = Stale) then set_connectivity p Connected else p.

Definition mark_stale (p : ActivePeer) : ActivePeer :=
  if bool_decide (connectivity p = Connected) then set_connectivity p Stale else p.

Definition mark_reconnecting (p : ActivePeer) : ActivePeer := set_connectivity p Reconnecting.
Definition mark_disconnected (p : ActivePeer) : ActivePeer := set_connectivity p Disconnected.

Definition mark_connected (p : ActivePeer) (current_time_ms : Z) : ActivePeer :=
  let p := set_connectivity p Connected in
  set_activity p (set_last_seen (activity p) current_time_ms).

Definition idle_time (p : ActivePeer) (current_time_ms : Z) : Z := sat_sub current_time_ms (last_seen (activity p)).

Definition record_transit_demand (p : ActivePeer) (now_ms : Z) : ActivePeer :=
  let a := activity p in
  set_activity p (mkActivity (link_stats a) (authenticated_at a) (last_seen a)
    (Some (Z.max (default 0 (last_transit_demand_ms a)) now_ms)) (last_heartbeat_sent a)
    (handshake_msg2 a) (replay_suppressed_count a) (consecutive_decrypt_failures a) (last_rekey_dampening_at a)).

Definition has_recent_transit_demand (p : ActivePeer) (now_ms idle_ms : Z) : bool :=
  match last_transit_demand_ms (activity p) with Some last => sat_sub now_ms last <=? idle_ms | None => false end.

(** *** Path and handshake bookkeeping *)

Definition send_addr (p : ActivePeer) : option (list Z) :=
  match preferred_send_addr (path p) with Some a => Some a | None => current_addr (path p) end.

Definition set_preferred_send_addr (p : ActivePeer) (addr : list Z) : ActivePeer * bool :=
  if bool_decide (preferred_send_addr (path p) = Some addr) then (p, false)
  else (set_path p (mkPath (transport_id (path p)) (current_addr (path p)) (Some addr)), true).

Definition clear_preferred_send_addr (p : ActivePeer) : ActivePeer * bool :=
  (set_path p (mkPath (transport_id (path p)) (current_addr (path p)) None),
   bool_decide (is_Some (preferred_send_addr (path p)))).

Definition set_current_addr (p : ActivePeer) (tid : Z) (addr : list Z) : ActivePeer * bool :=
  if bool_decide (transport_id (path p) = Some tid) && bool_decide (current_addr (path p) = Some addr) then (p, false)
  else (set_path p (mkPath (Some tid) (Some addr) (preferred_send_addr (path p))), true).

Definition put_handshake_msg2 (p : ActivePeer) (m : option (list Z * Z)) : ActivePeer :=
  let a := activity p in
  set_activity p (mkActivity (link_stats a) (authenticated_at a) (last_seen a) (last_transit_demand_ms a)
    (last_heartbeat_sent a) m (replay_suppressed_count a) (consecutive_decrypt_failures a) (last_rekey_dampening_at a)).

Definition set_handshake_msg2 (p : ActivePeer) (msg2 : list Z) (generated_at : Z) : ActivePeer :=
  put_handshake_msg2 p (Some (msg2, generated_at)).
Definition clear_handshake_msg2 (p : ActivePeer) : ActivePeer := put_handshake_msg2 p None.

Definition put_replay_suppressed (p : ActivePeer) (n : Z) : ActivePeer :=
  let a := activity p in
  set_activity p (mkActivity (link_stats a) (authenticated_at a) (last_seen a) (last_transit_demand_ms a)
    (last_heartbeat_sent a) (handshake_msg2 a) n (consecutive_decrypt_failures a) (last_rekey_dampening_at a)).

Definition increment_replay_suppressed (p : ActivePeer) : ActivePeer * Z :=
  let n := wrap_u32 (replay_suppressed_count (activity p) + 1) in (put_replay_suppressed p n, n).
Definition reset_replay_suppressed (p : ActivePeer) : ActivePeer * Z :=
  (put_replay_suppressed p 0, replay_suppressed_count (activity p)).

Definition put_decrypt_failures (p : ActivePeer) (n : Z) : ActivePeer :=
  let a := activity p in
  set_activity p (mkActivity (link_stats a) (authenticated_at a) (last_seen a) (last_transit_demand_ms a)
    (last_heartbeat_sent a) (handshake_msg2 a) (replay_suppressed_count a) n (last_rekey_dampening_at a)).

Definition increment_decrypt_failures (p : ActivePeer) : ActivePeer * Z :=
  let n := wrap_u32 (consecutive_decrypt_failures (activity p) + 1) in (put_decrypt_failures p n, n).
Definition reset_decrypt_failures (p : ActivePeer) : ActivePeer := put_decrypt_failures p 0.

Definition put_link_stats (p : ActivePeer) (s : LinkStats) : ActivePeer :=
  let a := activity p in
  set_activity p (mkActivity s (authenticated_at a) (last_seen a) (last_transit_demand_ms a)
    (last_heartbeat_sent a) (handshake_msg2 a) (replay_suppressed_count a) (consecutive_decrypt_failures a)
    (last_rekey_dampening_at a)).

Definition put_heartbeat (p : ActivePeer) (t : option Z) : ActivePeer :=
  let a := activity p in
  set_activity p (mkActivity (link_stats a) (authenticated_at a) (last_seen a) (last_transit_demand_ms a)
    t (handshake_msg2 a) (replay_suppressed_count a) (consecutive_decrypt_failures a) (last_rekey_dampening_at a)).

Definition mark_heartbeat_sent (p : ActivePeer) (now : Z) : ActivePeer := put_heartbeat p (Some now).
Definition request_heartbeat (p : ActivePeer) : ActivePeer := put_heartbeat p None.

Definition put_dampening (p : ActivePeer) (t : option Z) : ActivePeer :=
  let a := activity p in
  set_activity p (mkActivity (link_stats a) (authenticated_at a) (last_seen a) (last_transit_demand_ms a)
    (last_heartbeat_sent a) (handshake_msg2 a) (replay_suppressed_count a) (consecutive_decrypt_failures a) t).

Definition record_peer_rekey (p : ActivePeer) (now : Z) : ActivePeer := put_dampening p (Some now).

Definition is_rekey_dampened (p : ActivePeer) (now dampening_secs : Z) : bool :=
  match last_rekey_dampening_at (activity p) with Some t => elapsed_secs now t <? dampening_secs | None => false end.

Definition session_elapsed_ms (p : ActivePeer) (now : Z) : Z :=
  wrap_u32 (sat_sub now (default (session_start (session p)) (pending_fmp_timestamp_origin (session p)))).

Definition adopt_pending_fmp_timestamp_origin (p : ActivePeer) (origin : Z) : ActivePeer :=
  let s := session p in
  set_session p (mkCurrent (noise_session s) (our_index s) (their_index s) (current_k_bit s) (session_established_at s)
    (session_start s) (Some origin) (session_generation s) (rekey_jitter_secs s)).

Definition set_their_index (p : ActivePeer) (index : Z) : ActivePeer :=
  let s := session p in
  set_session p (mkCurrent (noise_session s) (our_index s) (Some index) (current_k_bit s) (session_established_at s)
    (session_start s) (pending_fmp_timestamp_origin s) (session_generation s) (rekey_jitter_secs s)).

(** *** Tree position, announcements and filters *)

Definition update_tree_position (p : ActivePeer) (d : ParentDeclaration.ParentDeclaration) (a : TreeCoordinate) : ActivePeer :=
  let t := tree p in
  set_tree p (mkTree (Some d) (Some a) (tree_announce_min_interval_ms t) (last_tree_announce_sent_ms t) (pending_tree_announce t)).
Definition clear_tree_position (p : ActivePeer) : ActivePeer :=
  let t := tree p in
  set_tree p (mkTree None None (tree_announce_min_interval_ms t) (last_tree_announce_sent_ms t) (pending_tree_announce t)).
Definition set_tree_announce_min_interval_ms (p : ActivePeer) (ms : Z) : ActivePeer :=
  let t := tree p in
  set_tree p (mkTree (declaration t) (ancestry t) ms (last_tree_announce_sent_ms t) (pending_tree_announce t)).
Definition set_last_tree_announce_sent_ms (p : ActivePeer) (ms : Z) : ActivePeer :=
  let t := tree p in
  set_tree p (mkTree (declaration t) (ancestry t) (tree_announce_min_interval_ms t) ms (pending_tree_announce t)).
Definition can_send_tree_announce (p : ActivePeer) (now_ms : Z) : bool :=
  tree_announce_min_interval_ms (tree p) <=? sat_sub now_ms (last_tree_announce_sent_ms (tree p)).
Definition record_tree_announce_sent (p : ActivePeer) (now_ms : Z) : ActivePeer :=
  let t := tree p in
  set_tree p (mkTree (declaration t) (ancestry t) (tree_announce_min_interval_ms t) now_ms false).
Definition mark_tree_announce_pending (p : ActivePeer) : ActivePeer :=
  let t := tree p in
  set_tree p (mkTree (declaration t) (ancestry t) (tree_announce_min_interval_ms t) (last_tree_announce_sent_ms t) true).
Definition pending_tree_announce_due_ms (p : ActivePeer) (now_ms : Z) : option Z :=
  let t := tree p in
  if negb (pending_tree_announce t) then None
  else if can_send_tree_announce p now_ms then Some now_ms
  else
    let due := last_tree_announce_sent_ms t + tree_announce_min_interval_ms t in
    if due <=? U64_MAX then Some due else None.

Definition may_reach (p : ActivePeer) (a : NodeAddr) : bool :=
  match inbound_filter (filter p) with Some f => BloomFilter.contains sha256 f a | None => false end.
Definition filter_is_stale (p : ActivePeer) (current_time_ms stale_threshold_ms : Z) : bool :=
  if filter_received_at (filter p) =? 0 then true
  else stale_threshold_ms <? sat_sub current_time_ms (filter_received_at (filter p)).
Definition update_filter (p : ActivePeer) (f : BloomFilter.BloomFilter) (sequence current_time_ms : Z) : ActivePeer :=
  let p := set_filter p (mkFilter (Some f) sequence current_time_ms (pending_filter_update (filter p))) in
  set_activity p (set_last_seen (activity p) current_time_ms).
Definition clear_filter (p : ActivePeer) : ActivePeer :=
  set_filter p (mkFilter None 0 0 (pending_filter_update (filter p))).
Definition put_filter_update (p : ActivePeer) (b : bool) : ActivePeer :=
  let f := filter p in set_filter p (mkFilter (inbound_filter f) (filter_sequence f) (filter_received_at f) b).
Definition mark_filter_update_needed (p : ActivePeer) : ActivePeer := put_filter_update p true.
Definition clear_filter_update_needed (p : ActivePeer) : ActivePeer := put_filter_update p false.

(** *** Construction *)

Record ActivePeerSession := mkPeerSession {
  ps_session : NoiseSession.NoiseSession;
  ps_our_index : Z;
  ps_their_index : Z;
  ps_transport_id : Z;
  ps_current_addr : list Z;
  ps_link_stats : LinkStats;
  ps_is_initiator : bool;
  ps_remote_epoch : option (list Z)
}.

Definition no_drain : Drain := mkDrain None None None None None.
Definition no_pending : Pending := mkPending None None None false None.
Definition no_rekey : Rekey := mkRekey false None None None 0 0.

(** [new] differs in the session, the path and the two last fields. *)
Definition fresh (id : PeerIdentity) (link authenticated : Z) (s : Session) (pa : Path) (stats : LinkStats)
    (epoch : option (list Z)) (initiator : bool) : ActivePeer :=
  mkPeer id link Connected s pa no_drain no_pending no_rekey (mkTree None None 500 0 false) (mkFilter None 0 0 true)
    (mkRoles false false false None)
    (mkActivity stats authenticated authenticated None None None 0 0 None) epoch initiator.

Definition new (id : PeerIdentity) (link authenticated now jitter : Z) : ActivePeer :=
  fresh id link authenticated (mkCurrent None None None false now now None (Z.max authenticated 1) jitter)
    (mkPath None None None) new_stats None false.

Definition with_session (id : PeerIdentity) (link authenticated : Z) (s : ActivePeerSession) (now jitter : Z) : ActivePeer :=
  fresh id link authenticated
    (mkCurrent (Some (ps_session s)) (Some (ps_our_index s)) (Some (ps_their_index s)) false now now None
       (Z.max authenticated 1) jitter)
    (mkPath (Some (ps_transport_id s)) (Some (ps_current_addr s)) None) (ps_link_stats s) (ps_remote_epoch s)
    (ps_is_initiator s).

(** *** Rekeying *)

Definition set_rekey_in_progress (p : ActivePeer) : ActivePeer :=
  let r := rekey p in
  set_rekey p (mkRekey true (rekey_handshake r) (rekey_our_index r) (rekey_msg1 r) (rekey_msg1_next_resend r)
    (rekey_msg1_resend_count r)).

Definition next_generation (g : Z) : Z := Z.max (wrap_u64 (g + 1)) 1.

Definition unconfirmed_rekey_expired (p : ActivePeer) (now timeout : Z) : bool :=
  negb (pending_rekey_initiator (pending p)) && bool_decide (is_Some (pending_new_session (pending p)))
  && match pending_rekey_completed_at (pending p) with Some t => timeout <=? sat_sub now t | None => false end.

Definition pending_rekey_cutover_due (p : ActivePeer) (now delay : Z) : bool :=
  pending_rekey_initiator (pending p)
  && match pending_rekey_completed_at (pending p) with Some t => delay <=? sat_sub now t | None => false end.

Definition set_pending_session (p : ActivePeer) (s : NoiseSession.NoiseSession) (our their : Z)
    (initiated_by_local : bool) (now : Z) : ActivePeer :=
  set_rekey (set_pending p (mkPending (Some s) (Some our) (Some their) initiated_by_local (Some now))) no_rekey.

(** Without a pending session nothing changes. *)
Definition confirm_pending_session (p : ActivePeer) (received_k_bit : bool) (now jitter : Z) : ActivePeer * option Z :=
  match pending_new_session (pending p) with
  | None => (p, None)
  | Some new_session =>
      let s := session p in
      let r := rekey p in
      let q := set_drain p (mkDrain (noise_session s) (Some (current_k_bit s)) (our_index s) (transport_id (path p)) (Some now)) in
      let q := set_pending q no_pending in
      let q := set_session q (mkCurrent (Some new_session) (pending_our_index (pending p)) (pending_their_index (pending p))
                 received_k_bit now now None (next_generation (session_generation s)) jitter) in
      let q := set_rekey q (mkRekey false (rekey_handshake r) (rekey_our_index r) (rekey_msg1 r) (rekey_msg1_next_resend r) 0) in
      let q := put_heartbeat (put_dampening q (Some now)) None in
      ((reset_replay_suppressed q).1, our_index s)
  end.

Definition cutover_to_new_session (p : ActivePeer) (now jitter : Z) : ActivePeer * option Z :=
  confirm_pending_session p (negb (current_k_bit (session p))) now jitter.
Definition handle_peer_kbit_flip (p : ActivePeer) (now jitter : Z) : ActivePeer * option Z :=
  confirm_pending_session p (negb (current_k_bit (session p))) now jitter.

Definition is_draining (p : ActivePeer) : bool := bool_decide (is_Some (drain_started (drain p))).

Definition drain_expired (p : ActivePeer) (now drain_secs : Z) : bool :=
  match drain_started (drain p) with Some t => drain_secs <=? elapsed_secs now t | None => false end.

Definition complete_drain (p : ActivePeer) : ActivePeer * option Z :=
  (set_drain p no_drain, previous_our_index (drain p)).

(** [Option::or] evaluates its argument: the pending index is taken either way. *)
Definition abandon_rekey (p : ActivePeer) : ActivePeer * option Z :=
  (set_rekey (set_pending p no_pending) no_rekey,
   match rekey_our_index (rekey p) with Some i => Some i | None => pending_our_index (pending p) end).

Definition set_rekey_state (p : ActivePeer) (hs : HandshakeState.HandshakeState) (our : Z) (wire_msg1 : list Z)
    (next_resend_ms : Z) : ActivePeer :=
  set_rekey p (mkRekey true (Some hs) (Some our) (Some wire_msg1) next_resend_ms 0).

Definition has_rekey_handshake (p : ActivePeer) : bool := bool_decide (is_Some (rekey_handshake (rekey p))).

Definition set_rekey_handshake (p : ActivePeer) (hs : option HandshakeState.HandshakeState) : ActivePeer :=
  let r := rekey p in
  set_rekey p (mkRekey (rekey_in_progress r) hs (rekey_our_index r) (rekey_msg1 r) (rekey_msg1_next_resend r)
    (rekey_msg1_resend_count r)).

Definition complete_rekey_msg2 (msg2_bytes : list Z)
    : SE ActivePeer NoiseError (NoiseSession.NoiseSession * option (list Z)) := λ p,
  match rekey_handshake (rekey p) with
  | None => (p, Err (WrongState "rekey handshake in progress" "no handshake state"))
  | Some hs =>
      let '(hs, r) := HandshakeState.try_read_message_2 msg2_bytes hs in
      let p := set_rekey_handshake p None in
      match r with
      | Err e => (set_rekey_handshake p (Some hs), Err e)
      | Panic => (p, Panic)
      | Ok _ =>
          match NoiseSession.into_session hs with
          | Ok s =>
              let r := rekey p in
              (set_rekey p (mkRekey (rekey_in_progress r) (rekey_handshake r) (rekey_our_index r) None 0 0),
               Ok (s, HandshakeState.remote_epoch hs))
          | Err e => (p, Err e)
          | Panic => (p, Panic)
          end
      end
  end.

Definition needs_msg1_resend (p : ActivePeer) (now_ms : Z) : bool :=
  rekey_in_progress (rekey p) && bool_decide (is_Some (rekey_msg1 (rekey p)))
  && (rekey_msg1_next_resend (rekey p) <=? now_ms).

Definition put_resend (p : ActivePeer) (next count : Z) : ActivePeer :=
  let r := rekey p in
  set_rekey p (mkRekey (rekey_in_progress r) (rekey_handshake r) (rekey_our_index r) (rekey_msg1 r) next count).

Definition set_msg1_next_resend (p : ActivePeer) (next_ms : Z) : ActivePeer :=
  put_resend p next_ms (rekey_msg1_resend_count (rekey p)).
Definition record_rekey_msg1_resend (p : ActivePeer) (next_ms : Z) : ActivePeer :=
  put_resend p next_ms (sat_add_u32 (rekey_msg1_resend_count (rekey p)) 1).

(** [replace_session]: the current session drains unless its index is the new one. *)
Definition replace_session (p : ActivePeer) (new_session : NoiseSession.NoiseSession) (new_our_index new_their_index : Z)
    (now jitter : Z) : ActivePeer * option Z :=
  let p := (abandon_rekey p).1 in
  let p := clear_handshake_msg2 p in
  let p := (reset_replay_suppressed p).1 in
  let s := session p in
  let old := our_index s in
  let previous := match old with Some o => if o =? new_our_index then None else Some o | None => None end in
  let d := match previous with
           | Some _ => mkDrain (noise_session s) (Some (current_k_bit s)) previous (transport_id (path p)) (Some now)
           | None => no_drain
           end in
  let p := set_drain p d in
  let p := set_session p (mkCurrent (Some new_session) (Some new_our_index) (Some new_their_index) false now now None
             (next_generation (session_generation s)) jitter) in
  (put_heartbeat p None, old).

End peer.
End ActivePeer.

(** ** Connections *)

Module PeerConnection.

(** [HandshakeState] of [peer/connection.rs]. *)
Inductive ConnState := Initial | SentMsg1 | ReceivedMsg1 | Complete | Failed.

#[export] Instance ConnState_eq_dec : EqDecision ConnState.
Proof. solve_decision. Defined.

Definition state_name (s : ConnState) : string :=
  match s with
  | Initial => "initial" | SentMsg1 => "sent_msg1" | ReceivedMsg1 => "received_msg1"
  | Complete => "complete" | Failed => "failed"
  end.

Section connection.
Context `{NoiseCrypto}.

Record ConnNoise := mkConnNoise {
  handshake_state : ConnState;
  expected_identity : option PeerIdentity;
  noise_handshake : option HandshakeState.HandshakeState;
  noise_session : option NoiseSession.NoiseSession;
  remote_epoch : option (list Z)
}.

Record ConnPath := mkConnPath {
  our_index : option Z;
  their_index : option Z;
  transport_id : option Z;
  source_addr : option (list Z);
  preferred_send_addr : option (list Z)
}.

Record ConnResend := mkConnResend {
  handshake_msg1 : option (list Z);
  handshake_msg2 : option (list Z);
  resend_count : Z;
  crossed_msg1_resent : bool;
  next_resend_at_ms : Z
}.

(** Link, generation and index of the session a refresh was admitted against. *)
Record ConnOwner := mkConnOwner {
  completed_handshake_response : option ReceivedPacket;
  handshake_confirmation : option ReceivedPacket;
  refresh_owner : option (Z * Z * Z);
  refresh_owner_was_unconfirmed : bool
}.

Record PeerConnection := mkConn {
  link_id : Z;
  direction : LinkDirection;
  noise : ConnNoise;
  path : ConnPath;
  resend : ConnResend;
  owner : ConnOwner;
  started_at : Z;
  last_activity : Z;
  link_stats : LinkStats
}.

Definition set_noise (c : PeerConnection) (x : ConnNoise) : PeerConnection :=
  mkConn (link_id c) (direction c) x (path c) (resend c) (owner c) (started_at c) (last_activity c) (link_stats c).
Definition set_path (c : PeerConnection) (x : ConnPath) : PeerConnection :=
  mkConn (link_id c) (direction c) (noise c) x (resend c) (owner c) (started_at c) (last_activity c) (link_stats c).
Definition set_resend (c : PeerConnection) (x : ConnResend) : PeerConnection :=
  mkConn (link_id c) (direction c) (noise c) (path c) x (owner c) (started_at c) (last_activity c) (link_stats c).
Definition set_owner (c : PeerConnection) (x : ConnOwner) : PeerConnection :=
  mkConn (link_id c) (direction c) (noise c) (path c) (resend c) x (started_at c) (last_activity c) (link_stats c).
Definition touch (c : PeerConnection) (current_time_ms : Z) : PeerConnection :=
  mkConn (link_id c) (direction c) (noise c) (path c) (resend c) (owner c) (started_at c) current_time_ms (link_stats c).

Definition started (link : Z) (d : LinkDirection) (id : option PeerIdentity) (pa : ConnPath) (now_ms : Z) : PeerConnection :=
  mkConn link d (mkConnNoise Initial id None None None) pa (mkConnResend None None 0 false 0)
    (mkConnOwner None None None false) now_ms now_ms new_stats.

Definition outbound (link : Z) (id : PeerIdentity) (now_ms : Z) : PeerConnection :=
  started link Outbound (Some id) (mkConnPath None None None None None) now_ms.
Definition inbound (link now_ms : Z) : PeerConnection :=
  started link Inbound None (mkConnPath None None None None None) now_ms.
Definition inbound_with_transport (link tid : Z) (addr : list Z) (now_ms : Z) : PeerConnection :=
  started link Inbound None (mkConnPath None None (Some tid) (Some addr) None) now_ms.

Definition is_outbound (c : PeerConnection) : bool := bool_decide (direction c = Outbound).
Definition is_complete (c : PeerConnection) : bool := bool_decide (handshake_state (noise c) = Complete).
Definition has_session (c : PeerConnection) : bool := is_complete c && bool_decide (is_Some (noise_session (noise c))).
Definition is_timed_out (c : PeerConnection) (now_ms timeout_ms : Z) : bool :=
  timeout_ms <? sat_sub now_ms (last_activity c).

Definition set_our_index (c : PeerConnection) (i : Z) : PeerConnection :=
  let x := path c in set_path c (mkConnPath (Some i) (their_index x) (transport_id x) (source_addr x) (preferred_send_addr x)).
Definition set_their_index (c : PeerConnection) (i : Z) : PeerConnection :=
  let x := path c in set_path c (mkConnPath (our_index x) (Some i) (transport_id x) (source_addr x) (preferred_send_addr x)).
Definition set_transport_id (c : PeerConnection) (t : Z) : PeerConnection :=
  let x := path c in set_path c (mkConnPath (our_index x) (their_index x) (Some t) (source_addr x) (preferred_send_addr x)).
Definition set_source_addr (c : PeerConnection) (a : list Z) : PeerConnection :=
  let x := path c in set_path c (mkConnPath (our_index x) (their_index x) (transport_id x) (Some a) (preferred_send_addr x)).

(** *** Resends and refreshes *)

Definition set_handshake_msg1 (c : PeerConnection) (msg1 : list Z) (first_resend_at_ms : Z) : PeerConnection :=
  set_resend c (mkConnResend (Some msg1) (handshake_msg2 (resend c)) 0 false first_resend_at_ms).
Definition set_handshake_msg2 (c : PeerConnection) (msg2 : list Z) : PeerConnection :=
  let r := resend c in
  set_resend c (mkConnResend (handshake_msg1 r) (Some msg2) (resend_count r) (crossed_msg1_resent r) (next_resend_at_ms r)).
Definition record_resend (c : PeerConnection) (next : Z) : PeerConnection :=
  let r := resend c in
  set_resend c (mkConnResend (handshake_msg1 r) (handshake_msg2 r) (wrap_u32 (resend_count r + 1)) (crossed_msg1_resent r) next).
Definition start_confirmation_retries (c : PeerConnection) (now_ms : Z) : PeerConnection :=
  let r := resend c in
  set_resend c (mkConnResend (handshake_msg1 r) (handshake_msg2 r) 0 (crossed_msg1_resent r) now_ms).
Definition schedule_handshake_resend (c : PeerConnection) (next : Z) : PeerConnection :=
  let r := resend c in
  set_resend c (mkConnResend (handshake_msg1 r) (handshake_msg2 r) (resend_count r) (crossed_msg1_resent r) next).

Definition awaits_msg2 (c : PeerConnection) : bool :=
  is_outbound c && bool_decide (handshake_state (noise c) = SentMsg1) && bool_decide (is_Some (handshake_msg1 (resend c))).

Definition reserve_crossed_msg1_resend (c : PeerConnection) (max_resends next : Z) : PeerConnection * option (list Z) :=
  if crossed_msg1_resent (resend c) || negb (awaits_msg2 c) || (max_resends <=? resend_count (resend c)) then (c, None)
  else
    let r := resend c in
    let c := set_resend c (mkConnResend (handshake_msg1 r) (handshake_msg2 r) (resend_count r) true (next_resend_at_ms r)) in
    let c := record_resend c next in (c, handshake_msg1 (resend c)).

Definition rearm_handshake_msg1_resends (c : PeerConnection) (next : Z) : PeerConnection * bool :=
  if negb (awaits_msg2 c) then (c, false) else (start_confirmation_retries c next, true).

Definition bind_refresh_owner (c : PeerConnection) (p : ActivePeer.ActivePeer) (unconfirmed : bool) : PeerConnection :=
  let o := owner c in
  let s := ActivePeer.session p in
  set_owner c (mkConnOwner (completed_handshake_response o) (handshake_confirmation o)
    ((λ i, (ActivePeer.link_id p, ActivePeer.session_generation s, i)) <$> ActivePeer.our_index s) unconfirmed).

Definition confirms_refresh_of (c : PeerConnection) (p : ActivePeer.ActivePeer) : bool :=
  bool_decide (is_Some (handshake_confirmation (owner c)))
  && match refresh_owner (owner c) with
     | Some (link, generation, index) =>
         (ActivePeer.link_id p =? link) && (ActivePeer.session_generation (ActivePeer.session p) =? generation)
         && bool_decide (ActivePeer.our_index (ActivePeer.session p) = Some index)
     | None => false
     end.

Definition confirms_unconfirmed_refresh_of (c : PeerConnection) (p : ActivePeer.ActivePeer) : bool :=
  refresh_owner_was_unconfirmed (owner c) && confirms_refresh_of c p.

Definition retain_handshake_confirmation (c : PeerConnection) (packet : ReceivedPacket) : PeerConnection :=
  let o := owner c in
  match handshake_confirmation o with
  | Some _ => c
  | None => set_owner c (mkConnOwner (completed_handshake_response o) (Some packet) (refresh_owner o)
              (refresh_owner_was_unconfirmed o))
  end.

Definition retain_completed_handshake_response (c : PeerConnection) (packet : ReceivedPacket) (attempt_started_ms : Z)
    : PeerConnection :=
  let o := owner c in
  match completed_handshake_response o with
  | Some _ => c
  | None => touch (set_owner c (mkConnOwner (Some packet) (handshake_confirmation o) (refresh_owner o)
              (refresh_owner_was_unconfirmed o))) attempt_started_ms
  end.

(** *** The handshake *)

Definition wrong_state (expected got : string) : NoiseError := WrongState expected got.

Definition start_handshake (our_keypair : SecretKey) (epoch random : list Z) (now_ms : Z)
    : SE PeerConnection NoiseError (list Z) := λ c,
  if negb (is_outbound c) then (c, Err (wrong_state "outbound connection" "inbound connection"))
  else if negb (bool_decide (handshake_state (noise c) = Initial))
  then (c, Err (wrong_state "initial state" (state_name (handshake_state (noise c)))))
  else
    match expected_identity (noise c) with
    | None => (c, Panic)
    | Some id =>
        let hs := HandshakeState.set_local_epoch (HandshakeState.new_initiator our_keypair (pubkey_full id)) epoch in
        let '(hs, r) := HandshakeState.write_message_1 random hs in
        match r with
        | Ok msg1 =>
            let n := noise c in
            (touch (set_noise c (mkConnNoise SentMsg1 (expected_identity n) (Some hs) (noise_session n) (remote_epoch n))) now_ms,
             Ok msg1)
        | Err e => (c, Err e)
        | Panic => (c, Panic)
        end
    end.

Definition receive_handshake_init (our_keypair : SecretKey) (epoch message random : list Z) (now_ms : Z)
    : SE PeerConnection NoiseError (list Z) := λ c,
  if is_outbound c then (c, Err (wrong_state "inbound connection" "outbound connection"))
  else if negb (bool_decide (handshake_state (noise c) = Initial))
  then (c, Err (wrong_state "initial state" (state_name (handshake_state (noise c)))))
  else
    let '(hs, r) := HandshakeState.read_message_1 message
                      (HandshakeState.set_local_epoch (HandshakeState.new_responder our_keypair) epoch) in
    match r, HandshakeState.remote_static hs with
    | Ok _, Some remote =>
        let n := noise c in
        let c := set_noise c (mkConnNoise (handshake_state n) (Some (from_pubkey_full remote)) (noise_handshake n)
                   (noise_session n) (HandshakeState.remote_epoch hs)) in
        let '(hs, r) := HandshakeState.write_message_2 random hs in
        match r with
        | Ok msg2 =>
            match NoiseSession.into_session hs with
            | Ok s =>
                let n := noise c in
                (touch (set_noise c (mkConnNoise Complete (expected_identity n) (noise_handshake n) (Some s)
                   (remote_epoch n))) now_ms, Ok msg2)
            | Err e => (c, Err e)
            | Panic => (c, Panic)
            end
        | Err e => (c, Err e)
        | Panic => (c, Panic)
        end
    | Ok _, None => (c, Panic)
    | Err e, _ => (c, Err e)
    | Panic, _ => (c, Panic)
    end.

Definition complete_handshake (message : list Z) (now_ms : Z) : SE PeerConnection NoiseError unit := λ c,
  if negb (bool_decide (handshake_state (noise c) = SentMsg1))
  then (c, Err (wrong_state "sent_msg1 state" (state_name (handshake_state (noise c)))))
  else
    match noise_handshake (noise c) with
    | None => (c, Panic)
    | Some hs =>
        let '(hs, r) := HandshakeState.try_read_message_2 message hs in
        let n := noise c in
        match r with
        | Err e => (set_noise c (mkConnNoise (handshake_state n) (expected_identity n) (Some hs) (noise_session n)
                      (remote_epoch n)), Err e)
        | Panic => (set_noise c (mkConnNoise (handshake_state n) (expected_identity n) None (noise_session n)
                      (remote_epoch n)), Panic)
        | Ok _ =>
            let c := set_noise c (mkConnNoise (handshake_state n) (expected_identity n) None (noise_session n)
                       (HandshakeState.remote_epoch hs)) in
            match NoiseSession.into_session hs with
            | Ok s => (touch (set_noise c (mkConnNoise Complete (expected_identity n) None (Some s)
                         (HandshakeState.remote_epoch hs))) now_ms, Ok tt)
            | Err e => (c, Err e)
            | Panic => (c, Panic)
            end
        end
    end.

Definition has_pending_handshake (c : PeerConnection) : bool :=
  bool_decide (handshake_state (noise c) = SentMsg1) && bool_decide (is_Some (noise_handshake (noise c))).

Definition take_session (c : PeerConnection) : PeerConnection * option NoiseSession.NoiseSession :=
  let n := noise c in
  if is_complete c then
    (set_noise c (mkConnNoise (handshake_state n) (expected_identity n) (noise_handshake n) None (remote_epoch n)), noise_session n)
  else (c, None).

Definition mark_failed (c : PeerConnection) : PeerConnection :=
  let n := noise c in
  set_noise c (mkConnNoise Failed (expected_identity n) None (noise_session n) (remote_epoch n)).

End connection.
End PeerConnection.
