(* ===== verification/PeerRegistry.v ===== *)
(** * The registry of peers ([crates/fips-core/src/node/peer_lifecycle.rs], [peer_runtime.rs],
      and its methods in [node/handlers/rekey.rs])

    Connections by link, active peers by address, and the receiver indexes by
    transport and number, which say whose packet one is. *)

From S2P Require Import Prelude Bytes NodeAddr F64 StateErr Noise NoiseTransport Peers.

Local Open Scope Z_scope.

Inductive PeerSessionIndexKind := KCurrent | KRekey | KPending | KPrevious.

#[export] Instance PeerSessionIndexKind_eq_dec : EqDecision PeerSessionIndexKind.
Proof. solve_decision. Defined.

Record PeerSessionIndex := mkIndexOf { idx_kind : PeerSessionIndexKind; idx_key : Z * Z; idx_index : Z }.

Record RegisteredPeerSessionIndex := mkRegistered { session_index : PeerSessionIndex; previous_owner : option NodeAddr }.

Inductive CurrentSessionIndexRegistration :=
| MissingActivePeer
| MissingTransportId
| MissingLocalIndex
| AlreadyRegistered (i : PeerSessionIndex)
| Repaired (r : RegisteredPeerSessionIndex).

Inductive FmpRekeyInitiationSkip := SkipPeer | SkipTransport | SkipAddress.

Definition FMP_DRAIN_WINDOW_SECS : Z := 10.
Definition REKEY_DAMPENING_SECS : Z := 30.
Definition FMP_CUTOVER_DELAY_MS : Z := 250.

Module PeerLifecycleRegistry.
Section registry.
Context `{NoiseCrypto}.

Local Abbreviation Peer := ActivePeer.ActivePeer.
Local Abbreviation Conn := PeerConnection.PeerConnection.

Record Registry := mkRegistry {
  connections : gmap Z Conn;
  peers : gmap NodeAddr Peer;
  by_session_index : gmap (Z * Z) NodeAddr
}.

Definition empty : Registry := mkRegistry ∅ ∅ ∅.

Definition set_connections (self : Registry) (m : gmap Z Conn) : Registry := mkRegistry m (peers self) (by_session_index self).
Definition set_peers (self : Registry) (m : gmap NodeAddr Peer) : Registry := mkRegistry (connections self) m (by_session_index self).
Definition set_index (self : Registry) (m : gmap (Z * Z) NodeAddr) : Registry := mkRegistry (connections self) (peers self) m.

Definition put_peer (self : Registry) (a : NodeAddr) (p : Peer) : Registry := set_peers self (<[a := p]> (peers self)).

Definition insert_connection (self : Registry) (link : Z) (c : Conn) : Registry := set_connections self (<[link := c]> (connections self)).
Definition remove_connection (self : Registry) (link : Z) : Registry := set_connections self (delete link (connections self)).

Definition insert_session_index (self : Registry) (key : Z * Z) (a : NodeAddr) : Registry * option NodeAddr :=
  (set_index self (<[key := a]> (by_session_index self)), by_session_index self !! key).

(** [remove_with_owner_state] *)
Definition remove_session_index (self : Registry) (key : Z * Z) : Registry := set_index self (delete key (by_session_index self)).

Definition active_peer_current_session_index (p : Peer) : option PeerSessionIndex :=
  match ActivePeer.transport_id (ActivePeer.path p), ActivePeer.our_index (ActivePeer.session p) with
  | Some tid, Some i => Some (mkIndexOf KCurrent (tid, i) i)
  | _, _ => None
  end.

Definition push_index (indices : list PeerSessionIndex) (kind : PeerSessionIndexKind) (tid : Z) (i : option Z)
    : list PeerSessionIndex :=
  match i with
  | None => indices
  | Some i =>
      if existsb (λ e, bool_decide (idx_key e = (tid, i))) indices then indices
      else indices ++ [mkIndexOf kind (tid, i) i]
  end.

Definition active_peer_session_indices (p : Peer) : list PeerSessionIndex :=
  match ActivePeer.transport_id (ActivePeer.path p) with
  | None => []
  | Some tid =>
      let l := option_list (active_peer_current_session_index p) in
      let l := push_index l KRekey tid (ActivePeer.rekey_our_index (ActivePeer.rekey p)) in
      let l := push_index l KPending tid (ActivePeer.pending_our_index (ActivePeer.pending p)) in
      push_index l KPrevious (default tid (ActivePeer.previous_transport_id (ActivePeer.drain p)))
        (ActivePeer.previous_our_index (ActivePeer.drain p))
  end.

Definition insert_with_current_session_index (self : Registry) (a : NodeAddr) (p : Peer)
    : Registry * option Peer * option RegisteredPeerSessionIndex :=
  let old := peers self !! a in
  let self := put_peer self a p in
  match active_peer_current_session_index p with
  | None => (self, old, None)
  | Some i => let '(self, owner) := insert_session_index self (idx_key i) a in (self, old, Some (mkRegistered i owner))
  end.

Definition ensure_current_session_index_registered (self : Registry) (a : NodeAddr) : Registry * CurrentSessionIndexRegistration :=
  match peers self !! a with
  | None => (self, MissingActivePeer)
  | Some p =>
      match ActivePeer.transport_id (ActivePeer.path p), ActivePeer.our_index (ActivePeer.session p) with
      | None, _ => (self, MissingTransportId)
      | Some _, None => (self, MissingLocalIndex)
      | Some tid, Some i =>
          let s := mkIndexOf KCurrent (tid, i) i in
          if bool_decide (by_session_index self !! (tid, i) = Some a) then (self, AlreadyRegistered s)
          else let '(self, owner) := insert_session_index self (tid, i) a in (self, Repaired (mkRegistered s owner))
      end
  end.

(** The loop body: the entry goes unless the peer keeps the key or another owns it;
    the index is retired unless the peer keeps it or it already is. *)
Definition retire_one (a : NodeAddr) (retained : list PeerSessionIndex) (acc : Registry * list PeerSessionIndex)
    (old : PeerSessionIndex) : Registry * list PeerSessionIndex :=
  let '(self, retired) := acc in
  let self :=
    if negb (existsb (λ r, bool_decide (idx_key r = idx_key old)) retained)
       && bool_decide (by_session_index self !! idx_key old = Some a)
    then remove_session_index self (idx_key old) else self in
  if negb (existsb (λ r, idx_index r =? idx_index old) retained)
     && negb (existsb (λ r, idx_index r =? idx_index old) retired)
  then (self, retired ++ [old]) else (self, retired).

Definition retire_superseded_session_indices (self : Registry) (a : NodeAddr) (old_indices retained : list PeerSessionIndex)
    : Registry * list PeerSessionIndex :=
  foldl (retire_one a retained) (self, []) old_indices.

Record Replacement := mkReplacement {
  rp_session : NoiseSession.NoiseSession;
  rp_our_index : Z;
  rp_their_index : Z;
  rp_link_id : Z;
  rp_transport_id : Z;
  rp_addr : list Z;
  rp_is_initiator : bool;
  rp_remote_epoch_update : option (list Z);
  rp_connected_at_ms : Z
}.

(** What [replace_current_session_and_path] does to the peer. *)
Definition replaced_peer (p : Peer) (x : Replacement) (now jitter : Z) : Peer :=
  let q := (ActivePeer.replace_session p (rp_session x) (rp_our_index x) (rp_their_index x) now jitter).1 in
  let q := ActivePeer.set_link_id q (rp_link_id x) in
  let q := (ActivePeer.set_current_addr q (rp_transport_id x) (rp_addr x)).1 in
  let q := (ActivePeer.clear_preferred_send_addr q).1 in
  let q := ActivePeer.set_fmp_mmp_is_initiator q (rp_is_initiator x) in
  let q := match rp_remote_epoch_update x with Some _ => ActivePeer.set_remote_epoch q (rp_remote_epoch_update x) | None => q end in
  ActivePeer.mark_connected q (rp_connected_at_ms x).

(** The old link, the retired indexes and the previous owner of the new key. *)
Definition replace_current_session_and_path (self : Registry) (a : NodeAddr) (x : Replacement) (now jitter : Z)
    : Registry * option (Z * list PeerSessionIndex * option NodeAddr) :=
  match peers self !! a with
  | None => (self, None)
  | Some p =>
      let q := replaced_peer p x now jitter in
      let self := put_peer self a q in
      let '(self, retired) :=
        retire_superseded_session_indices self a (active_peer_session_indices p) (active_peer_session_indices q) in
      let '(self, owner) := insert_session_index self (rp_transport_id x, rp_our_index x) a in
      (self, Some (ActivePeer.link_id p, retired, owner))
  end.

Definition confirm_pending_peer_session (self : Registry) (a : NodeAddr) (received_k_bit : bool) (now jitter : Z)
    : Registry * option (list PeerSessionIndex) :=
  match peers self !! a with
  | None => (self, None)
  | Some p =>
      let '(q, r) := ActivePeer.confirm_pending_session p received_k_bit now jitter in
      let self := put_peer self a q in
      match r with
      | None => (self, None)
      | Some _ =>
          let '(self, retired) :=
            retire_superseded_session_indices self a (active_peer_session_indices p) (active_peer_session_indices q) in
          (self, Some retired)
      end
  end.

Definition install_pending_rekey_session_and_index (self : Registry) (a : NodeAddr) (s : NoiseSession.NoiseSession)
    (our their : Z) (initiated_by_local : bool) (epoch : option (list Z)) (now : Z)
    : Registry * option RegisteredPeerSessionIndex :=
  match peers self !! a with
  | None => (self, None)
  | Some p =>
      match ActivePeer.transport_id (ActivePeer.path p) with
      | None => (self, None)
      | Some tid =>
          let p := match epoch with Some _ => ActivePeer.set_remote_epoch p epoch | None => p end in
          let p := ActivePeer.set_pending_session p s our their initiated_by_local now in
          let p := if initiated_by_local then p else ActivePeer.record_peer_rekey p now in
          let '(self, owner) := insert_session_index (put_peer self a p) (tid, our) a in
          (self, Some (mkRegistered (mkIndexOf KPending (tid, our) our) owner))
      end
  end.

Definition record_authenticated_fmp_receive (self : Registry) (a : NodeAddr) (tid : Z) (addr : list Z) (len timestamp_ms : Z)
    (liveness_bookkeeping_allowed path_bookkeeping_allowed : bool) : Registry * option bool :=
  match peers self !! a with
  | None => (self, None)
  | Some p =>
      let p := ActivePeer.reset_decrypt_failures p in
      let '(p, changed) := if path_bookkeeping_allowed then ActivePeer.set_current_addr p tid addr else (p, false) in
      let p := if liveness_bookkeeping_allowed then
                 ActivePeer.touch (ActivePeer.put_link_stats p
                   (record_recv (ActivePeer.link_stats (ActivePeer.activity p)) len timestamp_ms)) timestamp_ms
               else p in
      (put_peer self a p, Some changed)
  end.

Definition record_fmp_send_bookkeeping (self : Registry) (a : NodeAddr) (bytes : Z) : Registry * bool :=
  match peers self !! a with
  | None => (self, false)
  | Some p => (put_peer self a (ActivePeer.put_link_stats p (record_sent (ActivePeer.link_stats (ActivePeer.activity p)) bytes)), true)
  end.

Definition mark_link_dead_direct_path (self : Registry) (a : NodeAddr) : Registry * option Z :=
  match peers self !! a with
  | None => (self, None)
  | Some p => (put_peer self a (ActivePeer.mark_stale p), Some (ActivePeer.link_id p))
  end.

Definition remove (self : Registry) (a : NodeAddr) : Registry * option Peer :=
  (set_peers self (delete a (peers self)), peers self !! a).

Definition remove_with_session_indices (self : Registry) (a : NodeAddr) : Registry * option (Peer * list PeerSessionIndex) :=
  match peers self !! a with
  | None => (self, None)
  | Some p => (set_peers self (delete a (peers self)), Some (p, active_peer_session_indices p))
  end.

(** ** Rekeys ([handlers/rekey.rs]) *)

Definition prepare_fmp_rekey_initiation (self : Registry) (a : NodeAddr)
    : outcome FmpRekeyInitiationSkip (Z * list Z * Z * PublicKey) :=
  match peers self !! a with
  | None => Err SkipPeer
  | Some p =>
      match ActivePeer.transport_id (ActivePeer.path p), ActivePeer.current_addr (ActivePeer.path p) with
      | None, _ => Err SkipTransport
      | Some _, None => Err SkipAddress
      | Some tid, Some addr => Ok (tid, addr, ActivePeer.link_id p, pubkey_full (ActivePeer.identity p))
      end
  end.

Definition record_fmp_rekey_initiated (self : Registry) (a : NodeAddr) (hs : HandshakeState.HandshakeState) (our : Z)
    (wire_msg1 : list Z) (next_resend_ms : Z) : Registry * bool :=
  match peers self !! a with
  | None => (self, false)
  | Some p => (put_peer self a (ActivePeer.set_rekey_state p hs our wire_msg1 next_resend_ms), true)
  end.

Definition resend_budget_spent (p : Peer) (now_ms max_resends : Z) : bool :=
  ActivePeer.rekey_in_progress (ActivePeer.rekey p) && bool_decide (is_Some (ActivePeer.rekey_msg1 (ActivePeer.rekey p)))
  && (max_resends <=? ActivePeer.rekey_msg1_resend_count (ActivePeer.rekey p)) && ActivePeer.needs_msg1_resend p now_ms.

(** The abandoned peers, each with its transport and the index to free. *)
Definition exhaust_fmp_rekey_msg1_resend_budgets (ord : MapOrder NodeAddr Peer) (self : Registry) (now_ms max_resends : Z)
    : Registry * list (NodeAddr * option (option Z * Z)) :=
  foldl (λ acc a,
      let '(self, out) := acc in
      match peers self !! a with
      | None => (self, out)
      | Some p =>
          let '(q, i) := ActivePeer.abandon_rekey p in
          (put_peer self a q, out ++ [(a, (λ i, (ActivePeer.transport_id (ActivePeer.path p), i)) <$> i)])
      end)
    (self, []) (base.filter (λ ap, resend_budget_spent ap.2 now_ms max_resends = true) (map_iter ord (peers self))).*1.

Definition resend_due (p : Peer) (now_ms max_resends : Z) : bool :=
  ActivePeer.rekey_in_progress (ActivePeer.rekey p) && bool_decide (is_Some (ActivePeer.rekey_msg1 (ActivePeer.rekey p)))
  && (ActivePeer.rekey_msg1_resend_count (ActivePeer.rekey p) <? max_resends) && ActivePeer.needs_msg1_resend p now_ms.

(** Peer, transport, address and payload of each message to send again. *)
Definition due_fmp_rekey_msg1_resends (ord : MapOrder NodeAddr Peer) (self : Registry) (now_ms max_resends : Z)
    : list (NodeAddr * Z * list Z * list Z) :=
  omap (λ ap, let '(a, p) := ap in
      match ActivePeer.transport_id (ActivePeer.path p), ActivePeer.current_addr (ActivePeer.path p),
            ActivePeer.rekey_msg1 (ActivePeer.rekey p) with
      | Some tid, Some addr, Some m => Some (a, tid, addr, m)
      | _, _, _ => None
      end)
    (base.filter (λ ap, resend_due ap.2 now_ms max_resends = true) (map_iter ord (peers self))).

(** [f64::powi], whose precision is unspecified, is an argument. *)
Definition record_scheduled_fmp_rekey_msg1_resend (powi : f64 → Z → f64) (self : Registry) (a : NodeAddr)
    (now_ms interval_ms : Z) (backoff : f64) : Registry * option Z :=
  match peers self !! a with
  | None => (self, None)
  | Some p =>
      let count := ActivePeer.rekey_msg1_resend_count (ActivePeer.rekey p) + 1 in
      let next := wrap_u64 (now_ms + f64_to_int 0 U64_MAX (f64_mul (f64_of_Z interval_ms) (powi backoff count))) in
      (put_peer self a (ActivePeer.record_rekey_msg1_resend p next), Some count)
  end.

(** What [plan_fmp_rekey_tick] decides for one peer: whether to cut over, to end its
    drain, to begin a rekey. *)
Definition plan_peer (rekey_after_secs rekey_after_messages cutover_delay drain_secs dampening_secs now : Z) (p : Peer)
    : bool * bool * bool :=
  let pending := bool_decide (is_Some (ActivePeer.pending_new_session (ActivePeer.pending p))) in
  let in_progress := ActivePeer.rekey_in_progress (ActivePeer.rekey p) in
  if negb (ActivePeer.has_session p) then (false, false, false)
  else if pending && negb in_progress && ActivePeer.pending_rekey_cutover_due p now cutover_delay then (true, false, false)
  else
    let drain := ActivePeer.is_draining p && ActivePeer.drain_expired p now drain_secs in
    if negb (ActivePeer.is_healthy p) then (false, drain, false)
    else if in_progress || pending || ActivePeer.is_draining p || ActivePeer.is_rekey_dampened p now dampening_secs
    then (false, drain, false)
    else
      let s := ActivePeer.session p in
      let elapsed := elapsed_secs now (ActivePeer.session_established_at s) in
      let counter := match ActivePeer.noise_session s with Some n => NoiseSession.send_counter n | None => 0 end in
      let effective_after_secs := Z.max 0 (Z.min U64_MAX (rekey_after_secs + ActivePeer.rekey_jitter_secs s)) in
      (false, drain, (effective_after_secs <=? elapsed) || (rekey_after_messages <=? counter)).

Record FmpRekeyTickPlan := mkPlan { plan_cutover : list NodeAddr; plan_drain : list NodeAddr; plan_initiate : list NodeAddr }.

Definition plan_fmp_rekey_tick (ord : MapOrder NodeAddr Peer) (self : Registry)
    (rekey_after_secs rekey_after_messages cutover_delay drain_secs dampening_secs now : Z) : FmpRekeyTickPlan :=
  let decide_peer := plan_peer rekey_after_secs rekey_after_messages cutover_delay drain_secs dampening_secs now in
  let l := map_iter ord (peers self) in
  mkPlan (base.filter (λ ap, (decide_peer ap.2).1.1 = true) l).*1
         (base.filter (λ ap, (decide_peer ap.2).1.2 = true) l).*1
         (base.filter (λ ap, (decide_peer ap.2).2 = true) l).*1.

Definition cutover_due_fmp_rekey (self : Registry) (a : NodeAddr) (cutover_delay now jitter : Z)
    : Registry * option (list PeerSessionIndex) :=
  match peers self !! a with
  | None => (self, None)
  | Some p =>
      if bool_decide (ActivePeer.pending_new_session (ActivePeer.pending p) = None)
         || ActivePeer.rekey_in_progress (ActivePeer.rekey p)
         || negb (ActivePeer.pending_rekey_cutover_due p now cutover_delay)
      then (self, None)
      else confirm_pending_peer_session self a (negb (ActivePeer.current_k_bit (ActivePeer.session p))) now jitter
  end.

(** The transport and the index of the session that has drained. *)
Definition complete_due_fmp_rekey_drain (self : Registry) (a : NodeAddr) (drain_secs now : Z)
    : Registry * option (option Z * Z) :=
  match peers self !! a with
  | None => (self, None)
  | Some p =>
      if negb (ActivePeer.is_draining p) || negb (ActivePeer.drain_expired p now drain_secs) then (self, None)
      else
        let tid := match ActivePeer.previous_transport_id (ActivePeer.drain p) with
                   | Some t => Some t | None => ActivePeer.transport_id (ActivePeer.path p) end in
        let '(q, i) := ActivePeer.complete_drain p in
        (put_peer self a q, (λ i, (tid, i)) <$> i)
  end.

End registry.
End PeerLifecycleRegistry.
