(* ===== verification/LinkRekey.v ===== *)
(** * Link sessions of a node ([crates/fips-core/src/node/handlers/rekey.rs],
      [handlers/rekey/recovery.rs], the rekey paths of [handlers/handshake.rs] and
      [handlers/handshake/msg2.rs], and the promotion and removal of peers)

    The registry of peers, the allocator of session indexes and the table of
    handshakes waiting for a reply, and the handlers that move a link session through
    its life: a connection opens, is promoted, rekeys, cuts over, drains, is replaced
    or removed. What a handler learns from elsewhere is an argument: the clock,
    randomness, whether a send succeeded, what the dataplane answered. The handlers
    hold the node exclusively while they run, so each is one step. *)

From S2P Require Import Prelude Bytes NodeAddr F64 Index NodeTables StateErr Noise NoiseTransport HandshakeWire Peers PeerRegistry.

Local Open Scope Z_scope.

Definition DECRYPT_FAILURE_THRESHOLD : Z := 4.
Definition DECRYPT_FAILURE_FRESH_SESSION_GRACE_SECS : Z := 30.
Definition DECRYPT_FAILURE_POST_AUTH_GRACE_SECS : Z := 10.

Record RekeyConfig := mkRekeyConfig {
  rekey_enabled : bool;
  rekey_after_secs : Z;
  rekey_after_messages : Z;
  handshake_timeout_secs : Z;
  handshake_resend_interval_ms : Z;
  handshake_resend_backoff : f64;
  handshake_max_resends : Z
}.

Module Node.
Import PeerLifecycleRegistry.
Section node.
Context `{NoiseCrypto}.

Local Abbreviation Peer := ActivePeer.ActivePeer.
Local Abbreviation Conn := PeerConnection.PeerConnection.

Record Node := mkNode {
  reg : Registry;
  index_allocator : IndexAllocator.IndexAllocator;
  pending_outbound : gmap (Z * Z) Z;
  me : NodeAddr;
  our_keypair : SecretKey;
  startup_epoch : list Z
}.

Definition set_reg (n : Node) (r : Registry) : Node :=
  mkNode r (index_allocator n) (pending_outbound n) (me n) (our_keypair n) (startup_epoch n).
Definition set_allocator (n : Node) (x : IndexAllocator.IndexAllocator) : Node :=
  mkNode (reg n) x (pending_outbound n) (me n) (our_keypair n) (startup_epoch n).
Definition set_pending_outbound (n : Node) (x : gmap (Z * Z) Z) : Node :=
  mkNode (reg n) (index_allocator n) x (me n) (our_keypair n) (startup_epoch n).

Definition peer_of (n : Node) (a : NodeAddr) : option Peer := peers (reg n) !! a.

(** [let _ = self.index_allocator.free(i)] *)
Definition free (n : Node) (i : Z) : Node := set_allocator n (IndexAllocator.free (index_allocator n) i).1.
Definition forget_outbound (n : Node) (key : Z * Z) : Node := set_pending_outbound n (delete key (pending_outbound n)).
Definition deregister_session_index (n : Node) (key : Z * Z) : Node := set_reg n (remove_session_index (reg n) key).

(** A packet handed to a transport. *)
Definition Sent : Type := Z * list Z * list Z.

Definition abandon_fmp_rekey_for_peer (n : Node) (a : NodeAddr) : Node * bool :=
  match peer_of n a with
  | None => (n, false)
  | Some p =>
      let '(q, i) := ActivePeer.abandon_rekey (ActivePeer.clear_handshake_msg2 p) in
      let n := set_reg n (put_peer (reg n) a q) in
      match i with
      | None => (n, false)
      | Some i =>
          let n := match ActivePeer.transport_id (ActivePeer.path p) with
                   | Some tid => deregister_session_index (forget_outbound n (tid, i)) (tid, i)
                   | None => n
                   end in
          (free n i, true)
      end
  end.

Definition expire_unconfirmed_fmp_rekeys (ord : MapOrder NodeAddr Peer) (cfg : RekeyConfig) (n : Node) (now : Z) : Node :=
  let timeout := handshake_timeout_secs cfg * 1000 in
  let expired := (base.filter (λ ap, ActivePeer.unconfirmed_rekey_expired ap.2 now timeout = true)
                    (map_iter ord (peers (reg n)))).*1 in
  foldl (λ n a, (abandon_fmp_rekey_for_peer n a).1) n expired.

Definition retire_fmp_rekey_drain_for_dead_path (n : Node) (a : NodeAddr) : Node * bool :=
  match peer_of n a with
  | None => (n, false)
  | Some p =>
      let tid := match ActivePeer.previous_transport_id (ActivePeer.drain p) with
                 | Some t => Some t | None => ActivePeer.transport_id (ActivePeer.path p) end in
      let '(q, i) := ActivePeer.complete_drain p in
      let n := set_reg n (put_peer (reg n) a q) in
      match i with
      | None => (n, false)
      | Some i =>
          let n := match tid with Some tid => deregister_session_index n (tid, i) | None => n end in
          (free n i, true)
      end
  end.

Definition free_retired_peer_session_indices (n : Node) (retired : list PeerSessionIndex) : Node :=
  foldl (λ n r, free (forget_outbound n (idx_key r)) (idx_index r)) n retired.

Definition ensure_current_registered (n : Node) (a : NodeAddr) : Node :=
  set_reg n (ensure_current_session_index_registered (reg n) a).1.

(** ** Beginning a rekey *)

(** What [initiate_rekey] learns: the link the address index gives for the peer's
    path, whether a dial to that path is queued, whether the dataplane has
    authenticated the current epoch; then the values drawn, the clock, the send. *)
Record Env := mkEnv {
  env_alias_link : option Z;
  env_dialing : bool;
  env_epoch_authenticated : bool;
  env_rng : nat → Z;
  env_random : list Z;
  env_now_ms : Z;
  env_send_ok : bool
}.

Definition fmp_cutover_is_unconfirmed (n : Node) (a : NodeAddr) (e : Env) : bool :=
  match peer_of n a with Some p => ActivePeer.is_draining p && negb (env_epoch_authenticated e) | None => false end.

Definition fmp_rekey_owns_path (n : Node) (a : NodeAddr) (tid : Z) (addr : list Z) (e : Env) : bool :=
  match peer_of n a with
  | None => false
  | Some p =>
      (ActivePeer.rekey_in_progress (ActivePeer.rekey p)
       || bool_decide (is_Some (ActivePeer.pending_new_session (ActivePeer.pending p)))
       || fmp_cutover_is_unconfirmed n a e)
      && bool_decide (ActivePeer.transport_id (ActivePeer.path p) = Some tid)
      && (bool_decide (ActivePeer.current_addr (ActivePeer.path p) = Some addr)
          || bool_decide (env_alias_link e = Some (ActivePeer.link_id p)))
  end.

Definition has_pending_connection_on_path (n : Node) (a : NodeAddr) (tid : Z) (addr : list Z) (e : Env) : bool :=
  existsb (λ lc : Z * Conn, let c := lc.2 in
      match PeerConnection.expected_identity (PeerConnection.noise c) with
      | Some id => id_node_addr id =? a
      | None => false
      end
      && bool_decide (PeerConnection.transport_id (PeerConnection.path c) = Some tid)
      && (bool_decide (PeerConnection.source_addr (PeerConnection.path c) = Some addr)
          || bool_decide (env_alias_link e = Some (PeerConnection.link_id c)))) (map_to_list (connections (reg n)))
  || env_dialing e.

Definition is_connecting_to_peer_on_path (n : Node) (a : NodeAddr) (tid : Z) (addr : list Z) (e : Env) : bool :=
  fmp_rekey_owns_path n a tid addr e || has_pending_connection_on_path n a tid addr e.

Definition initiate_rekey (cfg : RekeyConfig) (n : Node) (a : NodeAddr) (e : Env)
    : outcome Empty_set (Node * bool * list Sent) :=
  match prepare_fmp_rekey_initiation (reg n) a with
  | Ok (tid, addr, link, key) =>
      if is_connecting_to_peer_on_path n a tid addr e then Ok (n, false, [])
      else
        let '(alloc, r) := IndexAllocator.allocate (index_allocator n) (env_rng e) in
        let n := set_allocator n alloc in
        match r with
        | Ok our =>
            let hs := HandshakeState.set_local_epoch (HandshakeState.new_initiator (our_keypair n) key) (startup_epoch n) in
            let '(hs, r) := HandshakeState.write_message_1 (env_random e) hs in
            match r with
            | Panic => Panic
            | Err _ => Ok (free n our, false, [])
            | Ok noise_msg1 =>
                let wire_msg1 := Wire.build_msg1 our noise_msg1 in
                let '(r, recorded) := record_fmp_rekey_initiated (reg n) a hs our wire_msg1
                                        (wrap_u64 (env_now_ms e + handshake_resend_interval_ms cfg)) in
                let n := set_reg n r in
                if negb recorded then Ok (free n our, false, [])
                else
                  let n := set_pending_outbound n (<[(tid, our) := link]> (pending_outbound n)) in
                  if env_send_ok e then Ok (n, true, [(tid, addr, wire_msg1)])
                  else Ok ((abandon_fmp_rekey_for_peer n a).1, false, [])
            end
        | _ => Ok (n, false, [])
        end
  | _ => Ok (n, false, [])
  end.

(** ** The periodic check *)

Definition cutover_loop (n : Node) (now : Z) (jitter : NodeAddr → Z) (l : list NodeAddr) : Node :=
  foldl (λ n a,
    let '(r, retired) := cutover_due_fmp_rekey (reg n) a FMP_CUTOVER_DELAY_MS now (jitter a) in
    let n := set_reg n r in
    match retired with
    | Some retired => ensure_current_registered (free_retired_peer_session_indices n retired) a
    | None => n
    end) n l.

(** Without a transport the index stays allocated. *)
Definition drain_loop (n : Node) (now : Z) (l : list NodeAddr) : Node :=
  foldl (λ n a,
    let '(r, drained) := complete_due_fmp_rekey_drain (reg n) a FMP_DRAIN_WINDOW_SECS now in
    let n := set_reg n r in
    match drained with
    | Some (Some tid, i) => free (deregister_session_index n (tid, i)) i
    | _ => n
    end) n l.

Fixpoint initiate_loop (cfg : RekeyConfig) (n : Node) (env : NodeAddr → Env) (l : list NodeAddr)
    : outcome Empty_set (Node * list Sent) :=
  match l with
  | [] => Ok (n, [])
  | a :: l =>
      '(n, _, sent) ← initiate_rekey cfg n a (env a);
      '(n, more) ← initiate_loop cfg n env l;
      Ok (n, sent ++ more)
  end.

Definition check_rekey (ord ord' : MapOrder NodeAddr Peer) (cfg : RekeyConfig) (n : Node) (now : Z) (jitter : NodeAddr → Z)
    (env : NodeAddr → Env) : outcome Empty_set (Node * list Sent) :=
  let n := expire_unconfirmed_fmp_rekeys ord cfg n now in
  let plan := plan_fmp_rekey_tick ord' (reg n) (rekey_after_secs cfg) (rekey_after_messages cfg) FMP_CUTOVER_DELAY_MS
                FMP_DRAIN_WINDOW_SECS REKEY_DAMPENING_SECS now in
  let n := cutover_loop n now jitter (plan_cutover plan) in
  let n := drain_loop n now (plan_drain plan) in
  if negb (rekey_enabled cfg) then Ok (n, [])
  else initiate_loop cfg n env (plan_initiate plan).

(** The sends themselves may fail; they change nothing either way. *)
Definition resend_pending_rekeys (powi : f64 → Z → f64) (ord ord' : MapOrder NodeAddr Peer) (cfg : RekeyConfig) (n : Node)
    (now_ms : Z) : Node * list Sent :=
  if negb (rekey_enabled cfg) then (n, [])
  else
    let '(r, exhausted) := exhaust_fmp_rekey_msg1_resend_budgets ord (reg n) now_ms (handshake_max_resends cfg) in
    let n := foldl (λ n x,
        match x.2 with
        | Some (tid, i) =>
            let n := match tid with
                     | Some tid => deregister_session_index (forget_outbound n (tid, i)) (tid, i)
                     | None => n
                     end in
            free n i
        | None => n
        end) (set_reg n r) exhausted in
    foldl (λ acc (x : NodeAddr * Z * list Z * list Z),
        let '(a, tid, addr, payload) := x in
        let '(r, count) := record_scheduled_fmp_rekey_msg1_resend powi (reg acc.1) a now_ms
                             (handshake_resend_interval_ms cfg) (handshake_resend_backoff cfg) in
        match count with
        | Some _ => (set_reg acc.1 r, acc.2 ++ [(tid, addr, payload)])
        | None => acc
        end) (n, []) (due_fmp_rekey_msg1_resends ord' (reg n) now_ms (handshake_max_resends cfg)).

(** ** A peer's rekey *)

(** The duplicate of a request this node has answered: the stored reply. *)
Definition duplicate_rekey_msg2 (p : Peer) (sender_idx : Z) : option (list Z) :=
  if bool_decide (ActivePeer.pending_their_index (ActivePeer.pending p) = Some sender_idx)
     || (ActivePeer.is_draining p && bool_decide (ActivePeer.their_index (ActivePeer.session p) = Some sender_idx))
  then fst <$> ActivePeer.handshake_msg2 (ActivePeer.activity p)
  else None.

(** What the responder learns while it answers: the values drawn for the index, the
    clock, whether the dataplane installed the route and the epoch, the send. *)
Record RespondEnv := mkRespondEnv {
  re_rng : nat → Z;
  re_now : Z;
  re_now_ms : Z;
  re_route_ready : bool;
  re_epoch_installed : bool;
  re_send_ok : bool
}.

(** [if let Some(peer) = .. && let Some(idx) = peer.abandon_rekey()] *)
Definition lose_dual_initiation (n : Node) (a : NodeAddr) : Node :=
  match peer_of n a with
  | None => n
  | Some p =>
      let '(q, i) := ActivePeer.abandon_rekey p in
      let n := set_reg n (put_peer (reg n) a q) in
      match i with
      | None => n
      | Some i =>
          let n := match ActivePeer.transport_id (ActivePeer.path p) with
                   | Some tid => forget_outbound (deregister_session_index n (tid, i)) (tid, i)
                   | None => n
                   end in
          free n i
      end
  end.

(** The new session becomes pending under a new index before the reply is sent. *)
Definition respond_rekey (n : Node) (a : NodeAddr) (noise_session : option NoiseSession.NoiseSession) (sender_idx : Z)
    (msg2_response : list Z) (tid : Z) (addr : list Z) (e : RespondEnv) : Node * list Sent :=
  let '(alloc, r) := IndexAllocator.allocate (index_allocator n) (re_rng e) in
  let n := set_allocator n alloc in
  match r, noise_session with
  | Ok our, None => (free n our, [])
  | Ok our, Some s =>
      let wire_msg2 := Wire.build_msg2 our sender_idx msg2_response in
      let '(r, registered) := install_pending_rekey_session_and_index (reg n) a s our sender_idx false None (re_now e) in
      let n := set_reg n r in
      match registered with
      | None => (free n our, [])
      | Some _ =>
          let n := match peer_of n a with
                   | Some p => set_reg n (put_peer (reg n) a (ActivePeer.set_handshake_msg2 p wire_msg2 (re_now_ms e)))
                   | None => n
                   end in
          let epoch_ready := bool_decide (is_Some (CipherState.cipher_clone (NoiseSession.recv_cipher s))) && re_epoch_installed e in
          if negb (re_route_ready e && epoch_ready) then ((abandon_fmp_rekey_for_peer n a).1, [])
          else if re_send_ok e then (n, [(tid, addr, wire_msg2)])
          else ((abandon_fmp_rekey_for_peer n a).1, [])
      end
  | _, _ => (n, [])
  end.

(** A message 1 with the known epoch of an active peer, over its established path:
    [c] is the connection that has read it and [msg2_response] its answer. *)
Definition same_epoch_rekey_msg1 (n : Node) (a : NodeAddr) (c : Conn) (sender_idx : Z) (msg2_response : list Z)
    (tid : Z) (addr : list Z) (e : RespondEnv) : Node * list Sent :=
  match peer_of n a with
  | None => (n, [])
  | Some p =>
      match duplicate_rekey_msg2 p sender_idx with
      | Some msg2 => (n, if re_send_ok e then [(tid, addr, msg2)] else [])
      | None =>
          let has_pending := bool_decide (is_Some (ActivePeer.pending_new_session (ActivePeer.pending p))) in
          if has_pending && ActivePeer.pending_rekey_initiator (ActivePeer.pending p) then (n, [])
          else
            let local_rekey_in_progress := ActivePeer.rekey_in_progress (ActivePeer.rekey p) in
            let n := if has_pending then (abandon_fmp_rekey_for_peer n a).1 else n in
            if local_rekey_in_progress && (me n <? a) then (n, [])
            else
              let n := if local_rekey_in_progress then lose_dual_initiation n a else n in
              respond_rekey n a (PeerConnection.take_session c).2 sender_idx msg2_response tid addr e
      end
  end.

(** The reading of message 1 that precedes it. *)
Definition receive_rekey_msg1 (n : Node) (link : Z) (packet : ReceivedPacket) (random : list Z) (e : RespondEnv)
    : outcome Empty_set (Node * list Sent) :=
  match Wire.parse_msg1 (packet_data packet) with
  | None => Ok (n, [])
  | Some header =>
      let c := PeerConnection.inbound_with_transport link (packet_transport_id packet) (packet_remote_addr packet)
                 (packet_timestamp_ms packet) in
      let noise_msg1 := drop (Wire.noise_msg1_offset header) (packet_data packet) in
      let '(c, r) := PeerConnection.receive_handshake_init (our_keypair n) (startup_epoch n) noise_msg1 random
                       (packet_timestamp_ms packet) c in
      match r with
      | Panic => Panic
      | Err _ => Ok (n, [])
      | Ok msg2_response =>
          match PeerConnection.expected_identity (PeerConnection.noise c) with
          | None => Ok (n, [])
          | Some id => Ok (same_epoch_rekey_msg1 n (id_node_addr id) c (Wire.m1_sender_idx header) msg2_response
                             (packet_transport_id packet) (packet_remote_addr packet) e)
          end
      end
  end.

(** ** The reply to this node's rekey *)

Definition find_rekey (ord : MapOrder NodeAddr Peer) (n : Node) (receiver_idx : Z) : option NodeAddr :=
  fst <$> find (λ ap : NodeAddr * Peer, ActivePeer.rekey_in_progress (ActivePeer.rekey ap.2)
            && bool_decide (ActivePeer.rekey_our_index (ActivePeer.rekey ap.2) = Some receiver_idx))
            (map_iter ord (peers (reg n))).

Definition release_rekey (n : Node) (tid : option Z) (i : Z) : Node :=
  let n := match tid with Some tid => deregister_session_index n (tid, i) | None => n end in free n i.

(** The rekey branch: no connection waits for this reply. [key] is the entry of
    [pending_outbound] that matched. *)
Definition finish_rekey_msg2 (ord : MapOrder NodeAddr Peer) (n : Node) (header : Wire.Msg2Header) (noise_msg2 : list Z)
    (key : Z * Z) (now : Z) : outcome Empty_set Node :=
  match find_rekey ord n (Wire.receiver_idx header) with
  | None => Ok (forget_outbound n key)
  | Some a =>
      match peer_of n a with
      | None => Ok (forget_outbound n key)
      | Some p =>
          let '(p, r) := ActivePeer.complete_rekey_msg2 noise_msg2 p in
          let n := set_reg n (put_peer (reg n) a p) in
          match r with
          | Panic => Panic
          | Ok (s, epoch) =>
              let our := default (Wire.receiver_idx header) (ActivePeer.rekey_our_index (ActivePeer.rekey p)) in
              let '(r, registered) := install_pending_rekey_session_and_index (reg n) a s our (Wire.m2_sender_idx header) true
                                        epoch now in
              let n := set_reg n r in
              match registered with
              | Some _ => Ok (forget_outbound n key)
              | None =>
                  match peer_of n a with
                  | None => Ok (forget_outbound n key)
                  | Some p =>
                      let '(q, i) := ActivePeer.abandon_rekey p in
                      let n := set_reg n (put_peer (reg n) a q) in
                      Ok (forget_outbound (match i with
                                           | Some i => release_rekey n (ActivePeer.transport_id (ActivePeer.path p)) i
                                           | None => n
                                           end) key)
                  end
              end
          | Err _ =>
              if ActivePeer.has_rekey_handshake p then Ok n
              else
                let '(q, i) := ActivePeer.abandon_rekey p in
                let n := set_reg n (put_peer (reg n) a q) in
                Ok (forget_outbound (match i with
                                     | Some i => release_rekey n (ActivePeer.transport_id (ActivePeer.path p)) i
                                     | None => n
                                     end) key)
          end
      end
  end.

(** Packets that are not for a rekey are left to the connection they match. *)
Definition handle_rekey_msg2 (ord : MapOrder NodeAddr Peer) (ord' : MapOrder (Z * Z) Z) (n : Node) (packet : ReceivedPacket)
    (now : Z) : outcome Empty_set Node :=
  match Wire.parse_msg2 (packet_data packet) with
  | None => Ok n
  | Some header =>
      match PendingOutbound.match_msg2 ord' (pending_outbound n) (packet_transport_id packet) (Wire.receiver_idx header) with
      | None => Ok n
      | Some (key, link) =>
          if bool_decide (is_Some (connections (reg n) !! link)) then Ok n
          else finish_rekey_msg2 ord n header (drop (Wire.noise_msg2_offset header) (packet_data packet)) key now
      end
  end.

(** The first frame under the pending key, already authenticated by the dataplane. *)
Definition promote_dataplane_authenticated_pending_fmp_epoch (n : Node) (a : NodeAddr) (received_k_bit confirmed : bool)
    (now jitter : Z) : Node :=
  match peer_of n a with
  | None => n
  | Some p =>
      if bool_decide (ActivePeer.pending_new_session (ActivePeer.pending p) = None) || negb confirmed then n
      else
        let '(r, retired) := confirm_pending_peer_session (reg n) a received_k_bit now jitter in
        let n := set_reg n r in
        match retired with
        | None => n
        | Some retired => ensure_current_registered (free_retired_peer_session_indices n retired) a
        end
  end.

(** ** Removal, and failures that lead to it *)

(** The part of [remove_active_peer_inner] that concerns sessions. *)
Definition remove_active_peer (n : Node) (a : NodeAddr) : Node :=
  match remove_with_session_indices (reg n) a with
  | (_, None) => n
  | (r, Some (_, indices)) =>
      foldl (λ (n : Node) (x : PeerSessionIndex),
        let n := if bool_decide (idx_kind x = KRekey) then forget_outbound n (idx_key x) else n in
        free (deregister_session_index n (idx_key x)) (idx_index x)) (set_reg n r) indices
  end.

Definition handle_decrypt_failure (cfg : RekeyConfig) (n : Node) (a : NodeAddr) (e : Env)
    : outcome Empty_set (Node * list Sent) :=
  match peer_of n a with
  | None => Ok (n, [])
  | Some p =>
      let '(p, count) := ActivePeer.increment_decrypt_failures p in
      let n := set_reg n (put_peer (reg n) a p) in
      if count <? DECRYPT_FAILURE_THRESHOLD then Ok (n, [])
      else if rekey_enabled cfg && ActivePeer.has_session p then
        if negb (ActivePeer.rekey_in_progress (ActivePeer.rekey p))
           && bool_decide (ActivePeer.pending_new_session (ActivePeer.pending p) = None)
        then
          r ← initiate_rekey cfg n a e;
          let '(n, started, sent) := (r : Node * bool * list Sent) in
          if started then
            Ok (match peer_of n a with
                | Some p => set_reg n (put_peer (reg n) a (ActivePeer.reset_decrypt_failures p))
                | None => n
                end, sent)
          else Ok (remove_active_peer n a, sent)
        else Ok (n, [])
      else Ok (remove_active_peer n a, [])
  end.

Definition handle_reported_fmp_decrypt_failure (cfg : RekeyConfig) (n : Node) (a : NodeAddr) (fmp_replay_highest now : Z) (e : Env)
    : outcome Empty_set (Node * bool * list Sent) :=
  match peer_of n a with
  | None => Ok (n, false, [])
  | Some p =>
      let grace_secs := if fmp_replay_highest =? 0 then DECRYPT_FAILURE_FRESH_SESSION_GRACE_SECS
                        else DECRYPT_FAILURE_POST_AUTH_GRACE_SECS in
      if elapsed_secs now (ActivePeer.session_established_at (ActivePeer.session p)) <? grace_secs then Ok (n, true, [])
      else '(n, sent) ← handle_decrypt_failure cfg n a e; Ok (n, true, sent)
  end.

(** ** Connections *)

(** The end of [handle_current_msg1]: an inbound connection of peer [a] gets its index.
    [refresh] says that it may refresh the peer's session, and whether that one is
    unconfirmed; [waits], that the peer must prove the keys first: the request, now
    and the time its deadline counts from. *)
Definition open_inbound (n : Node) (link : Z) (c : Conn) (a : NodeAddr) (sender_idx : Z) (msg2_response : list Z)
    (refresh : option bool) (waits : option (list Z * Z * Z)) (rng : nat → Z) : Node :=
  let '(alloc, r) := IndexAllocator.allocate (index_allocator n) rng in
  let n := set_allocator n alloc in
  match r with
  | Ok our =>
      let c := PeerConnection.set_their_index (PeerConnection.set_our_index c our) sender_idx in
      let c := match peer_of n a, refresh with
               | Some p, Some unconfirmed => PeerConnection.bind_refresh_owner c p unconfirmed
               | _, _ => c
               end in
      let c := PeerConnection.set_handshake_msg2 c (Wire.build_msg2 our sender_idx msg2_response) in
      let c := match waits with
               | Some (msg1, now_ms, since) => PeerConnection.touch (PeerConnection.set_handshake_msg1 c msg1 now_ms) since
               | None => c
               end in
      set_reg n (insert_connection (reg n) link c)
  | _ => n
  end.

(** [start_handshake] of [lifecycle/candidate_connect.rs]: the outbound counterpart;
    a failed send undoes it. *)
Definition open_outbound (cfg : RekeyConfig) (n : Node) (link tid : Z) (addr : list Z) (id : PeerIdentity) (rng : nat → Z)
    (random : list Z) (now_ms : Z) (started : option Z) (send_ok : bool) : outcome Empty_set (Node * list Sent) :=
  let c := PeerConnection.outbound link id now_ms in
  let '(alloc, r) := IndexAllocator.allocate (index_allocator n) rng in
  let n := set_allocator n alloc in
  match r with
  | Ok our =>
      let '(c, r) := PeerConnection.start_handshake (our_keypair n) (startup_epoch n) random now_ms c in
      match r with
      | Panic => Panic
      | Err _ => Ok (free n our, [])
      | Ok noise_msg1 =>
          let c := match started with Some t => PeerConnection.touch c t | None => c end in
          let c := PeerConnection.set_source_addr (PeerConnection.set_transport_id (PeerConnection.set_our_index c our) tid) addr in
          let wire_msg1 := Wire.build_msg1 our noise_msg1 in
          let c := PeerConnection.set_handshake_msg1 c wire_msg1 (wrap_u64 (now_ms + handshake_resend_interval_ms cfg)) in
          let n := set_pending_outbound n (<[(tid, our) := link]> (pending_outbound n)) in
          let n := set_reg n (insert_connection (reg n) link c) in
          if send_ok then Ok (n, [(tid, addr, wire_msg1)])
          else Ok (free (set_reg (forget_outbound n (tid, our)) (remove_connection (reg n) link)) our, [])
      end
  | _ => Ok (n, [])
  end.

(** The end of [cleanup_stale_connection] and [retire_connection_candidate]. *)
Definition drop_connection (n : Node) (link : Z) : Node :=
  match connections (reg n) !! link with
  | None => n
  | Some c =>
      let n := set_reg n (remove_connection (reg n) link) in
      match PeerConnection.our_index (PeerConnection.path c) with
      | None => n
      | Some i =>
          let n := match PeerConnection.transport_id (PeerConnection.path c) with
                   | Some tid => forget_outbound n (tid, i)
                   | None => n
                   end in
          free n i
      end
  end.

(** ** Promotion *)

Inductive PromotionResult :=
| Promoted (a : NodeAddr)
| CrossConnectionLost (winner_link_id : Z)
| CrossConnectionWon (loser_link_id : Z) (a : NodeAddr).

Inductive PromotionError := ConnectionNotFound | HandshakeIncomplete | MissingField | MaxPeersExceeded | PromotionFailed.

Definition epoch_changed (old new : option (list Z)) : bool :=
  match old, new with Some o, Some e => negb (bool_decide (o = e)) | _, _ => false end.

(** What promotion learns: the outcome of the arbitration between two live paths to
    the peer, whether the roster has room, whether the dataplane took the session. *)
Record PromoteEnv := mkPromoteEnv {
  pe_wins : bool;
  pe_room : bool;
  pe_synced : bool;
  pe_now_ms : Z;
  pe_now : Z;
  pe_jitter : Z;
  pe_announce_min_interval_ms : Z
}.

(** The address the connection prefers to be reached at goes to the peer. *)
Definition prefer_addr (c : Conn) (p : Peer) : Peer :=
  match PeerConnection.preferred_send_addr (PeerConnection.path c) with
  | Some addr => (ActivePeer.set_preferred_send_addr p addr).1
  | None => p
  end.

(** A session the dataplane does not take is removed with its peer. *)
Definition sync_promoted_handshake (n : Node) (a : NodeAddr) (e : PromoteEnv) (r : PromotionResult)
    : Node * outcome PromotionError PromotionResult :=
  if pe_synced e then (n, Ok r) else (remove_active_peer n a, Err PromotionFailed).

(** What the checks at the head of [promote_connection] extract: the session, both
    indexes, the transport (that of a retained reply first) and the address. *)
Definition promotion_parts (c : Conn) : option (NoiseSession.NoiseSession * Z * Z * Z * list Z) :=
  let x := PeerConnection.path c in
  let tid := match PeerConnection.completed_handshake_response (PeerConnection.owner c) with
             | Some reply => Some (packet_transport_id reply) | None => PeerConnection.transport_id x end in
  match (PeerConnection.take_session c).2, PeerConnection.our_index x, PeerConnection.their_index x, tid,
        PeerConnection.source_addr x with
  | Some s, Some our, Some their, Some tid, Some addr => Some (s, our, their, tid, addr)
  | _, _, _, _, _ => None
  end.

(** The peer of a promoted connection. *)
Definition promoted_peer (link : Z) (c : Conn) (id : PeerIdentity) (e : PromoteEnv)
    (parts : NoiseSession.NoiseSession * Z * Z * Z * list Z) : Peer :=
  let '(s, our, their, tid, addr) := parts in
  let p := ActivePeer.with_session id link (pe_now_ms e)
    (ActivePeer.mkPeerSession s our their tid addr (PeerConnection.link_stats c) (PeerConnection.is_outbound c)
       (PeerConnection.remote_epoch (PeerConnection.noise c)))
    (pe_now e) (pe_jitter e) in
  ActivePeer.set_tree_announce_min_interval_ms (prefer_addr c p) (pe_announce_min_interval_ms e).

(** The peer restarted: its old state goes, with its current index. *)
Definition promote_restarted (n : Node) (link : Z) (c : Conn) (id : PeerIdentity) (e : PromoteEnv)
    (parts : NoiseSession.NoiseSession * Z * Z * Z * list Z) (old : Peer) : Node * outcome PromotionError PromotionResult :=
  let a := id_node_addr id in
  let n := set_reg n (remove (reg n) a).1 in
  let n := match ActivePeer.transport_id (ActivePeer.path old), ActivePeer.our_index (ActivePeer.session old) with
           | Some old_tid, Some old_idx => free (deregister_session_index n (old_tid, old_idx)) old_idx
           | _, _ => n
           end in
  let n := set_reg n (insert_with_current_session_index (reg n) a (promoted_peer link c id e parts)).1.1 in
  sync_promoted_handshake n a e (CrossConnectionWon (ActivePeer.link_id old) a).

(** The connection wins over the peer's session. *)
Definition promote_replacing (n : Node) (link : Z) (c : Conn) (id : PeerIdentity) (e : PromoteEnv)
    (parts : NoiseSession.NoiseSession * Z * Z * Z * list Z) : Node * outcome PromotionError PromotionResult :=
  let '(s, our, their, tid, addr) := parts in
  let a := id_node_addr id in
  let '(r, replaced) := replace_current_session_and_path (reg n) a
    (mkReplacement s our their link tid addr (PeerConnection.is_outbound c)
       (PeerConnection.remote_epoch (PeerConnection.noise c)) (pe_now_ms e))
    (pe_now e) (pe_jitter e) in
  let n := set_reg n r in
  match replaced with
  | None => (n, Err PromotionFailed)
  | Some (loser, retired, _) =>
      let n := free_retired_peer_session_indices n retired in
      let n := match peer_of n a with
               | Some p => set_reg n (put_peer (reg n) a (prefer_addr c p))
               | None => n
               end in
      sync_promoted_handshake n a e (CrossConnectionWon loser a)
  end.

Definition promote_connection (n : Node) (link : Z) (id : PeerIdentity) (e : PromoteEnv)
    : Node * outcome PromotionError PromotionResult :=
  match connections (reg n) !! link with
  | None => (n, Err ConnectionNotFound)
  | Some c =>
      let n := set_reg n (remove_connection (reg n) link) in
      let a := id_node_addr id in
      if negb (PeerConnection.has_session c) then (n, Err HandshakeIncomplete)
      else
        match promotion_parts c with
        | None => (n, Err MissingField)
        | Some parts =>
            let our := parts.1.1.1.2 in
            match peer_of n a with
            | Some old =>
                if epoch_changed (ActivePeer.remote_epoch old) (PeerConnection.remote_epoch (PeerConnection.noise c))
                then promote_restarted n link c id e parts old
                else if pe_wins e then promote_replacing n link c id e parts
                else (free n our, Ok (CrossConnectionLost (ActivePeer.link_id old)))
            | None =>
                if negb (pe_room e) then (free n our, Err MaxPeersExceeded)
                else
                  let n := set_reg n (insert_with_current_session_index (reg n) a (promoted_peer link c id e parts)).1.1 in
                  sync_promoted_handshake n a e (Promoted a)
            end
        end
  end.

(** An inbound connection frees its index again when its promotion fails; the answer
    is kept before it is sent. *)
Definition finish_inbound_handshake (n : Node) (link : Z) (id : PeerIdentity) (e : PromoteEnv) : Node :=
  match connections (reg n) !! link with
  | None => n
  | Some c =>
      match PeerConnection.our_index (PeerConnection.path c), PeerConnection.their_index (PeerConnection.path c),
            PeerConnection.handshake_msg2 (PeerConnection.resend c) with
      | Some our, Some _, Some wire_msg2 =>
          match promote_connection n link id e with
          | (n, Ok (Promoted a)) | (n, Ok (CrossConnectionWon _ a)) =>
              match peer_of n a with
              | Some p => ensure_current_registered
                            (set_reg n (put_peer (reg n) a (ActivePeer.set_handshake_msg2 p wire_msg2 (pe_now_ms e)))) a
              | None => n
              end
          | (n, Ok (CrossConnectionLost _)) => n
          | (n, _) => free n our
          end
      | _, _, _ => n
      end
  end.

End node.
End Node.
