(* ===== verification/LinkIndexes.v ===== *)
(** * Who holds which session index

    Every index the allocator has given out is held by exactly one connection or by
    one slot of one active peer (its current, previous, pending or rekeying session):
    indexes are neither lost nor freed while in use, so a receiver index names one
    session. One path loses indexes, and loses them for good. *)

From S2P Require Import Prelude Bytes NodeAddr F64 Index NodeTables StateErr Noise NoiseTransport HandshakeWire Peers.
From S2P Require Import PeerRegistry LinkRekey.

Local Open Scope Z_scope.

Section indexes.
Context `{NoiseCrypto}.
Import PeerLifecycleRegistry Node.

Local Abbreviation Peer := ActivePeer.ActivePeer.
Local Abbreviation Conn := PeerConnection.PeerConnection.

(** ** What a node holds *)

Definition current_slot (p : Peer) : option Z := ActivePeer.our_index (ActivePeer.session p).
Definition rekey_slot (p : Peer) : option Z := ActivePeer.rekey_our_index (ActivePeer.rekey p).
Definition pending_slot (p : Peer) : option Z := ActivePeer.pending_our_index (ActivePeer.pending p).
Definition previous_slot (p : Peer) : option Z := ActivePeer.previous_our_index (ActivePeer.drain p).

Definition slots (p : Peer) : list Z :=
  option_list (current_slot p) ++ option_list (rekey_slot p) ++ option_list (pending_slot p) ++ option_list (previous_slot p).

Definition held_by_peer (p : Peer) : gset Z := list_to_set (slots p).
Definition held_by_conn (c : Conn) : gset Z := list_to_set (option_list (PeerConnection.our_index (PeerConnection.path c))).

Definition used (n : Node) : gset Z := IndexAllocator.in_use (index_allocator n).
Definition conns (n : Node) : gmap Z Conn := connections (reg n).
Definition actives (n : Node) : gmap NodeAddr Peer := peers (reg n).

(** A holder is a connection or a peer. *)
Definition holds (n : Node) (h : Z + NodeAddr) : gset Z :=
  match h with
  | inl link => default ∅ (held_by_conn <$> conns n !! link)
  | inr a => default ∅ (held_by_peer <$> actives n !! a)
  end.

(** At most one of a rekey in progress and a pending session holds an index. *)
Record peer_ok (p : Peer) : Prop := {
  po_nodup : NoDup (slots p);
  po_transport : is_Some (ActivePeer.transport_id (ActivePeer.path p));
  po_current : is_Some (current_slot p);
  po_rekey : ActivePeer.rekey_in_progress (ActivePeer.rekey p) = false → rekey_slot p = None;
  po_pending : is_Some (ActivePeer.pending_new_session (ActivePeer.pending p)) ↔ is_Some (pending_slot p);
  po_exclusive : is_Some (pending_slot p) → rekey_slot p = None
}.

(** [L] are the indexes in use that nobody holds. *)
Record accounted (L : gset Z) (n : Node) : Prop := {
  ac_used : ∀ i, i ∈ used n ↔ i ∈ L ∨ ∃ h, i ∈ holds n h;
  ac_lost : ∀ i h, i ∈ L → i ∉ holds n h;
  ac_once : ∀ i h h', i ∈ holds n h → i ∈ holds n h' → h = h';
  ac_peers : map_Forall (λ _, peer_ok) (actives n)
}.

Lemma holds_used L n h i : accounted L n → i ∈ holds n h → i ∈ used n.
Proof. intros Ha Hi. apply (ac_used L n Ha). eauto. Qed.

(** One holder exchanges what it holds for something else. *)
Lemma accounted_update L n n' h : accounted L n →
  (∀ h', h' ≠ h → holds n' h' = holds n h') →
  used n' = (used n ∖ holds n h) ∪ holds n' h →
  (∀ i, i ∈ holds n' h → i ∈ holds n h ∨ i ∉ used n) →
  map_Forall (λ _, peer_ok) (actives n') → accounted L n'.
Proof.
  intros Ha Hother Hused Hnew Hp. pose proof Ha as [Hu Hl Ho _].
  assert (∀ i h', h' ≠ h → i ∈ holds n' h → i ∉ holds n' h') as Hsep.
  { intros i h' Hne Hi Hi'. rewrite (Hother h' Hne) in Hi'. destruct (Hnew i Hi) as [Hi0|Hi0].
    - by apply Hne, (Ho i).
    - by apply Hi0, (holds_used L n h' i). }
  split; [| | |done].
  - intros i. rewrite Hused. split.
    + intros [[Hi Hn]%elem_of_difference|Hi]%elem_of_union; [|eauto]. apply Hu in Hi as [Hi|[h' Hi]]; [by left|].
      right. exists h'. rewrite Hother; [done|]. intros ->. done.
    + intros [Hi|[h' Hi]].
      * apply elem_of_union_l, elem_of_difference. split; [apply Hu; by left|by apply Hl].
      * destruct (decide (h' = h)) as [->|Hne]; [by apply elem_of_union_r|].
        apply elem_of_union_l, elem_of_difference. rewrite (Hother h' Hne) in Hi.
        split; [by eapply holds_used|]. intros Hi'. by apply Hne, (Ho i).
  - intros i h' Hi Hi'. destruct (decide (h' = h)) as [->|Hne].
    + destruct (Hnew i Hi') as [Hi0|Hi0]; [by apply (Hl i h)|]. apply Hi0, Hu. by left.
    + rewrite (Hother h' Hne) in Hi'. by apply (Hl i h').
  - intros i h1 h2 H1 H2. destruct (decide (h1 = h)) as [->|N1], (decide (h2 = h)) as [->|N2]; [done| | |].
    + by destruct (Hsep i h2 N2 H1).
    + by destruct (Hsep i h1 N1 H2).
    + rewrite Hother in H1, H2 by done. by apply (Ho i).
Qed.

Lemma accounted_peer L n n' a p' : accounted L n →
  conns n' = conns n → actives n' = <[a := p']> (actives n) →
  used n' = (used n ∖ holds n (inr a)) ∪ held_by_peer p' →
  (∀ i, i ∈ held_by_peer p' → i ∈ holds n (inr a) ∨ i ∉ used n) →
  peer_ok p' → accounted L n'.
Proof.
  intros Ha Hc Hp Hu Hnew Hok.
  assert (holds n' (inr a) = held_by_peer p') as E by (cbn; by rewrite Hp, lookup_insert_eq).
  apply (accounted_update L n n' (inr a)); [done| |by rewrite E|by rewrite E|].
  - intros [l|b] Hne; cbn; [by rewrite Hc|]. rewrite Hp, lookup_insert_ne; [done|]. intros <-. done.
  - rewrite Hp. apply map_Forall_insert_2; [done|]. apply (ac_peers L n Ha).
Qed.

(** The peer keeps its indexes. *)
Lemma accounted_same L n n' a p p' : accounted L n → actives n !! a = Some p →
  conns n' = conns n → actives n' = <[a := p']> (actives n) → used n' = used n →
  slots p' = slots p → peer_ok p' → accounted L n'.
Proof.
  intros Ha Hp Hc Hp' Hu Hs Hok. assert (holds n (inr a) = held_by_peer p) as E by (cbn; by rewrite Hp).
  assert (held_by_peer p' = held_by_peer p) as E' by (unfold held_by_peer; by rewrite Hs).
  apply (accounted_peer L n n' a p'); [done..| | |done].
  - rewrite Hu, E, E'. apply set_eq. intros i. rewrite elem_of_union, elem_of_difference.
    assert (i ∈ held_by_peer p → i ∈ used n) by (rewrite <- E; by apply (holds_used L)).
    destruct (decide (i ∈ held_by_peer p)); naive_solver.
  - intros i. rewrite E', E. by left.
Qed.

Lemma accounted_drop_peer L n n' a : accounted L n →
  conns n' = conns n → actives n' = delete a (actives n) → used n' = used n ∖ holds n (inr a) → accounted L n'.
Proof.
  intros Ha Hc Hp Hu.
  assert (holds n' (inr a) = ∅) as E by (cbn; by rewrite Hp, lookup_delete_eq).
  apply (accounted_update L n n' (inr a)); [done| |by rewrite E, Hu, union_empty_r_L|intros i; rewrite E; set_solver|].
  - intros [l|b] Hne; cbn; [by rewrite Hc|]. rewrite Hp, lookup_delete_ne; [done|]. intros <-. done.
  - rewrite Hp. apply map_Forall_delete, (ac_peers L n Ha).
Qed.

Lemma accounted_conn L n n' l c' : accounted L n →
  conns n' = <[l := c']> (conns n) → actives n' = actives n →
  used n' = (used n ∖ holds n (inl l)) ∪ held_by_conn c' →
  (∀ i, i ∈ held_by_conn c' → i ∈ holds n (inl l) ∨ i ∉ used n) → accounted L n'.
Proof.
  intros Ha Hc Hp Hu Hnew.
  assert (holds n' (inl l) = held_by_conn c') as E by (cbn; by rewrite Hc, lookup_insert_eq).
  apply (accounted_update L n n' (inl l)); [done| |by rewrite E|by rewrite E|].
  - intros [k|b] Hne; cbn; [|by rewrite Hp]. rewrite Hc, lookup_insert_ne; [done|]. intros <-. done.
  - rewrite Hp. apply (ac_peers L n Ha).
Qed.

Lemma accounted_drop_conn L n n' l : accounted L n →
  conns n' = delete l (conns n) → actives n' = actives n → used n' = used n ∖ holds n (inl l) → accounted L n'.
Proof.
  intros Ha Hc Hp Hu.
  assert (holds n' (inl l) = ∅) as E by (cbn; by rewrite Hc, lookup_delete_eq).
  apply (accounted_update L n n' (inl l)); [done| |by rewrite E, Hu, union_empty_r_L|intros i; rewrite E; set_solver|].
  - intros [k|b] Hne; cbn; [|by rewrite Hp]. rewrite Hc, lookup_delete_ne; [done|]. intros <-. done.
  - rewrite Hp. apply (ac_peers L n Ha).
Qed.

(** Only the three tables matter. *)
Lemma accounted_ext L n n' : conns n' = conns n → actives n' = actives n → used n' = used n → accounted L n → accounted L n'.
Proof.
  intros Hc Hp Hu [H1 H2 H3 H4]. assert (∀ h, holds n' h = holds n h) as E by (intros []; cbn; by rewrite ?Hc, ?Hp).
  split; [intros i; rewrite Hu, H1; by setoid_rewrite E|intros; rewrite E; eauto|intros i h h'; rewrite !E; eauto|by rewrite Hp].
Qed.

Lemma accounted_shrink L n n' a p p' (F : gset Z) : accounted L n → actives n !! a = Some p →
  conns n' = conns n → actives n' = <[a := p']> (actives n) → used n' = used n ∖ F →
  held_by_peer p' = held_by_peer p ∖ F → F ⊆ held_by_peer p → peer_ok p' → accounted L n'.
Proof.
  intros Ha Hp Hc Hp' Hu Hh HF Hok. assert (holds n (inr a) = held_by_peer p) as E by (cbn; by rewrite Hp).
  assert (held_by_peer p ⊆ used n) by (intros i; rewrite <- E; by apply (holds_used L)).
  apply (accounted_peer L n n' a p'); [done..| |rewrite Hh, E; set_solver|done].
  rewrite Hu, E, Hh. apply set_eq. intros i. destruct (decide (i ∈ F)), (decide (i ∈ held_by_peer p)); set_solver.
Qed.

Lemma accounted_grow L n n' a p p' i : accounted L n → actives n !! a = Some p → i ∉ used n →
  conns n' = conns n → actives n' = <[a := p']> (actives n) → used n' = {[i]} ∪ used n →
  held_by_peer p' = {[i]} ∪ held_by_peer p → peer_ok p' → accounted L n'.
Proof.
  intros Ha Hp Hi Hc Hp' Hu Hh Hok. assert (holds n (inr a) = held_by_peer p) as E by (cbn; by rewrite Hp).
  assert (held_by_peer p ⊆ used n) by (intros j; rewrite <- E; by apply (holds_used L)).
  apply (accounted_peer L n n' a p'); [done..| |rewrite Hh, E; set_solver|done].
  rewrite Hu, E, Hh. apply set_eq. intros j. destruct (decide (j ∈ held_by_peer p)); set_solver.
Qed.

(** ** What the handlers leave of the tables *)

Definition same_tables (n n' : Node) : Prop := conns n' = conns n ∧ actives n' = actives n ∧ used n' = used n.

Lemma accounted_same_tables L n n' : same_tables n n' → accounted L n → accounted L n'.
Proof. intros (?&?&?). by apply accounted_ext. Qed.

Lemma used_free n i : used (free n i) = used n ∖ {[i]}.
Proof.
  unfold used, free, IndexAllocator.free. cbn. case_bool_decide; [done|]. set_solver.
Qed.

Lemma ensure_tables n a : same_tables n (ensure_current_registered n a).
Proof.
  unfold ensure_current_registered, ensure_current_session_index_registered.
  destruct (peers (reg n) !! a) as [p|]; [|done]. destruct (ActivePeer.transport_id (ActivePeer.path p)), (ActivePeer.our_index (ActivePeer.session p)); try done.
  by case_bool_decide.
Qed.

Lemma free_retired_tables n l : let n' := free_retired_peer_session_indices n l in
  conns n' = conns n ∧ actives n' = actives n ∧ used n' = used n ∖ list_to_set (idx_index <$> l).
Proof.
  cbn. unfold free_retired_peer_session_indices. revert n. induction l as [|r l IH]; intros n; cbn [foldl fmap list_fmap].
  - split_and!; [done|done|]. cbn. set_solver.
  - destruct (IH (free (forget_outbound n (idx_key r)) (idx_index r))) as (-> & -> & ->). split_and!; [done|done|].
    rewrite used_free. cbn. set_solver.
Qed.

(** The allocator gives an index not in use, or nothing and stays as it is. *)
Lemma allocate_spec n rng alloc r : IndexAllocator.allocate (index_allocator n) rng = (alloc, r) →
  let n' := set_allocator n alloc in
  match r with
  | Ok i => (i ∉ used n) ∧ used n' = {[i]} ∪ used n
  | _ => used n' = used n
  end ∧ conns n' = conns n ∧ actives n' = actives n.
Proof.
  intros E. unfold IndexAllocator.allocate in E.
  pose proof (attempt_spec (index_allocator n) rng (IndexAllocator.max_attempts (index_allocator n)) 0) as Hs.
  rewrite E in Hs. destruct r as [i|e|]; [| |done].
  - destruct Hs as (Hi & -> & _). done.
  - destruct Hs as (_ & -> & _). done.
Qed.

(** ** The operations of a peer *)

(** What [peer_ok] and [slots] look at. *)
Lemma peer_ok_frame p q : current_slot q = current_slot p → rekey_slot q = rekey_slot p → pending_slot q = pending_slot p →
  previous_slot q = previous_slot p →
  ActivePeer.rekey_in_progress (ActivePeer.rekey q) = ActivePeer.rekey_in_progress (ActivePeer.rekey p) →
  ActivePeer.pending_new_session (ActivePeer.pending q) = ActivePeer.pending_new_session (ActivePeer.pending p) →
  is_Some (ActivePeer.transport_id (ActivePeer.path q)) → peer_ok p → peer_ok q ∧ slots q = slots p.
Proof.
  intros Hc Hr Hp Hd Hi Hn Ht [Hnd _ Hcu Hre Hpe He].
  assert (slots q = slots p) as E by (unfold slots; by rewrite Hc, Hr, Hp, Hd).
  split; [|done]. split; by rewrite ?E, ?Hc, ?Hr, ?Hp, ?Hi, ?Hn.
Qed.

(** Sets of up to four slots. *)
Ltac four_slots p := unfold held_by_peer, slots in *;
  destruct (current_slot p), (rekey_slot p), (pending_slot p), (previous_slot p); try done; cbn in *;
  rewrite ?NoDup_cons, ?list_elem_of_singleton, ?elem_of_cons in *; set_solver.

Lemma abandon_ok p : peer_ok p → let '(q, i) := ActivePeer.abandon_rekey p in
  peer_ok q ∧ held_by_peer q = held_by_peer p ∖ list_to_set (option_list i)
  ∧ (list_to_set (option_list i) : gset Z) ⊆ held_by_peer p.
Proof.
  intros [Hn Ht Hc Hr Hp He]. cbn.
  assert (rekey_slot p = None ∨ pending_slot p = None) as Hx.
  { destruct (pending_slot p); [left; by apply He|by right]. }
  set (q := ActivePeer.set_rekey _ _). set (i := match ActivePeer.rekey_our_index _ with Some i => _ | None => _ end).
  assert (slots q = option_list (current_slot p) ++ option_list (previous_slot p)) as E by done.
  assert (i = match rekey_slot p with Some i => Some i | None => pending_slot p end) as Ei by done. clearbody i.
  split; [split; [|done|done|done|by split; intros []|by intros []]|].
  - rewrite E. unfold slots in Hn. four_slots p.
  - unfold held_by_peer. rewrite E, Ei. destruct Hx; four_slots p.
Qed.

Lemma complete_drain_ok p : peer_ok p → let '(q, i) := ActivePeer.complete_drain p in
  peer_ok q ∧ held_by_peer q = held_by_peer p ∖ list_to_set (option_list i)
  ∧ (list_to_set (option_list i) : gset Z) ⊆ held_by_peer p.
Proof.
  intros [Hn Ht Hc Hr Hp He]. cbn. change (ActivePeer.previous_our_index _) with (previous_slot p).
  set (q := ActivePeer.set_drain _ _).
  assert (slots q = option_list (current_slot p) ++ option_list (rekey_slot p) ++ option_list (pending_slot p) ++ []) as E by done.
  split; [split; [|done..]|].
  - rewrite E. unfold slots in Hn. four_slots p.
  - unfold held_by_peer. rewrite E. four_slots p.
Qed.

(** A rekey begins when none is under way. *)
Lemma set_rekey_state_ok p hs i m t : peer_ok p → i ∉ held_by_peer p →
  ActivePeer.rekey_in_progress (ActivePeer.rekey p) = false → ActivePeer.pending_new_session (ActivePeer.pending p) = None →
  let q := ActivePeer.set_rekey_state p hs i m t in peer_ok q ∧ held_by_peer q = {[i]} ∪ held_by_peer p.
Proof.
  intros [Hn Ht Hc Hr Hp He] Hi Hnone Hpn q. specialize (Hr Hnone).
  assert (pending_slot p = None) as Hpe.
  { destruct (pending_slot p) eqn:E; [|done]. rewrite Hpn in Hp. destruct Hp as [_ Hp]. by destruct Hp. }
  assert (slots q = option_list (current_slot p) ++ [i] ++ option_list (pending_slot p) ++ option_list (previous_slot p)) as E by done.
  split; [split; [|done|done|done|done|]|].
  - rewrite E. four_slots p.
  - change (pending_slot q) with (pending_slot p). rewrite Hpe. by intros [].
  - unfold held_by_peer. rewrite E. four_slots p.
Qed.

(** A pending session under a fresh index, when there is no other. *)
Lemma set_pending_session_ok p s i j b t : peer_ok p → i ∉ held_by_peer p → rekey_slot p = None → pending_slot p = None →
  let q := ActivePeer.set_pending_session p s i j b t in peer_ok q ∧ held_by_peer q = {[i]} ∪ held_by_peer p.
Proof.
  intros [Hn Ht Hc Hr Hp He] Hi Hre Hpe q.
  assert (slots q = option_list (current_slot p) ++ [] ++ [i] ++ option_list (previous_slot p)) as E by done.
  split; [split; [|done..]|].
  - rewrite E. four_slots p.
  - unfold held_by_peer. rewrite E. four_slots p.
Qed.

(** The session of a finished rekey takes over its index. *)
Lemma finish_rekey_ok p s i j b t : peer_ok p → rekey_slot p = Some i →
  let q := ActivePeer.set_pending_session p s i j b t in peer_ok q ∧ held_by_peer q = held_by_peer p.
Proof.
  intros [Hn Ht Hc Hr Hp He] Hre q.
  assert (pending_slot p = None) as Hpe by (destruct (pending_slot p) eqn:E; [by rewrite He in Hre|done]).
  assert (slots q = slots p) as E by (unfold slots; by rewrite Hre, Hpe).
  split; [split; [by rewrite E|done..]|unfold held_by_peer; by rewrite E].
Qed.

(** ** Retiring what a new session supersedes *)

Lemma push_index_indices l k t o : Forall (λ x, (idx_key x).2 = idx_index x) l → (∀ i, o = Some i → i ∉ idx_index <$> l) →
  idx_index <$> push_index l k t o = (idx_index <$> l) ++ option_list o
  ∧ Forall (λ x, (idx_key x).2 = idx_index x) (push_index l k t o).
Proof.
  intros Hl Hi. destruct o as [i|]; cbn; [|by rewrite app_nil_r].
  destruct (existsb _ l) eqn:E; [|split; [by rewrite fmap_app|by apply Forall_app_2, Forall_singleton]].
  destruct (Hi i eq_refl). apply existsb_exists in E as (x & Hx%list_elem_of_In & Hk%bool_decide_eq_true).
  rewrite Forall_forall in Hl. specialize (Hl x Hx). rewrite Hk in Hl. cbn in Hl. subst i. by apply list_elem_of_fmap_2.
Qed.

(** A peer's list names each of its slots once. *)
Lemma session_indices_slots p : peer_ok p → idx_index <$> active_peer_session_indices p = slots p.
Proof.
  intros [Hn [t Ht] [c Hc] _ _ _]. unfold active_peer_session_indices, active_peer_current_session_index.
  unfold slots, current_slot, rekey_slot, pending_slot, previous_slot in *. rewrite Ht, Hc in *. cbn [option_list] in *.
  assert (Forall (λ x, (idx_key x).2 = idx_index x) [mkIndexOf KCurrent (t, c) c]) as F0 by by apply Forall_singleton.
  set (r := ActivePeer.rekey_our_index _) in *. set (pe := ActivePeer.pending_our_index _) in *. set (d := ActivePeer.previous_our_index _) in *.
  rewrite (assoc_L (++)), (assoc_L (++)) in Hn. apply NoDup_app in Hn as (Hn & Hd & _).
  apply NoDup_app in Hn as (Hn & Hpe & _). apply NoDup_app in Hn as (_ & Hr & _).
  destruct (push_index_indices [mkIndexOf KCurrent (t, c) c] KRekey t r F0) as [E1 F1].
  { intros i ->. cbn. intros Hi. by apply (Hr i Hi), list_elem_of_singleton. }
  destruct (push_index_indices _ KPending t pe F1) as [E2 F2].
  { intros i ->. rewrite E1. intros Hi. by apply (Hpe i Hi), list_elem_of_singleton. }
  destruct (push_index_indices _ KPrevious (default t (ActivePeer.previous_transport_id (ActivePeer.drain p))) d F2) as [E3 _].
  { intros i ->. rewrite E2, E1. intros Hi. by apply (Hd i Hi), list_elem_of_singleton. }
  refine (eq_trans E3 _). rewrite E2, E1. cbn. by rewrite <- (assoc_L (++)).
Qed.

Lemma retire_spec a retained old r : let '(r', retired) := retire_superseded_session_indices r a old retained in
  connections r' = connections r ∧ peers r' = peers r
  ∧ ∀ i, i ∈ idx_index <$> retired ↔ i ∈ idx_index <$> old ∧ i ∉ idx_index <$> retained.
Proof.
  unfold retire_superseded_session_indices.
  enough (∀ acc, let '(r', retired) := foldl (retire_one a retained) acc old in
    connections r' = connections acc.1 ∧ peers r' = peers acc.1
    ∧ ∀ i, i ∈ idx_index <$> retired ↔ i ∈ idx_index <$> acc.2 ∨ (i ∈ idx_index <$> old ∧ i ∉ idx_index <$> retained)) as Hg.
  { specialize (Hg (r, [])). destruct (foldl _ _ _) as [r' retired]. destruct Hg as (-> & -> & Hg). split_and!; [done|done|].
    intros i. rewrite Hg. cbn. set_solver. }
  induction old as [|o old IH]; intros [r0 acc]; cbn [foldl]; [split_and!; [done|done|]; set_solver|].
  specialize (IH (retire_one a retained (r0, acc) o)). destruct (foldl _ _ _) as [r' retired]. destruct IH as (-> & -> & IH).
  assert (∀ l i, existsb (λ x, idx_index x =? i) l = true ↔ i ∈ idx_index <$> l) as Hex.
  { intros l i. rewrite existsb_exists, list_elem_of_fmap. setoid_rewrite <- list_elem_of_In. setoid_rewrite Z.eqb_eq. naive_solver. }
  unfold retire_one in IH |- *. cbn [fst snd] in IH |- *.
  destruct (existsb (λ x, idx_index x =? idx_index o) retained) eqn:E1; cbn [negb andb fst snd] in IH |- *.
  - split_and!; [by case_match|by case_match|]. intros i. rewrite IH, fmap_cons, elem_of_cons. apply Hex in E1. set_solver.
  - assert (idx_index o ∉ idx_index <$> retained) by (rewrite <- Hex, E1; done).
    destruct (existsb (λ x, idx_index x =? idx_index o) acc) eqn:E2; cbn [negb andb fst snd] in IH |- *; (split_and!; [by case_match|by case_match|]); intros i;
      rewrite IH, fmap_cons, elem_of_cons, ?fmap_app; [apply Hex in E2|]; set_solver.
Qed.

(** ** The handlers keep the account *)

Lemma foldl_accounted {X} L (f : Node → X → Node) l n :
  (∀ n x, accounted L n → accounted L (f n x)) → accounted L n → accounted L (foldl f n l).
Proof. intros Hf. revert n. induction l as [|x l IH]; intros n Hn; [done|]. by apply IH, Hf. Qed.

Lemma option_free n o : used (match o with Some i => free n i | None => n end) = used n ∖ list_to_set (option_list o).
Proof. destruct o; [by rewrite used_free; cbn; rewrite union_empty_r_L|cbn; set_solver]. Qed.

(** The rekey of a peer, in the state [p0] with the indexes of [p], is abandoned. *)
Lemma abandoned L n n' a p p0 : accounted L n → actives n !! a = Some p → peer_ok p0 → slots p0 = slots p →
  conns n' = conns n → actives n' = <[a := (ActivePeer.abandon_rekey p0).1]> (actives n) →
  used n' = used n ∖ list_to_set (option_list (ActivePeer.abandon_rekey p0).2) → accounted L n'.
Proof.
  intros Ha Hp Hok Hs Hc Hp' Hu. pose proof (abandon_ok p0 Hok) as Hab. destruct (ActivePeer.abandon_rekey p0) as [q i].
  destruct Hab as (Hq & Hh & Hsub). assert (held_by_peer p0 = held_by_peer p) as E by (unfold held_by_peer; by rewrite Hs).
  rewrite E in Hh, Hsub. by eapply (accounted_shrink L n n' a p q).
Qed.

Lemma abandon_accounted L n a : accounted L n → accounted L (abandon_fmp_rekey_for_peer n a).1.
Proof.
  intros Ha. unfold abandon_fmp_rekey_for_peer, peer_of. destruct (peers (reg n) !! a) as [p|] eqn:Hp; [|done].
  pose proof (ac_peers L n Ha a p Hp) as Hok.
  destruct (peer_ok_frame p (ActivePeer.clear_handshake_msg2 p)) as [Hok' Hs]; [done..|apply Hok|done|].
  apply (abandoned L n _ a p (ActivePeer.clear_handshake_msg2 p)); [done|done|done|done|..];
    destruct (ActivePeer.abandon_rekey (ActivePeer.clear_handshake_msg2 p)) as [q [i|]]; cbn [fst snd];
    try destruct (ActivePeer.transport_id (ActivePeer.path p)); try done; rewrite ?used_free; cbn; set_solver.
Qed.

Lemma lose_dual_accounted L n a : accounted L n → accounted L (lose_dual_initiation n a).
Proof.
  intros Ha. unfold lose_dual_initiation, peer_of. destruct (peers (reg n) !! a) as [p|] eqn:Hp; [|done].
  pose proof (ac_peers L n Ha a p Hp) as Hok.
  apply (abandoned L n _ a p p); [done|done|done|done|..];
    destruct (ActivePeer.abandon_rekey p) as [q [i|]]; cbn [fst snd];
    try destruct (ActivePeer.transport_id (ActivePeer.path p)); try done; rewrite ?used_free; cbn; set_solver.
Qed.

Lemma expire_accounted L ord cfg n now : accounted L n → accounted L (expire_unconfirmed_fmp_rekeys ord cfg n now).
Proof. intros Ha. apply foldl_accounted; [|done]. intros. by apply abandon_accounted. Qed.

(** A drained session gives its index back. *)
Lemma drained L n n' a p : accounted L n → actives n !! a = Some p → conns n' = conns n →
  actives n' = <[a := (ActivePeer.complete_drain p).1]> (actives n) →
  used n' = used n ∖ list_to_set (option_list (ActivePeer.complete_drain p).2) → accounted L n'.
Proof.
  intros Ha Hp Hc Hp' Hu. pose proof (complete_drain_ok p (ac_peers L n Ha a p Hp)) as Hab.
  destruct (ActivePeer.complete_drain p) as [q i]. destruct Hab as (Hq & Hh & Hsub). by eapply (accounted_shrink L n n' a p q).
Qed.

Lemma retire_drain_accounted L n a : accounted L n → accounted L (retire_fmp_rekey_drain_for_dead_path n a).1.
Proof.
  intros Ha. unfold retire_fmp_rekey_drain_for_dead_path, peer_of. destruct (peers (reg n) !! a) as [p|] eqn:Hp; [|done].
  apply (drained L n _ a p); [done|done|..]; destruct (ActivePeer.complete_drain p) as [q [i|]]; cbn [fst snd];
    try (destruct (ActivePeer.previous_transport_id (ActivePeer.drain p)); [|destruct (ActivePeer.transport_id (ActivePeer.path p))]);
    try done; rewrite ?used_free; cbn; set_solver.
Qed.

Lemma drain_loop_accounted L n now l : accounted L n → accounted L (drain_loop n now l).
Proof.
  apply foldl_accounted. clear n. intros n a Ha. unfold complete_due_fmp_rekey_drain.
  destruct (peers (reg n) !! a) as [p|] eqn:Hp; [|by apply (accounted_ext L n)].
  pose proof (ac_peers L n Ha a p Hp) as [_ [t Ht] _ _ _ _].
  destruct (negb (ActivePeer.is_draining p) || negb (ActivePeer.drain_expired p now FMP_DRAIN_WINDOW_SECS)); [by apply (accounted_ext L n)|].
  apply (drained L n _ a p); [done|done|..]; destruct (ActivePeer.complete_drain p) as [q [i|]]; cbn [fst snd fmap option_fmap option_map];
    try (destruct (ActivePeer.previous_transport_id (ActivePeer.drain p)); [|rewrite Ht]);
    try done; rewrite ?used_free; cbn; set_solver.
Qed.

(** The pending session takes over, the current one drains. *)
Lemma confirm_ok p k now j s : peer_ok p → ActivePeer.pending_new_session (ActivePeer.pending p) = Some s →
  let '(q, r) := ActivePeer.confirm_pending_session p k now j in
  peer_ok q ∧ r = current_slot p ∧ held_by_peer q ⊆ held_by_peer p.
Proof.
  intros [Hn Ht Hc Hr Hp He] Hs. unfold ActivePeer.confirm_pending_session. rewrite Hs.
  assert (is_Some (pending_slot p)) as Hpe by (apply Hp; by rewrite Hs). pose proof (He Hpe) as Hre.
  set (q := (ActivePeer.reset_replay_suppressed _).1).
  assert (slots q = option_list (pending_slot p) ++ option_list (rekey_slot p) ++ [] ++ option_list (current_slot p)) as E by done.
  split_and!; [split|done|].
  - rewrite E, Hre. destruct Hpe as [i Hi], Hc as [c Hc]. unfold slots in Hn. rewrite Hi, Hc, Hre in *.
    destruct (previous_slot p); cbn in *; rewrite ?NoDup_cons, ?list_elem_of_singleton, ?elem_of_cons in *; set_solver.
  - done.
  - done.
  - intros _. exact Hre.
  - by split; intros [].
  - by intros [].
  - unfold held_by_peer. rewrite E. unfold slots. rewrite !list_to_set_app_L. cbn. set_solver.
Qed.

(** A peer's new state holds only indexes of the old one; the others are retired and freed. *)
Lemma superseded L n n' a p q r retired : accounted L n → actives n !! a = Some p → peer_ok q → held_by_peer q ⊆ held_by_peer p →
  retire_superseded_session_indices r a (active_peer_session_indices p) (active_peer_session_indices q) = (n', retired) →
  connections r = conns n → peers r = <[a := q]> (actives n) →
  accounted L (free_retired_peer_session_indices (set_reg n n') retired).
Proof.
  intros Ha Hp Hok Hsub E Hc Hpe. pose proof (retire_spec a (active_peer_session_indices q) (active_peer_session_indices p) r) as Hs.
  rewrite E in Hs. destruct Hs as (Hc' & Hp' & Hi). destruct (free_retired_tables (set_reg n n') retired) as (Ec & Ep & Eu).
  rewrite !session_indices_slots in Hi by (done || by apply (ac_peers L n Ha a)).
  apply (accounted_shrink L n _ a p q (held_by_peer p ∖ held_by_peer q)); [done|done| | | | |set_solver|done].
  - rewrite Ec. unfold conns. cbn. by rewrite Hc', Hc.
  - rewrite Ep. unfold actives. cbn. by rewrite Hp', Hpe.
  - rewrite Eu. change (used (set_reg n n')) with (used n). f_equal. apply set_eq. intros i.
    rewrite elem_of_list_to_set, Hi, elem_of_difference. unfold held_by_peer. by rewrite !elem_of_list_to_set.
  - apply set_eq. intros i. destruct (decide (i ∈ held_by_peer q)); set_solver.
Qed.

Lemma confirm_accounted L n a k now j : accounted L n →
  (∀ p, actives n !! a = Some p → is_Some (ActivePeer.pending_new_session (ActivePeer.pending p))) →
  let '(r, retired) := confirm_pending_peer_session (reg n) a k now j in
  accounted L (match retired with
               | Some retired => ensure_current_registered (free_retired_peer_session_indices (set_reg n r) retired) a
               | None => set_reg n r
               end).
Proof.
  intros Ha Hpend. unfold confirm_pending_peer_session. destruct (peers (reg n) !! a) as [p|] eqn:Hp; [|by apply (accounted_ext L n)].
  destruct (Hpend p Hp) as [s Hs]. pose proof (ac_peers L n Ha a p Hp) as Hok. pose proof (confirm_ok p k now j s Hok Hs) as Hq.
  destruct (ActivePeer.confirm_pending_session p k now j) as [q r]. destruct Hq as (Hq & -> & Hsub).
  destruct (po_current p Hok) as [c ->].
  destruct (retire_superseded_session_indices _ _ _ _) as [r' retired] eqn:E.
  eapply accounted_same_tables; [apply ensure_tables|]. by eapply (superseded L n r' a p q).
Qed.

Lemma cutover_loop_accounted L n now j l : accounted L n → accounted L (cutover_loop n now j l).
Proof.
  apply foldl_accounted. clear n. intros n a Ha. unfold cutover_due_fmp_rekey.
  destruct (peers (reg n) !! a) as [p|] eqn:Hp; [|by apply (accounted_ext L n)].
  destruct (bool_decide (ActivePeer.pending_new_session (ActivePeer.pending p) = None) || _ || _) eqn:E; [by apply (accounted_ext L n)|].
  apply orb_false_iff in E as [[E%bool_decide_eq_false _]%orb_false_iff _].
  pose proof (confirm_accounted L n a (negb (ActivePeer.current_k_bit (ActivePeer.session p))) now (j a) Ha) as Hc.
  destruct (confirm_pending_peer_session _ _ _ _ _) as [r [retired|]]; apply Hc; intros p' Hp'; unfold actives in Hp';
    rewrite Hp in Hp'; simplify_eq; by apply not_eq_None_Some.
Qed.

Lemma promote_pending_accounted L n a k b now j :
  accounted L n → accounted L (promote_dataplane_authenticated_pending_fmp_epoch n a k b now j).
Proof.
  intros Ha. unfold promote_dataplane_authenticated_pending_fmp_epoch, peer_of. destruct (peers (reg n) !! a) as [p|] eqn:Hp; [|done].
  destruct (bool_decide (ActivePeer.pending_new_session (ActivePeer.pending p) = None) || _) eqn:E; [done|].
  apply orb_false_iff in E as [E%bool_decide_eq_false _].
  pose proof (confirm_accounted L n a k now j Ha) as Hc.
  destruct (confirm_pending_peer_session _ _ _ _ _) as [r [retired|]]; apply Hc; intros p' Hp'; unfold actives in Hp';
    rewrite Hp in Hp'; simplify_eq; by apply not_eq_None_Some.
Qed.

(** ** Rekeys *)

Lemma initiate_accounted L cfg n a e n' b sent : accounted L n → initiate_rekey cfg n a e = Ok (n', b, sent) → accounted L n'.
Proof.
  intros Ha. unfold initiate_rekey, prepare_fmp_rekey_initiation.
  destruct (peers (reg n) !! a) as [p|] eqn:Hp; [|by intros [= <-]].
  destruct (ActivePeer.transport_id (ActivePeer.path p)) as [t|] eqn:Ht; [|by intros [= <-]].
  destruct (ActivePeer.current_addr (ActivePeer.path p)) as [addr|] eqn:Hc; [|by intros [= <-]].
  destruct (is_connecting_to_peer_on_path n a t addr e) eqn:Hpath; [by intros [= <-]|].
  apply orb_false_iff in Hpath as [Hpath _]. unfold fmp_rekey_owns_path, peer_of in Hpath. rewrite Hp, Ht, Hc in Hpath.
  rewrite (bool_decide_true (Some t = Some t)), (bool_decide_true (Some addr = Some addr)) in Hpath by done.
  rewrite orb_true_l, !andb_true_r in Hpath.
  apply orb_false_iff in Hpath as [[Hprog Hpend%bool_decide_eq_false]%orb_false_iff _].
  assert (ActivePeer.pending_new_session (ActivePeer.pending p) = None) as Hnone by (by apply eq_None_not_Some).
  destruct (IndexAllocator.allocate (index_allocator n) (env_rng e)) as [alloc r] eqn:Eal.
  destruct (allocate_spec n (env_rng e) alloc r Eal) as (Hal & Hconns & Hact).
  destruct r as [our|err|]; [|intros [= <-]; by apply (accounted_ext L n)..]. destruct Hal as [Hfresh Hused].
  destruct (HandshakeState.write_message_1 _ _) as [hs [m|err|]]; [| |done].
  2: { intros [= <- _ _]. apply (accounted_ext L n); [reflexivity|reflexivity| |exact Ha]. rewrite used_free, Hused. set_solver. }
  unfold record_fmp_rekey_initiated. cbn [reg set_allocator]. rewrite Hp. cbn [negb].
  set (q := ActivePeer.set_rekey_state _ _ _ _ _). set (n1 := set_pending_outbound _ _).
  assert (accounted L n1) as Hn1.
  { destruct (set_rekey_state_ok p hs our (Wire.build_msg1 our m) (wrap_u64 (env_now_ms e + handshake_resend_interval_ms cfg))) as [Hok Hh];
      [by apply (ac_peers L n Ha a)| |done|done|].
    { intros Hi. apply Hfresh, (holds_used L n (inr a)); [done|]. cbn. unfold actives. by rewrite Hp. }
    by apply (accounted_grow L n n1 a p q our). }
  destruct (env_send_ok e); intros [= <- _ _]; [done|]. by apply abandon_accounted.
Qed.

Lemma initiate_loop_accounted L cfg env l n n' sent : accounted L n → initiate_loop cfg n env l = Ok (n', sent) → accounted L n'.
Proof.
  revert n n' sent. induction l as [|a l IH]; intros n n' sent Ha; cbn [initiate_loop]; [by intros [= <- _]|].
  destruct (initiate_rekey cfg n a (env a)) as [[[n1 b] s1]| |] eqn:E; [|done|done]. cbn.
  destruct (initiate_loop cfg n1 env l) as [[n2 s2]| |] eqn:E2; [|done|done]. cbn. intros [= <- _].
  eapply IH; [|done]. by eapply initiate_accounted.
Qed.

Lemma check_rekey_accounted L ord ord' cfg n now j env n' sent : accounted L n →
  check_rekey ord ord' cfg n now j env = Ok (n', sent) → accounted L n'.
Proof.
  intros Ha. unfold check_rekey. set (n0 := expire_unconfirmed_fmp_rekeys _ _ _ _). set (plan := plan_fmp_rekey_tick _ _ _ _ _ _ _ _).
  assert (accounted L (drain_loop (cutover_loop n0 now j (plan_cutover plan)) now (plan_drain plan))) as Hd
    by (apply drain_loop_accounted, cutover_loop_accounted, expire_accounted, Ha).
  destruct (rekey_enabled cfg); cbn [negb]; [|by intros [= <- _]]. by apply initiate_loop_accounted.
Qed.

(** An index a peer drops without freeing it is lost, until it is freed. *)
Lemma accounted_lose L n n' a p p' (F : gset Z) : accounted L n → actives n !! a = Some p →
  conns n' = conns n → actives n' = <[a := p']> (actives n) → used n' = used n →
  held_by_peer p' = held_by_peer p ∖ F → F ⊆ held_by_peer p → peer_ok p' → accounted (L ∪ F) n'.
Proof.
  intros Ha Hp Hc Hp' Hu Hh HF Hok. pose proof Ha as [H1 H2 H3 H4].
  assert (holds n (inr a) = held_by_peer p) as E by (cbn; by rewrite Hp).
  assert (holds n' (inr a) = held_by_peer p ∖ F) as E' by (cbn; by rewrite Hp', lookup_insert_eq).
  assert (∀ h, h ≠ inr a → holds n' h = holds n h) as Ho.
  { intros [l|b] Hne; cbn; [by rewrite Hc|]. rewrite Hp', lookup_insert_ne; [done|]. intros <-. done. }
  assert (∀ h i, i ∈ holds n' h ↔ i ∈ holds n h ∧ (h = inr a → i ∉ F)) as Hall.
  { intros h i. destruct (decide (h = inr a)) as [->|Hne]; [rewrite E', E; set_solver|rewrite Ho by done; naive_solver]. }
  split.
  - intros i. rewrite Hu, H1, elem_of_union. setoid_rewrite Hall. split.
    + intros [?|[h Hi]]; [by left; left|]. destruct (decide (i ∈ F)); [left; by right|]. right. exists h. auto.
    + intros [[?|Hi]|(h & Hi & _)]; [by left| |by right; exists h]. right. exists (inr a). rewrite E. by apply HF.
  - intros i h [Hi|Hi]%elem_of_union [Hh' Hx]%Hall; [by apply (H2 i h)|].
    destruct (decide (h = inr a)) as [->|Hne]; [by apply Hx|]. apply Hne. apply (H3 i); [done|]. rewrite E. by apply HF.
  - intros i h h' [? _]%Hall [? _]%Hall. by apply (H3 i).
  - rewrite Hp'. by apply map_Forall_insert_2.
Qed.

Lemma accounted_free_lost L (X : gset Z) n n' : accounted L n → X ⊆ L →
  conns n' = conns n → actives n' = actives n → used n' = used n ∖ X → accounted (L ∖ X) n'.
Proof.
  intros [H1 H2 H3 H4] HX Hc Hp Hu. assert (∀ h, holds n' h = holds n h) as E by (intros []; cbn; by rewrite ?Hc, ?Hp).
  split; [|intros i h Hi; rewrite E; apply H2; set_solver|intros i h h'; rewrite !E; apply H3|by rewrite Hp].
  intros i. rewrite Hu, elem_of_difference, H1, elem_of_difference. setoid_rewrite E.
  split; [naive_solver|]. intros [?|[h Hi]]; [naive_solver|]. split; [eauto|]. intros HiX. by apply (H2 i h); [apply HX|].
Qed.

(** ** Resending *)

(** The indexes of the rekeys given up. *)
Definition given_up (out : list (NodeAddr * option (option Z * Z))) : gset Z :=
  list_to_set (omap (λ x, snd <$> x.2) out).

Lemma exhaust_accounted L ord n now_ms max : accounted L n →
  let '(r, out) := exhaust_fmp_rekey_msg1_resend_budgets ord (reg n) now_ms max in
  accounted (L ∪ given_up out) (set_reg n r) ∧ L ## given_up out.
Proof.
  intros Ha. unfold exhaust_fmp_rekey_msg1_resend_budgets. set (l := (base.filter _ _).*1). clearbody l.
  match goal with |- context [foldl ?g (reg n, []) l] => set (f := g) end.
  enough (∀ acc, accounted (L ∪ given_up acc.2) (set_reg n acc.1) ∧ L ## given_up acc.2 →
    let '(r, out) := foldl f acc l in accounted (L ∪ given_up out) (set_reg n r) ∧ L ## given_up out) as Hg.
  { apply (Hg (reg n, [])). cbn. split; [|set_solver]. rewrite union_empty_r_L. by apply (accounted_ext L n). }
  induction l as [|a l IH]; intros [r out]; cbn [foldl]; [done|]. intros [Hacc Hdis]. apply IH. clear IH. subst f. cbn [fst snd] in *.
  destruct (peers r !! a) as [p|] eqn:Hp; [|done].
  pose proof (ac_peers _ _ Hacc a p Hp) as Hok. pose proof (abandon_ok p Hok) as Hab.
  destruct (ActivePeer.abandon_rekey p) as [q i]. destruct Hab as (Hq & Hh & Hsub). cbn [fst snd].
  assert (given_up (out ++ [(a, (λ i, (ActivePeer.transport_id (ActivePeer.path p), i)) <$> i)])
          = given_up out ∪ list_to_set (option_list i)) as Eg.
  { unfold given_up. rewrite omap_app, list_to_set_app_L. by destruct i. }
  rewrite Eg. split.
  - rewrite (assoc_L (∪)). by apply (accounted_lose _ (set_reg n r) _ a p q).
  - apply disjoint_union_r. split; [done|]. intros x HxL Hx. apply (ac_lost _ _ Hacc x (inr a)); [set_solver|].
    cbn. unfold actives. cbn. rewrite Hp. by apply Hsub.
Qed.

(** A handler that only changes what the account does not look at. *)
Lemma bookkept L n n' a p q : accounted L n → actives n !! a = Some p →
  conns n' = conns n → actives n' = <[a := q]> (actives n) → used n' = used n →
  current_slot q = current_slot p → rekey_slot q = rekey_slot p → pending_slot q = pending_slot p →
  previous_slot q = previous_slot p →
  ActivePeer.rekey_in_progress (ActivePeer.rekey q) = ActivePeer.rekey_in_progress (ActivePeer.rekey p) →
  ActivePeer.pending_new_session (ActivePeer.pending q) = ActivePeer.pending_new_session (ActivePeer.pending p) →
  (is_Some (ActivePeer.transport_id (ActivePeer.path p)) → is_Some (ActivePeer.transport_id (ActivePeer.path q))) →
  accounted L n'.
Proof.
  intros Ha Hp Hc Hp' Hu H1 H2 H3 H4 H5 H6 Ht. pose proof (ac_peers L n Ha a p Hp) as Hok.
  destruct (peer_ok_frame p q H1 H2 H3 H4 H5 H6) as [Hq Hs]; [apply Ht, Hok|done|]. by apply (accounted_same L n n' a p q).
Qed.

Lemma resend_accounted L powi ord ord' cfg n now_ms : accounted L n →
  accounted L (resend_pending_rekeys powi ord ord' cfg n now_ms).1.
Proof.
  intros Ha. unfold resend_pending_rekeys. destruct (rekey_enabled cfg); cbn [negb]; [|done].
  pose proof (exhaust_accounted L ord n now_ms (handshake_max_resends cfg) Ha) as He.
  destruct (exhaust_fmp_rekey_msg1_resend_budgets _ _ _ _) as [r out]. destruct He as [He Hdis].
  set (n1 := foldl _ (set_reg n r) out).
  assert (accounted L n1) as Hn1.
  { assert (L = (L ∪ given_up out) ∖ given_up out) as -> by set_solver.
    assert (conns n1 = conns (set_reg n r) ∧ actives n1 = actives (set_reg n r) ∧ used n1 = used (set_reg n r) ∖ given_up out) as (E1 & E2 & E3).
    { subst n1. generalize (set_reg n r). clear. induction out as [|[a o] out IH]; intros n; cbn [foldl].
      - split_and!; [done|done|]. cbn. set_solver.
      - match goal with |- context [foldl ?g ?m out] => destruct (IH m) as (-> & -> & ->) end.
        unfold given_up. destruct o as [[[t|] i]|]; cbn; rewrite ?used_free; (split_and!; [done|done|]);
          change (used (deregister_session_index _ _)) with (used n); set_solver. }
    apply (accounted_free_lost _ _ (set_reg n r)); [done|set_solver|done|done|done]. }
  clearbody n1. generalize (due_fmp_rekey_msg1_resends ord' (reg n1) now_ms (handshake_max_resends cfg)). intros l.
  enough (∀ acc, accounted L acc.1 → accounted L (foldl (λ acc (x : NodeAddr * Z * list Z * list Z),
        let '(a, tid, addr, payload) := x in
        let '(r, count) := record_scheduled_fmp_rekey_msg1_resend powi (reg acc.1) a now_ms
                             (handshake_resend_interval_ms cfg) (handshake_resend_backoff cfg) in
        match count with
        | Some _ => (set_reg acc.1 r, acc.2 ++ [(tid, addr, payload)])
        | None => acc
        end) acc l).1) as Hg by by apply (Hg (n1, [])).
  clear. induction l as [|[[[a t] addr] m] l IH]; intros [n s] Ha; cbn [foldl]; [done|]. apply IH.
  unfold record_scheduled_fmp_rekey_msg1_resend. cbn [fst snd] in *. destruct (peers (reg n) !! a) as [p|] eqn:Hp; [|done].
  by eapply (bookkept L n _ a p).
Qed.

(** ** Removing a peer *)

Lemma remove_peer_tables n a p : actives n !! a = Some p → peer_ok p → let n' := remove_active_peer n a in
  conns n' = conns n ∧ actives n' = delete a (actives n) ∧ used n' = used n ∖ held_by_peer p.
Proof.
  intros Hp Hok. cbv zeta. unfold remove_active_peer, remove_with_session_indices. unfold actives in Hp. rewrite Hp.
  set (n0 := set_reg n _). set (n' := foldl _ n0 _).
  assert (conns n' = conns n0 ∧ actives n' = actives n0 ∧ used n' = used n0 ∖ list_to_set (idx_index <$> active_peer_session_indices p)) as (E1 & E2 & E3).
  { subst n'. generalize (active_peer_session_indices p), n0. clear. intros l. induction l as [|x l IH]; intros n; cbn [foldl].
    - split_and!; [done|done|]. cbn. set_solver.
    - match goal with |- context [foldl ?g ?m l] => destruct (IH m) as (-> & -> & ->) end.
      rewrite used_free. case_bool_decide; (split_and!; [done|done|]); cbn; change (used (deregister_session_index _ _)) with (used n); set_solver. }
  split_and!; [done|done|]. by rewrite E3, session_indices_slots.
Qed.

Lemma remove_peer_accounted L n a : accounted L n → accounted L (remove_active_peer n a).
Proof.
  intros Ha. destruct (actives n !! a) as [p|] eqn:Hp.
  - destruct (remove_peer_tables n a p Hp (ac_peers L n Ha a p Hp)) as (Hc & Hd & Hu).
    apply (accounted_drop_peer L n _ a); [done..|]. rewrite Hu. cbn. by rewrite Hp.
  - unfold remove_active_peer, remove_with_session_indices. unfold actives in Hp. by rewrite Hp.
Qed.

Lemma put_peer_bookkept L n a p q : accounted L n → actives n !! a = Some p →
  current_slot q = current_slot p → rekey_slot q = rekey_slot p → pending_slot q = pending_slot p →
  previous_slot q = previous_slot p →
  ActivePeer.rekey_in_progress (ActivePeer.rekey q) = ActivePeer.rekey_in_progress (ActivePeer.rekey p) →
  ActivePeer.pending_new_session (ActivePeer.pending q) = ActivePeer.pending_new_session (ActivePeer.pending p) →
  (is_Some (ActivePeer.transport_id (ActivePeer.path p)) → is_Some (ActivePeer.transport_id (ActivePeer.path q))) →
  accounted L (set_reg n (put_peer (reg n) a q)).
Proof. intros. by eapply (bookkept L n _ a p q). Qed.

Lemma decrypt_failure_accounted L cfg n a h now e n' b sent : accounted L n →
  handle_reported_fmp_decrypt_failure cfg n a h now e = Ok (n', b, sent) → accounted L n'.
Proof.
  intros Ha. unfold handle_reported_fmp_decrypt_failure, peer_of. destruct (peers (reg n) !! a) as [p|] eqn:Hp; [|by intros [= <-]].
  destruct (_ <? _); [by intros [= <-]|]. unfold handle_decrypt_failure, peer_of. rewrite Hp.
  destruct (ActivePeer.increment_decrypt_failures p) as [q count] eqn:Eq. set (n1 := set_reg n _).
  assert (accounted L n1) as Hn1 by (unfold ActivePeer.increment_decrypt_failures in Eq; simplify_eq; by apply (put_peer_bookkept L n a p)).
  clearbody n1. destruct (count <? _); [by intros [= <-]|].
  destruct (_ && ActivePeer.has_session q); [|intros [= <- _ _]; by apply remove_peer_accounted].
  destruct (negb _ && bool_decide _); [|by intros [= <-]].
  destruct (initiate_rekey cfg n1 a e) as [[[n2 started] s2]| |] eqn:E; [|done|done]. cbn.
  assert (accounted L n2) as Hn2 by by eapply initiate_accounted.
  destruct started; cbn; intros [= <- _ _]; [|by apply remove_peer_accounted].
  unfold peer_of. destruct (peers (reg n2) !! a) as [p2|] eqn:Hp2; [|done]. by apply (put_peer_bookkept L n2 a p2).
Qed.

(** ** Rekeys of the peer, and replies *)

(** The peer as [install_pending_rekey_session_and_index] leaves it. *)
Lemma install_spec r a p s i j b epoch now : peers r !! a = Some p → peer_ok p →
  ∃ r' x q, install_pending_rekey_session_and_index r a s i j b epoch now = (r', Some x)
    ∧ connections r' = connections r ∧ peers r' = <[a := q]> (peers r)
    ∧ (peer_ok (ActivePeer.set_pending_session p s i j b now) →
       peer_ok q ∧ held_by_peer q = held_by_peer (ActivePeer.set_pending_session p s i j b now)).
Proof.
  intros Hp Hok. unfold install_pending_rekey_session_and_index. destruct (po_transport p Hok) as [tid Ht]. rewrite Hp, Ht.
  cbv zeta. unfold insert_session_index. eexists _, _, _. split; [reflexivity|]. split; [done|]. split; [done|].
  intros Hq. unfold held_by_peer.
  destruct epoch, b; (match type of Hq with peer_ok ?p0 => match goal with |- peer_ok ?q ∧ _ =>
    destruct (peer_ok_frame p0 q) as [Hq' Hs]; [done..|apply Hq|done|] end end; split; [exact Hq'|f_equal; exact Hs]).
Qed.

Lemma respond_accounted L n a p s i m t addr e : accounted L n → actives n !! a = Some p → rekey_slot p = None → pending_slot p = None →
  accounted L (respond_rekey n a s i m t addr e).1.
Proof.
  intros Ha Hp Hr Hpe. unfold respond_rekey.
  destruct (IndexAllocator.allocate (index_allocator n) (re_rng e)) as [alloc r] eqn:Eal.
  destruct (allocate_spec n (re_rng e) alloc r Eal) as (Hal & Hconns & Hact).
  destruct r as [our|err|]; [|by apply (accounted_ext L n)..]. destruct Hal as [Hfresh Hused].
  destruct s as [s|]; [|apply (accounted_ext L n); [done|done| |done]; cbn; rewrite used_free, Hused; set_solver].
  pose proof (ac_peers L n Ha a p Hp) as Hok.
  destruct (install_spec (reg n) a p s our i false None (re_now e) Hp Hok) as (r & x & q & E & Ec & Ep & Hq). cbn [reg set_allocator].
  rewrite E. unfold peer_of. cbn [reg set_reg]. rewrite Ep, lookup_insert_eq. set (q' := ActivePeer.set_handshake_msg2 _ _ _).
  set (n1 := set_reg _ (put_peer _ a q')).
  assert (accounted L n1) as Hn1.
  { destruct (set_pending_session_ok p s our i false (re_now e)) as [Hq0 Hh]; [done| |done|done|].
    { intros Hi. apply Hfresh, (holds_used L n (inr a)); [done|]. cbn. by rewrite Hp. }
    destruct (Hq Hq0) as [Hqok Hqh]. destruct (peer_ok_frame q q') as [Hq' Hs]; [done..|apply Hqok|done|].
    apply (accounted_grow L n n1 a p q' our); [done|done|done|exact Ec| |done| |done].
    - unfold actives. cbn. by rewrite Ep, insert_insert_eq.
    - rewrite <- Hh, <- Hqh. unfold held_by_peer. by rewrite Hs. }
  clearbody n1. cbn [fst snd].
  destruct (negb _); [by apply abandon_accounted|]. destruct (re_send_ok e); [done|]. by apply abandon_accounted.
Qed.

(** Abandoning leaves neither a rekey nor a pending session. *)
Lemma abandon_clears n a p : actives n !! a = Some p → ∃ q, actives (abandon_fmp_rekey_for_peer n a).1 !! a = Some q
  ∧ rekey_slot q = None ∧ pending_slot q = None.
Proof.
  intros Hp. unfold abandon_fmp_rekey_for_peer, peer_of. unfold actives in *. rewrite Hp.
  exists (ActivePeer.abandon_rekey (ActivePeer.clear_handshake_msg2 p)).1. split; [|done].
  destruct (ActivePeer.abandon_rekey (ActivePeer.clear_handshake_msg2 p)) as [q [i|]]; cbn;
    [destruct (ActivePeer.transport_id (ActivePeer.path p)); cbn|]; by rewrite lookup_insert_eq.
Qed.

Lemma lose_dual_clears n a p : actives n !! a = Some p → ∃ q, actives (lose_dual_initiation n a) !! a = Some q
  ∧ rekey_slot q = None ∧ pending_slot q = None.
Proof.
  intros Hp. unfold lose_dual_initiation, peer_of. unfold actives in *. rewrite Hp.
  exists (ActivePeer.abandon_rekey p).1. split; [|done].
  destruct (ActivePeer.abandon_rekey p) as [q [i|]]; cbn;
    [destruct (ActivePeer.transport_id (ActivePeer.path p)); cbn|]; by rewrite lookup_insert_eq.
Qed.

Lemma rekey_msg1_accounted L n a c i m t addr e : accounted L n → accounted L (same_epoch_rekey_msg1 n a c i m t addr e).1.
Proof.
  intros Ha. unfold same_epoch_rekey_msg1, peer_of. destruct (peers (reg n) !! a) as [p|] eqn:Hp; [|done].
  destruct (duplicate_rekey_msg2 p i); [done|].
  pose proof (ac_peers L n Ha a p Hp) as [_ _ _ Hre Hpe _].
  destruct (bool_decide (is_Some (ActivePeer.pending_new_session (ActivePeer.pending p)))) eqn:Hs.
  - destruct (ActivePeer.pending_rekey_initiator (ActivePeer.pending p)); cbn [andb]; [done|].
    destruct (ActivePeer.rekey_in_progress (ActivePeer.rekey p)); cbn [andb].
    + destruct (me (abandon_fmp_rekey_for_peer n a).1 <? a); [by apply abandon_accounted|].
      destruct (abandon_clears n a p Hp) as (q & Hq & _). destruct (lose_dual_clears _ a q Hq) as (q' & Hq' & Hr & Hpn).
      apply (respond_accounted L _ a q'); [by apply lose_dual_accounted, abandon_accounted|done..].
    + destruct (abandon_clears n a p Hp) as (q & Hq & Hr & Hpn). apply (respond_accounted L _ a q); [by apply abandon_accounted|done..].
  - cbn [andb]. apply bool_decide_eq_false in Hs. destruct (ActivePeer.rekey_in_progress (ActivePeer.rekey p)); cbn [andb].
    + destruct (me n <? a); [done|]. destruct (lose_dual_clears n a p Hp) as (q & Hq & Hr & Hpn).
      apply (respond_accounted L _ a q); [by apply lose_dual_accounted|done..].
    + apply (respond_accounted L _ a p); [done|done|by apply Hre|]. apply eq_None_not_Some. by rewrite <- Hpe.
Qed.

Lemma receive_msg1_accounted L n l packet random e n' sent : accounted L n →
  receive_rekey_msg1 n l packet random e = Ok (n', sent) → accounted L n'.
Proof.
  intros Ha. unfold receive_rekey_msg1. destruct (Wire.parse_msg1 _) as [h|]; [|by intros [= <-]].
  destruct (PeerConnection.receive_handshake_init _ _ _ _ _ _) as [c [m|err|]]; [|by intros [= <-]|done].
  destruct (PeerConnection.expected_identity _) as [id|]; [|by intros [= <-]].
  destruct (same_epoch_rekey_msg1 _ _ _ _ _ _ _ _) as [n1 s1] eqn:E. intros [= <- _].
  pose proof (rekey_msg1_accounted L n (id_node_addr id) c (Wire.m1_sender_idx h) m (packet_transport_id packet)
    (packet_remote_addr packet) e Ha) as Hr. by rewrite E in Hr.
Qed.

(** Reading the reply keeps the rekey's index. *)
Lemma complete_rekey_frame p msg : let '(q, r) := ActivePeer.complete_rekey_msg2 msg p in
  r ≠ Panic → current_slot q = current_slot p ∧ rekey_slot q = rekey_slot p ∧ pending_slot q = pending_slot p
  ∧ previous_slot q = previous_slot p
  ∧ ActivePeer.rekey_in_progress (ActivePeer.rekey q) = ActivePeer.rekey_in_progress (ActivePeer.rekey p)
  ∧ ActivePeer.pending_new_session (ActivePeer.pending q) = ActivePeer.pending_new_session (ActivePeer.pending p)
  ∧ ActivePeer.path q = ActivePeer.path p.
Proof.
  unfold ActivePeer.complete_rekey_msg2. destruct (ActivePeer.rekey_handshake (ActivePeer.rekey p)) as [hs|]; [|done].
  destruct (HandshakeState.try_read_message_2 msg hs) as [hs' [u|err|]]; [|done|done].
  by destruct (NoiseSession.into_session hs') as [s|err|].
Qed.

Lemma find_rekey_spec ord n i a : find_rekey ord n i = Some a → ∃ p, actives n !! a = Some p ∧ rekey_slot p = Some i.
Proof.
  unfold find_rekey. intros ([b p] & Hf & ->)%fmap_Some_1. apply find_some in Hf as [Hin Hb].
  apply andb_prop in Hb as [_ Hb%bool_decide_eq_true]. exists p. split; [|done]. by apply (elem_of_map_iter ord), list_elem_of_In.
Qed.

(** The rekey of a peer that cannot go on is released. *)
Lemma released L n n1 a p q key : accounted L n → actives n !! a = Some p → peer_ok q → slots q = slots p →
  conns n1 = conns n → actives n1 = <[a := q]> (actives n) → used n1 = used n →
  accounted L (let '(q', i) := ActivePeer.abandon_rekey q in
    let n2 := set_reg n1 (put_peer (reg n1) a q') in
    forget_outbound (match i with Some i => release_rekey n2 (ActivePeer.transport_id (ActivePeer.path q)) i | None => n2 end) key).
Proof.
  intros Ha Hp Hq Hs Hc Hp1 Hu. apply (abandoned L n _ a p q); [done|done|done|done|..];
    destruct (ActivePeer.abandon_rekey q) as [q' [i|]]; cbn [fst snd]; unfold release_rekey;
    try destruct (ActivePeer.transport_id (ActivePeer.path q)); try (exact Hc);
    try (unfold actives in *; cbn; rewrite Hp1; by rewrite insert_insert_eq);
    try (change (used (forget_outbound ?x ?k)) with (used x); rewrite ?used_free; change (used n1) with (used n1) in *;
      unfold used in *; cbn; rewrite Hu; set_solver).
Qed.

Lemma finish_msg2_accounted L ord n h m key now n' : accounted L n → finish_rekey_msg2 ord n h m key now = Ok n' → accounted L n'.
Proof.
  intros Ha. unfold finish_rekey_msg2. destruct (find_rekey ord n (Wire.receiver_idx h)) as [a|] eqn:Ef; [|intros [= <-]; by apply (accounted_ext L n)].
  destruct (find_rekey_spec ord n _ a Ef) as (p & Hp & Hr). unfold peer_of. unfold actives in Hp. rewrite Hp.
  pose proof (ac_peers L n Ha a p Hp) as Hok. pose proof (complete_rekey_frame p m) as Hf.
  destruct (ActivePeer.complete_rekey_msg2 m p) as [q [[s ep]|err|]]; [| |done].
  - destruct Hf as (H1 & H2 & H3 & H4 & H5 & H6 & H7); [done|].
    destruct (peer_ok_frame p q H1 H2 H3 H4 H5 H6) as [Hq Hs]; [rewrite H7; apply Hok|done|].
    assert (ActivePeer.rekey_our_index (ActivePeer.rekey q) = Some (Wire.receiver_idx h)) as -> by (by rewrite <- Hr, <- H2). change (default (Wire.receiver_idx h) (Some (Wire.receiver_idx h))) with (Wire.receiver_idx h).
    destruct (install_spec (put_peer (reg n) a q) a q s (Wire.receiver_idx h) (Wire.m2_sender_idx h) true ep now) as (r & x & q1 & E & Ec & Ep & Hq1);
      [by cbn; rewrite lookup_insert_eq|done|]. cbn [reg set_reg]. rewrite E. intros [= <-].
    destruct (finish_rekey_ok q s (Wire.receiver_idx h) (Wire.m2_sender_idx h) true now Hq) as [Hq2 Hh]; [by rewrite H2|].
    destruct (Hq1 Hq2) as [Hok1 Hh1].
    assert (held_by_peer q1 = held_by_peer p) as Ehp by (rewrite Hh1, Hh; unfold held_by_peer; by rewrite Hs).
    apply (accounted_shrink L n _ a p q1 ∅); [done|done|exact Ec| |cbn; unfold used; cbn; set_solver|rewrite Ehp; set_solver|set_solver|done].
    unfold actives. cbn. rewrite Ep. cbn. by rewrite insert_insert_eq.
  - destruct Hf as (H1 & H2 & H3 & H4 & H5 & H6 & H7); [done|].
    destruct (peer_ok_frame p q H1 H2 H3 H4 H5 H6) as [Hq Hs]; [rewrite H7; apply Hok|done|].
    destruct (ActivePeer.has_rekey_handshake q); [intros [= <-]; by apply (accounted_same L n _ a p q)|].
    pose proof (released L n (set_reg n (put_peer (reg n) a q)) a p q key Ha Hp Hq Hs eq_refl eq_refl eq_refl) as Hrel.
    destruct (ActivePeer.abandon_rekey q) as [q' i]. by intros [= <-].
Qed.

Lemma rekey_msg2_accounted L ord ord' n packet now n' : accounted L n → handle_rekey_msg2 ord ord' n packet now = Ok n' → accounted L n'.
Proof.
  intros Ha. unfold handle_rekey_msg2. destruct (Wire.parse_msg2 _) as [h|]; [|by intros [= <-]].
  destruct (PendingOutbound.match_msg2 _ _ _ _) as [[key link]|]; [|by intros [= <-]].
  case_bool_decide; [by intros [= <-]|]. by apply finish_msg2_accounted.
Qed.

Lemma receive_accounted L n a t addr len ts b b' : accounted L n →
  accounted L (set_reg n (record_authenticated_fmp_receive (reg n) a t addr len ts b b').1).
Proof.
  intros Ha. unfold record_authenticated_fmp_receive. destruct (peers (reg n) !! a) as [p|] eqn:Hp; [|by apply (accounted_ext L n)].
  destruct (if b' then _ else _) as [q changed] eqn:Eq. cbn [fst].
  assert (ActivePeer.session q = ActivePeer.session p ∧ ActivePeer.rekey q = ActivePeer.rekey p ∧ ActivePeer.pending q = ActivePeer.pending p
    ∧ ActivePeer.drain q = ActivePeer.drain p
    ∧ (is_Some (ActivePeer.transport_id (ActivePeer.path p)) → is_Some (ActivePeer.transport_id (ActivePeer.path q)))) as (H1 & H2 & H3 & H4 & H5).
  { destruct b'; [|by simplify_eq]. unfold ActivePeer.set_current_addr in Eq. destruct (_ && _); by simplify_eq. }
  apply (put_peer_bookkept L n a p); [done|done|..];
    unfold current_slot, rekey_slot, pending_slot, previous_slot, ActivePeer.touch; destruct b; try case_bool_decide; cbn;
    rewrite ?H1, ?H2, ?H3, ?H4; done || exact H5.
Qed.

(** ** Connections *)

Lemma open_inbound_accounted L n l c a i m re w rng : accounted L n → conns n !! l = None →
  accounted L (open_inbound n l c a i m re w rng).
Proof.
  intros Ha Hl. unfold open_inbound. destruct (IndexAllocator.allocate (index_allocator n) rng) as [alloc r] eqn:Eal.
  destruct (allocate_spec n rng alloc r Eal) as (Hal & Hconns & Hact).
  destruct r as [our|err|]; [|by apply (accounted_ext L n)..]. destruct Hal as [Hfresh Hused].
  set (c' := match w with Some _ => _ | None => _ end).
  assert (held_by_conn c' = {[our]}) as Hc.
  { subst c'. unfold held_by_conn. destruct w as [[[??]?]|], (peer_of _ a), re; cbn; set_solver. }
  clearbody c'. assert (holds n (inl l) = ∅) as E by (cbn; by rewrite Hl).
  apply (accounted_conn L n _ l c'); [done|done|done| |rewrite Hc; set_solver].
  change (used (set_reg _ _)) with (used (set_allocator n alloc)). rewrite Hused, E, Hc. set_solver.
Qed.

Lemma open_outbound_accounted L cfg n l t addr id rng random now st ok n' sent : accounted L n → conns n !! l = None →
  open_outbound cfg n l t addr id rng random now st ok = Ok (n', sent) → accounted L n'.
Proof.
  intros Ha Hl. unfold open_outbound. destruct (IndexAllocator.allocate (index_allocator n) rng) as [alloc r] eqn:Eal.
  destruct (allocate_spec n rng alloc r Eal) as (Hal & Hconns & Hact).
  destruct r as [our|err|]; [|intros [= <- _]; by apply (accounted_ext L n)..]. destruct Hal as [Hfresh Hused].
  destruct (PeerConnection.start_handshake _ _ _ _ _) as [c [m|err|]]; [| |done].
  2: { intros [= <- _]. apply (accounted_ext L n); [done|done| |done]. rewrite used_free, Hused. set_solver. }
  assert (holds n (inl l) = ∅) as E by (cbn; by rewrite Hl).
  destruct ok; intros [= <- _].
  - match goal with |- accounted L (set_reg _ (insert_connection _ l ?x)) => assert (held_by_conn x = {[our]}) as Hc end.
    { unfold held_by_conn. destruct st; cbn; set_solver. }
    eapply (accounted_conn L n _ l); [done|done|done| |rewrite Hc; set_solver].
    change (used (set_reg _ _)) with (used (set_allocator n alloc)). rewrite Hused, E, Hc. set_solver.
  - apply (accounted_ext L n); [|done| |done].
    + unfold conns. cbn. rewrite delete_insert_eq. by apply delete_id.
    + rewrite used_free. change (used (set_reg _ _)) with (used (set_allocator n alloc)). rewrite Hused. set_solver.
Qed.

Lemma drop_connection_accounted L n l : accounted L n → accounted L (drop_connection n l).
Proof.
  intros Ha. unfold drop_connection. destruct (connections (reg n) !! l) as [c|] eqn:Hc; [|done].
  assert (holds n (inl l) = held_by_conn c) as E by (cbn; unfold conns; by rewrite Hc). unfold held_by_conn in E.
  apply (accounted_drop_conn L n _ l); [done|..];
    destruct (PeerConnection.our_index (PeerConnection.path c)) as [i|]; try destruct (PeerConnection.transport_id (PeerConnection.path c));
    try done; rewrite ?used_free, E; cbn; unfold used; cbn; set_solver.
Qed.

(** ** Promotion *)

(** A connection leaves with its index. *)
Lemma take_connection L n l c i : accounted L n → conns n !! l = Some c → PeerConnection.our_index (PeerConnection.path c) = Some i →
  let n0 := free (set_reg n (remove_connection (reg n) l)) i in
  accounted L n0 ∧ (i ∉ used n0) ∧ (i ∉ L) ∧ i ∈ used n ∧ ∀ a, i ∉ holds n (inr a).
Proof.
  intros Ha Hc Hi n0. assert (holds n (inl l) = {[i]}) as E.
  { cbn. rewrite Hc. cbn. unfold held_by_conn. rewrite Hi. cbn. set_solver. }
  assert (i ∈ holds n (inl l)) as Hl by (rewrite E; set_solver).
  assert (used n0 = used n ∖ {[i]}) as Eu by (subst n0; by rewrite used_free).
  split_and!.
  - apply (accounted_drop_conn L n _ l); [done|done|done|by rewrite Eu, E].
  - rewrite Eu. set_solver.
  - intros HL. by apply (ac_lost L n Ha i (inl l)).
  - by eapply holds_used.
  - intros a Hh. by pose proof (ac_once L n Ha i _ _ Hl Hh).
Qed.

(** What a restarted peer leaves behind. *)
Definition extra_slots (p : Peer) : gset Z :=
  list_to_set (option_list (rekey_slot p) ++ option_list (pending_slot p) ++ option_list (previous_slot p)).

Lemma extra_current p c : peer_ok p → current_slot p = Some c → held_by_peer p = {[c]} ∪ extra_slots p ∧ c ∉ extra_slots p.
Proof.
  intros [Hn _ _ _ _ _] Hc. unfold held_by_peer, extra_slots, slots in *. rewrite Hc in *. cbn in *.
  split; [set_solver|]. apply NoDup_cons in Hn as [Hn _]. by rewrite elem_of_list_to_set.
Qed.

Lemma accounted_new L n n' a q i : accounted L n → actives n !! a = None → i ∉ used n →
  conns n' = conns n → actives n' = <[a := q]> (actives n) → used n' = {[i]} ∪ used n →
  held_by_peer q = {[i]} → peer_ok q → accounted L n'.
Proof.
  intros Ha Hp Hi Hc Hp' Hu Hh Hok. assert (holds n (inr a) = ∅) as E by (cbn; by rewrite Hp).
  apply (accounted_peer L n n' a q); [done|done|done| | |done]; rewrite Hh; [rewrite Hu, E|]; set_solver.
Qed.

(** The peer is replaced by a fresh one and only its current index is freed. *)
Lemma accounted_restart L n n' a p q c i : accounted L n → actives n !! a = Some p → current_slot p = Some c → i ∉ used n →
  conns n' = conns n → actives n' = <[a := q]> (actives n) → used n' = {[i]} ∪ (used n ∖ {[c]}) →
  held_by_peer q = {[i]} → peer_ok q → accounted (L ∪ extra_slots p) n'.
Proof.
  intros Ha Hp Hcur Hi Hc Hp' Hu Hh Hok. pose proof (ac_peers L n Ha a p Hp) as Hokp.
  destruct (extra_current p c Hokp Hcur) as [Eh Hn].
  set (p1 := ActivePeer.set_drain (ActivePeer.abandon_rekey p).1 ActivePeer.no_drain).
  assert (slots p1 = [c]) as Es by (unfold slots; change (current_slot p1) with (current_slot p); by rewrite Hcur).
  set (n1 := set_reg n (put_peer (reg n) a p1)).
  assert (held_by_peer p1 = {[c]}) as E1 by (unfold held_by_peer; rewrite Es; cbn; set_solver).
  assert (accounted (L ∪ extra_slots p) n1) as H1.
  { apply (accounted_lose L n n1 a p p1); [done..| |rewrite Eh; set_solver|].
    - rewrite E1, Eh. set_solver.
    - split; [rewrite Es; apply NoDup_singleton|apply Hokp|apply Hokp|done|by split; intros []|by intros []]. }
  assert (holds n1 (inr a) = {[c]}) as E2 by (cbn; unfold actives; cbn; by rewrite lookup_insert_eq).
  apply (accounted_peer _ n1 n' a q); [done|done| | | |done].
  - unfold actives in *. cbn. by rewrite insert_insert_eq.
  - rewrite Hu, E2, Hh. change (used n1) with (used n). set_solver.
  - intros j. rewrite Hh. intros ->%elem_of_singleton. by right.
Qed.

Lemma set_current_addr_frame p t addr : let q := (ActivePeer.set_current_addr p t addr).1 in
  ActivePeer.transport_id (ActivePeer.path q) = Some t ∧ ActivePeer.session q = ActivePeer.session p
  ∧ ActivePeer.rekey q = ActivePeer.rekey p ∧ ActivePeer.pending q = ActivePeer.pending p ∧ ActivePeer.drain q = ActivePeer.drain p.
Proof.
  unfold ActivePeer.set_current_addr. destruct (bool_decide (ActivePeer.transport_id (ActivePeer.path p) = Some t)) eqn:E; [|done].
  apply bool_decide_eq_true in E. by destruct (bool_decide _).
Qed.

Lemma replaced_ok p x now j : peer_ok p → rp_our_index x ∉ held_by_peer p → let q := replaced_peer p x now j in
  peer_ok q ∧ slots q = rp_our_index x :: option_list (current_slot p).
Proof.
  intros Hok Hi q. pose proof Hok as [Hn _ [c Hc] _ _ _].
  destruct (extra_current p c Hok Hc) as [Eh _].
  assert (current_slot q = Some (rp_our_index x) ∧ rekey_slot q = None ∧ pending_slot q = None ∧ previous_slot q = Some c
    ∧ ActivePeer.pending_new_session (ActivePeer.pending q) = None
    ∧ is_Some (ActivePeer.transport_id (ActivePeer.path q))) as (H1 & H2 & H3 & H4 & H5 & H6).
  { assert (c ≠ rp_our_index x) as Hne%Z.eqb_neq by set_solver.
    subst q. unfold replaced_peer. set (q0 := ActivePeer.set_link_id _ _).
    destruct (set_current_addr_frame q0 (rp_transport_id x) (rp_addr x)) as (Ht & E1 & E2 & E3 & E4).
    assert (ActivePeer.our_index (ActivePeer.session q0) = Some (rp_our_index x)
      ∧ ActivePeer.rekey_our_index (ActivePeer.rekey q0) = None ∧ ActivePeer.pending q0 = ActivePeer.no_pending
      ∧ ActivePeer.previous_our_index (ActivePeer.drain q0) = Some c) as (F1 & F2 & F3 & F4).
    { split_and!; [done|done|done|]. subst q0. unfold ActivePeer.replace_session. unfold current_slot in Hc. cbn. by rewrite Hc, Hne. }
    clearbody q0. unfold current_slot, rekey_slot, pending_slot, previous_slot.
    destruct (rp_remote_epoch_update x); cbn; rewrite ?E1, ?E2, ?E3, ?E4, ?Ht, ?F1, ?F2, ?F3, ?F4; by split_and!. }
  assert (slots q = rp_our_index x :: option_list (current_slot p)) as Es by (unfold slots; by rewrite H1, H2, H3, H4, Hc).
  split; [|done]. split; [|done|by rewrite H1|by rewrite H2|by rewrite H5, H3|by rewrite H2].
  rewrite Es, Hc. cbn. apply NoDup_cons. split; [|apply NoDup_singleton]. rewrite list_elem_of_singleton. set_solver.
Qed.

(** A connection that finished its handshake. *)
Definition promotable (c : Conn) : bool := PeerConnection.has_session c && bool_decide (is_Some (promotion_parts c)).

(** The indexes a promotion leaves in use with no holder. *)
Definition lost_by_promotion (n : Node) (link : Z) (id : PeerIdentity) : gset Z :=
  match conns n !! link, actives n !! id_node_addr id with
  | Some c, Some old =>
      if promotable c && epoch_changed (ActivePeer.remote_epoch old) (PeerConnection.remote_epoch (PeerConnection.noise c))
      then extra_slots old else ∅
  | _, _ => ∅
  end.

Lemma free_unused L n i : accounted L n → i ∉ used n → accounted L (free n i).
Proof. intros Ha Hi. apply (accounted_ext L n); [done|done| |done]. rewrite used_free. set_solver. Qed.

Lemma sync_spec L n a e r p i : accounted L n → actives n !! a = Some p → i ∈ held_by_peer p →
  match sync_promoted_handshake n a e r with
  | (n', Ok _) => accounted L n'
  | (n', _) => accounted L n' ∧ i ∉ used n'
  end.
Proof.
  intros Ha Hp Hi. unfold sync_promoted_handshake. destruct (pe_synced e); [done|]. split; [by apply remove_peer_accounted|].
  destruct (remove_peer_tables n a p Hp (ac_peers L n Ha a p Hp)) as (_ & _ & ->). set_solver.
Qed.

Lemma prefer_addr_slots c p : peer_ok p → peer_ok (prefer_addr c p) ∧ slots (prefer_addr c p) = slots p.
Proof.
  intros Hok. unfold prefer_addr. destruct (PeerConnection.preferred_send_addr _) as [addr|]; [|done].
  unfold ActivePeer.set_preferred_send_addr. case_bool_decide; [done|]. by apply peer_ok_frame; try apply Hok.
Qed.

Lemma fresh_peer link c id e s i j t addr : let q := promoted_peer link c id e (s, i, j, t, addr) in
  peer_ok q ∧ held_by_peer q = {[i]}.
Proof.
  cbv zeta. unfold promoted_peer. set (p := ActivePeer.with_session _ _ _ _ _ _).
  assert (peer_ok p) as Hp by (split; [apply NoDup_singleton|done|done|done|by split; intros []|by intros []]).
  destruct (prefer_addr_slots c p Hp) as [Hq Hs].
  destruct (peer_ok_frame (prefer_addr c p) (ActivePeer.set_tree_announce_min_interval_ms (prefer_addr c p) (pe_announce_min_interval_ms e)))
    as [Hq' Hs']; [done..|apply Hq|done|]. split; [done|]. unfold held_by_peer. rewrite Hs', Hs. cbn. set_solver.
Qed.

Lemma insert_current_tables r a p : let r' := (insert_with_current_session_index r a p).1.1 in
  connections r' = connections r ∧ peers r' = <[a := p]> (peers r).
Proof. unfold insert_with_current_session_index. by destruct (active_peer_current_session_index p). Qed.

Lemma swapped (P Q U : gset Z) i : P ⊆ U → i ∈ Q → Q ⊆ {[i]} ∪ P → ({[i]} ∪ U) ∖ (P ∖ Q) = (U ∖ P) ∪ Q.
Proof.
  intros HU Hi HQ. apply set_eq. intros k. destruct (decide (k ∈ Q)), (decide (k ∈ P)); set_solver.
Qed.

(** A promoted connection's session takes over the peer's, whose older ones are retired. *)
Lemma replace_accounted L n n0 a c p x now j i r replaced : accounted L n0 → actives n0 !! a = Some p → i ∉ used n0 → rp_our_index x = i →
  conns n = conns n0 → actives n = actives n0 → used n = {[i]} ∪ used n0 →
  replace_current_session_and_path (reg n) a x now j = (r, replaced) →
  ∃ loser retired owner, replaced = Some (loser, retired, owner) ∧
    let n1 := free_retired_peer_session_indices (set_reg n r) retired in
    let n2 := match peer_of n1 a with Some p => set_reg n1 (put_peer (reg n1) a (prefer_addr c p)) | None => n1 end in
    accounted L n2 ∧ ∃ q, actives n2 !! a = Some q ∧ i ∈ held_by_peer q.
Proof.
  intros Ha Hp Hi Hx Hc He Hu. pose proof (ac_peers L n0 Ha a p Hp) as Hok.
  assert (holds n0 (inr a) = held_by_peer p) as E0 by (cbn; by rewrite Hp).
  assert (held_by_peer p ⊆ used n0) as Hsub by (intros k; rewrite <- E0; by apply (holds_used L)).
  destruct (replaced_ok p x now j Hok) as [Hq Hs]; [rewrite Hx; auto|].
  unfold replace_current_session_and_path. assert (peers (reg n) !! a = Some p) as -> by (unfold actives in *; by rewrite He).
  set (q := replaced_peer p x now j) in *.
  pose proof (retire_spec a (active_peer_session_indices q) (active_peer_session_indices p) (put_peer (reg n) a q)) as Hr.
  destruct (retire_superseded_session_indices _ _ _ _) as [r1 retired] eqn:E. destruct Hr as (Hc1 & Hp1 & Hi1).
  rewrite !session_indices_slots in Hi1 by done. unfold insert_session_index. intros [= <- <-].
  eexists _, _, _. split; [reflexivity|]. set (n1 := free_retired_peer_session_indices _ retired).
  destruct (free_retired_tables (set_reg n (set_index r1 (<[(rp_transport_id x, rp_our_index x) := a]> (by_session_index r1)))) retired) as (T1 & T2 & T3).
  fold n1 in T1, T2, T3. assert (actives n1 !! a = Some q) as Hq1 by (rewrite T2; unfold actives; cbn; rewrite Hp1; cbn; by rewrite lookup_insert_eq).
  assert (i ∈ held_by_peer q) as Hiq by (unfold held_by_peer; rewrite Hs, Hx; apply elem_of_union_l, elem_of_singleton_2; done).
  assert (held_by_peer q ⊆ {[i]} ∪ held_by_peer p) as Hqs.
  { clear -Hs Hx. unfold held_by_peer. rewrite Hs, Hx. unfold slots. destruct (current_slot p); cbn; set_solver. }
  assert (list_to_set (idx_index <$> retired) = held_by_peer p ∖ held_by_peer q) as Er.
  { apply set_eq. intros k. rewrite elem_of_list_to_set, Hi1, elem_of_difference. unfold held_by_peer. by rewrite !elem_of_list_to_set. }
  assert (accounted L n1) as H1.
  { apply (accounted_peer L n0 n1 a q); [done| | | | |done].
    - rewrite T1. unfold conns in *. cbn. by rewrite Hc1.
    - rewrite T2. unfold actives in *. cbn. rewrite Hp1. cbn. by rewrite He.
    - rewrite T3, Er, E0. change (used (set_reg n _)) with (used n). rewrite Hu. by apply swapped.
    - rewrite E0. intros k Hk. apply Hqs, elem_of_union in Hk as [->%elem_of_singleton|Hk]; [by right|by left]. }
  destruct (prefer_addr_slots c q Hq) as [Hpq Hps]. unfold peer_of. unfold actives in Hq1. rewrite Hq1. split.
  - by apply (accounted_same L n1 _ a q (prefer_addr c q)).
  - exists (prefer_addr c q). split; [unfold actives; cbn; by rewrite lookup_insert_eq|]. unfold held_by_peer. by rewrite Hps.
Qed.

(** [n0] is [n] without the promoted connection's index. *)
Lemma promote_new_spec L n n0 link c id e s i j t addr : let a := id_node_addr id in
  let n' := set_reg n (insert_with_current_session_index (reg n) a (promoted_peer link c id e (s, i, j, t, addr))).1.1 in
  accounted L n0 → i ∉ used n0 → conns n = conns n0 → actives n = actives n0 → used n = {[i]} ∪ used n0 → actives n0 !! a = None →
  match sync_promoted_handshake n' a e (Promoted a) with (n', Ok _) => accounted L n' | (n', _) => accounted L n' ∧ i ∉ used n' end.
Proof.
  intros a n' H0 Hi Hc Hp Hu Ha. destruct (fresh_peer link c id e s i j t addr) as [Hq Hh].
  destruct (insert_current_tables (reg n) a (promoted_peer link c id e (s, i, j, t, addr))) as [T1 T2].
  assert (actives n' = <[a := promoted_peer link c id e (s, i, j, t, addr)]> (actives n0)) as Hp' by (by rewrite <- Hp).
  eapply (sync_spec L n' a); [|by rewrite Hp', lookup_insert_eq|rewrite Hh; by apply elem_of_singleton_2].
  eapply (accounted_new L n0 n' a _ i); [done|done|done| |exact Hp'|exact Hu|done|done]. by rewrite <- Hc.
Qed.

Lemma promote_restarted_spec L n n0 link c id e s i j t addr old : let a := id_node_addr id in
  accounted L n0 → i ∉ used n0 → conns n = conns n0 → actives n = actives n0 → used n = {[i]} ∪ used n0 → actives n0 !! a = Some old →
  match promote_restarted n link c id e (s, i, j, t, addr) old with
  | (n', Ok _) => accounted (L ∪ extra_slots old) n'
  | (n', _) => accounted (L ∪ extra_slots old) n' ∧ i ∉ used n'
  end.
Proof.
  intros a H0 Hi Hc Hp Hu Ha. destruct (fresh_peer link c id e s i j t addr) as [Hq Hh]. unfold promote_restarted. fold a.
  set (q := promoted_peer link c id e (s, i, j, t, addr)) in *.
  pose proof (ac_peers L n0 H0 a old Ha) as Hok. destruct (po_current old Hok) as [cur Hcur], (po_transport old Hok) as [tid ->].
  assert (ActivePeer.our_index (ActivePeer.session old) = Some cur) as -> by done.
  assert (cur ∈ used n0) as Hcu.
  { apply (holds_used L n0 (inr a)); [done|]. cbn. rewrite Ha. cbn. destruct (extra_current old cur Hok Hcur) as [-> _].
    by apply elem_of_union_l, elem_of_singleton_2. }
  set (n1 := free _ cur). destruct (insert_current_tables (reg n1) a q) as [T1 T2]. set (n2 := set_reg n1 _).
  assert (actives n2 = <[a := q]> (actives n0)) as Hp2.
  { unfold actives. refine (eq_trans T2 _). subst n1. cbn. unfold actives in Hp. rewrite <- Hp. apply insert_delete_eq. }
  eapply (sync_spec _ n2 a e _ q i); [|by rewrite Hp2, lookup_insert_eq|rewrite Hh; by apply elem_of_singleton_2].
  apply (accounted_restart L n0 n2 a old q cur i); [done|done|done|done| |exact Hp2| |done|done].
  - rewrite <- Hc. exact T1.
  - change (used n2) with (used n1). subst n1. rewrite used_free. change (used (deregister_session_index _ _)) with (used n). rewrite Hu.
    clear -Hcu Hi. set_solver.
Qed.

Lemma promote_replacing_spec L n n0 link c id e s i j t addr old : let a := id_node_addr id in
  accounted L n0 → i ∉ used n0 → conns n = conns n0 → actives n = actives n0 → used n = {[i]} ∪ used n0 → actives n0 !! a = Some old →
  match promote_replacing n link c id e (s, i, j, t, addr) with
  | (n', Ok _) => accounted L n'
  | (n', _) => accounted L n' ∧ i ∉ used n'
  end.
Proof.
  intros a H0 Hi Hc Hp Hu Ha. unfold promote_replacing. fold a. destruct (replace_current_session_and_path _ _ _ _ _) as [r replaced] eqn:E.
  eapply (replace_accounted L n n0 a c old) in E as (loser & retired & owner & -> & H1 & q & Hq & Hiq); [|done..].
  by eapply (sync_spec L _ a e _ q i).
Qed.

Lemma promote_spec L n link c id e i : accounted L n → conns n !! link = Some c →
  PeerConnection.our_index (PeerConnection.path c) = Some i →
  let '(n', r) := promote_connection n link id e in
  let L' := L ∪ lost_by_promotion n link id in
  match r with
  | Ok _ => accounted L' n'
  | _ => accounted L' (free n' i) ∧ (promotable c = true → accounted L' n')
  end.
Proof.
  intros Ha Hc Hi. destruct (take_connection L n link c i Ha Hc Hi) as (H0 & Hf & HL & Hu & Hh). unfold promote_connection.
  assert (connections (reg n) !! link = Some c) as -> by done. set (n1 := set_reg n (remove_connection (reg n) link)) in *.
  assert (used n1 = {[i]} ∪ used (free n1 i)) as E1.
  { rewrite used_free. change (used n1) with (used n). rewrite <- union_difference_L; [done|]. by apply singleton_subseteq_l. }
  unfold lost_by_promotion. rewrite Hc. unfold promotable.
  destruct (PeerConnection.has_session c); cbn [negb andb]; [|destruct (actives n !! _); rewrite union_empty_r_L; by split].
  destruct (promotion_parts c) as [[[[[s i'] j] t] addr]|] eqn:Ep.
  2: { rewrite bool_decide_false by (by intros []). destruct (actives n !! _); cbn [andb]; rewrite union_empty_r_L; by split. }
  rewrite bool_decide_true by done. cbn [andb fst snd].
  assert (i' = i) as ->.
  { unfold promotion_parts in Ep. rewrite Hi in Ep. destruct (PeerConnection.take_session c).2; [|done].
    destruct (PeerConnection.their_index _); [|done]. destruct (match PeerConnection.completed_handshake_response _ with Some _ => _ | None => _ end); [|done].
    destruct (PeerConnection.source_addr _); [|done]. by simplify_eq. }
  assert (∀ X (r : Node * outcome PromotionError X) L', match r with (n', Ok _) => accounted L' n' | (n', _) => accounted L' n' ∧ i ∉ used n' end →
    let '(n', r) := r in match r with Ok _ => accounted L' n' | _ => accounted L' (free n' i) ∧ (true = true → accounted L' n') end) as Hfin.
  { intros X [n' []] L'; [done|..]; (intros [? ?]; split; [by apply free_unused|done]). }
  change (peer_of n1 (id_node_addr id)) with (actives n !! id_node_addr id).
  destruct (actives n !! id_node_addr id) as [old|] eqn:Hold.
  - destruct (epoch_changed _ _); [by apply Hfin, (promote_restarted_spec L n1 (free n1 i))|]. rewrite union_empty_r_L.
    destruct (pe_wins e); [by eapply Hfin, (promote_replacing_spec L n1 (free n1 i))|done].
  - rewrite union_empty_r_L. destruct (pe_room e); cbn [negb]; [by apply Hfin, (promote_new_spec L n1 (free n1 i))|].
    by apply (Hfin PromotionResult (free n1 i, Err MaxPeersExceeded)).
Qed.

End indexes.
