(* ===== verification/LinkReach.v ===== *)
(** * The life of a node's link sessions

    The handlers of [LinkRekey] as the steps of a transition system, in any order and
    with any arguments, and what holds of every state it reaches: the account of the
    session indexes. A step is labelled with the indexes it loses. *)

From S2P Require Import Prelude Bytes NodeAddr F64 Index NodeTables StateErr Noise NoiseTransport HandshakeWire Peers.
From S2P Require Import PeerRegistry LinkRekey LinkIndexes.

Local Open Scope Z_scope.

Section reach.
Context `{NoiseCrypto}.
Import PeerLifecycleRegistry Node.

Local Abbreviation Peer := ActivePeer.ActivePeer.
Local Abbreviation Conn := PeerConnection.PeerConnection.

Definition fresh_node (a : NodeAddr) (key : SecretKey) (epoch : list Z) : Node :=
  mkNode empty IndexAllocator.new ∅ a key epoch.

(** An inbound connection with everything [finish_inbound_handshake] asks for. *)
Definition answered (c : Conn) : bool :=
  bool_decide (is_Some (PeerConnection.our_index (PeerConnection.path c)))
  && bool_decide (is_Some (PeerConnection.their_index (PeerConnection.path c)))
  && bool_decide (is_Some (PeerConnection.handshake_msg2 (PeerConnection.resend c))).

(** Links get fresh numbers; a handshake that goes on keeps its index; connections are
    promoted when their handshake is complete. *)
Inductive step : gset Z → Node → Node → Prop :=
| step_open_inbound n l c a i m re w rng :
    connections (reg n) !! l = None → step ∅ n (open_inbound n l c a i m re w rng)
| step_open_outbound cfg n l t addr id rng random now st ok n' sent :
    connections (reg n) !! l = None → open_outbound cfg n l t addr id rng random now st ok = Ok (n', sent) → step ∅ n n'
| step_handshake n l c c' :
    connections (reg n) !! l = Some c →
    PeerConnection.our_index (PeerConnection.path c') = PeerConnection.our_index (PeerConnection.path c) →
    step ∅ n (set_reg n (insert_connection (reg n) l c'))
| step_drop n l : step ∅ n (drop_connection n l)
| step_promote n l c id e :
    connections (reg n) !! l = Some c → promotable c = true →
    step (lost_by_promotion n l id) n (promote_connection n l id e).1
| step_finish_inbound n l c id e :
    connections (reg n) !! l = Some c → answered c = true →
    step (lost_by_promotion n l id) n (finish_inbound_handshake n l id e)
| step_rekey_msg1 n l packet random e n' sent :
    receive_rekey_msg1 n l packet random e = Ok (n', sent) → step ∅ n n'
| step_rekey_msg2 ord ord' n packet now n' :
    handle_rekey_msg2 ord ord' n packet now = Ok n' → step ∅ n n'
| step_check ord ord' cfg n now j env n' sent :
    check_rekey ord ord' cfg n now j env = Ok (n', sent) → step ∅ n n'
| step_resend powi ord ord' cfg n now_ms : step ∅ n (resend_pending_rekeys powi ord ord' cfg n now_ms).1
| step_authenticated_pending n a k b now j : step ∅ n (promote_dataplane_authenticated_pending_fmp_epoch n a k b now j)
| step_receive n a t addr len ts b b' : step ∅ n (set_reg n (record_authenticated_fmp_receive (reg n) a t addr len ts b b').1)
| step_send n a bytes : step ∅ n (set_reg n (record_fmp_send_bookkeeping (reg n) a bytes).1)
| step_dead_path n a : step ∅ n (set_reg n (mark_link_dead_direct_path (reg n) a).1)
| step_dead_drain n a : step ∅ n (retire_fmp_rekey_drain_for_dead_path n a).1
| step_decrypt_failure cfg n a h now e n' b sent :
    handle_reported_fmp_decrypt_failure cfg n a h now e = Ok (n', b, sent) → step ∅ n n'
| step_remove n a : step ∅ n (remove_active_peer n a).

(** A run loses what its steps lose. *)
Inductive run : gset Z → Node → Node → Prop :=
| run_refl n : run ∅ n n
| run_step F G n n1 n2 : run F n n1 → step G n1 n2 → run (F ∪ G) n n2.

Lemma run_trans F G n n1 n2 : run F n n1 → run G n1 n2 → run (F ∪ G) n n2.
Proof.
  intros Hf Hg. revert n F Hf. induction Hg as [n1|G G' n1 n2 n3 _ IH Hs]; intros n F Hf; [by rewrite union_empty_r_L|].
  rewrite (assoc_L (∪)). eapply run_step; [by apply IH|done].
Qed.

(** ** Every step keeps the account *)

Lemma handshake_accounted L n l c c' : accounted L n → connections (reg n) !! l = Some c →
  PeerConnection.our_index (PeerConnection.path c') = PeerConnection.our_index (PeerConnection.path c) →
  accounted L (set_reg n (insert_connection (reg n) l c')).
Proof.
  intros Ha Hc Hi. assert (holds n (inl l) = held_by_conn c) as E by (cbn; unfold conns; by rewrite Hc).
  assert (held_by_conn c' = held_by_conn c) as E' by (unfold held_by_conn; by rewrite Hi).
  assert (held_by_conn c ⊆ used n) as Hsub by (intros i; rewrite <- E; by apply (holds_used L)).
  apply (accounted_conn L n _ l c'); [done|done|done| |intros i; rewrite E', E; by left].
  rewrite E, E'. change (used (set_reg _ _)) with (used n). rewrite difference_union_L. set_solver.
Qed.

Lemma bookkeeping_accounted L n a (f : Peer → Peer) :
  (∀ p, current_slot (f p) = current_slot p ∧ rekey_slot (f p) = rekey_slot p ∧ pending_slot (f p) = pending_slot p
    ∧ previous_slot (f p) = previous_slot p
    ∧ ActivePeer.rekey_in_progress (ActivePeer.rekey (f p)) = ActivePeer.rekey_in_progress (ActivePeer.rekey p)
    ∧ ActivePeer.pending_new_session (ActivePeer.pending (f p)) = ActivePeer.pending_new_session (ActivePeer.pending p)
    ∧ ActivePeer.path (f p) = ActivePeer.path p) →
  accounted L n → accounted L (set_reg n (match peers (reg n) !! a with Some p => put_peer (reg n) a (f p) | None => reg n end)).
Proof.
  intros Hf Ha. destruct (peers (reg n) !! a) as [p|] eqn:Hp; [|by apply (accounted_ext L n)].
  destruct (Hf p) as (H1 & H2 & H3 & H4 & H5 & H6 & H7). apply (put_peer_bookkept L n a p); [done..|by rewrite H7].
Qed.

Lemma finish_answered_accounted L n l c id e : accounted L n → connections (reg n) !! l = Some c → answered c = true →
  accounted (L ∪ lost_by_promotion n l id) (finish_inbound_handshake n l id e).
Proof.
  intros Ha Hc Hans. unfold answered in Hans.
  apply andb_prop in Hans as [[[i Hi]%bool_decide_eq_true [j Hj]%bool_decide_eq_true]%andb_prop [m Hm]%bool_decide_eq_true].
  unfold finish_inbound_handshake. rewrite Hc, Hi, Hj, Hm. pose proof (promote_spec L n l c id e i Ha Hc Hi) as Hs.
  destruct (promote_connection n l id e) as [n' [r|err|]]; [|by destruct Hs..].
  destruct r as [a|w|k a]; [|done|]; (destruct (peer_of n' a) as [p|] eqn:Hp; [|done];
    eapply accounted_same_tables; [apply ensure_tables|]; by apply (put_peer_bookkept _ n' a p)).
Qed.

Lemma promote_accounted L n l c id e : accounted L n → connections (reg n) !! l = Some c → promotable c = true →
  accounted (L ∪ lost_by_promotion n l id) (promote_connection n l id e).1.
Proof.
  intros Ha Hc Hp. assert (∃ i, PeerConnection.our_index (PeerConnection.path c) = Some i) as [i Hi].
  { unfold promotable in Hp. apply andb_prop in Hp as [_ [x Hx]%bool_decide_eq_true]. unfold promotion_parts in Hx.
    destruct (PeerConnection.take_session c).2; [|done]. destruct (PeerConnection.our_index _) as [i|]; [by exists i|done]. }
  pose proof (promote_spec L n l c id e i Ha Hc Hi) as Hs. destruct (promote_connection n l id e) as [n' [r|err|]]; [done|..];
    destruct Hs as [_ Hs]; by apply Hs.
Qed.

Lemma step_accounted F L n n' : step F n n' → accounted L n → accounted (L ∪ F) n'.
Proof.
  intros Hs Ha. destruct Hs; rewrite ?union_empty_r_L.
  - by eapply open_inbound_accounted.
  - by eapply open_outbound_accounted.
  - by eapply handshake_accounted.
  - by eapply drop_connection_accounted.
  - by eapply promote_accounted.
  - by eapply finish_answered_accounted.
  - by eapply receive_msg1_accounted.
  - by eapply rekey_msg2_accounted.
  - by eapply check_rekey_accounted.
  - by eapply resend_accounted.
  - by eapply promote_pending_accounted.
  - by eapply receive_accounted.
  - pose proof (bookkeeping_accounted L n a (λ p, ActivePeer.put_link_stats p
      (record_sent (ActivePeer.link_stats (ActivePeer.activity p)) bytes))) as Hb.
    unfold record_fmp_send_bookkeeping. revert Hb. destruct (peers (reg n) !! a); intros Hb; (apply Hb; [intros q; by split_and!|done]).
  - pose proof (bookkeeping_accounted L n a ActivePeer.mark_stale) as Hb.
    unfold mark_link_dead_direct_path. revert Hb. destruct (peers (reg n) !! a); intros Hb; (apply Hb; [|done]);
      intros q; unfold ActivePeer.mark_stale; case_bool_decide; by split_and!.
  - by eapply retire_drain_accounted.
  - by eapply decrypt_failure_accounted.
  - by eapply remove_peer_accounted.
Qed.

Lemma fresh_accounted a key epoch : accounted ∅ (fresh_node a key epoch).
Proof. split; [intros i; split; [done|]; intros [?|[[l|b] Hi]]; done|done|by intros i [l|b] h' Hi|done]. Qed.

Lemma run_accounted F L n n' : run F n n' → accounted L n → accounted (L ∪ F) n'.
Proof.
  intros Hr Ha. induction Hr as [n|F G n n1 n2 _ IH Hs]; [by rewrite union_empty_r_L|].
  rewrite (assoc_L (∪)). eapply step_accounted; [done|by apply IH].
Qed.


(** C38: when a connection of a peer that restarted is promoted, the indexes of the old
    peer's rekey, pending and draining sessions stay in use, held by nobody, whatever
    the node does afterwards. *)
Theorem restart_promotion_leaks a key epoch F G n l c id e old n' :
  run F (fresh_node a key epoch) n → connections (reg n) !! l = Some c → promotable c = true →
  peers (reg n) !! id_node_addr id = Some old →
  epoch_changed (ActivePeer.remote_epoch old) (PeerConnection.remote_epoch (PeerConnection.noise c)) = true →
  run G (promote_connection n l id e).1 n' →
  ∀ i, i ∈ extra_slots old → i ∈ used n' ∧ ∀ h, i ∉ holds n' h.
Proof.
  intros Hr Hc Hp Hold He Hr' i Hi. assert (extra_slots old = lost_by_promotion n l id) as E.
  { unfold lost_by_promotion, conns, actives. by rewrite Hc, Hold, Hp, He. }
  pose proof (run_trans _ _ _ _ _ (run_step _ _ _ _ _ Hr (step_promote n l c id e Hc Hp)) Hr') as Hrun.
  apply (run_accounted _ ∅) in Hrun as [H1 H2 _ _]; [|apply fresh_accounted].
  split; [apply H1; left|intros h; apply H2]; rewrite <- E; set_solver.
Qed.
End reach.

(** ** A run *)

Section example.
Import PeerLifecycleRegistry Node.
#[local] Existing Instance NoiseFacts.toy_crypto.

Definition ex_id : PeerIdentity := from_pubkey_full (true, false).

(** A connection whose handshake is complete, from a peer started as [epoch]. *)
Definition ex_conn (id : PeerIdentity) (link : Z) (epoch : list Z) : PeerConnection.PeerConnection :=
  PeerConnection.mkConn link Inbound
    (PeerConnection.mkConnNoise PeerConnection.Complete (Some id) None
       (Some (TransportFacts.toy_session (replicate 32 1) (replicate 32 2))) (Some epoch))
    (PeerConnection.mkConnPath None None (Some 1) (Some [9]) None) (PeerConnection.mkConnResend None None 0 false 0)
    (PeerConnection.mkConnOwner None None None false) 0 0 new_stats.

Definition ex_env (now : Z) : PromoteEnv := mkPromoteEnv true true true now now 0 500.

Definition ex_open (id : PeerIdentity) (n : Node) (link index : Z) (epoch : list Z) : Node :=
  open_inbound n link (ex_conn id link epoch) (id_node_addr id) (100 + link) [] None None (λ _, index).

Definition ex_promote (id : PeerIdentity) (n : Node) (link : Z) : Node := (promote_connection n link id (ex_env link)).1.

Definition ex_start : Node := fresh_node 0 true [1].
Definition ex_opened : Node := ex_open ex_id ex_start 1 51 [7].
Definition ex_active : Node := ex_promote ex_id ex_opened 1.
Definition ex_second : Node := ex_open ex_id ex_active 2 52 [7].
(** The second connection took over: the first session drains. *)
Definition ex_draining : Node := ex_promote ex_id ex_second 2.
(** A third connection, from the peer restarted. *)
Definition ex_restarted : Node := ex_open ex_id ex_draining 3 53 [8].

Lemma from_option_true {A} (f : A → bool) (o : option A) : from_option f false o = true → ∃ x, o = Some x ∧ f x = true.
Proof. destruct o as [x|]; [by exists x|done]. Qed.

Lemma ex_open_run F n link index epoch : run F ex_start n → bool_decide (connections (reg n) !! link = None) = true →
  run F ex_start (ex_open ex_id n link index epoch).
Proof.
  intros Hr Hl%bool_decide_eq_true. rewrite <- (union_empty_r_L F). eapply run_step; [exact Hr|]. by apply step_open_inbound.
Qed.

Lemma ex_promote_run n link : run ∅ ex_start n → from_option promotable false (connections (reg n) !! link) = true →
  bool_decide (lost_by_promotion n link ex_id = ∅) = true → run ∅ ex_start (ex_promote ex_id n link).
Proof.
  intros Hr Hp Hl%bool_decide_eq_true. destruct (connections (reg n) !! link) as [c|] eqn:Hc; [|done]. cbn in Hp.
  rewrite <- Hl, <- (union_empty_l_L (lost_by_promotion _ _ _)). eapply run_step; [exact Hr|]. by apply (step_promote n link c).
Qed.

Lemma ex_active_run : run ∅ ex_start ex_active.
Proof.
  apply (ex_promote_run ex_opened 1); [|vm_compute; reflexivity|vm_compute; reflexivity].
  apply (ex_open_run ∅ ex_start 1 51 [7]); [apply run_refl|vm_compute; reflexivity].
Qed.

Lemma ex_draining_run : run ∅ ex_start ex_draining.
Proof.
  apply (ex_promote_run ex_second 2); [|vm_compute; reflexivity|vm_compute; reflexivity].
  apply (ex_open_run ∅ ex_active 2 52 [7]); [exact ex_active_run|vm_compute; reflexivity].
Qed.

Lemma ex_restarted_run : run ∅ ex_start ex_restarted.
Proof. apply (ex_open_run ∅ ex_draining 3 53 [8]); [exact ex_draining_run|vm_compute; reflexivity]. Qed.


Lemma restart_promotion_leaks_witness : let n := ex_promote ex_id ex_restarted 3 in
  used n = {[51; 53]} ∧ 51 ∈ used n ∧ ∀ h, 51 ∉ holds n h.
Proof.
  split; [vm_compute; reflexivity|].
  destruct (from_option_true promotable (connections (reg ex_restarted) !! 3)) as (c & Hc & Hpr); [vm_compute; reflexivity|].
  destruct (from_option_true (λ p, from_option (λ c, epoch_changed (ActivePeer.remote_epoch p)
    (PeerConnection.remote_epoch (PeerConnection.noise c))) false (connections (reg ex_restarted) !! 3) && bool_decide (51 ∈ extra_slots p))
    (peers (reg ex_restarted) !! id_node_addr ex_id)) as (p & Hp & [He Hx%bool_decide_eq_true]%andb_prop); [vm_compute; reflexivity|].
  rewrite Hc in He.
  exact (restart_promotion_leaks 0 true [1] ∅ ∅ ex_restarted 3 c ex_id (ex_env 3) p _ ex_restarted_run Hc Hpr Hp He (run_refl _) 51 Hx).
Defined.

End example.
