(* ===== verification/RekeyExchange.v ===== *)
(** * A rekey between two nodes

    The messages of one rekey through the handlers of both ends: what each handler
    leaves, and that the exchange ends with one new session on both sides. *)

From S2P Require Import Prelude Bytes NodeAddr F64 Index NodeTables StateErr Noise NoiseTransport HandshakeWire Peers.
From S2P Require Import PeerRegistry LinkRekey LinkIndexes LinkReach.

Local Open Scope Z_scope.

Section exchange.
Context {crypto : NoiseCrypto} {laws : NoiseCryptoLaws crypto}.
Import PeerLifecycleRegistry Node.

Local Abbreviation Peer := ActivePeer.ActivePeer.

(** ** The initiator *)

Lemma not_connecting_idle n b p t addr e : peers (reg n) !! b = Some p → ActivePeer.transport_id (ActivePeer.path p) = Some t →
  ActivePeer.current_addr (ActivePeer.path p) = Some addr → is_connecting_to_peer_on_path n b t addr e = false →
  ActivePeer.pending_new_session (ActivePeer.pending p) = None.
Proof.
  intros Hp Ht Ha Hc. apply orb_false_iff in Hc as [Hc _]. unfold fmp_rekey_owns_path, peer_of in Hc. rewrite Hp, Ht, Ha in Hc.
  rewrite (bool_decide_true (Some t = Some t)), (bool_decide_true (Some addr = Some addr)) in Hc by done. rewrite orb_true_l, !andb_true_r in Hc.
  apply orb_false_iff in Hc as [[_ Hc%bool_decide_eq_false]%orb_false_iff _]. by apply eq_None_not_Some.
Qed.

Lemma initiate_sends cfg n b p e t addr alloc i hs m :
  peers (reg n) !! b = Some p → ActivePeer.transport_id (ActivePeer.path p) = Some t →
  ActivePeer.current_addr (ActivePeer.path p) = Some addr → is_connecting_to_peer_on_path n b t addr e = false →
  IndexAllocator.allocate (index_allocator n) (env_rng e) = (alloc, Ok i) →
  HandshakeState.write_message_1 (env_random e) (HandshakeState.set_local_epoch
    (HandshakeState.new_initiator (our_keypair n) (pubkey_full (ActivePeer.identity p))) (startup_epoch n)) = (hs, Ok m) →
  env_send_ok e = true →
  ∃ n' next, initiate_rekey cfg n b e = Ok (n', true, [(t, addr, Wire.build_msg1 i m)])
    ∧ reg n' = put_peer (reg n) b (ActivePeer.set_rekey_state p hs i (Wire.build_msg1 i m) next)
    ∧ pending_outbound n' !! (t, i) = Some (ActivePeer.link_id p) ∧ me n' = me n.
Proof.
  intros Hp Ht Haddr Hc Hal Hw Hs. unfold initiate_rekey, prepare_fmp_rekey_initiation. rewrite Hp, Ht, Haddr, Hc, Hal.
  cbn [our_keypair startup_epoch set_allocator reg]. rewrite Hw. unfold record_fmp_rekey_initiated. rewrite Hp. cbn [negb]. rewrite Hs.
  eexists _, _. split; [reflexivity|]. split; [reflexivity|]. split; [apply lookup_insert_eq|done].
Qed.

(** ** The responder *)

Lemma receive_init_spec link t addr ts key epoch m1 random r1 r2 m2 s a :
  HandshakeState.read_message_1 m1 (HandshakeState.set_local_epoch (HandshakeState.new_responder key) epoch) = (r1, Ok tt) →
  HandshakeState.remote_static r1 = Some a → HandshakeState.write_message_2 random r1 = (r2, Ok m2) →
  NoiseSession.into_session r2 = Ok s →
  ∃ c, PeerConnection.receive_handshake_init key epoch m1 random ts (PeerConnection.inbound_with_transport link t addr ts) = (c, Ok m2)
    ∧ PeerConnection.expected_identity (PeerConnection.noise c) = Some (from_pubkey_full a)
    ∧ (PeerConnection.take_session c).2 = Some s.
Proof.
  intros Hr Ha Hw Hs. unfold PeerConnection.receive_handshake_init. cbn -[HandshakeState.read_message_1 HandshakeState.write_message_2].
  rewrite Hr, Ha, Hw, Hs. eexists. split; [reflexivity|]. done.
Qed.

(** The node that answers: when it was rekeying too, it gave its own attempt up. *)
Definition yielded (n : Node) (a : NodeAddr) (p : Peer) : Node :=
  if ActivePeer.rekey_in_progress (ActivePeer.rekey p) then lose_dual_initiation n a else n.

Lemma yielded_peer n a p : peers (reg n) !! a = Some p → ∃ q, peers (reg (yielded n a p)) !! a = Some q
  ∧ ActivePeer.session q = ActivePeer.session p ∧ ActivePeer.path q = ActivePeer.path p.
Proof.
  intros Hp. unfold yielded. destruct (ActivePeer.rekey_in_progress _); [|by exists p].
  exists (ActivePeer.abandon_rekey p).1. split; [|done]. unfold lose_dual_initiation, peer_of. rewrite Hp.
  destruct (ActivePeer.abandon_rekey p) as [q [i|]]; [|apply lookup_insert_eq].
  destruct (ActivePeer.transport_id (ActivePeer.path p)); apply lookup_insert_eq.
Qed.

(** A responder without a pending session, whose own attempt yields, installs the
    session and answers. *)
Lemma respond_sends n a p c i j alloc s m2 t addr e tid :
  peers (reg n) !! a = Some p → ActivePeer.transport_id (ActivePeer.path p) = Some tid →
  duplicate_rekey_msg2 p i = None → ActivePeer.pending_new_session (ActivePeer.pending p) = None →
  (ActivePeer.rekey_in_progress (ActivePeer.rekey p) = true → a ≤ me n) → (PeerConnection.take_session c).2 = Some s →
  is_Some (CipherState.cipher_clone (NoiseSession.recv_cipher s)) →
  IndexAllocator.allocate (index_allocator (yielded n a p)) (re_rng e) = (alloc, Ok j) →
  re_route_ready e = true → re_epoch_installed e = true → re_send_ok e = true →
  ∃ n' q, same_epoch_rekey_msg1 n a c i m2 t addr e = (n', [(t, addr, Wire.build_msg2 j i m2)])
    ∧ peers (reg n') !! a = Some q ∧ ActivePeer.session q = ActivePeer.session p
    ∧ ActivePeer.pending q = ActivePeer.mkPending (Some s) (Some j) (Some i) false (Some (re_now e)).
Proof.
  intros Hp Ht Hd Hpend Hrek Hs Hcl Hal Hroute Hepoch Hsend. destruct (yielded_peer n a p Hp) as (p0 & Hp0 & Es & Ep).
  unfold same_epoch_rekey_msg1, peer_of. rewrite Hp, Hd, Hpend.
  rewrite (bool_decide_false (is_Some None)) by (by intros []). cbn [andb].
  assert (ActivePeer.rekey_in_progress (ActivePeer.rekey p) && (me n <? a) = false) as ->.
  { destruct (ActivePeer.rekey_in_progress _); [|done]. apply Z.ltb_ge. by apply Hrek. }
  fold (yielded n a p). set (n0 := yielded n a p) in *. unfold respond_rekey. rewrite Hal, Hs.
  unfold install_pending_rekey_session_and_index. cbn [reg set_allocator]. rewrite Hp0, Ep, Ht. unfold insert_session_index, peer_of.
  cbn [reg set_reg]. set (r1 := set_index _ _).
  assert (peers r1 !! a = Some (ActivePeer.record_peer_rekey (ActivePeer.set_pending_session p0 s j i false (re_now e)) (re_now e))) as E1
    by apply lookup_insert_eq.
  rewrite E1, Hroute, Hepoch, Hsend.
  rewrite bool_decide_true by done. cbn [andb negb]. eexists _, _. split; [reflexivity|].
  split; [apply lookup_insert_eq|]. rewrite <- Es. done.
Qed.

(** A node that rekeys under the smaller address ignores the other's request. *)
Lemma winner_ignores n b p c i m t addr e : peers (reg n) !! b = Some p →
  ActivePeer.pending_new_session (ActivePeer.pending p) = None → ActivePeer.rekey_in_progress (ActivePeer.rekey p) = true →
  me n < b → (same_epoch_rekey_msg1 n b c i m t addr e).1 = n.
Proof.
  intros Hp Hpend Hr Hlt%Z.ltb_lt. unfold same_epoch_rekey_msg1, peer_of. rewrite Hp, Hpend, Hr.
  destruct (duplicate_rekey_msg2 p i); [done|]. rewrite (bool_decide_false (is_Some None)) by (by intros []). cbn [andb].
  by rewrite Hlt.
Qed.

(** ** The reply *)

Lemma find_rekey_unique ord n b p i L n0 : accounted L n0 → i ∉ used n0 → peers (reg n) = <[b := p]> (peers (reg n0)) →
  ActivePeer.rekey_in_progress (ActivePeer.rekey p) = true → ActivePeer.rekey_our_index (ActivePeer.rekey p) = Some i →
  find_rekey ord n i = Some b.
Proof.
  intros Ha Hi Hp Hr Ho. unfold find_rekey. set (f := λ ap : NodeAddr * Peer, _).
  destruct (find f (map_iter ord (peers (reg n)))) as [[c q]|] eqn:E.
  - apply find_some in E as [Hin%list_elem_of_In Hf]. apply elem_of_map_iter in Hin. apply andb_prop in Hf as [_ Hf%bool_decide_eq_true].
    cbn. f_equal. destruct (decide (c = b)) as [->|Hne]; [done|]. rewrite Hp, lookup_insert_ne in Hin by done.
    destruct Hi. apply (holds_used L n0 (inr c)); [done|]. cbn. unfold actives. rewrite Hin. cbn. unfold held_by_peer, slots, rekey_slot.
    cbn in Hf. rewrite Hf. apply elem_of_list_to_set, elem_of_app. right. apply elem_of_app. left. by apply list_elem_of_singleton.
  - assert ((b, p) ∈ map_iter ord (peers (reg n))) as Hin%list_elem_of_In by (apply elem_of_map_iter; by rewrite Hp, lookup_insert_eq).
    pose proof (find_none _ _ E _ Hin) as Hf. subst f. cbn in Hf. by rewrite Hr, Ho, bool_decide_true in Hf.
Qed.

Lemma reply_installs ord ord' n b p packet h key now hs hs' s tid i j :
  Wire.parse_msg2 (packet_data packet) = Some h → Wire.receiver_idx h = i → Wire.m2_sender_idx h = j →
  pending_outbound n !! (packet_transport_id packet, i) = Some (ActivePeer.link_id p) →
  connections (reg n) !! ActivePeer.link_id p = None → find_rekey ord n i = Some b →
  peers (reg n) !! b = Some p → ActivePeer.rekey_handshake (ActivePeer.rekey p) = Some hs →
  ActivePeer.rekey_our_index (ActivePeer.rekey p) = Some i → ActivePeer.transport_id (ActivePeer.path p) = Some tid →
  HandshakeState.try_read_message_2 (drop (Wire.noise_msg2_offset h) (packet_data packet)) hs = (hs', Ok key) →
  NoiseSession.into_session hs' = Ok s →
  ∃ n' q, handle_rekey_msg2 ord ord' n packet now = Ok n' ∧ peers (reg n') !! b = Some q
    ∧ ActivePeer.session q = ActivePeer.session p ∧ ActivePeer.rekey q = ActivePeer.no_rekey
    ∧ ActivePeer.pending q = ActivePeer.mkPending (Some s) (Some i) (Some j) true (Some now).
Proof.
  intros Hh Hi Hj Ho Hc Hf Hp Hhs Hri Ht Htr Hs. unfold handle_rekey_msg2. rewrite Hh, Hi. unfold PendingOutbound.match_msg2. rewrite Ho.
  rewrite bool_decide_false by (rewrite Hc; by intros []). unfold finish_rekey_msg2. rewrite Hi, Hf. unfold peer_of. rewrite Hp.
  unfold ActivePeer.complete_rekey_msg2. rewrite Hhs, Htr, Hs. cbn [fst snd]. unfold install_pending_rekey_session_and_index.
  cbn [reg set_reg]. set (q := ActivePeer.set_rekey _ _).
  assert (peers (put_peer (reg n) b q) !! b = Some q) as -> by apply lookup_insert_eq.
  assert (ActivePeer.transport_id (ActivePeer.path q) = Some tid) as -> by done. unfold insert_session_index. eexists _, _. split; [reflexivity|].
  split; [apply lookup_insert_eq|]. rewrite Hj. subst q. cbn. rewrite Hri. by destruct (HandshakeState.remote_epoch hs').
Qed.

(** ** Taking the new session up *)

Lemma confirm_peers n a p k now j : peers (reg n) !! a = Some p →
  let '(r, retired) := confirm_pending_peer_session (reg n) a k now j in
  peers (reg (match retired with
              | Some l => ensure_current_registered (free_retired_peer_session_indices (set_reg n r) l) a
              | None => set_reg n r
              end)) !! a = Some (ActivePeer.confirm_pending_session p k now j).1.
Proof.
  intros Hp. unfold confirm_pending_peer_session. rewrite Hp. destruct (ActivePeer.confirm_pending_session p k now j) as [q [i|]].
  2: { cbn. by rewrite lookup_insert_eq. }
  pose proof (retire_spec a (active_peer_session_indices q) (active_peer_session_indices p) (put_peer (reg n) a q)) as Hr.
  destruct (retire_superseded_session_indices _ _ _ _) as [r' l]. destruct Hr as (_ & Hr & _).
  destruct (ensure_tables (free_retired_peer_session_indices (set_reg n r') l) a) as (_ & He & _).
  destruct (free_retired_tables (set_reg n r') l) as (_ & Hf & _). unfold actives in *. rewrite He, Hf. cbn. rewrite Hr. cbn. by rewrite lookup_insert_eq.
Qed.

(** The initiator, 250 ms after the reply. *)
Lemma cutover_takes n b p s i j t now jitter : peers (reg n) !! b = Some p → ActivePeer.rekey p = ActivePeer.no_rekey →
  ActivePeer.pending p = ActivePeer.mkPending (Some s) (Some i) (Some j) true (Some t) → t + FMP_CUTOVER_DELAY_MS ≤ now →
  peers (reg (cutover_loop n now jitter [b])) !! b
    = Some (ActivePeer.confirm_pending_session p (negb (ActivePeer.current_k_bit (ActivePeer.session p))) now (jitter b)).1.
Proof.
  intros Hp Hr Hpe Ht. unfold cutover_loop. cbn [foldl]. unfold cutover_due_fmp_rekey. rewrite Hp, Hpe, Hr.
  rewrite bool_decide_false by done. unfold ActivePeer.pending_rekey_cutover_due. rewrite Hpe. cbn [orb andb negb ActivePeer.rekey_in_progress
    ActivePeer.no_rekey ActivePeer.pending_rekey_initiator ActivePeer.pending_rekey_completed_at].
  assert ((FMP_CUTOVER_DELAY_MS <=? sat_sub now t) = true) as -> by (unfold sat_sub; apply Z.leb_le; unfold FMP_CUTOVER_DELAY_MS in *; lia).
  cbn [negb]. pose proof (confirm_peers n b p (negb (ActivePeer.current_k_bit (ActivePeer.session p))) now (jitter b) Hp) as Hc.
  by destruct (confirm_pending_peer_session _ _ _ _ _) as [r [l|]].
Qed.

(** The responder, on the first frame under the new key. *)
Lemma first_frame_takes n a p s k now jitter : peers (reg n) !! a = Some p →
  ActivePeer.pending_new_session (ActivePeer.pending p) = Some s →
  peers (reg (promote_dataplane_authenticated_pending_fmp_epoch n a k true now jitter)) !! a
    = Some (ActivePeer.confirm_pending_session p k now jitter).1.
Proof.
  intros Hp Hs. unfold promote_dataplane_authenticated_pending_fmp_epoch, peer_of. rewrite Hp, Hs.
  rewrite bool_decide_false by done. cbn [orb negb]. pose proof (confirm_peers n a p k now jitter Hp) as Hc.
  by destruct (confirm_pending_peer_session _ _ _ _ _) as [r [l|]].
Qed.

(** What an end holds once it has taken the new session up. *)
Definition rekeyed (old new : Peer) (s : NoiseSession.NoiseSession) (our their : Z) : Prop :=
  ActivePeer.noise_session (ActivePeer.session new) = Some s
  ∧ ActivePeer.our_index (ActivePeer.session new) = Some our
  ∧ ActivePeer.their_index (ActivePeer.session new) = Some their
  ∧ ActivePeer.current_k_bit (ActivePeer.session new) = negb (ActivePeer.current_k_bit (ActivePeer.session old))
  ∧ ActivePeer.previous_session (ActivePeer.drain new) = ActivePeer.noise_session (ActivePeer.session old)
  ∧ ActivePeer.previous_our_index (ActivePeer.drain new) = ActivePeer.our_index (ActivePeer.session old)
  ∧ ActivePeer.pending new = ActivePeer.no_pending.

Lemma confirm_rekeyed old p s our their b t k now jitter : ActivePeer.session p = ActivePeer.session old →
  ActivePeer.pending p = ActivePeer.mkPending (Some s) (Some our) (Some their) b t →
  k = negb (ActivePeer.current_k_bit (ActivePeer.session old)) →
  rekeyed old (ActivePeer.confirm_pending_session p k now jitter).1 s our their.
Proof. intros Hs Hp ->. unfold ActivePeer.confirm_pending_session, rekeyed. rewrite Hp, <- Hs. by split_and!. Qed.

(** C4: a rekey whose messages arrive, also when both ends begin one at once: then the
    node with the smaller address ignores the other's request, which yields. The
    initiator's message 1, the responder's answer, the initiator's cutover a quarter of a second later and the first frame the
    responder authenticates leave both ends with one fresh session: the keys and
    handshake hash agree, each end's receiver index is the one the other sends to, both
    K bits have flipped, and on both sides the old session drains under its old index. *)
Theorem rekey_exchange_agrees cfg A B L pa pb b t addr tid eA eB ea eb i j allocA allocB link t' addr' ts random_b
    ord ord' now now' jitter nowB jitterB :
  let a := id_node_addr (from_pubkey_full (public_key (our_keypair A))) in
  accounted L A → peers (reg A) !! b = Some pa →
  ActivePeer.transport_id (ActivePeer.path pa) = Some t → ActivePeer.current_addr (ActivePeer.path pa) = Some addr →
  drop 1 (serialize (pubkey_full (ActivePeer.identity pa))) = drop 1 (serialize (public_key (our_keypair B))) →
  connections (reg A) !! ActivePeer.link_id pa = None →
  is_connecting_to_peer_on_path A b t addr eA = false →
  IndexAllocator.allocate (index_allocator A) (env_rng eA) = (allocA, Ok i) → is_u32 i →
  sk_from_slice (env_random eA) = Some ea → length (startup_epoch A) = EPOCH_SIZE → env_send_ok eA = true →
  peers (reg B) !! a = Some pb → ActivePeer.transport_id (ActivePeer.path pb) = Some tid →
  duplicate_rekey_msg2 pb i = None → ActivePeer.pending_new_session (ActivePeer.pending pb) = None →
  (ActivePeer.rekey_in_progress (ActivePeer.rekey pb) = true → a ≤ me B) →
  IndexAllocator.allocate (index_allocator (yielded B a pb)) (re_rng eB) = (allocB, Ok j) → is_u32 j →
  sk_from_slice random_b = Some eb → length (startup_epoch B) = EPOCH_SIZE →
  re_route_ready eB = true → re_epoch_installed eB = true → re_send_ok eB = true →
  now + FMP_CUTOVER_DELAY_MS ≤ now' →
  ∃ A1 A2 B1 m1 m2 sa sb qa qb,
    initiate_rekey cfg A b eA = Ok (A1, true, [(t, addr, m1)])
    ∧ receive_rekey_msg1 B link (mkPacket t' addr' m1 ts) random_b eB = Ok (B1, [(t', addr', m2)])
    ∧ (me A < b → ∀ c i' m' t'' addr'' e', (same_epoch_rekey_msg1 A1 b c i' m' t'' addr'' e').1 = A1)
    ∧ handle_rekey_msg2 ord ord' A1 (mkPacket t addr m2 now) now = Ok A2
    ∧ peers (reg (cutover_loop A2 now' jitter [b])) !! b = Some qa ∧ rekeyed pa qa sa i j
    ∧ peers (reg (promote_dataplane_authenticated_pending_fmp_epoch B1 a
                    (negb (ActivePeer.current_k_bit (ActivePeer.session pb))) true nowB jitterB)) !! a = Some qb
    ∧ rekeyed pb qb sb j i
    ∧ TransportFacts.agree sa sb.
Proof.
  intros a Hacc HpA HtA HaA Hkey Hlink Hfree Hal Hi Hea Hepa Hsend HpB HtB Hdup Hpn Hri HalB Hj Heb Hepb Hr1 Hr2 Hr3 Hnow.
  destruct (TransportFacts.ik_handshake_agrees (our_keypair A) (our_keypair B) ea eb (pubkey_full (ActivePeer.identity pa)) (env_random eA)
    random_b (startup_epoch A) (startup_epoch B) Hea Heb Hepa Hepb Hkey)
    as (i1 & i2 & r1 & r2 & m1 & m2 & sa & sb & W1 & R1 & Hst & W2 & R2 & L1 & L2 & Hsa & Hsb & Hag & _).
  destruct (initiate_sends cfg A b pa eA t addr allocA i i1 m1 HpA HtA HaA Hfree Hal W1 Hsend) as (A1 & next & E1 & Er & Eo & Eme).
  destruct (parse_build_msg1 i m1 Hi L1) as [P1 D1]. destruct (parse_build_msg2 j i m2 Hj Hi L2) as [P2 D2].
  destruct (receive_init_spec link t' addr' ts (our_keypair B) (startup_epoch B) m1 random_b r1 r2 m2 sb (public_key (our_keypair A))
    R1 Hst W2 Hsb) as (c & Ec & Eid & Es).
  assert (is_Some (CipherState.cipher_clone (NoiseSession.recv_cipher sb))) as Hcl.
  { destruct Hag as [(k1 & k2 & (Hk & _ & Hc & _) & _) _]. rewrite Hc. cbn. unfold CipherState.cipher_clone, CipherState.build_cipher. cbn.
    by rewrite Hk. }
  destruct (respond_sends B a pb c i j allocB sb m2 t' addr' eB tid) as (B1 & q & E2 & HqB & Hqs & Hqp); [done..|].
  set (p1 := ActivePeer.set_rekey_state pa i1 i (Wire.build_msg1 i m1) next) in *.
  assert (i ∉ used A) as Hfresh by (pose proof (allocate_spec A (env_rng eA) allocA (Ok i) Hal) as [[? _] _]; done).
  destruct (reply_installs ord ord' A1 b p1 (mkPacket t addr (Wire.build_msg2 j i m2) now) (Wire.mkMsg2 j i 12) tt now i1 i2 sa t i j)
    as (A2 & qA & E3 & HqA & HqAs & HqAr & HqAp); [done|done|done|exact Eo|by rewrite Er| |by rewrite Er; apply lookup_insert_eq|done|done|done| |done|].
  { apply (find_rekey_unique ord A1 b p1 i L A); [done|done|by rewrite Er|done|done]. }
  { cbn [packet_data Wire.noise_msg2_offset]. unfold HandshakeState.try_read_message_2. by rewrite D2, R2. }
  eexists A1, A2, B1, _, _, sa, sb, _, _. split; [exact E1|]. split.
  { unfold receive_rekey_msg1. cbn [packet_data packet_transport_id packet_remote_addr packet_timestamp_ms]. rewrite P1.
    cbn [Wire.noise_msg1_offset Wire.m1_sender_idx]. rewrite D1, Ec, Eid. f_equal. exact E2. }
  split.
  { intros Hlt c' i' m' t'' addr'' e'. apply (winner_ignores A1 b p1); [by rewrite Er; apply lookup_insert_eq| |done|].
    - change (ActivePeer.pending p1) with (ActivePeer.pending pa). by eapply not_connecting_idle.
    - by rewrite Eme. }
  split; [exact E3|]. split; [by eapply cutover_takes|]. split.
  { eapply confirm_rekeyed; [done|exact HqAp|by rewrite HqAs]. }
  split; [eapply first_frame_takes; [exact HqB|by rewrite Hqp]|]. split; [|done]. by eapply confirm_rekeyed.
Qed.

End exchange.

(** ** An exchange *)

Section example.
Import PeerLifecycleRegistry Node.
#[local] Existing Instance NoiseFacts.toy_crypto.
#[local] Existing Instance NoiseFacts.toy_laws.

Definition ex_epoch : list Z := replicate 8 1.
(** The peer of the node with key [true], and the other way round. *)
Definition ex_peer (k : bool) : PeerIdentity := from_pubkey_full (public_key (negb k)).

Definition ex_ready (k : bool) : Node := ex_open (ex_peer k) (fresh_node 0 k ex_epoch) 1 51 ex_epoch.
Definition ex_end (k : bool) : Node := ex_promote (ex_peer k) (ex_ready k) 1.

Lemma ex_end_accounted : accounted ∅ (ex_end true).
Proof.
  assert (accounted ∅ (ex_ready true)) as Hr by (apply open_inbound_accounted; [apply fresh_accounted|done]).
  destruct (from_option_true promotable (connections (reg (ex_ready true)) !! 1)) as (c & Hc & Hp); [vm_compute; reflexivity|].
  pose proof (promote_accounted ∅ (ex_ready true) 1 c (ex_peer true) (ex_env 1) Hr Hc Hp) as Ha.
  assert (bool_decide (∅ ∪ lost_by_promotion (ex_ready true) 1 (ex_peer true) = ∅) = true) as E%bool_decide_eq_true by (vm_compute; reflexivity).
  rewrite E in Ha. exact Ha.
Qed.

Definition ex_cfg : RekeyConfig := mkRekeyConfig true 3600 1000 5 1000 (S754_zero false) 5.
Definition ex_initiate : Env := mkEnv None false true (λ _, 60) (replicate 32 1) 5000 true.
Definition ex_respond : RespondEnv := mkRespondEnv (λ _, 70) 5010 5010 true true true.

(** What the exchange asks of the peer of the end with key [k]. *)
Definition ex_idle (k : bool) (p : ActivePeer.ActivePeer) : bool :=
  bool_decide (ActivePeer.transport_id (ActivePeer.path p) = Some 1) && bool_decide (ActivePeer.current_addr (ActivePeer.path p) = Some [9])
  && bool_decide (drop 1 (serialize (pubkey_full (ActivePeer.identity p))) = drop 1 (serialize (public_key (negb k))))
  && bool_decide (ActivePeer.link_id p = 1) && bool_decide (duplicate_rekey_msg2 p 60 = None)
  && bool_decide (ActivePeer.pending_new_session (ActivePeer.pending p) = None)
  && negb (ActivePeer.rekey_in_progress (ActivePeer.rekey p)).

Lemma ex_end_idle k : ∃ p, peers (reg (ex_end k)) !! id_node_addr (ex_peer k) = Some p ∧
  ActivePeer.transport_id (ActivePeer.path p) = Some 1 ∧ ActivePeer.current_addr (ActivePeer.path p) = Some [9] ∧
  drop 1 (serialize (pubkey_full (ActivePeer.identity p))) = drop 1 (serialize (public_key (negb k))) ∧
  ActivePeer.link_id p = 1 ∧ duplicate_rekey_msg2 p 60 = None ∧
  ActivePeer.pending_new_session (ActivePeer.pending p) = None ∧ ActivePeer.rekey_in_progress (ActivePeer.rekey p) = false.
Proof.
  destruct (from_option_true (ex_idle k) (peers (reg (ex_end k)) !! id_node_addr (ex_peer k))) as (p & Hp & Hi);
    [destruct k; vm_compute; reflexivity|].
  exists p. split; [exact Hp|]. unfold ex_idle in Hi. rewrite !andb_true_iff, !bool_decide_eq_true, negb_true_iff in Hi.
  by destruct Hi as [[[[[[? ?] ?] ?] ?] ?] ?].
Qed.

Lemma pair_with {X Y} (x : X * Y) (y : Y) : x.2 = y → ∃ z, x = (z, y).
Proof. destruct x as [z y']. cbn. intros ->. by exists z. Qed.

Lemma rekey_exchange_agrees_witness : ∃ A1 m1 m2 qa sa sb,
  initiate_rekey ex_cfg (ex_end true) (id_node_addr (ex_peer true)) ex_initiate = Ok (A1, true, [(1, [9], m1)])
  ∧ (∃ A2, handle_rekey_msg2 canonical_order canonical_order A1 (mkPacket 1 [9] m2 5020) 5020 = Ok A2
     ∧ peers (reg (cutover_loop A2 5270 (λ _, 0) [id_node_addr (ex_peer true)])) !! id_node_addr (ex_peer true) = Some qa)
  ∧ ActivePeer.noise_session (ActivePeer.session qa) = Some sa ∧ TransportFacts.agree sa sb.
Proof.
  destruct (ex_end_idle true) as (pa & Ha & Ht & Had & Hk & Hl & _ & _ & _).
  destruct (ex_end_idle false) as (pb & Hb & Hbt & _ & _ & _ & Hd & Hpn & Hr).
  assert (our_keypair (ex_end true) = true) as Ka by (vm_compute; reflexivity).
  assert (our_keypair (ex_end false) = false) as Kb by (vm_compute; reflexivity).
  assert (bool_decide (connections (reg (ex_end true)) !! 1 = None) = true) as Hno%bool_decide_eq_true by (vm_compute; reflexivity).
  destruct (pair_with (IndexAllocator.allocate (index_allocator (ex_end true)) (env_rng ex_initiate)) (Ok 60)) as [alA HalA]; [vm_compute; reflexivity|].
  destruct (pair_with (IndexAllocator.allocate (index_allocator (ex_end false)) (re_rng ex_respond)) (Ok 70)) as [alB HalB]; [vm_compute; reflexivity|].
  destruct (rekey_exchange_agrees ex_cfg (ex_end true) (ex_end false) ∅ pa pb (id_node_addr (ex_peer true)) 1 [9] 1 ex_initiate ex_respond
    (Z.odd (NoiseFacts.toy_sum (replicate 32 1))) (Z.odd (NoiseFacts.toy_sum (replicate 32 4))) 60 70 alA alB 7 1 [8] 5005 (replicate 32 4)
    canonical_order canonical_order 5020 5270 (λ _, 0) 5300 0) as (A1 & A2 & B1 & m1 & m2 & sa & sb & qa & qb & E1 & _ & _ & E3 & E4 & Hq & _ & _ & Hag).
  - exact ex_end_accounted.
  - exact Ha.
  - exact Ht.
  - exact Had.
  - rewrite Kb. exact Hk.
  - rewrite Hl. exact Hno.
  - vm_compute. reflexivity.
  - exact HalA.
  - unfold is_u32, U32_MAX. lia.
  - vm_compute. reflexivity.
  - vm_compute. reflexivity.
  - reflexivity.
  - rewrite Ka. exact Hb.
  - exact Hbt.
  - exact Hd.
  - exact Hpn.
  - rewrite Hr. discriminate.
  - unfold yielded. rewrite Hr. exact HalB.
  - unfold is_u32, U32_MAX. lia.
  - vm_compute. reflexivity.
  - vm_compute. reflexivity.
  - reflexivity.
  - reflexivity.
  - reflexivity.
  - unfold FMP_CUTOVER_DELAY_MS. lia.
  - exists A1, m1, m2, qa, sa, sb. split; [exact E1|]. split; [exists A2; split; [exact E3|exact E4]|]. split; [apply Hq|exact Hag].
Defined.

End example.
